(* ===== verification/_CoqProject ===== *)
-Q . S2P
Prelude.v
Js.v
Identity.v
Permissions.v
PublicRows.v
Json.v
SpineRows.v
TenantDb.v
PublicDb.v
SpineDb.v
OAuth.v
Exec.v
Steady.v
Workflow.v
Fanout.v
Team.v
Sessions.v
AccessControl.v
Credentials.v
CredentialRuns.v
CredentialSpec.v
CodeSpec.v
TeamSpec.v
TeamRoutes.v
MembershipCache.v
MembershipRuns.v
MembershipWrites.v
SessionSpec.v
NetAddress.v
OAuthClients.v
ClientSpec.v
Cases.v
SendAccess.v
Phase.v
CaseRecords.v
Lifecycle.v
LifecycleSpec.v
LifecycleWitness.v
CredentialWitness.v
AccountWitness.v
Calendar.v
RateLimit.v
Media.v
Outbound.v
ChannelOutbound.v
ChannelEvents.v
ChannelEventSpec.v
ChannelMessages.v
ChannelCustomers.v
ChannelDelivery.v
ChannelRuns.v
Telegram.v
TelegramSpec.v
ChannelRetry.v
IntentSpec.v
CommandOutbox.v
Readiness.v
ReadinessSpec.v
OutboxSpec.v
Bulk.v
Scheduled.v
Around.v
ScheduledMoves.v
ScheduledRuns.v
ScheduledSpec.v
SendSpec.v
BulkJobs.v
BulkAudience.v
BulkCreate.v
BulkProgress.v
BulkPacing.v
ScheduledWitness.v
BulkWitness.v
OutboxWitness.v
ReadinessWitness.v
IntentWitness.v
ChannelWitness.v
