(* ===== verification/Prelude.v ===== *)
(** * The WATeamInbox verification library

    WATeamInbox is a shared inbox for customer conversations: an HTTP API
    (src/apps/api/src) over one PostgreSQL database with a schema per company, a web
    client, and workers that speak to WhatsApp and Telegram.  This library models the
    core of the API: who owns a conversation and what state its case is in, who may
    send, how scheduled messages and broadcasts leave exactly once, who is in a
    workspace and may change it, how sessions and the credentials of AI clients are
    issued and revoked, how business time is counted, how requests are limited and how
    customers are identified.

    ** How the code is modelled

    The database is a record of tables, each the list of its rows: those of one company
    and those of the public schema ([TenantDb.v], [PublicRows.v], [PublicDb.v]); a service is a function in the monad [M], which threads the tables, the clocks
    and the drawn UUIDs and ends in a value or in an error of the type [err].  A
    transaction that throws restores the tables.  Queries are [select],
    [select_first], [update], [insert_row] and the two ON CONFLICT inserts, each
    checking the unique indexes and CHECK constraints that the code relies on.  One
    operation runs at a time; concurrency is the order of operations, and the
    operations of the dispatchers, of token rotation and of teams are cut where the code
    commits, so that their theorems quantify over every interleaving of those steps, also with stale rows in hand.
    Clocks and UUIDs come from the class [Oracle], about which nothing is assumed
    unless a theorem says so; digests, password hashes and signed tokens are the class
    [Crypto], about which nothing is assumed either.  A JavaScript string is a list of UTF-16 code units
    ([Js.v]); ids and enumerated columns are ASCII strings or inductive types.
    Times are integral milliseconds; the outbox's times, which the
    database draws itself ([statement_timestamp]), are integral microseconds.

    ** Parts

    - [Js.v]: strings, trimming, parseInt, code unit order.
    - [Identity.v]: packages/shared/src/jid.ts, phone.ts, contact.ts.
    - [TenantDb.v], [Exec.v], [Steady.v]: rows, constraints, effects; [exec m t Q E] is the
      weakest precondition calculus of [M], and [steady R m] says that every outcome
      of [m] relates the tables before and after by the preorder [R].
    - [Workflow.v]: which conversation bridges which contact, assignments
      (contact.service.ts), SLA policies (sla-policy/policy.service.ts).
    - [Cases.v]: conversation-case.service.ts and the handlers of
      routes/conversations/state.ts; [SendAccess.v]: send-access.service.ts.
    - [Phase.v] (abstract lifecycle and invariant), [CaseRecords.v] (what every operation
      keeps, also outside of the invariant), [Lifecycle.v] (one refinement lemma per
      operation), [LifecycleSpec.v] (runs and properties), [LifecycleWitness.v].
    - [Calendar.v]: sla-policy/calendar.ts; time zones are the class [TimeZone].
    - [RateLimit.v]: config/rate-limit.config.ts, lib/rate-limit-store.ts.
    - [Media.v] (lib/storage.ts, media-reference-lock.ts; object storage is the class
      [Storage]), [Fanout.v] (channel-message-fanout.service.ts) and [Outbound.v] (commands,
      intents, quotes, sessions).
    - [CommandOutbox.v] (command-outbox.service.ts), [OutboxSpec.v], [OutboxWitness.v]: the queue of
      worker commands and its dispatcher; the broker is a parameter.
    - [Readiness.v] (outbox-dispatch.service.ts, the trigger of migration 084, the loop of
      command-outbox.service.ts), [ReadinessSpec.v], [ReadinessWitness.v]: which workspaces have
      commands due; dispatchers are processes whose statements interleave, as the rules of
      an inductive step relation over the shared tables.
    - [OAuth.v] (oauth.service.ts, api-token.service.ts): codes, grants and tokens; [Team.v]
      (services/company, the writers of permission.service.ts); [Sessions.v] (auth.service.ts,
      jwt.ts, refresh-token-retention.ts); [AccessControl.v] (the middleware, and the handlers of
      routes/companies, api-tokens.ts and oauth.ts that change state).
    - [Credentials.v] (every operation only lets the credentials of a user grow older),
      [CredentialRuns.v] (requests and rotations in flight as the steps of one system),
      [CredentialSpec.v], [CodeSpec.v]: promises about credentials.
    - [TeamSpec.v] (the invariant of teams, acceptance), [TeamRoutes.v] (who may change a
      workspace), [SessionSpec.v] (refreshes, resets, the reference of the retained tokens).
    - [MembershipCache.v] (company-membership.service.ts: the module's variables are a record, a
      promise is its number), [MembershipRuns.v] (calls, loads and writes as the steps of one
      system), [MembershipWrites.v] (every writer of company_members invalidates).
    - [NetAddress.v] (isPrivateAddress against the address ranges as numbers), [OAuthClients.v]
      (oauth-client.service.ts, oauth-hosted-clients.ts; the network, name resolution and the
      parsers of URLs and JSON are parameters), [ClientSpec.v].
    - [CredentialWitness.v], [AccountWitness.v]: concrete runs of these parts.
    - [Permissions.v] (effective-permissions.ts, permission.service.ts) and [ChannelOutbound.v]
      (channel-outbound.service.ts, channel-spine-authority.service.ts, adapter-registry.ts),
      [IntentSpec.v], [IntentWitness.v]: the dispatcher of neutral intents; the adapters are a
      parameter.
    - [Json.v] (JSON values, jsonb columns, the stableJson of event-processor.ts), [SpineRows.v]
      (the types of contracts.ts and the rows), [SpineDb.v] (channel-spine-schema.ts and the
      index runner, the queues of migrations 084 and 091): the data of the channel spine.
    - [ChannelEvents.v]: channel-spine/application/event-processor.ts; [ChannelEventSpec.v]
      (one delivery), [ChannelMessages.v] (the clock of a message), [ChannelCustomers.v] (who a
      conversation belongs to).  SHA-256, the collation of the runtime and the text of
      an error are the class [ChannelRuntime].
    - [ChannelDelivery.v]: routes/channel-ingress.ts and channel-event-retry.service.ts;
      [ChannelRuns.v]: deliveries, retries and everything else as one sequence.
    - [Telegram.v] (packages/adapter-telegram: normalize.ts, the verification of adapter.ts),
      [TelegramSpec.v]; [ChannelRetry.v]: what a retry reads back; [ChannelWitness.v].
    - [Bulk.v]: config/bulk.config.ts, bulk-job.service.ts; [Scheduled.v]:
      scheduled-message.service.ts, routes/messages/scheduled.ts,
      auto-reply.service.ts.
    - [Around.v], [ScheduledMoves.v]: how these services may change the tables;
      [ScheduledRuns.v]: their operations as the steps of one system; [ScheduledSpec.v],
      [SendSpec.v], [BulkPacing.v], [BulkAudience.v], [BulkCreate.v], [BulkJobs.v],
      [BulkProgress.v]: contracts; [ScheduledWitness.v], [BulkWitness.v]: concrete runs.

    A conversation workflow operation locks its thread, checks the acting user against
    the assignments, writes conversation_cases and mirrors the result into
    conversation_states.  The dispatcher leases due rows of scheduled_messages, asks
    the send access guard (or re-checks a broadcast's recipient, or an automatic
    reply's promise), and writes a message with a command or an intent; a broadcast
    is a job whose leaves are such rows, paced by a budget per connection.  A request
    passes the middleware of AccessControl.v, which reads the membership that Team.v
    writes.  A provider's request reaches the channel spine through the ingress route: the
    account's adapter turns it into normalized events, the processor reserves each
    identity in channel_event_inbox, applies the event in one transaction (with the case of
    Cases.v that an inbound message opens) and records a failure for the retry service.
    An MCP request is verified against the tokens and grants of OAuth.v, which
    removing a member revokes; the realtime fan-out reads the cached membership, which
    every writer of Team.v invalidates.

    ** What the theorems show

    - Lifecycle: every operation, from any tables, changes nothing when it throws and keeps
      closed cases, case boundaries and the constraints.  From tables that satisfy the
      invariant ([Inv] of Phase.v) it moves one thread along never, live, closed and leaves
      the others alone, and reachable states have at most one active case per thread and a
      projection that names it.  The exception is an inbound message that carries a contact
      its conversation is not linked to ([op_ok]): the event processor sends one on a second
      thread of a customer, and only the first sentence holds of it.  The exact outcome of
      inbound messages, resolve, reopen, pending and resume, and of the send access guard,
      with every refusal.
    - Scheduled messages: no row is sent twice under any interleaving, canceled rows are
      never sent, a lapsed lease can do nothing, what a claim takes, what a failure
      leaves, and exactly what one send writes and under whose authority.
    - Broadcasts: everybody reachable is in the audience once, creation is atomic and
      idempotent, cancellation and rescheduling are all or nothing, sends keep the
      interval and the daily cap, and the batch progress equals the single one.
    - Command outbox: publications to one recipient begin in the order of acceptance, whatever
      dispatchers interleave; what one dispatch does to its command, to the message it
      carries and to nothing else.
    - Ready list: no announced command is forgotten under any interleaving of writes, claims,
      outdated measurements, releases, crashes and recovery scans; what a claim takes; the
      recovery scan comes around whichever companies come and go; the sequential loop is a run of the interleaved system.
    - Neutral intents: an intent goes to its provider once, and again only after a reported
      transient failure; never without its actor's authority; what an outcome writes.
    - Channel events: an event is applied at most once in any sequence of deliveries and
      retries; what every answer and every error changed; no older event overwrites a newer
      message, and edits converge in any order; customers are never reassigned, and when a
      conversation gets one; the digest of an event survives storage exactly when none of
      its properties is undefined, and a failed Telegram message is lost at its retry.
    - Telegram: events are well formed, of the verified account and with identifiers of their
      own; reactions become their difference.
    - Credentials: revocation is final (a rotation in flight may still commit, its tokens are
      dead) and a removal is a boundary, under any interleaving of refreshes in flight; a refresh token and an authorization code are good once; what a
      code exchange needs and writes, and what a token may do.
    - Teams: one owner per workspace, a counter that is exact when nothing is in flight, what
      accepting an invitation does, and which standing a request needs.
    - Membership cache: the eviction terminates, no revoked membership is served, and every
      writer invalidates.
    - Sessions: what a refresh and a password reset do, and that the bounded list of retired
      tokens agrees with a reference that forgets nothing.
    - OAuth clients: no private address is ever dialled, in terms of the address ranges; a
      resolved client is vouched for by the registry, a live row or its own document; a
      response is bounded.
    - Calendar: the day-by-day walk counts exactly the open instants; stopping early never
      changes a decision; the accepted shapes are the meaningful ones.
    - Rate limits: both stores decide like a fixed window and admit at most twice the limit
      in any window; the memory store is an LRU map.
    - Identity: round trips of JIDs and phone numbers, privacy of LID identifiers.

    The theorems second_thread_inbound_refused, canceled_leaf_requeued,
    approval_outlives_removal, login_outlives_reset, telegram_failure_is_final,
    mark_lost_in_overlap, collision_unmarks_applied, second_reaction_refused and
    custom_emoji_refused show behaviour that the code's comments do not promise.

    ** Bounds and fuel

    The template scanner and the grouping of digits run on the length of their string, the
    chunked insert on the number of leaves, the eviction of counters on their number:
    each step consumes at least one, so the fuel never runs out ([scan_lossless],
    [exec_insert_chunks], [store_terminates]).  [isPrivateAddress] calls itself once, on
    the embedded address.  The calendar's walk has the source's own bound,
    MAX_DAYS_WALKED.  Every other function is structurally recursive.  Counters are unbounded integers: the
    columns they model stay far below 2^31.

    ** Not modelled

    Foreign keys, row locks as such (an operation is one step), logging, audit rows, the
    channel flags that a new workspace inherits, the lists that search and page, realtime broadcasts other than as a parameter of the dispatcher, the dual write of
    linked devices (shadow.ts: when a workspace's flag is on, the last statement of the
    transactions that write a legacy message mirrors it and its contact into the neutral
    tables, under a savepoint; a theorem about such a transaction speaks of the tables that
    the mirror starts from), the loop of the dispatcher over
    companies, Redis, S3 transfers, the consumers of the search and delivery queues, the
    loops and timers of the dispatchers, the unique index on a message's external
    identity (an outcome that it refuses is one that is not recorded), the parsers of URLs
    and JSON, numbers of an update that are not integers, the Bot API calls of the Telegram
    adapter (transport.ts, api.ts), the MCP tools (thin adapters over services that are modelled),
    the handlers of WhatsApp events (they mirror the Go worker), query-only routes, the web
    client and the Go workers. *)

From stdpp Require Export base list strings gmap sets numbers pretty sorting.
From Stdlib Require Export ZArith Lia.

(** Scope of the development's own notations. *)
Declare Scope inbox_scope.
Delimit Scope inbox_scope with inbox.

(** Lemmas that automate the common list and option cases. *)
Create HintDb inbox discriminated.
#[export] Hint Constants Opaque : inbox.

(** ** Case analysis *)

(** Destruct the innermost scrutinee of a [match] of the goal or of a
    hypothesis, keeping its equation. *)
Ltac break_match_goal :=
  match goal with
  | |- context [match ?x with _ => _ end] =>
      lazymatch x with
      | context [match _ with _ => _ end] => fail
      | _ => let E := fresh "E" in destruct x eqn:E
      end
  end.

Ltac break_match_hyp H :=
  match type of H with
  | context [match ?x with _ => _ end] =>
      lazymatch x with
      | context [match _ with _ => _ end] => fail
      | _ => let E := fresh "E" in destruct x eqn:E
      end
  end.

Ltac break_match :=
  match goal with
  | H : context [match _ with _ => _ end] |- _ => break_match_hyp H
  | _ => break_match_goal
  end.

(** Turn boolean tests of the context into propositions. *)
Ltac to_prop :=
  repeat match goal with
  | H : (_ && _)%bool = true |- _ => apply andb_true_iff in H; destruct H
  | H : (_ || _)%bool = false |- _ => apply orb_false_iff in H; destruct H
  | H : negb _ = true |- _ => apply negb_true_iff in H
  | H : negb _ = false |- _ => apply negb_false_iff in H
  | H : bool_decide _ = true |- _ => apply bool_decide_eq_true_1 in H
  | H : bool_decide _ = false |- _ => apply bool_decide_eq_false_1 in H
  | H : (_ <? _)%nat = true |- _ => apply Nat.ltb_lt in H
  | H : (_ <? _)%nat = false |- _ => apply Nat.ltb_ge in H
  | H : (_ <=? _)%nat = true |- _ => apply Nat.leb_le in H
  | H : (_ <=? _)%nat = false |- _ => apply Nat.leb_gt in H
  | H : (_ =? _)%nat = true |- _ => apply Nat.eqb_eq in H
  | H : (_ =? _)%nat = false |- _ => apply Nat.eqb_neq in H
  | H : (_ <? _)%Z = true |- _ => apply Z.ltb_lt in H
  | H : (_ <? _)%Z = false |- _ => apply Z.ltb_ge in H
  | H : (_ <=? _)%Z = true |- _ => apply Z.leb_le in H
  | H : (_ <=? _)%Z = false |- _ => apply Z.leb_gt in H
  | H : (_ =? _)%Z = true |- _ => apply Z.eqb_eq in H
  | H : (_ =? _)%Z = false |- _ => apply Z.eqb_neq in H
  end.

(** Close a decidable goal by evaluation. *)
Ltac decide_vm := apply (bool_decide_eq_true_1 _); vm_compute; reflexivity.

(** ** Lists filtered by a boolean predicate *)

(** [keep p l] is SQL's [WHERE p] and JavaScript's [Array.filter]. *)
Definition keep {A} (p : A → bool) (l : list A) : list A :=
  filter (λ x, p x = true) l.

(** [update_where p f l] is SQL's [UPDATE ... SET f WHERE p]. *)
Definition update_where {A} (p : A → bool) (f : A → A) (l : list A) : list A :=
  (λ x, if p x then f x else x) <$> l.

(** [first p l] is a query's [executeTakeFirst] and JavaScript's [find]. *)
Definition first {A} (p : A → bool) (l : list A) : option A := head (keep p l).

(** [IS NULL] *)
Definition is_null {A} (x : option A) : bool := match x with None => true | Some _ => false end.

Definition holds_any {A} (p : A → bool) (l : list A) : bool := existsb p l.

#[global] Arguments keep : simpl never.
#[global] Arguments first : simpl never.
#[global] Arguments update_where : simpl never.
#[global] Arguments holds_any : simpl never.

Section keep.
Context {A : Type}.
Implicit Types (p q : A → bool) (f : A → A) (l : list A).

Lemma elem_of_keep p l x : x ∈ keep p l ↔ p x = true ∧ x ∈ l.
Proof. unfold keep. by rewrite list_elem_of_filter. Qed.

Lemma keep_cons p x l :
  keep p (x :: l) = if p x then x :: keep p l else keep p l.
Proof.
  unfold keep. destruct (p x) eqn:E.
  - by rewrite filter_cons_True.
  - rewrite filter_cons_False; [done|congruence].
Qed.

Lemma keep_app p l l' : keep p (l ++ l') = keep p l ++ keep p l'.
Proof. apply filter_app. Qed.

Lemma keep_ext p q l : (∀ x, x ∈ l → p x = q x) → keep p l = keep q l.
Proof.
  intros H. induction l as [|x l IH]; [done|].
  rewrite !keep_cons, (H x) by left.
  rewrite IH; [done|]. intros y Hy. apply H. by right.
Qed.

Lemma keep_nil_iff p l : keep p l = [] ↔ ∀ x, x ∈ l → p x = false.
Proof.
  induction l as [|x l IH]; [split; [intros _ x []%not_elem_of_nil|done]|].
  rewrite keep_cons. destruct (p x) eqn:E; split; intros H.
  - done.
  - rewrite (H x) in E; [done|left].
  - intros y [->|Hy]%elem_of_cons; [done|]. by apply IH.
  - apply IH. intros y Hy. apply H. by right.
Qed.

Lemma first_Some p l x : first p l = Some x → x ∈ l ∧ p x = true.
Proof.
  unfold first. intros H%head_Some_elem_of.
  rewrite elem_of_keep in H. tauto.
Qed.

Lemma first_None p l : first p l = None ↔ ∀ x, x ∈ l → p x = false.
Proof. unfold first. by rewrite head_None, keep_nil_iff. Qed.

Lemma first_is_Some p l x : x ∈ l → p x = true → is_Some (first p l).
Proof.
  intros Hx Hp. destruct (first p l) eqn:E; [done|].
  rewrite first_None in E. rewrite (E x Hx) in Hp. done.
Qed.

Lemma first_app p l l' :
  first p (l ++ l') = match first p l with Some x => Some x | None => first p l' end.
Proof. unfold first. rewrite keep_app. by destruct (keep p l). Qed.

Lemma first_ext p q l : (∀ x, x ∈ l → p x = q x) → first p l = first q l.
Proof. intros H. unfold first. by rewrite (keep_ext p q). Qed.

Lemma first_unique p l x :
  x ∈ l → p x = true →
  (∀ y, y ∈ l → p y = true → y = x) → first p l = Some x.
Proof.
  intros Hx Hp Hu. destruct (first_is_Some p l x Hx Hp) as [y Hy].
  rewrite Hy. apply first_Some in Hy as [??]. f_equal. by apply Hu.
Qed.

Lemma elem_of_update_where p f l x :
  x ∈ update_where p f l ↔
  ∃ y, y ∈ l ∧ x = if p y then f y else y.
Proof. unfold update_where. rewrite list_elem_of_fmap. split; intros (y & ? & ?); eauto. Qed.

Lemma update_where_none p f l : (∀ x, x ∈ l → p x = false) → update_where p f l = l.
Proof.
  intros H. unfold update_where. induction l as [|x l IH]; [done|].
  cbn. rewrite (H x) by left. f_equal. apply IH. intros y Hy. apply H. by right.
Qed.

Lemma update_where_ext p q f l : (∀ x, x ∈ l → p x = q x) → update_where p f l = update_where q f l.
Proof.
  intros Hpq. unfold update_where. apply list_fmap_ext. intros i x Hx.
  by rewrite (Hpq x) by by eapply list_elem_of_lookup_2.
Qed.

Lemma length_update_where p f l : length (update_where p f l) = length l.
Proof. apply length_fmap. Qed.

(** A query that the update does not influence reads the same rows. *)
Lemma keep_update_where_frame p q f l :
  (∀ x, x ∈ l → p x = true → q x = false ∧ q (f x) = false) →
  keep q (update_where p f l) = keep q l.
Proof.
  induction l as [|x l IH]; intros H; [done|].
  change (keep q ((if p x then f x else x) :: update_where p f l) = keep q (x :: l)).
  rewrite !keep_cons, IH by (intros y Hy; apply H; by right).
  destruct (p x) eqn:E; [|done].
  destruct (H x) as [-> ->]; [left|done|done].
Qed.

Lemma update_where_same p l : update_where p (λ x, x) l = l.
Proof using.
  unfold update_where. rewrite <- (list_fmap_id l) at 2. apply list_fmap_ext. intros i x _. by destruct (p x).
Qed.

(** An update that the query does not notice. *)
Lemma first_update_any p q f l :
  (∀ x, q (f x) = q x) → first q (update_where p f l) = (λ x, if p x then f x else x) <$> first q l.
Proof.
  intros Hq. unfold first, update_where. induction l as [|x l IH]; [done|]. cbn [fmap list_fmap].
  rewrite !keep_cons. destruct (p x) eqn:Ep; rewrite ?Hq; destruct (q x) eqn:Eq; cbn; by rewrite ?Ep.
Qed.

(** An update of exactly the rows a query selects, which still selects them. *)
Lemma first_update_where p q f l :
  (∀ x, x ∈ l → p x = q x) → (∀ x, x ∈ l → q x = true → q (f x) = true) →
  first q (update_where p f l) = f <$> first q l.
Proof.
  intros Hpq Hq. unfold first.
  induction l as [|x l IH]; [done|].
  change (head (keep q ((if p x then f x else x) :: update_where p f l))
          = f <$> head (keep q (x :: l))).
  rewrite !keep_cons, (Hpq x) by left. destruct (q x) eqn:E.
  - rewrite (Hq x) by (done || left). done.
  - rewrite E. apply IH; intros y Hy; [apply Hpq|apply Hq]; by right.
Qed.

Lemma holds_any_true p l : holds_any p l = true ↔ ∃ x, x ∈ l ∧ p x = true.
Proof.
  unfold holds_any. rewrite existsb_exists. setoid_rewrite list_elem_of_In. done.
Qed.

Lemma holds_any_false p l : holds_any p l = false ↔ ∀ x, x ∈ l → p x = false.
Proof.
  rewrite <- not_true_iff_false, holds_any_true. split.
  - intros H x Hx. apply not_true_iff_false. naive_solver.
  - intros H [x [Hx Hp]]. rewrite (H x Hx) in Hp. done.
Qed.
Lemma first_holds_any p l : holds_any p l = bool_decide (is_Some (first p l)).
Proof.
  symmetry. destruct (first p l) as [x|] eqn:E.
  - apply first_Some in E as [??]. rewrite bool_decide_eq_true_2 by eauto.
    symmetry. apply holds_any_true. eauto.
  - rewrite bool_decide_eq_false_2 by (by intros [? ?]).
    symmetry. apply holds_any_false. by apply first_None.
Qed.
End keep.

(** ** Tables that grow *)

(** The rows are still there, in their order and each related to what it was; new ones
    follow. *)
Definition extends {A} (R : A → A → Prop) (l l' : list A) : Prop :=
  ∃ kept new, l' = kept ++ new ∧ Forall2 R l kept.

Section extends.
Context {A : Type} (R : A → A → Prop).
Implicit Types l : list A.

#[export] Instance extends_preorder `{!PreOrder R} : PreOrder (extends R).
Proof.
  split.
  - intros l. exists l, []. split; [by rewrite app_nil_r|]. by apply Forall_Forall2_diag, Forall_true.
  - intros l1 l2 l3 (k1 & n1 & -> & F1) (k2 & n2 & -> & F2).
    apply Forall2_app_inv_l in F2 as (ka & kb & Fa & Fb & ->). exists ka, (kb ++ n2).
    split; [by rewrite app_assoc|]. eapply Forall2_trans; [|exact F1|exact Fa].
    intros x y z. apply transitivity.
Qed.

Lemma extends_update p f l :
  Reflexive R → (∀ x, x ∈ l → p x = true → R x (f x)) → extends R l (update_where p f l).
Proof.
  intros HR Hf. exists (update_where p f l), []. split; [by rewrite app_nil_r|].
  unfold update_where. apply Forall2_fmap_r, Forall_Forall2_diag, Forall_forall. intros x Hx.
  unfold compose. destruct (p x) eqn:Hp; [by apply Hf|done].
Qed.

Lemma extends_app l new : Reflexive R → extends R l (l ++ new).
Proof. intros HR. exists l, new. split; [done|]. by apply Forall_Forall2_diag, Forall_true. Qed.

Lemma extends_elem l l' x : extends R l l' → x ∈ l → ∃ y, y ∈ l' ∧ R x y.
Proof.
  intros (kept & new & -> & F) [i Hi]%list_elem_of_lookup_1.
  destruct (Forall2_lookup_l _ _ _ _ _ F Hi) as (y & Hy & HR). exists y. split; [|done].
  apply elem_of_app. left. by eapply list_elem_of_lookup_2.
Qed.
End extends.

Lemma head_map {A B} (f : A → B) (l : list A) : head (f <$> l) = f <$> head l.
Proof. by destruct l. Qed.

(** A query that can only meet one row. *)
Lemma head_omap_same {A B} (f : A → option B) (l : list A) x :
  (∀ y, y ∈ l → y = x) → x ∈ l → head (omap f l) = f x.
Proof.
  intros Hall Hx. induction l as [|y l IH]; [by apply not_elem_of_nil in Hx|].
  rewrite (Hall y) by left. cbn. destruct (f x) as [b|] eqn:E; [done|].
  destruct l as [|z l]; [done|]. rewrite IH; [done| |].
  - intros w Hw. apply Hall. by right.
  - rewrite (Hall z) by (right; left). left.
Qed.

(** A query without a condition. *)
Lemma keep_everything {A} (l : list A) : keep (λ _, true) l = l.
Proof. induction l as [|x l IH]; [done|]. by rewrite keep_cons, IH. Qed.

Lemma elem_of_take_sub {A} n (l : list A) x : x ∈ take n l → x ∈ l.
Proof. intros Hx. rewrite <- (take_drop n l). apply elem_of_app. by left. Qed.

(** The head of a sorted list is least. *)
Lemma head_merge_sort {A} (R : relation A) `{!RelDecision R, !Transitive R, !Total R} l :
  match head (merge_sort R l) with
  | Some x => x ∈ l ∧ ∀ y, y ∈ l → y = x ∨ R x y
  | None => l = []
  end.
Proof.
  assert (Hp := merge_sort_Permutation R l). assert (Hs := StronglySorted_merge_sort R l).
  destruct (merge_sort R l) as [|x k]; cbn; [by apply Permutation_nil in Hp|].
  split; [rewrite <- Hp; left|]. intros y Hy. rewrite <- Hp in Hy. apply elem_of_cons in Hy as [->|Hy]; [by left|].
  right. apply StronglySorted_inv in Hs as [_ Hf]. by eapply Forall_forall in Hf.
Qed.
