(* ===== verification/Js.v ===== *)
(** JavaScript strings and numbers.

    A JavaScript string is a sequence of UTF-16 code units, so [jsstring] is a
    list of integers and [length], [slice] and [split] count code units exactly
    as the language does.  [js] turns an ASCII literal into a [jsstring]. *)

From S2P Require Import Prelude.
From Stdlib Require Import Ascii.

Abbreviation jsstring := (list Z).

Definition js (s : string) : jsstring :=
  (λ c, Z.of_N (N_of_ascii c)) <$> String.list_ascii_of_string s.

(** ** Truthiness and [||], [??] *)

(** A nullable string is truthy when it is present and non-empty. *)
Definition truthy (s : option jsstring) : bool :=
  match s with Some (_ :: _) => true | _ => false end.

(** [a || b] on nullable strings. *)
Definition js_or (a b : option jsstring) : option jsstring :=
  if truthy a then a else b.

(** [a ?? b]. *)
Definition nullish {A} (a b : option A) : option A :=
  match a with Some _ => a | None => b end.

(** ** Characters *)

Definition is_digit (c : Z) : bool := (48 <=? c)%Z && (c <=? 57)%Z.

(** WhiteSpace and LineTerminator of ECMAScript: what [trim] strips and what
    [\s] matches. *)
Definition is_space (c : Z) : bool :=
  ((9 <=? c)%Z && (c <=? 13)%Z)
  || bool_decide (c ∈ [32; 160; 5760; 8232; 8233; 8239; 8287; 12288; 65279]%Z)
  || ((8192 <=? c)%Z && (c <=? 8202)%Z).

(** ** String operations *)

Fixpoint trim_start (s : jsstring) : jsstring :=
  match s with
  | c :: s' => if is_space c then trim_start s' else s
  | [] => []
  end.

Definition trim (s : jsstring) : jsstring :=
  reverse (trim_start (reverse (trim_start s))).

(** [s.replace(/\D/g, "")] *)
Definition digits_of (s : jsstring) : jsstring := keep is_digit s.

(** [s.split(c)] for a one-character separator: never empty. *)
Fixpoint split_on (c : Z) (s : jsstring) : list jsstring :=
  match s with
  | [] => [[]]
  | x :: s' =>
      if (x =? c)%Z then [] :: split_on c s'
      else match split_on c s' with
           | p :: ps => (x :: p) :: ps
           | [] => [[x]]
           end
  end.

(** [s.split(c)[0]] *)
Definition split_first (c : Z) (s : jsstring) : jsstring :=
  default [] (head (split_on c s)).

Definition starts_with (p s : jsstring) : bool :=
  bool_decide (take (length p) s = p).

Definition ends_with (suffix s : jsstring) : bool :=
  (length suffix <=? length s)%nat
  && bool_decide (drop (length s - length suffix) s = suffix).

(** [s.slice(from)] and [s.slice(from, to)] for non-negative bounds. *)
Definition slice_from (i : nat) (s : jsstring) : jsstring := drop i s.
Definition slice (i j : nat) (s : jsstring) : jsstring := take (j - i) (drop i s).

(** [s.slice(-n)] *)
Definition slice_last (n : nat) (s : jsstring) : jsstring := drop (length s - n) s.

(** [parts.join(sep)] *)
Fixpoint join (sep : jsstring) (parts : list jsstring) : jsstring :=
  match parts with
  | [] => []
  | [p] => p
  | p :: ps => p ++ sep ++ join sep ps
  end.

(** [String(n)] for an integer: decimal digits with a sign. *)
Definition js_of_Z (n : Z) : jsstring := js (pretty n).
Definition js_of_nat (n : nat) : jsstring := js (pretty n).

#[global] Arguments js : simpl never.
#[global] Arguments trim : simpl never.
#[global] Arguments digits_of : simpl never.
#[global] Arguments split_first : simpl never.
#[global] Arguments ends_with : simpl never.
#[global] Arguments slice_last : simpl never.
#[global] Arguments is_digit : simpl never.
#[global] Arguments is_space : simpl never.

(** [Number] of a string of digits; [None] stands for NaN. *)
Definition number (s : jsstring) : option Z :=
  match s with
  | [] => Some 0%Z
  | _ => if forallb is_digit s then Some (foldl (λ n c, n * 10 + (c - 48))%Z 0%Z s) else None
  end.

(** The longest prefix of characters that satisfy [p], and the rest. *)
Fixpoint span (p : Z → bool) (s : jsstring) : jsstring * jsstring :=
  match s with
  | c :: s' => if p c then let '(a, b) := span p s' in (c :: a, b) else ([], s)
  | [] => ([], [])
  end.

(** [Number.parseInt(s, 10)]; [None] stands for NaN.  JavaScript rounds a result
    above 2^53 to a double. *)
Definition parseInt (s : jsstring) : option Z :=
  let s := trim_start s in
  let '(sign, s) :=
    match s with
    | 45%Z :: s' => ((-1)%Z, s')
    | 43%Z :: s' => (1%Z, s')
    | _ => (1%Z, s)
    end in
  match (span is_digit s).1 with
  | [] => None
  | digits => Some (sign * foldl (λ n c, n * 10 + (c - 48)) 0 digits)%Z
  end.

(** [Number.isFinite] of the double nearest to an integer. *)
Definition isFinite (n : Z) : bool := (Z.abs n <? 2 ^ 1024 - 2 ^ 970)%Z.

(** The ASCII string of code units below 128. *)
Definition string_of_js (s : jsstring) : string :=
  String.string_of_list_ascii ((λ c, ascii_of_N (Z.to_N c)) <$> s).

(** The order of [Array.prototype.sort] on strings: by code units. *)
Fixpoint js_leb (a b : jsstring) : bool :=
  match a, b with
  | [], _ => true
  | _ :: _, [] => false
  | x :: a, y :: b => (x <? y)%Z || ((x =? y)%Z && js_leb a b)
  end.
Definition js_le (a b : jsstring) : Prop := js_leb a b = true.
#[export] Instance js_le_dec : RelDecision js_le.
Proof. intros a b. unfold js_le. apply _. Defined.

(** Number.MAX_SAFE_INTEGER and [Number.isSafeInteger] *)
Definition MAX_SAFE_INTEGER : Z := 9007199254740991.
Definition isSafeInteger (n : Z) : bool := (- MAX_SAFE_INTEGER <=? n)%Z && (n <=? MAX_SAFE_INTEGER)%Z.

(** ** Lemmas *)

Lemma is_digit_not_space c : is_digit c = true → is_space c = false.
Proof.
  unfold is_digit, is_space. intros H. to_prop.
  rewrite !orb_false_iff, !andb_false_iff, !Z.leb_gt.
  rewrite bool_decide_eq_false. split; [split|]; [lia| |lia].
  intros Hc. repeat (apply elem_of_cons in Hc as [->|Hc]; [lia|]). by apply not_elem_of_nil in Hc.
Qed.

Lemma split_on_not_nil c s : split_on c s ≠ [].
Proof. destruct s as [|x s]; cbn; [done|]. case_match; [done|]. by destruct (split_on c s). Qed.

Lemma split_on_no_sep c s : c ∉ s → split_on c s = [s].
Proof.
  induction s as [|x s IH]; intros Hc; cbn; [done|].
  destruct (Z.eqb_spec x c) as [->|]; [set_solver|].
  rewrite IH; [done|set_solver].
Qed.

Lemma split_on_app c s t :
  c ∉ s → split_on c (s ++ c :: t) = s :: split_on c t.
Proof.
  induction s as [|x s IH]; intros Hc; cbn; [by rewrite Z.eqb_refl|].
  destruct (Z.eqb_spec x c) as [->|]; [set_solver|].
  rewrite IH; [done|set_solver].
Qed.

(** The first part of a split holds no separator. *)
Lemma split_first_no_sep c s : c ∉ split_first c s.
Proof.
  unfold split_first. induction s as [|x s IH]; cbn; [apply not_elem_of_nil|].
  destruct (Z.eqb_spec x c) as [->|Hne]; cbn; [apply not_elem_of_nil|].
  destruct (split_on c s) as [|p ps] eqn:E; cbn in *;
    rewrite not_elem_of_cons; auto using not_elem_of_nil.
Qed.

Lemma split_first_id c s : c ∉ s → split_first c s = s.
Proof. intros H. unfold split_first. by rewrite split_on_no_sep. Qed.

Lemma split_first_prefix c s t : c ∉ s → split_first c (s ++ c :: t) = s.
Proof. intros H. unfold split_first. by rewrite split_on_app. Qed.

Lemma digits_of_Forall s : Forall (λ c, is_digit c = true) (digits_of s).
Proof. apply Forall_forall. intros c Hc%elem_of_keep. tauto. Qed.

Lemma keep_all {A} (p : A → bool) l : Forall (λ x, p x = true) l → keep p l = l.
Proof.
  induction 1 as [|x l Hx _ IH]; [done|]. by rewrite keep_cons, Hx, IH.
Qed.

Lemma digits_of_idemp s : digits_of (digits_of s) = digits_of s.
Proof. apply keep_all, digits_of_Forall. Qed.

(** Text without white space is unchanged by [trim]. *)
Lemma trim_no_space s : Forall (λ c, is_space c = false) s → trim s = s.
Proof.
  intros H. unfold trim.
  assert (Hid : ∀ t, Forall (λ c, is_space c = false) t → trim_start t = t).
  { intros t Ht. destruct Ht as [|c t Hc _]; cbn; [done|]. by rewrite Hc. }
  rewrite (Hid s), (Hid (reverse s)); [|by apply Forall_reverse|done].
  apply reverse_involutive.
Qed.

Lemma ends_with_app suffix s : ends_with suffix (s ++ suffix) = true.
Proof.
  unfold ends_with. rewrite length_app.
  apply andb_true_intro; split; [apply Nat.leb_le; lia|].
  apply bool_decide_eq_true_2.
  replace (length s + length suffix - length suffix) with (length s) by lia.
  by rewrite drop_app_length.
Qed.

Lemma ends_with_inv suffix s :
  ends_with suffix s = true → ∃ pre, s = pre ++ suffix.
Proof.
  unfold ends_with. intros H. to_prop.
  exists (take (length s - length suffix) s).
  rewrite <- (take_drop (length s - length suffix) s) at 1. by f_equal.
Qed.

Lemma trim_start_head s c s' : trim_start s = c :: s' → is_space c = false.
Proof.
  induction s as [|x s IH]; [done|]. cbn. destruct (is_space x) eqn:E; [done|].
  by intros [= -> _].
Qed.

(** A non-empty trimmed string has a character that is not a space. *)
Lemma trim_non_space s : trim s ≠ [] → ∃ c, c ∈ trim s ∧ is_space c = false.
Proof.
  unfold trim. intros Hne. destruct (trim_start (reverse (trim_start s))) as [|c l] eqn:E; [done|].
  exists c. split; [|by eapply trim_start_head]. apply elem_of_reverse. left.
Qed.
