(* ===== verification/Identity.v ===== *)
(** Identities of customers: WhatsApp JIDs, phone numbers and display names.

    Models packages/shared/src/jid.ts (Module [Jid]), phone.ts (Module [Phone])
    and contact.ts (Module [Contact]), the pure functions that every service
    uses to decide which person a row stands for and how it is shown. *)

From S2P Require Import Prelude Js.

(** Code units used by the functions below. *)
Definition cu_at : Z := 64.
Definition cu_colon : Z := 58.
Definition cu_plus : Z := 43.
Definition cu_ellipsis : Z := 8230.

Module Jid.

Definition extractPhoneFromJid (jid : option jsstring) : option jsstring :=
  if negb (truthy jid) then None else
  match split_on cu_at (trim (default [] jid)) with
  | userPart :: server :: extraParts =>
      if bool_decide (userPart = [])
         || negb (bool_decide (server = js "s.whatsapp.net"))
         || negb (bool_decide (extraParts = []))
      then None
      else
        let phone := split_first cu_colon userPart in
        let cleanedPhone := digits_of phone in
        if truthy (Some cleanedPhone) then Some cleanedPhone else None
  | _ => None
  end.

Definition extractGroupIdFromJid (jid : option jsstring) : option jsstring :=
  if negb (truthy jid) then None else
  let groupId := split_first cu_at (default [] jid) in
  if truthy (Some groupId) then Some groupId else None.

Definition isGroupJid (jid : option jsstring) : bool :=
  truthy jid && ends_with (js "@g.us") (default [] jid).

Definition isBroadcastJid (jid : option jsstring) : bool :=
  truthy jid && (bool_decide (jid = Some (js "status@broadcast"))
                 || ends_with (js "@broadcast") (default [] jid)).

Definition isIndividualJid (jid : option jsstring) : bool :=
  truthy jid && ends_with (js "@s.whatsapp.net") (default [] jid).

Definition isLidJid (jid : option jsstring) : bool :=
  truthy jid && (ends_with (js "@lid") (default [] jid)
                 || ends_with (js "@hosted.lid") (default [] jid)).

(** [jid?.split("@")[0]?.split(":")[0] ?? ""] *)
Definition localPart (jid : option jsstring) : jsstring :=
  split_first cu_colon (split_first cu_at (default [] jid)).

Definition getLidDisplayName (jid : option jsstring) : option jsstring :=
  if negb (isLidJid jid) then None else
  let suffix := slice_last 4 (localPart jid) in
  Some (if truthy (Some suffix)
        then js "WhatsApp user (ID " ++ cu_ellipsis :: suffix ++ js ")"
        else js "WhatsApp user").

Definition createIndividualJid (phone : jsstring) : jsstring :=
  digits_of phone ++ js "@s.whatsapp.net".

Definition createGroupJid (groupId : jsstring) : jsstring :=
  groupId ++ js "@g.us".

Definition normalizeJid (jid : option jsstring) : option jsstring :=
  if negb (truthy jid) then None else
  match split_on cu_at (default [] jid) with
  | [local; domain] => Some (split_first cu_colon local ++ cu_at :: domain)
  | _ => jid
  end.

End Jid.

Module Phone.
Import Jid.

Definition formatPhoneNumber (phone : option jsstring) : jsstring :=
  if negb (truthy phone) then [] else
  let cleanPhone := digits_of (default [] phone) in
  if truthy (Some cleanPhone) then cu_plus :: cleanPhone else [].

Definition parsePhoneFromJid (jid : option jsstring) : option jsstring :=
  extractPhoneFromJid jid.

(** The regular expression /^[+\d][\d\s().-]*$/. *)
Definition phoneLikePattern (s : jsstring) : bool :=
  match s with
  | c :: rest =>
      ((c =? cu_plus)%Z || is_digit c)
      && forallb (λ d, is_digit d || is_space d
                       || bool_decide (d ∈ js "().-")) rest
  | [] => false
  end.

Definition formatPhoneLikeText (value : option jsstring) : jsstring :=
  if negb (truthy value) then [] else
  let trimmed := trim (default [] value) in
  if bool_decide (trimmed = []) then [] else
  match getLidDisplayName (Some trimmed) with
  | Some lidDisplayName => lidDisplayName
  | None =>
      if ends_with (js "@s.whatsapp.net") trimmed
      then formatPhoneNumber (parsePhoneFromJid (Some trimmed))
      else
        let digits := digits_of trimmed in
        let isPhoneLike := phoneLikePattern trimmed
                           && (7 <=? length digits)%nat
                           && (length digits <=? 15)%nat in
        if isPhoneLike then formatPhoneNumber (Some digits) else trimmed
  end.

(** The grouping loop [while (remaining.length > 0)]: chunks of at most four
    digits.  [fuel] bounds the iterations; the length of the text is enough. *)
Fixpoint groupChunks (fuel : nat) (remaining : jsstring) : list jsstring :=
  match fuel with
  | O => []
  | S fuel' =>
      if bool_decide (remaining = []) then []
      else
        let chunkSize := if (4 <? length remaining)%nat then 4 else length remaining in
        slice 0 chunkSize remaining :: groupChunks fuel' (slice_from chunkSize remaining)
  end.

Definition formatPhoneNumberWithGroups (phone : jsstring) : jsstring :=
  let cleanPhone := digits_of phone in
  let len := length cleanPhone in
  if (len <? 7)%nat then formatPhoneNumber (Some cleanPhone)
  else if (len =? 11)%nat && starts_with (js "1") cleanPhone then
    js "+1 " ++ slice 1 4 cleanPhone ++ js " " ++ slice 4 7 cleanPhone
    ++ js " " ++ slice_from 7 cleanPhone
  else if (len =? 10)%nat then
    cu_plus :: slice 0 3 cleanPhone ++ js " " ++ slice 3 6 cleanPhone
    ++ js " " ++ slice_from 6 cleanPhone
  else if (10 <? len)%nat then
    let countryCodeLength := if (len <=? 12)%nat then 2 else 3 in
    let parts := (cu_plus :: slice 0 countryCodeLength cleanPhone)
                 :: groupChunks len (slice_from countryCodeLength cleanPhone) in
    join (js " ") parts
  else formatPhoneNumber (Some cleanPhone).

Definition isValidPhoneNumber (phone : jsstring) : bool :=
  let cleanPhone := digits_of phone in
  (7 <=? length cleanPhone)%nat && (length cleanPhone <=? 15)%nat.

End Phone.

Module Contact.
Import Jid.

Record ContactNameFields := mkNames {
  custom_name : option jsstring; customName : option jsstring;
  push_name : option jsstring; pushName : option jsstring;
  username : option jsstring;
  phone_number : option jsstring; phoneNumber : option jsstring;
  jid : option jsstring; name : option jsstring }.

Definition getSafeIdentityName (value jid : option jsstring) : option jsstring :=
  let name := trim <$> value in
  if negb (truthy name) || negb (isLidJid jid)
  then (if truthy name then name else None)
  else
    let local := localPart jid in
    let nameDigits := digits_of (default [] name) in
    let localDigits := digits_of local in
    let repeatsOpaqueIdentity :=
      bool_decide (name = jid)
      || bool_decide (name = Some local)
      || (negb (bool_decide (localDigits = [])) && bool_decide (nameDigits = localDigits)) in
    if repeatsOpaqueIdentity then None else name.

(** [s.replace(/^@+/, "")] *)
Fixpoint strip_at (s : jsstring) : jsstring :=
  match s with
  | c :: s' => if (c =? cu_at)%Z then strip_at s' else s
  | [] => []
  end.

Definition normalizeWhatsAppUsername (value : option jsstring) : option jsstring :=
  let username := strip_at ∘ trim <$> value in
  if truthy username then username else None.

Definition formatWhatsAppUsername (value jid : option jsstring) : option jsstring :=
  match normalizeWhatsAppUsername value with
  | None => None
  | Some username =>
      if truthy (getSafeIdentityName (Some username) jid)
      then Some (cu_at :: username) else None
  end.

(** The fallback chain shared by [getContactDisplayName] and [getContactName]. *)
Definition nameChain (contact : ContactNameFields) (last : option jsstring) : option jsstring :=
  let customName := getSafeIdentityName (nullish contact.(custom_name) contact.(customName)) contact.(jid) in
  let pushName := getSafeIdentityName (nullish contact.(push_name) contact.(pushName)) contact.(jid) in
  let username := formatWhatsAppUsername contact.(username) contact.(jid) in
  let storedPhoneNumber := nullish contact.(phone_number) contact.(phoneNumber) in
  let phoneFromJid := extractPhoneFromJid contact.(jid) in
  let phoneNumber :=
    if negb (truthy contact.(jid)) || truthy phoneFromJid then storedPhoneNumber else None in
  let explicitName := getSafeIdentityName contact.(name) contact.(jid) in
  js_or customName (js_or pushName (js_or username
    (js_or phoneNumber (js_or phoneFromJid (js_or explicitName last))))).

Definition getContactDisplayName (contact : ContactNameFields) (fallback : jsstring) : jsstring :=
  let identityFallback := nullish (getLidDisplayName contact.(jid)) (Some fallback) in
  default [] (nameChain contact identityFallback).

Definition getContactName (contact : ContactNameFields) : option jsstring :=
  nameChain contact None.

(** The fields of the group argument, each [string | null | undefined]. *)
Record GroupNameFields := mkGroupNames {
  g_custom_name : option jsstring; g_customName : option jsstring;
  g_group_name : option jsstring; g_groupName : option jsstring;
  g_name : option jsstring }.

Definition getGroupDisplayName (group : GroupNameFields) (fallback : jsstring) : jsstring :=
  let customName := nullish group.(g_custom_name) group.(g_customName) in
  let groupName := nullish group.(g_group_name) (nullish group.(g_groupName) group.(g_name)) in
  default [] (js_or customName (js_or groupName (Some fallback))).

End Contact.

(** ** JIDs *)

Section jid_facts.
Import Jid.

Lemma at_not_space : is_space cu_at = false.
Proof. reflexivity. Qed.

Lemma digit_ne c d : is_digit c = true → is_digit d = false → c ≠ d.
Proof. congruence. Qed.

Lemma digits_of_not_elem d s : is_digit d = false → d ∉ digits_of s.
Proof. intros Hd [? _]%elem_of_keep. congruence. Qed.

Lemma digits_of_not_space s : Forall (λ c, is_space c = false) (digits_of s).
Proof.
  apply Forall_forall. intros c [Hc _]%elem_of_keep. by apply is_digit_not_space.
Qed.

Lemma digits_of_app s t : digits_of (s ++ t) = digits_of s ++ digits_of t.
Proof. apply keep_app. Qed.

Lemma digits_of_idemp' s : Forall (λ c, is_digit c = true) s → digits_of s = s.
Proof. apply keep_all. Qed.

(** Trimming commutes with cutting at a character that is not white space. *)
Lemma trim_start_app_sep a c b :
  is_space c = false → trim_start (a ++ c :: b) = trim_start a ++ c :: b.
Proof.
  intros Hc. induction a as [|x a IH]; cbn; [by rewrite Hc|].
  destruct (is_space x); [done|done].
Qed.

Definition trim_end (s : jsstring) : jsstring := reverse (trim_start (reverse s)).

Lemma trim_app_sep a c b :
  is_space c = false → trim (a ++ c :: b) = trim_start a ++ c :: trim_end b.
Proof.
  intros Hc. unfold trim, trim_end. rewrite trim_start_app_sep by done.
  rewrite reverse_app, reverse_cons, <- app_assoc. cbn.
  rewrite trim_start_app_sep by done.
  rewrite reverse_app, reverse_cons, reverse_involutive.
  by rewrite <- app_assoc.
Qed.

Lemma trim_start_sub d s : d ∉ s → d ∉ trim_start s.
Proof.
  induction s as [|x s IH]; cbn; [done|]. rewrite not_elem_of_cons. intros [??].
  destruct (is_space x); [by apply IH|]. by apply not_elem_of_cons.
Qed.

Lemma trim_end_sub d s : d ∉ s → d ∉ trim_end s.
Proof.
  intros H. unfold trim_end. rewrite elem_of_reverse. apply trim_start_sub.
  by rewrite elem_of_reverse.
Qed.

Lemma trim_sub d s : d ∉ s → d ∉ trim s.
Proof. intros H. unfold trim. apply (trim_end_sub d (trim_start s)). by apply trim_start_sub. Qed.

(** The phone number of a local part: digits before the device suffix. *)
Lemma digits_split_first_trim_start c s :
  is_space c = false → is_digit c = false →
  digits_of (split_first c (trim_start s)) = digits_of (split_first c s).
Proof.
  intros Hc Hd. induction s as [|x s IH]; cbn; [done|].
  destruct (is_space x) eqn:Hx; [|done]. rewrite IH.
  unfold split_first at 2. cbn. destruct (Z.eqb_spec x c) as [->|]; [congruence|].
  unfold split_first. destruct (split_on c s) as [|p ps] eqn:E;
    [by apply split_on_not_nil in E|]. cbn.
  unfold digits_of. rewrite keep_cons.
  destruct (is_digit x) eqn:Hdx; [|done].
  apply is_digit_not_space in Hdx. congruence.
Qed.

Lemma split_on_single c s p : split_on c s = [p] → c ∉ s.
Proof.
  revert p. induction s as [|x s IH]; intros p; cbn; [intros _; apply not_elem_of_nil|].
  destruct (Z.eqb_spec x c) as [->|].
  - destruct (split_on c s) eqn:E; [by apply split_on_not_nil in E|done].
  - destruct (split_on c s) as [|q [|]] eqn:E; [by apply split_on_not_nil in E| |done].
    intros _. apply not_elem_of_cons. split; [done|by eapply IH].
Qed.

Lemma split_on_two c s a b :
  split_on c s = [a; b] → (c ∉ a) ∧ (c ∉ b) ∧ s = a ++ (c :: b).
Proof.
  revert a b. induction s as [|x s IH]; cbn; [done|]. intros a b.
  destruct (Z.eqb_spec x c) as [->|].
  - intros [= <- H]. split; [apply not_elem_of_nil|].
    assert (Hs : c ∉ s) by by eapply split_on_single.
    rewrite split_on_no_sep in H by done. by injection H as ->.
  - destruct (split_on c s) as [|p ps] eqn:E; [by intros [=]|].
    intros [= <- ->]. destruct (IH p b eq_refl) as (?&?&->).
    split; [by apply not_elem_of_cons|done].
Qed.

Lemma split_on_snoc c a b : c ∉ b → split_on c (a ++ (c :: b)) = split_on c a ++ [b].
Proof.
  intros Hb. induction a as [|x a IH]; cbn.
  - by rewrite Z.eqb_refl, split_on_no_sep.
  - rewrite IH. destruct (x =? c)%Z; [done|].
    destruct (split_on c a) eqn:E; [by apply split_on_not_nil in E|done].
Qed.

Lemma keep_reverse {A} (p : A → bool) l : keep p (reverse l) = reverse (keep p l).
Proof.
  induction l as [|x l IH]; [done|].
  rewrite reverse_cons, keep_app, IH, !keep_cons. destruct (p x).
  - by rewrite reverse_cons.
  - by rewrite app_nil_r.
Qed.

Lemma digits_of_trim_start s : digits_of (trim_start s) = digits_of s.
Proof.
  induction s as [|x s IH]; cbn; [done|].
  destruct (is_space x) eqn:Hx; [|done]. rewrite IH.
  unfold digits_of. rewrite keep_cons.
  destruct (is_digit x) eqn:Hd; [|done].
  apply is_digit_not_space in Hd. congruence.
Qed.

Lemma digits_of_trim s : digits_of (trim s) = digits_of s.
Proof.
  unfold trim, digits_of. rewrite keep_reverse. fold digits_of.
  change (reverse (digits_of (trim_start (reverse (trim_start s)))) = digits_of s).
  rewrite digits_of_trim_start. unfold digits_of.
  rewrite keep_reverse, reverse_involutive. apply digits_of_trim_start.
Qed.

Lemma split_on_pair c a b : c ∉ a → c ∉ b → split_on c (a ++ (c :: b)) = [a; b].
Proof. intros. by rewrite split_on_app, split_on_no_sep. Qed.
End jid_facts.

Section jid_theorems.
Import Jid.

Lemma extract_trimmed user :
  cu_at ∉ user →
  extractPhoneFromJid (Some (user ++ cu_at :: js "s.whatsapp.net")) =
  (let p := digits_of (split_first cu_colon user) in
   if truthy (Some p) then Some p else None).
Proof.
  intros Hu. unfold extractPhoneFromJid.
  assert (Htr : truthy (Some (user ++ cu_at :: js "s.whatsapp.net")) = true)
    by (by destruct user).
  rewrite Htr. cbn [negb from_option id].
  rewrite trim_app_sep by done. rewrite split_on_pair.
  2: by apply trim_start_sub. 2: decide_vm.
  rewrite (bool_decide_eq_true_2 (trim_end _ = _)) by decide_vm.
  rewrite (bool_decide_eq_true_2 ([] = [])) by done. cbn [negb orb].
  rewrite digits_split_first_trim_start by done.
  case_bool_decide as Hnil; [|done]. cbn.
  rewrite <- (digits_split_first_trim_start cu_colon user), Hnil by done.
  by vm_compute.
Qed.

(** Building the JID of a phone number and reading the number back gives
    exactly the digits of the number, and null when it has none. *)
Theorem phone_jid_roundtrip phone :
  extractPhoneFromJid (Some (createIndividualJid phone)) =
  if truthy (Some (digits_of phone)) then Some (digits_of phone) else None.
Proof.
  unfold createIndividualJid.
  change (js "@s.whatsapp.net") with (cu_at :: js "s.whatsapp.net").
  rewrite extract_trimmed by by apply digits_of_not_elem.
  rewrite split_first_id by by apply digits_of_not_elem.
  by rewrite digits_of_idemp.
Qed.

Lemma normalizeJid_two local domain :
  cu_at ∉ local → cu_at ∉ domain →
  normalizeJid (Some (local ++ cu_at :: domain)) =
  Some (split_first cu_colon local ++ cu_at :: domain).
Proof.
  intros Hl Hd. unfold normalizeJid.
  assert (Htr : truthy (Some (local ++ cu_at :: domain)) = true) by (by destruct local).
  rewrite Htr. cbn [negb from_option id]. by rewrite split_on_pair.
Qed.

Lemma split_first_sub d c s : d ∉ s → d ∉ split_first c s.
Proof.
  unfold split_first. induction s as [|x s IH]; cbn; [intros _; apply not_elem_of_nil|].
  rewrite not_elem_of_cons. intros [? Hs]. specialize (IH Hs).
  destruct (x =? c)%Z; cbn; [apply not_elem_of_nil|].
  destruct (split_on c s); cbn in *; rewrite not_elem_of_cons; auto using not_elem_of_nil.
Qed.

(** A JID is normalised to itself, or it has exactly one separator. *)
Lemma normalizeJid_cases jid :
  normalizeJid jid = (if truthy jid then jid else None)
  ∨ ∃ local domain, jid = Some (local ++ cu_at :: domain)
                    ∧ (cu_at ∉ local) ∧ (cu_at ∉ domain).
Proof.
  destruct jid as [[|x s]|]; [by left|..|by left].
  unfold normalizeJid. cbn [truthy negb from_option id].
  destruct (split_on cu_at (x :: s)) as [|a [|b [|]]] eqn:E; [by left..| |by left].
  right. apply split_on_two in E as (?&?&->). by exists a, b.
Qed.

(** Normalisation drops only the device suffix: it is idempotent, and a
    JID and its normal form name the same phone number. *)
Theorem normalizeJid_stable jid :
  normalizeJid (normalizeJid jid) = normalizeJid jid
  ∧ extractPhoneFromJid (normalizeJid jid) = extractPhoneFromJid jid.
Proof.
  destruct (normalizeJid_cases jid) as [H|(local & domain & -> & Hl & Hd)].
  - rewrite H. destruct (truthy jid) eqn:Ht; [by rewrite H|].
    unfold extractPhoneFromJid. by rewrite Ht.
  - rewrite normalizeJid_two by done.
    assert (Hs : cu_at ∉ split_first cu_colon local) by by apply split_first_sub.
    split.
    + rewrite normalizeJid_two by done.
      by rewrite (split_first_id _ (split_first _ _)) by apply split_first_no_sep.
    + unfold extractPhoneFromJid.
      assert (Ht : ∀ l : jsstring, truthy (Some (l ++ cu_at :: domain)) = true)
        by (by intros []).
      rewrite !Ht. cbn [negb from_option id]. rewrite !trim_app_sep by done.
      rewrite !split_on_pair; eauto using trim_start_sub, trim_end_sub.
      assert (Hp : digits_of (split_first cu_colon (trim_start (split_first cu_colon local)))
                   = digits_of (split_first cu_colon (trim_start local))).
      { rewrite !digits_split_first_trim_start by done.
        by rewrite (split_first_id _ (split_first _ _)) by apply split_first_no_sep. }
      rewrite Hp.
      assert (Hnil : ∀ t : jsstring, digits_of (split_first cu_colon t) ≠ [] → t ≠ [])
        by (intros [|??]; done).
      destruct (decide (digits_of (split_first cu_colon (trim_start local)) = [])) as [Hz|Hnz].
      * rewrite !Hz. cbn. by repeat case_bool_decide.
      * assert (H1 := Hnil _ Hnz). rewrite <- Hp in Hnz. assert (H2 := Hnil _ Hnz).
        by rewrite (bool_decide_eq_false_2 _ H1), (bool_decide_eq_false_2 _ H2).
Qed.
End jid_theorems.

(** ** Phone numbers *)

Section phone_theorems.
Import Phone.

Lemma digits_of_join sep parts :
  digits_of sep = [] → digits_of (join sep parts) = concat (digits_of <$> parts).
Proof.
  intros Hs. induction parts as [|p [|q ps] IH]; [done|by cbn; rewrite app_nil_r|].
  change (digits_of (p ++ sep ++ join sep (q :: ps)) =
          digits_of p ++ concat (digits_of <$> (q :: ps))).
  by rewrite !digits_of_app, Hs, IH.
Qed.

(** With enough fuel the chunks are the text, in order. *)
Lemma groupChunks_concat fuel s : length s ≤ fuel → concat (groupChunks fuel s) = s.
Proof.
  revert s. induction fuel as [|fuel IH]; intros s Hl; [by destruct s; cbn in *; [|lia]|].
  cbn -[Nat.ltb]. case_bool_decide as Hs; [done|]. cbn -[Nat.ltb].
  assert (0 < length s) by (destruct s; cbn in *; [done|lia]).
  set (n := if (4 <? length s)%nat then 4 else length s).
  assert (0 < n) by (subst n; case_match; lia).
  unfold slice, slice_from. rewrite drop_0, Nat.sub_0_r, IH.
  - apply take_drop.
  - rewrite length_drop. lia.
Qed.

Lemma groupChunks_sizes fuel s :
  Forall (λ p, 1 ≤ length p ≤ 4) (groupChunks fuel s).
Proof.
  revert s. induction fuel as [|fuel IH]; intros s; cbn -[Nat.ltb]; [constructor|].
  case_bool_decide as Hs; [constructor|]. constructor; [|apply IH].
  assert (0 < length s) by (destruct s; cbn in *; [done|lia]).
  unfold slice. rewrite drop_0, length_take.
  destruct (Nat.ltb_spec 4 (length s)); lia.
Qed.

Lemma digits_of_formatPhoneNumber s : digits_of (formatPhoneNumber (Some s)) = digits_of s.
Proof.
  unfold formatPhoneNumber. destruct s as [|c s]; [done|].
  cbn [truthy negb from_option id].
  destruct (digits_of (c :: s)) as [|d ds] eqn:E; [done|]. cbn [truthy].
  change (digits_of ([cu_plus] ++ d :: ds) = d :: ds).
  rewrite digits_of_app, <- E. by rewrite digits_of_idemp.
Qed.

Lemma digits_of_sub_digits s t :
  Forall (λ c, is_digit c = true) s → (∀ c, c ∈ t → c ∈ s) → digits_of t = t.
Proof.
  rewrite Forall_forall. intros H Hsub. apply keep_all, Forall_forall. auto.
Qed.

Lemma digits_of_slice i j s :
  Forall (λ c, is_digit c = true) s → digits_of (slice i j s) = slice i j s.
Proof. intros H. apply keep_all. by apply Forall_take, Forall_drop. Qed.

Lemma digits_of_slice_from i s :
  Forall (λ c, is_digit c = true) s → digits_of (slice_from i s) = slice_from i s.
Proof. intros H. apply keep_all. by apply Forall_drop. Qed.

Lemma slices_all i j s : i ≤ j → slice i j s ++ slice_from j s = slice_from i s.
Proof.
  intros H. unfold slice, slice_from.
  rewrite <- (take_drop (j - i) (drop i s)) at 2. rewrite drop_drop.
  by replace (i + (j - i)) with j by lia.
Qed.

(** Grouping a phone number only inserts the plus sign and spaces: no
    digit is lost, added or reordered, whatever the length of the number, and
    the plus sign is shown exactly when the number has a digit. *)
Theorem groups_keep_digits phone :
  digits_of (formatPhoneNumberWithGroups phone) = digits_of phone
  ∧ starts_with (js "+") (formatPhoneNumberWithGroups phone)
    = truthy (Some (digits_of phone)).
Proof.
  unfold formatPhoneNumberWithGroups. set (d := digits_of phone).
  assert (Hd : Forall (λ c, is_digit c = true) d) by apply digits_of_Forall.
  assert (Hdd : digits_of d = d) by by apply keep_all.
  assert (Hplus : starts_with (js "+") (formatPhoneNumber (Some d)) = truthy (Some d)).
  { unfold formatPhoneNumber. cbn [from_option id].
    rewrite Hdd. clear Hdd Hd. by destruct d. }
  assert (Htr : 0 < length d → truthy (Some d) = true) by (clear; destruct d; cbn; [lia|done]).
  assert (Hf : digits_of (formatPhoneNumber (Some d)) = d)
    by by rewrite digits_of_formatPhoneNumber.
  assert (Hsp : digits_of (js " ") = []) by reflexivity.
  destruct (length d <? 7)%nat eqn:E1; [done|].
  destruct ((length d =? 11)%nat && starts_with (js "1") d) eqn:E2.
  { to_prop. split; [|rewrite Htr by lia; done].
    rewrite !digits_of_app, !digits_of_slice, digits_of_slice_from, !Hsp by done.
    change (digits_of (js "+1 ")) with (js "1"). cbn [app].
    rewrite (slices_all 4 7), (slices_all 1 4) by lia.
    unfold starts_with in H0. to_prop. change (length (js "1")) with 1 in H0.
    rewrite <- H0. apply take_drop. }
  destruct (length d =? 10)%nat eqn:E3.
  { to_prop. split; [|rewrite Htr by lia; done].
    change (digits_of ([cu_plus] ++ slice 0 3 d ++ js " " ++ slice 3 6 d ++ js " "
                       ++ slice_from 6 d) = d).
    rewrite !digits_of_app, !digits_of_slice, digits_of_slice_from, !Hsp by done.
    change (digits_of [cu_plus]) with (@nil Z). cbn [app].
    by rewrite (slices_all 3 6), (slices_all 0 3) by lia. }
  destruct (10 <? length d)%nat eqn:E4; [|done].
  set (n := if (length d <=? 12)%nat then 2 else 3).
  to_prop. split; [|rewrite Htr by lia; by destruct (groupChunks _ _)].
  rewrite digits_of_join by done. cbn [fmap list_fmap concat].
  change (digits_of ([cu_plus] ++ slice 0 n d)
          ++ concat (digits_of <$> groupChunks (length d) (slice_from n d)) = d).
  rewrite digits_of_app, digits_of_slice by done.
  change (digits_of [cu_plus]) with (@nil Z). cbn [app].
  assert (Hc : concat (groupChunks (length d) (slice_from n d)) = slice_from n d).
  { apply groupChunks_concat. unfold slice_from. rewrite length_drop. lia. }
  assert (Hmap : digits_of <$> groupChunks (length d) (slice_from n d)
                 = groupChunks (length d) (slice_from n d)).
  { rewrite <- (list_fmap_id (groupChunks _ _)) at 2. apply list_fmap_ext.
    intros i p Hp. apply (digits_of_sub_digits d); [done|]. intros c Hin.
    assert (c ∈ slice_from n d).
    { rewrite <- Hc. apply list_elem_of_In, in_concat. exists p.
      split; apply list_elem_of_In; [by eapply list_elem_of_lookup_2|done]. }
    unfold slice_from in *. rewrite <- (take_drop n d). by apply elem_of_app; right. }
  rewrite Hmap, Hc. apply (slices_all 0 n). lia.
Qed.
End phone_theorems.

(** ** Display names *)

Section contact_theorems.
Import Jid Contact.

Lemma truthy_Some s : truthy s = true → ∃ c t, s = Some (c :: t).
Proof. destruct s as [[|c t]|]; cbn; try done. eauto. Qed.

(** A safe name of a LID contact never repeats the opaque identity. *)
Lemma getSafeIdentityName_lid v j s :
  isLidJid j = true → getSafeIdentityName v j = Some s →
  Some s ≠ j ∧ s ≠ localPart j
  ∧ (digits_of (localPart j) ≠ [] → digits_of s ≠ digits_of (localPart j)).
Proof.
  intros Hl. unfold getSafeIdentityName. rewrite Hl. cbn [negb]. rewrite orb_false_r.
  destruct (truthy (trim <$> v)) eqn:Ht; cbn [negb]; [|done].
  apply truthy_Some in Ht as (c & t & Ht). rewrite Ht.
  cbn [from_option id]. set (n := c :: t).
  destruct (bool_decide (Some n = j)) eqn:E1; [done|].
  destruct (bool_decide (Some n = Some (localPart j))) eqn:E2; [done|].
  destruct (negb (bool_decide (digits_of (localPart j) = []))
            && bool_decide (digits_of n = digits_of (localPart j))) eqn:E3; [done|].
  cbn. intros [= <-]. to_prop. split_and!; [done|congruence|].
  intros Hne. rewrite andb_false_iff, negb_false_iff in E3.
  destruct E3 as [E3|E3]; to_prop; done.
Qed.

Lemma formatWhatsAppUsername_lid v j s :
  isLidJid j = true → formatWhatsAppUsername v j = Some s →
  digits_of (localPart j) ≠ [] → digits_of s ≠ digits_of (localPart j).
Proof.
  intros Hl. unfold formatWhatsAppUsername.
  destruct (normalizeWhatsAppUsername v) as [u|] eqn:Hu; [|done].
  destruct (truthy _) eqn:Ht; [|done]. intros [= <-] Hne.
  apply truthy_Some in Ht as (c & t & Ht).
  assert (Hsafe := Ht). apply getSafeIdentityName_lid in Ht as (_ & _ & Ht); [|done].
  (* the name kept by the filter is the trimmed user name *)
  assert (c :: t = trim u) as Heq.
  { revert Hsafe. unfold getSafeIdentityName. cbn [fmap option_fmap option_map].
    repeat case_match; naive_solver. }
  change (digits_of ([cu_at] ++ u) ≠ digits_of (localPart j)).
  rewrite digits_of_app. change (digits_of [cu_at]) with (@nil Z). cbn [app].
  intros Hd. apply (Ht Hne). rewrite Heq, <- Hd. apply digits_of_trim.
Qed.

(** Only the phone-number namespace holds a phone number. *)
Lemma extractPhoneFromJid_lid j : isLidJid j = true → extractPhoneFromJid j = None.
Proof.
  unfold isLidJid, extractPhoneFromJid. intros H. to_prop. rewrite H. cbn [negb].
  assert (∃ pre srv, default [] j = pre ++ (cu_at :: srv)
                     ∧ (srv = js "lid" ∨ srv = js "hosted.lid")) as (pre & srv & -> & Hs).
  { apply orb_true_iff in H0 as [H0|H0]; apply ends_with_inv in H0 as [pre ->];
      [exists pre, (js "lid")|exists pre, (js "hosted.lid")]; auto. }
  assert (He : trim_end srv = srv ∧ cu_at ∉ srv) by (destruct Hs as [-> | ->]; split; decide_vm).
  rewrite trim_app_sep, (proj1 He), split_on_snoc by tauto.
  destruct (split_on cu_at (trim_start pre)) as [|a [|b l]] eqn:E; cbn [app];
    [by apply split_on_not_nil in E| |].
  - rewrite (bool_decide_eq_false_2 (srv = _)); [by rewrite orb_true_r|].
    destruct Hs as [-> | ->]; decide_vm.
  - rewrite (bool_decide_eq_false_2 (l ++ _ = [])); [by rewrite orb_true_r|].
    by destruct l.
Qed.

Definition opaqueDigits (c : ContactNameFields) : jsstring := digits_of (localPart c.(jid)).

(** The display name of a LID contact never spells the contact's opaque
    identifier: its digits differ from the identifier's, unless it is the
    label that deliberately shows the last four characters. *)
Theorem lid_display_private c fallback :
  isLidJid c.(jid) = true → opaqueDigits c ≠ [] →
  digits_of (getContactDisplayName c fallback) ≠ opaqueDigits c
  ∨ Some (getContactDisplayName c fallback) = getLidDisplayName c.(jid).
Proof.
  unfold opaqueDigits. intros Hl Hne. unfold getContactDisplayName, nameChain.
  rewrite extractPhoneFromJid_lid by done.
  assert (Hj : truthy (jid c) = true) by (unfold isLidJid in Hl; by to_prop).
  rewrite Hj. cbn [negb orb truthy].
  assert (Hsafe : ∀ v s, getSafeIdentityName v (jid c) = Some s →
            digits_of s ≠ digits_of (localPart (jid c))).
  { intros v s Hs. apply getSafeIdentityName_lid in Hs as (_&_&H); auto. }
  assert (Huser : ∀ s, formatWhatsAppUsername (username c) (jid c) = Some s →
            digits_of s ≠ digits_of (localPart (jid c))).
  { intros s Hs. eapply formatWhatsAppUsername_lid; eauto. }
  assert (Hlid : is_Some (getLidDisplayName (jid c)))
    by (unfold getLidDisplayName; rewrite Hl; cbn [negb]; eauto).
  destruct Hlid as [lbl Hlbl]. rewrite Hlbl. cbn [nullish].
  unfold js_or. cbn [truthy].
  repeat match goal with
  | |- context [if truthy ?x then _ else _] =>
      let E := fresh in destruct (truthy x) eqn:E;
      [apply truthy_Some in E as (? & ? & E); rewrite E; cbn [from_option id]; left; eauto|]
  end.
  by right.
Qed.

Definition lidContact : ContactNameFields :=
  mkNames None None (Some (js "447700900123")) None None None None
          (Some (js "447700900123@lid")) None.

(** The push name repeats the identifier, so the private label is shown. *)
Lemma lid_display_private_witness :
  isLidJid lidContact.(jid) = true ∧ opaqueDigits lidContact ≠ []
  ∧ (digits_of (getContactDisplayName lidContact (js "Unknown")) ≠ opaqueDigits lidContact
     ∨ Some (getContactDisplayName lidContact (js "Unknown")) = getLidDisplayName lidContact.(jid)).
Proof.
  split; [vm_compute; reflexivity|]. split; [vm_compute; discriminate|].
  apply (lid_display_private lidContact (js "Unknown"));
    [vm_compute; reflexivity|vm_compute; discriminate].
Defined.
End contact_theorems.
