(* ===== verification/Permissions.v ===== *)
(** Roles and permissions of members.

    Models the presets of packages/shared/src/types/company.ts,
    services/effective-permissions.ts and the readers of
    services/permission.service.ts.  The rows are those of the public table
    company_members. *)

From S2P Require Import Prelude.

Inductive CompanyMemberRole := owner | admin | member.
#[export] Instance CompanyMemberRole_eq : EqDecision CompanyMemberRole.
Proof. solve_decision. Defined.

Inductive Permission :=
  can_view_all_chats | can_send_messages | can_send_bulk_messages | can_assign_contacts
  | can_manage_team | can_invite | can_manage_connections | can_view_dashboard
  | can_view_audit | can_export | can_delete.
#[export] Instance Permission_eq : EqDecision Permission.
Proof. solve_decision. Defined.

(** An object with a boolean per permission, and one with some of them. *)
Definition MemberPermissions : Type := Permission → bool.
Definition PartialPermissions : Type := Permission → option bool.

Definition ROLE_PERMISSION_PRESETS (role : CompanyMemberRole) : MemberPermissions :=
  match role with
  | owner | admin => λ _, true
  | member => λ p,
      bool_decide (p ∈ [can_view_all_chats; can_send_messages; can_send_bulk_messages; can_assign_contacts])
  end.

Definition getEffectivePermissions (role : CompanyMemberRole) (customPermissions : PartialPermissions)
    : MemberPermissions :=
  match role with
  | owner => ROLE_PERMISSION_PRESETS role
  | _ => λ p, default (ROLE_PERMISSION_PRESETS role p) (customPermissions p)
  end.

Record member_row := mkMember {
  mb_id : string; mb_user_id : string; mb_company_id : string; mb_role : CompanyMemberRole;
  mb_permissions : option PartialPermissions; mb_invited_by : option string;
  mb_joined_at : Z }.

(** The condition [company_id = companyId AND user_id = userId]. *)
Definition is_membership (companyId userId : string) (m : member_row) : bool :=
  bool_decide (m.(mb_company_id) = companyId) && bool_decide (m.(mb_user_id) = userId).

Definition member_data (m : member_row) : CompanyMemberRole * MemberPermissions :=
  (m.(mb_role), getEffectivePermissions m.(mb_role) (default (λ _, None) m.(mb_permissions))).

Definition getMemberWithPermissions (members : list member_row) (companyId userId : string)
    : option (CompanyMemberRole * MemberPermissions) :=
  member_data <$> first (is_membership companyId userId) members.

Definition hasFeaturePermission (members : list member_row) (companyId userId : string)
    (permission : Permission) : bool :=
  match getMemberWithPermissions members companyId userId with
  | None => false
  | Some (_, permissions) => permissions permission
  end.

Definition hasAllPermissions (members : list member_row) (companyId userId : string)
    (permissions : list Permission) : bool :=
  match getMemberWithPermissions members companyId userId with
  | None => false
  | Some (_, granted) => forallb granted permissions
  end.

Definition hasAnyPermission (members : list member_row) (companyId userId : string)
    (permissions : list Permission) : bool :=
  match getMemberWithPermissions members companyId userId with
  | None => false
  | Some (_, granted) => existsb granted permissions
  end.
