(* ===== verification/PublicRows.v ===== *)
(** The rows of the public schema: accounts, sessions, workspaces, memberships,
    invitations and the credentials of the MCP server.

    One record per table of packages/database/src/client.ts, with the columns that
    the modelled services read or write.  The tables are part of the state of
    TenantDb.v; their indexes and checks are in PublicDb.v. *)

From S2P Require Import Prelude Js Permissions.

Inductive company_status := company_active | company_suspended | company_deleted.
#[export] Instance company_status_eq : EqDecision company_status.
Proof. solve_decision. Defined.

Inductive ApiTokenScope := scope_read | scope_write.
#[export] Instance ApiTokenScope_eq : EqDecision ApiTokenScope.
Proof. solve_decision. Defined.

Inductive AuthTokenType := email_verification | password_reset.
#[export] Instance AuthTokenType_eq : EqDecision AuthTokenType.
Proof. solve_decision. Defined.

Record user_row := mkUser {
  us_id : string; us_name : option jsstring; us_email : jsstring;
  us_avatar_key : option string; us_password_hash : string;
  us_email_verified_at : option Z; us_created_at : Z; us_updated_at : Z }.

Record company_row := mkCompany {
  co_id : string; co_name : jsstring; co_description : option jsstring;
  co_logo_key : option string; co_schema_name : string; co_status : company_status;
  co_created_at : Z; co_updated_at : Z }.

Record stats_row := mkStats {
  st_company_id : string; st_active_users : Z; st_updated_at : Z }.

Record invitation_row := mkInvitation {
  iv_id : string; iv_company_id : string; iv_email : jsstring; iv_role : CompanyMemberRole;
  iv_permissions : PartialPermissions; iv_token : string; iv_invited_by : string;
  iv_expires_at : Z; iv_accepted_at : option Z; iv_created_at : Z }.

Record DeviceInfo := mkDevice {
  dv_name : option string; dv_type : option string;
  dv_ip_address : option string; dv_user_agent : option string }.

Record RetiredRefreshToken := mkRetired { rt_hash : string; rt_expiresAt : Z }.

(** The jsonb column user_sessions.previous_refresh_tokens can hold anything.  Of an item
    only its fields [hash] and [expiresAt] matter: each is a string or not, and the
    instant of a string is what [Date.parse] makes of it, [None] for NaN. *)
Inductive retired_item :=
| RetiredObject (hash : option string) (expiresAt : option (option Z))
| RetiredOther.
Inductive retired_column := RetiredArray (items : list retired_item) | RetiredNotArray.

Record user_session_row := mkUserSession {
  se_id : string; se_user_id : string; se_device : DeviceInfo;
  se_refresh_token : string;  (* its hash *)
  se_previous_refresh_tokens : retired_column;
  se_last_active_at : Z; se_created_at : Z; se_expires_at : Z }.

Record auth_token_row := mkAuthToken {
  at_id : string; at_user_id : string; at_type : AuthTokenType; at_token_hash : string;
  at_expires_at : Z; at_used_at : option Z; at_created_at : Z }.

Record api_token_row := mkApiToken {
  tk_id : string; tk_user_id : string; tk_company_id : string; tk_name : jsstring;
  tk_token_hash : string; tk_token_prefix : string; tk_scopes : list ApiTokenScope;
  tk_last_used_at : option Z; tk_expires_at : option Z; tk_revoked_at : option Z;
  tk_created_at : Z; tk_grant_id : option string; tk_refresh_token_hash : option string;
  tk_refresh_expires_at : option Z; tk_refresh_used_at : option Z }.

Record grant_row := mkGrant {
  gr_id : string; gr_user_id : string; gr_company_id : string; gr_client_id : string;
  gr_scopes : list ApiTokenScope; gr_resource : string; gr_created_at : Z;
  gr_last_used_at : option Z; gr_revoked_at : option Z; gr_revoked_reason : option string }.

Record code_row := mkCode {
  ac_id : string; ac_code_hash : string; ac_client_id : string; ac_user_id : string;
  ac_company_id : string; ac_scopes : list ApiTokenScope; ac_redirect_uri : string;
  ac_code_challenge : string; ac_resource : string; ac_expires_at : Z;
  ac_consumed_at : option Z; ac_created_at : Z }.

Record client_row := mkClient {
  cl_client_id : string; cl_client_name : option jsstring; cl_redirect_uris : list jsstring;
  cl_token_endpoint_auth_method : jsstring; cl_fetched_at : Z; cl_cache_expires_at : Z;
  cl_created_at : Z }.

Record public_tables := mkPublic {
  p_users : list user_row; p_companies : list company_row; p_stats : list stats_row;
  p_members : list member_row; p_invitations : list invitation_row;
  p_user_sessions : list user_session_row; p_auth_tokens : list auth_token_row;
  p_api_tokens : list api_token_row; p_grants : list grant_row; p_codes : list code_row;
  p_clients : list client_row;
  (** The workspaces whose cached membership the process dropped, in order: no table, but
      written outside of transactions like one. *)
  p_invalidated : list string }.

Definition no_public : public_tables := mkPublic [] [] [] [] [] [] [] [] [] [] [] [].
