(* ===== verification/Json.v ===== *)
(** JSON values and the canonical text of an event.

    [jsval] is a JavaScript value made of the types that JSON carries, and [undefined];
    an object is the list of its own properties in the order of their creation.
    [stringify] is [JSON.stringify] and [jsonb] what comes back when a value written
    to a jsonb column is read.  [stableJson] is the function of
    src/apps/api/src/channel-spine/application/event-processor.ts whose text is hashed
    into an event's identity.  The last part compares the two: the text survives
    storage exactly when the value has no property that is [undefined]. *)

From S2P Require Import Prelude Js.

Inductive jsval :=
| JUndefined
| JNull
| JBool (b : bool)
| JNumber (n : Z)  (* the integers that a double holds exactly *)
| JString (s : jsstring)
| JArray (l : list jsval)
| JObject (o : list (jsstring * jsval)).

(** Induction through the elements of arrays and the values of objects. *)
Section induction.
Context (P : jsval → Prop).
Context (P_undefined : P JUndefined) (P_null : P JNull) (P_bool : ∀ b, P (JBool b)).
Context (P_number : ∀ n, P (JNumber n)) (P_string : ∀ s, P (JString s)).
Context (P_array : ∀ l, Forall P l → P (JArray l)).
Context (P_object : ∀ o, Forall (λ kv, P kv.2) o → P (JObject o)).

Fixpoint jsval_nested_ind (v : jsval) : P v :=
  match v with
  | JUndefined => P_undefined
  | JNull => P_null
  | JBool b => P_bool b
  | JNumber n => P_number n
  | JString s => P_string s
  | JArray l =>
      P_array l ((fix go l : Forall P l :=
        match l with
        | [] => Forall_nil_2 P
        | x :: l => Forall_cons_2 P x l (jsval_nested_ind x) (go l)
        end) l)
  | JObject o =>
      P_object o ((fix go o : Forall (λ kv, P kv.2) o :=
        match o with
        | [] => Forall_nil_2 _
        | kv :: o => Forall_cons_2 (λ kv, P kv.2) kv o (jsval_nested_ind kv.2) (go o)
        end) o)
  end.
End induction.

(** ** JSON.stringify *)

Definition hex_digit (n : Z) : Z := (if n <? 10 then 48 + n else 87 + n)%Z.
Definition unicode_escape (c : Z) : jsstring :=
  js "\u" ++ [hex_digit (c / 4096 mod 16); hex_digit (c / 256 mod 16);
              hex_digit (c / 16 mod 16); hex_digit (c mod 16)]%Z.

Definition leading_surrogate (c : Z) : bool := ((55296 <=? c) && (c <=? 56319))%Z.
Definition trailing_surrogate (c : Z) : bool := ((56320 <=? c) && (c <=? 57343))%Z.

Definition escape_unit (c : Z) : jsstring :=
  match c with
  | 8 => js "\b" | 9 => js "\t" | 10 => js "\n" | 12 => js "\f" | 13 => js "\r"
  | 34 => [92; 34] | 92 => js "\\"
  | _ => if (c <? 32)%Z || leading_surrogate c || trailing_surrogate c
         then unicode_escape c else [c]
  end%Z.

(** A surrogate that is half of a pair stays; a lone one is escaped. *)
Fixpoint escape (s : jsstring) : jsstring :=
  match s with
  | [] => []
  | c :: s' =>
      match s' with
      | d :: s'' => if leading_surrogate c && trailing_surrogate d then c :: d :: escape s''
                    else escape_unit c ++ escape s'
      | [] => escape_unit c
      end
  end.
Definition quote (s : jsstring) : jsstring := 34%Z :: escape s ++ [34%Z].

Definition comma : jsstring := js ",".

(** [JSON.stringify(v)]; [None] is [undefined]. *)
Fixpoint stringify (v : jsval) : option jsstring :=
  match v with
  | JUndefined => None
  | JNull => Some (js "null")
  | JBool b => Some (js (if b then "true" else "false"))
  | JNumber n => Some (js_of_Z n)
  | JString s => Some (quote s)
  | JArray l => Some (js "[" ++ join comma ((λ x, default (js "null") (stringify x)) <$> l) ++ js "]")
  | JObject o =>
      Some (js "{" ++ join comma (omap (λ kv, (λ t, quote kv.1 ++ js ":" ++ t) <$> stringify kv.2) o)
            ++ js "}")
  end.

(** ** Storage *)

(** The order of the keys of a jsonb object: by length, then by content. *)
Definition jsonb_le (a b : jsstring * jsval) : Prop :=
  (length a.1 < length b.1)%nat ∨ (length a.1 = length b.1 ∧ js_le a.1 b.1).
#[export] Instance jsonb_le_dec : RelDecision jsonb_le.
Proof. intros a b. unfold jsonb_le. apply _. Defined.

Definition is_undefined (v : jsval) : bool := match v with JUndefined => true | _ => false end.

(** [JSON.stringify] into a jsonb column and back: properties that are undefined are
    dropped, undefined elements become null, keys are reordered. *)
Fixpoint jsonb (v : jsval) : jsval :=
  match v with
  | JUndefined => JNull
  | JArray l => JArray (jsonb <$> l)
  | JObject o =>
      JObject (merge_sort jsonb_le
        (omap (λ kv, if is_undefined kv.2 then None else Some (kv.1, jsonb kv.2)) o))
  | v => v
  end.

(** ** stableJson *)

Section stable.
(** [left.localeCompare(right) <= 0], the collation of the runtime's ICU library. *)
Context (localeCompare_le : jsstring → jsstring → bool).

Definition key_le (a b : jsstring * jsstring) : Prop := localeCompare_le a.1 b.1 = true.
#[export] Instance key_le_dec : RelDecision key_le.
Proof. intros a b. unfold key_le. apply _. Defined.

Definition property_text (kv : jsstring * jsstring) : jsstring := quote kv.1 ++ js ":" ++ kv.2.

(** The sort compares keys only, so it may follow the recursive call. *)
Fixpoint stableJson (value : jsval) : jsstring :=
  match value with
  | JArray l => js "[" ++ join comma (stableJson <$> l) ++ js "]"
  | JObject o =>
      js "{" ++ join comma (property_text <$>
        merge_sort key_le ((λ kv, (kv.1, stableJson kv.2)) <$> o)) ++ js "}"
  | v => default (js "null") (stringify v)
  end.

(** ** What storage does to the text *)

(** No property is undefined, in the whole value. *)
Fixpoint fully_defined (v : jsval) : bool :=
  match v with
  | JArray l => forallb fully_defined l
  | JObject o => forallb (λ kv, negb (is_undefined kv.2) && fully_defined kv.2) o
  | _ => true
  end.

(** No two keys of one object collate as equal; in particular none occurs twice. *)
Fixpoint keys_apart (ks : list jsstring) : bool :=
  match ks with
  | [] => true
  | k :: ks => forallb (λ j, negb (localeCompare_le k j && localeCompare_le j k)) ks && keys_apart ks
  end.
Fixpoint well_keyed (v : jsval) : bool :=
  match v with
  | JArray l => forallb well_keyed l
  | JObject o => keys_apart (fst <$> o) && forallb (λ kv, well_keyed kv.2) o
  | _ => true
  end.

Context `{Htotal : !Total (λ a b, localeCompare_le a b = true)}.
Context `{Htrans : !Transitive (λ a b, localeCompare_le a b = true)}.

#[local] Instance key_le_total : Total key_le.
Proof using Htotal. intros a b. apply Htotal. Qed.
#[local] Instance key_le_transitive : Transitive key_le.
Proof using Htrans. intros a b c. apply Htrans. Qed.

(** Sorting properties with keys apart does not depend on their order. *)
Lemma keys_apart_eq (l : list (jsstring * jsstring)) a b :
  keys_apart (fst <$> l) = true → a ∈ l → b ∈ l → key_le a b → key_le b a → a = b.
Proof using.
  intros Hl Ha Hb Hab Hba. induction l as [|c l IH]; [by apply not_elem_of_nil in Ha|].
  cbn in Hl. apply andb_true_iff in Hl as [Hc Hl]. rewrite forallb_forall in Hc.
  assert (Hne : ∀ x, x ∈ l → key_le c x → key_le x c → False).
  { intros x Hx H1 H2. specialize (Hc x.1). rewrite <- list_elem_of_In in Hc.
    unfold key_le in *. rewrite H1, H2 in Hc. apply diff_false_true, Hc, list_elem_of_fmap. by exists x. }
  apply elem_of_cons in Ha as [->|Ha], Hb as [->|Hb]; [done|by destruct (Hne b)|by destruct (Hne a)|auto].
Qed.

Lemma sorted_properties l l' :
  keys_apart (fst <$> l) = true → l ≡ₚ l' → merge_sort key_le l = merge_sort key_le l'.
Proof using Htotal Htrans.
  intros Hl Hp. apply (StronglySorted_unique_strong key_le).
  - intros a b Ha Hb. rewrite merge_sort_Permutation in Ha. rewrite merge_sort_Permutation, <- Hp in Hb.
    by apply keys_apart_eq with l.
  - apply StronglySorted_merge_sort; apply _.
  - apply StronglySorted_merge_sort; apply _.
  - by rewrite !merge_sort_Permutation.
Qed.

(** The room that texts take when they are joined: one separator each. *)
Fixpoint room (l : list jsstring) : nat :=
  match l with [] => 0 | t :: l => S (length t) + room l end.

Lemma length_join l : length (join comma l) = (room l - 1)%nat.
Proof using.
  induction l as [|t [|u l] IH]; [done|cbn; lia|].
  change (join comma (t :: u :: l)) with (t ++ comma ++ join comma (u :: l)).
  rewrite !length_app, IH. change (length comma) with 1%nat. cbn. lia.
Qed.

Lemma room_permutation l l' : l ≡ₚ l' → room l = room l'.
Proof using. induction 1; cbn; lia. Qed.

Lemma length_stableJson_array l :
  length (stableJson (JArray l)) = (room (stableJson <$> l) + 1 + (if l is [] then 1 else 0))%nat.
Proof using.
  cbn [stableJson]. rewrite !length_app, length_join.
  change (length (js "[")) with 1%nat. change (length (js "]")) with 1%nat. destruct l; cbn; lia.
Qed.

Definition properties (o : list (jsstring * jsval)) : list (jsstring * jsstring) :=
  (λ kv, (kv.1, stableJson kv.2)) <$> o.

Lemma length_stableJson_object o :
  length (stableJson (JObject o))
  = (room (property_text <$> properties o) + 1 + (if o is [] then 1 else 0))%nat.
Proof using.
  cbn [stableJson]. change ((λ kv, (kv.1, stableJson kv.2)) <$> o) with (properties o).
  rewrite !length_app, length_join.
  rewrite (room_permutation (property_text <$> merge_sort _ _) (property_text <$> properties o))
    by (by rewrite merge_sort_Permutation).
  change (length (js "{")) with 1%nat. change (length (js "}")) with 1%nat. destruct o; cbn; lia.
Qed.

Definition stored_property (kv : jsstring * jsval) : option (jsstring * jsval) :=
  if is_undefined kv.2 then None else Some (kv.1, jsonb kv.2).
Definition no_longer (v : jsval) : Prop :=
  (length (stableJson (jsonb v)) ≤ length (stableJson v))%nat
  ∧ (fully_defined v = false → (length (stableJson (jsonb v)) < length (stableJson v))%nat).

Lemma property_text_length k t : (2 + length t ≤ length (property_text (k, t)))%nat.
Proof using. unfold property_text, quote. cbn. rewrite !length_app. cbn. lia. Qed.

Lemma stored_cons k v o :
  omap stored_property ((k, v) :: o)
  = if is_undefined v then omap stored_property o else (k, jsonb v) :: omap stored_property o.
Proof using. cbn. unfold stored_property at 1. cbn. by destruct (is_undefined v). Qed.

Lemma room_stored_array l :
  Forall no_longer l →
  (room (stableJson <$> (jsonb <$> l)) ≤ room (stableJson <$> l))%nat
  ∧ (forallb fully_defined l = false →
     (room (stableJson <$> (jsonb <$> l)) < room (stableJson <$> l))%nat).
Proof using.
  induction 1 as [|v l [Hle Hlt] _ [IHle IHlt]]; [done|]. cbn [fmap list_fmap room forallb].
  split; [lia|]. intros [Hv|Hl]%andb_false_iff; [specialize (Hlt Hv)|specialize (IHlt Hl)]; lia.
Qed.

Lemma room_stored_object o :
  Forall (λ kv, no_longer kv.2) o →
  (room (property_text <$> properties (omap stored_property o)) ≤ room (property_text <$> properties o))%nat
  ∧ (fully_defined (JObject o) = false →
     (room (property_text <$> properties (omap stored_property o))
      < room (property_text <$> properties o))%nat).
Proof using.
  induction 1 as [|[k v] o [Hle Hlt] _ [IHle IHlt]]; [done|]. cbn [snd] in *.
  assert (Hk := property_text_length k (stableJson v)).
  rewrite stored_cons. change (properties ((k, v) :: o)) with ((k, stableJson v) :: properties o).
  cbn [fully_defined forallb fst snd fmap list_fmap room] in *.
  change (list_fmap _ _ property_text (properties o)) with (property_text <$> properties o).
  destruct (is_undefined v) eqn:Eu; cbn [negb andb]; [lia|].
  change (properties ((k, jsonb v) :: omap stored_property o))
    with ((k, stableJson (jsonb v)) :: properties (omap stored_property o)).
  cbn [fmap list_fmap room].
  change (list_fmap _ _ property_text (properties (omap stored_property o)))
    with (property_text <$> properties (omap stored_property o)).
  unfold property_text at 1 3 5 7. cbn [fst snd]. rewrite !length_app.
  split; [lia|]. intros [Hv|Ho]%andb_false_iff; [specialize (Hlt Hv)|specialize (IHlt Ho)]; lia.
Qed.

Lemma stored_no_longer v : no_longer v.
Proof using.
  induction v as [| | | | |l Hl|o Ho] using jsval_nested_ind; try done.
  - destruct (room_stored_array l Hl) as [Hle Hlt]. unfold no_longer. cbn [jsonb fully_defined].
    rewrite !length_stableJson_array. destruct l; cbn [fmap list_fmap] in *; [done|].
    split; [lia|]. intros Hf. specialize (Hlt Hf). lia.
  - destruct (room_stored_object o Ho) as [Hle Hlt]. unfold no_longer. cbn [jsonb].
    change (omap _ o) with (omap stored_property o). rewrite !length_stableJson_object.
    assert (Hp : room (property_text <$> properties (merge_sort jsonb_le (omap stored_property o)))
                 = room (property_text <$> properties (omap stored_property o))).
    { apply room_permutation. unfold properties. by rewrite merge_sort_Permutation. }
    rewrite Hp. destruct o as [|[k v] o]; [done|].
    assert (Hk := property_text_length k (stableJson v)).
    assert (Hthree : (3 ≤ room (property_text <$> properties ((k, v) :: o)))%nat).
    { change (properties ((k, v) :: o)) with ((k, stableJson v) :: properties o). cbn [fmap list_fmap room]. lia. }
    destruct (omap stored_property ((k, v) :: o)) as [|q o'] eqn:Eo.
    { change (merge_sort jsonb_le []) with (@nil (jsstring * jsval)). 
      change (room (property_text <$> properties [])) with 0%nat. cbv iota. split; [lia|intros _; lia]. }
    destruct (merge_sort jsonb_le (q :: o')) eqn:Em;
      [|cbv iota; split; [lia|]; intros Hf; specialize (Hlt Hf); lia].
    assert (Hnil := merge_sort_Permutation jsonb_le (q :: o')). rewrite Em in Hnil.
    by apply Permutation_nil_cons in Hnil.
Qed.

Lemma undefined_changes_text v : fully_defined v = false → stableJson (jsonb v) ≠ stableJson v.
Proof using. intros Hf Heq. destruct (stored_no_longer v) as [_ Hlt]. specialize (Hlt Hf). rewrite Heq in Hlt. lia. Qed.

(** The canonical text of a value is the text of what storage returns exactly when no
    property of it is undefined. *)
Lemma stableJson_stored v : well_keyed v = true → stableJson (jsonb v) = stableJson v ↔ fully_defined v = true.
Proof using Htotal Htrans.
  intros Hk. split.
  - intros Heq. destruct (fully_defined v) eqn:Ef; [done|]. by destruct (undefined_changes_text v).
  - revert Hk. induction v as [| | | | |l Hl|o Ho] using jsval_nested_ind; try done.
    + cbn [well_keyed fully_defined jsonb stableJson]. rewrite !forallb_forall. intros Hk Hf.
      do 2 f_equal. f_equal. rewrite <- list_fmap_compose. apply list_fmap_ext. intros i x Hx.
      assert (Hin : x ∈ l) by by eapply list_elem_of_lookup_2.
      rewrite Forall_forall in Hl. apply Hl; [done|apply Hk|apply Hf]; by apply list_elem_of_In.
    + cbn [well_keyed fully_defined jsonb stableJson]. rewrite !andb_true_iff, !forallb_forall.
      intros [Hk Hks] Hf. do 2 f_equal. f_equal. f_equal. fold (properties o). symmetry.
      apply sorted_properties; [unfold properties; by rewrite <- list_fmap_compose|].
      change (omap _ o) with (omap stored_property o).
      rewrite merge_sort_Permutation. clear Hk. unfold properties.
      induction Ho as [|[k v] o Hv _ IH]; [done|]. rewrite stored_cons.
      assert (Hfv := Hf (k, v) (or_introl eq_refl)). cbn in Hfv. apply andb_true_iff in Hfv as [Hu Hfv].
      apply negb_true_iff in Hu. rewrite Hu. cbn [fmap list_fmap fst snd] in *.
      rewrite Hv; [|by apply (Hks (k, v)); left|done]. constructor.
      apply IH; intros kv Hin; [apply Hks|apply Hf]; by right.
Qed.
End stable.
