(* ===== verification/SpineRows.v ===== *)
(** The rows of the channel spine: its tables and the neutral columns of older tables.

    The tables are those of packages/database/src/channel-spine-schema.ts that the event
    processor writes, with the types that normalized events and rows share
    (packages/shared/src/channel-spine/contracts.ts), and the two queues of the public
    schema that it fills in the same transaction.  An event time is the text of an ISO
    timestamp and the instant that [Date.parse] makes of it, [None] for NaN. *)

From S2P Require Import Prelude Js Json.

(** Provider metadata, a JSON object. *)
Abbreviation metadata := jsval.
Definition no_metadata : metadata := JObject [].

Record timestamp := mkTimestamp { ts_text : jsstring; ts_instant : option Z }.

Inductive conversation_kind := kind_direct | kind_group | kind_thread.
Inductive account_status :=
  account_connecting | account_connected | account_degraded | account_disconnected
  | account_disabled | account_error | account_archived.
Inductive participant_kind := kind_external | kind_workspace_user | kind_account.
Inductive attachment_status := att_pending | att_available | att_failed | att_deleted.
Inductive inbox_status := inbox_pending | inbox_applied | inbox_quarantined.
Inductive message_direction := dir_inbound | dir_outbound | dir_system.

#[export] Instance conversation_kind_eq : EqDecision conversation_kind.
Proof. solve_decision. Defined.
#[export] Instance account_status_eq : EqDecision account_status.
Proof. solve_decision. Defined.
#[export] Instance participant_kind_eq : EqDecision participant_kind.
Proof. solve_decision. Defined.
#[export] Instance attachment_status_eq : EqDecision attachment_status.
Proof. solve_decision. Defined.
#[export] Instance inbox_status_eq : EqDecision inbox_status.
Proof. solve_decision. Defined.
#[export] Instance message_direction_eq : EqDecision message_direction.
Proof. solve_decision. Defined.

(** ** Normalized events *)

Record ExternalEndpointReference := mkEndpointRef {
  xe_externalId : jsstring; xe_identityScope : string; xe_endpointKind : string;
  xe_normalizedAddress : option jsstring; xe_addressDisplay : option jsstring;
  xe_displayName : option jsstring }.

Record ExternalConversationReference := mkConversationRef {
  xc_externalThreadId : option string; xc_clientThreadKey : string;
  xc_kind : conversation_kind; xc_subject : option jsstring }.

Record NormalizedAttachment := mkAttachmentRef {
  xa_ordinal : Z; xa_kind : string; xa_providerAttachmentId : option jsstring;
  xa_fileName : option jsstring; xa_contentType : option string; xa_byteSize : option Z;
  xa_storageUri : option string; xa_status : attachment_status; xa_errorCode : option string;
  xa_providerMetadata : option metadata }.

(** ParticipantUpsertEventPayload and ParticipantRemoveEventPayload. *)
Record ParticipantUpsert := mkParticipantUpsert {
  pu_conversation : ExternalConversationReference; pu_endpoint : option ExternalEndpointReference;
  pu_participantKind : participant_kind; pu_role : string; pu_isSelf : bool;
  pu_workspaceUserId : option string; pu_joinedAt : option timestamp;
  pu_providerMetadata : option metadata }.
Record ParticipantRemove := mkParticipantRemove {
  pr_conversation : ExternalConversationReference; pr_endpoint : option ExternalEndpointReference;
  pr_workspaceUserId : option string; pr_leftAt : option timestamp }.

Record MessageUpsertEventPayload := mkMessageUpsert {
  mu_conversation : ExternalConversationReference; mu_externalMessageId : string;
  mu_externalIdentityScope : string; mu_direction : message_direction;
  mu_sender : option ExternalEndpointReference; mu_normalizedType : string;
  mu_subject : option jsstring; mu_textContent : option jsstring;
  mu_sanitizedHtmlContent : option jsstring; mu_replyToExternalMessageId : option string;
  mu_sentByUserId : option string; mu_attachments : option (list NormalizedAttachment);
  mu_providerMetadata : option metadata }.

Record MessageMutationEventPayload := mkMessageMutation {
  mm_conversation : ExternalConversationReference; mm_externalMessageId : string;
  mm_externalIdentityScope : string; mm_textContent : option jsstring;
  mm_sanitizedHtmlContent : option jsstring; mm_providerMetadata : option metadata }.

Record ReactionEventPayload := mkReaction {
  re_conversation : ExternalConversationReference; re_messageExternalId : string;
  re_messageIdentityScope : string; re_externalReactionId : option jsstring;
  re_externalEventScope : option string; re_reactor : ExternalEndpointReference;
  re_emoji : jsstring }.

Record DeliveryUpdateEventPayload := mkDelivery {
  du_messageExternalId : string; du_messageIdentityScope : string;
  du_recipient : option ExternalEndpointReference; du_externalEventId : option jsstring;
  du_externalEventScope : option string; du_status : string; du_errorCode : option string;
  du_errorDetail : option jsstring; du_providerMetadata : option metadata }.

Record AttachmentEventPayload := mkAttachmentEvent {
  ae_messageExternalId : string; ae_messageIdentityScope : string;
  ae_attachment : NormalizedAttachment }.

Record SyncCheckpointEventPayload := mkSyncCheckpoint {
  sy_conversation : option ExternalConversationReference; sy_status : string;
  sy_cursorOrAnchor : option string; sy_requestGeneration : option Z;
  sy_errorCode : option string }.

(** The kind and the payload of an event; the payloads of the transient kinds are not read. *)
Inductive event_payload :=
| AccountStatusEvent (status : account_status) (providerStatus : option jsstring)
| EndpointUpsertEvent (endpoint : ExternalEndpointReference)
| ConversationUpsertEvent (conversation : ExternalConversationReference)
    (providerStatus : option jsstring) (providerMetadata : option metadata)
| ParticipantUpsertEvent (payload : ParticipantUpsert)
| ParticipantRemoveEvent (payload : ParticipantRemove)
| MessageUpsertEvent (payload : MessageUpsertEventPayload)
| MessageEditEvent (payload : MessageMutationEventPayload)
| MessageDeleteEvent (payload : MessageMutationEventPayload)
| ReactionUpsertEvent (payload : ReactionEventPayload)
| ReactionDeleteEvent (payload : ReactionEventPayload)
| DeliveryUpdateEvent (payload : DeliveryUpdateEventPayload)
| AttachmentAvailableEvent (payload : AttachmentEventPayload)
| AttachmentFailedEvent (payload : AttachmentEventPayload)
| SyncCheckpointEvent (payload : SyncCheckpointEventPayload)
| TypingUpdateEvent
| PresenceUpdateEvent.

Definition event_kind (p : event_payload) : string :=
  match p with
  | AccountStatusEvent _ _ => "account.status"
  | EndpointUpsertEvent _ => "endpoint.upsert"
  | ConversationUpsertEvent _ _ _ => "conversation.upsert"
  | ParticipantUpsertEvent _ => "participant.upsert"
  | ParticipantRemoveEvent _ => "participant.remove"
  | MessageUpsertEvent _ => "message.upsert"
  | MessageEditEvent _ => "message.edit"
  | MessageDeleteEvent _ => "message.delete"
  | ReactionUpsertEvent _ => "reaction.upsert"
  | ReactionDeleteEvent _ => "reaction.delete"
  | DeliveryUpdateEvent _ => "delivery.update"
  | AttachmentAvailableEvent _ => "attachment.available"
  | AttachmentFailedEvent _ => "attachment.failed"
  | SyncCheckpointEvent _ => "sync.checkpoint"
  | TypingUpdateEvent => "typing.update"
  | PresenceUpdateEvent => "presence.update"
  end.

(** An event; [ev_object] is the same object as JSON sees it, without its [receivedAt],
    which the digest leaves out. *)
Record NormalizedChannelEvent := mkEvent {
  ev_contractVersion : Z; ev_eventId : jsstring; ev_companyId : string;
  ev_channelAccountId : string; ev_channel : string; ev_provider : string;
  ev_providerOccurredAt : option timestamp; ev_receivedAt : timestamp;
  ev_payload : event_payload; ev_object : jsval }.

(** ** Rows *)

(** The neutral columns of contacts, conversations, messages and conversation_states. *)
Record contact_profile := mkProfile {
  cp_username : option jsstring; cp_display_name : option jsstring;
  cp_record_kind : option string }.
Definition no_profile : contact_profile := mkProfile None None None.

Record conversation_thread := mkThread {
  th_external_thread_id : option string; th_client_thread_key : string;
  th_provider_status : option jsstring; th_provider_metadata : metadata;
  th_first_message_at : option Z; th_last_message_at : option Z; th_updated_at : Z }.

Record message_neutral := mkNeutral {
  nm_direction : option message_direction; nm_sender_participant_id : option string;
  nm_provider_occurred_at : option Z; nm_normalized_type : option string;
  nm_subject : option jsstring; nm_text_content : option jsstring;
  nm_sanitized_html_content : option jsstring; nm_provider_metadata : option metadata;
  nm_sender_name : option jsstring; nm_media_size : option Z }.
Definition not_neutral : message_neutral :=
  mkNeutral None None None None None None None None None None.

Record state_activity := mkActivity {
  sa_unread_count : Z; sa_last_message_at : option Z; sa_last_message_preview : option jsstring }.
Definition no_activity : state_activity := mkActivity 0 None None.

Record spine_account_row := mkSpineAccount {
  sa_id : string; sa_channel : string; sa_provider : string; sa_status : account_status;
  sa_provider_status : option jsstring; sa_last_sync_at : option Z; sa_updated_at : Z;
  sa_archived_at : option Z }.

Record endpoint_row := mkEndpoint {
  ep_id : string; ep_contact_id : option string; ep_channel : string; ep_provider : string;
  ep_channel_account_id : option string; ep_endpoint_kind : string; ep_external_id : jsstring;
  ep_identity_scope : string; ep_normalized_address : option jsstring;
  ep_address_display : option jsstring; ep_display_name : option jsstring;
  ep_verification_state : string; ep_first_seen_at : Z; ep_last_seen_at : Z; ep_updated_at : Z }.

Record participant_row := mkParticipant {
  pt_id : string; pt_conversation_id : string; pt_contact_endpoint_id : option string;
  pt_workspace_user_id : option string; pt_participant_kind : participant_kind; pt_role : string;
  pt_is_self : bool; pt_joined_at : option Z; pt_left_at : option Z;
  pt_provider_metadata : metadata; pt_updated_at : Z }.

Record message_participant_row := mkMessageParticipant {
  mp_message_id : string; mp_ordinal : Z; mp_role : string; mp_contact_endpoint_id : option string;
  mp_address_snapshot : jsstring; mp_display_name_snapshot : option jsstring }.

Record attachment_row := mkAttachment {
  ma_id : string; ma_message_id : string; ma_ordinal : Z; ma_kind : string;
  ma_provider_attachment_id : option jsstring; ma_file_name : option jsstring;
  ma_content_type : option string; ma_byte_size : option Z; ma_storage_uri : option string;
  ma_status : attachment_status; ma_error_code : option string; ma_provider_metadata : metadata;
  ma_updated_at : Z }.

Record reaction_row := mkReactionRow {
  mx_id : string; mx_message_id : string; mx_reactor_jid : jsstring; mx_emoji : jsstring;
  mx_reactor_endpoint_id : option string; mx_channel_account_id : option string;
  mx_external_reaction_id : option jsstring; mx_external_event_scope : option string;
  mx_provider_occurred_at : option Z }.

Record delivery_event_row := mkDeliveryEvent {
  de_id : string; de_channel_account_id : string; de_message_id : string;
  de_recipient_endpoint_id : option string; de_external_event_scope : option string;
  de_external_event_id : option jsstring; de_status : string; de_provider_occurred_at : option Z;
  de_error_code : option string; de_error_detail : option jsstring; de_provider_metadata : metadata }.

Record sync_state_row := mkSyncState {
  ss_conversation_id : string; ss_provider : string; ss_status : string;
  ss_cursor_or_anchor : option string; ss_request_generation : Z;
  ss_last_completed_at : option Z; ss_error_code : option string; ss_updated_at : Z }.

(** The queue of events; the time of the next attempt is in microseconds. *)
Record inbox_row := mkInbox {
  ib_channel_account_id : string; ib_external_event_scope : string; ib_external_event_id : jsstring;
  ib_kind : string; ib_payload_digest : jsstring; ib_normalized_event : NormalizedChannelEvent;
  ib_status : inbox_status; ib_attempts : Z; ib_next_attempt_at : Z;
  ib_last_error_code : option jsstring; ib_received_at : Z; ib_applied_at : option Z }.

(** The queues of the public schema: messages to index, messages to deliver. *)
Record search_row := mkSearch { so_company_id : string; so_message_id : string; so_connection_id : string }.
Record fanout_row := mkFanout {
  fo_company_id : string; fo_channel_account_id : string; fo_conversation_id : string;
  fo_message_id : string; fo_kind : string }.

Record spine_tables := mkSpine {
  s_accounts : list spine_account_row; s_endpoints : list endpoint_row;
  s_participants : list participant_row; s_message_participants : list message_participant_row;
  s_attachments : list attachment_row; s_reactions : list reaction_row;
  s_delivery_events : list delivery_event_row; s_sync_states : list sync_state_row;
  s_inbox : list inbox_row; s_search : list search_row; s_fanout : list fanout_row }.

Definition no_spine : spine_tables := mkSpine [] [] [] [] [] [] [] [] [] [] [].
