(* ===== verification/TenantDb.v ===== *)
(** The tenant database and the effects of the services that use it.

    A table is the list of its rows; the rows carry the columns of
    packages/database/src/client.ts that the modelled services read or write.
    The services' SQL statements become [select], [update] and [insert], which
    check the unique indexes and CHECK constraints that the migrations create,
    so a statement that PostgreSQL would refuse throws here too.  Foreign keys
    are not modelled: the services lock or read the referenced row first.

    Every service is a computation in [M]: a state transformer that returns a
    value or throws.  [transaction] discards the table changes of a body that
    throws.  The clocks and the UUID generator are the typeclass [Oracle]. *)

From S2P Require Import Prelude Js Json PublicRows SpineRows.

(** ** Enumerations *)

Inductive case_status := open | pending | resolved.
Inductive case_kind := direct | group.
Inductive open_source := live_inbound | manual.
Inductive case_outcome := handled | no_reply_needed | spam | duplicate | other.
Inductive sched_status :=
  scheduled | processing | sent | failed | canceled | skipped.
Inductive job_status :=
  job_scheduled | job_running | job_completed | job_completed_with_errors | job_canceled.
Inductive skip_reason :=
  no_jid | no_connection | connection_archived | connection_filtered
  | connection_changed | blocked | is_group_reason | duplicate_jid | contact_missing.
Inductive connection_status := connected | not_connected.

#[export] Instance case_status_eq : EqDecision case_status.
Proof. solve_decision. Defined.
#[export] Instance case_kind_eq : EqDecision case_kind.
Proof. solve_decision. Defined.
#[export] Instance open_source_eq : EqDecision open_source.
Proof. solve_decision. Defined.
#[export] Instance case_outcome_eq : EqDecision case_outcome.
Proof. solve_decision. Defined.
#[export] Instance sched_status_eq : EqDecision sched_status.
Proof. solve_decision. Defined.
#[export] Instance job_status_eq : EqDecision job_status.
Proof. solve_decision. Defined.
#[export] Instance skip_reason_eq : EqDecision skip_reason.
Proof. solve_decision. Defined.
#[export] Instance connection_status_eq : EqDecision connection_status.
Proof. solve_decision. Defined.

(** ** Errors *)

(** The preview that an audience drift carries (packages/shared). *)
Record BulkJobPreview := mkPreview {
  pv_recipientCount : Z; pv_skippedCount : Z;
  pv_perConnection : list (string * option jsstring * Z);
  pv_skippedByReason : list (skip_reason * Z);
  pv_audienceHash : string; pv_estimatedDurationSeconds : Z;
  pv_sendIntervalSeconds : Z; pv_maxRecipientsPerJob : Z; pv_dailyCapPerConnection : Z }.

Inductive err :=
| NotFoundError (resource : string)
| ConflictError (message : string)
| ValidationError (message : string)
| ContactAssignedToOtherError (assignedTo : string)
| NoActiveCaseError
| ContactBlockedError
| PermanentDispatchError (message : string)
| BulkSkipError (reason : skip_reason)
| BulkAudienceDriftError (preview : BulkJobPreview)
| RescheduleStateConflict
| UniqueViolation (index : string)
| CheckViolation (constraint : string)
| ForbiddenError (message : string)
| OAuthError (code message : string)
| AuthError (message code : string) (statusCode : Z)
| CompanyNotFoundError (companyId : string)
| InsufficientPermissionsError (action : string)
| InvitationNotFoundError (tokenOrId : string)
| InvitationExpiredError
| InvitationEmailMismatchError
| InvitationDeliveryError (email : jsstring)
| UserAlreadyMemberError (email : jsstring)
| HTTPException (statusCode : Z) (message : string)
| OAuthClientError (message code : string)
| ChannelEventIdentityCollisionError (message : string)
| ChannelEventAccountMismatchError (message : string)
| OtherError (message : string).

(** ** Rows *)

Record contact_row := mkContact {
  ct_id : string; ct_jid : option jsstring;
  ct_phone_number : option jsstring; ct_push_name : option jsstring;
  ct_custom_name : option jsstring;
  ct_is_group : bool; ct_is_blocked : bool;
  ct_whatsapp_connection_id : option string; ct_created_at : Z;
  ct_profile : contact_profile }.

Record conversation_row := mkConversation {
  cv_id : string; cv_kind : conversation_kind; cv_subject : option jsstring;
  cv_legacy_contact_id : option string; cv_archived_at : option Z;
  cv_channel_account_id : string; cv_thread : conversation_thread }.

Record case_row := mkCase {
  cc_id : string; cc_contact_id : option string; cc_conversation_id : option string;
  cc_company_id : string; cc_kind : case_kind; cc_status : case_status;
  cc_opened_at : Z; cc_opening_message_id : option string;
  cc_open_source : open_source; cc_opened_by : option string;
  cc_policy_id : string; cc_response_target_minutes : Z;
  cc_resolution_target_minutes : Z;
  cc_reopened_from_case_id : option string; cc_reopen_reason : option jsstring;
  cc_resolved_at : option Z; cc_resolved_by : option string;
  cc_resolution_outcome : option case_outcome; cc_resolution_notes : option jsstring;
  cc_created_at : Z; cc_updated_at : Z }.

Record state_row := mkState {
  cs_id : string; cs_contact_id : option string; cs_conversation_id : option string;
  cs_active_case_id : option string; cs_status : case_status;
  cs_resolved_at : option Z; cs_resolved_by : option string;
  cs_resolution_notes : option jsstring;
  cs_reopened_at : option Z; cs_reopened_by : option string;
  cs_created_at : Z; cs_updated_at : Z; cs_activity : state_activity }.

Record assignment_row := mkAssignment {
  ca_id : string; ca_contact_id : option string; ca_conversation_id : option string;
  ca_assigned_to : string; ca_assigned_by : string;
  ca_assigned_at : Z; ca_unassigned_at : option Z }.

Record message_row := mkMessage {
  ms_id : string; ms_whatsapp_connection_id : option string;
  ms_contact_id : option string; ms_conversation_id : option string;
  ms_message_id : option string; ms_external_message_id : option string;
  ms_from_me : bool; ms_sender_jid : option jsstring;
  ms_message_type : string; ms_content : jsstring;
  ms_media_url : option string; ms_media_mime_type : option string;
  ms_file_name : option string; ms_quoted_message_id : option string;
  ms_sent_by_user_id : option string; ms_status : string;
  ms_timestamp : Z; ms_created_at : Z; ms_case_id : option string;
  ms_seq : option Z;
  ms_channel_account_id : option string; ms_client_idempotency_key : option string;
  ms_reply_to_message_id : option string;
  ms_external_identity_scope : option string;
  ms_deleted_by_sender : bool; ms_deleted_at : option Z; ms_neutral : message_neutral }.

Record scheduled_row := mkScheduled {
  sm_id : string; sm_contact_id : option string; sm_conversation_id : option string;
  sm_content : jsstring; sm_message_type : string;
  sm_media_url : option string; sm_media_mime_type : option string;
  sm_media_file_name : option string; sm_reply_to_message_id : option string;
  sm_scheduled_at : Z; sm_status : sched_status; sm_attempts : Z;
  sm_next_attempt_at : Z; sm_last_error : option jsstring;
  sm_sent_message_id : option string; sm_created_by : string;
  sm_canceled_by : option string; sm_canceled_at : option Z; sm_sent_at : option Z;
  sm_created_at : Z; sm_updated_at : Z;
  sm_bulk_job_id : option string; sm_skip_reason : option skip_reason;
  sm_auto_reply_trigger_message_id : option string;
  sm_auto_reply_quick_reply_id : option string }.

(** The columns of a scheduled message that statements write. *)
Definition sm_update (r : scheduled_row) (status : sched_status) (attempts scheduled_at next_attempt_at : Z)
    (last_error : option jsstring) (sent_message_id canceled_by : option string)
    (canceled_at sent_at : option Z) (skip : option skip_reason) (updated_at : Z) : scheduled_row :=
  mkScheduled r.(sm_id) r.(sm_contact_id) r.(sm_conversation_id) r.(sm_content) r.(sm_message_type)
    r.(sm_media_url) r.(sm_media_mime_type) r.(sm_media_file_name) r.(sm_reply_to_message_id)
    scheduled_at status attempts next_attempt_at last_error sent_message_id r.(sm_created_by)
    canceled_by canceled_at sent_at r.(sm_created_at) updated_at r.(sm_bulk_job_id) skip
    r.(sm_auto_reply_trigger_message_id) r.(sm_auto_reply_quick_reply_id).

Record audience := mkAudience {
  au_tagIds : list string; au_contactIds : list string; au_connectionId : option string }.

Record job_row := mkJob {
  bj_id : string; bj_name : jsstring; bj_status : job_status; bj_content : jsstring;
  bj_message_type : string; bj_media_url : option string;
  bj_media_mime_type : option string; bj_media_file_name : option string;
  bj_audience : audience; bj_audience_hash : string; bj_scheduled_at : Z;
  bj_total_recipients : Z; bj_skipped_recipients : Z;
  bj_purged_sent : Z; bj_purged_failed : Z; bj_purged_canceled : Z; bj_purged_skipped : Z;
  bj_idempotency_key : option string; bj_created_by : string;
  bj_canceled_by : option string; bj_canceled_at : option Z; bj_completed_at : option Z;
  bj_created_at : Z; bj_updated_at : Z }.

Record connection_row := mkConnection {
  wc_id : string; wc_jid : option jsstring; wc_name : option jsstring;
  wc_status : connection_status; wc_archived_at : option Z }.

Record budget_row := mkBudget {
  bb_whatsapp_connection_id : string; bb_next_eligible_at : Z;
  bb_quota_date : Z; bb_sent_today : Z; bb_updated_at : Z }.

(** The calendar of an SLA policy (packages/shared/src/types/sla-policy.ts), as
    it is persisted: an interval list may be missing. *)
Record SlaTimeInterval := mkInterval { si_start : jsstring; si_end : jsstring }.
Record SlaWeeklyScheduleDay := mkDay {
  wd_weekday : Z; wd_open : bool; wd_intervals : option (list SlaTimeInterval) }.
Record SlaScheduleException := mkException {
  ex_date : jsstring; ex_closed : bool; ex_intervals : option (list SlaTimeInterval) }.

Record policy_row := mkPolicy {
  sp_id : string; sp_company_id : string; sp_target_minutes : Z;
  sp_direct_resolution_target_minutes : Z; sp_group_response_target_minutes : Z;
  sp_group_resolution_target_minutes : Z; sp_timezone : string;
  sp_weekly_schedule : list SlaWeeklyScheduleDay;
  sp_exceptions : list SlaScheduleException;
  sp_effective_from : Z; sp_created_by : option string; sp_created_at : Z }.

Record contact_tag_row := mkContactTag { tg_contact_id : string; tg_tag_id : string }.

Record auto_reply_row := mkAutoReply {
  ar_id : Z; ar_enabled : bool; ar_quick_reply_id : option string; ar_delay_minutes : Z;
  ar_outside_business_hours : bool;  (* send_mode *)
  ar_updated_by : string }.

Record quick_reply_row := mkQuickReply { qr_id : string; qr_content : jsstring }.

Record session_row := mkSession {
  ws_id : string; ws_whatsapp_connection_id : string;
  ws_ended_at : option Z; ws_created_at : Z }.

(** What object storage knows of a media object. *)
Record MediaObjectReference := mkMedia {
  mr_key : string; mr_mimeType : string; mr_filename : string;
  mr_size : Z; mr_checksum : option string }.

(** The worker's send command, without its random correlation id. *)
Record send_command := mkSendCommand {
  sd_message_id : string; sd_connection_id : string; sd_to : jsstring; sd_type : string;
  sd_content : jsstring; sd_caption : option jsstring; sd_media : option MediaObjectReference;
  sd_user_id : string; sd_reply_to : option string; sd_reply_to_sender : option jsstring }.

(** An item of purge_cleanup_items, the queue of objects to reclaim. *)
Record cleanup_item_row := mkCleanupItem {
  pc_kind : string; pc_media_key : option string; pc_last_error : option string }.

(** The JSON payload of a command: a send, or another command with the fields that the
    outbox reads.  The command_id that the payload also carries is the row's id. *)
Inductive command_payload :=
| SendMessage (command : send_command)
| OtherCommand (type : string) (to : option jsstring) (message_id : option string).

Inductive command_status := command_pending | command_claimed | command_published | command_failed.
#[export] Instance command_status_eq : EqDecision command_status.
Proof. solve_decision. Defined.

(** A row of nats_outbox; its times are in microseconds. *)
Record command_row := mkCommand {
  cm_id : string; cm_subject : string; cm_payload : command_payload;
  cm_status : command_status; cm_attempts : Z; cm_next_attempt_at : Z;
  cm_last_error : option jsstring; cm_created_at : Z; cm_published_at : option Z }.

Inductive intent_status :=
  intent_pending | intent_dispatching | intent_handed_off | intent_confirmed | intent_failed
  | intent_uncertain.
#[export] Instance intent_status_eq : EqDecision intent_status.
Proof. solve_decision. Defined.

(** The normalized payload of an intent, of a send or of an action. *)
Record intent_payload := mkPayload {
  np_messageType : option string; np_textContent : option jsstring;
  np_actorUserId : option string; np_replyToExternalMessageId : option string;
  np_attachment : option string }.

(** A row of outbound_message_intents. *)
Record intent_row := mkIntent {
  it_id : string; it_channel_account_id : string; it_conversation_id : string;
  it_message_id : option string; it_operation : string; it_idempotency_key : string;
  it_payload : intent_payload; it_status : intent_status; it_attempts : Z;
  it_next_attempt_at : Z; it_lease_token : option string; it_lease_expires_at : option Z;
  it_provider_request_id : option string; it_last_error_code : option string;
  it_created_at : Z; it_updated_at : Z }.

Record tables := mkTables {
  t_contacts : list contact_row; t_conversations : list conversation_row;
  t_cases : list case_row; t_states : list state_row;
  t_assignments : list assignment_row; t_messages : list message_row;
  t_scheduled : list scheduled_row; t_jobs : list job_row;
  t_connections : list connection_row; t_budgets : list budget_row;
  t_policies : list policy_row; t_contact_tags : list contact_tag_row;
  t_auto_reply : list auto_reply_row; t_commands : list command_row;
  t_sessions : list session_row; t_quick_replies : list quick_reply_row;
  t_intents : list intent_row; t_cleanup_items : list cleanup_item_row;
  (** The objects deleted from storage, in order: no table, but written outside of
      transactions like one. *)
  t_deleted_media : list string;
  (** The tables of the public schema, which all workspaces share. *)
  t_public : public_tables;
  (** The tables of the channel spine. *)
  t_spine : spine_tables }.

Definition no_tables : tables :=
  mkTables [] [] [] [] [] [] [] [] [] [] [] [] [] [] [] [] [] [] [] no_public no_spine.

(** ** State, oracles and computations *)

(** What a run reads from outside: successive values of the application's clock
    ([toDbDate()]), the start time of each database transaction (PostgreSQL's
    [now()], which column defaults use) and of each statement, the generated
    UUIDs and the bytes of each draw of the secure generator. *)
Class Oracle := {
  app_clock : nat → Z;
  trx_clock : nat → Z;
  stmt_clock : nat → Z;
  gen_uuid : nat → string;
  gen_byte : nat → nat → Z }.

Record db := mkDb {
  tb : tables;
  clock_reads : nat; trxs_begun : nat; uuids_drawn : nat;
  trx_now : Z }.

Inductive result (A : Type) := Ok (a : A) | Throw (e : err).
Arguments Ok {A} a.
Arguments Throw {A} e.

Definition M (A : Type) : Type := db → result A * db.

#[export] Instance M_ret : MRet M := λ A a s, (Ok a, s).
#[export] Instance M_bind : MBind M := λ A B k m s,
  match m s with
  | (Ok a, s') => k a s'
  | (Throw e, s') => (Throw e, s')
  end.

Definition throw {A} (e : err) : M A := λ s, (Throw e, s).

(** [try { m } catch (e) { h(e) }]: effects of [m] before the throw stay. *)
Definition catch {A} (m : M A) (h : err → M A) : M A := λ s,
  match m s with
  | (Ok a, s') => (Ok a, s')
  | (Throw e, s') => h e s'
  end.

(** [for (const x of l) await f(x)] and [Promise.all(l.map(f))]: effects in order. *)
Fixpoint mapM {A B} (f : A → M B) (l : list A) : M (list B) :=
  match l with
  | [] => mret []
  | x :: l => b ← f x; bs ← mapM f l; mret (b :: bs)
  end.

Definition when (b : bool) (m : M unit) : M unit := if b then m else mret tt.

Definition with_tb (t : tables) (s : db) : db :=
  mkDb t (clock_reads s) (trxs_begun s) (uuids_drawn s) (trx_now s).

Section effects.
Context `{Oracle}.

Definition toDbDate : M Z := λ s,
  (Ok (app_clock (clock_reads s)),
   mkDb (tb s) (S (clock_reads s)) (trxs_begun s) (uuids_drawn s) (trx_now s)).

(** PostgreSQL's [statement_timestamp()], in microseconds. *)
Definition statement_timestamp : M Z := λ s,
  (Ok (stmt_clock (clock_reads s)),
   mkDb (tb s) (S (clock_reads s)) (trxs_begun s) (uuids_drawn s) (trx_now s)).

Definition randomUUID : M string := λ s,
  (Ok (gen_uuid (uuids_drawn s)),
   mkDb (tb s) (clock_reads s) (trxs_begun s) (S (uuids_drawn s)) (trx_now s)).

(** [crypto.randomBytes(n)]: draws share a counter with the UUIDs. *)
Definition randomBytes (n : nat) : M (list Z) := λ s,
  (Ok ((λ i, gen_byte (uuids_drawn s) i mod 256)%Z <$> seq 0 n),
   mkDb (tb s) (clock_reads s) (trxs_begun s) (S (uuids_drawn s)) (trx_now s)).

(** PostgreSQL's [now()]: the start time of the current transaction. *)
Definition db_now : M Z := λ s, (Ok (trx_now s), s).

Definition begin_trx (s : db) : db :=
  mkDb (tb s) (clock_reads s) (S (trxs_begun s)) (uuids_drawn s)
       (trx_clock (trxs_begun s)).

(** Commit on return, roll the tables back on a throw. *)
Definition transaction {A} (m : M A) : M A := λ s,
  match m (begin_trx s) with
  | (Ok a, s') => (Ok a, s')
  | (Throw e, s') => (Throw e, with_tb (tb s) s')
  end.
End effects.

(** ** Tables and statements *)

Record table (R : Type) := mkTable {
  rows : tables → list R;
  set_rows : list R → tables → tables;
  constraint : list R → option err }.
Arguments mkTable {R}.
Arguments rows {R} t.
Arguments set_rows {R} t.
Arguments constraint {R} t.

(** What a statement needs of its table: reading back what was written. *)
Class TableLaws {R} (T : table R) : Prop := {
  rows_set_rows : ∀ l t, rows T (set_rows T l t) = l;
  set_rows_rows : ∀ t, set_rows T (rows T t) t = t;
  set_rows_set_rows : ∀ l l' t, set_rows T l (set_rows T l' t) = set_rows T l t }.

Definition select {R} (T : table R) (p : R → bool) : M (list R) := λ s,
  (Ok (keep p (rows T (tb s))), s).

Definition select_first {R} (T : table R) (p : R → bool) : M (option R) := λ s,
  (Ok (first p (rows T (tb s))), s).

(** Write a table, unless a constraint refuses the new rows. *)
Definition put {R} (T : table R) (l : list R) : M unit := λ s,
  match constraint T l with
  | Some e => (Throw e, s)
  | None => (Ok tt, with_tb (set_rows T l (tb s)) s)
  end.

(** [UPDATE ... SET f WHERE p RETURNING *] *)
Definition update_returning {R} (T : table R) (p : R → bool) (f : R → R) : M (list R) := λ s,
  (_ ← put T (update_where p f (rows T (tb s)));
   mret (f <$> keep p (rows T (tb s)))) s.

(** [UPDATE ... SET f WHERE p], returning the number of updated rows. *)
Definition update {R} (T : table R) (p : R → bool) (f : R → R) : M nat :=
  l ← update_returning T p f; mret (length l).

(** [DELETE FROM ... WHERE p], returning the number of deleted rows.  Foreign keys that
    would refuse or cascade are not modelled. *)
Definition delete_where {R} (T : table R) (p : R → bool) : M nat := λ s,
  (Ok (length (keep p (rows T (tb s)))),
   with_tb (set_rows T (keep (negb ∘ p) (rows T (tb s))) (tb s)) s).

Definition insert_row {R} (T : table R) (r : R) : M unit := λ s,
  put T (rows T (tb s) ++ [r]) s.

(** [INSERT INTO ... VALUES] of several rows. *)
Definition insert_rows {R} (T : table R) (l : list R) : M unit := λ s,
  put T (rows T (tb s) ++ l) s.

(** [INSERT ... ON CONFLICT (arbiter) DO NOTHING RETURNING *] *)
Definition insert_on_conflict_nothing {R} (T : table R) (arbiter : R → bool) (r : R)
    : M (option R) := λ s,
  if holds_any arbiter (rows T (tb s)) then (Ok None, s)
  else (_ ← insert_row T r; mret (Some r)) s.

(** [INSERT ... ON CONFLICT (arbiter) DO UPDATE SET f] *)
Definition insert_on_conflict_update {R} (T : table R) (arbiter : R → bool) (f : R → R) (r : R)
    : M unit := λ s,
  if holds_any arbiter (rows T (tb s))
  then (_ ← update T arbiter f; mret tt) s
  else insert_row T r s.

(** A partial unique index: rows without a key are not indexed. *)
Definition unique_on {R K} `{EqDecision K} (key : R → option K) (l : list R) : bool :=
  bool_decide (NoDup (omap key l)).

(** The first failing check of a table decides the error. *)
Fixpoint checks (cs : list (bool * err)) : option err :=
  match cs with
  | [] => None
  | (b, e) :: cs' => if b then checks cs' else Some e
  end.

Definition active (s : case_status) : bool := bool_decide (s ∈ [open; pending]).

(** [length(trim(text)) > 0]: PostgreSQL's [trim] strips spaces. *)
Definition filled_text (text : jsstring) : bool := negb (forallb (λ c, (c =? 32)%Z) text).

(** conversation_cases: the partial unique indexes cc_active_uidx and
    cc_conversation_uidx and the CHECK constraints of migration 061.  The ranges of
    the target minutes are not checked here: a case copies them from a policy, whose
    columns have the same ranges. *)
Definition case_contact_key (r : case_row) : option string :=
  if active r.(cc_status) then r.(cc_contact_id) else None.
Definition case_conversation_key (r : case_row) : option string :=
  if active r.(cc_status) then r.(cc_conversation_id) else None.

Definition resolution_fields_check (r : case_row) : bool :=
  Bool.eqb (bool_decide (r.(cc_status) = resolved))
    (bool_decide (is_Some r.(cc_resolved_at)) && bool_decide (is_Some r.(cc_resolved_by))
     && bool_decide (is_Some r.(cc_resolution_outcome))).
Definition other_requires_notes_check (r : case_row) : bool :=
  negb (bool_decide (r.(cc_resolution_outcome) = Some other))
  || match r.(cc_resolution_notes) with
     | Some notes => filled_text notes
     | None => false
     end.
Definition resolved_after_opened_check (r : case_row) : bool :=
  match r.(cc_resolved_at) with Some z => (r.(cc_opened_at) <=? z)%Z | None => true end.
Definition open_source_actor_check (r : case_row) : bool :=
  Bool.eqb (bool_decide (r.(cc_open_source) = manual))
           (bool_decide (is_Some r.(cc_opened_by))).

(** Migration 098: a workflow row names a contact or a conversation. *)
Definition identity_check (contact conversation : option string) : bool :=
  bool_decide (is_Some contact) || bool_decide (is_Some conversation).

Definition case_constraint (l : list case_row) : option err :=
  checks [(unique_on (Some ∘ cc_id) l, UniqueViolation "conversation_cases_pkey");
          (forallb (λ r, identity_check r.(cc_contact_id) r.(cc_conversation_id)) l,
             CheckViolation "conversation_cases_contact_or_conversation_check");
          (unique_on case_contact_key l, UniqueViolation "cc_active_uidx");
          (unique_on case_conversation_key l, UniqueViolation "cc_conversation_uidx");
          (forallb resolution_fields_check l,
             CheckViolation "conversation_cases_resolution_fields_check");
          (forallb other_requires_notes_check l,
             CheckViolation "conversation_cases_other_requires_notes_check");
          (forallb resolved_after_opened_check l,
             CheckViolation "conversation_cases_resolved_after_opened_check");
          (forallb open_source_actor_check l,
             CheckViolation "conversation_cases_open_source_actor_check")].

Definition assignment_contact_key (r : assignment_row) : option string :=
  match r.(ca_unassigned_at) with None => r.(ca_contact_id) | Some _ => None end.
Definition assignment_conversation_key (r : assignment_row) : option string :=
  match r.(ca_unassigned_at) with None => r.(ca_conversation_id) | Some _ => None end.

Definition cases : table case_row :=
  mkTable t_cases (λ l t, mkTables (t_contacts t) (t_conversations t) l (t_states t) (t_assignments t)
    (t_messages t) (t_scheduled t) (t_jobs t) (t_connections t) (t_budgets t)
    (t_policies t) (t_contact_tags t) (t_auto_reply t) (t_commands t) (t_sessions t)
    (t_quick_replies t) (t_intents t) (t_cleanup_items t) (t_deleted_media t) (t_public t) (t_spine t))
    case_constraint.

Definition states : table state_row :=
  mkTable t_states (λ l t, mkTables (t_contacts t) (t_conversations t) (t_cases t) l (t_assignments t)
    (t_messages t) (t_scheduled t) (t_jobs t) (t_connections t) (t_budgets t)
    (t_policies t) (t_contact_tags t) (t_auto_reply t) (t_commands t) (t_sessions t)
    (t_quick_replies t) (t_intents t) (t_cleanup_items t) (t_deleted_media t) (t_public t) (t_spine t))
    (λ l, checks [(forallb (λ r, identity_check r.(cs_contact_id) r.(cs_conversation_id)) l,
                     CheckViolation "conversation_states_contact_or_conversation_check");
                  (unique_on cs_contact_id l, UniqueViolation "conversation_states_contact_id_key");
                  (unique_on cs_conversation_id l, UniqueViolation "cs_conversation_uidx")]).

Definition assignments : table assignment_row :=
  mkTable t_assignments (λ l t, mkTables (t_contacts t) (t_conversations t) (t_cases t) (t_states t) l
    (t_messages t) (t_scheduled t) (t_jobs t) (t_connections t) (t_budgets t)
    (t_policies t) (t_contact_tags t) (t_auto_reply t) (t_commands t) (t_sessions t)
    (t_quick_replies t) (t_intents t) (t_cleanup_items t) (t_deleted_media t) (t_public t) (t_spine t))
    (λ l, checks [(unique_on assignment_contact_key l, UniqueViolation "ca_active_uidx");
                  (unique_on assignment_conversation_key l, UniqueViolation "ca_conversation_uidx")]).

Definition messages : table message_row :=
  mkTable t_messages (λ l t, mkTables (t_contacts t) (t_conversations t) (t_cases t) (t_states t)
    (t_assignments t) l (t_scheduled t) (t_jobs t) (t_connections t) (t_budgets t)
    (t_policies t) (t_contact_tags t) (t_auto_reply t) (t_commands t) (t_sessions t)
    (t_quick_replies t) (t_intents t) (t_cleanup_items t) (t_deleted_media t) (t_public t) (t_spine t))
    (λ _, None).

(** The first-contact reply of a contact is unique (migration 085). *)
Definition auto_reply_key (r : scheduled_row) : option string :=
  match r.(sm_auto_reply_trigger_message_id) with Some _ => r.(sm_contact_id) | None => None end.

Definition scheduled_constraint (l : list scheduled_row) : option err :=
  checks [(unique_on (Some ∘ sm_id) l, UniqueViolation "scheduled_messages_pkey");
          (forallb (λ r, identity_check r.(sm_contact_id) r.(sm_conversation_id)) l,
             CheckViolation "scheduled_messages_contact_or_conversation_check");
          (unique_on auto_reply_key l, UniqueViolation "sm_auto_reply_uidx")].

Definition scheduled_messages : table scheduled_row :=
  mkTable t_scheduled (λ l t, mkTables (t_contacts t) (t_conversations t) (t_cases t) (t_states t)
    (t_assignments t) (t_messages t) l (t_jobs t) (t_connections t) (t_budgets t)
    (t_policies t) (t_contact_tags t) (t_auto_reply t) (t_commands t) (t_sessions t)
    (t_quick_replies t) (t_intents t) (t_cleanup_items t) (t_deleted_media t) (t_public t) (t_spine t))
    scheduled_constraint.

Definition bulk_jobs : table job_row :=
  mkTable t_jobs (λ l t, mkTables (t_contacts t) (t_conversations t) (t_cases t) (t_states t)
    (t_assignments t) (t_messages t) (t_scheduled t) l (t_connections t) (t_budgets t)
    (t_policies t) (t_contact_tags t) (t_auto_reply t) (t_commands t) (t_sessions t)
    (t_quick_replies t) (t_intents t) (t_cleanup_items t) (t_deleted_media t) (t_public t) (t_spine t))
    (λ l, checks [(unique_on (Some ∘ bj_id) l, UniqueViolation "bulk_jobs_pkey");
                  (unique_on bj_idempotency_key l, UniqueViolation "bulk_jobs_idempotency_uidx")]).

Definition bulk_connection_budgets : table budget_row :=
  mkTable t_budgets (λ l t, mkTables (t_contacts t) (t_conversations t) (t_cases t) (t_states t)
    (t_assignments t) (t_messages t) (t_scheduled t) (t_jobs t) (t_connections t) l
    (t_policies t) (t_contact_tags t) (t_auto_reply t) (t_commands t) (t_sessions t)
    (t_quick_replies t) (t_intents t) (t_cleanup_items t) (t_deleted_media t) (t_public t) (t_spine t))
    (λ l, checks [(unique_on (Some ∘ bb_whatsapp_connection_id) l,
                     UniqueViolation "bulk_connection_budgets_pkey")]).

Definition command_outbox : table command_row :=
  mkTable t_commands (λ l t, mkTables (t_contacts t) (t_conversations t) (t_cases t) (t_states t)
    (t_assignments t) (t_messages t) (t_scheduled t) (t_jobs t) (t_connections t)
    (t_budgets t) (t_policies t) (t_contact_tags t) (t_auto_reply t) l (t_sessions t)
    (t_quick_replies t) (t_intents t) (t_cleanup_items t) (t_deleted_media t) (t_public t) (t_spine t))
    (λ l, checks [(unique_on (Some ∘ cm_id) l, UniqueViolation "nats_outbox_pkey")]).

Definition sla_policies : table policy_row :=
  mkTable t_policies (λ l t, mkTables (t_contacts t) (t_conversations t) (t_cases t) (t_states t)
    (t_assignments t) (t_messages t) (t_scheduled t) (t_jobs t) (t_connections t)
    (t_budgets t) l (t_contact_tags t) (t_auto_reply t) (t_commands t) (t_sessions t)
    (t_quick_replies t) (t_intents t) (t_cleanup_items t) (t_deleted_media t) (t_public t) (t_spine t))
    (λ _, None).

Definition contacts : table contact_row :=
  mkTable t_contacts (λ l t, mkTables l (t_conversations t) (t_cases t) (t_states t) (t_assignments t)
    (t_messages t) (t_scheduled t) (t_jobs t) (t_connections t) (t_budgets t)
    (t_policies t) (t_contact_tags t) (t_auto_reply t) (t_commands t) (t_sessions t)
    (t_quick_replies t) (t_intents t) (t_cleanup_items t) (t_deleted_media t) (t_public t) (t_spine t))
    (λ _, None).

(** The constraints of conversations (channel-spine-schema.ts). *)
Definition thread_key (r : conversation_row) : option (string * string) :=
  Some (r.(cv_channel_account_id), r.(cv_thread).(th_client_thread_key)).
Definition external_thread_key (r : conversation_row) : option (string * string) :=
  (λ thread, (r.(cv_channel_account_id), thread)) <$> r.(cv_thread).(th_external_thread_id).
Definition conversation_check (r : conversation_row) : bool :=
  filled_text (js r.(cv_thread).(th_client_thread_key))
  && match r.(cv_thread).(th_provider_metadata) with JObject _ => true | _ => false end.
Definition conversations : table conversation_row :=
  mkTable t_conversations (λ l t, mkTables (t_contacts t) l (t_cases t) (t_states t) (t_assignments t)
    (t_messages t) (t_scheduled t) (t_jobs t) (t_connections t) (t_budgets t)
    (t_policies t) (t_contact_tags t) (t_auto_reply t) (t_commands t) (t_sessions t)
    (t_quick_replies t) (t_intents t) (t_cleanup_items t) (t_deleted_media t) (t_public t) (t_spine t))
    (λ l, checks [(unique_on (Some ∘ cv_id) l, UniqueViolation "conversations_pkey");
                  (forallb conversation_check l, CheckViolation "conversations_check");
                  (unique_on thread_key l,
                     UniqueViolation "conversations_channel_account_id_client_thread_key_key");
                  (unique_on cv_legacy_contact_id l, UniqueViolation "conversations_legacy_contact_id_key");
                  (unique_on external_thread_key l, UniqueViolation "conv_external_uidx")]).
Definition whatsapp_connections : table connection_row :=
  mkTable t_connections (λ l t, mkTables (t_contacts t) (t_conversations t) (t_cases t) (t_states t)
    (t_assignments t) (t_messages t) (t_scheduled t) (t_jobs t) l (t_budgets t)
    (t_policies t) (t_contact_tags t) (t_auto_reply t) (t_commands t) (t_sessions t)
    (t_quick_replies t) (t_intents t) (t_cleanup_items t) (t_deleted_media t) (t_public t) (t_spine t))
    (λ _, None).

Definition contact_tags : table contact_tag_row :=
  mkTable t_contact_tags (λ l t, mkTables (t_contacts t) (t_conversations t) (t_cases t) (t_states t)
    (t_assignments t) (t_messages t) (t_scheduled t) (t_jobs t) (t_connections t)
    (t_budgets t) (t_policies t) l (t_auto_reply t) (t_commands t) (t_sessions t)
    (t_quick_replies t) (t_intents t) (t_cleanup_items t) (t_deleted_media t) (t_public t) (t_spine t))
    (λ _, None).
Definition auto_reply_settings : table auto_reply_row :=
  mkTable t_auto_reply (λ l t, mkTables (t_contacts t) (t_conversations t) (t_cases t) (t_states t)
    (t_assignments t) (t_messages t) (t_scheduled t) (t_jobs t) (t_connections t)
    (t_budgets t) (t_policies t) (t_contact_tags t) l (t_commands t) (t_sessions t)
    (t_quick_replies t) (t_intents t) (t_cleanup_items t) (t_deleted_media t) (t_public t) (t_spine t))
    (λ l, checks [(forallb (λ r, negb r.(ar_enabled) || bool_decide (is_Some r.(ar_quick_reply_id))) l,
                     CheckViolation "auto_reply_settings_check")]).
Definition whatsapp_connection_sessions : table session_row :=
  mkTable t_sessions (λ l t, mkTables (t_contacts t) (t_conversations t) (t_cases t) (t_states t)
    (t_assignments t) (t_messages t) (t_scheduled t) (t_jobs t) (t_connections t)
    (t_budgets t) (t_policies t) (t_contact_tags t) (t_auto_reply t) (t_commands t) l
    (t_quick_replies t) (t_intents t) (t_cleanup_items t) (t_deleted_media t) (t_public t) (t_spine t))
    (λ _, None).
Definition quick_replies : table quick_reply_row :=
  mkTable t_quick_replies (λ l t, mkTables (t_contacts t) (t_conversations t) (t_cases t) (t_states t)
    (t_assignments t) (t_messages t) (t_scheduled t) (t_jobs t) (t_connections t)
    (t_budgets t) (t_policies t) (t_contact_tags t) (t_auto_reply t) (t_commands t)
    (t_sessions t) l (t_intents t) (t_cleanup_items t) (t_deleted_media t) (t_public t) (t_spine t))
    (λ _, None).
(** The primary key, UNIQUE (channel_account_id, operation, idempotency_key), and one send
    intent per message.  The unique index on messages' client_idempotency_key is implied
    by the second: a message with a key is inserted with its intent. *)
Definition intent_key (r : intent_row) : option (string * string * string) :=
  Some (r.(it_channel_account_id), r.(it_operation), r.(it_idempotency_key)).
Definition is_action (operation : string) : bool := String.prefix "action:" operation.
Definition send_message_key (r : intent_row) : option string :=
  if is_action r.(it_operation) then None else r.(it_message_id).
Definition outbound_message_intents : table intent_row :=
  mkTable t_intents (λ l t, mkTables (t_contacts t) (t_conversations t) (t_cases t) (t_states t)
    (t_assignments t) (t_messages t) (t_scheduled t) (t_jobs t) (t_connections t)
    (t_budgets t) (t_policies t) (t_contact_tags t) (t_auto_reply t) (t_commands t)
    (t_sessions t) (t_quick_replies t) l (t_cleanup_items t) (t_deleted_media t) (t_public t) (t_spine t))
    (λ l, checks [(unique_on (Some ∘ it_id) l, UniqueViolation "outbound_message_intents_pkey");
                  (unique_on intent_key l, UniqueViolation "outbound_message_intents_key");
                  (unique_on send_message_key l, UniqueViolation "outbound_intents_send_message_uidx")]).
Definition purge_cleanup_items : table cleanup_item_row :=
  mkTable t_cleanup_items (λ l t, mkTables (t_contacts t) (t_conversations t) (t_cases t) (t_states t)
    (t_assignments t) (t_messages t) (t_scheduled t) (t_jobs t) (t_connections t)
    (t_budgets t) (t_policies t) (t_contact_tags t) (t_auto_reply t) (t_commands t)
    (t_sessions t) (t_quick_replies t) (t_intents t) l (t_deleted_media t) (t_public t) (t_spine t))
    (λ _, None).
Definition deleted_media : table string :=
  mkTable t_deleted_media (λ l t, mkTables (t_contacts t) (t_conversations t) (t_cases t) (t_states t)
    (t_assignments t) (t_messages t) (t_scheduled t) (t_jobs t) (t_connections t)
    (t_budgets t) (t_policies t) (t_contact_tags t) (t_auto_reply t) (t_commands t)
    (t_sessions t) (t_quick_replies t) (t_intents t) (t_cleanup_items t) l (t_public t) (t_spine t))
    (λ _, None).

#[export] Instance cases_laws : TableLaws cases.
Proof. by split; intros; [|destruct t|]. Qed.
#[export] Instance states_laws : TableLaws states.
Proof. by split; intros; [|destruct t|]. Qed.
#[export] Instance assignments_laws : TableLaws assignments.
Proof. by split; intros; [|destruct t|]. Qed.
#[export] Instance messages_laws : TableLaws messages.
Proof. by split; intros; [|destruct t|]. Qed.
#[export] Instance scheduled_laws : TableLaws scheduled_messages.
Proof. by split; intros; [|destruct t|]. Qed.
#[export] Instance jobs_laws : TableLaws bulk_jobs.
Proof. by split; intros; [|destruct t|]. Qed.
#[export] Instance budgets_laws : TableLaws bulk_connection_budgets.
Proof. by split; intros; [|destruct t|]. Qed.
#[export] Instance commands_laws : TableLaws command_outbox.
Proof. by split; intros; [|destruct t|]. Qed.

#[export] Instance auto_reply_laws : TableLaws auto_reply_settings.
Proof. by split; intros; [|destruct t|]. Qed.
#[export] Instance quick_replies_laws : TableLaws quick_replies.
Proof. by split; intros; [|destruct t|]. Qed.
#[export] Instance intents_laws : TableLaws outbound_message_intents.
Proof. by split; intros; [|destruct t|]. Qed.
#[export] Instance deleted_media_laws : TableLaws deleted_media.
Proof. by split; intros; [|destruct t|]. Qed.

(** ** Constraints *)

Lemma checks_None cs : checks cs = None ↔ ∀ b e, (b, e) ∈ cs → b = true.
Proof.
  induction cs as [|[b e] cs IH]; [split; [intros _ b e []%not_elem_of_nil|done]|].
  cbn. destruct b; rewrite ?IH; split.
  - intros Hc b' e' [[= -> ->]|Hin]%elem_of_cons; [done|by apply (Hc b' e')].
  - intros Hc b' e' Hin. apply (Hc b' e'). by right.
  - done.
  - intros Hc. by discriminate (Hc false e ltac:(left)).
Qed.

Lemma unique_on_eq {R K} `{EqDecision K} (key : R → option K) l a b x :
  unique_on key l = true → a ∈ l → b ∈ l → key a = Some x → key b = Some x → a = b.
Proof.
  unfold unique_on. rewrite bool_decide_eq_true. induction l as [|c l IH]; [by intros _ []%not_elem_of_nil|].
  intros Hnd Ha Hb Hka Hkb.
  assert (Hin : ∀ y, y ∈ l → key y = Some x → x ∈ omap key l).
  { intros y Hy Hk. apply list_elem_of_omap. eauto. }
  cbn in Hnd. apply elem_of_cons in Ha, Hb.
  destruct Ha as [->|Ha], Hb as [->|Hb]; [done| | |].
  - rewrite Hka in Hnd. apply NoDup_cons in Hnd as [Hni _]. destruct Hni. eauto.
  - rewrite Hkb in Hnd. apply NoDup_cons in Hnd as [Hni _]. destruct Hni. eauto.
  - apply IH; try done. destruct (key c); [by apply NoDup_cons in Hnd as [_ ?]|done].
Qed.

(** A part of a unique list is unique. *)
Lemma unique_on_keep {A K} `{EqDecision K} (key : A → option K) p l :
  unique_on key l = true → unique_on key (keep p l) = true.
Proof.
  unfold unique_on. rewrite !bool_decide_eq_true. intros Hl. eapply sublist_NoDup; [exact Hl|]. clear Hl.
  induction l as [|x l IH]; [done|]. rewrite keep_cons. destruct (p x); cbn; destruct (key x); first [done|by constructor].
Qed.

Section case_constraint.
Context (l : list case_row) (Hl : case_constraint l = None).

Lemma case_id_unique a b : a ∈ l → b ∈ l → a.(cc_id) = b.(cc_id) → a = b.
Proof using Hl.
  intros Ha Hb Hid. unfold case_constraint in Hl. rewrite checks_None in Hl.
  eapply (unique_on_eq (Some ∘ cc_id)); [eapply Hl; left|done|done|done|]. cbn. by rewrite Hid.
Qed.

Lemma active_contact_unique a b c :
  a ∈ l → b ∈ l → active a.(cc_status) = true → active b.(cc_status) = true →
  a.(cc_contact_id) = Some c → b.(cc_contact_id) = Some c → a = b.
Proof using Hl.
  intros Ha Hb Hsa Hsb Hca Hcb. unfold case_constraint in Hl. rewrite checks_None in Hl.
  eapply (unique_on_eq case_contact_key _ _ _ c); [eapply Hl; do 2 right; left|done|done|..];
    unfold case_contact_key; by rewrite ?Hsa, ?Hsb.
Qed.

Lemma active_conversation_unique a b v :
  a ∈ l → b ∈ l → active a.(cc_status) = true → active b.(cc_status) = true →
  a.(cc_conversation_id) = Some v → b.(cc_conversation_id) = Some v → a = b.
Proof using Hl.
  intros Ha Hb Hsa Hsb Hca Hcb. unfold case_constraint in Hl. rewrite checks_None in Hl.
  eapply (unique_on_eq case_conversation_key _ _ _ v);
    [eapply Hl; do 3 right; left|done|done|..];
    unfold case_conversation_key; by rewrite ?Hsa, ?Hsb.
Qed.
End case_constraint.

Section unique_on.
Context {R K : Type} `{EqDecision K} (key : R → option K).
Implicit Types l : list R.

Lemma unique_on_app l r :
  unique_on key l = true →
  (∀ r', r' ∈ l → is_Some (key r') → key r' ≠ key r) →
  unique_on key (l ++ [r]) = true.
Proof.
  unfold unique_on. rewrite !bool_decide_eq_true. intros Hl Hr.
  rewrite omap_app. cbn. destruct (key r) as [x|] eqn:E; [|by rewrite app_nil_r].
  apply NoDup_app. split_and!; [done| |apply NoDup_singleton].
  intros y Hy ->%list_elem_of_singleton. apply list_elem_of_omap in Hy as (r' & Hr' & Hx).
  apply (Hr r' Hr'); [|done]. rewrite Hx. eauto.
Qed.

(** An update that keeps the keys of the rows it changes, or drops them. *)
Lemma unique_on_update p f l :
  unique_on key l = true →
  (∀ r, r ∈ l → p r = true → key (f r) = key r ∨ key (f r) = None) →
  unique_on key (update_where p f l) = true.
Proof.
  unfold unique_on. rewrite !bool_decide_eq_true. intros Hl Hf.
  eapply sublist_NoDup; [exact Hl|]. clear Hl.
  induction l as [|r l IH]; [constructor|].
  change (sublist (omap key ((if p r then f r else r) :: update_where p f l)) (omap key (r :: l))).
  assert (IH' : sublist (omap key (update_where p f l)) (omap key l)).
  { apply IH. intros r' Hr'. apply Hf. by right. }
  cbn. destruct (p r) eqn:E.
  - destruct (Hf r) as [-> | ->]; [left|done| |].
    + destruct (key r); [by constructor|done].
    + destruct (key r); [by constructor|done].
  - destruct (key r); [by constructor|done].
Qed.
End unique_on.

Lemma forallb_update {R} (c p : R → bool) f l :
  forallb c l = true → (∀ r, r ∈ l → c r = true → p r = true → c (f r) = true) →
  forallb c (update_where p f l) = true.
Proof.
  rewrite !forallb_forall. intros Hl Hf r Hr. apply list_elem_of_In in Hr.
  apply elem_of_update_where in Hr as (y & Hy & ->).
  assert (Hcy : c y = true) by (apply Hl; by apply list_elem_of_In).
  destruct (p y) eqn:E; auto.
Qed.

Lemma forallb_snoc {R} (c : R → bool) l r :
  forallb c l = true → c r = true → forallb c (l ++ [r]) = true.
Proof. intros Hl Hr. rewrite forallb_app, Hl. cbn. by rewrite Hr. Qed.

Lemma checks_cons b e cs : checks ((b, e) :: cs) = None ↔ b = true ∧ checks cs = None.
Proof. cbn. destruct b; split; [done|by intros [? ?]|done|by intros [? ?]]. Qed.

Lemma checks_cons_Some b e cs e' :
  checks ((b, e) :: cs) = Some e' ↔ (b = false ∧ e' = e) ∨ (b = true ∧ checks cs = Some e').
Proof.
  cbn. destruct b; split; [auto|by intros [[??]|[??]]|by intros [= ->]; auto|].
  by intros [[_ ->]|[??]].
Qed.
