(* ===== verification/PublicDb.v ===== *)
(** The tables of the public schema: their unique indexes and checks.

    The constraints are those of packages/database/src/migrations 001, 032, 081 and
    082.  A migration's foreign keys and NOT NULLs are in the row types or not
    modelled. *)

From S2P Require Import Prelude Js Permissions PublicRows TenantDb.

Definition with_public (p : public_tables) (t : tables) : tables :=
  mkTables (t_contacts t) (t_conversations t) (t_cases t) (t_states t) (t_assignments t)
    (t_messages t) (t_scheduled t) (t_jobs t) (t_connections t) (t_budgets t) (t_policies t)
    (t_contact_tags t) (t_auto_reply t) (t_commands t) (t_sessions t) (t_quick_replies t)
    (t_intents t) (t_cleanup_items t) (t_deleted_media t) p (t_spine t).

Definition public_table {R} (get : public_tables → list R)
    (set : list R → public_tables → public_tables) (cs : list R → list (bool * err)) : table R :=
  mkTable (λ t, get (t_public t)) (λ l t, with_public (set l (t_public t)) t) (λ l, checks (cs l)).

Lemma public_laws {R} get set cs :
  (∀ l p, get (set l p) = l) → (∀ p, set (get p) p = p) →
  (∀ l l' p, set l (set l' p) = set l p) → TableLaws (R := R) (public_table get set cs).
Proof. intros H1 H2 H3. split; intros; cbn; rewrite ?H1, ?H2, ?H3; [done|by destruct t|done]. Qed.

Definition users : table user_row :=
  public_table p_users
    (λ l p, mkPublic l (p_companies p) (p_stats p) (p_members p) (p_invitations p)
       (p_user_sessions p) (p_auth_tokens p) (p_api_tokens p) (p_grants p) (p_codes p) (p_clients p) (p_invalidated p))
    (λ l, [(unique_on (Some ∘ us_id) l, UniqueViolation "users_pkey");
           (unique_on (Some ∘ us_email) l, UniqueViolation "users_email_key")]).

Definition companies : table company_row :=
  public_table p_companies
    (λ l p, mkPublic (p_users p) l (p_stats p) (p_members p) (p_invitations p)
       (p_user_sessions p) (p_auth_tokens p) (p_api_tokens p) (p_grants p) (p_codes p) (p_clients p) (p_invalidated p))
    (λ l, [(unique_on (Some ∘ co_id) l, UniqueViolation "companies_pkey");
           (unique_on (Some ∘ co_schema_name) l, UniqueViolation "companies_schema_name_key")]).

Definition company_stats : table stats_row :=
  public_table p_stats
    (λ l p, mkPublic (p_users p) (p_companies p) l (p_members p) (p_invitations p)
       (p_user_sessions p) (p_auth_tokens p) (p_api_tokens p) (p_grants p) (p_codes p) (p_clients p) (p_invalidated p))
    (λ l, [(unique_on (Some ∘ st_company_id) l, UniqueViolation "company_stats_pkey")]).

Definition member_key (m : member_row) : option (string * string) :=
  Some (m.(mb_user_id), m.(mb_company_id)).
Definition company_members : table member_row :=
  public_table p_members
    (λ l p, mkPublic (p_users p) (p_companies p) (p_stats p) l (p_invitations p)
       (p_user_sessions p) (p_auth_tokens p) (p_api_tokens p) (p_grants p) (p_codes p) (p_clients p) (p_invalidated p))
    (λ l, [(unique_on (Some ∘ mb_id) l, UniqueViolation "company_members_pkey");
           (unique_on member_key l, UniqueViolation "company_members_user_company_unique")]).

Definition invitations : table invitation_row :=
  public_table p_invitations
    (λ l p, mkPublic (p_users p) (p_companies p) (p_stats p) (p_members p) l
       (p_user_sessions p) (p_auth_tokens p) (p_api_tokens p) (p_grants p) (p_codes p) (p_clients p) (p_invalidated p))
    (λ l, [(unique_on (Some ∘ iv_id) l, UniqueViolation "invitations_pkey");
           (unique_on (Some ∘ iv_token) l, UniqueViolation "invitations_token_key")]).

Definition user_sessions : table user_session_row :=
  public_table p_user_sessions
    (λ l p, mkPublic (p_users p) (p_companies p) (p_stats p) (p_members p) (p_invitations p)
       l (p_auth_tokens p) (p_api_tokens p) (p_grants p) (p_codes p) (p_clients p) (p_invalidated p))
    (λ l, [(unique_on (Some ∘ se_id) l, UniqueViolation "user_sessions_pkey");
           (unique_on (Some ∘ se_refresh_token) l, UniqueViolation "user_sessions_refresh_token_key")]).

Definition auth_tokens : table auth_token_row :=
  public_table p_auth_tokens
    (λ l p, mkPublic (p_users p) (p_companies p) (p_stats p) (p_members p) (p_invitations p)
       (p_user_sessions p) l (p_api_tokens p) (p_grants p) (p_codes p) (p_clients p) (p_invalidated p))
    (λ l, [(unique_on (Some ∘ at_id) l, UniqueViolation "auth_tokens_pkey");
           (unique_on (Some ∘ at_token_hash) l, UniqueViolation "auth_tokens_token_hash_key")]).

(** [scopes @> ARRAY['read'] AND cardinality(scopes) BETWEEN 1 AND 2]; that the elements are
    read or write is their type. *)
Definition grant_scopes_check (scopes : list ApiTokenScope) : bool :=
  bool_decide (scope_read ∈ scopes) && (length scopes <=? 2)%nat.
Definition token_scopes_check (scopes : list ApiTokenScope) : bool :=
  grant_scopes_check scopes
  && ((length scopes =? 1)%nat || bool_decide (scope_write ∈ scopes)).

Definition api_tokens : table api_token_row :=
  public_table p_api_tokens
    (λ l p, mkPublic (p_users p) (p_companies p) (p_stats p) (p_members p) (p_invitations p)
       (p_user_sessions p) (p_auth_tokens p) l (p_grants p) (p_codes p) (p_clients p) (p_invalidated p))
    (λ l, [(unique_on (Some ∘ tk_id) l, UniqueViolation "api_tokens_pkey");
           (unique_on (Some ∘ tk_token_hash) l, UniqueViolation "api_tokens_token_hash_key");
           (unique_on tk_refresh_token_hash l, UniqueViolation "api_tokens_refresh_hash_idx");
           (forallb (token_scopes_check ∘ tk_scopes) l, CheckViolation "api_tokens_scopes_check")]).

Definition oauth_grants : table grant_row :=
  public_table p_grants
    (λ l p, mkPublic (p_users p) (p_companies p) (p_stats p) (p_members p) (p_invitations p)
       (p_user_sessions p) (p_auth_tokens p) (p_api_tokens p) l (p_codes p) (p_clients p) (p_invalidated p))
    (λ l, [(unique_on (Some ∘ gr_id) l, UniqueViolation "oauth_grants_pkey");
           (forallb (grant_scopes_check ∘ gr_scopes) l, CheckViolation "oauth_grants_scopes_check")]).

Definition oauth_authorization_codes : table code_row :=
  public_table p_codes
    (λ l p, mkPublic (p_users p) (p_companies p) (p_stats p) (p_members p) (p_invitations p)
       (p_user_sessions p) (p_auth_tokens p) (p_api_tokens p) (p_grants p) l (p_clients p) (p_invalidated p))
    (λ l, [(unique_on (Some ∘ ac_id) l, UniqueViolation "oauth_authorization_codes_pkey");
           (unique_on (Some ∘ ac_code_hash) l,
              UniqueViolation "oauth_authorization_codes_code_hash_key")]).

Definition oauth_clients : table client_row :=
  public_table p_clients
    (λ l p, mkPublic (p_users p) (p_companies p) (p_stats p) (p_members p) (p_invitations p)
       (p_user_sessions p) (p_auth_tokens p) (p_api_tokens p) (p_grants p) (p_codes p) l (p_invalidated p))
    (λ l, [(unique_on (Some ∘ cl_client_id) l, UniqueViolation "oauth_clients_client_id_key");
           (forallb (λ r, String.prefix "https://" r.(cl_client_id)) l,
              CheckViolation "oauth_clients_client_id_https_check");
           (forallb (λ r, (0 <? length r.(cl_redirect_uris))%nat) l,
              CheckViolation "oauth_clients_redirect_uris_check")]).

Definition membership_invalidations : table string :=
  public_table p_invalidated
    (λ l p, mkPublic (p_users p) (p_companies p) (p_stats p) (p_members p) (p_invitations p)
       (p_user_sessions p) (p_auth_tokens p) (p_api_tokens p) (p_grants p) (p_codes p) (p_clients p) l)
    (λ _, []).

#[export] Instance users_laws : TableLaws users.
Proof. by apply public_laws; [|intros []|]. Qed.
#[export] Instance companies_laws : TableLaws companies.
Proof. by apply public_laws; [|intros []|]. Qed.
#[export] Instance stats_laws : TableLaws company_stats.
Proof. by apply public_laws; [|intros []|]. Qed.
#[export] Instance members_laws : TableLaws company_members.
Proof. by apply public_laws; [|intros []|]. Qed.
#[export] Instance invitations_laws : TableLaws invitations.
Proof. by apply public_laws; [|intros []|]. Qed.
#[export] Instance user_sessions_laws : TableLaws user_sessions.
Proof. by apply public_laws; [|intros []|]. Qed.
#[export] Instance auth_tokens_laws : TableLaws auth_tokens.
Proof. by apply public_laws; [|intros []|]. Qed.
#[export] Instance api_tokens_laws : TableLaws api_tokens.
Proof. by apply public_laws; [|intros []|]. Qed.
#[export] Instance grants_laws : TableLaws oauth_grants.
Proof. by apply public_laws; [|intros []|]. Qed.
#[export] Instance codes_laws : TableLaws oauth_authorization_codes.
Proof. by apply public_laws; [|intros []|]. Qed.
#[export] Instance clients_laws : TableLaws oauth_clients.
Proof. by apply public_laws; [|intros []|]. Qed.
#[export] Instance invalidations_laws : TableLaws membership_invalidations.
Proof. by apply public_laws; [|intros []|]. Qed.

(** ** Random secrets *)

(** [Buffer.toString("hex")] *)
Definition hex_digits : string := "0123456789abcdef".
Definition char_at (s : string) (i : Z) : string := String.substring (Z.to_nat i) 1 s.
Definition hex (bytes : list Z) : string :=
  foldr (λ b s, String.append (char_at hex_digits (b / 16)) (String.append (char_at hex_digits (b mod 16)) s))
    EmptyString bytes.

(** [Buffer.toString("base64url")]: six bits a character, no padding. *)
Definition base64url_alphabet : string :=
  "ABCDEFGHIJKLMNOPQRSTUVWXYZabcdefghijklmnopqrstuvwxyz0123456789-_".
Definition base64_char (n : Z) : string := char_at base64url_alphabet (n mod 64).
Fixpoint base64url (bytes : list Z) : string :=
  match bytes with
  | a :: b :: c :: rest =>
      String.append (base64_char (a / 4))
        (String.append (base64_char (a * 16 + b / 16))
          (String.append (base64_char (b * 4 + c / 64)) (String.append (base64_char c) (base64url rest))))
  | [a; b] =>
      String.append (base64_char (a / 4)) (String.append (base64_char (a * 16 + b / 16)) (base64_char (b * 4)))
  | [a] => String.append (base64_char (a / 4)) (base64_char (a * 16))
  | [] => EmptyString
  end.

(** node:crypto, bcrypt and jose: digests, password hashes and signed tokens. *)
Class Crypto := {
  sha256_hex : string → string;
  sha256_base64url : string → string;
  bcrypt_hash : string → list Z → string;  (* with a random salt *)
  bcrypt_compare : string → string → bool;
  (* SignJWT of { userId, sessionId } and of { sessionId } with a jti, with an issue time
     and an expiry *)
  sign_access : string → string → Z → Z → string;
  sign_refresh : string → string → Z → Z → string;
  (* jwtVerify at an instant: the session and the jti *)
  verify_refresh : string → Z → option (string * string);
  verify_access : string → Z → option (string * string) }.

(** ** Lemmas *)


(** Two rows of a table with a key in common are the same row. *)
Lemma api_token_unique (l : list api_token_row) a b :
  constraint api_tokens l = None → a ∈ l → b ∈ l → a.(tk_id) = b.(tk_id) → a = b.
Proof.
  intros Hc Ha Hb He. cbn -[checks unique_on] in Hc. rewrite checks_cons in Hc. destruct Hc as [Hc _].
  eapply (unique_on_eq (Some ∘ tk_id)); [exact Hc|done..|]. cbn. by rewrite He.
Qed.
Lemma grant_unique (l : list grant_row) a b :
  constraint oauth_grants l = None → a ∈ l → b ∈ l → a.(gr_id) = b.(gr_id) → a = b.
Proof.
  intros Hc Ha Hb He. cbn -[checks unique_on] in Hc. rewrite checks_cons in Hc. destruct Hc as [Hc _].
  eapply (unique_on_eq (Some ∘ gr_id)); [exact Hc|done..|]. cbn. by rewrite He.
Qed.
