(* ===== verification/SpineDb.v ===== *)
(** The tables of the channel spine: their unique indexes and checks.

    The constraints are those of packages/database/src/channel-spine-schema.ts, of its
    index runner, and of migrations 084 and 091 for the two queues of the public
    schema.  Foreign keys, and checks that the row types already ensure, are not
    repeated. *)

From S2P Require Import Prelude Js Json PublicRows SpineRows TenantDb.

Definition with_spine (p : spine_tables) (t : tables) : tables :=
  mkTables (t_contacts t) (t_conversations t) (t_cases t) (t_states t) (t_assignments t)
    (t_messages t) (t_scheduled t) (t_jobs t) (t_connections t) (t_budgets t) (t_policies t)
    (t_contact_tags t) (t_auto_reply t) (t_commands t) (t_sessions t) (t_quick_replies t)
    (t_intents t) (t_cleanup_items t) (t_deleted_media t) (t_public t) p.

Definition spine_table {R} (get : spine_tables → list R)
    (set : list R → spine_tables → spine_tables) (cs : list R → list (bool * err)) : table R :=
  mkTable (λ t, get (t_spine t)) (λ l t, with_spine (set l (t_spine t)) t) (λ l, checks (cs l)).

Lemma spine_laws {R} get set cs :
  (∀ l p, get (set l p) = l) → (∀ p, set (get p) p = p) →
  (∀ l l' p, set l (set l' p) = set l p) → TableLaws (R := R) (spine_table get set cs).
Proof. intros H1 H2 H3. split; intros; cbn; rewrite ?H1, ?H2, ?H3; [done|by destruct t|done]. Qed.

(** [jsonb_typeof(v) = 'object'] *)
Definition is_object (v : metadata) : bool := match v with JObject _ => true | _ => false end.

Definition channel_accounts : table _ :=
  spine_table s_accounts
    (λ l p, mkSpine l (s_endpoints p) (s_participants p) (s_message_participants p) (s_attachments
       p) (s_reactions p) (s_delivery_events p) (s_sync_states p) (s_inbox p) (s_search p)
       (s_fanout p))
    (λ l, [(unique_on (Some ∘ sa_id) l, UniqueViolation "channel_accounts_pkey")]).

Definition endpoint_key (r : endpoint_row) : option (string * string * string * string * jsstring) :=
  (λ account, (r.(ep_channel), r.(ep_provider), account, r.(ep_identity_scope), r.(ep_external_id)))
    <$> r.(ep_channel_account_id).
Definition contact_endpoints : table _ :=
  spine_table s_endpoints
    (λ l p, mkSpine (s_accounts p) l (s_participants p) (s_message_participants p) (s_attachments p)
       (s_reactions p) (s_delivery_events p) (s_sync_states p) (s_inbox p) (s_search p)
       (s_fanout p))
    (λ l, [(unique_on (Some ∘ ep_id) l, UniqueViolation "contact_endpoints_pkey");
           (forallb (λ r, filled_text (js r.(ep_endpoint_kind)) && filled_text r.(ep_external_id)
                          && filled_text (js r.(ep_identity_scope))) l,
              CheckViolation "contact_endpoints_check");
           (unique_on endpoint_key l, UniqueViolation "ce_scoped_uidx")]).

Definition conversation_participants : table _ :=
  spine_table s_participants
    (λ l p, mkSpine (s_accounts p) (s_endpoints p) l (s_message_participants p) (s_attachments p)
       (s_reactions p) (s_delivery_events p) (s_sync_states p) (s_inbox p) (s_search p)
       (s_fanout p))
    (λ l, [(unique_on (Some ∘ pt_id) l, UniqueViolation "conversation_participants_pkey");
           (forallb (λ r, negb (is_null r.(pt_contact_endpoint_id))
                          || negb (is_null r.(pt_workspace_user_id))
                          || bool_decide (r.(pt_participant_kind) = kind_account)) l,
              CheckViolation "conversation_participants_check");
           (forallb (is_object ∘ pt_provider_metadata) l,
              CheckViolation "conversation_participants_provider_metadata_check")]).

Definition message_participant_key (r : message_participant_row) : option (string * string * Z) :=
  Some (r.(mp_message_id), r.(mp_role), r.(mp_ordinal)).
Definition message_participants : table _ :=
  spine_table s_message_participants
    (λ l p, mkSpine (s_accounts p) (s_endpoints p) (s_participants p) l (s_attachments p)
       (s_reactions p) (s_delivery_events p) (s_sync_states p) (s_inbox p) (s_search p)
       (s_fanout p))
    (λ l, [(unique_on message_participant_key l, UniqueViolation "message_participants_pkey");
           (forallb (filled_text ∘ mp_address_snapshot) l,
              CheckViolation "message_participants_address_snapshot_check")]).

Definition attachment_key (r : attachment_row) : option (string * Z) :=
  Some (r.(ma_message_id), r.(ma_ordinal)).
Definition attachment_provider_key (r : attachment_row) : option (string * jsstring) :=
  (λ p, (r.(ma_message_id), p)) <$> r.(ma_provider_attachment_id).
Definition message_attachments : table _ :=
  spine_table s_attachments
    (λ l p, mkSpine (s_accounts p) (s_endpoints p) (s_participants p) (s_message_participants p) l
       (s_reactions p) (s_delivery_events p) (s_sync_states p) (s_inbox p) (s_search p)
       (s_fanout p))
    (λ l, [(unique_on (Some ∘ ma_id) l, UniqueViolation "message_attachments_pkey");
           (forallb (λ r, (0 <=? r.(ma_ordinal))%Z
                          && match r.(ma_byte_size) with Some n => (0 <=? n)%Z | None => true end
                          && is_object r.(ma_provider_metadata)) l,
              CheckViolation "message_attachments_check");
           (unique_on attachment_key l, UniqueViolation "message_attachments_message_id_ordinal_key");
           (unique_on attachment_provider_key l, UniqueViolation "ma_provider_uidx")]).

(** message_reactions is older than the spine: its emoji is VARCHAR(10), counted in code
    points, and a reactor has one reaction per message (migrations 029, 030 and 044). *)
Definition code_points (s : jsstring) : nat := length (keep (negb ∘ trailing_surrogate) s).
Definition reactor_key (r : reaction_row) : option (string * jsstring) :=
  Some (r.(mx_message_id), r.(mx_reactor_jid)).
Definition reaction_key (r : reaction_row) : option (string * string * jsstring) :=
  match r.(mx_channel_account_id), r.(mx_external_event_scope), r.(mx_external_reaction_id) with
  | Some a, Some s, Some i => Some (a, s, i)
  | _, _, _ => None
  end.
Definition message_reactions : table _ :=
  spine_table s_reactions
    (λ l p, mkSpine (s_accounts p) (s_endpoints p) (s_participants p) (s_message_participants p)
       (s_attachments p) l (s_delivery_events p) (s_sync_states p) (s_inbox p) (s_search p)
       (s_fanout p))
    (λ l, [(forallb (λ r, (code_points r.(mx_emoji) <=? 10)%nat) l,
              OtherError "value too long for type character varying(10)");
           (unique_on (Some ∘ mx_id) l, UniqueViolation "message_reactions_pkey");
           (unique_on reactor_key l, UniqueViolation "message_reactions_unique");
           (unique_on reaction_key l, UniqueViolation "mr_external_uidx")]).

Definition delivery_event_key (r : delivery_event_row) : option (string * string * jsstring) :=
  match r.(de_external_event_scope), r.(de_external_event_id) with
  | Some s, Some i => Some (r.(de_channel_account_id), s, i)
  | _, _ => None
  end.
Definition message_delivery_events : table _ :=
  spine_table s_delivery_events
    (λ l p, mkSpine (s_accounts p) (s_endpoints p) (s_participants p) (s_message_participants p)
       (s_attachments p) (s_reactions p) l (s_sync_states p) (s_inbox p) (s_search p) (s_fanout
       p))
    (λ l, [(unique_on (Some ∘ de_id) l, UniqueViolation "message_delivery_events_pkey");
           (forallb (is_object ∘ de_provider_metadata) l,
              CheckViolation "message_delivery_events_provider_metadata_check");
           (unique_on delivery_event_key l, UniqueViolation "mde_external_uidx")]).

Definition sync_state_key (r : sync_state_row) : option (string * string) :=
  Some (r.(ss_conversation_id), r.(ss_provider)).
Definition conversation_sync_states : table _ :=
  spine_table s_sync_states
    (λ l p, mkSpine (s_accounts p) (s_endpoints p) (s_participants p) (s_message_participants p)
       (s_attachments p) (s_reactions p) (s_delivery_events p) l (s_inbox p) (s_search p)
       (s_fanout p))
    (λ l, [(unique_on sync_state_key l, UniqueViolation "conversation_sync_states_pkey");
           (forallb (λ r, (0 <=? r.(ss_request_generation))%Z) l,
              CheckViolation "conversation_sync_states_request_generation_check")]).

Definition inbox_key (r : inbox_row) : option (string * string * jsstring) :=
  Some (r.(ib_channel_account_id), r.(ib_external_event_scope), r.(ib_external_event_id)).
Definition channel_event_inbox : table _ :=
  spine_table s_inbox
    (λ l p, mkSpine (s_accounts p) (s_endpoints p) (s_participants p) (s_message_participants p)
       (s_attachments p) (s_reactions p) (s_delivery_events p) (s_sync_states p) l (s_search p)
       (s_fanout p))
    (λ l, [(unique_on inbox_key l, UniqueViolation "channel_event_inbox_pkey");
           (forallb (λ r, (0 <=? r.(ib_attempts))%Z && is_object r.(ib_normalized_event).(ev_object)) l,
              CheckViolation "channel_event_inbox_check")]).

Definition search_key (r : search_row) : option (string * string) :=
  Some (r.(so_company_id), r.(so_message_id)).
Definition message_search_outbox : table _ :=
  spine_table s_search
    (λ l p, mkSpine (s_accounts p) (s_endpoints p) (s_participants p) (s_message_participants p)
       (s_attachments p) (s_reactions p) (s_delivery_events p) (s_sync_states p) (s_inbox p) l
       (s_fanout p))
    (λ l, [(unique_on search_key l, UniqueViolation "message_search_outbox_pkey")]).

Definition fanout_key (r : fanout_row) : option (string * string * string) :=
  Some (r.(fo_company_id), r.(fo_message_id), r.(fo_kind)).
Definition channel_message_delivery_outbox : table _ :=
  spine_table s_fanout
    (λ l p, mkSpine (s_accounts p) (s_endpoints p) (s_participants p) (s_message_participants p)
       (s_attachments p) (s_reactions p) (s_delivery_events p) (s_sync_states p) (s_inbox p)
       (s_search p) l)
    (λ l, [(unique_on fanout_key l, UniqueViolation "channel_message_delivery_outbox_pkey")]).

#[export] Instance channel_accounts_laws : TableLaws channel_accounts.
Proof. apply spine_laws; by intros []. Qed.
#[export] Instance contact_endpoints_laws : TableLaws contact_endpoints.
Proof. apply spine_laws; by intros []. Qed.
#[export] Instance conversation_participants_laws : TableLaws conversation_participants.
Proof. apply spine_laws; by intros []. Qed.
#[export] Instance message_participants_laws : TableLaws message_participants.
Proof. apply spine_laws; by intros []. Qed.
#[export] Instance message_attachments_laws : TableLaws message_attachments.
Proof. apply spine_laws; by intros []. Qed.
#[export] Instance message_reactions_laws : TableLaws message_reactions.
Proof. apply spine_laws; by intros []. Qed.
#[export] Instance message_delivery_events_laws : TableLaws message_delivery_events.
Proof. apply spine_laws; by intros []. Qed.
#[export] Instance conversation_sync_states_laws : TableLaws conversation_sync_states.
Proof. apply spine_laws; by intros []. Qed.
#[export] Instance channel_event_inbox_laws : TableLaws channel_event_inbox.
Proof. apply spine_laws; by intros []. Qed.
#[export] Instance message_search_outbox_laws : TableLaws message_search_outbox.
Proof. apply spine_laws; by intros []. Qed.
#[export] Instance channel_message_delivery_outbox_laws : TableLaws channel_message_delivery_outbox.
Proof. apply spine_laws; by intros []. Qed.
