(* ===== verification/OAuth.v ===== *)
(** Credentials of the MCP server: authorization codes, grants, tokens.

    Models services/oauth.service.ts and services/api-token.service.ts, whole.  The
    digests and the random bytes are the classes [Crypto] and [Oracle]; a secret is
    an ASCII string.  [refreshTokens] is built from the pieces between its commits
    ([lookup_refresh], [check_refresh], [rotate], [revokeGrant]), because its read
    and its checks run outside the transaction that rotates: CredentialRuns.v interleaves
    the pieces. *)

From S2P Require Import Prelude Js Permissions PublicRows TenantDb PublicDb.

Definition API_TOKEN_PREFIX : string := "wti_".
Definition TOKEN_RANDOM_LENGTH : nat := 40.
Definition DISPLAY_PREFIX_LENGTH : nat := 10.
Definition LAST_USED_UPDATE_INTERVAL_MS : Z := 60000.
Definition BASE62 : string := "0123456789ABCDEFGHIJKLMNOPQRSTUVWXYZabcdefghijklmnopqrstuvwxyz".

Definition AUTHORIZATION_CODE_TTL_MS : Z := 5 * 60 * 1000.
Definition ACCESS_TOKEN_TTL_MS : Z := 60 * 60 * 1000.
Definition REFRESH_TOKEN_TTL_MS : Z := 30 * 24 * 60 * 60 * 1000.

(** ** Scopes *)

(** [s.split(/\s+/).filter(Boolean)]: the maximal runs without white space. *)
Fixpoint words_from (word : jsstring) (s : jsstring) : list jsstring :=
  match s with
  | [] => match word with [] => [] | _ => [reverse word] end
  | c :: s' =>
      if is_space c
      then match word with [] => words_from [] s' | _ => reverse word :: words_from [] s' end
      else words_from (c :: word) s'
  end.
Definition words (s : jsstring) : list jsstring := words_from [] s.

Definition known_scope (part : jsstring) : bool :=
  bool_decide (part ∈ [js "read"; js "write"; js "offline_access"]).

Definition parseScopes (requested : option jsstring) : result (list ApiTokenScope) :=
  let parts := words (default [] requested) in
  let wantsWrite := bool_decide (js "write" ∈ parts) in
  match keep (negb ∘ known_scope) parts with
  | unknown :: _ =>
      Throw (OAuthError "invalid_scope" (String.append "Unknown scope: " (string_of_js unknown)))
  | [] => Ok (if wantsWrite then [scope_read; scope_write] else [scope_read])
  end.

Record CreateAuthorizationCodeInput := mkCodeInput {
  ci_clientId : string; ci_userId : string; ci_companyId : string;
  ci_scopes : list ApiTokenScope; ci_redirectUri : string; ci_codeChallenge : string;
  ci_resource : string }.

Record IssuedTokens := mkIssued {
  is_accessToken : string; is_refreshToken : string; is_expiresInSeconds : Z;
  is_scopes : list ApiTokenScope }.

Record ExchangeCodeInput := mkExchange {
  xc_code : string; xc_clientId : string; xc_redirectUri : string; xc_codeVerifier : string;
  xc_resource : option string; xc_clientName : jsstring }.

Record RefreshInput := mkRefreshInput {
  ri_refreshToken : string; ri_clientId : string; ri_resource : option string;
  ri_clientName : jsstring }.

(** What the query of [refreshTokens] selects. *)
Record refresh_lookup := mkLookup {
  rl_token_id : string; rl_user_id : string; rl_company_id : string;
  rl_token_revoked_at : option Z; rl_refresh_used_at : option Z; rl_refresh_expires_at : option Z;
  rl_grant_id : string; rl_client_id : string; rl_scopes : list ApiTokenScope;
  rl_resource : string; rl_grant_revoked_at : option Z }.

(** What the checks outside the transaction lead to. *)
Inductive refresh_decision :=
| Refuse (message : string)
| Burn (reason message : string)  (* revoke the grant, then throw *)
| Rotate.

Record VerifiedApiToken := mkVerified {
  vt_id : string; vt_userId : string; vt_companyId : string;
  vt_scopes : list ApiTokenScope; vt_resource : option string }.

Record CreateApiTokenInput := mkTokenInput {
  ti_userId : string; ti_companyId : string; ti_name : jsstring;
  ti_scopes : list ApiTokenScope; ti_expiresAt : option Z }.

Definition some_differs (sent : option string) (bound : string) : bool :=
  match sent with Some r => bool_decide (r ≠ bound) | None => false end.

Definition invalid_grant {A} (message : string) : M A := throw (OAuthError "invalid_grant" message).

(** Column updates. *)
Definition consume_code (now : Z) (r : code_row) : code_row :=
  mkCode r.(ac_id) r.(ac_code_hash) r.(ac_client_id) r.(ac_user_id) r.(ac_company_id) r.(ac_scopes)
    r.(ac_redirect_uri) r.(ac_code_challenge) r.(ac_resource) r.(ac_expires_at) (Some now) r.(ac_created_at).
Definition revoke_grant_row (now : Z) (reason : string) (r : grant_row) : grant_row :=
  mkGrant r.(gr_id) r.(gr_user_id) r.(gr_company_id) r.(gr_client_id) r.(gr_scopes) r.(gr_resource)
    r.(gr_created_at) r.(gr_last_used_at) (Some now) (Some reason).
Definition touch_grant (now : Z) (r : grant_row) : grant_row :=
  mkGrant r.(gr_id) r.(gr_user_id) r.(gr_company_id) r.(gr_client_id) r.(gr_scopes) r.(gr_resource)
    r.(gr_created_at) (Some now) r.(gr_revoked_at) r.(gr_revoked_reason).
Definition token_times (r : api_token_row) (last_used revoked refresh_used : option Z) : api_token_row :=
  mkApiToken r.(tk_id) r.(tk_user_id) r.(tk_company_id) r.(tk_name) r.(tk_token_hash)
    r.(tk_token_prefix) r.(tk_scopes) last_used r.(tk_expires_at) revoked r.(tk_created_at)
    r.(tk_grant_id) r.(tk_refresh_token_hash) r.(tk_refresh_expires_at) refresh_used.
Definition revoke_token_row (now : Z) (r : api_token_row) : api_token_row :=
  token_times r r.(tk_last_used_at) (Some now) r.(tk_refresh_used_at).
Definition use_token_row (now : Z) (r : api_token_row) : api_token_row :=
  token_times r (Some now) r.(tk_revoked_at) r.(tk_refresh_used_at).
Definition spend_refresh (now : Z) (r : api_token_row) : api_token_row :=
  token_times r r.(tk_last_used_at) r.(tk_revoked_at) (Some now).

Definition of_member (companyId userId company user : string) : bool :=
  bool_decide (company = companyId) && bool_decide (user = userId).

Section oauth.
Context `{Oracle} `{Crypto}.

Definition randomSecret : M string := bytes ← randomBytes 32; mret (base64url bytes).

(** Issue a single-use authorization code.  The raw code is returned once. *)
Definition createAuthorizationCode (input : CreateAuthorizationCodeInput) : M string :=
  code ← randomSecret;
  now ← toDbDate;
  transaction (
    id ← randomUUID;
    created ← db_now;
    _ ← insert_row oauth_authorization_codes
      (mkCode id (sha256_hex code) input.(ci_clientId) input.(ci_userId) input.(ci_companyId)
         input.(ci_scopes) input.(ci_redirectUri) input.(ci_codeChallenge) input.(ci_resource)
         (now + AUTHORIZATION_CODE_TTL_MS)%Z None created);
    mret code).

(** Mint an access/refresh pair against a grant. *)
Definition issueTokens (grantId userId companyId : string) (scopes : list ApiTokenScope)
    (clientName : jsstring) : M IssuedTokens :=
  access ← randomSecret;
  refresh ← randomSecret;
  let accessToken := String.append API_TOKEN_PREFIX access in
  let refreshToken := String.append API_TOKEN_PREFIX refresh in
  now ← toDbDate;
  id ← randomUUID;
  created ← db_now;
  _ ← insert_row api_tokens
    (mkApiToken id userId companyId (take 100 clientName) (sha256_hex accessToken)
       (String.substring 0 10 accessToken) scopes None (Some (now + ACCESS_TOKEN_TTL_MS)%Z) None created
       (Some grantId) (Some (sha256_hex refreshToken)) (Some (now + REFRESH_TOKEN_TTL_MS)%Z) None);
  mret (mkIssued accessToken refreshToken (ACCESS_TOKEN_TTL_MS / 1000) scopes).

(** [timingSafeEqual] compares equally long buffers. *)
Definition verifyPkce (verifier challenge : string) : bool :=
  let computed := sha256_base64url verifier in
  if (String.length computed =? String.length challenge)%nat then String.eqb computed challenge else false.

Definition requireActiveMembership (companyId userId : string) : M unit :=
  membership ← select_first company_members (is_membership companyId userId);
  match membership with
  | None => invalid_grant "Workspace membership is no longer active"
  | Some _ => mret tt
  end.

(** The refusals of a code, in order, once its row is locked. *)
Definition check_code (input : ExchangeCodeInput) (row : code_row) (now : Z) : option string :=
  if negb (is_null row.(ac_consumed_at)) then Some "Authorization code already used"
  else if (row.(ac_expires_at) <=? now)%Z then Some "Authorization code has expired"
  else if bool_decide (row.(ac_client_id) ≠ input.(xc_clientId))
       then Some "Authorization code was issued to another client"
  else if bool_decide (row.(ac_redirect_uri) ≠ input.(xc_redirectUri))
       then Some "redirect_uri does not match the authorization request"
  else if some_differs input.(xc_resource) row.(ac_resource)
       then Some "resource does not match the authorization request"
  else if negb (verifyPkce input.(xc_codeVerifier) row.(ac_code_challenge))
       then Some "PKCE verification failed"
  else None.

Definition exchangeAuthorizationCode (input : ExchangeCodeInput) : M IssuedTokens :=
  transaction (
    row ← select_first oauth_authorization_codes
            (λ r, bool_decide (r.(ac_code_hash) = sha256_hex input.(xc_code)));
    match row with
    | None => invalid_grant "Unknown authorization code"
    | Some row =>
        now ← toDbDate;
        match check_code input row now with
        | Some message => invalid_grant message
        | None =>
            _ ← requireActiveMembership row.(ac_company_id) row.(ac_user_id);
            consumed ← toDbDate;
            _ ← update oauth_authorization_codes (λ r, bool_decide (r.(ac_id) = row.(ac_id)))
                  (consume_code consumed);
            id ← randomUUID;
            created ← db_now;
            _ ← insert_row oauth_grants
              (mkGrant id row.(ac_user_id) row.(ac_company_id) row.(ac_client_id) row.(ac_scopes)
                 row.(ac_resource) created None None None);
            issueTokens id row.(ac_user_id) row.(ac_company_id) row.(ac_scopes) input.(xc_clientName)
        end
    end).

(** Revoke a grant and every token issued under it. *)
Definition revokeGrant (grantId reason : string) : M unit :=
  now ← toDbDate;
  transaction (
    _ ← update oauth_grants
          (λ r, bool_decide (r.(gr_id) = grantId) && is_null r.(gr_revoked_at))
          (revoke_grant_row now reason);
    _ ← update api_tokens
          (λ r, bool_decide (r.(tk_grant_id) = Some grantId) && is_null r.(tk_revoked_at))
          (revoke_token_row now);
    mret tt).

(** The join of a token with its grant. *)
Definition grant_of (grants : list grant_row) (r : api_token_row) : option grant_row :=
  match r.(tk_grant_id) with
  | Some g => first (λ gr, bool_decide (gr.(gr_id) = g)) grants
  | None => None
  end.
Definition join_grant (grants : list grant_row) (r : api_token_row) : option refresh_lookup :=
  (λ g, mkLookup r.(tk_id) r.(tk_user_id) r.(tk_company_id) r.(tk_revoked_at) r.(tk_refresh_used_at)
          r.(tk_refresh_expires_at) g.(gr_id) g.(gr_client_id) g.(gr_scopes) g.(gr_resource)
          g.(gr_revoked_at)) <$> grant_of grants r.

Definition lookup_refresh (hash : string) : M (option refresh_lookup) :=
  tokens ← select api_tokens (λ r, bool_decide (r.(tk_refresh_token_hash) = Some hash));
  grants ← select oauth_grants (λ _, true);
  mret (head (omap (join_grant grants) tokens)).

Definition reuse_message : string :=
  "Refresh token has already been used; this authorization has been revoked".

Definition check_refresh (input : RefreshInput) (existing : option refresh_lookup) (now : Z)
    : refresh_decision :=
  match existing with
  | None => Refuse "Unknown refresh token"
  | Some e =>
      if negb (is_null e.(rl_grant_revoked_at)) then Refuse "This authorization has been revoked"
      else if negb (is_null e.(rl_token_revoked_at)) then Burn "token_revoked" "This token has been revoked"
      else if negb (is_null e.(rl_refresh_used_at)) then Burn "refresh_token_reuse" reuse_message
      else if match e.(rl_refresh_expires_at) with Some z => (z <=? now)%Z | None => false end
           then Refuse "Refresh token has expired"
      else if bool_decide (e.(rl_client_id) ≠ input.(ri_clientId))
           then Refuse "Refresh token was issued to another client"
      else if some_differs input.(ri_resource) e.(rl_resource)
           then Refuse "resource does not match this authorization"
      else Rotate
  end.

(** The rotating transaction; [None] when another request spent the token first. *)
Definition rotate (e : refresh_lookup) (clientName : jsstring) : M (option IssuedTokens) :=
  transaction (
    _ ← requireActiveMembership e.(rl_company_id) e.(rl_user_id);
    now ← toDbDate;
    claimed ← update api_tokens
      (λ r, bool_decide (r.(tk_id) = e.(rl_token_id)) && is_null r.(tk_refresh_used_at))
      (spend_refresh now);
    if (claimed =? 0)%nat then mret None
    else
      used ← toDbDate;
      _ ← update oauth_grants (λ r, bool_decide (r.(gr_id) = e.(rl_grant_id))) (touch_grant used);
      issued ← issueTokens e.(rl_grant_id) e.(rl_user_id) e.(rl_company_id) e.(rl_scopes) clientName;
      mret (Some issued)).

(** Rotate a refresh token; a second use of one burns the grant. *)
Definition refreshTokens (input : RefreshInput) : M IssuedTokens :=
  existing ← lookup_refresh (sha256_hex input.(ri_refreshToken));
  now ← toDbDate;
  match check_refresh input existing now, existing with
  | Refuse message, _ => invalid_grant message
  | Burn reason message, Some e => _ ← revokeGrant e.(rl_grant_id) reason; invalid_grant message
  | Rotate, Some e =>
      rotated ← rotate e input.(ri_clientName);
      match rotated with
      | Some issued => mret issued
      | None => _ ← revokeGrant e.(rl_grant_id) "refresh_token_reuse"; invalid_grant reuse_message
      end
  | _, None => invalid_grant "Unknown refresh token"
  end.

Record ConnectedApp := mkApp {
  ap_grantId : string; ap_clientId : string; ap_clientName : option jsstring;
  ap_scopes : list ApiTokenScope; ap_createdAt : Z; ap_lastUsedAt : option Z;
  ap_ownerUserId : string; ap_ownerName : option jsstring; ap_canDisconnect : bool }.

(** [ORDER BY created_at DESC] *)
Definition newer (a b : grant_row) : Prop := (b.(gr_created_at) <= a.(gr_created_at))%Z.
#[export] Instance newer_dec : RelDecision newer.
Proof. intros a b. unfold newer. apply _. Defined.

Definition listConnectedApps (companyId requesterId : string) (isAdmin : bool) : M (list ConnectedApp) :=
  grants ← select oauth_grants
    (λ r, bool_decide (r.(gr_company_id) = companyId) && is_null r.(gr_revoked_at)
          && (isAdmin || bool_decide (r.(gr_user_id) = requesterId)));
  clients ← select oauth_clients (λ _, true);
  people ← select users (λ _, true);
  mret ((λ r,
    let client := first (λ c, bool_decide (c.(cl_client_id) = r.(gr_client_id))) clients in
    let person := first (λ u, bool_decide (u.(us_id) = r.(gr_user_id))) people in
    mkApp r.(gr_id) r.(gr_client_id) (client ≫= cl_client_name) r.(gr_scopes) r.(gr_created_at)
      r.(gr_last_used_at) r.(gr_user_id) (nullish (person ≫= us_name) (us_email <$> person))
      (isAdmin || bool_decide (r.(gr_user_id) = requesterId))) <$> merge_sort newer grants).

(** The query of [revokeConnectedApp], which [revokeGrant] follows. *)
Definition find_connected_app (grantId companyId requesterId : string) (isAdmin : bool)
    : M (option grant_row) :=
  select_first oauth_grants
    (λ r, bool_decide (r.(gr_id) = grantId) && bool_decide (r.(gr_company_id) = companyId)
          && is_null r.(gr_revoked_at) && (isAdmin || bool_decide (r.(gr_user_id) = requesterId))).

Definition revokeConnectedApp (grantId companyId requesterId : string) (isAdmin : bool) : M bool :=
  grant ← find_connected_app grantId companyId requesterId isAdmin;
  match grant with
  | None => mret false
  | Some g => _ ← revokeGrant g.(gr_id) "user_revoked"; mret true
  end.

(** ** Personal tokens *)

Definition hashApiToken (rawToken : string) : string := sha256_hex rawToken.

Definition base62 (bytes : list Z) : string :=
  foldr (λ b s, String.append (char_at BASE62 (b mod Z.of_nat (String.length BASE62))) s) EmptyString bytes.

(** The token, its hash and its display prefix. *)
Definition generateApiToken : M (string * string * string) :=
  bytes ← randomBytes TOKEN_RANDOM_LENGTH;
  let token := String.append API_TOKEN_PREFIX (base62 bytes) in
  mret (token, hashApiToken token, String.substring 0 DISPLAY_PREFIX_LENGTH token).

Definition createApiToken (input : CreateApiTokenInput) : M (string * api_token_row) :=
  generated ← generateApiToken;
  let '(token, hash, prefix) := generated in
  row ← transaction (
    membership ← select_first company_members (is_membership input.(ti_companyId) input.(ti_userId));
    match membership with
    | None => throw (ForbiddenError "Workspace membership is no longer active")
    | Some _ =>
        id ← randomUUID;
        created ← db_now;
        let row := mkApiToken id input.(ti_userId) input.(ti_companyId) input.(ti_name) hash prefix
                     input.(ti_scopes) None input.(ti_expiresAt) None created None None None None in
        _ ← insert_row api_tokens row;
        mret row
    end);
  mret (token, row).

Definition newer_token (a b : api_token_row) : Prop := (b.(tk_created_at) <= a.(tk_created_at))%Z.
#[export] Instance newer_token_dec : RelDecision newer_token.
Proof. intros a b. unfold newer_token. apply _. Defined.

Definition listApiTokens (companyId : string) (userId : option string) : M (list api_token_row) :=
  tokens ← select api_tokens
    (λ r, bool_decide (r.(tk_company_id) = companyId) && is_null r.(tk_grant_id)
          && match userId with Some u => bool_decide (r.(tk_user_id) = u) | None => true end);
  mret (merge_sort newer_token tokens).

Definition revokeApiToken (tokenId companyId requesterId : string) (isAdmin : bool)
    : M (option api_token_row) :=
  now ← toDbDate;
  revoked ← update_returning api_tokens
    (λ r, bool_decide (r.(tk_id) = tokenId) && bool_decide (r.(tk_company_id) = companyId)
          && is_null r.(tk_grant_id) && is_null r.(tk_revoked_at)
          && (isAdmin || bool_decide (r.(tk_user_id) = requesterId)))
    (revoke_token_row now);
  mret (head revoked).

(** Whether a stored token authenticates at an instant. *)
Definition token_live (grants : list grant_row) (row : api_token_row) (now : Z) : bool :=
  is_null row.(tk_revoked_at)
  && match grant_of grants row with Some g => is_null g.(gr_revoked_at) | None => true end
  && match row.(tk_expires_at) with Some z => (now <? z)%Z | None => true end.

(** Its write of last_used_at is not awaited and its failures are swallowed. *)
Definition verifyApiToken (rawToken : string) : M (option VerifiedApiToken) :=
  if negb (String.prefix API_TOKEN_PREFIX rawToken) then mret None
  else
    row ← select_first api_tokens (λ r, bool_decide (r.(tk_token_hash) = hashApiToken rawToken));
    grants ← select oauth_grants (λ _, true);
    match row with
    | None => mret None
    | Some row =>
        now ← toDbDate;
        if negb (token_live grants row now) then mret None
        else
          again ← toDbDate;
          let lastUsed := default 0%Z row.(tk_last_used_at) in
          _ ← when (LAST_USED_UPDATE_INTERVAL_MS <? again - lastUsed)%Z
                (catch
                   (used ← toDbDate;
                    _ ← update api_tokens (λ r, bool_decide (r.(tk_id) = row.(tk_id))) (use_token_row used);
                    mret tt)
                   (λ _, mret tt));
          mret (Some (mkVerified row.(tk_id) row.(tk_user_id) row.(tk_company_id) row.(tk_scopes)
                        (gr_resource <$> grant_of grants row)))
    end.
End oauth.
