(* ===== verification/Exec.v ===== *)
(** Reasoning about computations on the tenant database.

    [exec m t Q E] says what a run of [m] from tables [t] leads to, whatever the
    clocks, the transaction start time and the UUID generator yield: a returned
    value and its tables satisfy [Q], a thrown error and its tables satisfy [E].
    The rules below evaluate a service statement by statement; [exec_step]
    applies them. *)

From S2P Require Import Prelude Js TenantDb.

Section exec.
Context `{Oracle}.

Definition exec {A} (m : M A) (t : tables) (Q : A → tables → Prop)
    (E : err → tables → Prop) : Prop :=
  ∀ s, tb s = t →
  match m s with
  | (Ok a, s') => Q a (tb s')
  | (Throw e, s') => E e (tb s')
  end.

Lemma exec_weaken {A} (m : M A) t (Q Q' : A → tables → Prop) (E E' : err → tables → Prop) :
  exec m t Q E →
  (∀ a t', Q a t' → Q' a t') → (∀ e t', E e t' → E' e t') →
  exec m t Q' E'.
Proof.
  intros Hm HQ HE s Hs. specialize (Hm s Hs).
  destruct (m s) as [[a|e] s']; auto.
Qed.

Lemma exec_anything {A} (c : M A) t : exec c t (λ _ _, True) (λ _ _, True).
Proof. intros s <-. by destruct (c s) as [[a|e] s']. Qed.

Lemma exec_and {A} (m : M A) t (Q Q' : A → tables → Prop) (E E' : err → tables → Prop) :
  exec m t Q E → exec m t Q' E' →
  exec m t (λ a t', Q a t' ∧ Q' a t') (λ e t', E e t' ∧ E' e t').
Proof.
  intros H1 H2 s Hs. specialize (H1 s Hs). specialize (H2 s Hs).
  destruct (m s) as [[a|e] s']; auto.
Qed.

Lemma exec_bind {A B} (m : M A) (k : A → M B) t Q E :
  exec m t (λ a t', exec (k a) t' Q E) E → exec (m ≫= k) t Q E.
Proof.
  intros Hm s Hs. specialize (Hm s Hs). cbv [mbind M_bind].
  destruct (m s) as [[a|e] s']; [by apply Hm|done].
Qed.

Lemma exec_bind_assoc {A B C} (m : M A) (f : A → M B) (g : B → M C) t Q E :
  exec (m ≫= λ a, f a ≫= g) t Q E → exec ((m ≫= f) ≫= g) t Q E.
Proof.
  intros Hm s Hs. specialize (Hm s Hs). cbv [mbind M_bind] in *.
  by destruct (m s) as [[a|e] s'].
Qed.

Lemma exec_ret {A} (a : A) t (Q : A → tables → Prop) E : Q a t → exec (mret a) t Q E.
Proof. intros HQ s <-. done. Qed.

Lemma exec_throw {A} e t (Q : A → tables → Prop) (E : err → tables → Prop) :
  E e t → exec (throw e) t Q E.
Proof. intros HE s <-. done. Qed.

(** What the oracles can yield. *)
Definition clock_reading (z : Z) : Prop := ∃ n, z = app_clock n.
Definition drawn_uuid (u : string) : Prop := ∃ n, u = gen_uuid n.

Lemma exec_toDbDate t (Q : Z → tables → Prop) E :
  (∀ z, clock_reading z → Q z t) → exec toDbDate t Q E.
Proof. intros HQ s <-. apply HQ. by eexists. Qed.

Lemma exec_statement_timestamp t (Q : Z → tables → Prop) E :
  (∀ z, Q z t) → exec statement_timestamp t Q E.
Proof. intros HQ s <-. apply HQ. Qed.
Lemma exec_randomUUID t (Q : string → tables → Prop) E :
  (∀ u, drawn_uuid u → Q u t) → exec randomUUID t Q E.
Proof. intros HQ s <-. apply HQ. by eexists. Qed.

Lemma exec_randomBytes n t (Q : list Z → tables → Prop) E :
  (∀ i, Q ((λ j, gen_byte i j mod 256)%Z <$> seq 0 n) t) → exec (randomBytes n) t Q E.
Proof. intros HQ s <-. apply HQ. Qed.

Lemma exec_delete_where {R} (T : table R) p t (Q : nat → tables → Prop) E :
  Q (length (keep p (rows T t))) (set_rows T (keep (negb ∘ p) (rows T t)) t) →
  exec (delete_where T p) t Q E.
Proof. intros HQ s <-. apply HQ. Qed.

Lemma exec_db_now t (Q : Z → tables → Prop) E : (∀ z, Q z t) → exec db_now t Q E.
Proof. intros HQ s <-. apply HQ. Qed.

Lemma exec_select {R} (T : table R) p t (Q : list R → tables → Prop) E :
  Q (keep p (rows T t)) t → exec (select T p) t Q E.
Proof. intros HQ s <-. apply HQ. Qed.

Lemma exec_select_first {R} (T : table R) p t (Q : option R → tables → Prop) E :
  Q (first p (rows T t)) t → exec (select_first T p) t Q E.
Proof. intros HQ s <-. apply HQ. Qed.

Lemma exec_put {R} (T : table R) l t (Q : unit → tables → Prop) (E : err → tables → Prop) :
  (constraint T l = None → Q tt (set_rows T l t)) →
  (∀ e, constraint T l = Some e → E e t) →
  exec (put T l) t Q E.
Proof.
  intros HQ HE s <-. unfold put. destruct (constraint T l) eqn:?; cbn; auto.
Qed.

Lemma exec_update_returning {R} (T : table R) p f t (Q : list R → tables → Prop)
    (E : err → tables → Prop) :
  (constraint T (update_where p f (rows T t)) = None →
   Q (f <$> keep p (rows T t)) (set_rows T (update_where p f (rows T t)) t)) →
  (∀ e, constraint T (update_where p f (rows T t)) = Some e → E e t) →
  exec (update_returning T p f) t Q E.
Proof.
  intros HQ HE s <-. cbv [update_returning put mbind M_bind mret M_ret].
  destruct (constraint T _) eqn:?; cbn; auto.
Qed.

Lemma exec_update {R} (T : table R) p f t (Q : nat → tables → Prop)
    (E : err → tables → Prop) :
  (constraint T (update_where p f (rows T t)) = None →
   Q (length (keep p (rows T t))) (set_rows T (update_where p f (rows T t)) t)) →
  (∀ e, constraint T (update_where p f (rows T t)) = Some e → E e t) →
  exec (update T p f) t Q E.
Proof.
  intros HQ HE. unfold update. apply exec_bind, exec_update_returning; [|done].
  intros Hc. apply exec_ret. rewrite length_fmap. by apply HQ.
Qed.

(** An update that reports a row has one to show. *)
Lemma exec_update_some {R} (T : table R) `{!TableLaws T} p f t (Q : nat → tables → Prop)
    (E : err → tables → Prop) :
  (∀ n t', constraint T (rows T t') = None → rows T t' = update_where p f (rows T t) →
   ((0 < n)%nat → ∃ r, r ∈ rows T t ∧ p r = true ∧ f r ∈ rows T t') → Q n t') →
  (∀ e, E e t) →
  exec (update T p f) t Q E.
Proof.
  intros HQ HE. apply exec_update; [|auto]. intros Hc. apply HQ; rewrite rows_set_rows; [done..|].
  intros Hn. destruct (keep p (rows T t)) as [|r l] eqn:Hl; [by cbn in Hn; lia|].
  assert (Hr : r ∈ keep p (rows T t)) by (rewrite Hl; left).
  rewrite elem_of_keep in Hr. destruct Hr as [Hp Hr]. exists r. split; [done|]. split; [done|].
  apply elem_of_update_where. exists r. by rewrite Hp.
Qed.

(** An update of no row writes nothing. *)
Lemma exec_update_none {R} (T : table R) `{!TableLaws T} p f t (Q : nat → tables → Prop)
    (E : err → tables → Prop) :
  (∀ r, r ∈ rows T t → p r = false) → Q 0 t → (∀ e, E e t) → exec (update T p f) t Q E.
Proof.
  intros Hp HQ HE. apply exec_update; [|auto]. intros _.
  rewrite update_where_none, set_rows_rows by done.
  by rewrite (proj2 (keep_nil_iff p (rows T t))).
Qed.

Lemma exec_insert_row {R} (T : table R) r t (Q : unit → tables → Prop)
    (E : err → tables → Prop) :
  (constraint T (rows T t ++ [r]) = None → Q tt (set_rows T (rows T t ++ [r]) t)) →
  (∀ e, constraint T (rows T t ++ [r]) = Some e → E e t) →
  exec (insert_row T r) t Q E.
Proof.
  intros HQ HE s <-. unfold insert_row, put. destruct (constraint T _) eqn:?; cbn; auto.
Qed.

Lemma exec_insert_rows {R} (T : table R) l t (Q : unit → tables → Prop)
    (E : err → tables → Prop) :
  (constraint T (rows T t ++ l) = None → Q tt (set_rows T (rows T t ++ l) t)) →
  (∀ e, constraint T (rows T t ++ l) = Some e → E e t) →
  exec (insert_rows T l) t Q E.
Proof.
  intros HQ HE s <-. unfold insert_rows, put. destruct (constraint T _) eqn:?; cbn; auto.
Qed.

Lemma exec_insert_on_conflict_nothing {R} (T : table R) a r t
    (Q : option R → tables → Prop) (E : err → tables → Prop) :
  (holds_any a (rows T t) = true → Q None t) →
  (holds_any a (rows T t) = false → constraint T (rows T t ++ [r]) = None →
   Q (Some r) (set_rows T (rows T t ++ [r]) t)) →
  (∀ e, holds_any a (rows T t) = false → constraint T (rows T t ++ [r]) = Some e → E e t) →
  exec (insert_on_conflict_nothing T a r) t Q E.
Proof.
  intros HN HS HE s <-. unfold insert_on_conflict_nothing.
  destruct (holds_any a _) eqn:Ha; [by apply HN|].
  cbv [insert_row put mbind M_bind mret M_ret].
  destruct (constraint T _) eqn:?; cbn; auto.
Qed.

Lemma exec_insert_on_conflict_update {R} (T : table R) a f r t
    (Q : unit → tables → Prop) (E : err → tables → Prop) :
  (holds_any a (rows T t) = true → constraint T (update_where a f (rows T t)) = None →
   Q tt (set_rows T (update_where a f (rows T t)) t)) →
  (holds_any a (rows T t) = false → constraint T (rows T t ++ [r]) = None →
   Q tt (set_rows T (rows T t ++ [r]) t)) →
  (∀ e, holds_any a (rows T t) = true →
   constraint T (update_where a f (rows T t)) = Some e → E e t) →
  (∀ e, holds_any a (rows T t) = false → constraint T (rows T t ++ [r]) = Some e → E e t) →
  exec (insert_on_conflict_update T a f r) t Q E.
Proof.
  intros HU HI HEU HEI s Hs. unfold insert_on_conflict_update. rewrite Hs.
  destruct (holds_any a _) eqn:Ha.
  - revert s Hs. apply exec_bind, exec_update; [|auto].
    intros Hc. by apply exec_ret, HU.
  - revert s Hs. apply exec_insert_row; auto.
Qed.

(** A failed transaction leaves the tables as they were. *)
Lemma exec_transaction {A} (m : M A) t Q (E : err → tables → Prop) :
  exec m t Q (λ e _, E e t) → exec (transaction m) t Q E.
Proof.
  intros Hm s <-. unfold transaction.
  specialize (Hm (begin_trx s) eq_refl).
  destruct (m (begin_trx s)) as [[a|e] s']; done.
Qed.

Lemma exec_catch {A} (m : M A) h t Q E :
  exec m t Q (λ e t', exec (h e) t' Q E) → exec (catch m h) t Q E.
Proof.
  intros Hm s Hs. specialize (Hm s Hs). unfold catch.
  destruct (m s) as [[a|e] s']; [done|by apply Hm].
Qed.

(** From a specification to a run. *)
Lemma exec_run {A} (m : M A) s Q E :
  exec m (tb s) Q E →
  match m s with (Ok a, s') => Q a (tb s') | (Throw e, s') => E e (tb s') end.
Proof. intros Hm. by apply Hm. Qed.

(** What a computation that only reads cannot do. *)
Definition reads {A} (m : M A) : Prop := ∀ s, tb (m s).2 = tb s.

Lemma exec_reads {A} (m : M A) t : reads m → exec m t (λ _ t', t' = t) (λ _ t', t' = t).
Proof. intros Hm s <-. specialize (Hm s). by destruct (m s) as [[a|e] s']. Qed.
End exec.

(** Evaluate the next statement of the computation in an [exec] goal. *)
Ltac exec_step :=
  lazymatch goal with
  | |- exec (mbind _ _) _ _ _ => apply exec_bind
  | |- exec (mret _) _ _ _ => apply exec_ret
  | |- exec (throw _) _ _ _ => apply exec_throw
  | |- exec toDbDate _ _ _ => apply exec_toDbDate; let Hz := fresh "Hz" in intros ? Hz
  | |- exec statement_timestamp _ _ _ => apply exec_statement_timestamp; intros ?
  | |- exec randomUUID _ _ _ => apply exec_randomUUID; let Hu := fresh "Hu" in intros ? Hu
  | |- exec (randomBytes _) _ _ _ => apply exec_randomBytes; intros ?
  | |- exec (delete_where _ _) _ _ _ => apply exec_delete_where
  | |- exec db_now _ _ _ => apply exec_db_now; intros ?
  | |- exec (select _ _) _ _ _ => apply exec_select
  | |- exec (select_first _ _) _ _ _ => apply exec_select_first
  | |- exec (transaction _) _ _ _ => apply exec_transaction
  | |- exec (catch _ _) _ _ _ => apply exec_catch
  | |- exec (if ?b then _ else _) _ _ _ => let E := fresh "E" in destruct b eqn:E
  | |- exec (match ?x with _ => _ end) _ _ _ => let E := fresh "E" in destruct x eqn:E
  end; cbv beta.
Ltac exec_steps := repeat exec_step.
