(* ===== verification/Steady.v ===== *)
(** What a computation may do to the tables, whatever it returns or throws.

    [steady R m] says that every run of [m] relates the tables before and after by
    the preorder [R].  It composes, so a service is proved steady statement by
    statement: the statements of a table that [R] does not constrain are steady by
    its [Frame] instance, and [steady] walks through the structure of the code. *)

From S2P Require Import Prelude Js TenantDb Exec.

(** The relation allows any rewrite of the table. *)
Class Frame (R : tables → tables → Prop) {A} (T : table A) : Prop :=
  frame : ∀ l t, R t (set_rows T l t).

Section steady.
Context `{Oracle} (R : tables → tables → Prop) `{!PreOrder R}.

Definition steady {A} (m : M A) : Prop := ∀ t, exec m t (λ _ t', R t t') (λ _ t', R t t').

Lemma steady_bind {A B} (m : M A) (k : A → M B) : steady m → (∀ a, steady (k a)) → steady (m ≫= k).
Proof using PreOrder0.
  intros Hm Hk t. apply exec_bind. eapply exec_weaken; [apply Hm| |done].
  intros a t' Ht. eapply exec_weaken; [apply Hk|..]; intros x t'' Ht'; by transitivity t'.
Qed.

(** What follows a steady computation starts from related tables. *)
Lemma exec_steady_bind {A B} (m : M A) (k : A → M B) t Q E :
  steady m → (∀ a t1, R t t1 → exec (k a) t1 Q E) → (∀ e t1, R t t1 → E e t1) →
  exec (m ≫= k) t Q E.
Proof using. intros Hm Hk HE. apply exec_bind. by eapply exec_weaken; [apply Hm|..]. Qed.

Lemma exec_steady {A} (m : M A) t Q :
  steady m → exec m t Q (λ _ _, True) → exec m t (λ a t', R t t' ∧ Q a t') (λ _ t', R t t').
Proof using.
  intros Hm HQ. eapply exec_weaken; [apply exec_and; [apply Hm|apply HQ]|..]; cbv beta; tauto.
Qed.

(** A computation that leaves the tables alone. *)
Lemma steady_reads {A} (m : M A) :
  (∀ t, exec m t (λ _ t', t' = t) (λ _ t', t' = t)) → steady m.
Proof using PreOrder0. intros Hm t. eapply exec_weaken; [apply Hm|..]; by intros x t' ->. Qed.

Lemma steady_ret {A} (a : A) : steady (mret a).
Proof using PreOrder0. apply steady_reads. intros t. by apply exec_ret. Qed.
Lemma steady_throw {A} e : steady (A := A) (throw e).
Proof using PreOrder0. apply steady_reads. intros t. by apply exec_throw. Qed.
Lemma steady_toDbDate : steady toDbDate.
Proof using PreOrder0. apply steady_reads. intros t. by apply exec_toDbDate. Qed.
Lemma steady_statement_timestamp : steady statement_timestamp.
Proof using PreOrder0. apply steady_reads. intros t. by apply exec_statement_timestamp. Qed.
Lemma steady_randomUUID : steady randomUUID.
Proof using PreOrder0. apply steady_reads. intros t. by apply exec_randomUUID. Qed.
Lemma steady_randomBytes n : steady (randomBytes n).
Proof using PreOrder0. apply steady_reads. intros t. by apply exec_randomBytes. Qed.
Lemma steady_db_now : steady db_now.
Proof using PreOrder0. apply steady_reads. intros t. by apply exec_db_now. Qed.
Lemma steady_select {A} (T : table A) p : steady (select T p).
Proof using PreOrder0. apply steady_reads. intros t. by apply exec_select. Qed.
Lemma steady_select_first {A} (T : table A) p : steady (select_first T p).
Proof using PreOrder0. apply steady_reads. intros t. by apply exec_select_first. Qed.

(** Statements: a refused one changes nothing. *)
Lemma steady_insert_row {A} (T : table A) `{!Frame R T} r : steady (insert_row T r).
Proof using PreOrder0. intros t. by apply exec_insert_row. Qed.
Lemma steady_insert_rows {A} (T : table A) `{!Frame R T} l : steady (insert_rows T l).
Proof using PreOrder0. intros t. by apply exec_insert_rows. Qed.
Lemma steady_update_returning {A} (T : table A) `{!Frame R T} p f : steady (update_returning T p f).
Proof using PreOrder0. intros t. by apply exec_update_returning. Qed.
Lemma steady_delete_where {A} (T : table A) `{!Frame R T} p : steady (delete_where T p).
Proof using PreOrder0. intros t. by apply exec_delete_where. Qed.
Lemma steady_update {A} (T : table A) `{!Frame R T} p f : steady (update T p f).
Proof using PreOrder0. intros t. by apply exec_update. Qed.
Lemma steady_insert_nothing {A} (T : table A) `{!Frame R T} a r :
  steady (insert_on_conflict_nothing T a r).
Proof using PreOrder0. intros t. by apply exec_insert_on_conflict_nothing. Qed.
Lemma steady_insert_update {A} (T : table A) `{!Frame R T} a f r :
  steady (insert_on_conflict_update T a f r).
Proof using PreOrder0. intros t. by apply exec_insert_on_conflict_update. Qed.

Lemma steady_transaction {A} (m : M A) : steady m → steady (transaction m).
Proof using PreOrder0.
  intros Hm t. apply exec_transaction. by eapply exec_weaken; [apply Hm|..].
Qed.
Lemma steady_catch {A} (m : M A) h : steady m → (∀ e, steady (h e)) → steady (catch m h).
Proof using PreOrder0.
  intros Hm Hh t. apply exec_catch. eapply exec_weaken; [apply Hm|done|].
  intros e t' Ht. eapply exec_weaken; [apply Hh|..]; intros x t'' Ht'; by transitivity t'.
Qed.
Lemma steady_mapM {A B} (f : A → M B) l : (∀ x, steady (f x)) → steady (mapM f l).
Proof using PreOrder0.
  intros Hf. induction l as [|x l IH]; [apply steady_ret|].
  apply steady_bind; [apply Hf|intros]. apply steady_bind; [done|intros; apply steady_ret].
Qed.
Lemma steady_when b m : steady m → steady (when b m).
Proof using PreOrder0. intros Hm. destruct b; [done|apply steady_ret]. Qed.
End steady.

Create HintDb steady discriminated.
#[export] Hint Resolve steady_ret steady_throw steady_toDbDate steady_statement_timestamp steady_randomUUID steady_randomBytes steady_db_now
  steady_select steady_select_first steady_insert_row steady_insert_rows steady_update_returning
  steady_update steady_delete_where steady_insert_nothing steady_insert_update : steady.
#[export] Hint Extern 5 (Frame _ _) => apply _ : steady.
#[export] Hint Extern 5 (PreOrder _) => apply _ : steady.

(** Prove a computation steady: through its structure, with the lemmas of the
    functions it calls. *)
Ltac steady_step :=
  lazymatch goal with
  | |- steady _ (mbind _ _) => apply steady_bind; [apply _| |intros]
  | |- steady _ (transaction _) => apply steady_transaction; [apply _|]
  | |- steady _ (catch _ _) => apply steady_catch; [apply _| |intros]
  | |- steady _ (when _ _) => apply steady_when; [apply _|]
  | |- steady _ (mapM _ _) => apply steady_mapM; [apply _|intros]
  | |- steady _ (match ?x with _ => _ end) => destruct x
  | |- steady _ (let '(_, _) := ?x in _) => destruct x
  end.
Ltac steady := repeat first [solve [eauto with steady nocore]|steady_step]; cbv beta iota zeta; try done.

(** ** Computations that leave the tables alone *)

Definition unchanged (t t' : tables) : Prop := t' = t.
#[export] Instance unchanged_preorder : PreOrder unchanged.
Proof. split; [done|]. intros t1 t2 t3 H1 H2. unfold unchanged in *. congruence. Qed.
