(* ===== verification/Workflow.v ===== *)
(** Building blocks of the conversation workflow.

    Models channel-workflow.service.ts (which conversation bridges which
    contact), the assignment functions of contact.service.ts, the policy reads of
    sla-policy/policy.service.ts and conversation-state.service.ts. *)

From S2P Require Import Prelude Js SpineRows TenantDb.

Definition is_id (x : string) (o : option string) : bool := bool_decide (o = Some x).

(** ** channel-workflow.service.ts *)

Definition conversationIdForContact (contactId : string) : M (option string) :=
  conversation ← select_first conversations (λ r,
    is_id contactId r.(cv_legacy_contact_id) && bool_decide (r.(cv_archived_at) = None));
  mret (cv_id <$> conversation).

Definition contactIdForConversation (conversationId : string) : M (option string) :=
  conversation ← select_first conversations (λ r,
    bool_decide (r.(cv_id) = conversationId) && bool_decide (r.(cv_archived_at) = None));
  mret (conversation ≫= cv_legacy_contact_id).

Definition resolveWorkflowContactId (id : string) : M (option string) :=
  contact ← select_first contacts (λ r, bool_decide (r.(ct_id) = id));
  match contact with
  | Some contact => mret (Some contact.(ct_id))
  | None => contactIdForConversation id
  end.

Record WorkflowIdentity := mkIdentity {
  wi_contactId : option string; wi_conversationId : option string;
  wi_isGroup : bool; wi_subject : option jsstring }.

Definition resolveWorkflowIdentity (id : string) : M (option WorkflowIdentity) :=
  contact ← select_first contacts (λ r, bool_decide (r.(ct_id) = id));
  match contact with
  | Some contact =>
      conversationId ← conversationIdForContact contact.(ct_id);
      mret (Some (mkIdentity (Some contact.(ct_id)) conversationId contact.(ct_is_group) None))
  | None =>
      conversation ← select_first conversations (λ r,
        bool_decide (r.(cv_id) = id) && bool_decide (r.(cv_archived_at) = None));
      match conversation with
      | None => mret None
      | Some conversation =>
          mret (Some (mkIdentity conversation.(cv_legacy_contact_id) (Some conversation.(cv_id))
                        (negb (bool_decide (conversation.(cv_kind) = kind_direct))) conversation.(cv_subject)))
      end
  end.

(** ** Assignments (contact.service.ts) *)

Section assignment.
Context `{Oracle}.

Definition active_assignment (r : assignment_row) : bool :=
  bool_decide (r.(ca_unassigned_at) = None).

Definition close_assignment (at_ : Z) (r : assignment_row) : assignment_row :=
  mkAssignment r.(ca_id) r.(ca_contact_id) r.(ca_conversation_id) r.(ca_assigned_to)
               r.(ca_assigned_by) r.(ca_assigned_at) (Some at_).

Definition insert_assignment (contactId conversationId : option string)
    (userId assignedByUserId : string) : M assignment_row :=
  id ← randomUUID; now ← db_now;
  let r := mkAssignment id contactId conversationId userId assignedByUserId now None in
  _ ← insert_row assignments r; mret r.

Definition unassignContact (contactId : string) : M unit :=
  at_ ← toDbDate;
  _ ← update assignments (λ r, is_id contactId r.(ca_contact_id) && active_assignment r)
             (close_assignment at_);
  mret tt.

Definition unassignConversation (conversationId : string) : M unit :=
  at_ ← toDbDate;
  _ ← update assignments (λ r, is_id conversationId r.(ca_conversation_id) && active_assignment r)
             (close_assignment at_);
  mret tt.

Definition assignContactToUser (contactId userId assignedByUserId : string)
    : M assignment_row :=
  _ ← unassignContact contactId;
  conversationId ← conversationIdForContact contactId;
  insert_assignment (Some contactId) conversationId userId assignedByUserId.

Definition assignConversationToUser (conversationId userId assignedByUserId : string)
    : M unit :=
  _ ← unassignConversation conversationId;
  _ ← insert_assignment None (Some conversationId) userId assignedByUserId;
  mret tt.

Definition getCurrentConversationAssignment (conversationId : string)
    : M (option assignment_row) :=
  select_first assignments (λ r,
    is_id conversationId r.(ca_conversation_id) && active_assignment r).

(** [conversationId] is the optional third argument; "" is falsy. *)
Definition getCurrentAssignment (contactId : string) (conversationId : option string)
    : M (option assignment_row) :=
  select_first assignments (λ r,
    active_assignment r &&
    match conversationId with
    | Some (String _ _ as cid) =>
        is_id contactId r.(ca_contact_id) || is_id cid r.(ca_conversation_id)
    | _ => is_id contactId r.(ca_contact_id)
    end).

Definition ensureContactAssignment (contactId userId : string) : M bool :=
  currentAssignment ← getCurrentAssignment contactId None;
  match currentAssignment with
  | None => _ ← assignContactToUser contactId userId userId; mret true
  | Some _ => mret false
  end.
End assignment.

(** ** SLA policies (sla-policy/policy.service.ts) *)

(** [ORDER BY effective_from DESC, created_at DESC, id DESC] *)
Definition newer_policy (a b : policy_row) : Prop :=
  (b.(sp_effective_from) < a.(sp_effective_from))%Z
  ∨ (a.(sp_effective_from) = b.(sp_effective_from)
     ∧ ((b.(sp_created_at) < a.(sp_created_at))%Z
        ∨ (a.(sp_created_at) = b.(sp_created_at) ∧ String.le b.(sp_id) a.(sp_id)))).

#[export] Instance newer_policy_dec : RelDecision newer_policy.
Proof. intros a b. unfold newer_policy. apply _. Defined.

Definition listSlaPolicyHistory (companyId : string) : M (list policy_row) :=
  l ← select sla_policies (λ r, bool_decide (r.(sp_company_id) = companyId));
  mret (merge_sort newer_policy l).

Definition getCurrentSlaPolicy (companyId : string) : M policy_row :=
  l ← select sla_policies (λ r, bool_decide (r.(sp_company_id) = companyId));
  match head (merge_sort newer_policy l) with
  | Some row => mret row
  | None => throw (NotFoundError "SLA policy")
  end.

(** (responseTargetMinutes, resolutionTargetMinutes) *)
Definition resolveCaseTargets (policy : policy_row) (kind : case_kind) : Z * Z :=
  match kind with
  | group => (policy.(sp_group_response_target_minutes),
              policy.(sp_group_resolution_target_minutes))
  | direct => (policy.(sp_target_minutes),
               policy.(sp_direct_resolution_target_minutes))
  end.

Record SlaPolicyInput := mkPolicyInput {
  pi_targetMinutes : Z; pi_directResolution : Z; pi_groupResponse : Z;
  pi_groupResolution : Z; pi_timezone : string;
  pi_weeklySchedule : list SlaWeeklyScheduleDay;
  pi_exceptions : option (list SlaScheduleException) }.

Definition createSlaPolicy `{Oracle} (companyId : string) (input : SlaPolicyInput)
    (createdByUserId : string) : M policy_row :=
  id ← randomUUID; effective_from ← toDbDate; now ← db_now;
  let r := mkPolicy id companyId input.(pi_targetMinutes) input.(pi_directResolution)
             input.(pi_groupResponse) input.(pi_groupResolution) input.(pi_timezone)
             input.(pi_weeklySchedule) (default [] input.(pi_exceptions)) effective_from (Some createdByUserId) now in
  _ ← insert_row sla_policies r; mret r.

(** DEFAULT_SLA_WEEKLY_SCHEDULE: open around the clock on the seven weekdays. *)
Definition DEFAULT_SLA_WEEKLY_SCHEDULE : list SlaWeeklyScheduleDay :=
  (λ weekday, mkDay weekday true (Some [mkInterval (js "00:00") (js "24:00")]))
    <$> [0; 1; 2; 3; 4; 5; 6]%Z.

Definition seedDefaultSlaPolicy `{Oracle} (companyId : string) : M unit :=
  id ← randomUUID; now ← db_now;
  insert_row sla_policies (mkPolicy id companyId 60 480 120 960 "UTC"
    DEFAULT_SLA_WEEKLY_SCHEDULE [] 0 None now).

(** ** middleware/resource-visibility.ts *)

Definition hasContactVisibility (canViewAllChats : bool) (userId contactId : string) : M bool :=
  if canViewAllChats then mret true
  else
    assignment ← select_first assignments (λ r,
      is_id contactId r.(ca_contact_id) && bool_decide (r.(ca_assigned_to) = userId)
      && active_assignment r);
    mret (bool_decide (is_Some assignment)).

(** ** conversation-state.service.ts *)

Record ConversationState := mkConversationState {
  st_id : string; st_contactId : string; st_status : case_status;
  st_resolvedAt : option Z; st_resolvedBy : option string;
  st_reopenedAt : option Z; st_reopenedBy : option string;
  st_resolutionNotes : option jsstring; st_activeCaseId : option string;
  st_createdAt : Z; st_updatedAt : Z }.

Definition getConversationState (contactId : string) : M (option ConversationState) :=
  state ← select_first states (λ r,
    is_id contactId r.(cs_contact_id) || is_id contactId r.(cs_conversation_id));
  mret ((λ r, mkConversationState r.(cs_id) (default contactId r.(cs_contact_id))
                r.(cs_status) r.(cs_resolved_at) r.(cs_resolved_by) r.(cs_reopened_at)
                r.(cs_reopened_by) r.(cs_resolution_notes) r.(cs_active_case_id)
                r.(cs_created_at) r.(cs_updated_at)) <$> state).
