(* ===== verification/Fanout.v ===== *)
(** What a message that the workspace sends adds around its row.

    Models services/channel-message-fanout.service.ts: the job that tells the browsers
    about the message, and the columns of the conversation list that it advances. *)

From S2P Require Import Prelude Js SpineRows TenantDb SpineDb Exec Workflow.

(** [(textContent ?? "").slice(0, 100) || null] *)
Definition preview_of (text : option jsstring) : option jsstring :=
  let p := Some (slice 0 100 (default [] text)) in if truthy p then p else None.

(** The SET clause on conversation_states; the unread counter stays. *)
Definition set_sent_activity (occurredAt : Z) (preview : option jsstring) (updated_at : Z) (r : state_row)
    : state_row :=
  mkState r.(cs_id) r.(cs_contact_id) r.(cs_conversation_id) r.(cs_active_case_id) r.(cs_status)
    r.(cs_resolved_at) r.(cs_resolved_by) r.(cs_resolution_notes) r.(cs_reopened_at) r.(cs_reopened_by)
    r.(cs_created_at) updated_at
    (mkActivity r.(cs_activity).(sa_unread_count) (Some occurredAt) preview).

(** [LEAST(COALESCE(first, at), at)], [GREATEST(COALESCE(last, at), at)] *)
Definition extend_thread (occurredAt now : Z) (r : conversation_row) : conversation_row :=
  let t := r.(cv_thread) in
  mkConversation r.(cv_id) r.(cv_kind) r.(cv_subject) r.(cv_legacy_contact_id) r.(cv_archived_at)
    r.(cv_channel_account_id)
    (mkThread t.(th_external_thread_id) t.(th_client_thread_key) t.(th_provider_status)
       t.(th_provider_metadata)
       (Some (default occurredAt t.(th_first_message_at) `min` occurredAt)%Z)
       (Some (default occurredAt t.(th_last_message_at) `max` occurredAt)%Z) now).

(** The row of a conversation that had no state yet. *)
Definition sent_state (id : string) (contactId : option string) (conversationId : string) (occurredAt : Z)
    (preview : option jsstring) (created_at : Z) : state_row :=
  mkState id contactId (Some conversationId) None open None None None None None created_at created_at
    (mkActivity 0 (Some occurredAt) preview).

Section fanout.
Context `{Oracle}.

(** ON CONFLICT DO NOTHING: the primary key arbitrates. *)
Definition enqueueOutboundRealtimeFanout (companyId channelAccountId conversationId messageId : string)
    : M unit :=
  _ ← insert_on_conflict_nothing channel_message_delivery_outbox
        (λ r, bool_decide (fanout_key r = Some (companyId, messageId, "realtime")))
        (mkFanout companyId channelAccountId conversationId messageId "realtime");
  mret tt.

Definition recordOutboundConversationActivity (conversationId : string) (contactId : option string)
    (textContent : option jsstring) (occurredAt : Z) : M unit :=
  let preview := preview_of textContent in
  updated_at ← toDbDate;
  updated ← update states (λ r, is_id conversationId r.(cs_conversation_id))
              (set_sent_activity occurredAt preview updated_at);
  _ ← when (updated =? 0)%nat
        (id ← randomUUID; created_at ← db_now;
         insert_row states (sent_state id contactId conversationId occurredAt preview created_at));
  now ← toDbDate;
  _ ← update conversations (λ r, bool_decide (r.(cv_id) = conversationId)) (extend_thread occurredAt now);
  mret tt.
End fanout.

(** ** What the two leave *)

(** The primary key of the queue holds. *)
Definition keyed_fanout (t : tables) : Prop :=
  constraint channel_message_delivery_outbox (rows channel_message_delivery_outbox t) = None.

Definition queued_as (r x : fanout_row) : bool := bool_decide (fanout_key x = fanout_key r).

(** The job is queued, unless one with its key already is. *)
Definition queue_fanout (r : fanout_row) (t : tables) : tables :=
  let l := rows channel_message_delivery_outbox t in
  if holds_any (queued_as r) l then t else set_rows channel_message_delivery_outbox (l ++ [r]) t.

(** The conversation's states show the message, its only state when there was none, and
    its bounds include the time. *)
Definition show_activity (conversationId : string) (contactId : option string) (text : option jsstring)
    (occurredAt : Z) (id : string) (updated_at created_at now : Z) (t : tables) : tables :=
  let p r := is_id conversationId r.(cs_conversation_id) in
  let preview := preview_of text in
  set_rows conversations
    (update_where (λ r, bool_decide (r.(cv_id) = conversationId)) (extend_thread occurredAt now) (t_conversations t))
    (set_rows states
       (if holds_any p (t_states t) then update_where p (set_sent_activity occurredAt preview updated_at) (t_states t)
        else t_states t ++ [sent_state id contactId conversationId occurredAt preview created_at]) t).

Lemma queue_frame {R} (T : table R) r t :
  (∀ l, rows T (set_rows channel_message_delivery_outbox l t) = rows T t) → rows T (queue_fanout r t) = rows T t.
Proof. intros HT. unfold queue_fanout. by destruct (holds_any _ _). Qed.

Section effect.
Context `{Oracle}.

Lemma exec_enqueue_fanout co a v m t :
  exec (enqueueOutboundRealtimeFanout co a v m) t
    (λ _ t', t' = queue_fanout (mkFanout co a v m "realtime") t) (λ _ t', t' = t ∧ ¬ keyed_fanout t).
Proof.
  unfold enqueueOutboundRealtimeFanout. apply exec_bind. set (r := mkFanout co a v m "realtime").
  change (λ x, bool_decide (fanout_key x = Some (co, m, "realtime"))) with (queued_as r).
  apply exec_insert_on_conflict_nothing.
  - intros Hq. apply exec_ret. unfold queue_fanout. by rewrite Hq.
  - intros Hq _. apply exec_ret. unfold queue_fanout. by rewrite Hq.
  - intros e Hq He. split; [done|]. unfold keyed_fanout. intros Hk.
    cbn [constraint channel_message_delivery_outbox spine_table] in He, Hk. rewrite checks_cons in Hk.
    rewrite checks_cons_Some in He. destruct He as [[He _]|[_ [=]]].
    rewrite unique_on_app in He; [done|by apply Hk|]. intros x Hx _ Hkey.
    rewrite holds_any_false in Hq. specialize (Hq x Hx). unfold queued_as in Hq. by to_prop.
Qed.

Lemma exec_activity v c text at_ t :
  exec (recordOutboundConversationActivity v c text at_) t
    (λ _ t', ∃ id updated_at created_at now, t' = show_activity v c text at_ id updated_at created_at now t)
    (λ _ _, True).
Proof.
  unfold recordOutboundConversationActivity. cbv zeta. exec_step. exec_step. exec_step.
  apply exec_update; [intros _|done]. exec_step. change (rows states t) with (t_states t).
  set (p := λ r, is_id v (cs_conversation_id r)).
  assert (Hn : (length (keep p (t_states t)) =? 0)%nat = negb (holds_any p (t_states t))).
  { destruct (holds_any p (t_states t)) eqn:Hp.
    - apply holds_any_true in Hp as (x & Hx & Hp). apply Nat.eqb_neq.
      assert (Hin : x ∈ keep p (t_states t)) by by apply elem_of_keep.
      destruct (keep p (t_states t)); [by apply not_elem_of_nil in Hin|done].
    - apply Nat.eqb_eq. rewrite (proj2 (keep_nil_iff p _)); [done|]. by apply holds_any_false. }
  rewrite Hn. unfold show_activity. fold p.
  destruct (holds_any p (t_states t)) eqn:Hp; cbn [negb when].
  - exec_step. exec_step. exec_step. exec_step. apply exec_update; [intros _|done]. apply exec_ret.
    by exists v, z, z, z0.
  - do 4 exec_step. change (rows states) with t_states. apply exec_insert_row; [intros _|done].
    rewrite update_where_none by by apply holds_any_false.
    exec_step. exec_step. exec_step. apply exec_update; [intros _|done]. apply exec_ret.
    by exists u, z, z0, z1.
Qed.
End effect.
