(* ===== verification/Team.v ===== *)
(** Workspaces, their members and invitations.

    Models services/company/core.ts, members.ts and invitations.ts and the writers of
    services/permission.service.ts.  The case mappings of JavaScript and of PostgreSQL
    are the class [CaseMapping]; the mail provider is a parameter that says whether a
    message left, and [inviteMember] and [resendInvitation] are built from what they
    commit before and after the delivery. *)

From S2P Require Import Prelude Js Permissions PublicRows TenantDb PublicDb OAuth Workflow.
From Stdlib Require Import Ascii.

Class CaseMapping := {
  toLowerCase : jsstring → jsstring;
  sql_lower : jsstring → jsstring }.

(** The roles of an invitation: [Exclude<CompanyMemberRole, "owner">]. *)
Inductive InvitedRole := invited_admin | invited_member.
Definition role_of (r : InvitedRole) : CompanyMemberRole :=
  match r with invited_admin => admin | invited_member => member end.

Definition roleRank (r : CompanyMemberRole) : Z :=
  match r with owner => 3 | admin => 2 | member => 1 end.

Record CreateCompanyInput := mkCompanyInput {
  cy_name : jsstring; cy_description : option jsstring; cy_logo : bool }.
(** The logo is absent, [null] ([Some false]) or an image. *)
Inductive SettableStatus := set_active | set_suspended.
Record UpdateCompanyInput := mkUpdateCompany {
  uc_name : option jsstring; uc_description : option jsstring; uc_logo : option bool;
  uc_status : option SettableStatus }.
Record InviteMemberInput := mkInvite {
  im_email : jsstring; im_role : option InvitedRole; im_permissions : option PartialPermissions }.

(** Column updates. *)
Definition member_set (r : member_row) (role : CompanyMemberRole) (permissions : option PartialPermissions)
    : member_row :=
  mkMember r.(mb_id) r.(mb_user_id) r.(mb_company_id) role permissions r.(mb_invited_by) r.(mb_joined_at).
Definition set_role (role : CompanyMemberRole) (r : member_row) : member_row :=
  member_set r role r.(mb_permissions).
Definition set_permissions (permissions : PartialPermissions) (r : member_row) : member_row :=
  member_set r r.(mb_role) (Some permissions).
Definition set_company_status (status : company_status) (now : Z) (r : company_row) : company_row :=
  mkCompany r.(co_id) r.(co_name) r.(co_description) r.(co_logo_key) r.(co_schema_name) status
    r.(co_created_at) now.
Definition status_of (s : SettableStatus) : company_status :=
  match s with set_active => company_active | set_suspended => company_suspended end.
Definition company_update (input : UpdateCompanyInput) (uploadedLogoKey : option string) (now : Z)
    (r : company_row) : company_row :=
  mkCompany r.(co_id) (default r.(co_name) input.(uc_name))
    (match input.(uc_description) with
     | Some d => if truthy (Some d) then Some d else None
     | None => r.(co_description)
     end)
    (match input.(uc_logo) with Some _ => uploadedLogoKey | None => r.(co_logo_key) end)
    r.(co_schema_name) (default r.(co_status) (status_of <$> input.(uc_status))) r.(co_created_at) now.
Definition set_active_users (f : Z → Z) (now : Z) (r : stats_row) : stats_row :=
  mkStats r.(st_company_id) (f r.(st_active_users)) now.
Definition accept_row (now : Z) (r : invitation_row) : invitation_row :=
  mkInvitation r.(iv_id) r.(iv_company_id) r.(iv_email) r.(iv_role) r.(iv_permissions) r.(iv_token)
    r.(iv_invited_by) r.(iv_expires_at) (Some now) r.(iv_created_at).
Definition reissue_row (token invitedBy : string) (expires : Z) (r : invitation_row) : invitation_row :=
  mkInvitation r.(iv_id) r.(iv_company_id) r.(iv_email) r.(iv_role) r.(iv_permissions) token
    invitedBy expires r.(iv_accepted_at) r.(iv_created_at).

(** ** Custom permissions *)

Definition all_permissions : list Permission :=
  [can_view_all_chats; can_send_messages; can_send_bulk_messages; can_assign_contacts; can_manage_team;
   can_invite; can_manage_connections; can_view_dashboard; can_view_audit; can_export; can_delete].

(** [Object.keys(permissions).length > 0] *)
Definition has_keys (permissions : PartialPermissions) : bool :=
  existsb (λ p, negb (is_null (permissions p))) all_permissions.

(** [{ ...current, ...new }] *)
Definition merge_permissions (current new : PartialPermissions) : PartialPermissions :=
  λ p, nullish (new p) (current p).

(** Store only permission values that differ from the selected role preset. *)
Definition normalizeInvitationPermissions (role : CompanyMemberRole) (requested : option PartialPermissions)
    : PartialPermissions := λ p,
  match default (λ _, None) requested p with
  | Some value => if bool_decide (value ≠ ROLE_PERMISSION_PRESETS role p) then Some value else None
  | None => None
  end.

(** Invitations may create only roles at or below the inviter's own rank. *)
Definition canInviteRole (inviterRole invitedRole : CompanyMemberRole) : bool :=
  (roleRank invitedRole <=? roleRank inviterRole)%Z.

(** Hierarchy policy shared by role changes and member removal. *)
Definition canManageMember (actorRole targetRole : CompanyMemberRole) : bool :=
  (roleRank targetRole <? roleRank actorRole)%Z.

Definition role_name (r : CompanyMemberRole) : string :=
  match r with owner => "owner" | admin => "admin" | member => "member" end.

Section team.
Context `{Oracle} `{Crypto} `{CaseMapping}.

Definition invalidateCompanyMembership (companyId : string) : M unit :=
  insert_row membership_invalidations companyId.

(** ** core.ts *)

Definition getCompany (companyId : string) : M company_row :=
  company ← select_first companies
    (λ r, bool_decide (r.(co_id) = companyId) && bool_decide (r.(co_status) ≠ company_deleted));
  match company with
  | None => throw (CompanyNotFoundError companyId)
  | Some r => mret r
  end.

(** [`tenant_${companyId.replace(/-/g, "_")}`] *)
Definition underscore (c : ascii) : ascii :=
  if eqb c "-"%char then "_"%char else c.
Definition getSchemaName (companyId : string) : string :=
  String.append "tenant_"
    (String.string_of_list_ascii (underscore <$> String.list_ascii_of_string companyId)).

Section core.
(** Storing the logo, and creating and dropping a tenant schema, which run on other
    connections and may throw. *)
Context (uploadWorkspaceLogo : string → M string) (createTenantSchema dropTenantSchema : string → M unit).

Definition rollbackFailedWorkspace (companyId : string) : M unit :=
  _ ← catch (dropTenantSchema companyId) (λ _, mret tt);
  now ← toDbDate;
  _ ← update companies (λ r, bool_decide (r.(co_id) = companyId)) (set_company_status company_deleted now);
  invalidateCompanyMembership companyId.

(** The transaction of [createCompany]; the channel defaults of the deployment, which it
    also seeds, are not modelled. *)
Definition insert_company (companyId : string) (input : CreateCompanyInput) (logoKey : option string)
    (ownerId : string) : M company_row :=
  transaction (
    created ← toDbDate; updated ← toDbDate;
    let company := mkCompany companyId input.(cy_name) input.(cy_description) logoKey
                     (getSchemaName companyId) company_active created updated in
    _ ← insert_row companies company;
    counted ← toDbDate;
    _ ← insert_row company_stats (mkStats companyId 1 counted);
    joined ← toDbDate;
    id ← randomUUID;
    _ ← insert_row company_members (mkMember id ownerId companyId owner (Some (λ _, None)) None joined);
    _ ← seedDefaultSlaPolicy companyId;
    mret company).

Definition createCompany (input : CreateCompanyInput) (ownerId : string) : M company_row :=
  companyId ← randomUUID;
  logoKey ← (if input.(cy_logo) then key ← uploadWorkspaceLogo companyId; mret (Some key) else mret None);
  company ← insert_company companyId input logoKey ownerId;
  _ ← invalidateCompanyMembership companyId;
  _ ← catch (createTenantSchema companyId)
        (λ e, _ ← rollbackFailedWorkspace companyId; throw e);
  mret company.

(** The statement of [updateCompany]. *)
Definition update_company (companyId : string) (input : UpdateCompanyInput) (uploadedLogoKey : option string)
    (now : Z) : M (list company_row) :=
  update_returning companies
    (λ r, bool_decide (r.(co_id) = companyId) && bool_decide (r.(co_status) ≠ company_deleted))
    (company_update input uploadedLogoKey now).

Definition updateCompany (deleteMedia : string → M unit) (companyId : string) (input : UpdateCompanyInput)
    : M company_row :=
  now ← toDbDate;
  logo ← (match input.(uc_logo) with
          | None => mret (None, None)
          | Some upload =>
              current ← getCompany companyId;
              if (upload : bool) then key ← uploadWorkspaceLogo companyId; mret (current.(co_logo_key), Some key)
              else mret (current.(co_logo_key), None)
          end);
  let '(previousLogoKey, uploadedLogoKey) := logo in
  let discard key := match key with
                     | Some k => when (negb (String.eqb k EmptyString)) (catch (deleteMedia k) (λ _, mret tt))
                     | None => mret tt
                     end in
  updated ← catch (update_company companyId input uploadedLogoKey now)
              (λ e, _ ← discard uploadedLogoKey; throw e);
  match updated with
  | [] => _ ← discard uploadedLogoKey; throw (CompanyNotFoundError companyId)
  | company :: _ =>
      _ ← (if bool_decide (previousLogoKey = company.(co_logo_key)) then mret tt else discard previousLogoKey);
      mret company
  end.
End core.

Definition deleteCompany (companyId : string) : M unit :=
  now ← toDbDate;
  deleted ← update companies
    (λ r, bool_decide (r.(co_id) = companyId) && bool_decide (r.(co_status) ≠ company_deleted))
    (set_company_status company_deleted now);
  if (deleted =? 0)%nat then throw (CompanyNotFoundError companyId) else mret tt.

(** ** members.ts *)

Definition getMembers (companyId : string) : M (list (member_row * user_row)) :=
  _ ← getCompany companyId;
  rows ← select company_members (λ m, bool_decide (m.(mb_company_id) = companyId));
  people ← select users (λ _, true);
  mret (omap (λ m, pair m <$> first (λ u, bool_decide (u.(us_id) = m.(mb_user_id))) people) rows).

Definition getMemberRole (companyId userId : string) : M (option CompanyMemberRole) :=
  m ← select_first company_members (is_membership companyId userId);
  mret (mb_role <$> m).

Definition hasPermission (companyId userId : string) (requiredRole : CompanyMemberRole) : M bool :=
  role ← getMemberRole companyId userId;
  mret (match role with
        | None => false
        | Some role => (roleRank requiredRole <=? roleRank role)%Z
        end).

(** The transaction of [removeMember]. *)
Definition remove_membership (companyId userId : string) : M unit :=
  transaction (
    _ ← delete_where oauth_authorization_codes
          (λ r, of_member companyId userId r.(ac_company_id) r.(ac_user_id));
    membership ← select_first company_members (is_membership companyId userId);
    match membership with
    | None => throw (CompanyNotFoundError companyId)
    | Some m =>
        if bool_decide (m.(mb_role) = owner)
        then throw (InsufficientPermissionsError "remove the company owner")
        else
          _ ← delete_where company_members (λ r, bool_decide (r.(mb_id) = m.(mb_id)));
          now ← toDbDate;
          _ ← update api_tokens
                (λ r, of_member companyId userId r.(tk_company_id) r.(tk_user_id) && is_null r.(tk_revoked_at))
                (revoke_token_row now);
          later ← toDbDate;
          _ ← update oauth_grants
                (λ r, of_member companyId userId r.(gr_company_id) r.(gr_user_id) && is_null r.(gr_revoked_at))
                (revoke_grant_row later "membership_removed");
          mret tt
    end).

(** [GREATEST(active_users - 1, 0)], after the commit. *)
Definition uncount_member (companyId : string) : M unit :=
  now ← toDbDate;
  _ ← update company_stats (λ r, bool_decide (r.(st_company_id) = companyId))
        (set_active_users (λ n, Z.max (n - 1) 0) now);
  mret tt.

Definition removeMember (companyId userId : string) : M unit :=
  _ ← remove_membership companyId userId;
  _ ← invalidateCompanyMembership companyId;
  uncount_member companyId.

Definition updateMemberRole (companyId userId : string) (newRole : InvitedRole) : M member_row :=
  updated ← transaction (
    membership ← select_first company_members (is_membership companyId userId);
    match membership with
    | None => throw (CompanyNotFoundError companyId)
    | Some m =>
        if bool_decide (m.(mb_role) = owner)
        then throw (InsufficientPermissionsError "change owner's role")
        else
          rows ← update_returning company_members (λ r, bool_decide (r.(mb_id) = m.(mb_id)))
                   (set_role (role_of newRole));
          match rows with
          | r :: _ => mret r
          | [] => throw (OtherError "no result")  (* executeTakeFirstOrThrow *)
          end
    end);
  _ ← invalidateCompanyMembership companyId;
  mret updated.

(** Transfer ownership atomically to an existing workspace member. *)
Definition transferOwnership (companyId currentOwnerId newOwnerId : string) : M unit :=
  if bool_decide (currentOwnerId = newOwnerId)
  then throw (InsufficientPermissionsError "transfer ownership to yourself")
  else
    _ ← transaction (
      memberships ← select company_members
        (λ m, bool_decide (m.(mb_company_id) = companyId)
              && bool_decide (m.(mb_user_id) ∈ [currentOwnerId; newOwnerId]));
      let role_in user := mb_role <$> first (λ m, bool_decide (m.(mb_user_id) = user)) memberships in
      if negb (bool_decide (role_in currentOwnerId = Some owner))
         || is_null (role_in newOwnerId) || bool_decide (role_in newOwnerId = Some owner)
      then throw (InsufficientPermissionsError "transfer workspace ownership")
      else
        _ ← update company_members (is_membership companyId currentOwnerId) (set_role admin);
        _ ← update company_members (is_membership companyId newOwnerId) (set_role owner);
        mret tt);
    invalidateCompanyMembership companyId.

(** The workspaces of a user: id, role and effective permissions. *)
Definition getUserCompanies (userId : string)
    : M (list (company_row * CompanyMemberRole * MemberPermissions)) :=
  memberships ← select company_members (λ m, bool_decide (m.(mb_user_id) = userId));
  workspaces ← select companies (λ _, true);
  mret (omap (λ m,
    c ← first (λ c, bool_decide (c.(co_id) = m.(mb_company_id))) workspaces;
    if bool_decide (c.(co_status) = company_deleted) then None
    else Some (c, (member_data m).1, (member_data m).2)) memberships).

(** ** permission.service.ts *)

Definition read_member_data (companyId userId : string) : M (option (CompanyMemberRole * MemberPermissions)) :=
  m ← select_first company_members (is_membership companyId userId);
  mret (member_data <$> m).

Definition updateMemberPermissions (companyId targetUserId : string) (newPermissions : PartialPermissions)
    : M MemberPermissions :=
  m ← select_first company_members (is_membership companyId targetUserId);
  match m with
  | None => throw (NotFoundError "Member")
  | Some m =>
      if bool_decide (m.(mb_role) = owner)
      then throw (ForbiddenError "Cannot modify owner's permissions")
      else
        let updated := merge_permissions (default (λ _, None) m.(mb_permissions)) newPermissions in
        _ ← update company_members (is_membership companyId targetUserId) (set_permissions updated);
        _ ← invalidateCompanyMembership companyId;
        mret (getEffectivePermissions m.(mb_role) updated)
  end.

Definition resetMemberPermissions (companyId targetUserId : string) : M MemberPermissions :=
  m ← select_first company_members (is_membership companyId targetUserId);
  match m with
  | None => throw (NotFoundError "Member")
  | Some m =>
      _ ← update company_members (is_membership companyId targetUserId) (set_permissions (λ _, None));
      _ ← invalidateCompanyMembership companyId;
      mret (ROLE_PERMISSION_PRESETS m.(mb_role))
  end.

(** ** invitations.ts *)

Definition INVITATION_TTL_MS : Z := 7 * 24 * 60 * 60 * 1000.

Definition authorizeInvitation (companyId inviterId : string) (role : CompanyMemberRole)
    (requestedPermissions : option PartialPermissions) : M PartialPermissions :=
  inviter ← read_member_data companyId inviterId;
  match inviter with
  | Some (inviterRole, permissions) =>
      if negb (permissions can_invite)
      then throw (InsufficientPermissionsError "invite workspace members")
      else if negb (canInviteRole inviterRole role)
      then throw (InsufficientPermissionsError
             (String.append "invite a " (String.append (role_name role)
                (String.append " from the " (String.append (role_name inviterRole) " role")))))
      else if match requestedPermissions with Some p => has_keys p | None => false end
              && negb (bool_decide (inviterRole = owner))
      then throw (InsufficientPermissionsError "customize permissions on an invitation")
      else mret (normalizeInvitationPermissions role requestedPermissions)
  | None => throw (InsufficientPermissionsError "invite workspace members")
  end.

Definition normalizeInvitationEmail (email : jsstring) : jsstring := toLowerCase (trim email).
Definition invitationEmailMatches (invitationEmail userEmail : jsstring) : bool :=
  bool_decide (normalizeInvitationEmail invitationEmail = normalizeInvitationEmail userEmail).

(** [inviteMember] up to the delivery: the new invitation and the one it replaces. *)
Definition create_invitation (companyId : string) (input : InviteMemberInput) (invitedBy : string)
    : M (invitation_row * option invitation_row) :=
  _ ← getCompany companyId;
  let email := normalizeInvitationEmail input.(im_email) in
  let role := role_of (default invited_member input.(im_role)) in
  permissions ← authorizeInvitation companyId invitedBy role input.(im_permissions);
  people ← select users (λ u, bool_decide (sql_lower u.(us_email) = email));
  colleagues ← select company_members (λ m, bool_decide (m.(mb_company_id) = companyId));
  if existsb (λ u, existsb (λ m, bool_decide (m.(mb_user_id) = u.(us_id))) colleagues) people
  then throw (UserAlreadyMemberError email)
  else
    now ← toDbDate;
    existing ← select_first invitations
      (λ r, bool_decide (r.(iv_company_id) = companyId) && bool_decide (sql_lower r.(iv_email) = email)
            && is_null r.(iv_accepted_at) && (now <? r.(iv_expires_at))%Z);
    bytes ← randomBytes 32;
    from ← toDbDate;
    created ← toDbDate;
    invitation ← transaction (
      id ← randomUUID;
      let row := mkInvitation id companyId email role permissions (hex bytes) invitedBy
                   (from + INVITATION_TTL_MS)%Z None created in
      _ ← insert_row invitations row; mret row);
    mret (invitation, existing).

(** [inviteMember] after the delivery. *)
Definition settle_invitation (invitation : invitation_row) (existing : option invitation_row)
    (delivered : bool) : M invitation_row :=
  if delivered then
    match existing with
    | Some old =>
        _ ← delete_where invitations (λ r, bool_decide (r.(iv_id) = old.(iv_id))); mret invitation
    | None => mret invitation
    end
  else
    _ ← delete_where invitations (λ r, bool_decide (r.(iv_id) = invitation.(iv_id)));
    throw (InvitationDeliveryError invitation.(iv_email)).

(** Whether the mail provider accepted a message to an address with a token. *)
Definition Mailer : Type := jsstring → string → bool.

Definition inviteMember (companyId : string) (input : InviteMemberInput) (invitedBy : string)
    (emailSender : Mailer) : M invitation_row :=
  created ← create_invitation companyId input invitedBy;
  let '(invitation, existing) := created in
  settle_invitation invitation existing (emailSender invitation.(iv_email) invitation.(iv_token)).

Definition cancelInvitation (companyId invitationId : string) : M unit :=
  deleted ← delete_where invitations
    (λ r, bool_decide (r.(iv_id) = invitationId) && bool_decide (r.(iv_company_id) = companyId)
          && is_null r.(iv_accepted_at));
  if (deleted =? 0)%nat then throw (InvitationNotFoundError invitationId) else mret tt.

(** Applies an invitation inside a caller-owned transaction. *)
Definition acceptInvitationInTransaction (token userId : string) : M (company_row * member_row) :=
  invitation ← select_first invitations
    (λ r, bool_decide (r.(iv_token) = token) && is_null r.(iv_accepted_at));
  match invitation with
  | None => throw (InvitationNotFoundError token)
  | Some i =>
      now ← toDbDate;
      if (i.(iv_expires_at) <? now)%Z then throw InvitationExpiredError
      else
        recipient ← select_first users (λ u, bool_decide (u.(us_id) = userId));
        match recipient with
        | None => throw InvitationEmailMismatchError
        | Some u =>
            if negb (invitationEmailMatches i.(iv_email) u.(us_email))
            then throw InvitationEmailMismatchError
            else
              existing ← select_first company_members (is_membership i.(iv_company_id) userId);
              match existing with
              | Some _ => throw (UserAlreadyMemberError u.(us_email))
              | None =>
                  company ← getCompany i.(iv_company_id);
                  accepted ← toDbDate;
                  claimed ← update invitations
                    (λ r, bool_decide (r.(iv_id) = i.(iv_id)) && is_null r.(iv_accepted_at))
                    (accept_row accepted);
                  if (claimed =? 0)%nat then throw (InvitationNotFoundError token)
                  else
                    joined ← toDbDate;
                    id ← randomUUID;
                    let m := mkMember id userId i.(iv_company_id) i.(iv_role) (Some i.(iv_permissions))
                               (Some i.(iv_invited_by)) joined in
                    _ ← insert_row company_members m;
                    counted ← toDbDate;
                    _ ← update company_stats (λ r, bool_decide (r.(st_company_id) = i.(iv_company_id)))
                          (set_active_users (λ n, (n + 1)%Z) counted);
                    mret (company, m)
              end
        end
  end.

(** After the commit; the audit log is not modelled. *)
Definition completeInvitationAcceptance (accepted : company_row * member_row) : M unit :=
  invalidateCompanyMembership accepted.1.(co_id).

Definition acceptInvitation (token userId : string) : M (company_row * member_row) :=
  accepted ← transaction (acceptInvitationInTransaction token userId);
  _ ← completeInvitationAcceptance accepted;
  mret accepted.

Definition getInvitationByToken (token : string) : M invitation_row :=
  candidates ← select invitations (λ r, bool_decide (r.(iv_token) = token));
  workspaces ← select companies (λ c, negb (bool_decide (c.(co_status) = company_deleted)));
  people ← select users (λ _, true);
  match first (λ r, existsb (λ c, bool_decide (c.(co_id) = r.(iv_company_id))) workspaces
                    && existsb (λ u, bool_decide (u.(us_id) = r.(iv_invited_by))) people) candidates with
  | None => throw (InvitationNotFoundError token)
  | Some r =>
      if negb (is_null r.(iv_accepted_at)) then throw (InvitationNotFoundError token)
      else
        now ← toDbDate;
        if (r.(iv_expires_at) <? now)%Z then throw InvitationExpiredError else mret r
  end.

(** [resendInvitation] up to the delivery: the invitation before and after. *)
Definition reissue_invitation (companyId invitationId userId : string)
    : M (invitation_row * invitation_row) :=
  _ ← getCompany companyId;
  found ← select_first invitations
    (λ r, bool_decide (r.(iv_id) = invitationId) && bool_decide (r.(iv_company_id) = companyId)
          && is_null r.(iv_accepted_at));
  match found with
  | None => throw (InvitationNotFoundError invitationId)
  | Some i =>
      _ ← authorizeInvitation companyId userId i.(iv_role) None;
      bytes ← randomBytes 32;
      from ← toDbDate;
      updated ← update_returning invitations (λ r, bool_decide (r.(iv_id) = invitationId))
                  (reissue_row (hex bytes) userId (from + INVITATION_TTL_MS)%Z);
      match updated with
      | r :: _ => mret (i, r)
      | [] => throw (OtherError "no result")
      end
  end.

(** Preserve the previously valid invitation when a resend cannot be delivered. *)
Definition settle_resend (before after : invitation_row) (delivered : bool) : M invitation_row :=
  if delivered then mret after
  else
    _ ← update invitations
      (λ r, bool_decide (r.(iv_id) = after.(iv_id)) && bool_decide (r.(iv_token) = after.(iv_token)))
      (reissue_row before.(iv_token) before.(iv_invited_by) before.(iv_expires_at));
    throw (InvitationDeliveryError before.(iv_email)).

Definition resendInvitation (companyId invitationId userId : string) (emailSender : Mailer)
    : M invitation_row :=
  reissued ← reissue_invitation companyId invitationId userId;
  let '(before, after) := reissued in
  settle_resend before after (emailSender after.(iv_email) after.(iv_token)).
End team.
