(* ===== verification/Sessions.v ===== *)
(** Accounts and their sessions.

    Models services/auth.service.ts, lib/refresh-token-retention.ts and lib/jwt.ts.
    bcrypt and jose are in the class [Crypto]; the mail provider and the storage of
    avatars are parameters.  [login] is built from the check of the credentials and
    the transaction that opens the session, between which other requests run. *)

From S2P Require Import Prelude Js Permissions PublicRows TenantDb PublicDb OAuth Workflow Team.

(** ** refresh-token-retention.ts *)

Definition MAX_RETAINED_REFRESH_TOKENS : nat := 5.

Definition parseEntry (item : retired_item) : option RetiredRefreshToken :=
  match item with
  | RetiredObject (Some hash) (Some (Some expiresAt)) =>
      if String.eqb hash EmptyString then None else Some (mkRetired hash expiresAt)
  | _ => None
  end.

Definition readRetiredRefreshTokens (value : retired_column) : list RetiredRefreshToken :=
  match value with RetiredArray items => omap parseEntry items | RetiredNotArray => [] end.

Definition pruneRetiredRefreshTokens (entries : list RetiredRefreshToken) (nowMs : Z)
    : list RetiredRefreshToken :=
  keep (λ e, nowMs <? e.(rt_expiresAt))%Z entries.

Definition isRetiredRefreshTokenAccepted (entries : list RetiredRefreshToken) (presentedHash : string)
    (nowMs : Z) : bool :=
  existsb (λ e, bool_decide (e.(rt_hash) = presentedHash) && (nowMs <? e.(rt_expiresAt))%Z) entries.

Definition retainSupersededRefreshToken (entries : list RetiredRefreshToken) (retiredHash : string)
    (nowMs graceMs : Z) : list RetiredRefreshToken :=
  let live := pruneRetiredRefreshTokens entries nowMs in
  if (graceMs <=? 0)%Z then live
  else
    let live := live ++ [mkRetired retiredHash (nowMs + graceMs)%Z] in
    drop (length live - MAX_RETAINED_REFRESH_TOKENS) live.

(** [JSON.stringify] of the list into the column. *)
Definition retired_json (entries : list RetiredRefreshToken) : retired_column :=
  RetiredArray ((λ e, RetiredObject (Some e.(rt_hash)) (Some (Some e.(rt_expiresAt)))) <$> entries).

(** ** jwt.ts *)

(** The environment of the API. *)
Class AuthEnv := {
  JWT_ACCESS_EXPIRES_IN : jsstring;
  JWT_REFRESH_EXPIRES_IN : jsstring;
  JWT_REFRESH_REUSE_GRACE_SECONDS : Z }.

(** [/^(\d+)([smhd])$/] *)
Definition parseDuration (duration : jsstring) : result Z :=
  let '(digits, rest) := span is_digit duration in
  match digits, rest, parseInt digits with
  | _ :: _, [unit], Some value =>
      if bool_decide ([unit] = js "s") then Ok value
      else if bool_decide ([unit] = js "m") then Ok (value * 60)%Z
      else if bool_decide ([unit] = js "h") then Ok (value * 60 * 60)%Z
      else if bool_decide ([unit] = js "d") then Ok (value * 60 * 60 * 24)%Z
      else Throw (OtherError (String.append "Invalid duration format: " (string_of_js duration)))
  | _, _, _ => Throw (OtherError (String.append "Invalid duration format: " (string_of_js duration)))
  end.

Record AuthTokens := mkAuthTokens { au_accessToken : string; au_refreshToken : string }.

Record UpdateProfileInput := mkProfile {
  up_name : option jsstring; up_email : option jsstring; up_currentPassword : option string;
  up_avatar : option (option jsstring) }.

Definition EMAIL_VERIFICATION_TTL_MS : Z := 24 * 60 * 60 * 1000.
Definition PASSWORD_RESET_TTL_MS : Z := 60 * 60 * 1000.

Definition emailNotVerifiedError : err :=
  AuthError "Verify your email address before signing in" "EMAIL_NOT_VERIFIED" 403.
Definition emailExistsError : err :=
  AuthError "An account with this email already exists" "EMAIL_EXISTS" 409.
Definition invalidCredentials : err := AuthError "Invalid email or password" "INVALID_CREDENTIALS" 401.

(** Column updates. *)
Definition set_verified (now : Z) (u : user_row) : user_row :=
  mkUser u.(us_id) u.(us_name) u.(us_email) u.(us_avatar_key) u.(us_password_hash) (Some now)
    u.(us_created_at) now.
Definition set_password (hash : string) (now : Z) (u : user_row) : user_row :=
  mkUser u.(us_id) u.(us_name) u.(us_email) u.(us_avatar_key) hash u.(us_email_verified_at)
    u.(us_created_at) now.
Definition use_auth_token (now : Z) (r : auth_token_row) : auth_token_row :=
  mkAuthToken r.(at_id) r.(at_user_id) r.(at_type) r.(at_token_hash) r.(at_expires_at) (Some now)
    r.(at_created_at).
Definition set_refresh (hash : string) (r : user_session_row) : user_session_row :=
  mkUserSession r.(se_id) r.(se_user_id) r.(se_device) hash r.(se_previous_refresh_tokens)
    r.(se_last_active_at) r.(se_created_at) r.(se_expires_at).
Definition rotate_session (hash : string) (previous : retired_column) (active expires : Z)
    (r : user_session_row) : user_session_row :=
  mkUserSession r.(se_id) r.(se_user_id) r.(se_device) hash previous active r.(se_created_at) expires.
Definition touch_session (now : Z) (r : user_session_row) : user_session_row :=
  mkUserSession r.(se_id) r.(se_user_id) r.(se_device) r.(se_refresh_token)
    r.(se_previous_refresh_tokens) now r.(se_created_at) r.(se_expires_at).

Definition user_is (userId : string) (u : user_row) : bool := bool_decide (u.(us_id) = userId).
Definition session_is (sessionId : string) (r : user_session_row) : bool :=
  bool_decide (r.(se_id) = sessionId).
Definition session_of (userId : string) (r : user_session_row) : bool :=
  bool_decide (r.(se_user_id) = userId).

Section sessions.
Context `{Oracle} `{Crypto} `{CaseMapping} `{AuthEnv}.

Definition of_result {A} (r : result A) : M A := match r with Ok a => mret a | Throw e => throw e end.

(** The clock reading at which a token is issued, in seconds, and the expiry. *)
Definition token_times_s (expires : jsstring) : M (Z * Z) :=
  expiresIn ← of_result (parseDuration expires);
  issued ← toDbDate;
  now ← toDbDate;
  mret ((issued / 1000)%Z, (now / 1000 + expiresIn)%Z).

Definition generateAccessToken (userId sessionId : string) : M string :=
  times ← token_times_s JWT_ACCESS_EXPIRES_IN;
  mret (sign_access userId sessionId times.1 times.2).

Definition generateRefreshToken (sessionId : string) : M string :=
  jti ← randomUUID;
  times ← token_times_s JWT_REFRESH_EXPIRES_IN;
  mret (sign_refresh sessionId jti times.1 times.2).

Definition verifyRefreshToken (token : string) : M (option (string * string)) :=
  now ← toDbDate; mret (verify_refresh token now).
Definition verifyAccessToken (token : string) : M (option (string * string)) :=
  now ← toDbDate; mret (verify_access token now).

Definition getRefreshTokenExpiry : M Z :=
  expiresIn ← of_result (parseDuration JWT_REFRESH_EXPIRES_IN);
  now ← toDbDate;
  mret (now + expiresIn * 1000)%Z.

Definition generateToken : M string := bytes ← randomBytes 32; mret (hex bytes).
Definition hashToken (token : string) : string := sha256_hex token.
Definition hashPassword (password : string) : M string :=
  salt ← randomBytes 16; mret (bcrypt_hash password salt).
Definition verifyPassword (password hash : string) : bool := bcrypt_compare password hash.

(** ** Account tokens *)

Definition issueAuthToken (userId : string) (type : AuthTokenType) (ttlMs : Z)
    (invalidateExisting : bool) : M string :=
  token ← generateToken;
  _ ← (if invalidateExisting
       then delete_where auth_tokens
              (λ r, bool_decide (r.(at_user_id) = userId) && bool_decide (r.(at_type) = type))
       else
         now ← toDbDate;
         delete_where auth_tokens
           (λ r, bool_decide (r.(at_user_id) = userId) && bool_decide (r.(at_type) = type)
                 && ((r.(at_expires_at) <=? now)%Z || negb (is_null r.(at_used_at)))));
  now ← toDbDate;
  id ← randomUUID;
  created ← db_now;
  _ ← insert_row auth_tokens
        (mkAuthToken id userId type (hashToken token) (now + ttlMs)%Z None created);
  mret token.

Definition discardAuthToken (token : string) : M unit :=
  _ ← delete_where auth_tokens (λ r, bool_decide (r.(at_token_hash) = hashToken token)); mret tt.

(** Whether the mail provider accepted a verification message. *)
Definition VerificationMailer : Type := jsstring → string → option string → bool.

Definition validateInvitationRecipient (invitationToken : string) (email : jsstring) : M unit :=
  catch
    (invitation ← getInvitationByToken invitationToken;
     if negb (invitationEmailMatches invitation.(iv_email) email)
     then throw (AuthError "This invitation was sent to a different email address"
                   "INVITATION_EMAIL_MISMATCH" 403)
     else mret tt)
    (λ e, match e with
          | InvitationNotFoundError _ | InvitationExpiredError =>
              throw (AuthError "This invitation is invalid or has expired" "INVALID_INVITATION" 400)
          | _ => throw e
          end).

Definition assertEmailVerified (emailVerifiedAt : option Z) : M unit :=
  if is_null emailVerifiedAt then throw emailNotVerifiedError else mret tt.

(** [isUniqueViolation(error, "users_email_key")] becomes the pre-check's error. *)
Definition friendly_email_error {A} (m : M A) : M A :=
  catch m (λ e, match e with
                | UniqueViolation "users_email_key" => throw emailExistsError
                | _ => throw e
                end).

(** ** Registration and login *)

Definition register (email : jsstring) (password : string) (name : option jsstring)
    (emailSender : VerificationMailer) (invitationToken : option string) : M (user_row * bool) :=
  let normalizedEmail := toLowerCase (trim email) in
  _ ← (match invitationToken with
       | Some t => if String.eqb t EmptyString then mret tt else validateInvitationRecipient t normalizedEmail
       | None => mret tt
       end);
  existingUser ← select_first users (λ u, bool_decide (u.(us_email) = normalizedEmail));
  match existingUser with
  | Some _ => throw emailExistsError
  | None =>
      passwordHash ← hashPassword password;
      created ← friendly_email_error (transaction (
        id ← randomUUID;
        now ← db_now;
        let user := mkUser id (if truthy name then name else None) normalizedEmail None passwordHash None now now in
        _ ← insert_row users user;
        token ← issueAuthToken id email_verification EMAIL_VERIFICATION_TTL_MS true;
        mret (user, token)));
      let '(user, token) := created in
      let sent := emailSender user.(us_email) token invitationToken in
      _ ← when (negb sent) (catch (discardAuthToken token) (λ _, mret tt));
      mret (user, sent)
  end.

(** [login] up to the session: who the credentials belong to. *)
Definition check_credentials (email : jsstring) (password : string) : M user_row :=
  user ← select_first users (λ u, bool_decide (u.(us_email) = toLowerCase email));
  match user with
  | None => throw invalidCredentials
  | Some u =>
      if negb (verifyPassword password u.(us_password_hash)) then throw invalidCredentials
      else
        _ ← when (is_null u.(us_email_verified_at))
              (_ ← delete_where user_sessions (session_of u.(us_id));
               assertEmailVerified u.(us_email_verified_at));
        mret u
  end.

(** The transaction of [login]: [None] when the account has become unverified. *)
Definition open_session (userId : string) (device : DeviceInfo)
    : M (option (user_row * AuthTokens * user_session_row)) :=
  transaction (
    locked ← select_first users (user_is userId);
    match locked with
    | None => throw (OtherError "no result")
    | Some u =>
        if is_null u.(us_email_verified_at) then
          _ ← delete_where user_sessions (session_of u.(us_id)); mret None
        else
          placeholder ← generateToken;
          expires ← getRefreshTokenExpiry;
          id ← randomUUID;
          now ← db_now;
          let session := mkUserSession id u.(us_id) device (hashToken placeholder) (RetiredArray [])
                           now now expires in
          _ ← insert_row user_sessions session;
          accessToken ← generateAccessToken u.(us_id) id;
          refreshToken ← generateRefreshToken id;
          _ ← update user_sessions (session_is id) (set_refresh (hashToken refreshToken));
          mret (Some (u, mkAuthTokens accessToken refreshToken, session))
    end).

Definition login (email : jsstring) (password : string) (device : DeviceInfo)
    : M (user_row * AuthTokens * user_session_row) :=
  user ← check_credentials email password;
  opened ← open_session user.(us_id) device;
  match opened with Some r => mret r | None => throw emailNotVerifiedError end.

(** ** Verification *)

(** The live token with a hash. *)
Definition live_auth_token (type : AuthTokenType) (hash : string) (now : Z) (r : auth_token_row) : bool :=
  bool_decide (r.(at_token_hash) = hash) && bool_decide (r.(at_type) = type)
  && is_null r.(at_used_at) && (now <? r.(at_expires_at))%Z.

(** The errors of an invitation that verification survives. *)
Definition survivable (e : err) : bool :=
  match e with
  | InvitationNotFoundError _ | InvitationExpiredError | InvitationEmailMismatchError
  | UserAlreadyMemberError _ | CompanyNotFoundError _ => true
  | _ => false
  end.

Definition verifyEmail (token : string) (invitationToken : option string)
    : M (user_row * option string) :=
  verified ← transaction (
    at_ ← toDbDate;
    stored ← select_first auth_tokens (live_auth_token email_verification (hashToken token) at_);
    match stored with
    | None => throw (AuthError "Invalid or expired verification token" "INVALID_TOKEN" 400)
    | Some t =>
        now ← toDbDate;
        updated ← update_returning users (user_is t.(at_user_id)) (set_verified now);
        match updated with
        | [] => throw (OtherError "no result")
        | user :: _ =>
            accepted ← (match invitationToken with
              | Some i =>
                  if String.eqb i EmptyString then mret None
                  else catch (a ← acceptInvitationInTransaction i user.(us_id); mret (Some a))
                         (λ e, if survivable e then mret None else throw e)
              | None => mret None
              end);
            _ ← update auth_tokens
                  (λ r, bool_decide (r.(at_user_id) = t.(at_user_id))
                        && bool_decide (r.(at_type) = email_verification) && is_null r.(at_used_at))
                  (use_auth_token now);
            mret (user, accepted)
        end
    end);
  let '(user, accepted) := verified in
  match accepted with
  | Some a => _ ← completeInvitationAcceptance a; mret (user, Some a.1.(co_id))
  | None => mret (user, None)
  end.

(** The answer is whether the address was verified already. *)
Definition resendVerification (email : jsstring) (password : string)
    (emailSender : VerificationMailer) (invitationToken : option string) : M bool :=
  user ← select_first users (λ u, bool_decide (u.(us_email) = toLowerCase (trim email)));
  match user with
  | None => throw invalidCredentials
  | Some u =>
      if negb (verifyPassword password u.(us_password_hash)) then throw invalidCredentials
      else if negb (is_null u.(us_email_verified_at)) then mret true
      else
        deliverable ← (match invitationToken with
          | Some t =>
              if String.eqb t EmptyString then mret invitationToken
              else catch (_ ← validateInvitationRecipient t u.(us_email); mret (Some t))
                     (λ e, match e with
                           | AuthError _ code _ =>
                               if bool_decide (code ∈ ["INVALID_INVITATION"; "INVITATION_EMAIL_MISMATCH"])
                               then mret None else throw e
                           | _ => throw e
                           end)
          | None => mret None
          end);
        token ← issueAuthToken u.(us_id) email_verification EMAIL_VERIFICATION_TTL_MS false;
        if emailSender u.(us_email) token deliverable then mret false
        else
          _ ← catch (discardAuthToken token) (λ _, mret tt);
          throw (AuthError "We could not send a verification email. Please try again later."
                   "VERIFICATION_EMAIL_DELIVERY_FAILED" 503)
  end.

(** ** Passwords *)

(** The reset token that is sent, if the address has an account. *)
Definition forgotPassword (email : jsstring) : M (option string) :=
  user ← select_first users (λ u, bool_decide (u.(us_email) = toLowerCase email));
  match user with
  | None => mret None
  | Some u =>
      token ← issueAuthToken u.(us_id) password_reset PASSWORD_RESET_TTL_MS true; mret (Some token)
  end.

Definition resetPassword (token newPassword : string) : M unit :=
  passwordHash ← hashPassword newPassword;
  transaction (
    at_ ← toDbDate;
    stored ← select_first auth_tokens (live_auth_token password_reset (hashToken token) at_);
    match stored with
    | None => throw (AuthError "Invalid or expired reset token" "INVALID_TOKEN" 400)
    | Some t =>
        now ← toDbDate;
        _ ← update users (user_is t.(at_user_id)) (set_password passwordHash now);
        _ ← update auth_tokens (λ r, bool_decide (r.(at_id) = t.(at_id))) (use_auth_token now);
        _ ← delete_where user_sessions (session_of t.(at_user_id));
        mret tt
    end).

Definition changePassword (userId currentSessionId currentPassword newPassword : string) : M nat :=
  user ← select_first users (user_is userId);
  match user with
  | None => throw (AuthError "User not found" "USER_NOT_FOUND" 404)
  | Some u =>
      if negb (verifyPassword currentPassword u.(us_password_hash))
      then throw (AuthError "Current password is incorrect" "INVALID_CURRENT_PASSWORD" 401)
      else if verifyPassword newPassword u.(us_password_hash)
      then throw (AuthError "New password must be different from your current password" "PASSWORD_UNCHANGED" 400)
      else
        passwordHash ← hashPassword newPassword;
        transaction (
          now ← toDbDate;
          _ ← update users (user_is userId) (set_password passwordHash now);
          delete_where user_sessions
            (λ r, session_of userId r && negb (bool_decide (r.(se_id) = currentSessionId))))
  end.

(** ** Sessions *)

Definition refreshSession (refreshToken : string) : M AuthTokens :=
  payload ← verifyRefreshToken refreshToken;
  match payload with
  | None => throw (AuthError "Invalid refresh token" "INVALID_TOKEN" 401)
  | Some (sessionId, _) =>
      let presentedHash := hashToken refreshToken in
      let graceMs := (JWT_REFRESH_REUSE_GRACE_SECONDS * 1000)%Z in
      result ← transaction (
        at_ ← toDbDate;
        sessions ← select user_sessions (λ r, session_is sessionId r && (at_ <? r.(se_expires_at))%Z);
        people ← select users (λ _, true);
        let session := head (omap (λ r, pair r <$> first (user_is r.(se_user_id)) people) sessions) in
        match session with
        | None => throw (AuthError "Session not found, expired, or refresh token already used" "SESSION_EXPIRED" 401)
        | Some (session, user) =>
            let isCurrentToken := bool_decide (session.(se_refresh_token) = presentedHash) in
            let retired := readRetiredRefreshTokens session.(se_previous_refresh_tokens) in
            isRetry ← (if isCurrentToken then mret false
                       else now ← toDbDate; mret (isRetiredRefreshTokenAccepted retired presentedHash now));
            if negb isCurrentToken && negb isRetry
            then throw (AuthError "Session not found, expired, or refresh token already used" "SESSION_EXPIRED" 401)
            else if is_null user.(us_email_verified_at) then
              _ ← delete_where user_sessions (session_is session.(se_id)); mret None
            else
              accessToken ← generateAccessToken session.(se_user_id) session.(se_id);
              newRefreshToken ← generateRefreshToken session.(se_id);
              now ← toDbDate;
              active ← toDbDate;
              expires ← getRefreshTokenExpiry;
              _ ← update user_sessions (session_is session.(se_id))
                    (rotate_session (hashToken newRefreshToken)
                       (retired_json (retainSupersededRefreshToken retired session.(se_refresh_token) now graceMs))
                       active expires);
              mret (Some (mkAuthTokens accessToken newRefreshToken))
        end);
      match result with Some tokens => mret tokens | None => throw emailNotVerifiedError end
  end.

Definition revokeSession (sessionId userId : string) : M unit :=
  deleted ← delete_where user_sessions (λ r, session_is sessionId r && session_of userId r);
  if (deleted =? 0)%nat then throw (AuthError "Session not found" "SESSION_NOT_FOUND" 404) else mret tt.

Definition revokeAllSessions (userId : string) (exceptSessionId : option string) : M nat :=
  delete_where user_sessions
    (λ r, session_of userId r
          && match exceptSessionId with
             | None | Some EmptyString => true
             | Some x => negb (session_is x r)
             end).

Definition last_active_first (a b : user_session_row) : Prop := (b.(se_last_active_at) <= a.(se_last_active_at))%Z.
#[export] Instance last_active_first_dec : RelDecision last_active_first.
Proof. intros a b. unfold last_active_first. apply _. Defined.

Definition getUserSessions (userId : string) : M (list user_session_row) :=
  now ← toDbDate;
  sessions ← select user_sessions (λ r, session_of userId r && (now <? r.(se_expires_at))%Z);
  mret (merge_sort last_active_first sessions).

Definition getUserById (userId : string) : M (option user_row) := select_first users (user_is userId).

Definition hasActiveSession (sessionId userId : string) : M bool :=
  now ← toDbDate;
  session ← select_first user_sessions
    (λ r, session_is sessionId r && session_of userId r && (now <? r.(se_expires_at))%Z);
  mret (negb (is_null session)).

Definition updateSessionActivity (sessionId : string) : M unit :=
  now ← toDbDate; _ ← update user_sessions (session_is sessionId) (touch_session now); mret tt.

(** ** Profile *)

Section profile.
Context (uploadProfileAvatar : string → jsstring → M string) (deleteMedia : string → M unit).

Definition profile_row (input : UpdateProfileInput) (emailChanged : bool) (newEmail : jsstring)
    (avatarKey : option string) (now : Z) (u : user_row) : user_row :=
  mkUser u.(us_id) (match input.(up_name) with Some n => Some n | None => u.(us_name) end)
    (if emailChanged then newEmail else u.(us_email))
    (match input.(up_avatar) with Some _ => avatarKey | None => u.(us_avatar_key) end)
    u.(us_password_hash) (if emailChanged then None else u.(us_email_verified_at)) u.(us_created_at) now.

Definition updateProfile (userId : string) (input : UpdateProfileInput) (emailSender : VerificationMailer)
    : M (user_row * bool * bool) :=
  found ← select_first users (user_is userId);
  match found with
  | None => throw (AuthError "User not found" "USER_NOT_FOUND" 404)
  | Some current =>
      let normalizedEmail := (λ e, toLowerCase (trim e)) <$> input.(up_email) in
      let newEmail := default [] normalizedEmail in
      let emailChanged := match normalizedEmail with
                          | Some e => negb (bool_decide (e = current.(us_email))) | None => false end in
      _ ← when emailChanged (
        match input.(up_currentPassword) with
        | None | Some EmptyString =>
            throw (AuthError "Enter your current password to change your email" "CURRENT_PASSWORD_REQUIRED" 400)
        | Some p =>
            if negb (verifyPassword p current.(us_password_hash))
            then throw (AuthError "Current password is incorrect" "INVALID_CURRENT_PASSWORD" 401)
            else
              existing ← select_first users
                (λ u, bool_decide (u.(us_email) = newEmail) && negb (user_is userId u));
              match existing with Some _ => throw emailExistsError | None => mret tt end
        end);
      uploadedAvatarKey ← (match input.(up_avatar) with
                           | Some (Some data) => key ← uploadProfileAvatar userId data; mret (Some key)
                           | _ => mret None
                           end);
      now ← toDbDate;
      updated ← catch
        (transaction (
           rows ← update_returning users (user_is userId)
                    (profile_row input emailChanged newEmail uploadedAvatarKey now);
           match rows with
           | [] => throw (OtherError "no result")
           | user :: _ =>
               token ← (if emailChanged && truthy (Some newEmail)
                        then t ← issueAuthToken userId email_verification EMAIL_VERIFICATION_TTL_MS true;
                             _ ← delete_where user_sessions (session_of userId);
                             mret (Some t)
                        else mret None);
               mret (user, token)
           end))
        (λ e, _ ← (match uploadedAvatarKey with
                   | Some key => catch (deleteMedia key) (λ _, mret tt) | None => mret tt end);
              match e with
              | UniqueViolation "users_email_key" => throw emailExistsError
              | _ => throw e
              end);
      let '(user, verificationToken) := updated in
      sent ← (match verificationToken with
              | Some t =>
                  if truthy (Some newEmail) then
                    let sent := emailSender newEmail t None in
                    _ ← when (negb sent) (catch (discardAuthToken t) (λ _, mret tt));
                    mret sent
                  else mret false
              | None => mret false
              end);
      _ ← (match input.(up_avatar), current.(us_avatar_key) with
           | Some _, Some old =>
               when (negb (bool_decide (user.(us_avatar_key) = Some old)))
                 (catch (deleteMedia old) (λ _, mret tt))
           | _, _ => mret tt
           end);
      mret (user, emailChanged, sent)
  end.
End profile.
End sessions.
