(* ===== verification/AccessControl.v ===== *)
(** Who a request acts for, and what it may do.

    Models middleware/auth.ts, mcp-auth.ts, tenant-context.ts, role.ts, permission.ts
    and resource-visibility.ts, and the handlers of routes/companies/members.ts,
    permissions.ts, invitations.ts, crud.ts and of routes/api-tokens.ts that change
    state.  A refusal is a thrown [HTTPException], also where the middleware answers
    with a response of that status; an error of a service keeps its class, its
    translation to a status is not modelled. *)

From S2P Require Import Prelude Js Permissions PublicRows TenantDb PublicDb OAuth Workflow Team Sessions.

(** ** What a request carries *)

Record request_user := mkRequestUser { ru_user : user_row; ru_session : string }.

(** The variables that the tenant middleware sets. *)
Record tenant_context := mkTenant {
  tc_user : string; tc_companyId : string; tc_role : CompanyMemberRole;
  tc_permissions : MemberPermissions }.

(** [c.get("apiToken")], with the tenant of the token. *)
Record mcp_context := mkMcp {
  mc_tenant : tenant_context; mc_tokenId : string; mc_scopes : list ApiTokenScope }.

Definition permission_name (p : Permission) : string :=
  match p with
  | can_view_all_chats => "can_view_all_chats" | can_send_messages => "can_send_messages"
  | can_send_bulk_messages => "can_send_bulk_messages" | can_assign_contacts => "can_assign_contacts"
  | can_manage_team => "can_manage_team" | can_invite => "can_invite"
  | can_manage_connections => "can_manage_connections" | can_view_dashboard => "can_view_dashboard"
  | can_view_audit => "can_view_audit" | can_export => "can_export" | can_delete => "can_delete"
  end.
Definition permission_names (ps : list Permission) : string := String.concat ", " (permission_name <$> ps).

Definition refuse {A} (status : Z) (message : string) : M A := throw (HTTPException status message).

(** ** auth.ts *)

Definition extractToken (authHeader : option jsstring) : option jsstring :=
  match authHeader with
  | None | Some [] => None
  | Some header =>
      match split_on 32 header with
      | [scheme; token] => if bool_decide (scheme = js "Bearer") then Some token else None
      | _ => None
      end
  end.

(** The token of a request, as the ASCII string that the services compare; an empty one is
    no token. *)
Definition bearer (authHeader : option jsstring) : option string :=
  match extractToken authHeader with
  | Some ((_ :: _) as t) => Some (string_of_js t)
  | _ => None
  end.

Section access.
Context `{Oracle} `{Crypto} `{CaseMapping} `{AuthEnv}.

(** Its write of last_active_at is not awaited and its failures are swallowed. *)
Definition authMiddleware (authHeader : option jsstring) : M request_user :=
  match bearer authHeader with
  | None => refuse 401 "Missing or invalid Authorization header"
  | Some token =>
      payload ← verifyAccessToken token;
      match payload with
      | None => refuse 401 "Invalid or expired token"
      | Some (userId, sessionId) =>
          user ← getUserById userId;
          sessionIsActive ← hasActiveSession sessionId userId;
          match user, sessionIsActive with
          | Some u, true =>
              _ ← catch (updateSessionActivity sessionId) (λ _, mret tt);
              mret (mkRequestUser u sessionId)
          | _, _ => refuse 401 "User session is no longer active"
          end
      end
  end.

Definition requireEmailVerification (user : option request_user) : M unit :=
  match user with
  | None => refuse 401 "Authentication required"
  | Some u =>
      if is_null u.(ru_user).(us_email_verified_at) then refuse 403 "Email verification required"
      else mret tt
  end.

(** ** tenant-context.ts *)

Definition hex_digit (c : Z) : bool :=
  is_digit c || ((97 <=? c)%Z && (c <=? 102)%Z) || ((65 <=? c)%Z && (c <=? 70)%Z).

(** [/^[0-9a-f]{8}-[0-9a-f]{4}-[1-5][0-9a-f]{3}-[89ab][0-9a-f]{3}-[0-9a-f]{12}$/i] *)
Definition is_uuid (s : jsstring) : bool :=
  match split_on 45 s with
  | [a; b; v :: c; w :: d; e] =>
      forallb hex_digit (a ++ b ++ c ++ d ++ e)
      && bool_decide (length a = 8%nat) && bool_decide (length b = 4%nat) && bool_decide (length c = 3%nat)
      && bool_decide (length d = 3%nat) && bool_decide (length e = 12%nat)
      && (49 <=? v)%Z && (v <=? 53)%Z && bool_decide (w ∈ js "89abAB")
  | _ => false
  end.

(** With the company id from the header or the route, [None] when it is absent, and where it
    comes from.  The answer is [None] when there is no tenant and none is required. *)
Definition tenantMiddleware (source : string) (required : bool) (requiredRole : option CompanyMemberRole)
    (companyId : option string) (user : option string) : M (option tenant_context) :=
  match companyId with
  | None | Some EmptyString => 
      if required then refuse 400 (String.append "Company ID is required. Provide it via " source)
      else mret None
  | Some companyId =>
      if negb (is_uuid (js companyId)) then refuse 400 "Invalid company ID format"
      else
        match user with
        | None | Some EmptyString => refuse 401 "Authentication required"
        | Some userId =>
            memberData ← read_member_data companyId userId;
            match memberData with
            | None => refuse 403 "You are not a member of this company"
            | Some (role, permissions) =>
                if match requiredRole with
                   | Some r => (roleRank role <? roleRank r)%Z | None => false end
                then refuse 403 (String.append "This action requires "
                       (String.append (role_name (default role requiredRole)) " role or higher"))
                else mret (Some (mkTenant userId companyId role permissions))
            end
        end
  end.

(** [tenantFromParam(name, requiredRole)]: the options it passes override the default
    [requiredRole], also with undefined. *)
Definition tenantFromParam (requiredRole : option CompanyMemberRole) (companyId userId : string)
    : M tenant_context :=
  c ← tenantMiddleware "param" true requiredRole (Some companyId) (Some userId);
  match c with Some c => mret c | None => refuse 400 "Company ID is required. Provide it via param" end.

(** ** role.ts and permission.ts *)

Definition requireAdmin (c : tenant_context) : M unit :=
  if bool_decide (c.(tc_role) ∈ [owner; admin]) then mret tt else refuse 403 "Admin privileges required".
Definition requireOwner (c : tenant_context) : M unit :=
  if bool_decide (c.(tc_role) = owner) then mret tt else refuse 403 "Owner privileges required".
Definition requirePermission (p : Permission) (c : tenant_context) : M unit :=
  if c.(tc_permissions) p then mret tt
  else refuse 403 (String.append "Permission denied: " (String.append (permission_name p) " is required")).
Definition requireAllPermissions (ps : list Permission) (c : tenant_context) : M unit :=
  let missing := keep (negb ∘ c.(tc_permissions)) ps in
  if (0 <? length missing)%nat
  then refuse 403 (String.append "Permission denied: missing " (permission_names missing))
  else mret tt.
Definition requireAnyPermission (ps : list Permission) (c : tenant_context) : M unit :=
  if existsb c.(tc_permissions) ps then mret tt
  else refuse 403 (String.append "Permission denied: requires one of " (permission_names ps)).

(** ** resource-visibility.ts *)

Definition holds_contact (userId contactId : string) (a : assignment_row) : bool :=
  bool_decide (a.(ca_contact_id) = Some contactId) && bool_decide (a.(ca_assigned_to) = userId)
  && is_null a.(ca_unassigned_at).
Definition holds_conversation (userId conversationId : string) (a : assignment_row) : bool :=
  bool_decide (a.(ca_conversation_id) = Some conversationId) && bool_decide (a.(ca_assigned_to) = userId)
  && is_null a.(ca_unassigned_at).

Definition contact_visible (c : tenant_context) (contactId : string) : M bool :=
  hasContactVisibility (c.(tc_permissions) can_view_all_chats) c.(tc_user) contactId.

Definition requireConversationVisibility (c : tenant_context) (id : string) : M unit :=
  visible ← contact_visible c id;
  if (visible : bool) then mret tt
  else
    conversation ← select_first conversations
      (λ r, bool_decide (r.(cv_id) = id) && is_null r.(cv_archived_at));
    match conversation with
    | None => refuse 404 "Conversation not found"
    | Some v =>
        if c.(tc_permissions) can_view_all_chats then mret tt
        else
          a ← select_first assignments
            (λ a, holds_conversation c.(tc_user) v.(cv_id) a
                  || match v.(cv_legacy_contact_id) with
                     | Some k => negb (String.eqb k EmptyString) && holds_contact c.(tc_user) k a
                     | None => false
                     end);
          match a with Some _ => mret tt | None => refuse 404 "Conversation not found" end
    end.

Definition requireContactVisibility (c : tenant_context) (contactId : string) : M unit :=
  visible ← contact_visible c contactId;
  if (visible : bool) then mret tt else refuse 404 "Contact not found".

Definition requireMessageVisibility (c : tenant_context) (messageId : string) : M unit :=
  if c.(tc_permissions) can_view_all_chats then mret tt
  else
    message ← select_first messages (λ r, bool_decide (r.(ms_id) = messageId));
    match message with
    | None => refuse 404 "Message not found"
    | Some m =>
        visible ← (match m.(ms_contact_id) with
                   | Some k => if String.eqb k EmptyString then mret false else contact_visible c k
                   | None => mret false
                   end);
        if (visible : bool) then mret tt
        else
          match m.(ms_conversation_id) with
          | Some v =>
              if String.eqb v EmptyString then refuse 404 "Message not found"
              else
                a ← select_first assignments (holds_conversation c.(tc_user) v);
                match a with Some _ => mret tt | None => refuse 404 "Message not found" end
          | None => refuse 404 "Message not found"
          end
    end.

(** ** mcp-auth.ts *)

Definition mcpAuthMiddleware (canonicalResource : string) (authHeader : option jsstring) : M mcp_context :=
  match bearer authHeader with
  | None => refuse 401 "An API token (wti_...) is required in the Authorization header"
  | Some token =>
      if negb (String.prefix API_TOKEN_PREFIX token)
      then refuse 401 "An API token (wti_...) is required in the Authorization header"
      else
        verified ← verifyApiToken token;
        match verified with
        | None => refuse 401 "Invalid, expired, or revoked API token"
        | Some v =>
            if some_differs v.(vt_resource) canonicalResource
            then refuse 401 "This token was not issued for this MCP server"
            else
              user ← getUserById v.(vt_userId);
              match user with
              | None => refuse 401 "Token owner no longer exists"
              | Some u =>
                  memberData ← read_member_data v.(vt_companyId) v.(vt_userId);
                  match memberData with
                  | None => refuse 403 "Token owner is no longer a member of this workspace"
                  | Some (role, permissions) =>
                      mret (mkMcp (mkTenant u.(us_id) v.(vt_companyId) role permissions)
                              v.(vt_id) v.(vt_scopes))
                  end
              end
        end
  end.

(** ** routes/companies: the handlers that change a workspace *)

(** POST /:id/transfer-ownership *)
Definition transfer_ownership_route (companyId currentUser userId : string) : M unit :=
  c ← tenantFromParam (Some owner) companyId currentUser;
  transferOwnership c.(tc_companyId) currentUser userId.

(** POST /:id/leave *)
Definition leave_route (companyId currentUser : string) : M unit :=
  c ← tenantFromParam None companyId currentUser;
  if bool_decide (c.(tc_role) = owner)
  then refuse 400 "Transfer ownership before leaving this workspace"
  else removeMember c.(tc_companyId) currentUser.

(** The check that the two member handlers share. *)
Definition require_rank_above (c : tenant_context) (userId action : string) : M unit :=
  targetRole ← getMemberRole c.(tc_companyId) userId;
  if match targetRole with
     | Some r => canManageMember c.(tc_role) r
     | None => false
     end
  then mret tt
  else throw (InsufficientPermissionsError action).

(** PATCH /:id/members/:userId *)
Definition update_role_route (companyId currentUser userId : string) (role : InvitedRole) : M member_row :=
  c ← tenantFromParam None companyId currentUser;
  _ ← requirePermission can_manage_team c;
  _ ← require_rank_above c userId "change a member at or above your role";
  updateMemberRole c.(tc_companyId) userId role.

(** DELETE /:id/members/:userId *)
Definition remove_member_route (companyId currentUser userId : string) : M unit :=
  c ← tenantFromParam None companyId currentUser;
  _ ← requirePermission can_manage_team c;
  if bool_decide (currentUser = userId) then refuse 400 "You cannot remove yourself from the company"
  else
    _ ← require_rank_above c userId "remove a member at or above your role";
    removeMember c.(tc_companyId) userId.

(** PATCH /:id/members/:userId/permissions and its reset *)
Definition update_permissions_route (companyId currentUser userId : string) (p : PartialPermissions)
    : M MemberPermissions :=
  c ← tenantFromParam (Some owner) companyId currentUser;
  updateMemberPermissions c.(tc_companyId) userId p.
Definition reset_permissions_route (companyId currentUser userId : string) : M MemberPermissions :=
  c ← tenantFromParam (Some owner) companyId currentUser;
  resetMemberPermissions c.(tc_companyId) userId.

(** POST /:id/invitations, DELETE and resend *)
Definition invite_route (companyId currentUser : string) (input : InviteMemberInput) (send : Mailer)
    : M invitation_row :=
  c ← tenantFromParam None companyId currentUser;
  _ ← requirePermission can_invite c;
  inviteMember c.(tc_companyId) input currentUser send.
Definition cancel_invitation_route (companyId currentUser invitationId : string) : M unit :=
  c ← tenantFromParam None companyId currentUser;
  _ ← requirePermission can_invite c;
  cancelInvitation c.(tc_companyId) invitationId.
Definition resend_invitation_route (companyId currentUser invitationId : string) (send : Mailer)
    : M invitation_row :=
  c ← tenantFromParam None companyId currentUser;
  _ ← requirePermission can_invite c;
  resendInvitation c.(tc_companyId) invitationId currentUser send.

(** DELETE /:id *)
Definition delete_company_route (companyId currentUser : string) : M unit :=
  c ← tenantFromParam (Some owner) companyId currentUser;
  deleteCompany c.(tc_companyId).

(** PATCH /:id, with the storage of images *)
Definition update_company_route (uploadWorkspaceLogo : string → M string) (deleteMedia : string → M unit)
    (companyId currentUser : string) (input : UpdateCompanyInput) : M company_row :=
  c ← tenantFromParam (Some admin) companyId currentUser;
  if negb (is_null input.(uc_status)) && negb (bool_decide (c.(tc_role) = owner))
  then throw (ForbiddenError "Only the owner can change company status")
  else updateCompany uploadWorkspaceLogo deleteMedia c.(tc_companyId) input.

(** ** routes/api-tokens.ts *)

(** DELETE /api-tokens/:id and /api-tokens/connected-apps/:id *)
Definition revoke_token_route (c : tenant_context) (tokenId : string) : M unit :=
  revoked ← revokeApiToken tokenId c.(tc_companyId) c.(tc_user) (negb (bool_decide (c.(tc_role) = member)));
  match revoked with Some _ => mret tt | None => refuse 404 "API token not found" end.
Definition disconnect_route (c : tenant_context) (grantId : string) : M unit :=
  revoked ← revokeConnectedApp grantId c.(tc_companyId) c.(tc_user)
              (bool_decide (c.(tc_role) ∈ [owner; admin]));
  if (revoked : bool) then mret tt else refuse 404 "Connected app not found".

(** ** routes/oauth.ts: POST /authorize after the validation of the request *)

(** The user may only grant access to a workspace they are in. *)
Definition approve_check (userId companyId : string) : M unit :=
  workspaces ← getUserCompanies userId;
  if existsb (λ w, bool_decide (w.1.1.(co_id) = companyId)) workspaces then mret tt
  else refuse 403 "You are not a member of that workspace".

Definition approve_route (input : CreateAuthorizationCodeInput) : M string :=
  _ ← approve_check input.(ci_userId) input.(ci_companyId);
  createAuthorizationCode input.
End access.
