(* ===== verification/Credentials.v ===== *)
(** How requests may change grants, tokens and codes.

    [kept t t'] is the preorder that every operation of the system respects: rows of
    grants and tokens stay, what identifies them never changes, and a revocation or a
    spent refresh token is never undone.  Operations are proved steady for it
    statement by statement. *)

From S2P Require Import Prelude Js Permissions PublicRows TenantDb PublicDb Exec Steady OAuth Workflow Team Sessions.

(** ** What identifies a row *)

Definition grant_identity (g : grant_row) : string * string * string * string * list ApiTokenScope * string :=
  (g.(gr_id), g.(gr_user_id), g.(gr_company_id), g.(gr_client_id), g.(gr_scopes), g.(gr_resource)).
Definition token_identity (r : api_token_row)
    : string * string * string * string * list ApiTokenScope * option string * option string :=
  (r.(tk_id), r.(tk_user_id), r.(tk_company_id), r.(tk_token_hash), r.(tk_scopes), r.(tk_grant_id),
   r.(tk_refresh_token_hash)).

(** A later version of a row. *)
Definition grant_later (g g' : grant_row) : Prop :=
  grant_identity g' = grant_identity g ∧ (is_Some g.(gr_revoked_at) → is_Some g'.(gr_revoked_at)).
Definition token_later (r r' : api_token_row) : Prop :=
  token_identity r' = token_identity r
  ∧ (is_Some r.(tk_revoked_at) → is_Some r'.(tk_revoked_at))
  ∧ (is_Some r.(tk_refresh_used_at) → is_Some r'.(tk_refresh_used_at)).

#[export] Instance grant_later_preorder : PreOrder grant_later.
Proof. split; [by split|]. intros a b c [H1 H2] [H3 H4]. split; [congruence|auto]. Qed.
#[export] Instance token_later_preorder : PreOrder token_later.
Proof. split; [by split|]. intros a b c (H1&H2&H3) (H4&H5&H6). split_and!; [congruence|auto|auto]. Qed.

(** Every row of a table has a later version. *)
Definition rows_later {A} (later : A → A → Prop) (l l' : list A) : Prop :=
  ∀ r, r ∈ l → ∃ r', r' ∈ l' ∧ later r r'.

#[export] Instance rows_later_preorder {A} (later : A → A → Prop) `{!PreOrder later} :
  PreOrder (rows_later later).
Proof.
  split; [intros l r Hr; by exists r|]. intros l1 l2 l3 H12 H23 r Hr.
  destruct (H12 r Hr) as (r' & Hr' & Hl). destruct (H23 r' Hr') as (r'' & Hr'' & Hl').
  exists r''. split; [done|by transitivity r'].
Qed.

Lemma rows_later_update {A} (later : A → A → Prop) `{!PreOrder later} p f l :
  (∀ r, later r (f r)) → rows_later later l (update_where p f l).
Proof.
  intros Hf r Hr. exists (if p r then f r else r). split.
  - apply elem_of_update_where. by exists r.
  - by destruct (p r).
Qed.

Lemma rows_later_app {A} (later : A → A → Prop) `{!PreOrder later} l k : rows_later later l (l ++ k).
Proof. intros r Hr. exists r. split; [apply elem_of_app; by left|done]. Qed.

(** ** The preorder *)

Definition grants (t : tables) : list grant_row := rows oauth_grants t.
Definition tokens (t : tables) : list api_token_row := rows api_tokens t.
Definition codes (t : tables) : list code_row := rows oauth_authorization_codes t.
Definition memberships (t : tables) : list member_row := rows company_members t.

(** The indexes and checks of the two tables hold. *)
Definition indexed (t : tables) : Prop :=
  constraint oauth_grants (grants t) = None ∧ constraint api_tokens (tokens t) = None.

Definition kept (t t' : tables) : Prop :=
  rows_later grant_later (grants t) (grants t') ∧ rows_later token_later (tokens t) (tokens t')
  ∧ (indexed t → indexed t').

#[export] Instance kept_preorder : PreOrder kept.
Proof.
  split; [by split|]. intros t1 t2 t3 (H1&H2&H3) (H4&H5&H6).
  split_and!; [by transitivity (grants t2)|by transitivity (tokens t2)|auto].
Qed.

Lemma kept_same t t' : grants t' = grants t → tokens t' = tokens t → kept t t'.
Proof. intros H1 H2. unfold kept, indexed. by rewrite H1, H2. Qed.

(** The grant behind a token exists and agrees with it. *)
Definition links (t : tables) (r : api_token_row) : Prop :=
  ∀ g, r.(tk_grant_id) = Some g →
  ∃ gr, gr ∈ grants t ∧ gr.(gr_id) = g ∧ gr.(gr_user_id) = r.(tk_user_id)
        ∧ gr.(gr_company_id) = r.(tk_company_id) ∧ gr.(gr_scopes) = r.(tk_scopes).
Definition linked (t : tables) : Prop := ∀ r, r ∈ tokens t → links t r.

Lemma links_kept t t' r r' : kept t t' → token_later r r' → links t r → links t' r'.
Proof.
  intros (Hg&_&_) (Hi&_&_) Hl g Hgr. unfold token_identity in Hi. simplify_eq.
  destruct (Hl g) as (gr & Hin & ? & ? & ? & ?); [congruence|].
  destruct (Hg gr Hin) as (gr' & Hin' & Hid & _). exists gr'.
  unfold grant_identity in Hid. simplify_eq. split_and!; congruence.
Qed.

(** [kept], and every token is a later version of one or hangs off a grant that it agrees
    with. *)
Definition grows (t t' : tables) : Prop :=
  kept t t' ∧ ∀ r', r' ∈ tokens t' → (∃ r, r ∈ tokens t ∧ token_later r r') ∨ links t' r'.

#[export] Instance grows_preorder : PreOrder grows.
Proof.
  split; [intros t; split; [done|intros r Hr; left; by exists r]|].
  intros t1 t2 t3 [K12 N12] [K23 N23]. split; [by transitivity t2|]. intros r3 H3.
  destruct (N23 r3 H3) as [(r2 & H2 & L23)|]; [|by right].
  destruct (N12 r2 H2) as [(r1 & H1 & L12)|L2]; [left; exists r1; split; [done|by transitivity r2]|].
  right. by eapply links_kept.
Qed.

Lemma grows_kept t t' : grows t t' → kept t t'.
Proof. by intros [? _]. Qed.

Lemma grows_linked t t' : grows t t' → linked t → linked t'.
Proof.
  intros [K N] Hl r' Hr'. destruct (N r' Hr') as [(r & Hr & L)|]; [|done].
  eapply links_kept; [done..|]. by apply Hl.
Qed.

Lemma grows_same t t' : grants t' = grants t → tokens t' = tokens t → grows t t'.
Proof.
  intros H1 H2. split; [by apply kept_same|]. intros r. rewrite H2. intros Hr. left. by exists r.
Qed.

(** The other tables are free. *)
#[export] Instance grows_codes : Frame grows oauth_authorization_codes.
Proof. intros l t. by apply grows_same. Qed.
#[export] Instance grows_members : Frame grows company_members.
Proof. intros l t. by apply grows_same. Qed.
#[export] Instance grows_users : Frame grows users.
Proof. intros l t. by apply grows_same. Qed.
#[export] Instance grows_companies : Frame grows companies.
Proof. intros l t. by apply grows_same. Qed.
#[export] Instance grows_stats : Frame grows company_stats.
Proof. intros l t. by apply grows_same. Qed.
#[export] Instance grows_invitations : Frame grows invitations.
Proof. intros l t. by apply grows_same. Qed.
#[export] Instance grows_sessions : Frame grows user_sessions.
Proof. intros l t. by apply grows_same. Qed.
#[export] Instance grows_auth_tokens : Frame grows auth_tokens.
Proof. intros l t. by apply grows_same. Qed.
#[export] Instance grows_clients : Frame grows oauth_clients.
Proof. intros l t. by apply grows_same. Qed.
#[export] Instance grows_invalidations : Frame grows membership_invalidations.
Proof. intros l t. by apply grows_same. Qed.
#[export] Instance grows_policies : Frame grows sla_policies.
Proof. intros l t. by apply grows_same. Qed.

(** Updates that keep what identifies a row keep the indexes. *)
Lemma grants_constraint_update p f l :
  constraint oauth_grants l = None → (∀ g, grant_identity (f g) = grant_identity g) →
  constraint oauth_grants (update_where p f l) = None.
Proof.
  cbn -[checks unique_on]. rewrite !checks_cons. intros (Hu & Hs & _) Hf.
  assert (Hid : ∀ g, gr_id (f g) = gr_id g ∧ gr_scopes (f g) = gr_scopes g).
  { intros g. specialize (Hf g). unfold grant_identity in Hf. by simplify_eq. }
  split_and!; [| |done].
  - apply unique_on_update; [done|]. intros g _ _. left. cbn. by rewrite (proj1 (Hid g)).
  - apply forallb_update; [done|]. intros g _ Hg _. cbn in *. by rewrite (proj2 (Hid g)).
Qed.
Lemma tokens_constraint_update p f l :
  constraint api_tokens l = None → (∀ r, token_identity (f r) = token_identity r) →
  constraint api_tokens (update_where p f l) = None.
Proof.
  cbn -[checks unique_on]. rewrite !checks_cons. intros (H1 & H2 & H3 & H4 & _) Hf.
  assert (Hid : ∀ r, tk_id (f r) = tk_id r ∧ tk_token_hash (f r) = tk_token_hash r
                     ∧ tk_refresh_token_hash (f r) = tk_refresh_token_hash r ∧ tk_scopes (f r) = tk_scopes r).
  { intros r. specialize (Hf r). unfold token_identity in Hf. by simplify_eq. }
  split_and!; [| | | |done].
  - apply unique_on_update; [done|]. intros r _ _. left. cbn. by rewrite (proj1 (Hid r)).
  - apply unique_on_update; [done|]. intros r _ _. left. cbn. f_equal. apply Hid.
  - apply unique_on_update; [done|]. intros r _ _. left. apply Hid.
  - apply forallb_update; [done|]. intros r _ Hr _. cbn in *. destruct (Hid r) as (_&_&_&->). done.
Qed.

Section statements.
Context `{Oracle}.

Lemma grows_put_grants l t :
  constraint oauth_grants l = None → rows_later grant_later (grants t) l → grows t (set_rows oauth_grants l t).
Proof.
  intros Hc Hl. split; [|intros r Hr; left; by exists r].
  split_and!; [done|done|]. intros [_ Ht]. by split.
Qed.
Lemma grows_put_tokens l t :
  constraint api_tokens l = None → rows_later token_later (tokens t) l →
  (∀ r', r' ∈ l → (∃ r, r ∈ tokens t ∧ token_later r r') ∨ links t r') →
  grows t (set_rows api_tokens l t).
Proof.
  intros Hc Hl Hn. split; [|done]. split_and!; [done|done|]. intros [Ht _]. by split.
Qed.

Lemma steady_update_grants p f :
  (∀ g, grant_later g (f g)) → steady grows (update oauth_grants p f).
Proof.
  intros Hf t. apply exec_update; [|done]. intros Hc.
  apply grows_put_grants; [done|]. by apply rows_later_update; [apply _|].
Qed.
Lemma steady_insert_grant g : steady grows (insert_row oauth_grants g).
Proof.
  intros t. apply exec_insert_row; [|done]. intros Hc.
  apply grows_put_grants; [done|]. by apply rows_later_app; apply _.
Qed.

Lemma grows_update_tokens p f t :
  (∀ r, token_later r (f r)) → constraint api_tokens (update_where p f (tokens t)) = None →
  grows t (set_rows api_tokens (update_where p f (tokens t)) t).
Proof.
  intros Hf Hc. apply grows_put_tokens; [done|by apply rows_later_update; [apply _|]|].
  intros r' (r & Hr & ->)%elem_of_update_where. left. exists r. split; [done|]. by destruct (p r).
Qed.
Lemma steady_update_tokens p f : (∀ r, token_later r (f r)) → steady grows (update api_tokens p f).
Proof. intros Hf t. apply exec_update; [|done]. by apply grows_update_tokens. Qed.
Lemma steady_update_tokens_returning p f :
  (∀ r, token_later r (f r)) → steady grows (update_returning api_tokens p f).
Proof. intros Hf t. apply exec_update_returning; [|done]. by apply grows_update_tokens. Qed.

(** A new token must hang off a grant that agrees with it, or off none. *)
Lemma exec_insert_token r t :
  links t r → exec (insert_row api_tokens r) t (λ _ t', grows t t') (λ _ t', grows t t').
Proof.
  intros Hl. apply exec_insert_row; [|done]. intros Hc.
  apply grows_put_tokens; [done|by apply rows_later_app; apply _|].
  intros r' [Hr| ->%list_elem_of_singleton]%elem_of_app; [left; by exists r'|by right].
Qed.
Lemma steady_insert_personal r : r.(tk_grant_id) = None → steady grows (insert_row api_tokens r).
Proof. intros Hr t. apply exec_insert_token. intros g. by rewrite Hr. Qed.
End statements.

Lemma revoke_grant_later now reason g : grant_later g (revoke_grant_row now reason g).
Proof. split; [done|]. by eexists. Qed.
Lemma touch_grant_later now g : grant_later g (touch_grant now g).
Proof. by split. Qed.
Lemma revoke_token_later now r : token_later r (revoke_token_row now r).
Proof. split_and!; [done|by eexists|done]. Qed.
Lemma use_token_later now r : token_later r (use_token_row now r).
Proof. by split_and!. Qed.
Lemma spend_refresh_later now r : token_later r (spend_refresh now r).
Proof. split_and!; [done|done|by eexists]. Qed.

#[export] Hint Resolve steady_update_grants steady_insert_grant steady_update_tokens
  steady_update_tokens_returning steady_insert_personal revoke_grant_later touch_grant_later
  revoke_token_later use_token_later spend_refresh_later : steady.

#[export] Hint Extern 1 (tk_grant_id _ = None) => reflexivity : steady.

(** ** The operations *)

Section operations.
Context `{Oracle} `{Crypto} `{CaseMapping} `{AuthEnv}.

Lemma steady_randomSecret (R : tables → tables → Prop) `{!PreOrder R} : steady R randomSecret.
Proof. unfold randomSecret. steady. Qed.
#[local] Hint Resolve steady_randomSecret : steady.

(** What [grows] says of the statements after the first. *)
Lemma exec_grows_bind {A B} (m : M A) (k : A → M B) t :
  steady grows m →
  (∀ a t1, grows t t1 → exec (k a) t1 (λ _ t', grows t1 t') (λ _ t', grows t1 t')) →
  exec (m ≫= k) t (λ _ t', grows t t') (λ _ t', grows t t').
Proof.
  intros Hm Hk. eapply exec_steady_bind; [apply Hm| |done]. intros a t1 Ht1.
  eapply exec_weaken; [by apply Hk|..]; intros x t2 Ht2; by transitivity t1.
Qed.

Lemma steady_createAuthorizationCode i : steady grows (createAuthorizationCode i).
Proof. unfold createAuthorizationCode. steady. Qed.

Lemma exec_issueTokens g u c sc n t :
  (∃ gr, gr ∈ grants t ∧ gr.(gr_id) = g ∧ gr.(gr_user_id) = u ∧ gr.(gr_company_id) = c ∧ gr.(gr_scopes) = sc) →
  exec (issueTokens g u c sc n) t (λ _ t', grows t t') (λ _ t', grows t t').
Proof.
  intros Hg. unfold issueTokens, randomSecret. exec_steps. eapply exec_weaken; [apply exec_insert_token|cbv beta; intros; by exec_step|done].
  intros g' [= <-]. exact Hg.
Qed.

Lemma steady_requireActiveMembership (R : tables → tables → Prop) `{!PreOrder R} c u :
  steady R (requireActiveMembership c u).
Proof. unfold requireActiveMembership, invalid_grant. steady. Qed.
#[local] Hint Resolve steady_requireActiveMembership : steady.

Lemma exec_grows_transaction {A} (m : M A) t :
  exec m t (λ _ t', grows t t') (λ _ t', grows t t') →
  exec (transaction m) t (λ _ t', grows t t') (λ _ t', grows t t').
Proof. intros Hm. apply exec_transaction. by eapply exec_weaken; [apply Hm|..]. Qed.

(** Walk a computation whose last statement issues tokens. *)
Ltac grow :=
  repeat lazymatch goal with
  | |- exec (transaction _) _ _ _ => apply exec_grows_transaction
  | |- exec (throw _) _ _ _ => by apply exec_throw
  | |- exec (mret _) _ _ _ => by apply exec_ret
  | |- exec (match ?x with _ => _ end) _ _ _ => let E := fresh "E" in destruct x eqn:E
  | |- exec (mbind _ (insert_row oauth_grants _)) _ _ _ => fail
  | |- exec (mbind _ _) _ _ _ => eapply exec_grows_bind; [solve [steady]|intros; cbv beta]
  end.

(** A grant and the tokens that hang off it. *)
Lemma exec_grant_tokens gr n t :
  exec (insert_row oauth_grants gr ≫= λ _,
          issueTokens gr.(gr_id) gr.(gr_user_id) gr.(gr_company_id) gr.(gr_scopes) n) t
    (λ _ t', grows t t') (λ _ t', grows t t').
Proof.
  apply exec_bind, exec_insert_row; [|done]. intros Hc.
  assert (Hg : grows t (set_rows oauth_grants (rows oauth_grants t ++ [gr]) t)).
  { apply grows_put_grants; [done|]. by apply rows_later_app; apply _. }
  eapply exec_weaken; [apply exec_issueTokens|..].
  - exists gr. split_and!; [|done..]. apply elem_of_app. right. by apply list_elem_of_singleton.
  - intros a t' Ht'. by etransitivity.
  - intros e t' Ht'. by etransitivity.
Qed.

Lemma steady_exchange i : steady grows (exchangeAuthorizationCode i).
Proof.
  intros t. unfold exchangeAuthorizationCode, invalid_grant. grow.
  refine (exec_grant_tokens (mkGrant _ _ _ _ _ _ _ None None None) _ _).
Qed.

Lemma steady_revokeGrant g r : steady grows (revokeGrant g r).
Proof. unfold revokeGrant. steady. Qed.
#[local] Hint Resolve steady_revokeGrant : steady.
Lemma steady_lookup_refresh (R : tables → tables → Prop) `{!PreOrder R} h : steady R (lookup_refresh h).
Proof. unfold lookup_refresh. steady. Qed.

(** What a refresh in flight holds agrees with rows that are there. *)
Definition genuine (t : tables) (e : refresh_lookup) : Prop :=
  ∃ r gr, r ∈ tokens t ∧ gr ∈ grants t ∧ r.(tk_id) = e.(rl_token_id)
    ∧ r.(tk_grant_id) = Some e.(rl_grant_id) ∧ r.(tk_user_id) = e.(rl_user_id)
    ∧ r.(tk_company_id) = e.(rl_company_id)
    ∧ gr.(gr_id) = e.(rl_grant_id) ∧ gr.(gr_user_id) = e.(rl_user_id)
    ∧ gr.(gr_company_id) = e.(rl_company_id) ∧ gr.(gr_client_id) = e.(rl_client_id)
    ∧ gr.(gr_scopes) = e.(rl_scopes) ∧ gr.(gr_resource) = e.(rl_resource).

Lemma genuine_kept t t' e : kept t t' → genuine t e → genuine t' e.
Proof.
  intros (Hg&Ht&_) (r&gr&Hr&Hgr&E1&E2&E3&E4&E5&E6&E7&E8&E9&E10).
  destruct (Ht r Hr) as (r'&Hr'&Hi&_). destruct (Hg gr Hgr) as (gr'&Hgr'&Hj&_).
  unfold token_identity in Hi. unfold grant_identity in Hj. simplify_eq.
  exists r', gr'. split_and!; congruence.
Qed.

(** The rest of [rotate] once the token is claimed. *)
Definition rotate_rest (e : refresh_lookup) (clientName : jsstring) : M (option IssuedTokens) :=
  used ← toDbDate;
  _ ← update oauth_grants (λ r, bool_decide (r.(gr_id) = e.(rl_grant_id))) (touch_grant used);
  issued ← issueTokens e.(rl_grant_id) e.(rl_user_id) e.(rl_company_id) e.(rl_scopes) clientName;
  mret (Some issued).

Lemma exec_rotate_rest e n t :
  genuine t e → exec (rotate_rest e n) t (λ _ t', grows t t') (λ _ t', grows t t').
Proof.
  intros Hg. unfold rotate_rest.
  eapply exec_grows_bind; [solve [steady]|]. intros used t1 K1. cbv beta.
  eapply exec_grows_bind; [solve [steady]|]. intros m t2 K2. cbv beta.
  assert (K : kept t t2) by (apply grows_kept; by etransitivity).
  apply exec_bind. eapply exec_weaken; [apply exec_issueTokens|by intros; apply exec_ret|done].
  destruct (genuine_kept _ _ _ K Hg) as (r&gr&?&?&?&?&?&?&?&?&?&?&?&?). exists gr. by split_and!.
Qed.

Lemma exec_rotate e n t :
  genuine t e →
  exec (rotate e n) t
    (λ o t', grows t t' ∧ ∀ issued, o = Some issued →
       ∃ r, r ∈ tokens t' ∧ r.(tk_id) = e.(rl_token_id) ∧ is_Some r.(tk_refresh_used_at))
    (λ _ t', grows t t').
Proof.
  intros Hg. unfold rotate, requireActiveMembership, invalid_grant. apply exec_transaction. exec_step. exec_step.
  exec_step. exec_step; [exec_step|by exec_step]. do 3 exec_step.
  apply exec_update; [|done]. intros Hc. assert (HG := grows_update_tokens _ _ t (spend_refresh_later z) Hc).
  change (rows api_tokens t) with (tokens t). set (p := λ r : api_token_row, bool_decide (r.(tk_id) = _) && _) in *.
  set (t1 := set_rows api_tokens _ t) in *.
  destruct (keep p (tokens t)) as [|r k] eqn:Ek; [by apply exec_ret|].
  change (exec (rotate_rest e n) t1
    (λ o t', grows t t' ∧ ∀ issued, o = Some issued →
       ∃ r, r ∈ tokens t' ∧ r.(tk_id) = e.(rl_token_id) ∧ is_Some r.(tk_refresh_used_at)) (λ _ _, grows t t)).
  eapply exec_weaken; [apply exec_rotate_rest; eapply genuine_kept; [by apply grows_kept|done]| |done].
  intros o t' HG'. split; [by etransitivity|]. intros issued ->.
  assert (Hr : r ∈ keep p (tokens t)) by (rewrite Ek; left). apply elem_of_keep in Hr as [Hp Hr].
  destruct (proj1 (proj2 (grows_kept _ _ HG')) (spend_refresh z r)) as (r' & Hr' & Hid & _ & Hu).
  { apply elem_of_update_where. exists r. by rewrite Hp. }
  exists r'. split_and!; [done| |apply Hu; by eexists].
  unfold p in Hp. to_prop. unfold token_identity in Hid. simplify_eq. cbn in *. congruence.
Qed.

(** The lookup returns what is there. *)
Lemma grant_of_Some t r gr : grant_of (grants t) r = Some gr → gr ∈ grants t ∧ r.(tk_grant_id) = Some gr.(gr_id).
Proof.
  unfold grant_of. destruct (tk_grant_id r) as [g|]; [|done]. intros [Hin Hp]%first_Some.
  to_prop. by subst.
Qed.

Lemma exec_lookup_refresh h t (Q : option refresh_lookup → tables → Prop) E :
  Q (head (omap (join_grant (grants t))
       (keep (λ r, bool_decide (r.(tk_refresh_token_hash) = Some h)) (tokens t)))) t →
  exec (lookup_refresh h) t Q E.
Proof.
  intros HQ. unfold lookup_refresh. exec_steps. by rewrite keep_everything.
Qed.

Lemma lookup_genuine t l e :
  indexed t → linked t → (∀ r, r ∈ l → r ∈ tokens t) →
  head (omap (join_grant (grants t)) l) = Some e → genuine t e.
Proof.
  intros [Hc _] Hl Hsub He%head_Some_elem_of. apply list_elem_of_omap in He as (r & Hr & Hj).
  unfold join_grant in Hj. destruct (grant_of (grants t) r) as [gr|] eqn:Eg; [|done].
  injection Hj as <-. apply grant_of_Some in Eg as [Hgr Hid].
  destruct (Hl r (Hsub r Hr) _ Hid) as (gr' & Hgr' & E1 & E2 & E3 & E4).
  assert (gr' = gr) as -> by by eapply grant_unique. exists r, gr. split_and!; cbn; auto.
Qed.

Lemma steady_find_connected_app (R : tables → tables → Prop) `{!PreOrder R} g c u a :
  steady R (find_connected_app g c u a).
Proof. unfold find_connected_app. steady. Qed.
#[local] Hint Resolve steady_find_connected_app : steady.
Lemma steady_revokeConnectedApp g c u a : steady grows (revokeConnectedApp g c u a).
Proof. unfold revokeConnectedApp. steady. Qed.
Lemma steady_createApiToken i : steady grows (createApiToken i).
Proof. unfold createApiToken, generateApiToken. steady. Qed.
Lemma steady_revokeApiToken i c u a : steady grows (revokeApiToken i c u a).
Proof. unfold revokeApiToken. steady. Qed.
Lemma steady_verifyApiToken raw : steady grows (verifyApiToken raw).
Proof. unfold verifyApiToken. steady. Qed.
Lemma steady_remove_membership c u : steady grows (remove_membership c u).
Proof. unfold remove_membership. steady. Qed.

(** ** The team's operations *)

Lemma steady_invalidate c : steady grows (invalidateCompanyMembership c).
Proof. unfold invalidateCompanyMembership. steady. Qed.
#[local] Hint Resolve steady_invalidate : steady.
Lemma steady_getCompany (R : tables → tables → Prop) `{!PreOrder R} c : steady R (getCompany c).
Proof. unfold getCompany. steady. Qed.
#[local] Hint Resolve steady_getCompany : steady.
Lemma steady_insert_company c i l o : steady grows (insert_company c i l o).
Proof. unfold insert_company, seedDefaultSlaPolicy. steady. Qed.
Lemma steady_deleteCompany c : steady grows (deleteCompany c).
Proof. unfold deleteCompany. steady. Qed.
Lemma steady_update_company c i k now : steady grows (update_company c i k now).
Proof. unfold update_company. steady. Qed.
Lemma steady_uncount_member c : steady grows (uncount_member c).
Proof. unfold uncount_member. steady. Qed.
Lemma steady_updateMemberRole c u r : steady grows (updateMemberRole c u r).
Proof. unfold updateMemberRole. steady. Qed.
Lemma steady_transferOwnership c u v : steady grows (transferOwnership c u v).
Proof. unfold transferOwnership. steady. Qed.
Lemma steady_updateMemberPermissions c u p : steady grows (updateMemberPermissions c u p).
Proof. unfold updateMemberPermissions. steady. Qed.
Lemma steady_resetMemberPermissions c u : steady grows (resetMemberPermissions c u).
Proof. unfold resetMemberPermissions. steady. Qed.
Lemma steady_acceptInvitation tok u : steady grows (acceptInvitation tok u).
Proof. unfold acceptInvitation, acceptInvitationInTransaction, completeInvitationAcceptance. steady. Qed.
End operations.

#[export] Hint Resolve steady_createAuthorizationCode steady_requireActiveMembership steady_exchange
  steady_revokeGrant steady_lookup_refresh steady_find_connected_app steady_revokeConnectedApp
  steady_createApiToken steady_revokeApiToken steady_verifyApiToken steady_remove_membership
  steady_invalidate steady_getCompany steady_insert_company steady_deleteCompany steady_update_company steady_uncount_member
  steady_updateMemberRole steady_transferOwnership steady_updateMemberPermissions
  steady_resetMemberPermissions steady_acceptInvitation steady_randomSecret : steady.
