(* ===== verification/CredentialRuns.v ===== *)
(** The requests on credentials as the steps of one system.

    The state is the database and the requests that have read it and not yet written:
    refreshes that passed their checks and revocations that are due.  Every other
    request is one commit.  Any order of steps is a run, so the theorems of
    CredentialSpec.v hold under every interleaving of these pieces and also when a
    request dies between them. *)

From S2P Require Import Prelude Js Permissions PublicRows TenantDb PublicDb Exec Steady OAuth Workflow Team Sessions Credentials.

Inductive flight :=
| Rotating (e : refresh_lookup) (clientName : jsstring)
| Burning (grantId reason : string).

Record csys := mkCsys { sy_db : db; sy_flights : list flight }.

(** The requests that are one commit each. *)
Inductive credential_op :=
| CreateCode (i : CreateAuthorizationCodeInput)
| Exchange (i : ExchangeCodeInput)
| VerifyToken (raw : string)
| CreateToken (i : CreateApiTokenInput)
| RevokeToken (tokenId companyId requesterId : string) (isAdmin : bool)
| RemoveMember (companyId userId : string)
| UncountMember (companyId : string)
| InvalidateMembership (companyId : string)
| AcceptInvitation (token userId : string)
| UpdateRole (companyId userId : string) (role : InvitedRole)
| TransferOwnership (companyId owner newOwner : string)
| UpdatePermissions (companyId userId : string) (p : PartialPermissions)
| ResetPermissions (companyId userId : string)
| InsertCompany (companyId : string) (i : CreateCompanyInput) (logo : option string) (owner : string)
| DeleteCompany (companyId : string)
| UpdateCompany (companyId : string) (i : UpdateCompanyInput) (logo : option string) (now : Z).

Section runs.
Context `{Oracle} `{Crypto} `{CaseMapping}.

Definition ignore {A} (m : M A) : M unit := _ ← m; mret tt.

Definition run_credential_op (o : credential_op) : M unit :=
  match o with
  | CreateCode i => ignore (createAuthorizationCode i)
  | Exchange i => ignore (exchangeAuthorizationCode i)
  | VerifyToken raw => ignore (verifyApiToken raw)
  | CreateToken i => ignore (createApiToken i)
  | RevokeToken i c u a => ignore (revokeApiToken i c u a)
  | RemoveMember c u => remove_membership c u
  | UncountMember c => uncount_member c
  | InvalidateMembership c => invalidateCompanyMembership c
  | AcceptInvitation t u => ignore (acceptInvitation t u)
  | UpdateRole c u r => ignore (updateMemberRole c u r)
  | TransferOwnership c o n => transferOwnership c o n
  | UpdatePermissions c u p => ignore (updateMemberPermissions c u p)
  | ResetPermissions c u => ignore (resetMemberPermissions c u)
  | InsertCompany c i l o => ignore (insert_company c i l o)
  | DeleteCompany c => deleteCompany c
  | UpdateCompany c i k now => ignore (update_company c i k now)
  end.

(** [refreshTokens] up to its transaction or its revocation. *)
Definition begin_refresh (input : RefreshInput) : M (option flight) :=
  existing ← lookup_refresh (sha256_hex input.(ri_refreshToken));
  now ← toDbDate;
  mret (match check_refresh input existing now, existing with
        | Burn reason _, Some e => Some (Burning e.(rl_grant_id) reason)
        | Rotate, Some e => Some (Rotating e input.(ri_clientName))
        | _, _ => None
        end).

(** [revokeConnectedApp] up to its revocation. *)
Definition begin_disconnect (grantId companyId requesterId : string) (isAdmin : bool) : M (option flight) :=
  grant ← find_connected_app grantId companyId requesterId isAdmin;
  mret ((λ g, Burning g.(gr_id) "user_revoked") <$> grant).

(** The flights that a computation leaves. *)
Definition takes_off (r : result (option flight)) : list flight :=
  match r with Ok (Some f) => [f] | _ => [] end.
(** A refresh that lost its token revokes the grant. *)
Definition after_rotate (e : refresh_lookup) (r : result (option IssuedTokens)) : list flight :=
  match r with Ok None => [Burning e.(rl_grant_id) "refresh_token_reuse"] | _ => [] end.

Inductive cstep : csys → csys → Prop :=
| step_op o s fl : cstep (mkCsys s fl) (mkCsys (run_credential_op o s).2 fl)
| step_refresh i s fl :
    cstep (mkCsys s fl) (mkCsys (begin_refresh i s).2 (takes_off (begin_refresh i s).1 ++ fl))
| step_disconnect g c u a s fl :
    cstep (mkCsys s fl) (mkCsys (begin_disconnect g c u a s).2 (takes_off (begin_disconnect g c u a s).1 ++ fl))
| step_rotate e n s fl1 fl2 :
    cstep (mkCsys s (fl1 ++ Rotating e n :: fl2))
          (mkCsys (rotate e n s).2 (fl1 ++ after_rotate e (rotate e n s).1 ++ fl2))
| step_burn g r s fl1 fl2 :
    cstep (mkCsys s (fl1 ++ Burning g r :: fl2)) (mkCsys (revokeGrant g r s).2 (fl1 ++ fl2))
| step_crash f s fl1 fl2 : cstep (mkCsys s (fl1 ++ f :: fl2)) (mkCsys s (fl1 ++ fl2)).

Definition tables_of (s : csys) : tables := tb s.(sy_db).

(** ** The invariant *)

Record Sound (s : csys) : Prop := {
  sound_indexed : indexed (tables_of s);
  sound_linked : linked (tables_of s);
  sound_flights : ∀ e n, Rotating e n ∈ s.(sy_flights) → genuine (tables_of s) e }.

Lemma steady_ignore {A} (R : tables → tables → Prop) `{!PreOrder R} (m : M A) : steady R m → steady R (ignore m).
Proof. intros Hm. unfold ignore. by steady. Qed.

Lemma steady_credential_op o : steady grows (run_credential_op o).
Proof.
  destruct o; cbn [run_credential_op];
    first [solve [eauto with steady nocore]|apply steady_ignore; [apply _|eauto with steady nocore]].
Qed.

(** A run of a computation, from what is known of its executions. *)
Lemma exec_end {A} (m : M A) s (P : tables → Prop) :
  exec m (tb s) (λ _ t', P t') (λ _ t', P t') → P (tb (m s).2).
Proof. intros Hm. specialize (Hm s eq_refl). by destruct (m s) as [[a|e] s']. Qed.

Lemma begin_refresh_spec i s :
  tb (begin_refresh i s).2 = tb s
  ∧ (indexed (tb s) → linked (tb s) →
     ∀ e n, Rotating e n ∈ takes_off (begin_refresh i s).1 → genuine (tb s) e).
Proof.
  assert (Hx : exec (begin_refresh i) (tb s)
    (λ r t', t' = tb s ∧ (indexed (tb s) → linked (tb s) →
       ∀ e n, Rotating e n ∈ takes_off (Ok r) → genuine (tb s) e)) (λ _ t', t' = tb s)).
  { unfold begin_refresh. apply exec_bind, exec_lookup_refresh. apply exec_bind.
    exec_step. exec_step. split; [done|]. intros Hi Hl e n Hin.
    set (l := keep _ _) in *. set (o := head _) in *.
    destruct (check_refresh i o z), o as [e'|] eqn:Eo; try by apply elem_of_nil in Hin.
    - by apply list_elem_of_singleton in Hin.
    - apply list_elem_of_singleton in Hin as [= -> ->].
      eapply lookup_genuine; [done..| |exact Eo]. intros r [_ Hr]%elem_of_keep. done. }
  specialize (Hx s eq_refl). destruct (begin_refresh i s) as [[r|e] s']; [done|].
  split; [done|]. intros _ _ e' n Hin. by apply elem_of_nil in Hin.
Qed.

Lemma begin_disconnect_spec g c u a s :
  tb (begin_disconnect g c u a s).2 = tb s
  ∧ (∀ e n, Rotating e n ∉ takes_off (begin_disconnect g c u a s).1).
Proof.
  split; [done|]. intros e n. cbv [begin_disconnect mbind M_bind mret M_ret].
  destruct (find_connected_app g c u a s) as [[[gr|]|x] s']; cbn; [|by intros Hn%elem_of_nil..].
  by intros Hn%list_elem_of_singleton.
Qed.

Lemma cstep_grows s s' : Sound s → cstep s s' → grows (tables_of s) (tables_of s').
Proof.
  intros [Hi Hl Hf] Hs. unfold tables_of in *. destruct Hs; cbn in *.
  - apply exec_end, steady_credential_op.
  - by rewrite (proj1 (begin_refresh_spec i s)).
  - done.
  - apply exec_end. eapply exec_weaken; [apply exec_rotate, (Hf _ n)|by intros ?? [? _]|done].
    apply elem_of_app. right. left.
  - apply exec_end, steady_revokeGrant.
  - done.
Qed.

Lemma Sound_cstep s s' : Sound s → cstep s s' → Sound s'.
Proof.
  intros HS Hs. assert (HG := cstep_grows _ _ HS Hs). destruct HS as [Hi Hl Hf].
  assert (HK := grows_kept _ _ HG). split; [by apply HK|by eapply grows_linked|].
  assert (Hold : ∀ e n, Rotating e n ∈ s.(sy_flights) → genuine (tables_of s') e).
  { intros e n Hin. eapply genuine_kept; [exact HK|by eapply Hf]. }
  destruct Hs; cbn in *; intros e' n' Hin; eauto.
  - apply elem_of_app in Hin as [Hin|Hin]; [|eauto].
    unfold tables_of. cbn. rewrite (proj1 (begin_refresh_spec i s)).
    by eapply (proj2 (begin_refresh_spec i s)).
  - apply elem_of_app in Hin as [Hin|Hin]; [|eauto].
    by apply (proj2 (begin_disconnect_spec g c u a s)) in Hin.
  - apply (Hold e' n'). rewrite !elem_of_app in *. destruct Hin as [|[Hin|]]; [by left| |by right; right].
    unfold after_rotate in Hin. destruct (rotate e n s).1 as [[|]|]; by apply list_elem_of_singleton in Hin || apply elem_of_nil in Hin.
  - apply (Hold e' n'). rewrite !elem_of_app in *. destruct Hin; [by left|by right; right].
  - apply (Hold e' n'). rewrite !elem_of_app in *. destruct Hin; [by left|by right; right].
Qed.

Lemma Sound_run s s' : Sound s → rtc cstep s s' → Sound s' ∧ grows (tables_of s) (tables_of s').
Proof.
  intros HS Hr. induction Hr as [s|s1 s2 s3 H12 _ IH]; [done|].
  destruct IH as [HS3 HG]; [by eapply Sound_cstep|]. split; [done|].
  etransitivity; [by eapply cstep_grows|done].
Qed.
End runs.
