(* ===== verification/CredentialSpec.v ===== *)
(** What the credentials of the MCP server promise.

    The theorems quantify over the runs of CredentialRuns.v from a sound state: any
    interleaving of code approvals, exchanges, refreshes cut at their commits,
    revocations and changes of the team. *)

From S2P Require Import Prelude Js Permissions PublicRows TenantDb PublicDb Exec Steady OAuth Workflow Team Sessions AccessControl Credentials CredentialRuns.

Section spec.
Context `{Oracle} `{Crypto} `{CaseMapping}.

(** ** Queries by a unique key *)

Lemma exec_ok {A} (m : M A) s x : exec m (tb s) (λ a _, a = x) (λ _ _, False) → (m s).1 = Ok x.
Proof. intros Hm. specialize (Hm s eq_refl). destruct (m s) as [[a|e] s']; [by subst|done]. Qed.
Lemma exec_throws {A} (m : M A) s (P : err → tables → Prop) :
  exec m (tb s) (λ _ _, False) P → ∃ e, (m s).1 = Throw e ∧ P e (tb (m s).2).
Proof. intros Hm. specialize (Hm s eq_refl). destruct (m s) as [[a|e] s']; [done|]. by exists e. Qed.

Lemma token_by_hash t r h :
  indexed t → r ∈ tokens t → r.(tk_token_hash) = h →
  first (λ r, bool_decide (r.(tk_token_hash) = h)) (tokens t) = Some r.
Proof.
  intros [_ Hc] Hr <-. apply first_unique; [done|by apply bool_decide_eq_true_2|].
  intros y Hy Hh%bool_decide_eq_true_1. cbn -[checks unique_on] in Hc.
  rewrite !checks_cons in Hc. destruct Hc as (_ & Hu & _).
  eapply (unique_on_eq (Some ∘ tk_token_hash)); [exact Hu|done..|]. cbn. by rewrite Hh.
Qed.

Lemma refresh_by_hash t r h :
  indexed t → r ∈ tokens t → r.(tk_refresh_token_hash) = Some h →
  head (omap (join_grant (grants t))
          (keep (λ r, bool_decide (r.(tk_refresh_token_hash) = Some h)) (tokens t)))
  = join_grant (grants t) r.
Proof.
  intros [_ Hc] Hr Hh. apply head_omap_same; [|by apply elem_of_keep; rewrite bool_decide_eq_true_2].
  intros y [Hy%bool_decide_eq_true_1 Hin]%elem_of_keep. cbn -[checks unique_on] in Hc.
  rewrite !checks_cons in Hc. destruct Hc as (_ & _ & Hu & _). by eapply (unique_on_eq tk_refresh_token_hash).
Qed.

Lemma grant_of_linked t r g :
  indexed t → linked t → r ∈ tokens t → r.(tk_grant_id) = Some g →
  ∃ gr, grant_of (grants t) r = Some gr ∧ gr ∈ grants t ∧ gr.(gr_id) = g
        ∧ gr.(gr_user_id) = r.(tk_user_id) ∧ gr.(gr_company_id) = r.(tk_company_id)
        ∧ gr.(gr_scopes) = r.(tk_scopes).
Proof.
  intros [Hc _] Hl Hr Hg. destruct (Hl r Hr g Hg) as (gr & Hin & Hid & Hrest). exists gr.
  split_and!; [|done|done|tauto..]. unfold grant_of. rewrite Hg.
  apply first_unique; [done|by apply bool_decide_eq_true_2|].
  intros y Hy Hy2%bool_decide_eq_true_1. eapply grant_unique; [done..|]. congruence.
Qed.

(** A grant that was revoked is revoked in every later state. *)
Lemma still_revoked t t' g r' gr' :
  kept t t' → indexed t' → g ∈ grants t → is_Some g.(gr_revoked_at) →
  grant_of (grants t') r' = Some gr' → r'.(tk_grant_id) = Some g.(gr_id) → is_Some gr'.(gr_revoked_at).
Proof.
  intros (Hk & _) [Hc _] Hg Hrev Hof Hid. destruct (Hk g Hg) as (g' & Hg' & Hi & Hr).
  apply grant_of_Some in Hof as [Hin Heq]. unfold grant_identity in Hi. simplify_eq.
  assert (gr' = g') as ->; [|auto]. eapply grant_unique; [done..|]. congruence.
Qed.

Lemma is_null_false {A} (x : option A) : is_Some x → is_null x = false.
Proof. by intros [y ->]. Qed.

(** ** Verification *)

(** A stored token that is not live does not authenticate. *)
Lemma verify_dead t r raw :
  indexed t → r ∈ tokens t → r.(tk_token_hash) = hashApiToken raw →
  (∀ now, token_live (grants t) r now = false) →
  exec (verifyApiToken raw) t (λ v _, v = None) (λ _ _, False).
Proof.
  intros Hi Hr Hh Hd. unfold verifyApiToken. exec_step; [by exec_step|].
  do 4 exec_step. change (rows api_tokens t) with (tokens t).
  change (rows oauth_grants t) with (grants t).
  rewrite (token_by_hash t r) by done. rewrite keep_everything. do 2 exec_step. rewrite Hd. by exec_step.
Qed.

Lemma revoked_grant_dead grants r gr now :
  grant_of grants r = Some gr → is_Some gr.(gr_revoked_at) → token_live grants r now = false.
Proof.
  intros Hg Hr. unfold token_live. rewrite Hg, (is_null_false _ Hr), andb_false_r. done.
Qed.
Lemma revoked_token_dead grants r now :
  is_Some r.(tk_revoked_at) → token_live grants r now = false.
Proof. intros Hr. unfold token_live. by rewrite (is_null_false _ Hr). Qed.

(** A refresh token whose grant is revoked is refused. *)
Lemma refresh_revoked t r gr input :
  indexed t → r ∈ tokens t → r.(tk_refresh_token_hash) = Some (sha256_hex input.(ri_refreshToken)) →
  grant_of (grants t) r = Some gr → is_Some gr.(gr_revoked_at) →
  exec (refreshTokens input) t (λ _ _, False)
    (λ e t', e = OAuthError "invalid_grant" "This authorization has been revoked" ∧ t' = t).
Proof.
  intros Hi Hr Hh Hg Hrev. unfold refreshTokens. apply exec_bind, exec_lookup_refresh.
  rewrite (refresh_by_hash t r) by done. unfold join_grant. rewrite Hg. cbn [fmap option_fmap option_map].
  do 2 exec_step. unfold check_refresh. cbn [rl_grant_revoked_at]. rewrite (is_null_false _ Hrev).
  by apply exec_throw.
Qed.

(** The grant is stored, and revoked. *)
Definition grant_revoked (t : tables) (g : string) : Prop :=
  ∃ gr, gr ∈ grants t ∧ gr.(gr_id) = g ∧ is_Some gr.(gr_revoked_at).

Lemma grant_revoked_kept t t' g : kept t t' → grant_revoked t g → grant_revoked t' g.
Proof.
  intros (Hk & _) (gr & Hin & Hid & Hr). destruct (Hk gr Hin) as (gr' & Hin' & Hi & Hr').
  exists gr'. unfold grant_identity in Hi. simplify_eq. split_and!; [done|congruence|auto].
Qed.

Lemma grant_revoked_of t g r gr :
  indexed t → grant_revoked t g → grant_of (grants t) r = Some gr → r.(tk_grant_id) = Some g →
  is_Some gr.(gr_revoked_at).
Proof. intros Hi (g0 & Hin & <- & Hr). eapply still_revoked; [reflexivity|done..]. Qed.

(** The token authenticates nobody, and its refresh token is refused. *)
Definition token_refused (s : db) (r : api_token_row) : Prop :=
  (∀ raw, r.(tk_token_hash) = hashApiToken raw → (verifyApiToken raw s).1 = Ok None)
  ∧ (∀ input, r.(tk_refresh_token_hash) = Some (sha256_hex input.(ri_refreshToken)) →
       (refreshTokens input s).1 = Throw (OAuthError "invalid_grant" "This authorization has been revoked")).

Lemma revoked_grant_refused s r g :
  indexed (tb s) → linked (tb s) → grant_revoked (tb s) g → r ∈ tokens (tb s) → r.(tk_grant_id) = Some g →
  token_refused s r.
Proof.
  intros Hi Hl Hg Hr Hid. destruct (grant_of_linked _ _ _ Hi Hl Hr Hid) as (gr & Hof & _).
  assert (Hgr := grant_revoked_of _ _ _ _ Hi Hg Hof Hid). split; [intros raw Hh|intros input Hh].
  - apply exec_ok. eapply verify_dead; [done..|]. intros now. by eapply revoked_grant_dead.
  - destruct (exec_throws _ _ _ (refresh_revoked _ _ _ _ Hi Hr Hh Hof Hgr)) as (e & He & -> & _). done.
Qed.

(** No refresh that starts after the revocation reaches its rotation. *)
Lemma begin_refresh_revoked i s g e n :
  indexed (tb s) → grant_revoked (tb s) g → Rotating e n ∈ takes_off (begin_refresh i s).1 →
  e.(rl_grant_id) ≠ g.
Proof.
  intros Hi Hg. assert (Hx : exec (begin_refresh i) (tb s)
    (λ o _, Rotating e n ∈ takes_off (Ok o) → e.(rl_grant_id) ≠ g) (λ _ _, True)).
  { unfold begin_refresh. apply exec_bind, exec_lookup_refresh. do 3 exec_step.
    destruct (head _) as [e'|] eqn:Eo; [|intros Hn; by apply elem_of_nil in Hn].
    destruct (check_refresh i (Some e') z) eqn:Ec; cbn; intros Hin; try by apply elem_of_nil in Hin.
    { by apply list_elem_of_singleton in Hin. }
    apply list_elem_of_singleton in Hin as [= -> ->]. intros Hid.
    assert (Hl : e' ∈ omap (join_grant (grants (tb s)))
      (keep (λ r, bool_decide (r.(tk_refresh_token_hash) = Some (sha256_hex i.(ri_refreshToken)))) (tokens (tb s)))).
    { destruct (omap _ _); [done|]. injection Eo as ->. left. }
    apply list_elem_of_omap in Hl as (r & _ & Hj). unfold join_grant in Hj.
    destruct (grant_of (grants (tb s)) r) as [gr|] eqn:Eg; [|done]. injection Hj as <-. cbn in Hid.
    assert (Hrev : is_Some gr.(gr_revoked_at)).
    { assert (Hof := Eg). apply grant_of_Some in Hof as [_ Hof].
      eapply grant_revoked_of; [done..|congruence]. }
    unfold check_refresh in Ec. cbn in Ec. by rewrite (is_null_false _ Hrev) in Ec. }
  specialize (Hx s eq_refl). destruct (begin_refresh i s) as [[o|x] s']; [exact Hx|].
  intros Hin. by apply elem_of_nil in Hin.
Qed.

Lemma revoked_no_takeoff s s' g e n :
  Sound s → cstep s s' → grant_revoked (tables_of s) g → e.(rl_grant_id) = g →
  Rotating e n ∈ s'.(sy_flights) → Rotating e n ∈ s.(sy_flights).
Proof.
  intros [Hi _ _] Hs Hg Hid. unfold tables_of in *. destruct Hs; cbn in *; rewrite ?elem_of_app, ?elem_of_cons; [done|..].
  - intros [Hin|]; [|done]. by destruct (begin_refresh_revoked i s g e n Hi Hg Hin).
  - intros [Hin|]; [|done]. by apply (proj2 (begin_disconnect_spec g0 c u a s)) in Hin.
  - intros [|[Hin|]]; [tauto| |tauto]. unfold after_rotate in Hin.
    destruct (rotate e0 n0 s).1 as [[|]|]; by apply list_elem_of_singleton in Hin || apply elem_of_nil in Hin.
  - tauto.
  - tauto.
Qed.

(** What a rotation issues is stored under its grant. *)
Lemma exec_rotate_issued e n t :
  exec (rotate e n) t
    (λ o t', ∀ issued, o = Some issued → ∃ r, r ∈ tokens t' ∧ r.(tk_grant_id) = Some e.(rl_grant_id)
       ∧ r.(tk_token_hash) = hashApiToken issued.(is_accessToken)
       ∧ r.(tk_refresh_token_hash) = Some (sha256_hex issued.(is_refreshToken))) (λ _ _, True).
Proof.
  unfold rotate, requireActiveMembership, invalid_grant, issueTokens, randomSecret. exec_steps; [|done].
  apply exec_update; [|done]. intros _. exec_steps; [done|]. apply exec_update; [|done]. intros _. exec_steps.
  apply exec_insert_row; [|done]. intros _. exec_steps. intros issued [= <-].
  eexists. split; [by apply elem_of_app; right; apply list_elem_of_singleton|]. done.
Qed.

(** C17: Revocation is final.  Once a grant is revoked, under any interleaving of later requests:
    no access token that hangs off it authenticates and every refresh request with one of its
    refresh tokens is refused; no refresh that starts later reaches its rotation; and a
    rotation that was in flight already, which does not read the revocation again, may
    still commit, but the tokens that it issues never authenticate and never refresh. *)
Theorem revocation_is_final s s' g :
  Sound s → rtc cstep s s' → grant_revoked (tables_of s) g →
  (∀ r, r ∈ tokens (tables_of s') → r.(tk_grant_id) = Some g → token_refused s'.(sy_db) r)
  ∧ (∀ e n, e.(rl_grant_id) = g → Rotating e n ∈ s'.(sy_flights) → Rotating e n ∈ s.(sy_flights))
  ∧ (∀ e n fl1 fl2 issued db' s'',
       s'.(sy_flights) = fl1 ++ Rotating e n :: fl2 → e.(rl_grant_id) = g →
       rotate e n s'.(sy_db) = (Ok (Some issued), db') → rtc cstep (mkCsys db' (fl1 ++ fl2)) s'' →
       (verifyApiToken issued.(is_accessToken) s''.(sy_db)).1 = Ok None
       ∧ ∀ input, input.(ri_refreshToken) = issued.(is_refreshToken) →
           (refreshTokens input s''.(sy_db)).1
           = Throw (OAuthError "invalid_grant" "This authorization has been revoked")).
Proof.
  intros HS Hrun Hg. destruct (Sound_run _ _ HS Hrun) as [HS' HG].
  assert (Hg' := grant_revoked_kept _ _ _ (grows_kept _ _ HG) Hg). split; [|split].
  - intros r Hr Hid. eapply revoked_grant_refused; [apply HS'..|exact Hg'|done|done].
  - intros e n Hid. clear HS' HG Hg'. induction Hrun as [s|s1 s2 s3 H12 _ IH]; [done|]. intros Hin.
    eapply revoked_no_takeoff; [done..|]. apply IH; [by eapply Sound_cstep| |done].
    eapply grant_revoked_kept; [|exact Hg]. by eapply grows_kept, cstep_grows.
  - intros e n fl1 fl2 issued db' s'' Hfl Hid Hrot Hrun'. destruct s' as [db0 fl]. cbn in *. subst fl.
    assert (Hstep := step_rotate e n db0 fl1 fl2). rewrite Hrot in Hstep. cbn in Hstep.
    assert (HS1 := Sound_cstep _ _ HS' Hstep). destruct (Sound_run _ _ HS1 Hrun') as [[Hi Hl _] HG''].
    assert (Hx := exec_rotate_issued e n _ db0 eq_refl). rewrite Hrot in Hx.
    destruct (Hx issued eq_refl) as (r & Hr & Hrg & Hh & Hrh).
    destruct (proj1 (proj2 (grows_kept _ _ HG'')) r Hr) as (r2 & Hr2 & Hi2 & _).
    unfold token_identity in Hi2. simplify_eq.
    assert (Hg'' : grant_revoked (tables_of s'') (rl_grant_id e)).
    { eapply grant_revoked_kept; [|exact Hg']. apply grows_kept. etransitivity; [by eapply cstep_grows|done]. }
    destruct (revoked_grant_refused s''.(sy_db) r2 (rl_grant_id e) Hi Hl Hg'' Hr2) as [Hv Href]; [congruence|].
    split; [apply Hv; congruence|]. intros input Hin. apply Href. rewrite Hin. congruence.
Qed.

(** ** A refresh token is spent once *)

(** What [revokeGrant] leaves: the grant is revoked. *)
Lemma exec_revokeGrant_burns g reason t gr :
  indexed t → gr ∈ grants t → gr.(gr_id) = g →
  exec (revokeGrant g reason) t
    (λ _ t', ∃ gr', gr' ∈ grants t' ∧ gr'.(gr_id) = g ∧ is_Some gr'.(gr_revoked_at)) (λ _ _, False).
Proof.
  intros [Hcg Hct] Hgr Hid. unfold revokeGrant. exec_steps. apply exec_update.
  2:{ intros e He. rewrite grants_constraint_update in He; done. }
  intros _. apply exec_bind. apply exec_update.
  2:{ intros e He. rewrite tokens_constraint_update in He; done. }
  intros _. exec_step. change (rows oauth_grants t) with (grants t).
  set (p := λ r : grant_row, bool_decide (r.(gr_id) = g) && is_null r.(gr_revoked_at)). exists (if p gr then revoke_grant_row z reason gr else gr).
  split_and!.
  - change (if p gr then revoke_grant_row z reason gr else gr) with
      ((λ x, if p x then revoke_grant_row z reason x else x) gr). apply elem_of_update_where. by exists gr.
  - by destruct (p gr).
  - destruct (p gr) eqn:E; [by eexists|]. unfold p in E. rewrite bool_decide_eq_true_2 in E by done.
    cbn in E. destruct (gr_revoked_at gr); [by eexists|done].
Qed.

(** Rotating a token that was spent claims nothing. *)
Lemma exec_rotate_spent e n t r :
  indexed t → r ∈ tokens t → r.(tk_id) = e.(rl_token_id) → is_Some r.(tk_refresh_used_at) →
  exec (rotate e n) t (λ o _, o = None) (λ _ _, True).
Proof.
  intros [_ Hct] Hr Hid Hu. unfold rotate, requireActiveMembership, invalid_grant. exec_steps; [|done].
  apply exec_update_none; [apply _| | |done]; cbv beta; [|by do 2 exec_step].
  intros y Hy. apply not_true_iff_false. intros Hp. to_prop.
  assert (y = r) as -> by (eapply api_token_unique; [done..|congruence]).
  destruct Hu as [z' Hz']. by rewrite Hz' in *.
Qed.

(** A refresh token that is revoked or spent, itself or by its grant. *)
Definition refresh_dead (t : tables) (r : api_token_row) : Prop :=
  is_Some r.(tk_revoked_at) ∨ is_Some r.(tk_refresh_used_at)
  ∨ ∃ gr, grant_of (grants t) r = Some gr ∧ is_Some gr.(gr_revoked_at).

(** The grant of a token is revoked. *)
Definition burnt (t t' : tables) (r : api_token_row) : Prop :=
  ∀ gr, grant_of (grants t) r = Some gr →
  ∃ gr', gr' ∈ grants t' ∧ gr'.(gr_id) = gr.(gr_id) ∧ is_Some gr'.(gr_revoked_at).

(** Presenting one is refused, and leaves its grant revoked. *)
Lemma exec_refresh_dead t r input :
  indexed t → r ∈ tokens t → r.(tk_refresh_token_hash) = Some (sha256_hex input.(ri_refreshToken)) →
  refresh_dead t r →
  exec (refreshTokens input) t (λ _ _, False)
    (λ e t', (∃ message, e = OAuthError "invalid_grant" message) ∧ burnt t t' r).
Proof.
  intros Hi Hr Hh Hd. unfold refreshTokens. apply exec_bind, exec_lookup_refresh.
  rewrite (refresh_by_hash t r) by done. unfold join_grant, burnt.
  destruct (grant_of (grants t) r) as [gr|] eqn:Eg; cbn [fmap option_fmap option_map].
  2:{ do 2 exec_step. apply exec_throw. split; [by eexists|done]. }
  destruct (grant_of_Some _ _ _ Eg) as [Hgr _]. do 2 exec_step. unfold check_refresh. cbn [rl_grant_revoked_at
    rl_token_revoked_at rl_refresh_used_at rl_grant_id].
  destruct (gr_revoked_at gr) as [z'|] eqn:Er.
  { apply exec_throw. split; [by eexists|]. intros ? [= <-]. exists gr. by rewrite Er. }
  assert (Hburn : ∀ reason message, exec (_ ← revokeGrant gr.(gr_id) reason; invalid_grant message) t
    (λ (_ : IssuedTokens) _, False)
    (λ e t', (∃ message, e = OAuthError "invalid_grant" message) ∧
       ∀ gr0, Some gr = Some gr0 →
       ∃ gr', gr' ∈ grants t' ∧ gr'.(gr_id) = gr0.(gr_id) ∧ is_Some gr'.(gr_revoked_at))).
  { intros reason message. apply exec_bind.
    eapply exec_weaken; [by eapply exec_revokeGrant_burns| |done]. cbv beta. intros _ t' Hb.
    apply exec_throw. split; [by eexists|]. by intros ? [= <-]. }
  cbn [is_null negb]. destruct (tk_revoked_at r) as [z'|] eqn:Et; [by apply Hburn|].
  cbn [is_null negb]. destruct (tk_refresh_used_at r) as [z'|] eqn:Eu; [by apply Hburn|].
  exfalso. destruct Hd as [[? ?]|[[? ?]|(gr' & Hg' & [? ?])]]; congruence.
Qed.

Lemma refresh_dead_refused input db r :
  indexed (tb db) → r ∈ tokens (tb db) →
  r.(tk_refresh_token_hash) = Some (sha256_hex input.(ri_refreshToken)) → refresh_dead (tb db) r →
  ∃ message, (refreshTokens input db).1 = Throw (OAuthError "invalid_grant" message)
             ∧ burnt (tb db) (tb (refreshTokens input db).2) r.
Proof.
  intros Hi Hr Hh Hd.
  destruct (exec_throws _ _ _ (exec_refresh_dead _ _ _ Hi Hr Hh Hd)) as (e & He & (m & ->) & Hb). by exists m.
Qed.

(** C18: A refresh token is spent once.  After a rotation that issued tokens, no interleaving of
    requests lets another rotation of the same token issue any; and whoever presents the spent
    token again is refused and leaves the whole grant revoked. *)
Theorem refresh_token_spent_once e n issued db db1 fl1 fl2 s' :
  Sound (mkCsys db (fl1 ++ Rotating e n :: fl2)) → rotate e n db = (Ok (Some issued), db1) →
  rtc cstep (mkCsys db1 (fl1 ++ fl2)) s' →
  (∀ e' n' issued', e'.(rl_token_id) = e.(rl_token_id) → (rotate e' n' s'.(sy_db)).1 ≠ Ok (Some issued'))
  ∧ (∀ r input, r ∈ tokens (tables_of s') → r.(tk_id) = e.(rl_token_id) →
       r.(tk_refresh_token_hash) = Some (sha256_hex input.(ri_refreshToken)) →
       ∃ message, (refreshTokens input s'.(sy_db)).1 = Throw (OAuthError "invalid_grant" message)
                  ∧ burnt (tables_of s') (tb (refreshTokens input s'.(sy_db)).2) r).
Proof.
  intros HS Hrot Hrun.
  assert (Hstep := step_rotate e n db fl1 fl2). rewrite Hrot in Hstep. cbn in Hstep.
  assert (HS1 := Sound_cstep _ _ HS Hstep). destruct (Sound_run _ _ HS1 Hrun) as [[Hi Hl _] HG].
  destruct HS as [_ _ Hf]. assert (Hg : genuine (tb db) e) by (apply (Hf _ n), elem_of_app; right; left).
  assert (Hx := exec_rotate e n _ Hg db eq_refl). rewrite Hrot in Hx. destruct Hx as [_ Hx].
  destruct (Hx issued eq_refl) as (r1 & Hr1 & Hid1 & Hu1).
  destruct (proj1 (proj2 (grows_kept _ _ HG)) r1 Hr1) as (r2 & Hr2 & Hid & _ & Hu2).
  unfold token_identity in Hid. simplify_eq. split.
  - intros e' n' issued' He'. assert (Hn := exec_rotate_spent e' n' _ r2 Hi Hr2).
    specialize (Hn ltac:(congruence) (Hu2 Hu1) s'.(sy_db) eq_refl).
    destruct (rotate e' n' _) as [[o|] s'']; cbn; [subst o|]; done.
  - intros r input Hr Hrid Hh. eapply refresh_dead_refused; [done..|]. right. left.
    assert (r = r2) as ->; [|by apply Hu2]. eapply api_token_unique; [apply Hi|done..|congruence].
Qed.

(** ** Removal of a member *)

Definition owned (companyId userId : string) (company user : string) : Prop :=
  company = companyId ∧ user = userId.

Lemma of_member_true c u company user : of_member c u company user = true ↔ owned c u company user.
Proof. unfold of_member, owned. by rewrite andb_true_iff, !bool_decide_eq_true. Qed.

(** What a removal leaves. *)
Definition removed (companyId userId : string) (t : tables) : Prop :=
  (∀ r, r ∈ tokens t → owned companyId userId r.(tk_company_id) r.(tk_user_id) → is_Some r.(tk_revoked_at))
  ∧ (∀ g, g ∈ grants t → owned companyId userId g.(gr_company_id) g.(gr_user_id) → is_Some g.(gr_revoked_at))
  ∧ (∀ a, a ∈ codes t → ¬ owned companyId userId a.(ac_company_id) a.(ac_user_id)).

(** An update of exactly the unrevoked rows of an owner. *)
Lemma update_revokes {A} (mine unrevoked : A → bool) (f : A → A) l r :
  r ∈ update_where (λ x, mine x && unrevoked x) f l → (∀ x, mine (f x) = mine x) →
  (∀ x, unrevoked (f x) = false) → mine r = true → unrevoked r = false.
Proof.
  intros (x & _ & ->)%elem_of_update_where Hm Hu Hr. destruct (mine x && unrevoked x) eqn:E; [apply Hu|].
  by rewrite Hr in E.
Qed.

Lemma not_null_is_Some {A} (x : option A) : is_null x = false → is_Some x.
Proof. by destruct x. Qed.

Lemma exec_remove_membership c u t :
  exec (remove_membership c u) t (λ _ t', removed c u t') (λ _ _, True).
Proof.
  unfold remove_membership. exec_steps; [done| |done]. apply exec_update; [|done]. intros _.
  exec_steps. apply exec_update; [|done]. intros _. exec_step. split_and!.
  - intros r Hr Ho%of_member_true. apply not_null_is_Some.
    by eapply (update_revokes (λ r, of_member c u r.(tk_company_id) r.(tk_user_id)) (λ r, is_null r.(tk_revoked_at)) _ _ r Hr).
  - intros g Hg Ho%of_member_true. apply not_null_is_Some.
    by eapply (update_revokes (λ r, of_member c u r.(gr_company_id) r.(gr_user_id)) (λ r, is_null r.(gr_revoked_at)) _ _ g Hg).
  - intros a Ha Ho%of_member_true. unfold codes in Ha. cbn [rows oauth_authorization_codes public_table] in Ha.
    apply elem_of_keep in Ha as [Ha _]. cbn in Ha. by rewrite Ho in Ha.
Qed.

(** C19: Removing a member is a permanent credential boundary.  No authorization code of the member
    is left, and of the tokens that were there, or hang off a grant that was there, none ever
    authenticates again and none is refreshed, whatever happens afterwards: refreshes in
    flight, new codes, a new invitation of the same user. *)
Theorem removal_is_a_boundary c u db db1 fl s' :
  Sound (mkCsys db fl) → remove_membership c u db = (Ok tt, db1) → rtc cstep (mkCsys db1 fl) s' →
  (∀ a, a ∈ codes (tb db1) → ¬ owned c u a.(ac_company_id) a.(ac_user_id))
  ∧ ∀ r, r ∈ tokens (tables_of s') → owned c u r.(tk_company_id) r.(tk_user_id) →
    (∃ r0, r0 ∈ tokens (tb db1) ∧ r0.(tk_id) = r.(tk_id))
    ∨ (∃ g0, g0 ∈ grants (tb db1) ∧ r.(tk_grant_id) = Some g0.(gr_id)) →
    (∀ raw, r.(tk_token_hash) = hashApiToken raw → (verifyApiToken raw s'.(sy_db)).1 = Ok None)
    ∧ (∀ input, r.(tk_refresh_token_hash) = Some (sha256_hex input.(ri_refreshToken)) →
         ∃ message, (refreshTokens input s'.(sy_db)).1 = Throw (OAuthError "invalid_grant" message)).
Proof.
  intros HS Hrem Hrun. assert (Hstep := step_op (RemoveMember c u) db fl). cbn [run_credential_op] in Hstep.
  rewrite Hrem in Hstep. cbn in Hstep. assert (HS1 := Sound_cstep _ _ HS Hstep).
  destruct (Sound_run _ _ HS1 Hrun) as [[Hi Hl _] HG].
  assert (Hx := exec_remove_membership c u (tb db) db eq_refl). rewrite Hrem in Hx. destruct Hx as (Ht & Hg & Hc).
  split; [exact Hc|]. intros r Hr Ho Hold.
  assert (Hdead : is_Some r.(tk_revoked_at)
    ∨ ∃ gr, grant_of (grants (tables_of s')) r = Some gr ∧ is_Some gr.(gr_revoked_at)).
  { destruct Hold as [(r0 & Hr0 & Hid)|(g0 & Hg0 & Hid)].
    - left. destruct (proj1 (proj2 (grows_kept _ _ HG)) r0 Hr0) as (r' & Hr' & Hidr & Hrev & _).
      unfold token_identity in Hidr. simplify_eq.
      assert (r = r') as -> by (eapply api_token_unique; [apply Hi|done..|congruence]).
      apply Hrev, Ht; [done|]. unfold owned in *. destruct Ho. split; congruence.
    - right. destruct (grant_of_linked _ _ _ Hi Hl Hr Hid) as (gr & Hof & Hin & E1 & E2 & E3 & _).
      exists gr. split; [done|]. eapply still_revoked; [by apply grows_kept|done|exact Hg0| |done..].
      apply Hg; [done|]. destruct (proj1 (grows_kept _ _ HG) g0 Hg0) as (g' & Hg' & Hgid & _).
      unfold grant_identity in Hgid. simplify_eq.
      assert (gr = g') as -> by (eapply grant_unique; [apply Hi|done..|congruence]).
      unfold owned in *. destruct Ho. split; congruence. }
  split; [intros raw Hh|intros input Hh].
  - apply exec_ok. eapply verify_dead; [done..|]. intros now.
    destruct Hdead as [?|(gr & ? & ?)]; [by apply revoked_token_dead|by eapply revoked_grant_dead].
  - destruct (refresh_dead_refused input s'.(sy_db) r) as (m & Hm & _); try done; [|by exists m].
    destruct Hdead; [by left|by right; right].
Qed.

(** ** What a token may do *)

(** A token that authenticates is stored, not revoked and not expired, and carries exactly
    the user, the workspace, the scopes and the resource of a grant that is not revoked; a
    personal token carries no resource. *)
Theorem verified_within_grant s raw v db' :
  Sound s → verifyApiToken raw s.(sy_db) = (Ok (Some v), db') →
  ∃ r, r ∈ tokens (tables_of s) ∧ r.(tk_token_hash) = hashApiToken raw
    ∧ r.(tk_id) = v.(vt_id) ∧ r.(tk_revoked_at) = None
    ∧ (∀ z, r.(tk_expires_at) = Some z → ∃ now, clock_reading now ∧ (now < z)%Z)
    ∧ match r.(tk_grant_id) with
      | None => v.(vt_resource) = None
      | Some g => ∃ gr, gr ∈ grants (tables_of s) ∧ gr.(gr_id) = g ∧ gr.(gr_revoked_at) = None
          ∧ v = mkVerified r.(tk_id) gr.(gr_user_id) gr.(gr_company_id) gr.(gr_scopes) (Some gr.(gr_resource))
      end.
Proof.
  intros [Hi Hl _] Hv.
  assert (Hx : exec (verifyApiToken raw) (tables_of s) (λ o _, ∀ v, o = Some v →
    ∃ r now, clock_reading now ∧ first (λ r, bool_decide (r.(tk_token_hash) = hashApiToken raw)) (tokens (tables_of s)) = Some r
      ∧ token_live (grants (tables_of s)) r now = true
      ∧ v = mkVerified r.(tk_id) r.(tk_user_id) r.(tk_company_id) r.(tk_scopes)
              (gr_resource <$> grant_of (grants (tables_of s)) r)) (λ _ _, True)).
  { unfold verifyApiToken. exec_step; [by exec_step|]. do 4 exec_step.
    destruct (first _ (rows api_tokens (tables_of s))) as [r|] eqn:Ef; [|by exec_step].
    rewrite keep_everything. do 2 exec_step. exec_step; [by exec_step|]. do 2 exec_step.
    apply exec_bind. eapply exec_weaken; [apply exec_anything|intros _ t' _|done].
    exec_step. intros v0 [= <-]. exists r, z. split_and!; [done|exact Ef|by to_prop|done]. }
  specialize (Hx s.(sy_db) eq_refl). rewrite Hv in Hx. destruct (Hx v eq_refl) as (r & now & Hc & Hf & Hlive & ->).
  apply first_Some in Hf as [Hin Hh%bool_decide_eq_true_1]. exists r. unfold token_live in Hlive.
  to_prop. split_and!; [done|done|done|by destruct (tk_revoked_at r)| |].
  - intros z Hz. exists now. rewrite Hz in *. by to_prop.
  - destruct (tk_grant_id r) as [g|] eqn:Eg; [|unfold grant_of; by rewrite Eg].
    destruct (grant_of_linked _ _ _ Hi Hl Hin Eg) as (gr & Hof & Hgr & E1 & E2 & E3 & E4).
    exists gr. rewrite Hof in *. split_and!; [done|done|by destruct (gr_revoked_at gr)|].
    cbn. by rewrite E2, E3, E4.
Qed.
End spec.
