(* ===== verification/CodeSpec.v ===== *)
(** Authorization codes: what an exchange needs and leaves, and that a code works once.

    Also the two computations that are run in one piece here and cut at their commits in
    CredentialRuns.v: each is a run of the cut system. *)

From S2P Require Import Prelude Js Permissions PublicRows TenantDb PublicDb Exec Steady OAuth Workflow Team Sessions AccessControl Credentials CredentialRuns CredentialSpec.

(** A later version of a code row: consumed stays consumed. *)
Definition code_identity (a : code_row) := (a.(ac_id), a.(ac_code_hash), a.(ac_user_id), a.(ac_company_id)).
Definition code_later (a a' : code_row) : Prop :=
  code_identity a' = code_identity a ∧ (is_Some a.(ac_consumed_at) → is_Some a'.(ac_consumed_at)).

(** No new codes, and no code is unconsumed. *)
Definition codes_age (t t' : tables) : Prop :=
  ∀ a', a' ∈ codes t' → ∃ a, a ∈ codes t ∧ code_later a a'.
#[export] Instance codes_age_preorder : PreOrder codes_age.
Proof.
  split; [intros t a Ha; by exists a|]. intros t1 t2 t3 H12 H23 a3 H3.
  destruct (H23 a3 H3) as (a2 & H2 & I23 & C23). destruct (H12 a2 H2) as (a1 & H1 & I12 & C12).
  exists a1. split; [done|]. split; [congruence|auto].
Qed.
Lemma codes_age_same t t' : codes t' = codes t → codes_age t t'.
Proof. intros He a. rewrite He. intros Ha. by exists a. Qed.

#[export] Instance codes_age_tokens : Frame codes_age api_tokens.
Proof. intros l t. by apply codes_age_same. Qed.
#[export] Instance codes_age_grants : Frame codes_age oauth_grants.
Proof. intros l t. by apply codes_age_same. Qed.
#[export] Instance codes_age_members : Frame codes_age company_members.
Proof. intros l t. by apply codes_age_same. Qed.
#[export] Instance codes_age_users : Frame codes_age users.
Proof. intros l t. by apply codes_age_same. Qed.
#[export] Instance codes_age_companies : Frame codes_age companies.
Proof. intros l t. by apply codes_age_same. Qed.
#[export] Instance codes_age_stats : Frame codes_age company_stats.
Proof. intros l t. by apply codes_age_same. Qed.
#[export] Instance codes_age_invitations : Frame codes_age invitations.
Proof. intros l t. by apply codes_age_same. Qed.
#[export] Instance codes_age_sessions : Frame codes_age user_sessions.
Proof. intros l t. by apply codes_age_same. Qed.
#[export] Instance codes_age_auth_tokens : Frame codes_age auth_tokens.
Proof. intros l t. by apply codes_age_same. Qed.
#[export] Instance codes_age_clients : Frame codes_age oauth_clients.
Proof. intros l t. by apply codes_age_same. Qed.
#[export] Instance codes_age_invalidations : Frame codes_age membership_invalidations.
Proof. intros l t. by apply codes_age_same. Qed.
#[export] Instance codes_age_policies : Frame codes_age sla_policies.
Proof. intros l t. by apply codes_age_same. Qed.

Section codes.
Context `{Oracle} `{Crypto} `{CaseMapping}.

Lemma steady_consume p now : steady codes_age (update oauth_authorization_codes p (consume_code now)).
Proof.
  intros t. apply exec_update; [|done]. intros _ a' Ha'.
  apply elem_of_update_where in Ha' as (a & Ha & ->). exists a. split; [done|].
  destruct (p a); [split; [done|by eexists]|done].
Qed.
Lemma steady_delete_codes p : steady codes_age (delete_where oauth_authorization_codes p).
Proof. intros t. apply exec_delete_where. intros a' [_ Ha']%elem_of_keep. by exists a'. Qed.
#[local] Hint Resolve steady_consume steady_delete_codes : steady.

Lemma codes_age_op o :
  (∀ i, o ≠ CreateCode i) → steady codes_age (run_credential_op o).
Proof.
  intros Ho. destruct o; [by edestruct Ho|..]; cbn [run_credential_op]; unfold ignore,
    exchangeAuthorizationCode, issueTokens, verifyApiToken, createApiToken, generateApiToken, revokeApiToken,
    remove_membership, uncount_member, acceptInvitation, acceptInvitationInTransaction,
    completeInvitationAcceptance, updateMemberRole, transferOwnership, updateMemberPermissions,
    resetMemberPermissions, insert_company, seedDefaultSlaPolicy, deleteCompany, update_company, invalidateCompanyMembership,
    invalid_grant, getCompany; steady.
Qed.

Lemma codes_age_rotate e n : steady codes_age (rotate e n).
Proof. unfold rotate, issueTokens, invalid_grant. steady. Qed.
Lemma codes_age_revokeGrant g r : steady codes_age (revokeGrant g r).
Proof. unfold revokeGrant. steady. Qed.

(** ** The exchange *)

(** Who may redeem a stored code at an instant: the client it was issued to, within its time,
    with the redirect URI and the resource of the approval and the verifier of its
    challenge. *)
Record redeemable (input : ExchangeCodeInput) (row : code_row) (now : Z) : Prop := {
  rd_unused : row.(ac_consumed_at) = None;
  rd_in_time : (now < row.(ac_expires_at))%Z;
  rd_client : row.(ac_client_id) = input.(xc_clientId);
  rd_redirect : row.(ac_redirect_uri) = input.(xc_redirectUri);
  rd_resource : ∀ r, input.(xc_resource) = Some r → r = row.(ac_resource);
  rd_verifier : sha256_base64url input.(xc_codeVerifier) = row.(ac_code_challenge) }.

(** What is wrong with a code, by the message of its refusal. *)
Inductive code_refusal (input : ExchangeCodeInput) (row : code_row) (now : Z) : string → Prop :=
| refusal_used : is_Some row.(ac_consumed_at) → code_refusal input row now "Authorization code already used"
| refusal_expired : (row.(ac_expires_at) <= now)%Z → code_refusal input row now "Authorization code has expired"
| refusal_client : row.(ac_client_id) ≠ input.(xc_clientId) →
    code_refusal input row now "Authorization code was issued to another client"
| refusal_redirect : row.(ac_redirect_uri) ≠ input.(xc_redirectUri) →
    code_refusal input row now "redirect_uri does not match the authorization request"
| refusal_resource r : input.(xc_resource) = Some r → r ≠ row.(ac_resource) →
    code_refusal input row now "resource does not match the authorization request"
| refusal_verifier : sha256_base64url input.(xc_codeVerifier) ≠ row.(ac_code_challenge) →
    code_refusal input row now "PKCE verification failed".

Lemma verifyPkce_spec verifier challenge :
  verifyPkce verifier challenge = bool_decide (sha256_base64url verifier = challenge).
Proof.
  unfold verifyPkce. destruct (Nat.eqb_spec (String.length (sha256_base64url verifier)) (String.length challenge)) as [|Hl].
  - destruct (String.eqb_spec (sha256_base64url verifier) challenge); by case_bool_decide.
  - case_bool_decide as He; [|done]. by rewrite He in Hl.
Qed.

Lemma check_code_spec input row now :
  match check_code input row now with
  | None => redeemable input row now
  | Some message => code_refusal input row now message
  end.
Proof.
  unfold check_code, some_differs. rewrite verifyPkce_spec.
  destruct (ac_consumed_at row) eqn:E1; cbn [is_null negb]; [apply refusal_used; by rewrite E1|].
  destruct (Z.leb_spec row.(ac_expires_at) now) as [K1|K1]; [by apply refusal_expired|].
  case_bool_decide as K2; [by apply refusal_client|]. case_bool_decide as K3; [by apply refusal_redirect|].
  assert (K4 : (∀ r, xc_resource input = Some r → r = row.(ac_resource)) →
    match (if negb (bool_decide (sha256_base64url input.(xc_codeVerifier) = row.(ac_code_challenge)))
           then Some "PKCE verification failed" else None) with
    | None => redeemable input row now | Some message => code_refusal input row now message end).
  { intros Hr. case_bool_decide; [by split|by apply refusal_verifier]. }
  destruct (xc_resource input) as [r|] eqn:E4; [|by apply K4].
  destruct (decide (r = row.(ac_resource))) as [->|K5].
  - rewrite (bool_decide_eq_false_2 (ac_resource row ≠ ac_resource row)) by tauto. apply K4. by intros r' [= <-].
  - rewrite bool_decide_eq_true_2 by done. by eapply refusal_resource.
Qed.

(** What a successful exchange found and wrote. *)
Record exchanged (input : ExchangeCodeInput) (t t' : tables) (issued : IssuedTokens) (row : code_row)
    (g : grant_row) (tok : api_token_row) : Prop := {
  ex_row : first (λ r, bool_decide (r.(ac_code_hash) = sha256_hex input.(xc_code))) (codes t) = Some row;
  ex_checks : ∃ now, clock_reading now ∧ redeemable input row now;
  ex_member : is_Some (first (is_membership row.(ac_company_id) row.(ac_user_id)) (memberships t));
  ex_consumed : ∃ now, codes t' = update_where (λ r, bool_decide (r.(ac_id) = row.(ac_id))) (consume_code now) (codes t);
  ex_grants : grants t' = grants t ++ [g];
  ex_tokens : tokens t' = tokens t ++ [tok];
  ex_grant : grant_identity g = (g.(gr_id), row.(ac_user_id), row.(ac_company_id), row.(ac_client_id),
                                 row.(ac_scopes), row.(ac_resource)) ∧ g.(gr_revoked_at) = None;
  ex_token : token_identity tok = (tok.(tk_id), row.(ac_user_id), row.(ac_company_id),
      sha256_hex issued.(is_accessToken), row.(ac_scopes), Some g.(gr_id), Some (sha256_hex issued.(is_refreshToken)))
    ∧ tok.(tk_revoked_at) = None ∧ tok.(tk_refresh_used_at) = None;
  ex_scopes : issued.(is_scopes) = row.(ac_scopes) }.

(** Why an exchange is refused. *)
Inductive exchange_refused (input : ExchangeCodeInput) (t : tables) : err → Prop :=
| refused_unknown :
    first (λ r, bool_decide (r.(ac_code_hash) = sha256_hex input.(xc_code))) (codes t) = None →
    exchange_refused input t (OAuthError "invalid_grant" "Unknown authorization code")
| refused_check row now message :
    first (λ r, bool_decide (r.(ac_code_hash) = sha256_hex input.(xc_code))) (codes t) = Some row →
    clock_reading now → code_refusal input row now message →
    exchange_refused input t (OAuthError "invalid_grant" message)
| refused_member row :
    first (λ r, bool_decide (r.(ac_code_hash) = sha256_hex input.(xc_code))) (codes t) = Some row →
    first (is_membership row.(ac_company_id) row.(ac_user_id)) (memberships t) = None →
    exchange_refused input t (OAuthError "invalid_grant" "Workspace membership is no longer active")
| refused_constraint e :
    (∃ l, constraint oauth_authorization_codes l = Some e) ∨ (∃ l, constraint oauth_grants l = Some e)
    ∨ (∃ l, constraint api_tokens l = Some e) →
    exchange_refused input t e.

Lemma exec_exchange input t :
  exec (exchangeAuthorizationCode input) t
    (λ issued t', ∃ row g tok, exchanged input t t' issued row g tok)
    (λ e t', t' = t ∧ exchange_refused input t e).
Proof.
  unfold exchangeAuthorizationCode, requireActiveMembership, invalid_grant. do 3 exec_step. exec_step.
  2:{ exec_step. split; [done|]. by apply refused_unknown. }
  do 2 exec_step. assert (Hck := check_code_spec input c z).
  exec_step; [exec_step; split; [done|by eapply refused_check]|].
  do 3 exec_step. exec_step.
  2:{ exec_step. split; [done|]. by eapply refused_member. }
  do 3 exec_step. apply exec_bind, exec_update.
  2:{ intros e He. split; [done|]. apply refused_constraint. left. by eexists. }
  intros Hc1. exec_steps. apply exec_insert_row.
  2:{ intros e He. split; [done|]. apply refused_constraint. right. left. by eexists. }
  intros Hc2. unfold issueTokens, randomSecret. exec_steps. apply exec_insert_row.
  2:{ intros e He. split; [done|]. apply refused_constraint. right. right. by eexists. }
  intros Hc3. exec_step. do 3 eexists. split;
    [exact E|by exists z|by eexists; exact E1|by exists z0|reflexivity|reflexivity|done|done|done].
Qed.

(** C20: An authorization code is exchanged exactly as promised.  Tokens are issued only for a stored,
    unconsumed and unexpired code, presented by the client it was issued to with its redirect
    URI, resource and PKCE verifier, while its user is a member; then the code is consumed
    and one grant and one token are added that carry the code's user, workspace, scopes and
    resource.  Every refusal leaves the tables unchanged. *)
Theorem exchange_outcome input s :
  match exchangeAuthorizationCode input s with
  | (Ok issued, s') => ∃ row g tok, exchanged input (tb s) (tb s') issued row g tok
  | (Throw e, s') => tb s' = tb s ∧ exchange_refused input (tb s) e
  end.
Proof. exact (exec_run _ _ _ _ (exec_exchange input (tb s))). Qed.

(** ** A code works once *)

(** Every stored code with a hash is consumed. *)
Definition spent_code (h : string) (t : tables) : Prop :=
  ∀ a, a ∈ codes t → a.(ac_code_hash) = h → is_Some a.(ac_consumed_at).

Lemma spent_code_age h t t' : codes_age t t' → spent_code h t → spent_code h t'.
Proof.
  intros Ht Hs a' Ha' Hh. destruct (Ht a' Ha') as (a & Ha & Hi & Hc).
  unfold code_identity in Hi. simplify_eq. apply Hc, Hs; [done|congruence].
Qed.

(** A step that draws no secret with the hash of an earlier code. *)
Definition avoids (h : string) (s s' : csys) : Prop :=
  cstep s s' ∧ ∀ a', a' ∈ codes (tables_of s') → a'.(ac_code_hash) = h →
               ∃ a, a ∈ codes (tables_of s) ∧ a.(ac_code_hash) = h.

Lemma exec_createAuthorizationCode i t :
  exec (createAuthorizationCode i) t
    (λ _ t', ∃ a, codes t' = codes t ++ [a]
       ∧ constraint oauth_authorization_codes (codes t ++ [a]) = None) (λ _ t', codes t' = codes t).
Proof.
  unfold createAuthorizationCode, randomSecret. exec_steps. apply exec_insert_row; [|done].
  intros Hc. exec_step. by eexists.
Qed.

(** A refused or duplicate code is not stored. *)
Lemma spent_code_create h i s :
  (∀ a', a' ∈ codes (tb (createAuthorizationCode i s).2) → a'.(ac_code_hash) = h →
     ∃ a, a ∈ codes (tb s) ∧ a.(ac_code_hash) = h) →
  spent_code h (tb s) → spent_code h (tb (createAuthorizationCode i s).2).
Proof.
  intros Hav Hs. assert (Hx := exec_createAuthorizationCode i (tb s) s eq_refl).
  destruct (createAuthorizationCode i s) as [[c|e] s']; cbn [snd] in *;
    [|intros a Ha; rewrite Hx in Ha; by apply Hs].
  destruct Hx as (a & Hc & Hu). intros a' Ha' Hh. assert (Hin := Ha'). rewrite Hc in Hin.
  apply elem_of_app in Hin as [Hin| ->%list_elem_of_singleton]; [by apply Hs|].
  destruct (Hav a Ha' Hh) as (a0 & Ha0 & Hh0). cbn -[checks unique_on] in Hu.
  rewrite !checks_cons in Hu. destruct Hu as (_ & Hu & _).
  assert (a = a0) as ->; [|by apply Hs]. eapply (unique_on_eq (Some ∘ ac_code_hash)); [exact Hu|..].
  - apply elem_of_app. right. by left.
  - apply elem_of_app. by left.
  - done.
  - cbn. congruence.
Qed.

Lemma spent_code_step h s s' : avoids h s s' → spent_code h (tables_of s) → spent_code h (tables_of s').
Proof.
  intros [Hs Hav] Hsp. unfold tables_of in *. destruct Hs as [o s fl|i s fl|g c u a s fl|e n s fl1 fl2|g r s fl1 fl2|f s fl1 fl2]; cbn in *.
  - destruct o as [i|i|raw|i|t c u a|c u|c|c|t u|c u r|c o n|c u p|c u|c i l w|c|c i k w];
      try (eapply spent_code_age; [|exact Hsp]; by apply exec_end, codes_age_op).
    cbn in *. unfold ignore in *. cbv [mbind M_bind] in *.
    destruct (createAuthorizationCode i s) as [[x|x] s'] eqn:Es;
      [change s' with (snd (Ok x : result string, s'))|change s' with (snd (Throw x : result string, s'))];
      rewrite <- Es; apply spent_code_create; by rewrite ?Es.
  - by rewrite (proj1 (begin_refresh_spec i s)).
  - done.
  - eapply spent_code_age; [|exact Hsp]. apply exec_end, codes_age_rotate.
  - eapply spent_code_age; [|exact Hsp]. apply exec_end, codes_age_revokeGrant.
  - done.
Qed.

(** C21: An authorization code is redeemed once.  After an exchange that issued tokens, no later
    exchange of the same code does, under any interleaving of requests that does not draw
    the same secret again. *)
Theorem code_redeemed_once input input' issued db db1 fl s' :
  constraint oauth_authorization_codes (codes (tb db)) = None →
  exchangeAuthorizationCode input db = (Ok issued, db1) →
  rtc (avoids (sha256_hex input.(xc_code))) (mkCsys db1 fl) s' →
  input'.(xc_code) = input.(xc_code) →
  ∀ issued', (exchangeAuthorizationCode input' s'.(sy_db)).1 ≠ Ok issued'.
Proof.
  intros Hc Hex Hrun Hsame issued'. assert (Hx := exec_exchange input (tb db) db eq_refl).
  rewrite Hex in Hx. destruct Hx as (row & g & tok & [Hrow _ _ (now & Hcodes) _ _ _ _ _]).
  assert (Hsp : spent_code (sha256_hex input.(xc_code)) (tables_of (mkCsys db1 fl))).
  { intros a Ha Hh. unfold tables_of in Ha. cbn [sy_db] in Ha. rewrite Hcodes in Ha.
    apply elem_of_update_where in Ha as (a0 & Ha0 & ->). apply first_Some in Hrow as [Hin Hhr].
    apply bool_decide_eq_true_1 in Hhr. case_bool_decide as Hne; [by eexists|].
    destruct Hne. f_equal. cbn -[checks unique_on] in Hc. rewrite !checks_cons in Hc. destruct Hc as (_ & Hu & _).
    eapply (unique_on_eq (Some ∘ ac_code_hash)); [exact Hu|done..|]. cbn. congruence. }
  assert (Hend : spent_code (sha256_hex input.(xc_code)) (tables_of s')).
  { clear -Hsp Hrun. induction Hrun as [|x y z Hxy _ IH]; [done|]. apply IH. by eapply spent_code_step. }
  intros Hok. assert (Hx := exec_exchange input' (tb s'.(sy_db)) _ eq_refl).
  destruct (exchangeAuthorizationCode input' _) as [[i|e] s2]; [|done].
  destruct Hx as (row' & g' & tok' & [Hrow' (now' & _ & [Hck _ _ _ _ _]) _ _ _ _ _ _ _]).
  apply first_Some in Hrow' as [Hin' Hh']. apply bool_decide_eq_true_1 in Hh'. rewrite Hsame in Hh'.
  destruct (Hend row' Hin' Hh') as [z Hz]. by rewrite Hz in Hck.
Qed.

(** ** The pieces compose *)

(** The one-piece refresh is a run of the cut system. *)
Lemma refreshTokens_run input s :
  ∃ fl', rtc cstep (mkCsys s []) (mkCsys (refreshTokens input s).2 fl').
Proof.
  assert (S1 := step_refresh input s []). unfold refreshTokens. unfold begin_refresh in *.
  cbv [mbind M_bind mret M_ret] in *.
  destruct (lookup_refresh (sha256_hex (ri_refreshToken input)) s) as [[existing|x] s1]; cbn in *;
    [|exists []; by apply rtc_once].
  set (now := app_clock (clock_reads s1)) in *. set (s2 := mkDb _ _ _ _ _) in *.
  destruct (check_refresh input existing now) as [m|reason m|] eqn:Ec, existing as [e|]; cbn in *;
    try (exists []; by apply rtc_once); try (unfold check_refresh in Ec; discriminate).
  - assert (S2 := step_burn e.(rl_grant_id) reason s2 [] []). cbn in S2.
    exists []. eapply rtc_l; [exact S1|]. apply rtc_once. by destruct (revokeGrant _ _ s2) as [[]?].
  - assert (S2 := step_rotate e input.(ri_clientName) s2 [] []). cbn in S2.
    destruct (rotate e (ri_clientName input) s2) as [[[issued|]|x] s3]; cbn in *.
    + exists []. eapply rtc_l; [exact S1|apply rtc_once; exact S2].
    + exists []. eapply rtc_l; [exact S1|]. eapply rtc_l; [exact S2|].
      assert (S3 := step_burn e.(rl_grant_id) "refresh_token_reuse" s3 [] []). cbn in S3.
      apply rtc_once. by destruct (revokeGrant _ _ s3) as [[]?].
    + exists []. eapply rtc_l; [exact S1|apply rtc_once; exact S2].
Qed.

(** The refresh endpoint and the disconnection of an app, run in one piece, are runs of the
    system that cuts them where they commit, so the promises about every interleaving hold
    for them. *)
Theorem one_piece_is_a_run :
  (∀ input s, ∃ fl', rtc cstep (mkCsys s []) (mkCsys (refreshTokens input s).2 fl'))
  ∧ (∀ g c u a s, ∃ fl', rtc cstep (mkCsys s []) (mkCsys (revokeConnectedApp g c u a s).2 fl')).
Proof.
  split; [apply refreshTokens_run|]. intros g c u a s.
  assert (S1 := step_disconnect g c u a s []). unfold revokeConnectedApp, begin_disconnect in *.
  cbv [mbind M_bind mret M_ret] in *. destruct (find_connected_app g c u a s) as [[[gr|]|x] s1]; cbn in *.
  - exists []. eapply rtc_l; [exact S1|].
    assert (S2 := step_burn gr.(gr_id) "user_revoked" s1 [] []). cbn in S2.
    apply rtc_once. by destruct (revokeGrant _ _ s1) as [[]?].
  - exists []. by apply rtc_once.
  - exists []. by apply rtc_once.
Qed.
End codes.
