(* ===== verification/TeamSpec.v ===== *)
(** The team of a workspace: members, owner, invitations and the member counter.

    [Team p t] is what holds between requests of a database [t] while the removals of
    the workspaces [p] are committed and not yet counted.  Every request of Team.v
    and the acceptance inside [verifyEmail] keep it. *)

From S2P Require Import Prelude Js Permissions PublicRows TenantDb PublicDb Exec Steady OAuth Workflow Team Sessions Credentials CredentialRuns.

Definition workspaces (t : tables) : list company_row := rows companies t.
Definition invited (t : tables) : list invitation_row := rows invitations t.
Definition counters (t : tables) : list stats_row := rows company_stats t.

Definition in_company (c : string) (m : member_row) : bool := bool_decide (m.(mb_company_id) = c).
Definition headcount (c : string) (t : tables) : Z := Z.of_nat (length (keep (in_company c) (memberships t))).
Definition pending (c : string) (p : list string) : Z := Z.of_nat (length (keep (λ x, bool_decide (x = c)) p)).

Record Team (p : list string) (t : tables) : Prop := {
  team_members : constraint company_members (memberships t) = None;
  team_workspaces : constraint companies (workspaces t) = None;
  team_counters : constraint company_stats (counters t) = None;
  (** Every member is in a workspace that exists. *)
  team_homes : ∀ m, m ∈ memberships t → ∃ w, w ∈ workspaces t ∧ w.(co_id) = m.(mb_company_id);
  (** Every workspace has an owner, and only one. *)
  team_owned : ∀ w, w ∈ workspaces t →
    ∃ m, m ∈ memberships t ∧ m.(mb_company_id) = w.(co_id) ∧ m.(mb_role) = owner;
  team_one_owner : ∀ m m', m ∈ memberships t → m' ∈ memberships t → m.(mb_role) = owner →
    m'.(mb_role) = owner → m.(mb_company_id) = m'.(mb_company_id) → m = m';
  (** An invitation never makes an owner. *)
  team_invited : ∀ i, i ∈ invited t → i.(iv_role) ≠ owner;
  (** The counter of a workspace is its members and the removals not yet counted. *)
  team_counted : ∀ s, s ∈ counters t →
    s.(st_active_users) = (headcount s.(st_company_id) t + pending s.(st_company_id) p)%Z;
  team_pending : ∀ c, c ∈ p → ∃ w, w ∈ workspaces t ∧ w.(co_id) = c }.

(** The parts of the tables that [Team] reads. *)
Lemma Team_same p t t' :
  memberships t' = memberships t → workspaces t' = workspaces t → invited t' = invited t →
  counters t' = counters t → Team p t → Team p t'.
Proof.
  intros Hm Hw Hi Hc [H1 H2 H3 H4 H5 H6 H7 H8 H9]. unfold headcount in *.
  split; unfold headcount; rewrite ?Hm, ?Hw, ?Hi, ?Hc; done.
Qed.

Definition stays (p : list string) (t t' : tables) : Prop := Team p t → Team p t'.
#[export] Instance stays_preorder p : PreOrder (stays p).
Proof. split; [by intros t HT|]. intros t1 t2 t3 H12 H23 HT. by apply H23, H12. Qed.

Lemma stays_same p t t' :
  memberships t' = memberships t → workspaces t' = workspaces t → invited t' = invited t →
  counters t' = counters t → stays p t t'.
Proof. intros ? ? ? ? HT. by eapply (Team_same p t). Qed.

#[export] Instance stays_users p : Frame (stays p) users.
Proof. intros l t. by apply stays_same. Qed.
#[export] Instance stays_sessions p : Frame (stays p) user_sessions.
Proof. intros l t. by apply stays_same. Qed.
#[export] Instance stays_auth_tokens p : Frame (stays p) auth_tokens.
Proof. intros l t. by apply stays_same. Qed.
#[export] Instance stays_tokens p : Frame (stays p) api_tokens.
Proof. intros l t. by apply stays_same. Qed.
#[export] Instance stays_grants p : Frame (stays p) oauth_grants.
Proof. intros l t. by apply stays_same. Qed.
#[export] Instance stays_codes p : Frame (stays p) oauth_authorization_codes.
Proof. intros l t. by apply stays_same. Qed.
#[export] Instance stays_clients p : Frame (stays p) oauth_clients.
Proof. intros l t. by apply stays_same. Qed.
#[export] Instance stays_invalidations p : Frame (stays p) membership_invalidations.
Proof. intros l t. by apply stays_same. Qed.
#[export] Instance stays_policies p : Frame (stays p) sla_policies.
Proof. intros l t. by apply stays_same. Qed.

(** ** Members by key *)

Lemma member_unique (l : list member_row) a b :
  constraint company_members l = None → a ∈ l → b ∈ l →
  a.(mb_id) = b.(mb_id) ∨ (a.(mb_user_id) = b.(mb_user_id) ∧ a.(mb_company_id) = b.(mb_company_id)) → a = b.
Proof.
  intros Hc Ha Hb He. cbn -[checks unique_on] in Hc. rewrite !checks_cons in Hc. destruct Hc as (H1 & H2 & _).
  destruct He as [He|[He He']].
  - eapply (unique_on_eq (Some ∘ mb_id)); [exact H1|done..|]. cbn. by rewrite He.
  - eapply (unique_on_eq member_key); [exact H2|done..|]. unfold member_key. by rewrite He, He'.
Qed.
Lemma workspace_unique (l : list company_row) a b :
  constraint companies l = None → a ∈ l → b ∈ l → a.(co_id) = b.(co_id) → a = b.
Proof.
  intros Hc Ha Hb He. cbn -[checks unique_on] in Hc. rewrite checks_cons in Hc. destruct Hc as (H1 & _).
  eapply (unique_on_eq (Some ∘ co_id)); [exact H1|done..|]. cbn. by rewrite He.
Qed.
Lemma is_membership_true c u m :
  is_membership c u m = true ↔ m.(mb_company_id) = c ∧ m.(mb_user_id) = u.
Proof. unfold is_membership. by rewrite andb_true_iff, !bool_decide_eq_true. Qed.

(** ** Statements *)

(** New members: what they must satisfy. *)
Lemma Team_put_members p p' l t :
  Team p t → constraint company_members l = None →
  (∀ m, m ∈ l → ∃ w, w ∈ workspaces t ∧ w.(co_id) = m.(mb_company_id)) →
  (∀ w, w ∈ workspaces t → ∃ m, m ∈ l ∧ m.(mb_company_id) = w.(co_id) ∧ m.(mb_role) = owner) →
  (∀ m m', m ∈ l → m' ∈ l → m.(mb_role) = owner → m'.(mb_role) = owner →
     m.(mb_company_id) = m'.(mb_company_id) → m = m') →
  (∀ c, Z.of_nat (length (keep (in_company c) l)) + pending c p' = headcount c t + pending c p)%Z →
  (∀ c, c ∈ p' → ∃ w, w ∈ workspaces t ∧ w.(co_id) = c) →
  Team p' (set_rows company_members l t).
Proof.
  intros [H1 H2 H3 H4 H5 H6 H7 H8 H9] Hc Hh Ho H1o Hn Hp. split; try done.
  intros s Hs. rewrite (H8 s Hs). unfold headcount at 2. cbn. by rewrite Hn.
Qed.

Section updates.
Context (q : member_row → bool) (f : member_row → member_row)
  (Hid : ∀ m, (f m).(mb_company_id) = m.(mb_company_id)).

Lemma length_in_company c l :
  length (keep (in_company c) (update_where q f l)) = length (keep (in_company c) l).
Proof using Hid.
  assert (Hp : ∀ m, in_company c (f m) = in_company c m) by (intros m; unfold in_company; by rewrite Hid).
  unfold update_where. induction l as [|m l IH]; [done|]. rewrite fmap_cons, !keep_cons.
  destruct (q m); rewrite ?Hp; destruct (in_company c m); cbn; lia.
Qed.

(** An update that makes no owner and deposes none. *)
Lemma Team_update_members p t :
  Team p t → constraint company_members (update_where q f (memberships t)) = None →
  (∀ m, m ∈ memberships t → q m = true → (f m).(mb_role) = owner ↔ m.(mb_role) = owner) →
  Team p (set_rows company_members (update_where q f (memberships t)) t).
Proof using Hid.
  intros HT Hc Hr.
  assert (Hrole : ∀ m, m ∈ memberships t → (if q m then f m else m).(mb_role) = owner ↔ m.(mb_role) = owner).
  { intros m Hm. destruct (q m) eqn:E; [by apply Hr|done]. }
  assert (Hco : ∀ m, (if q m then f m else m).(mb_company_id) = m.(mb_company_id)).
  { intros m. destruct (q m); auto. }
  apply (Team_put_members p p); [done..| | | | |by apply HT].
  - intros m (m0 & Hm & ->)%elem_of_update_where. rewrite Hco. by apply HT.
  - intros w Hw. destruct (team_owned _ _ HT w Hw) as (m & Hm & Hw' & Ho).
    exists (if q m then f m else m). rewrite Hco. split_and!; [|done|by apply Hrole].
    apply elem_of_update_where. by exists m.
  - intros m m' (m0 & Hm & ->)%elem_of_update_where (m1 & Hm' & ->)%elem_of_update_where Ho Ho'.
    rewrite !Hco. intros He. rewrite Hrole in Ho, Ho' by done.
    assert (m0 = m1) as ->; [|done]. by apply HT.
  - intros c. by rewrite length_in_company.
Qed.
End updates.

Section operations.
Context `{Oracle} `{Crypto} `{CaseMapping}.

Lemma steady_set_permissions p q x : steady (stays p) (update company_members q (set_permissions x)).
Proof. intros t. apply exec_update; [|done]. intros Hc HT. by apply Team_update_members. Qed.

Lemma Team_update_companies p q g t :
  (∀ w, co_id (g w) = co_id w) → constraint companies (update_where q g (rows companies t)) = None →
  stays p t (set_rows companies (update_where q g (rows companies t)) t).
Proof.
  intros Hg Hc HT. destruct HT as [T1 T2 T3 T4 T5 T6 T7 T8 T9].
  set (f := λ w, if q w then g w else w).
  assert (Hid : ∀ w, co_id (f w) = co_id w) by (intros w; unfold f; destruct (q w); [apply Hg|done]).
  assert (Hin : ∀ w, w ∈ workspaces t → f w ∈ update_where q g (workspaces t)).
  { intros w Hw. apply elem_of_update_where. by exists w. }
  split; try done; cbn.
  - intros m Hm. destruct (T4 m Hm) as (w & Hw & <-). exists (f w). by rewrite Hid; auto.
  - intros w' (w & Hw & ->)%elem_of_update_where. change (if q w then _ else w) with (f w). rewrite Hid. auto.
  - intros c Hc'. destruct (T9 c Hc') as (w & Hw & <-). exists (f w). by rewrite Hid; auto.
Qed.
Lemma steady_set_company_status p q s now : steady (stays p) (update companies q (set_company_status s now)).
Proof. intros t. apply exec_update; [|done]. intros Hc. by apply Team_update_companies. Qed.

(** Invitations of any table whose roles are no owner's. *)
Lemma Team_put_invitations p l t :
  (∀ i, i ∈ l → i.(iv_role) ≠ owner) → stays p t (set_rows invitations l t).
Proof. intros Hl HT. by destruct HT. Qed.
Lemma steady_insert_invitation p i : i.(iv_role) ≠ owner → steady (stays p) (insert_row invitations i).
Proof.
  intros Hi t. apply exec_insert_row; [|done]. intros _ HT. apply Team_put_invitations; [|done].
  intros j [Hj| ->%list_elem_of_singleton]%elem_of_app; [by apply HT|done].
Qed.
Lemma steady_delete_invitations p q : steady (stays p) (delete_where invitations q).
Proof.
  intros t. apply exec_delete_where. intros HT. apply Team_put_invitations; [|done].
  intros j [_ Hj]%elem_of_keep. by apply HT.
Qed.
Lemma Team_update_invitations p q f t :
  (∀ i, (f i).(iv_role) = i.(iv_role)) →
  stays p t (set_rows invitations (update_where q f (rows invitations t)) t).
Proof.
  intros Hf HT. apply Team_put_invitations; [|done].
  intros j (i & Hi & ->)%elem_of_update_where. destruct (q i); rewrite ?Hf; by apply HT.
Qed.
Lemma steady_reissue p q a b c : steady (stays p) (update invitations q (reissue_row a b c)).
Proof. intros t. apply exec_update; [|done]. intros _. by apply Team_update_invitations. Qed.
Lemma steady_reissue_returning p q a b c : steady (stays p) (update_returning invitations q (reissue_row a b c)).
Proof. intros t. apply exec_update_returning; [|done]. intros _. by apply Team_update_invitations. Qed.
Lemma role_of_not_owner r : role_of r ≠ owner.
Proof. by destruct r. Qed.
#[local] Hint Resolve steady_set_permissions steady_set_company_status steady_delete_invitations
  steady_reissue steady_reissue_returning steady_insert_invitation role_of_not_owner : steady.

(** ** The requests that are steady statement by statement *)

Lemma steady_invalidateCompanyMembership p c : steady (stays p) (invalidateCompanyMembership c).
Proof. unfold invalidateCompanyMembership. steady. Qed.
#[local] Hint Resolve steady_invalidateCompanyMembership : steady.
Lemma stays_updateMemberPermissions p c u x : steady (stays p) (updateMemberPermissions c u x).
Proof. unfold updateMemberPermissions. steady. Qed.
Lemma stays_resetMemberPermissions p c u : steady (stays p) (resetMemberPermissions c u).
Proof. unfold resetMemberPermissions. steady. Qed.
Lemma stays_deleteCompany p c : steady (stays p) (deleteCompany c).
Proof. unfold deleteCompany. steady. Qed.
Lemma stays_update_company p c i k now : steady (stays p) (update_company c i k now).
Proof.
  intros t. apply exec_update_returning; [|done]. intros Hc. by apply Team_update_companies.
Qed.
Lemma steady_rollback p drop c :
  (∀ c, steady (stays p) (drop c)) → steady (stays p) (rollbackFailedWorkspace drop c).
Proof. intros Hd. unfold rollbackFailedWorkspace. steady. Qed.
Lemma steady_authorizeInvitation (R : tables → tables → Prop) `{!PreOrder R} c u r x :
  steady R (authorizeInvitation c u r x).
Proof. unfold authorizeInvitation, read_member_data. steady. Qed.
#[local] Hint Resolve steady_authorizeInvitation : steady.
Lemma steady_create_invitation p c i u : steady (stays p) (create_invitation c i u).
Proof. unfold create_invitation. steady. Qed.
Lemma steady_settle_invitation p i old d : steady (stays p) (settle_invitation i old d).
Proof. unfold settle_invitation. steady. Qed.
Lemma steady_cancelInvitation p c i : steady (stays p) (cancelInvitation c i).
Proof. unfold cancelInvitation. steady. Qed.
Lemma steady_reissue_invitation p c i u : steady (stays p) (reissue_invitation c i u).
Proof. unfold reissue_invitation. steady. Qed.
Lemma steady_settle_resend p a b d : steady (stays p) (settle_resend a b d).
Proof. unfold settle_resend. steady. Qed.
End operations.
#[export] Hint Resolve steady_set_permissions steady_set_company_status steady_delete_invitations
  steady_reissue steady_reissue_returning steady_insert_invitation role_of_not_owner
  steady_invalidateCompanyMembership stays_updateMemberPermissions stays_resetMemberPermissions
  stays_deleteCompany stays_update_company steady_rollback steady_authorizeInvitation
  steady_create_invitation steady_settle_invitation steady_cancelInvitation
  steady_reissue_invitation steady_settle_resend : steady.

(** ** The acceptance of an invitation *)

Section acceptance.
Context `{Oracle} `{Crypto} `{CaseMapping}.

(** What an acceptance found and wrote. *)
Record joined (token userId : string) (t t' : tables) (r : company_row * member_row)
    (i : invitation_row) (u : user_row) : Prop := {
  jn_invitation : first (λ i, bool_decide (i.(iv_token) = token) && is_null i.(iv_accepted_at)) (invited t) = Some i;
  jn_unexpired : ∃ now, clock_reading now ∧ (now <= i.(iv_expires_at))%Z;
  jn_recipient : first (λ u, bool_decide (u.(us_id) = userId)) (rows users t) = Some u;
  jn_address : invitationEmailMatches i.(iv_email) u.(us_email) = true;
  jn_new : first (is_membership i.(iv_company_id) userId) (memberships t) = None;
  jn_workspace : r.1 ∈ workspaces t ∧ r.1.(co_id) = i.(iv_company_id) ∧ r.1.(co_status) ≠ company_deleted;
  jn_member : ∃ id at_, r.2 = mkMember id userId i.(iv_company_id) i.(iv_role) (Some i.(iv_permissions))
                                (Some i.(iv_invited_by)) at_;
  jn_members : memberships t' = memberships t ++ [r.2];
  jn_accepted : ∃ at_, invited t' = update_where
    (λ j, bool_decide (j.(iv_id) = i.(iv_id)) && is_null j.(iv_accepted_at)) (accept_row at_) (invited t);
  jn_counted : ∃ at_, counters t' = update_where (λ s, bool_decide (s.(st_company_id) = i.(iv_company_id)))
                        (set_active_users (λ n, (n + 1)%Z) at_) (counters t);
  jn_workspaces : workspaces t' = workspaces t;
  jn_indexed : constraint company_members (memberships t') = None ∧ constraint company_stats (counters t') = None }.

(** Why an acceptance is refused. *)
Inductive join_refused (token userId : string) (t : tables) : err → Prop :=
| refused_no_invitation :
    first (λ i, bool_decide (i.(iv_token) = token) && is_null i.(iv_accepted_at)) (invited t) = None →
    join_refused token userId t (InvitationNotFoundError token)
| refused_expired i now : i ∈ invited t → i.(iv_token) = token → clock_reading now → (i.(iv_expires_at) < now)%Z →
    join_refused token userId t InvitationExpiredError
| refused_address i : i ∈ invited t → i.(iv_token) = token →
    (∀ u, first (λ u, bool_decide (u.(us_id) = userId)) (rows users t) = Some u →
          invitationEmailMatches i.(iv_email) u.(us_email) = false) →
    join_refused token userId t InvitationEmailMismatchError
| refused_colleague i m email : i ∈ invited t → i.(iv_token) = token → m ∈ memberships t →
    is_membership i.(iv_company_id) userId m = true → join_refused token userId t (UserAlreadyMemberError email)
| refused_workspace i : i ∈ invited t → i.(iv_token) = token →
    (∀ w, w ∈ workspaces t → w.(co_id) = i.(iv_company_id) → w.(co_status) = company_deleted) →
    join_refused token userId t (CompanyNotFoundError i.(iv_company_id)).

(** The errors of an index. *)
Definition constraint_error (e : err) : Prop :=
  (∃ l, constraint invitations l = Some e) ∨ (∃ l, constraint company_members l = Some e)
  ∨ (∃ l, constraint company_stats l = Some e).

Lemma exec_acceptance token userId t :
  exec (acceptInvitationInTransaction token userId) t
    (λ r t', ∃ i u, joined token userId t t' r i u)
    (λ e t', (t' = t ∧ join_refused token userId t e) ∨ constraint_error e).
Proof.
  unfold acceptInvitationInTransaction, getCompany. do 2 exec_step. exec_step.
  2:{ exec_step. left. split; [done|]. by apply refused_no_invitation. }
  rename i into inv. destruct (first_Some _ _ _ E) as [Hin Htok]. to_prop.
  change (rows invitations t) with (invited t) in *. do 2 exec_step.
  exec_step; [exec_step; left; split; [done|by eapply refused_expired; to_prop]|]. do 2 exec_step.
  exec_step. 2:{ exec_step. left. split; [done|]. eapply (refused_address _ _ _ inv); [done..|]. intros v Hv. congruence. }
  exec_step.
  { exec_step. left. split; [done|]. eapply (refused_address _ _ _ inv); [done..|].
    intros v Hv. assert (u = v) as <- by congruence. by destruct (invitationEmailMatches _ _). }
  do 2 exec_step. exec_step.
  { destruct (first_Some _ _ _ E3) as [Hm Hmem]. exec_step. left. split; [done|]. by eapply (refused_colleague _ _ _ inv). }
  do 3 exec_step. exec_step.
  2:{ exec_step. left. split; [done|]. eapply refused_workspace; [done..|]. intros w Hw Hid.
      rewrite first_None in E4. specialize (E4 w Hw). rewrite bool_decide_eq_true_2 in E4 by done.
      destruct (decide (co_status w = company_deleted)); [done|by rewrite bool_decide_eq_true_2 in E4]. }
  destruct (first_Some _ _ _ E4) as [Hw Hlive]. to_prop.
  exec_step. do 2 exec_step. apply exec_bind, exec_update; [|intros e He; right; left; by eexists].
  intros Hc1. exec_step.
  { exfalso. destruct (keep _ _) eqn:Ek; [|done].
    rewrite keep_nil_iff in Ek. specialize (Ek inv Hin). rewrite bool_decide_eq_true_2 in Ek by done.
    cbn in Ek. congruence. }
  do 4 exec_step. apply exec_bind, exec_insert_row; [|intros e He; right; right; left; by eexists].
  intros Hc2. do 2 exec_step. apply exec_bind, exec_update; [|intros e He; right; right; right; by eexists].
  intros Hc3. exec_step. exists inv, u.
  split; [done|exists z; split; [done|by to_prop]|done|by destruct (invitationEmailMatches _ _)|done|done|
    by eexists _, _|done|by eexists|by eexists|done|done].
Qed.
End acceptance.

(** ** The requests that move a member *)

Lemma NoDup_unique_on {R K} `{EqDecision K} (key : R → K) l : unique_on (Some ∘ key) l = true → NoDup l.
Proof.
  unfold unique_on. rewrite bool_decide_eq_true. intros Hn. apply (NoDup_fmap_1 key).
  replace (key <$> l) with (omap (Some ∘ key) l); [done|].
  clear. induction l as [|x l IH]; [done|]. cbn. by f_equal.
Qed.
(** The rows that meet a condition, when only one can. *)
Lemma keep_only {A} (q : A → bool) l x :
  NoDup l → x ∈ l → q x = true → (∀ y, y ∈ l → q y = true → y = x) → keep q l = [x].
Proof.
  intros Hn Hx Hq Hu. assert (Hk : ∀ y, y ∈ keep q l ↔ y ∈ [x]).
  { intros y. rewrite elem_of_keep, list_elem_of_singleton. split; [intros [? ?]; auto|by intros ->]. }
  apply Permutation_singleton_r. apply NoDup_Permutation; [|apply NoDup_singleton|done].
  apply (sublist_NoDup _ l); [done|]. unfold keep. apply sublist_filter.
Qed.
Lemma length_keep_split {A} (q r : A → bool) l :
  length (keep q l) = (length (keep q (keep (negb ∘ r) l)) + length (keep q (keep r l)))%nat.
Proof.
  induction l as [|x l IH]; [done|]. rewrite !keep_cons. cbn. destruct (r x); cbn; rewrite !keep_cons; destruct (q x); cbn; lia.
Qed.

Lemma members_NoDup p t : Team p t → NoDup (memberships t).
Proof.
  intros HT. assert (Hc := team_members _ _ HT). cbn -[checks unique_on] in Hc.
  rewrite checks_cons in Hc. apply (NoDup_unique_on mb_id), Hc.
Qed.
Lemma member_row_of p t m :
  Team p t → m ∈ memberships t → keep (λ r, bool_decide (r.(mb_id) = m.(mb_id))) (memberships t) = [m].
Proof.
  intros HT Hm. apply keep_only; [by eapply members_NoDup|done|by apply bool_decide_eq_true_2|].
  intros y Hy He%bool_decide_eq_true_1. eapply member_unique; [by apply HT|done..|by left].
Qed.
Lemma pending_cons x c p : pending x (c :: p) = (pending x p + (if decide (c = x) then 1 else 0))%Z.
Proof.
  unfold pending. rewrite keep_cons. case_decide as E.
  - rewrite bool_decide_eq_true_2 by done. cbn. lia.
  - rewrite bool_decide_eq_false_2 by done. lia.
Qed.
Lemma in_company_length c m : length (keep (in_company c) [m]) = if decide (m.(mb_company_id) = c) then 1%nat else 0%nat.
Proof. rewrite keep_cons. unfold in_company. case_decide; [by rewrite bool_decide_eq_true_2|by rewrite bool_decide_eq_false_2]. Qed.

(** The members without one who is not an owner. *)
Lemma Team_delete_member p t m :
  Team p t → m ∈ memberships t → m.(mb_role) ≠ owner →
  Team (m.(mb_company_id) :: p)
    (set_rows company_members (keep (negb ∘ λ r, bool_decide (r.(mb_id) = m.(mb_id))) (memberships t)) t).
Proof.
  intros HT Hm Ho. assert (Hc := team_members _ _ HT). cbn -[checks unique_on] in Hc.
  rewrite !checks_cons in Hc. destruct Hc as (Hc1 & Hc2 & _).
  apply (Team_put_members p _ _ t HT); try (intros x [_ Hx]%elem_of_keep; by apply HT).
  - cbn -[checks unique_on]. rewrite !checks_cons. split_and!; [by apply unique_on_keep..|done].
  - intros w Hw. destruct (team_owned _ _ HT w Hw) as (o & Hin & Hco & Hro). exists o. split_and!; [|done..].
    apply elem_of_keep. split; [|done]. cbn. rewrite negb_true_iff. apply bool_decide_eq_false_2. intros He.
    apply Ho. by rewrite <- (member_unique _ o m (team_members _ _ HT) Hin Hm (or_introl He)).
  - intros x y [_ Hx]%elem_of_keep [_ Hy]%elem_of_keep. by apply HT.
  - intros c. unfold headcount. rewrite (length_keep_split (in_company c) (λ r, bool_decide (r.(mb_id) = m.(mb_id))) (memberships t)).
    rewrite (member_row_of p t m HT Hm), in_company_length, pending_cons. case_decide; lia.
  - intros c [->|Hc]%elem_of_cons; [|by apply HT].
    destruct (team_homes _ _ HT m Hm) as (w & Hw & Hid). by exists w.
Qed.

Section moves.
Context `{Oracle} `{Crypto} `{CaseMapping}.

(** A steady rest of a request. *)
Lemma exec_steady_end {A} p (m : M A) t (E : err → tables → Prop) :
  steady (stays p) m → Team p t → (∀ e t', Team p t' → E e t') → exec m t (λ _ t', Team p t') E.
Proof. intros Hm HT HE. eapply exec_weaken; [apply Hm|..]; cbv beta; eauto. Qed.

Lemma exec_remove_team p c u t :
  Team p t → exec (remove_membership c u) t (λ _ t', Team (c :: p) t') (λ _ t', Team p t').
Proof.
  intros HT. unfold remove_membership. exec_step.
  apply (exec_steady_bind (stays p)); [eauto with steady nocore| |done]. intros n t1 Hs.
  assert (HT1 := Hs HT). do 2 exec_step. exec_step; [|by exec_step].
  destruct (first_Some _ _ _ E) as [Hm [Hc Hu]%is_membership_true]. exec_step; [by exec_step|].
  apply bool_decide_eq_false_1 in E0. apply exec_bind, exec_delete_where.
  assert (HT2 := Team_delete_member p t1 _ HT1 Hm E0). rewrite Hc in HT2. revert HT2.
  change (rows company_members t1) with (memberships t1). generalize (set_rows company_members
    (keep (negb ∘ λ r, bool_decide (mb_id r = mb_id m)) (memberships t1)) t1). intros t2 HT2.
  apply (exec_steady_end (c :: p)); [steady|done|by intros].
Qed.

(** New counters: what they must satisfy. *)
Lemma Team_put_counters p p' q f t :
  Team p t → constraint company_stats (update_where q f (counters t)) = None →
  (∀ s, (f s).(st_company_id) = s.(st_company_id)) →
  (∀ s, s ∈ counters t → (if q s then f s else s).(st_active_users) =
     (s.(st_active_users) - pending s.(st_company_id) p + pending s.(st_company_id) p')%Z) →
  (∀ c, c ∈ p' → c ∈ p) →
  Team p' (set_rows company_stats (update_where q f (counters t)) t).
Proof.
  intros [T1 T2 T3 T4 T5 T6 T7 T8 T9] Hc Hid Hn Hp. split; try done; [|by auto].
  intros s' (s & Hs & ->)%elem_of_update_where.
  assert (Hco : (if q s then f s else s).(st_company_id) = s.(st_company_id)) by (destruct (q s); auto).
  rewrite Hco, Hn, T8 by done. unfold headcount. cbn. lia.
Qed.

Lemma exec_uncount c p t :
  Team (c :: p) t → exec (uncount_member c) t (λ _ t', Team p t') (λ _ t', Team (c :: p) t').
Proof.
  intros HT. unfold uncount_member. exec_steps. apply exec_update; [|done]. intros Hc. exec_step.
  apply (Team_put_counters (c :: p)); [done..| |by right].
  intros s Hs. assert (Hn := team_counted _ _ HT s Hs). rewrite pending_cons in *.
  assert (0 <= headcount s.(st_company_id) t)%Z by (unfold headcount; lia).
  assert (0 <= pending s.(st_company_id) p)%Z by (unfold pending; lia).
  case_bool_decide as Ec; [|rewrite decide_False by done; lia].
  rewrite decide_True in * by done. cbn. lia.
Qed.

Lemma Team_set_role p t m role :
  Team p t → m ∈ memberships t → m.(mb_role) ≠ owner → role ≠ owner →
  constraint company_members (update_where (λ r, bool_decide (r.(mb_id) = m.(mb_id))) (set_role role) (memberships t)) = None →
  Team p (set_rows company_members
    (update_where (λ r, bool_decide (r.(mb_id) = m.(mb_id))) (set_role role) (memberships t)) t).
Proof.
  intros HT Hm Ho Hr Hc. apply Team_update_members; [done..|].
  intros x Hx Hid%bool_decide_eq_true_1.
  rewrite (member_unique _ x m (team_members _ _ HT) Hx Hm (or_introl Hid)). by split.
Qed.

Lemma exec_updateMemberRole_team c u r p t :
  Team p t → exec (updateMemberRole c u r) t (λ _ t', Team p t') (λ _ t', Team p t').
Proof.
  intros HT. unfold updateMemberRole. do 2 exec_step. do 2 exec_step. exec_step; [|by exec_step].
  destruct (first_Some _ _ _ E) as [Hm _]. exec_step; [by exec_step|]. apply bool_decide_eq_false_1 in E0.
  apply exec_bind, exec_update_returning; [|done]. intros Hc. exec_step; [by exec_step|]. exec_step.
  eapply exec_steady_end; [steady| |done].
  by apply Team_set_role; [..|apply role_of_not_owner|].
Qed.

(** A transfer: the owner steps down and another member steps up. *)
Lemma Team_transfer p t c a b ma mb' l :
  Team p t → ma ∈ memberships t → is_membership c a ma = true → ma.(mb_role) = owner →
  mb' ∈ memberships t → is_membership c b mb' = true → a ≠ b →
  l = update_where (is_membership c b) (set_role owner)
        (update_where (is_membership c a) (set_role admin) (memberships t)) →
  constraint company_members l = None → Team p (set_rows company_members l t).
Proof.
  intros HT Ha Hma Hoa Hb Hmb Hne -> Hc.
  set (f := λ m, if is_membership c a m then set_role admin m else m).
  set (g := λ m, if is_membership c b m then set_role owner (f m) else f m).
  assert (Hl : ∀ x, x ∈ update_where (is_membership c b) (set_role owner)
    (update_where (is_membership c a) (set_role admin) (memberships t)) ↔ ∃ m, m ∈ memberships t ∧ x = g m).
  { intros x. rewrite elem_of_update_where. split.
    - intros (y & (m & Hm & ->)%elem_of_update_where & ->). exists m. split; [done|]. unfold g, f.
      by destruct (is_membership c a m).
    - intros (m & Hm & ->). exists (f m). split; [apply elem_of_update_where; by exists m|]. unfold g, f.
      by destruct (is_membership c a m). }
  assert (Hco : ∀ m, (g m).(mb_company_id) = m.(mb_company_id)).
  { intros m. unfold g, f. by destruct (is_membership c b m), (is_membership c a m). }
  assert (Howner : ∀ m, m ∈ memberships t → (g m).(mb_role) = owner ↔
    m = mb' ∨ (m.(mb_role) = owner ∧ m.(mb_company_id) ≠ c)).
  { intros m Hm. unfold g. destruct (is_membership c b m) eqn:Eb.
    - split; [intros _; left|by destruct (f m)]. apply is_membership_true in Eb, Hmb. destruct Eb, Hmb.
      eapply (member_unique _ m mb'); [apply HT|done..|right; split; congruence].
    - assert (Hnm : m ≠ mb') by congruence. unfold f. destruct (is_membership c a m) eqn:Ea; cbn.
      + apply is_membership_true in Ea as [Ec _]. split; [done|]. by intros [?|[_ ?]].
      + split; [|by intros [?|[? _]]]. intros Ho. right. split; [done|]. intros Ec.
        assert (m = ma) as ->; [|congruence]. apply is_membership_true in Hma as [Hca _].
        apply HT; [done..|congruence]. }
  apply (Team_put_members p p); [done|done|..].
  - intros x (m & Hm & ->)%Hl. rewrite Hco. by apply HT.
  - intros w Hw. destruct (decide (co_id w = c)) as [<-|Hwc].
    + exists (g mb'). rewrite Hco. split_and!; [apply Hl; by exists mb'|by apply is_membership_true in Hmb as [? _]|].
      apply Howner; [done|by left].
    + destruct (team_owned _ _ HT w Hw) as (o & Ho & Hcw & Hro). exists (g o). rewrite Hco.
      split_and!; [apply Hl; by exists o|done|]. apply Howner; [done|]. right. split; congruence.
  - intros x y (m & Hm & ->)%Hl (m' & Hm' & ->)%Hl Hx%Howner Hy%Howner; [|done..]. rewrite !Hco. intros He.
    assert (m = m') as ->; [|done]. apply is_membership_true in Hmb as [Hcb _].
    destruct Hx as [->|[Hx Hxc]], Hy as [->|[Hy Hyc]]; [done|congruence|congruence|by apply HT].
  - intros c'. by rewrite !length_in_company.
  - apply HT.
Qed.

Lemma exec_transfer_team c a b p t :
  Team p t → exec (transferOwnership c a b) t (λ _ t', Team p t') (λ _ t', Team p t').
Proof.
  intros HT. unfold transferOwnership. exec_step; [by exec_step|]. apply bool_decide_eq_false_1 in E.
  do 4 exec_step. exec_step; [by exec_step|]. change (rows company_members t) with (memberships t) in *.
  set (team := keep _ _) in *. to_prop.
  destruct (first (λ m, bool_decide (mb_user_id m = a)) team) as [ma|] eqn:Ea; [|done].
  destruct (first (λ m, bool_decide (mb_user_id m = b)) team) as [mb'|] eqn:Eb; [|done].
  assert (Hin : ∀ u m, first (λ m, bool_decide (mb_user_id m = u)) team = Some m →
                m ∈ memberships t ∧ is_membership c u m = true).
  { intros u m [Hm Hu]%first_Some. apply elem_of_keep in Hm as [Hp Hm]. to_prop. split; [done|].
    by apply is_membership_true. }
  destruct (Hin _ _ Ea) as [Ha Hma], (Hin _ _ Eb) as [Hb Hmb].
  apply exec_bind, exec_update; [|done]. intros Hc1. apply exec_bind, exec_update; [|done]. intros Hc2.
  exec_step. eapply exec_steady_end; [steady| |done].
  eapply (Team_transfer p t c a b ma mb' _ HT Ha Hma); [|exact Hb|exact Hmb|done|reflexivity|exact Hc2].
  cbn in *. congruence.
Qed.
End moves.

(** ** A new workspace *)

Section entries.
Context `{Oracle} `{Crypto} `{CaseMapping}.

(** The tables after a workspace, its counter and its owner are inserted. *)
Lemma Team_insert_company p t w st m :
  Team p t → constraint companies (workspaces t ++ [w]) = None →
  constraint company_stats (counters t ++ [st]) = None →
  constraint company_members (memberships t ++ [m]) = None →
  st.(st_company_id) = w.(co_id) → st.(st_active_users) = 1%Z →
  m.(mb_company_id) = w.(co_id) → m.(mb_role) = owner →
  Team p (set_rows company_members (memberships t ++ [m])
    (set_rows company_stats (counters t ++ [st]) (set_rows companies (workspaces t ++ [w]) t))).
Proof.
  intros [T1 T2 T3 T4 T5 T6 T7 T8 T9] Cw Cs Cm Hst H1s Hm Ho.
  assert (Hnew : ∀ w', w' ∈ workspaces t → w'.(co_id) ≠ w.(co_id)).
  { intros w' Hw' He. cbn -[checks unique_on] in Cw. rewrite checks_cons in Cw. destruct Cw as [Cu _].
    unfold unique_on in Cu. rewrite bool_decide_eq_true, omap_app in Cu. apply NoDup_app in Cu as (_ & Cu & _).
    apply (Cu (co_id w)); [|by left]. apply list_elem_of_omap. exists w'. cbn. by rewrite He. }
  assert (Hnm : ∀ x, x ∈ memberships t → x.(mb_company_id) ≠ w.(co_id)).
  { intros x Hx. destruct (T4 x Hx) as (w' & Hw' & <-). auto. }
  assert (Hnp : w.(co_id) ∉ p).
  { intros Hc. destruct (T9 _ Hc) as (w' & Hw' & He). by apply (Hnew w'). }
  assert (Hns : ∀ s, s ∈ counters t → s.(st_company_id) ≠ w.(co_id)).
  { intros s Hs He. cbn -[checks unique_on] in Cs. rewrite checks_cons in Cs. destruct Cs as [Cu _].
    unfold unique_on in Cu. rewrite bool_decide_eq_true, omap_app in Cu. apply NoDup_app in Cu as (_ & Cu & _).
    apply (Cu (co_id w)); [|cbn; rewrite Hst; by left]. apply list_elem_of_omap. exists s. cbn. by rewrite He. }
  split; cbn; unfold memberships, workspaces, counters in *; try done; unfold headcount; cbn.
  - intros x [Hx| ->%list_elem_of_singleton]%elem_of_app.
    + destruct (T4 x Hx) as (w' & Hw' & He). exists w'. split; [apply elem_of_app; by left|done].
    + exists w. split; [apply elem_of_app; right; by left|done].
  - intros w' [Hw| ->%list_elem_of_singleton]%elem_of_app.
    + destruct (T5 w' Hw) as (o & Hin & ? & ?). exists o. split; [apply elem_of_app; by left|done].
    + exists m. split; [apply elem_of_app; right; by left|done].
  - intros x y [Hx| ->%list_elem_of_singleton]%elem_of_app [Hy| ->%list_elem_of_singleton]%elem_of_app ? ? He;
      [by apply T6| | |done].
    + by destruct (Hnm x Hx); congruence.
    + by destruct (Hnm y Hy); congruence.
  - intros s [Hs| ->%list_elem_of_singleton]%elem_of_app; change (p_members (t_public t)) with (memberships t);
      rewrite keep_app, length_app, in_company_length.
    + rewrite decide_False by (rewrite Hm; intros He; by apply (Hns s Hs)). rewrite Nat.add_0_r. exact (T8 s Hs).
    + rewrite decide_True by congruence. rewrite H1s, Hst.
      replace (keep (in_company (co_id w)) (memberships t)) with (@nil member_row).
      2:{ symmetry. apply keep_nil_iff. intros x Hx. by apply bool_decide_eq_false_2, Hnm. }
      unfold pending. replace (keep (λ x, bool_decide (x = co_id w)) p) with (@nil string); [done|].
      symmetry. apply keep_nil_iff. intros x Hx. apply bool_decide_eq_false_2. by intros ->.
  - intros c Hc. destruct (T9 c Hc) as (w' & Hw' & He). exists w'. split; [apply elem_of_app; by left|done].
Qed.

Lemma exec_insert_company_team c i l o p t :
  Team p t → exec (insert_company c i l o) t (λ _ t', Team p t') (λ _ t', Team p t').
Proof.
  intros HT. unfold insert_company. do 5 exec_step. apply exec_bind, exec_insert_row; [|done]. intros C1.
  do 2 exec_step. apply exec_bind, exec_insert_row; [|done]. intros C2. do 4 exec_step.
  apply exec_bind, exec_insert_row; [|done]. intros C3.
  eapply exec_steady_end; [unfold seedDefaultSlaPolicy; steady| |done].
  exact (Team_insert_company p t _ _ _ HT C1 C2 C3 eq_refl eq_refl eq_refl eq_refl).
Qed.

(** ** A new member *)

Lemma Team_joined p token userId t t' r i u :
  Team p t → joined token userId t t' r i u → Team p t'.
Proof.
  intros HT [Hi _ _ _ _ (Hw & Hid & _) (id & at_ & Hm) Hms (ai & Hinv) (ac & Hcs) Hws [C1 C2]].
  destruct r as [w m]. cbn [fst snd] in *. subst m. destruct (first_Some _ _ _ Hi) as [Hin _].
  assert (Hrole := team_invited _ _ HT i Hin). destruct HT as [T1 T2 T3 T4 T5 T6 T7 T8 T9].
  split; try done; rewrite ?Hms, ?Hws, ?Hinv, ?Hcs; try done.
  - intros x [Hx| ->%list_elem_of_singleton]%elem_of_app; [by apply T4|by exists w].
  - intros w' Hw'. destruct (T5 w' Hw') as (o & Ho & ? & ?). exists o. split; [apply elem_of_app; by left|done].
  - intros x y [Hx| ->%list_elem_of_singleton]%elem_of_app [Hy| ->%list_elem_of_singleton]%elem_of_app;
      [by apply T6|intros _ Ho; by destruct Hrole|intros Ho; by destruct Hrole|done].
  - intros j (j' & Hj & ->)%elem_of_update_where. destruct (_ && _); exact (T7 _ Hj).
  - intros s (s' & Hs & ->)%elem_of_update_where. unfold headcount. rewrite Hms, keep_app, length_app, in_company_length.
    specialize (T8 s' Hs). unfold headcount in T8. cbn [mb_company_id].
    case_bool_decide as Ec; cbn [st_active_users st_company_id set_active_users].
    + rewrite decide_True by done. lia.
    + rewrite decide_False by done. lia.
Qed.

(** No index error is one that a verification survives. *)
Lemma constraint_not_survivable e : constraint_error e → survivable e = false.
Proof.
  assert (Hc : ∀ cs, Forall (λ x : bool * err, survivable x.2 = false) cs →
             checks cs = Some e → survivable e = false).
  { induction cs as [|[b x] cs IH]; [done|]. intros [Hx Hcs]%Forall_cons.
    rewrite checks_cons_Some. intros [[_ ->]|[_ ?]]; auto. }
  intros [[l Hl]|[[l Hl]|[l Hl]]]; cbn -[checks unique_on] in Hl; (eapply Hc; [|exact Hl]); repeat constructor.
Qed.

Lemma exec_accept_team token userId p t :
  Team p t →
  exec (acceptInvitationInTransaction token userId) t (λ _ t', Team p t')
    (λ e t', survivable e = true → Team p t').
Proof.
  intros HT. eapply exec_weaken; [apply exec_acceptance|..]; cbv beta.
  - intros r t' (i & u & Hj). by eapply Team_joined.
  - intros e t' [[-> _]|He] Hs; [done|]. by rewrite constraint_not_survivable in Hs.
Qed.
Lemma exec_acceptInvitation_team token userId p t :
  Team p t → exec (acceptInvitation token userId) t (λ _ t', Team p t') (λ _ t', Team p t').
Proof.
  intros HT. unfold acceptInvitation. do 2 exec_step.
  eapply exec_weaken; [by apply exec_accept_team|cbv beta|done].
  intros r t' HT'. eapply exec_steady_end; [unfold completeInvitationAcceptance; steady|done|done].
Qed.

(** The acceptance inside the verification of an address. *)
Lemma exec_verifyEmail_team token invitationToken p t :
  Team p t → exec (verifyEmail token invitationToken) t (λ _ t', Team p t') (λ _ t', Team p t').
Proof.
  intros HT. unfold verifyEmail. do 4 exec_step. do 2 exec_step. exec_step; [|by exec_step]. do 2 exec_step.
  apply (exec_steady_bind (stays p)); [steady| |done]. intros l t1 Hs.
  assert (HT1 := Hs HT). exec_step; [by exec_step|]. apply exec_bind.
  eapply (exec_weaken _ _ (λ _ t', Team p t') _ (λ _ _, True)); [| |done].
  - destruct invitationToken as [i|]; [|by exec_step]. exec_step; [by exec_step|].
    apply exec_catch, exec_bind. eapply exec_weaken; [by apply (exec_accept_team _ _ p)|..]; cbv beta.
    + intros r t' HT'. by exec_step.
    + intros e t' He. exec_step; exec_step; auto.
  - cbv beta. intros accepted t2 HT2. apply (exec_steady_bind (stays p)); [steady| |done].
    intros k t3 Hs3. exec_step. destruct accepted as [j|]; [|by exec_step; apply Hs3].
    apply (exec_steady_end p); [unfold completeInvitationAcceptance; steady|by apply Hs3|done].
Qed.
End entries.

(** ** The system *)

(** The requests on teams, each one commit. *)
Inductive team_op :=
| TInsertCompany (companyId : string) (i : CreateCompanyInput) (logo : option string) (owner : string)
| TDeleteCompany (companyId : string)
| TUpdateCompany (companyId : string) (i : UpdateCompanyInput) (logo : option string) (now : Z)
| TInvalidate (companyId : string)
| TUpdateRole (companyId userId : string) (role : InvitedRole)
| TTransfer (companyId owner newOwner : string)
| TPermissions (companyId userId : string) (p : PartialPermissions)
| TResetPermissions (companyId userId : string)
| TCreateInvitation (companyId : string) (i : InviteMemberInput) (invitedBy : string)
| TSettleInvitation (i : invitation_row) (old : option invitation_row) (delivered : bool)
| TCancelInvitation (companyId invitationId : string)
| TReissue (companyId invitationId userId : string)
| TSettleResend (before after : invitation_row) (delivered : bool)
| TAccept (token userId : string)
| TVerifyEmail (token : string) (invitationToken : option string).

(** The database, and the workspaces with a committed removal that is not yet counted. *)
Record tsys := mkTsys { ts_db : db; ts_uncounted : list string }.

Section system.
Context `{Oracle} `{Crypto} `{CaseMapping}.

Definition run_team_op (o : team_op) : M unit :=
  match o with
  | TInsertCompany c i l o => ignore (insert_company c i l o)
  | TDeleteCompany c => deleteCompany c
  | TUpdateCompany c i k now => ignore (update_company c i k now)
  | TInvalidate c => invalidateCompanyMembership c
  | TUpdateRole c u r => ignore (updateMemberRole c u r)
  | TTransfer c a b => transferOwnership c a b
  | TPermissions c u p => ignore (updateMemberPermissions c u p)
  | TResetPermissions c u => ignore (resetMemberPermissions c u)
  | TCreateInvitation c i u => ignore (create_invitation c i u)
  | TSettleInvitation i old d => ignore (settle_invitation i old d)
  | TCancelInvitation c i => cancelInvitation c i
  | TReissue c i u => ignore (reissue_invitation c i u)
  | TSettleResend a b d => ignore (settle_resend a b d)
  | TAccept t u => ignore (acceptInvitation t u)
  | TVerifyEmail t i => ignore (verifyEmail t i)
  end.

Definition done_or {A} (r : result unit) (after before : A) : A :=
  match r with Ok _ => after | Throw _ => before end.

Inductive team_step : tsys → tsys → Prop :=
| step_team o s p : team_step (mkTsys s p) (mkTsys (run_team_op o s).2 p)
| step_remove c u s p :
    team_step (mkTsys s p)
      (mkTsys (remove_membership c u s).2 (done_or (remove_membership c u s).1 (c :: p) p))
| step_uncount c s p p' : p ≡ₚ c :: p' →
    team_step (mkTsys s p) (mkTsys (uncount_member c s).2 (done_or (uncount_member c s).1 p' p)).

Lemma Team_perm p p' t : p ≡ₚ p' → Team p t → Team p' t.
Proof.
  intros Hp [T1 T2 T3 T4 T5 T6 T7 T8 T9]. split; try done.
  - intros s Hs. rewrite T8 by done. unfold pending, keep. by rewrite Hp.
  - intros c Hc. apply T9. by rewrite Hp.
Qed.

Lemma exec_ignore {A} (m : M A) t (P : tables → Prop) :
  exec m t (λ _ t', P t') (λ _ t', P t') → exec (ignore m) t (λ _ t', P t') (λ _ t', P t').
Proof. intros Hm. unfold ignore. apply exec_bind. eapply exec_weaken; [exact Hm| |done]. intros. by exec_step. Qed.

Lemma exec_team_op o p t :
  Team p t → exec (run_team_op o) t (λ _ t', Team p t') (λ _ t', Team p t').
Proof.
  intros HT. destruct o; cbn [run_team_op]; try apply exec_ignore;
    first [by apply exec_insert_company_team|by apply exec_updateMemberRole_team|by apply exec_transfer_team
          |by apply exec_acceptInvitation_team|by apply exec_verifyEmail_team
          |apply (exec_steady_end p); [steady|done|done]].
Qed.

Lemma Team_step s s' : team_step s s' → Team s.(ts_uncounted) (tb s.(ts_db)) → Team s'.(ts_uncounted) (tb s'.(ts_db)).
Proof.
  intros [o s0 p|c u s0 p|c s0 p p' Hp] HT; cbn in *.
  - by apply exec_end, exec_team_op.
  - assert (Hx := exec_remove_team p c u (tb s0) HT s0 eq_refl). by destruct (remove_membership c u s0) as [[]?].
  - apply (Team_perm _ _ _ Hp) in HT. assert (Hx := exec_uncount c p' (tb s0) HT s0 eq_refl).
    destruct (uncount_member c s0) as [[]?]; cbn; [done|]. by apply (Team_perm _ _ _ (symmetry Hp)).
Qed.

(** C22: Every workspace keeps exactly one owner, every member is in a workspace that exists, no
    invitation makes an owner, and the member counter of a workspace is the number of its
    members plus the removals that are committed and not yet counted: so it is exact
    whenever none is.  Every request on teams keeps this, in any order. *)
Theorem team_well_formed s s' :
  Team s.(ts_uncounted) (tb s.(ts_db)) → rtc team_step s s' → Team s'.(ts_uncounted) (tb s'.(ts_db)).
Proof. intros HT Hr. induction Hr as [|s1 s2 s3 H12 _ IH]; [done|]. apply IH. by eapply Team_step. Qed.

(** Accepting an invitation does exactly what it promises: it takes a pending, unexpired
    invitation sent to the address of the user, who is not yet a member of the workspace,
    marks that invitation accepted, adds one member with its role and permissions, counts
    it and drops the cached membership; every refusal names its reason and leaves the
    tables unchanged. *)
Theorem acceptance_outcome token userId s :
  match acceptInvitation token userId s with
  | (Ok r, s') => ∃ i u t1, joined token userId (tb s) t1 r i u
      ∧ tb s' = set_rows membership_invalidations (rows membership_invalidations t1 ++ [i.(iv_company_id)]) t1
  | (Throw e, s') => tb s' = tb s ∧ (join_refused token userId (tb s) e ∨ constraint_error e)
  end.
Proof.
  refine (exec_run _ s (λ r t', ∃ i u t1, joined token userId (tb s) t1 r i u ∧ t' = _)
    (λ e t', t' = tb s ∧ (join_refused token userId (tb s) e ∨ constraint_error e)) _).
  unfold acceptInvitation. do 2 exec_step. eapply exec_weaken; [apply exec_acceptance|..]; cbv beta.
  - intros r t1 (i & u & Hj). unfold completeInvitationAcceptance, invalidateCompanyMembership.
    apply exec_bind, exec_insert_row; [|done]. intros _. exec_step. exists i, u, t1. split; [done|].
    by rewrite (proj1 (proj2 (jn_workspace _ _ _ _ _ _ _ Hj))).
  - intros e t' [[-> Hr]|He]; split; auto.
Qed.
End system.
