(* ===== verification/TeamRoutes.v ===== *)
(** Who may change a workspace.

    The handlers of routes/companies as one type of requests: a request that is not
    allowed to its sender changes nothing.  Also what an invitation grants. *)

From S2P Require Import Prelude Js Permissions PublicRows TenantDb PublicDb Exec Steady OAuth Workflow Team Sessions AccessControl Credentials TeamSpec.

Inductive team_request :=
| RouteUpdateRole (userId : string) (role : InvitedRole)
| RouteRemove (userId : string)
| RouteLeave
| RoutePermissions (userId : string) (p : PartialPermissions)
| RouteResetPermissions (userId : string)
| RouteTransfer (userId : string)
| RouteInvite (input : InviteMemberInput) (send : Mailer)
| RouteCancelInvitation (invitationId : string)
| RouteResendInvitation (invitationId : string) (send : Mailer)
| RouteUpdate (input : UpdateCompanyInput) (upload : string → M string) (discard : string → M unit)
| RouteDelete.

(** What the tables say of a member: role and effective permissions. *)
Definition standing (t : tables) (companyId userId : string) : option (CompanyMemberRole * MemberPermissions) :=
  member_data <$> first (is_membership companyId userId) (memberships t).

(** The policy: who may send a request to a workspace. *)
Definition allowed (t : tables) (companyId sender : string) (r : team_request) : Prop :=
  ∃ role permissions, standing t companyId sender = Some (role, permissions) ∧
  match r with
  | RouteUpdateRole target _ =>
      permissions can_manage_team = true ∧
      ∃ role' permissions', standing t companyId target = Some (role', permissions') ∧ (roleRank role' < roleRank role)%Z
  | RouteRemove target =>
      permissions can_manage_team = true ∧ target ≠ sender ∧
      ∃ role' permissions', standing t companyId target = Some (role', permissions') ∧ (roleRank role' < roleRank role)%Z
  | RouteLeave => role ≠ owner
  | RoutePermissions _ _ | RouteResetPermissions _ | RouteTransfer _ | RouteDelete => role = owner
  | RouteUpdate input _ _ => (2 <= roleRank role)%Z ∧ (is_Some input.(uc_status) → role = owner)
  | RouteInvite input _ =>
      permissions can_invite = true
      ∧ (roleRank (role_of (default invited_member input.(im_role))) <= roleRank role)%Z
      ∧ (∀ p, input.(im_permissions) = Some p → has_keys p = true → role = owner)
  | RouteCancelInvitation _ => permissions can_invite = true
  | RouteResendInvitation _ _ => permissions can_invite = true
  end.

Section routes.
Context `{Oracle} `{Crypto} `{CaseMapping} `{AuthEnv}.

Definition run_request (companyId sender : string) (r : team_request) : M unit :=
  match r with
  | RouteUpdateRole u role => _ ← update_role_route companyId sender u role; mret tt
  | RouteRemove u => remove_member_route companyId sender u
  | RouteLeave => leave_route companyId sender
  | RoutePermissions u p => _ ← update_permissions_route companyId sender u p; mret tt
  | RouteResetPermissions u => _ ← reset_permissions_route companyId sender u; mret tt
  | RouteTransfer u => transfer_ownership_route companyId sender u
  | RouteInvite input send => _ ← invite_route companyId sender input send; mret tt
  | RouteCancelInvitation i => cancel_invitation_route companyId sender i
  | RouteResendInvitation i send => _ ← resend_invitation_route companyId sender i send; mret tt
  | RouteUpdate input upload discard => _ ← update_company_route upload discard companyId sender input; mret tt
  | RouteDelete => delete_company_route companyId sender
  end.

(** A computation that changes the tables only if a condition holds. *)
Definition guarded {A} (P : Prop) (m : M A) (t : tables) : Prop :=
  exec m t (λ _ _, P) (λ _ t', P ∨ t' = t).

Lemma guarded_holds {A} (P : Prop) (m : M A) t : P → guarded P m t.
Proof. intros HP. eapply exec_weaken; [apply exec_anything|..]; cbv beta; auto. Qed.
Lemma guarded_refuse {A} P status message t : guarded P (refuse (A := A) status message) t.
Proof. apply exec_throw. by right. Qed.
Lemma guarded_throw {A} P e t : guarded P (throw (A := A) e) t.
Proof. apply exec_throw. by right. Qed.
Lemma guarded_drop {A B} P (m : M A) (x : B) t : guarded P m t → guarded P (_ ← m; mret x) t.
Proof. intros Hm. apply exec_bind. eapply exec_weaken; [exact Hm| |done]. intros. by apply exec_ret. Qed.

(** The middleware lets a member of the role through. *)
Lemma guarded_tenant {A} P c u role (k : tenant_context → M A) t :
  (∀ r ps, standing t c u = Some (r, ps) →
     match role with Some r0 => (roleRank r0 <= roleRank r)%Z | None => True end →
     guarded P (k (mkTenant u c r ps)) t) →
  guarded P (tenantFromParam role c u ≫= k) t.
Proof.
  intros Hk. unfold tenantFromParam. apply exec_bind_assoc, exec_bind. unfold tenantMiddleware, read_member_data.
  assert (Hr : ∀ status message (Q : option tenant_context → tables → Prop),
    exec (refuse (A := option tenant_context) status message) t Q (λ _ t', P ∨ t' = t)).
  { intros. apply exec_throw. by right. }
  destruct c as [|x c]; [apply Hr|]. exec_step; [apply Hr|]. destruct u as [|y u]; [apply Hr|].
  do 4 exec_step. change (rows company_members t) with (memberships t).
  destruct (first _ _) as [m|] eqn:Ef; cbn [fmap option_fmap option_map]; [|apply Hr].
  assert (Hs : standing t (String x c) (String y u) = Some (member_data m)) by (unfold standing; by rewrite Ef).
  destruct (member_data m) as [r ps]. exec_step; [apply Hr|]. exec_step. apply exec_bind. exec_step. apply Hk; [done|]. destruct role as [r0|]; [|done]. lia.
Qed.

Lemma guarded_permission {A} P p c (k : unit → M A) t :
  (c.(tc_permissions) p = true → guarded P (k tt) t) → guarded P (requirePermission p c ≫= k) t.
Proof.
  intros Hk. unfold requirePermission. apply exec_bind.
  exec_step; [exec_step; by apply Hk|apply exec_throw; by right].
Qed.

Lemma guarded_rank {A} P c target action (k : unit → M A) t :
  (∀ r ps, standing t c.(tc_companyId) target = Some (r, ps) → (roleRank r < roleRank c.(tc_role))%Z →
     guarded P (k tt) t) →
  guarded P (require_rank_above c target action ≫= k) t.
Proof.
  intros Hk. unfold require_rank_above, getMemberRole. apply exec_bind. do 4 exec_step.
  change (rows company_members t) with (memberships t). unfold standing in Hk.
  destruct (first _ _) as [m|] eqn:Ef; cbn [fmap option_fmap option_map]; [|apply exec_throw; by right].
  exec_step; [|apply exec_throw; by right]. exec_step. unfold canManageMember in *.
  eapply Hk; [reflexivity|]. cbn. lia.
Qed.

Lemma owner_rank r : (roleRank owner <= roleRank r)%Z → r = owner.
Proof. by destruct r. Qed.

(** Invitations are authorized before anything is written. *)
Lemma guarded_authorize {A} (P : Prop) c u role requested (k : PartialPermissions → M A) t :
  (∀ r ps, standing t c u = Some (r, ps) → ps can_invite = true → (roleRank role <= roleRank r)%Z →
     (∀ p, requested = Some p → has_keys p = true → r = owner) → P) →
  guarded P (authorizeInvitation c u role requested ≫= k) t.
Proof.
  intros HP. unfold authorizeInvitation, read_member_data. apply exec_bind. do 4 exec_step.
  change (rows company_members t) with (memberships t). unfold standing in HP.
  destruct (first _ _) as [m|] eqn:Ef; cbn [fmap option_fmap option_map] in *; [|apply exec_throw; by right].
  destruct (member_data m) as [r ps] eqn:Em.
  exec_step; [apply exec_throw; by right|]. exec_step; [apply exec_throw; by right|].
  exec_step; [apply exec_throw; by right|]. exec_step. apply guarded_holds.
  eapply HP; [reflexivity|by destruct (ps can_invite)|unfold canInviteRole in *; lia|].
  intros p -> Hp. rewrite Hp in *. cbn in *. by destruct (decide (r = owner)) as [|Hn]; [|rewrite bool_decide_eq_false_2 in *].
Qed.

Lemma guarded_getCompany {A} P c (k : company_row → M A) t :
  (∀ w, guarded P (k w) t) → guarded P (getCompany c ≫= k) t.
Proof.
  intros Hk. unfold getCompany. apply exec_bind. do 2 exec_step.
  exec_step; [exec_step; apply Hk|apply exec_throw; by right].
Qed.

Lemma guarded_assoc {A B C} P (m : M A) (f : A → M B) (g : B → M C) t :
  guarded P (m ≫= λ a, f a ≫= g) t → guarded P ((m ≫= f) ≫= g) t.
Proof. apply exec_bind_assoc. Qed.

Lemma guarded_request c sender r t : guarded (allowed t c sender r) (run_request c sender r) t.
Proof.
  destruct r; cbn [run_request];
    unfold update_role_route, remove_member_route, leave_route, update_permissions_route, reset_permissions_route,
      transfer_ownership_route, invite_route, cancel_invitation_route, resend_invitation_route, delete_company_route, update_company_route;
    try apply guarded_drop; apply guarded_tenant; intros r0 ps Hs Hrole; unfold allowed.
  - apply guarded_permission. intros Hp. apply guarded_rank. intros r' ps' Hs' Hr.
    apply guarded_holds. exists r0, ps. split; [done|]. split; [done|]. by exists r', ps'.
  - apply guarded_permission. intros Hp. case_bool_decide as Hne; [apply guarded_refuse|].
    apply guarded_rank. intros r' ps' Hs' Hr.
    apply guarded_holds. exists r0, ps. split; [done|]. split; [done|]. split; [congruence|]. by exists r', ps'.
  - case_bool_decide as Hne; [apply guarded_refuse|]. apply guarded_holds. by exists r0, ps.
  - apply guarded_holds. exists r0, ps. split; [done|]. by apply owner_rank.
  - apply guarded_holds. exists r0, ps. split; [done|]. by apply owner_rank.
  - apply guarded_holds. exists r0, ps. split; [done|]. by apply owner_rank.
  - apply guarded_permission. intros Hp. unfold inviteMember, create_invitation. apply guarded_assoc, guarded_getCompany.
    intros w. apply guarded_assoc, guarded_authorize. intros r' ps' Hs' Hi Hr Hk. exists r', ps'. done.
  - apply guarded_permission. intros Hp. apply guarded_holds. by exists r0, ps.
  - apply guarded_permission. intros Hp. apply guarded_holds. by exists r0, ps.
  - destruct (negb _ && negb _) eqn:Es; [apply guarded_throw|]. apply guarded_holds. exists r0, ps.
    split; [done|]. split; [exact Hrole|]. intros [x Hx]. rewrite Hx in Es. cbn in Es. by to_prop.
  - apply guarded_holds. exists r0, ps. split; [done|]. by apply owner_rank.
Qed.

(** C23: A request that changes a workspace succeeds, or changes anything at all, only when its
    sender is a member with the standing that the policy asks for: the permission to manage
    the team and a higher rank than the target, to change a role or remove a member; the
    permission to invite and a rank at least that of the invited role, and ownership for
    custom permissions, to invite; ownership, to transfer it, edit permissions, change the
    status or delete the workspace; the rank of an admin, to edit it otherwise.  A refused request leaves the tables unchanged. *)
Theorem requests_need_standing companyId sender r s :
  match run_request companyId sender r s with
  | (Ok _, _) => allowed (tb s) companyId sender r
  | (Throw _, s') => allowed (tb s) companyId sender r ∨ tb s' = tb s
  end.
Proof. exact (exec_run _ _ _ _ (guarded_request companyId sender r (tb s))). Qed.

(** ** What an invitation grants *)

(** Storing only what differs from the preset loses nothing. *)
Lemma normalized_effective role requested p :
  role ≠ owner →
  getEffectivePermissions role (normalizeInvitationPermissions role requested) p
  = default (ROLE_PERMISSION_PRESETS role p) (requested ≫= λ f, f p).
Proof.
  intros Hr. unfold getEffectivePermissions, normalizeInvitationPermissions.
  assert (Hf : ∀ x : option bool, default (ROLE_PERMISSION_PRESETS role p) (match x with
    | Some value => if bool_decide (value ≠ ROLE_PERMISSION_PRESETS role p) then Some value else None
    | None => None end) = default (ROLE_PERMISSION_PRESETS role p) x).
  { intros [v|]; [|done]. case_bool_decide as Hv; [done|]. by rewrite Hv. }
  specialize (Hf (requested ≫= λ f, f p)). destruct requested as [f|], role; [done|exact Hf|exact Hf|done..].
Qed.

(** What is asked for in an invitation is what the new member may do: when it is created and
    later accepted as it was created, the member has the invited role, and each permission
    as requested, or as the role's preset where the request says nothing. *)
Theorem invitation_grants_request companyId input inviter s i old s1 token userId t t' r u :
  create_invitation companyId input inviter s = (Ok (i, old), s1) → joined token userId t t' r i u →
  r.2.(mb_role) = role_of (default invited_member input.(im_role))
  ∧ r.2.(mb_company_id) = companyId ∧ r.2.(mb_user_id) = userId
  ∧ ∀ p, (member_data r.2).2 p =
      default (ROLE_PERMISSION_PRESETS (role_of (default invited_member input.(im_role))) p)
        (input.(im_permissions) ≫= λ f, f p).
Proof.
  intros Hc [_ _ _ _ _ _ (id & at_ & ->) _ _ _ _ _].
  assert (Hx : exec (create_invitation companyId input inviter) (tb s) (λ x _,
    x.1.(iv_company_id) = companyId ∧ x.1.(iv_role) = role_of (default invited_member input.(im_role))
    ∧ x.1.(iv_permissions) = normalizeInvitationPermissions (role_of (default invited_member input.(im_role)))
        input.(im_permissions)) (λ _ _, True)).
  { unfold create_invitation. apply exec_bind. eapply exec_weaken; [apply exec_anything|intros w t0 _|done].
    cbv zeta. apply exec_bind. unfold authorizeInvitation, read_member_data.
    eapply (exec_weaken _ _ (λ x _, x = normalizeInvitationPermissions
      (role_of (default invited_member input.(im_role))) input.(im_permissions)) _ (λ _ _, True)); [| |done].
    - exec_steps; done.
    - cbv beta. intros x t1 ->. exec_steps; [done|]. apply exec_insert_row; [|done]. intros _. by exec_steps. }
  specialize (Hx s eq_refl). rewrite Hc in Hx. destruct Hx as (E1 & E2 & E3). cbn [fst] in *.
  unfold member_data. cbn [mb_role mb_company_id mb_user_id mb_permissions snd default from_option]. rewrite E1, E2, E3.
  split_and!; [done..|]. intros p. apply normalized_effective. by destruct (default _ _).
Qed.
End routes.
