(* ===== verification/MembershipCache.v ===== *)
(** The cached membership of a workspace.

    Models services/company-membership.service.ts.  A Map is the list of its entries in
    insertion order.  A promise is a record in the heap of the system, known by its
    number; its [then] and [finally] callbacks are steps of their own, so other requests
    run between them, and so is the read of the database inside the load.  The
    successive values of a workspace's membership are numbered by its writes. *)

From S2P Require Import Prelude Js.

(** ** Maps in insertion order *)

Section maps.
Context {A : Type}.
Definition map_get (k : string) (m : list (string * A)) : option A := snd <$> first (λ x, bool_decide (x.1 = k)) m.
Definition map_delete (k : string) (m : list (string * A)) : list (string * A) :=
  keep (λ x, negb (bool_decide (x.1 = k))) m.
(** [set] on a key that is there keeps its place. *)
Definition map_set (k : string) (v : A) (m : list (string * A)) : list (string * A) :=
  if existsb (λ x, bool_decide (x.1 = k)) m
  then (λ x, if bool_decide (x.1 = k) then (k, v) else x) <$> m
  else m ++ [(k, v)].

Lemma map_get_Some k m v : map_get k m = Some v → (k, v) ∈ m.
Proof.
  unfold map_get. intros Hg. apply fmap_Some in Hg as ([k' v'] & [Hin Hk]%first_Some & ->).
  by apply bool_decide_eq_true_1 in Hk as <-.
Qed.
Lemma elem_of_map_delete k m x : x ∈ map_delete k m ↔ x.1 ≠ k ∧ x ∈ m.
Proof. unfold map_delete. by rewrite elem_of_keep, negb_true_iff, bool_decide_eq_false. Qed.
Lemma map_get_delete k k' m : map_get k (map_delete k' m) = if decide (k = k') then None else map_get k m.
Proof.
  unfold map_get, map_delete, first. case_decide as Hk.
  - subst. replace (keep _ _) with (@nil (string * A)); [done|]. symmetry. apply keep_nil_iff.
    intros x [Hx _]%elem_of_keep. by rewrite negb_true_iff in Hx.
  - do 2 f_equal. induction m as [|[k0 v0] m IH]; [done|]. rewrite !keep_cons. cbn.
    destruct (decide (k0 = k')) as [->|Hn].
    + rewrite (bool_decide_eq_true_2 (k' = k')), (bool_decide_eq_false_2 (k' = k)) by (done || congruence). exact IH.
    + rewrite (bool_decide_eq_false_2 (k0 = k')) by done. cbn. rewrite keep_cons. cbn. by rewrite IH.
Qed.
(** Inserting a key that is not there. *)
Lemma map_set_new k v m : map_get k m = None → map_set k v m = m ++ [(k, v)].
Proof.
  unfold map_get, map_set. intros Hg. apply fmap_None in Hg. rewrite first_None in Hg.
  destruct (existsb _ _) eqn:E; [|done]. apply existsb_exists in E as (x & Hx & Hk).
  apply list_elem_of_In in Hx. by rewrite Hg in Hk.
Qed.
End maps.

(** ** The module *)

Definition MAX_CACHED_COMPANIES : nat := 5000.

Record CacheEntry (V : Type) := mkEntry { ce_value : V; ce_expiresAt : Z }.
Arguments mkEntry {V}.
Arguments ce_value {V}.
Arguments ce_expiresAt {V}.

(** Its variables; a promise in [inFlight] is its number. *)
Record membership_module (V : Type) := mkModule {
  mm_cache : list (string * CacheEntry V); mm_inFlight : list (string * nat); mm_ttlMs : Z;
  mm_hits : nat; mm_misses : nat; mm_invalidations : nat }.
Arguments mkModule {V}.
Arguments mm_cache {V}.
Arguments mm_inFlight {V}.
Arguments mm_ttlMs {V}.
Arguments mm_hits {V}.
Arguments mm_misses {V}.
Arguments mm_invalidations {V}.

(** What [getCompanyMemberPermissions] returns: a value, the promise of an earlier call, a
    new cached load with its ttl, or an uncached load. *)
Inductive lookup_answer (V : Type) :=
| AnswerValue (v : V) | AnswerJoin (promise : nat) | AnswerLoad (ttl : Z) | AnswerLive.
Arguments AnswerValue {V}.
Arguments AnswerJoin {V}.
Arguments AnswerLoad {V}.
Arguments AnswerLive {V}.

Section module.
Context {V : Type}.
Implicit Types m : membership_module V.

(** [while (cache.size > MAX_CACHED_COMPANIES)], with [fuel] iterations to spend. *)
Fixpoint evict (fuel : nat) (cache : list (string * CacheEntry V)) : option (list (string * CacheEntry V)) :=
  if (length cache <=? MAX_CACHED_COMPANIES)%nat then Some cache
  else match fuel, head cache with
       | O, _ => None
       | S fuel, Some (oldest, _) => evict fuel (map_delete oldest cache)
       | _, None => Some cache
       end.

Definition storeCacheEntry (companyId : string) (value : V) (ttl now : Z)
    (cache : list (string * CacheEntry V)) : option (list (string * CacheEntry V)) :=
  let cache := map_set companyId (mkEntry value (now + ttl)%Z) (map_delete companyId cache) in
  evict (length cache) cache.

Definition with_cache (c : list (string * CacheEntry V)) m : membership_module V :=
  mkModule c m.(mm_inFlight) m.(mm_ttlMs) m.(mm_hits) m.(mm_misses) m.(mm_invalidations).
Definition with_inFlight (f : list (string * nat)) m : membership_module V :=
  mkModule m.(mm_cache) f m.(mm_ttlMs) m.(mm_hits) m.(mm_misses) m.(mm_invalidations).
Definition hit m : membership_module V :=
  mkModule m.(mm_cache) m.(mm_inFlight) m.(mm_ttlMs) (S m.(mm_hits)) m.(mm_misses) m.(mm_invalidations).
Definition missed m : membership_module V :=
  mkModule m.(mm_cache) m.(mm_inFlight) m.(mm_ttlMs) m.(mm_hits) (S m.(mm_misses)) m.(mm_invalidations).

(** The synchronous part of a call; [request] is the number of the promise it would create. *)
Definition getCompanyMemberPermissions (companyId : string) (now : Z) (request : nat) m
    : lookup_answer V * membership_module V :=
  let ttl := m.(mm_ttlMs) in
  if (ttl <=? 0)%Z then (AnswerLive, missed m)
  else
    let from_promise m :=
      match map_get companyId m.(mm_inFlight) with
      | Some pending => (AnswerJoin pending, hit m)
      | None => (AnswerLoad ttl, missed (with_inFlight (map_set companyId request m.(mm_inFlight)) m))
      end in
    match map_get companyId m.(mm_cache) with
    | Some cached =>
        if (now <? cached.(ce_expiresAt))%Z then (AnswerValue cached.(ce_value), hit m)
        else from_promise (with_cache (map_delete companyId m.(mm_cache)) m)
    | None => from_promise m
    end.

(** The [then] of a load. *)
Definition load_then (companyId : string) (request : nat) (value : V) (ttl now : Z) m : option (membership_module V) :=
  if bool_decide (map_get companyId m.(mm_inFlight) = Some request)
  then (λ c, with_cache c m) <$> storeCacheEntry companyId value ttl now m.(mm_cache)
  else Some m.
(** Its [finally]. *)
Definition load_finally (companyId : string) (request : nat) m : membership_module V :=
  if bool_decide (map_get companyId m.(mm_inFlight) = Some request)
  then with_inFlight (map_delete companyId m.(mm_inFlight)) m else m.

Definition invalidateCompanyMembership (companyId : string) m : membership_module V :=
  mkModule (map_delete companyId m.(mm_cache)) (map_delete companyId m.(mm_inFlight)) m.(mm_ttlMs)
    m.(mm_hits) m.(mm_misses) (S m.(mm_invalidations)).
Definition invalidateAllCompanyMemberships m : membership_module V :=
  mkModule [] [] m.(mm_ttlMs) m.(mm_hits) m.(mm_misses) (S m.(mm_invalidations)).
Definition setMembershipCacheTtlMs (value : Z) m : membership_module V :=
  mkModule (if (value <=? 0)%Z then [] else m.(mm_cache)) (if (value <=? 0)%Z then [] else m.(mm_inFlight))
    value m.(mm_hits) m.(mm_misses) m.(mm_invalidations).

(** ** The eviction loop *)

Lemma cache_keys_delete k (c : list (string * CacheEntry V)) : NoDup c.*1 → NoDup (map_delete k c).*1.
Proof.
  intros Hn. eapply sublist_NoDup; [exact Hn|]. apply fmap_sublist. unfold map_delete, keep. apply sublist_filter.
Qed.
(** Deleting the oldest key removes one entry. *)
Lemma delete_oldest k e (c : list (string * CacheEntry V)) :
  NoDup ((k, e) :: c).*1 → map_delete k ((k, e) :: c) = c.
Proof.
  rewrite fmap_cons. intros [Hk _]%NoDup_cons. unfold map_delete. rewrite keep_cons. cbn.
  rewrite bool_decide_eq_true_2 by done. cbn. rewrite <- (keep_everything c) at 2. apply keep_ext.
  intros [k' e'] Hin. apply negb_true_iff, bool_decide_eq_false_2. cbn. intros ->.
  apply Hk. apply list_elem_of_fmap. by exists (k, e').
Qed.
Lemma evict_spec fuel c :
  NoDup c.*1 → (length c - MAX_CACHED_COMPANIES <= fuel)%nat →
  evict fuel c = Some (drop (length c - MAX_CACHED_COMPANIES) c).
Proof.
  revert c. induction fuel as [|fuel IH]; intros c Hn Hf; cbn [evict].
  - case_eq (length c <=? MAX_CACHED_COMPANIES)%nat; intros Hl.
    + apply Nat.leb_le in Hl. by replace (length c - MAX_CACHED_COMPANIES)%nat with 0%nat by lia.
    + apply Nat.leb_gt in Hl. lia.
  - case_eq (length c <=? MAX_CACHED_COMPANIES)%nat; intros Hl.
    + apply Nat.leb_le in Hl. by replace (length c - MAX_CACHED_COMPANIES)%nat with 0%nat by lia.
    + apply Nat.leb_gt in Hl. destruct c as [|[k e] c]; [by cbn in Hl; lia|]. cbn [head].
      rewrite delete_oldest, IH; [|by apply NoDup_cons in Hn as [_ Hn]|cbn [length] in *; lia|done].
      cbn [length] in *. by replace (S (length c) - MAX_CACHED_COMPANIES)%nat with (S (length c - MAX_CACHED_COMPANIES)) by lia.
Qed.

Lemma store_spec companyId value ttl now (cache : list (string * CacheEntry V)) :
  NoDup cache.*1 →
  let stored := map_delete companyId cache ++ [(companyId, mkEntry value (now + ttl)%Z)] in
  storeCacheEntry companyId value ttl now cache = Some (drop (length stored - MAX_CACHED_COMPANIES) stored)
  ∧ (length (drop (length stored - MAX_CACHED_COMPANIES) stored) <= MAX_CACHED_COMPANIES)%nat
  ∧ last (drop (length stored - MAX_CACHED_COMPANIES) stored) = Some (companyId, mkEntry value (now + ttl)%Z)
  ∧ NoDup stored.*1.
Proof.
  intros Hn stored. unfold storeCacheEntry.
  assert (Hs : map_set companyId (mkEntry value (now + ttl)%Z) (map_delete companyId cache) = stored).
  { apply map_set_new. rewrite map_get_delete. by rewrite decide_True. }
  rewrite Hs. assert (Hd : NoDup stored.*1).
  { unfold stored. rewrite fmap_app. apply NoDup_app. split_and!; [by apply cache_keys_delete| |apply NoDup_singleton].
    intros k Hk Hk'. cbn in Hk'. apply list_elem_of_singleton in Hk' as ->.
    apply list_elem_of_fmap in Hk as (x & Hx & [Hne _]%elem_of_map_delete). by rewrite Hx in Hne. }
  split_and!; [apply evict_spec; [done|lia]|rewrite length_drop; lia| |done].
  unfold stored. rewrite length_app. cbn [length].
  rewrite drop_app_le, last_snoc; [done|]. unfold MAX_CACHED_COMPANIES. lia.
Qed.

(** C24: Storing an entry terminates: with one iteration of fuel for each entry the eviction loop
    ends, and leaves the most recently stored entries, at most the maximum, the new one
    last. *)
Theorem store_terminates companyId value ttl now (cache : list (string * CacheEntry V)) :
  NoDup cache.*1 →
  ∃ cache', storeCacheEntry companyId value ttl now cache = Some cache'
    ∧ (length cache' <= MAX_CACHED_COMPANIES)%nat
    ∧ last cache' = Some (companyId, mkEntry value (now + ttl)%Z)
    ∧ suffix cache' (map_delete companyId cache ++ [(companyId, mkEntry value (now + ttl)%Z)]).
Proof.
  intros Hn. destruct (store_spec companyId value ttl now cache Hn) as (Hs & Hl & Hlast & _).
  eexists. split_and!; [exact Hs|exact Hl|exact Hlast|].
  eexists. symmetry. apply take_drop.
Qed.
End module.
