(* ===== verification/MembershipRuns.v ===== *)
(** Runs of the membership cache with concurrent calls, writes and invalidations.

    [hist c n] is the membership of workspace [c] after its [n]-th write, so a read
    returns [hist c n] for the writes so far.  A call carries as its floor the writes
    of its workspace that were followed by an invalidation before it began. *)

From S2P Require Import Prelude Js MembershipCache.

Inductive stage (V : Type) := Loading | Read (v : V) | Failed | Thened (r : option V) | Settled (r : option V).
Arguments Loading {V}.
Arguments Read {V}.
Arguments Failed {V}.
Arguments Thened {V}.
Arguments Settled {V}.

(** A load; one that is to be cached carries its ttl. *)
Record promise (V : Type) := mkPromise { pr_company : string; pr_ttl : option Z; pr_stage : stage V }.
Arguments mkPromise {V}.
Arguments pr_company {V}.
Arguments pr_ttl {V}.
Arguments pr_stage {V}.

(** A call, answered with a value or with a promise. *)
Record call (V : Type) := mkCall { ca_company : string; ca_floor : nat; ca_answer : V + nat }.
Arguments mkCall {V}.
Arguments ca_company {V}.
Arguments ca_floor {V}.
Arguments ca_answer {V}.

Record cache_sys (V : Type) := mkCacheSys {
  ks_module : membership_module V; ks_promises : list (promise V); ks_calls : list (call V);
  (* writes committed, and those followed by an invalidation *)
  ks_writes : string → nat; ks_dropped : string → nat }.
Arguments mkCacheSys {V}.
Arguments ks_module {V}.
Arguments ks_promises {V}.
Arguments ks_calls {V}.
Arguments ks_writes {V}.
Arguments ks_dropped {V}.

Definition at_stage {V} (st : stage V) (p : promise V) : promise V := mkPromise p.(pr_company) p.(pr_ttl) st.
Definition bump (c : string) (f : string → nat) : string → nat := λ x, if decide (x = c) then S (f x) else f x.
Definition catch_up (c : string) (f g : string → nat) : string → nat := λ x, if decide (x = c) then g x else f x.

Section runs.
Context {V : Type} (hist : string → nat → V).

(** The promises and the call that an answer leads to. *)
Definition answered (c : string) (floor : nat) (a : lookup_answer V) (ps : list (promise V))
    : list (promise V) * call V :=
  match a with
  | AnswerValue v => (ps, mkCall c floor (inl v))
  | AnswerJoin p => (ps, mkCall c floor (inr p))
  | AnswerLoad ttl => (ps ++ [mkPromise c (Some ttl) Loading], mkCall c floor (inr (length ps)))
  | AnswerLive => (ps ++ [mkPromise c None Loading], mkCall c floor (inr (length ps)))
  end.

Inductive cache_step : cache_sys V → cache_sys V → Prop :=
| cache_call c now m ps cs w d :
    let r := getCompanyMemberPermissions c now (length ps) m in
    let a := answered c (d c) r.1 ps in
    cache_step (mkCacheSys m ps cs w d) (mkCacheSys r.2 a.1 (a.2 :: cs) w d)
| cache_read i p m ps cs w d :
    ps !! i = Some p → p.(pr_stage) = Loading →
    cache_step (mkCacheSys m ps cs w d)
      (mkCacheSys m (<[i := at_stage (Read (hist p.(pr_company) (w p.(pr_company)))) p]> ps) cs w d)
| cache_fail i p m ps cs w d :
    ps !! i = Some p → p.(pr_stage) = Loading →
    cache_step (mkCacheSys m ps cs w d) (mkCacheSys m (<[i := at_stage Failed p]> ps) cs w d)
| cache_then i p ttl v now m m' ps cs w d :
    ps !! i = Some p → p.(pr_stage) = Read v → p.(pr_ttl) = Some ttl →
    load_then p.(pr_company) i v ttl now m = Some m' →
    cache_step (mkCacheSys m ps cs w d) (mkCacheSys m' (<[i := at_stage (Thened (Some v)) p]> ps) cs w d)
| cache_reject i p m ps cs w d :
    ps !! i = Some p → p.(pr_stage) = Failed →
    cache_step (mkCacheSys m ps cs w d) (mkCacheSys m (<[i := at_stage (Thened None) p]> ps) cs w d)
| cache_live i p v m ps cs w d :
    ps !! i = Some p → p.(pr_stage) = Read v → p.(pr_ttl) = None →
    cache_step (mkCacheSys m ps cs w d) (mkCacheSys m (<[i := at_stage (Settled (Some v)) p]> ps) cs w d)
| cache_finally i p r m ps cs w d :
    ps !! i = Some p → p.(pr_stage) = Thened r →
    cache_step (mkCacheSys m ps cs w d)
      (mkCacheSys (load_finally p.(pr_company) i m) (<[i := at_stage (Settled r) p]> ps) cs w d)
| cache_write c m ps cs w d : cache_step (mkCacheSys m ps cs w d) (mkCacheSys m ps cs (bump c w) d)
| cache_invalidate c m ps cs w d :
    cache_step (mkCacheSys m ps cs w d) (mkCacheSys (invalidateCompanyMembership c m) ps cs w (catch_up c d w))
| cache_invalidate_all m ps cs w d :
    cache_step (mkCacheSys m ps cs w d) (mkCacheSys (invalidateAllCompanyMemberships m) ps cs w w)
| cache_ttl ttl m ps cs w d :
    cache_step (mkCacheSys m ps cs w d) (mkCacheSys (setMembershipCacheTtlMs ttl m) ps cs w d).

(** ** The invariant *)

(** A membership that was current at or after a number of writes. *)
Definition fresh (w : string → nat) (c : string) (floor : nat) (v : V) : Prop :=
  ∃ n, (floor <= n <= w c)%nat ∧ v = hist c n.

Definition value_of (st : stage V) : option V :=
  match st with Read v => Some v | Thened r | Settled r => r | _ => None end.

(** A promise that will not answer with less than the floor. *)
Definition sound_promise (w : string → nat) (ps : list (promise V)) (c : string) (floor i : nat) : Prop :=
  ∃ p, ps !! i = Some p ∧ p.(pr_company) = c ∧ ∀ v, value_of p.(pr_stage) = Some v → fresh w c floor v.

Definition sound_call (w : string → nat) (ps : list (promise V)) (k : call V) : Prop :=
  match k.(ca_answer) with
  | inl v => fresh w k.(ca_company) k.(ca_floor) v
  | inr i => sound_promise w ps k.(ca_company) k.(ca_floor) i
  end.

Record Cached (s : cache_sys V) : Prop := {
  cached_keys : NoDup s.(ks_module).(mm_cache).*1;
  cached_size : (length s.(ks_module).(mm_cache) <= MAX_CACHED_COMPANIES)%nat;
  cached_dropped : ∀ c, (s.(ks_dropped) c <= s.(ks_writes) c)%nat;
  cached_entries : ∀ c e, (c, e) ∈ s.(ks_module).(mm_cache) → fresh s.(ks_writes) c (s.(ks_dropped) c) e.(ce_value);
  cached_flights : ∀ c i, (c, i) ∈ s.(ks_module).(mm_inFlight) →
    sound_promise s.(ks_writes) s.(ks_promises) c (s.(ks_dropped) c) i;
  cached_calls : ∀ k, k ∈ s.(ks_calls) →
    (k.(ca_floor) <= s.(ks_writes) k.(ca_company))%nat ∧ sound_call s.(ks_writes) s.(ks_promises) k }.

Lemma fresh_mono w w' c f f' v :
  (w c <= w' c)%nat → (f' <= f)%nat → fresh w c f v → fresh w' c f' v.
Proof. intros Hw Hf (n & Hn & ->). exists n. split; [lia|done]. Qed.
Lemma sound_promise_mono w w' ps ps' c f i :
  (∀ c, (w c <= w' c)%nat) → (∀ j p, ps !! j = Some p → ∃ p', ps' !! j = Some p' ∧ p'.(pr_company) = p.(pr_company)
     ∧ ∀ v, value_of p'.(pr_stage) = Some v →
         value_of p.(pr_stage) = Some v ∨ (p.(pr_company) = c → fresh w' c f v)) →
  sound_promise w ps c f i → sound_promise w' ps' c f i.
Proof.
  intros Hw Hps (p & Hp & Hc & Hv). destruct (Hps i p Hp) as (p' & Hp' & Hc' & Hv').
  exists p'. split_and!; [done|congruence|]. intros v Hs. destruct (Hv' v Hs) as [Ho|Hn]; [|auto].
  eapply fresh_mono; [apply Hw|reflexivity|auto].
Qed.

(** The heap of promises after a step of one of them. *)
Lemma sound_insert w ps i p st c f j :
  ps !! i = Some p → (∀ v, value_of st = Some v → value_of p.(pr_stage) = Some v ∨ (p.(pr_company) = c → fresh w c f v)) →
  sound_promise w ps c f j → sound_promise w (<[i := at_stage st p]> ps) c f j.
Proof.
  intros Hp Hst. apply sound_promise_mono; [done|]. intros k q Hq. destruct (decide (k = i)) as [->|Hk].
  - exists (at_stage st p). simplify_eq. split_and!; [|done|done].
    apply list_lookup_insert_eq. by eapply lookup_lt_Some.
  - exists q. rewrite list_lookup_insert_ne by done. split_and!; [done..|]. by left.
Qed.
Lemma sound_app w ps q c f j : sound_promise w ps c f j → sound_promise w (ps ++ [q]) c f j.
Proof.
  apply sound_promise_mono; [done|]. intros k p Hp. exists p. split_and!; [by apply lookup_app_l_Some|done|by left].
Qed.

(** A step of a promise that adds no value but the current membership. *)
Lemma Cached_promise m ps cs w d i p st :
  ps !! i = Some p →
  (∀ v, value_of st = Some v → value_of p.(pr_stage) = Some v ∨ v = hist p.(pr_company) (w p.(pr_company))) →
  Cached (mkCacheSys m ps cs w d) → Cached (mkCacheSys m (<[i := at_stage st p]> ps) cs w d).
Proof.
  intros Hp Hst [K1 K2 K3 K4 K5 K6]. cbn in *.
  assert (Hins : ∀ c f j, (f <= w c)%nat → sound_promise w ps c f j → sound_promise w (<[i := at_stage st p]> ps) c f j).
  { intros c f j Hf. apply sound_insert; [done|]. intros v Hv. destruct (Hst v Hv) as [?|Hn]; [by left|right].
    intros Hc. rewrite Hc in Hn. exists (w c). split; [lia|done]. }
  split; cbn; try done.
  - intros c j Hin. by apply Hins, K5.
  - intros k Hk. destruct (K6 k Hk) as [Hf Hs]. split; [done|]. unfold sound_call in *.
    destruct (ca_answer k); [done|]. by apply Hins.
Qed.

(** A module with fewer entries and slots, and later floors for what is gone. *)
Lemma Cached_less m m' ps cs w d d' :
  Cached (mkCacheSys m ps cs w d) →
  sublist m'.(mm_cache) m.(mm_cache) →
  (∀ c e, (c, e) ∈ m'.(mm_cache) → (d' c <= d c)%nat) →
  (∀ c i, (c, i) ∈ m'.(mm_inFlight) → (c, i) ∈ m.(mm_inFlight) ∧ (d' c <= d c)%nat) →
  (∀ c, (d' c <= w c)%nat) → Cached (mkCacheSys m' ps cs w d').
Proof.
  intros [K1 K2 K3 K4 K5 K6] Hsub Hc Hi Hd. cbn in *. split; cbn; try done.
  - eapply sublist_NoDup; [exact K1|]. by apply fmap_sublist.
  - apply sublist_length in Hsub. lia.
  - intros c e Hin. eapply fresh_mono; [reflexivity|by eapply Hc|]. apply K4. by eapply elem_of_sublist.
  - intros c i Hin. destruct (Hi c i Hin) as [Hold Hle]. destruct (K5 c i Hold) as (p & Hp & Hco & Hv).
    exists p. split_and!; [done..|]. intros v Hs. eapply fresh_mono; [reflexivity|exact Hle|auto].
Qed.

Lemma sublist_map_delete {A} k (m : list (string * A)) : sublist (map_delete k m) m.
Proof. unfold map_delete, keep. apply sublist_filter. Qed.

(** A value stored for a workspace. *)
Lemma Cached_store m ps cs w d c v ttl now cache :
  Cached (mkCacheSys m ps cs w d) → fresh w c (d c) v →
  storeCacheEntry c v ttl now m.(mm_cache) = Some cache → Cached (mkCacheSys (with_cache cache m) ps cs w d).
Proof.
  intros [K1 K2 K3 K4 K5 K6] Hv Hs. cbn in *.
  destruct (store_spec c v ttl now m.(mm_cache) K1) as (He & Hlen & _ & Hnd). rewrite He in Hs. injection Hs as <-.
  split; cbn; try done.
  - eapply sublist_NoDup; [exact Hnd|]. apply fmap_sublist, sublist_drop.
  - intros c' e Hin. eapply elem_of_sublist in Hin; [|apply sublist_drop].
    apply elem_of_app in Hin as [[_ Hin]%elem_of_map_delete|Hin]; [by apply K4|].
    by apply list_elem_of_singleton in Hin as [= -> ->].
Qed.

(** ** The steps *)

Lemma Cached_call c now m ps cs w d :
  Cached (mkCacheSys m ps cs w d) →
  let r := getCompanyMemberPermissions c now (length ps) m in
  let a := answered c (d c) r.1 ps in Cached (mkCacheSys r.2 a.1 (a.2 :: cs) w d).
Proof.
  intros HC. assert (HC0 := HC). destruct HC as [K1 K2 K3 K4 K5 K6]. cbn in K1, K2, K3, K4, K5, K6.
  assert (Happ : ∀ q, q.(pr_company) = c → q.(pr_stage) = Loading → ∀ m',
    mm_cache m' `sublist_of` mm_cache m →
    (∀ c' i, (c', i) ∈ mm_inFlight m' → (c', i) ∈ mm_inFlight m ∨ (c' = c ∧ i = length ps)) →
    Cached (mkCacheSys m' (ps ++ [q]) (mkCall c (d c) (inr (length ps)) :: cs) w d)).
  { intros q Hq Hst m' Hc' Hi'.
    assert (Hnew : sound_promise w (ps ++ [q]) c (d c) (length ps)).
    { exists q. rewrite list_lookup_middle by done. split_and!; [done..|]. intros v. by rewrite Hst. }
    split; cbn; try done.
    - eapply sublist_NoDup; [exact K1|]. by apply fmap_sublist.
    - apply sublist_length in Hc'. lia.
    - intros c' e Hin. apply K4. by eapply elem_of_sublist.
    - intros c' i Hin. destruct (Hi' c' i Hin) as [Hold|[-> ->]]; [by apply sound_app, K5|done].
    - intros k [->|Hk]%elem_of_cons; [by split; [apply K3|]|]. destruct (K6 k Hk) as [Hf Hs]. split; [done|].
      unfold sound_call in *. destruct (ca_answer k); [done|by apply sound_app]. }
  assert (Hval : ∀ k m', ca_company k = c → ca_floor k = d c → sound_call w ps k →
    mm_cache m' `sublist_of` mm_cache m → mm_inFlight m' = mm_inFlight m →
    Cached (mkCacheSys m' ps (k :: cs) w d)).
  { intros k m' Hkc Hkf Hk Hc' Hi'. split; cbn; try done.
    - eapply sublist_NoDup; [exact K1|]. by apply fmap_sublist.
    - apply sublist_length in Hc'. lia.
    - intros c' e Hin. apply K4. by eapply elem_of_sublist.
    - intros c' i. rewrite Hi'. apply K5.
    - intros k' [->|Hk']%elem_of_cons; [|by apply K6]. split; [rewrite Hkf, Hkc; apply K3|done]. }
  unfold getCompanyMemberPermissions.
  destruct (mm_ttlMs m <=? 0)%Z; cbn; [by apply Happ; [..|by left]|].
  assert (Hfrom : ∀ m', mm_cache m' `sublist_of` mm_cache m → mm_inFlight m' = mm_inFlight m →
    let r := match map_get c (mm_inFlight m') with
      | Some pending => (AnswerJoin pending, hit m')
      | None => (AnswerLoad (mm_ttlMs m), missed (with_inFlight (map_set c (length ps) (mm_inFlight m')) m'))
      end in
    Cached (mkCacheSys r.2 (answered c (d c) r.1 ps).1 ((answered c (d c) r.1 ps).2 :: cs) w d)).
  { intros m' Hc' Hi'. rewrite Hi'. destruct (map_get c (mm_inFlight m)) as [i|] eqn:Eg; cbn.
    - apply Hval; [done|done| |done|done]. apply K5. by apply map_get_Some.
    - apply Happ; [done|done|done|]. cbn. rewrite map_set_new by done.
      intros c' i [Hin|Hin]%elem_of_app; [by left|right]. by apply list_elem_of_singleton in Hin as [= -> ->]. }
  destruct (map_get c (mm_cache m)) as [e|] eqn:Eg; [|by apply (Hfrom m)].
  destruct (now <? ce_expiresAt e)%Z.
  - apply (Hval (mkCall c (d c) (inl (ce_value e)))); [done|done| |done|done]. apply K4. by apply map_get_Some.
  - apply (Hfrom (with_cache (map_delete c (mm_cache m)) m)); cbn; [apply sublist_map_delete|done].
Qed.

Lemma Cached_step s s' : cache_step s s' → Cached s → Cached s'.
Proof.
  intros Hs HC. destruct Hs as [c now m ps cs w d r a|i p m ps cs w d Hp Hst|i p m ps cs w d Hp Hst
    |i p ttl v now m m' ps cs w d Hp Hst Httl Hth|i p m ps cs w d Hp Hst|i p v m ps cs w d Hp Hst Httl
    |i p r m ps cs w d Hp Hst|c m ps cs w d|c m ps cs w d|m ps cs w d|ttl m ps cs w d].
  - by apply Cached_call.
  - apply Cached_promise; [done| |done]. intros v [= <-]. by right.
  - by apply Cached_promise.
  - apply Cached_promise; [done|intros v' [= <-]; left; by rewrite Hst|]. unfold load_then in Hth.
    case_bool_decide as Hslot; [|by simplify_eq]. apply fmap_Some in Hth as (cache & Hsto & ->).
    eapply Cached_store; [done| |exact Hsto].
    destruct (cached_flights _ HC _ _ (map_get_Some _ _ _ Hslot)) as (q & Hq & _ & Hv). cbn in *.
    simplify_eq. apply Hv. by rewrite Hst.
  - by apply Cached_promise.
  - apply Cached_promise; [done|intros v' [= <-]; left; by rewrite Hst|done].
  - apply Cached_promise; [done|intros v' Hv'; left; by rewrite Hst|]. unfold load_finally.
    case_bool_decide; [|done]. eapply Cached_less; [done|done|done| |apply HC]. cbn. intros c j Hin. split; [|done].
    by apply elem_of_map_delete in Hin as [_ ?].
  - destruct HC as [K1 K2 K3 K4 K5 K6]. cbn in *.
    assert (Hb : ∀ x, (w x <= bump c w x)%nat) by (intros x; unfold bump; case_decide; lia).
    split; cbn; try done.
    + intros x. etransitivity; [apply K3|apply Hb].
    + intros x e Hin. eapply fresh_mono; [apply Hb|reflexivity|by apply K4].
    + intros x i Hin. eapply sound_promise_mono; [apply Hb| |by apply K5]. intros j p Hp. exists p. auto.
    + intros k Hk. destruct (K6 k Hk) as [Hf Hk']. split; [etransitivity; [exact Hf|apply Hb]|].
      unfold sound_call in *. destruct (ca_answer k); [eapply fresh_mono; [apply Hb|reflexivity|done]|].
      eapply sound_promise_mono; [apply Hb| |done]. intros j p Hp. exists p. auto.
  - eapply Cached_less; [done|apply sublist_map_delete|..].
    + cbn. intros x e [Hx _]%elem_of_map_delete. cbn in Hx. unfold catch_up. by rewrite decide_False.
    + cbn. intros x i [Hx Hin]%elem_of_map_delete. cbn in Hx. unfold catch_up. by rewrite decide_False.
    + intros x. unfold catch_up. case_decide; [done|apply HC].
  - eapply Cached_less; [done|apply sublist_nil_l|..]; cbn; [by intros ? ? []%not_elem_of_nil..|done].
  - eapply Cached_less; [done|..|apply HC]; cbn; case_match; try done;
      [apply sublist_nil_l|by intros ? ? []%not_elem_of_nil].
Qed.

(** C25: A membership that was revoked is not served.  In any interleaving of calls, loads, writes and
    invalidations, whatever a call returns, from the cache, from a shared load or from its
    own, is the membership after the writes whose invalidation preceded the call, or a
    later one; and the cache never holds more than its maximum. *)
Theorem membership_never_stale s s' k v :
  Cached s → rtc cache_step s s' → k ∈ s'.(ks_calls) →
  (k.(ca_answer) = inl v ∨ ∃ i p, k.(ca_answer) = inr i ∧ s'.(ks_promises) !! i = Some p ∧ p.(pr_stage) = Settled (Some v)) →
  (∃ n, (k.(ca_floor) <= n <= s'.(ks_writes) k.(ca_company))%nat ∧ v = hist k.(ca_company) n)
  ∧ (length s'.(ks_module).(mm_cache) <= MAX_CACHED_COMPANIES)%nat.
Proof.
  intros HC Hr Hk Ha. assert (HC' : Cached s').
  { clear Hk Ha. induction Hr as [|s1 s2 s3 H12 _ IH]; [done|]. apply IH. by eapply Cached_step. }
  split; [|apply HC']. destruct (cached_calls _ HC' k Hk) as [_ Hs]. unfold sound_call in Hs.
  destruct Ha as [Ha|(i & p & Ha & Hp & Hst)]; rewrite Ha in Hs; [done|].
  destruct Hs as (q & Hq & _ & Hv). simplify_eq. apply Hv. by rewrite Hst.
Qed.
End runs.
