(* ===== verification/MembershipWrites.v ===== *)
(** Every request that changes the members of a workspace drops its cached membership.

    [told t t'] is the preorder of what a request may do: the log of invalidations
    grows, and a workspace that is not in the new part has the members it had.
    [told_but c] allows the members of [c] to change as well, as between a commit and
    its invalidation. *)

From S2P Require Import Prelude Js Permissions PublicRows TenantDb PublicDb Exec Steady OAuth Workflow Team Sessions Credentials CredentialRuns TeamSpec.

Definition log (t : tables) : list string := rows membership_invalidations t.
Definition members_in (c : string) (t : tables) : list member_row := keep (in_company c) (memberships t).

Definition told_of (free : string → Prop) (t t' : tables) : Prop :=
  ∃ l, log t' = log t ++ l ∧ ∀ c, ¬ free c → c ∉ l → members_in c t' = members_in c t.
Definition told : tables → tables → Prop := told_of (λ _, False).
Definition told_but (c : string) : tables → tables → Prop := told_of (λ x, x = c).

#[export] Instance told_of_preorder free : PreOrder (told_of free).
Proof.
  split; [intros t; exists []; split; [by rewrite app_nil_r|done]|].
  intros t1 t2 t3 (l1 & E1 & M1) (l2 & E2 & M2). exists (l1 ++ l2).
  split; [by rewrite E2, E1, app_assoc|]. intros c Hf Hc. rewrite elem_of_app in Hc.
  rewrite M2, M1 by tauto. done.
Qed.
#[export] Instance told_preorder : PreOrder told.
Proof. apply _. Qed.
#[export] Instance told_but_preorder c : PreOrder (told_but c).
Proof. apply _. Qed.

Lemma told_of_same free t t' : log t' = log t → memberships t' = memberships t → told_of free t t'.
Proof. intros Hl Hm. exists []. rewrite app_nil_r. split; [done|]. intros c _ _. unfold members_in. by rewrite Hm. Qed.

#[export] Instance told_users free : Frame (told_of free) users.
Proof. intros l t. by apply told_of_same. Qed.
#[export] Instance told_companies free : Frame (told_of free) companies.
Proof. intros l t. by apply told_of_same. Qed.
#[export] Instance told_stats free : Frame (told_of free) company_stats.
Proof. intros l t. by apply told_of_same. Qed.
#[export] Instance told_invitations free : Frame (told_of free) invitations.
Proof. intros l t. by apply told_of_same. Qed.
#[export] Instance told_sessions free : Frame (told_of free) user_sessions.
Proof. intros l t. by apply told_of_same. Qed.
#[export] Instance told_auth_tokens free : Frame (told_of free) auth_tokens.
Proof. intros l t. by apply told_of_same. Qed.
#[export] Instance told_tokens free : Frame (told_of free) api_tokens.
Proof. intros l t. by apply told_of_same. Qed.
#[export] Instance told_grants free : Frame (told_of free) oauth_grants.
Proof. intros l t. by apply told_of_same. Qed.
#[export] Instance told_codes free : Frame (told_of free) oauth_authorization_codes.
Proof. intros l t. by apply told_of_same. Qed.
#[export] Instance told_policies free : Frame (told_of free) sla_policies.
Proof. intros l t. by apply told_of_same. Qed.

#[export] Instance told_members_free : Frame (told_of (λ _, True)) company_members.
Proof. intros l t. exists []. rewrite app_nil_r. split; [done|]. intros c Hc. by destruct Hc. Qed.

(** The complete requests. *)
Inductive member_request :=
| MrRemove (companyId userId : string)
| MrUpdateRole (companyId userId : string) (role : InvitedRole)
| MrTransfer (companyId owner newOwner : string)
| MrPermissions (companyId userId : string) (p : PartialPermissions)
| MrResetPermissions (companyId userId : string)
| MrAccept (token userId : string)
| MrVerifyEmail (token : string) (invitationToken : option string)
| MrCreateCompany (input : CreateCompanyInput) (owner : string)
| MrDeleteCompany (companyId : string)
| MrUpdateCompany (companyId : string) (input : UpdateCompanyInput).

Section writes.
Context `{Oracle} `{Crypto} `{CaseMapping}.

(** ** Statements *)

Lemma told_insert_log free c t : told_of free t (set_rows membership_invalidations (log t ++ [c]) t).
Proof. by exists [c]. Qed.
Lemma told_invalidate free c : steady (told_of free) (invalidateCompanyMembership c).
Proof. intros t. apply exec_insert_row; [|done]. intros _. apply told_insert_log. Qed.

(** The invalidation closes what was open. *)
Lemma told_close c t t1 : told_but c t t1 → told t (set_rows membership_invalidations (log t1 ++ [c]) t1).
Proof.
  intros (l & Hl & Hm). exists (l ++ [c]). split; [cbn; change (p_invalidated (t_public t1)) with (log t1); by rewrite Hl, app_assoc|].
  intros x _ Hx. rewrite elem_of_app, list_elem_of_singleton in Hx. apply Hm; tauto.
Qed.
Lemma exec_close {A} c (a : A) t t1 :
  told_but c t t1 → exec (_ ← invalidateCompanyMembership c; mret a) t1 (λ _ t', told t t') (λ _ t', told t t').
Proof.
  intros Ht. apply exec_bind. apply exec_insert_row; [|done]. intros _. exec_step. by apply told_close.
Qed.

(** Rows of one workspace. *)
Lemma told_but_members c l t :
  (∀ x, x ≠ c → keep (in_company x) l = members_in x t) → told_but c t (set_rows company_members l t).
Proof. intros Hl. exists []. rewrite app_nil_r. split; [done|]. intros x Hx _. by apply Hl. Qed.

Lemma members_update c q f l x :
  (∀ m, m ∈ l → q m = true → m.(mb_company_id) = c) → (∀ m, (f m).(mb_company_id) = m.(mb_company_id)) → x ≠ c →
  keep (in_company x) (update_where q f l) = keep (in_company x) l.
Proof.
  intros Hq Hf Hx. unfold update_where. induction l as [|m l IH]; [done|].
  rewrite fmap_cons, !keep_cons, IH by (intros; apply Hq; [by right|done]).
  destruct (q m) eqn:E; [|done]. assert (Hm := Hq m ltac:(left) E).
  unfold in_company. by rewrite Hf, bool_decide_eq_false_2 by congruence.
Qed.

Lemma steady_update_members c q f :
  (∀ m, q m = true → m.(mb_company_id) = c) → (∀ m, (f m).(mb_company_id) = m.(mb_company_id)) →
  steady (told_but c) (update company_members q f).
Proof.
  intros Hq Hf t. apply exec_update; [|done]. intros _. apply told_but_members. intros x Hx. by eapply members_update; eauto.
Qed.
Lemma steady_insert_member m : steady (told_but m.(mb_company_id)) (insert_row company_members m).
Proof.
  intros t. apply exec_insert_row; [|done]. intros _. apply told_but_members. intros x Hx.
  change (rows company_members t) with (memberships t). rewrite keep_app.
  replace (keep (in_company x) [m]) with (@nil member_row); [by rewrite app_nil_r|].
  symmetry. apply keep_nil_iff. intros y ->%list_elem_of_singleton. by apply bool_decide_eq_false_2.
Qed.

Lemma membership_company c u m : is_membership c u m = true → m.(mb_company_id) = c.
Proof. intros Hm. by apply is_membership_true in Hm as [? _]. Qed.
#[local] Hint Resolve told_invalidate membership_company : steady.

(** ** Requests *)

(** A transaction that changes one workspace. *)
Lemma exec_told_transaction {A} c (m : M A) t :
  steady (told_but c) m → exec (transaction m) t (λ _ t', told_but c t t') (λ _ t', t' = t).
Proof. intros Hm. apply exec_transaction. by eapply exec_weaken; [apply Hm|..]. Qed.

(** The rows with the id of a member are in its workspace when the index holds. *)
Definition member_indexed (t : tables) : Prop := constraint company_members (memberships t) = None.

Lemma exec_remove_told c u t :
  member_indexed t → exec (remove_membership c u) t (λ _ t', told_but c t t') (λ _ t', t' = t).
Proof.
  intros Hc. unfold remove_membership. exec_step. apply exec_bind, exec_delete_where.
  set (t1 := set_rows _ _ t). assert (Hm : memberships t1 = memberships t) by done.
  do 2 exec_step. exec_step; [|by exec_step]. rename m into row.
  change (rows company_members t1) with (memberships t1) in *.
  destruct (first_Some _ _ _ E) as [Hin [Hco Hu]%is_membership_true].
  exec_step; [by exec_step|]. apply exec_bind, exec_delete_where.
  change (rows company_members t1) with (memberships t1). set (t2 := set_rows _ _ t1).
  assert (H2 : told_but c t t2).
  { transitivity t1; [by apply told_of_same|]. apply told_but_members. intros x Hx. unfold members_in.
    clear -Hin Hco Hx Hc Hm. rewrite Hm in *.
    assert (Hs : ∀ l, (∀ y, y ∈ l → y ∈ memberships t) →
      keep (in_company x) (keep (negb ∘ λ r, bool_decide (mb_id r = mb_id row)) l) = keep (in_company x) l).
    { induction l as [|y l IH]; [done|]. intros Hl. rewrite !keep_cons. cbn.
      assert (IH' := IH (λ z Hz, Hl z (list_elem_of_further _ _ _ Hz))).
      case_bool_decide as Hid; cbn; [|rewrite keep_cons, IH'; done]. rewrite IH'.
      assert (y = row) as -> by (eapply member_unique; [exact Hc|apply Hl; left|done|by left]).
      unfold in_company. by rewrite bool_decide_eq_false_2 by congruence. }
    by apply Hs. }
  eapply exec_weaken; [refine ((_ : steady (told_but c) _) t2)|..]; cbv beta; [|by intros [] t' Ht; transitivity t2|done].
  steady.
Qed.

Lemma exec_told_end {A} (m : M A) t t1 :
  steady told m → told t t1 → exec m t1 (λ _ t', told t t') (λ _ t', told t t').
Proof. intros Hm Ht. eapply exec_weaken; [apply Hm|..]; cbv beta; intros x t' Ht'; by transitivity t1. Qed.

(** After a commit that changed one workspace: the invalidation, and steady work. *)
Lemma exec_told_close {A} c (k : M A) t t1 :
  told_but c t t1 → steady told k → exec (_ ← invalidateCompanyMembership c; k) t1 (λ _ t', told t t') (λ _ t', told t t').
Proof.
  intros Ht Hk. apply exec_bind, exec_insert_row; [|done]. intros _. apply exec_told_end; [done|]. by apply told_close.
Qed.

Lemma exec_told_request {A B} c (m : M A) (k : A → M B) t :
  exec m t (λ _ t', told_but c t t') (λ _ t', t' = t) →
  (∀ a, steady told (k a)) →
  exec (a ← m; _ ← invalidateCompanyMembership c; k a) t (λ _ t', told t t') (λ _ t', told t t').
Proof.
  intros Hm Hk. apply exec_bind. eapply exec_weaken; [exact Hm|..]; cbv beta.
  - intros a t1 Ht1. by apply exec_told_close.
  - by intros e t' ->.
Qed.

(** The rows of a member by id. *)
Lemma by_id_company t m x :
  member_indexed t → m ∈ memberships t → x ∈ memberships t → bool_decide (x.(mb_id) = m.(mb_id)) = true →
  x.(mb_company_id) = m.(mb_company_id).
Proof.
  intros Hc Hm Hx He%bool_decide_eq_true_1. by rewrite (member_unique _ x m Hc Hx Hm (or_introl He)).
Qed.

Lemma exec_updateMemberRole_told c u r t :
  member_indexed t → exec (updateMemberRole c u r) t (λ _ t', told t t') (λ _ t', told t t').
Proof.
  intros Hc. unfold updateMemberRole. apply (exec_told_request c); [|intros; steady].
  do 2 exec_step. do 2 exec_step; [|by exec_step]. destruct (first_Some _ _ _ E) as [Hin [Hco _]%is_membership_true].
  exec_step; [by exec_step|]. apply exec_bind, exec_update_returning; [|done]. intros _.
  exec_step; [by exec_step|]. exec_step. apply told_but_members. intros x Hx.
  unfold members_in. apply (members_update c); [|done|done]. intros y Hy He. rewrite <- Hco. by eapply by_id_company.
Qed.

Lemma steady_transfer_told c a b t :
  exec (transferOwnership c a b) t (λ _ t', told t t') (λ _ t', told t t').
Proof.
  unfold transferOwnership. exec_step; [by exec_step|]. apply exec_bind.
  eapply exec_weaken; [apply (exec_told_transaction c)|..]; cbv beta.
  - cbv zeta. apply steady_bind; [apply _|steady|intros l]. steady_step; [steady|].
    apply steady_bind; [apply _|apply steady_update_members; eauto using membership_company|intros _].
    apply steady_bind; [apply _|apply steady_update_members; eauto using membership_company|intros _; steady].
  - intros _ t1 Ht. apply exec_insert_row; [|done]. intros _. by apply told_close.
  - by intros e t' ->.
Qed.

Lemma exec_permissions_told {A} c u x (k : M A) t :
  steady told k →
  exec (_ ← update company_members (is_membership c u) (set_permissions x); _ ← invalidateCompanyMembership c; k) t
    (λ _ t', told t t') (λ _ t', told t t').
Proof.
  intros Hk. apply exec_bind, exec_update; [|done]. intros _. apply exec_told_close; [|done].
  apply told_but_members. intros y Hy. apply (members_update c); eauto using membership_company.
Qed.

(** The acceptance changes the workspace of the invitation. *)
Lemma exec_accept_told token userId t :
  exec (acceptInvitationInTransaction token userId) t (λ r t', told_but r.1.(co_id) t t')
    (λ e t', survivable e = true → t' = t).
Proof.
  assert (Hx : steady (told_of (λ _, True)) (acceptInvitationInTransaction token userId)).
  { unfold acceptInvitationInTransaction, getCompany. steady. }
  eapply exec_weaken; [apply exec_and; [apply exec_acceptance|apply Hx]|..]; cbv beta.
  - intros r t' [(i & u & Hj) (l & Hl & _)]. exists l. split; [done|]. intros c Hc _.
    destruct Hj as [_ _ _ _ _ (_ & Hid & _) (id & at_ & Hm) Hms _ _ _ _]. unfold members_in.
    rewrite Hms, keep_app. replace (keep (in_company c) [r.2]) with (@nil member_row); [by rewrite app_nil_r|].
    symmetry. apply keep_nil_iff. intros y ->%list_elem_of_singleton. rewrite Hm.
    apply bool_decide_eq_false_2. cbn. congruence.
  - intros e t' [[[-> _]|He] _] Hs; [done|]. by rewrite constraint_not_survivable in Hs.
Qed.

Lemma exec_acceptInvitation_told token userId t :
  exec (acceptInvitation token userId) t (λ _ t', told t t') (λ _ t', told t t').
Proof.
  unfold acceptInvitation, completeInvitationAcceptance. do 2 exec_step.
  eapply exec_weaken; [apply exec_accept_told|cbv beta|done].
  intros r t1 Ht. apply exec_told_close; [done|steady].
Qed.

(** An acceptance inside a verification, if there was one. *)
Lemma exec_verifyEmail_told token invitationToken t :
  exec (verifyEmail token invitationToken) t (λ _ t', told t t') (λ _ t', told t t').
Proof.
  unfold verifyEmail. do 4 exec_step. do 2 exec_step. exec_step; [|by exec_step]. do 2 exec_step.
  apply (exec_steady_bind told); [steady| |done]. intros l t1 Ht1. exec_step; [by exec_step|]. apply exec_bind.
  eapply (exec_weaken _ _ (λ o t', match o with Some r => told_but r.1.(co_id) t t' | None => told t t' end) _ (λ _ _, True)); [| |done].
  - assert (Hb : ∀ c, told_but c t t1).
    { intros c. destruct Ht1 as (k & Hk & Hm). exists k. split; [done|]. intros x _ Hx. apply Hm; [by intros []|done]. }
    destruct invitationToken as [i|]; [|by exec_step]. exec_step; [by exec_step|].
    apply exec_catch, exec_bind. eapply exec_weaken; [apply exec_accept_told|..]; cbv beta.
    + intros r t2 Ht2. exec_step. by transitivity t1.
    + intros e t2 He. exec_step; exec_step; [by rewrite He|done].
  - cbv beta. intros accepted t2 Ht2.
    assert (Hu : ∀ p f, exec (update auth_tokens p f) t2 (λ _ t', match accepted with
      Some r => told_but r.1.(co_id) t t' | None => told t t' end) (λ _ _, True)).
    { intros p f. apply exec_update; [|done]. intros _. destruct accepted as [r|];
        (etransitivity; [exact Ht2|by apply told_of_same]). }
    apply exec_bind. eapply exec_weaken; [apply Hu|cbv beta|done]. intros n t3 Ht3. exec_step.
    destruct accepted as [r|]; [|by exec_step]. unfold completeInvitationAcceptance. apply exec_told_close; [done|steady].
Qed.

Section create.
(** The storage and the tenant schemas do not write the tables of members. *)
Context (upload : string → M string) (createSchema dropSchema deleteMedia : string → M unit)
  (Hupload : ∀ c, steady told (upload c)) (Hcreate : ∀ c, steady told (createSchema c))
  (Hdrop : ∀ c, steady told (dropSchema c)) (Hdelete : ∀ k, steady told (deleteMedia k)).

Definition run_member_request (r : member_request) : M unit :=
  match r with
  | MrRemove c u => removeMember c u
  | MrUpdateRole c u r => ignore (updateMemberRole c u r)
  | MrTransfer c a b => transferOwnership c a b
  | MrPermissions c u p => ignore (updateMemberPermissions c u p)
  | MrResetPermissions c u => ignore (resetMemberPermissions c u)
  | MrAccept t u => ignore (acceptInvitation t u)
  | MrVerifyEmail t i => ignore (verifyEmail t i)
  | MrCreateCompany i o => ignore (createCompany upload createSchema dropSchema i o)
  | MrDeleteCompany c => deleteCompany c
  | MrUpdateCompany c i => ignore (updateCompany upload deleteMedia c i)
  end.

Lemma exec_insert_company_told c i l o t :
  exec (insert_company c i l o) t (λ _ t', told_but c t t') (λ _ t', t' = t).
Proof.
  unfold insert_company, seedDefaultSlaPolicy. apply exec_told_transaction.
  repeat (apply steady_bind; [apply _|first [refine (steady_insert_member (mkMember _ _ c _ _ _ _))|solve [steady]]|intros; cbv beta zeta]).
  steady.
Qed.

Lemma exec_createCompany_told i o t :
  exec (createCompany upload createSchema dropSchema i o) t (λ _ t', told t t') (λ _ t', told t t').
Proof using Hupload Hcreate Hdrop.
  unfold createCompany. do 2 exec_step. apply (exec_steady_bind told); [steady| |done].
  intros key t1 Ht1.
  apply (exec_weaken _ _ (λ _ t', told t1 t') _ (λ _ t', told t1 t')); [|cbv beta; intros; by transitivity t1..].
  apply exec_told_request; [apply exec_insert_company_told|]. intros w. unfold rollbackFailedWorkspace. steady.
Qed.

Lemma exec_member_request r t :
  member_indexed t → exec (run_member_request r) t (λ _ t', told t t') (λ _ t', told t t').
Proof using Hupload Hcreate Hdrop Hdelete.
  intros Hc. destruct r as [c u|c u r|c a b|c u p|c u|tok u|tok i|i o|c|c i]; cbn [run_member_request]; try apply exec_ignore.
  - unfold removeMember. apply exec_told_request; [by apply exec_remove_told|]. intros _. unfold uncount_member. steady.
  - by apply exec_updateMemberRole_told.
  - apply steady_transfer_told.
  - unfold updateMemberPermissions. do 2 exec_step. exec_step; [|by exec_step]. exec_step; [by exec_step|].
    apply exec_permissions_told. steady.
  - unfold resetMemberPermissions. do 2 exec_step. exec_step; [|by exec_step]. apply exec_permissions_told. steady.
  - apply exec_acceptInvitation_told.
  - apply exec_verifyEmail_told.
  - apply exec_createCompany_told.
  - assert (Hs : steady told (deleteCompany c)) by (unfold deleteCompany; steady). apply Hs.
  - assert (Hs : steady told (updateCompany upload deleteMedia c i)) by (unfold updateCompany, update_company; steady). apply Hs.
Qed.

(** Every request that changes the members of a workspace, whatever it answers, drops that
    workspace's cached membership: a workspace that is not among the invalidations a
    request appends has exactly the members it had before. *)
Theorem membership_writes_invalidate r s :
  constraint company_members (memberships (tb s)) = None →
  ∃ l, log (tb (run_member_request r s).2) = log (tb s) ++ l
    ∧ ∀ c, c ∉ l → members_in c (tb (run_member_request r s).2) = members_in c (tb s).
Proof using Hupload Hcreate Hdrop Hdelete.
  intros Hc. destruct (exec_end (run_member_request r) s (told (tb s)) (exec_member_request r (tb s) Hc)) as (l & Hl & Hm).
  exists l. split; [done|]. intros c Hc'. apply Hm; [by intros []|done].
Qed.
End create.
End writes.
