(* ===== verification/SessionSpec.v ===== *)
(** What the sessions of an account promise.

    The retired refresh tokens of a session against a reference that remembers every
    rotation; what a refresh does; and that a new password ends the other sessions,
    with the login that was already past its check. *)

From S2P Require Import Prelude Js Permissions PublicRows TenantDb PublicDb Exec Steady OAuth Workflow Team Sessions.

(** ** The retained tokens *)

(** Writing and reading the column. *)
Lemma read_retired_json l :
  (∀ e, e ∈ l → e.(rt_hash) ≠ EmptyString) → readRetiredRefreshTokens (retired_json l) = l.
Proof.
  intros Hl. cbn. induction l as [|[h x] l IH]; [done|]. cbn.
  assert (Hh := Hl _ (list_elem_of_here _ _)). cbn in Hh.
  destruct (String.eqb_spec h EmptyString); [done|]. f_equal. apply IH. intros e He. apply Hl. by right.
Qed.

(** The history of a session: each token with the instant of its retirement. *)
Definition rotation : Type := string * Z.
Definition retire (graceMs : Z) (l : list RetiredRefreshToken) (r : rotation) : list RetiredRefreshToken :=
  retainSupersededRefreshToken l r.1 r.2 graceMs.
Definition retained (graceMs : Z) (history : list rotation) : list RetiredRefreshToken :=
  foldl (retire graceMs) [] history.

(** The reference: every token, until a fixed time after its retirement. *)
Definition entry_of (graceMs : Z) (r : rotation) : RetiredRefreshToken := mkRetired r.1 (r.2 + graceMs)%Z.
Definition latest (history : list rotation) : list rotation :=
  drop (length history - MAX_RETAINED_REFRESH_TOKENS) history.
Definition reference_accepts (graceMs : Z) (history : list rotation) (hash : string) (now : Z) : bool :=
  isRetiredRefreshTokenAccepted (entry_of graceMs <$> latest history) hash now.

(** Times that do not run backwards. *)
Definition in_order (history : list rotation) : Prop := StronglySorted Z.le history.*2.

(** On ordered times, what has expired is a prefix. *)
Lemma prune_suffix g h now :
  in_order h → ∃ k, pruneRetiredRefreshTokens (entry_of g <$> h) now = drop k (entry_of g <$> h)
    ∧ (k <= length h)%nat ∧ ∀ e, e ∈ take k (entry_of g <$> h) → (e.(rt_expiresAt) <= now)%Z.
Proof.
  unfold in_order, pruneRetiredRefreshTokens. induction h as [|[t z] h IH]; cbn; intros Ho.
  - exists 0%nat. split_and!; [done|done|]. by intros e []%not_elem_of_nil.
  - apply StronglySorted_inv in Ho as [Ho Hle]. rewrite keep_cons. cbn.
    destruct (now <? z + g)%Z eqn:E.
    + exists 0%nat. cbn. split_and!; [|lia|by intros e []%not_elem_of_nil]. f_equal.
      rewrite <- (keep_everything (entry_of g <$> h)) at 2. apply keep_ext. intros e He.
      apply list_elem_of_fmap in He as ([t' z'] & -> & Hin). cbn. rewrite Forall_forall in Hle.
      assert (z <= z')%Z by (apply Hle; apply list_elem_of_fmap; by exists (t', z')). lia.
    + destruct (IH Ho) as (k & Hk & Hl & He). exists (S k). cbn. split_and!; [done|lia|].
      intros e [->|Hin]%elem_of_cons; [cbn; lia|auto].
Qed.

(** What is retained is a suffix of the history that misses only what the reference refuses. *)
Lemma retained_suffix g h now :
  (0 < g)%Z → in_order h → (∀ r, r ∈ h → (r.2 <= now)%Z) →
  ∃ k, retained g h = drop k (entry_of g <$> h) ∧ (length h - MAX_RETAINED_REFRESH_TOKENS <= k <= length h)%nat
    ∧ ∀ i e, (length h - MAX_RETAINED_REFRESH_TOKENS <= i < k)%nat → (entry_of g <$> h) !! i = Some e →
        (e.(rt_expiresAt) <= now)%Z.
Proof.
  intros Hg. revert h. induction h as [|[t z] h IH] using rev_ind; intros Ho Hnow.
  { exists 0%nat. split_and!; [done|cbn; lia|cbn; lia|]. cbn. lia. }
  unfold in_order in Ho. rewrite fmap_app in Ho.
  assert (Hoh : in_order h) by by eapply StronglySorted_app_1_l.
  destruct (IH Hoh) as (k & Hk & Hkl & Hdead); [intros r Hr; apply Hnow, elem_of_app; by left|]. clear IH.
  assert (Hz : (z <= now)%Z) by (apply (Hnow (t, z)), elem_of_app; right; by left).
  assert (Hod : in_order (drop k h)).
  { unfold in_order in Hoh |- *. rewrite fmap_drop. rewrite <- (take_drop k h.*2) in Hoh. by eapply StronglySorted_app_1_r. }
  destruct (prune_suffix g (drop k h) z Hod) as (k' & Hk' & Hkl' & Hdead'). rewrite fmap_drop in Hk', Hdead'.
  rewrite length_drop in Hkl'.
  unfold retained. rewrite foldl_snoc. fold (retained g h). unfold retire, retainSupersededRefreshToken. cbn [fst snd].
  rewrite (proj2 (Z.leb_gt _ _)) by lia. rewrite Hk, Hk', drop_drop.
  rewrite <- drop_app_le by (rewrite length_fmap; lia).
  change [mkRetired t (z + g)%Z] with (entry_of g <$> [(t, z)]). rewrite <- fmap_app, drop_drop.
  rewrite length_drop, length_fmap, length_app. cbn [length]. unfold MAX_RETAINED_REFRESH_TOKENS in *.
  eexists. rewrite length_app. cbn [length]. split_and!; [reflexivity|lia|lia|].
  intros i e Hi He. rewrite fmap_app in He.
  rewrite lookup_app_l in He by (rewrite length_fmap; lia).
  destruct (decide (i < k)%nat) as [Hik|Hik]; [apply (Hdead i); [lia|done]|].
  transitivity z; [|done]. apply Hdead'. apply list_elem_of_lookup. exists (i - k)%nat.
  rewrite lookup_take_lt by lia. rewrite lookup_drop. by replace (k + (i - k))%nat with i by lia.
Qed.

(** C26: The retired refresh tokens of a session agree with a reference that remembers every
    rotation: at any time after the last one, a token is accepted exactly when it is one
    of the five latest retired and its own retirement lies within the grace period; later
    rotations never extend a deadline, and at most five tokens are stored. *)
Theorem retention_reference graceMs history hash now :
  (0 < graceMs)%Z → in_order history → (∀ r, r ∈ history → (r.2 <= now)%Z) →
  isRetiredRefreshTokenAccepted (retained graceMs history) hash now = reference_accepts graceMs history hash now
  ∧ (length (retained graceMs history) <= MAX_RETAINED_REFRESH_TOKENS)%nat.
Proof.
  intros Hg Ho Hnow. destruct (retained_suffix _ _ _ Hg Ho Hnow) as (k & -> & Hk & Hdead).
  split; [|rewrite length_drop, length_fmap; lia].
  unfold reference_accepts, latest, isRetiredRefreshTokenAccepted. rewrite fmap_drop.
  set (E := entry_of graceMs <$> history) in *. set (j := (length history - MAX_RETAINED_REFRESH_TOKENS)%nat) in *.
  rewrite <- (take_drop (k - j) (drop j E)), drop_drop. replace (j + (k - j))%nat with k by lia.
  rewrite existsb_app. destruct (existsb _ (take _ _)) eqn:Et; [exfalso|done].
  apply existsb_exists in Et as (e & Hin & He). apply list_elem_of_In, list_elem_of_lookup in Hin as [i Hi].
  apply lookup_take_Some in Hi as [Hi Hik]. rewrite lookup_drop in Hi.
  assert (Hx := Hdead (j + i)%nat e ltac:(lia) Hi). to_prop. lia.
Qed.

(** ** A refresh *)

Section sessions.
Context `{Oracle} `{Crypto} `{CaseMapping} `{AuthEnv}.

Definition session_rows (t : tables) : list user_session_row := rows user_sessions t.
Definition account_tokens (t : tables) : list auth_token_row := rows auth_tokens t.

(** The session that a refresh token names and is good for. *)
Record presents (token : string) (t : tables) (se : user_session_row) (u : user_row) : Prop := {
  ps_signed : ∃ now jti, clock_reading now ∧ verify_refresh token now = Some (se.(se_id), jti);
  ps_stored : se ∈ session_rows t;
  ps_live : ∃ now, clock_reading now ∧ (now < se.(se_expires_at))%Z;
  ps_user : first (user_is se.(se_user_id)) (rows users t) = Some u;
  ps_token : se.(se_refresh_token) = hashToken token ∨ ∃ now, clock_reading now ∧
    isRetiredRefreshTokenAccepted (readRetiredRefreshTokens se.(se_previous_refresh_tokens)) (hashToken token) now = true }.

Definition session_expired : err :=
  AuthError "Session not found, expired, or refresh token already used" "SESSION_EXPIRED" 401.

(** The times of a token that is issued now for the configured duration. *)
Definition issue_times (duration : jsstring) (times : Z * Z) : Prop :=
  ∃ seconds issued now, parseDuration duration = Ok seconds ∧ clock_reading issued ∧ clock_reading now
    ∧ times = ((issued / 1000)%Z, (now / 1000 + seconds)%Z).

(** The expiry of a session that is refreshed now. *)
Definition session_expiry (expires : Z) : Prop :=
  ∃ seconds now, parseDuration JWT_REFRESH_EXPIRES_IN = Ok seconds ∧ clock_reading now
    ∧ expires = (now + seconds * 1000)%Z.

(** The tokens that a refresh of the session answers. *)
Record issued_for (se : user_session_row) (tk : AuthTokens) : Prop := {
  is_access : ∃ times, issue_times JWT_ACCESS_EXPIRES_IN times
    ∧ tk.(au_accessToken) = sign_access se.(se_user_id) se.(se_id) times.1 times.2;
  is_refresh : ∃ jti times, drawn_uuid jti ∧ issue_times JWT_REFRESH_EXPIRES_IN times
    ∧ tk.(au_refreshToken) = sign_refresh se.(se_id) jti times.1 times.2 }.

(** The retired tokens of a session after another one: those still alive and, when there
    is a grace at all, the new one until the end of its grace, the five latest of them. *)
Definition retired_with (old : string) (now graceMs : Z) (column : retired_column) : list RetiredRefreshToken :=
  let live := keep (λ e, now <? e.(rt_expiresAt))%Z (readRetiredRefreshTokens column) in
  if (0 <? graceMs)%Z then
    let all := live ++ [mkRetired old (now + graceMs)%Z] in drop (length all - 5) all
  else live.

(** The rotation of a session to a new token: its hash and the retired tokens are stored,
    the expiry moves to the configured lifetime from the moment of the refresh, and
    nothing else of any session changes. *)
Definition rotated_to (t t' : tables) (se : user_session_row) (newToken : string) : Prop :=
  ∃ now active expires,
    clock_reading now ∧ clock_reading active ∧ session_expiry expires ∧
    session_rows t' = (λ r,
      if bool_decide (r.(se_id) = se.(se_id)) then
        mkUserSession r.(se_id) r.(se_user_id) r.(se_device) (hashToken newToken)
          (RetiredArray ((λ e, RetiredObject (Some e.(rt_hash)) (Some (Some e.(rt_expiresAt)))) <$>
             retired_with se.(se_refresh_token) now (JWT_REFRESH_REUSE_GRACE_SECONDS * 1000)
               se.(se_previous_refresh_tokens)))
          active r.(se_created_at) expires
      else r) <$> session_rows t.

Lemma retained_with column old now graceMs :
  retainSupersededRefreshToken (readRetiredRefreshTokens column) old now graceMs = retired_with old now graceMs column.
Proof.
  unfold retainSupersededRefreshToken, retired_with, pruneRetiredRefreshTokens, MAX_RETAINED_REFRESH_TOKENS. cbv zeta.
  by destruct (Z.leb_spec graceMs 0), (Z.ltb_spec 0 graceMs); [lia| | |lia].
Qed.

Lemma exec_times_s expires t (Q : Z * Z → tables → Prop) (E : err → tables → Prop) :
  (∀ x, issue_times expires x → Q x t) → (∀ e, parseDuration expires = Throw e → E e t) →
  exec (token_times_s expires) t Q E.
Proof. intros HQ HE. unfold token_times_s, of_result. exec_steps; auto. apply HQ. eexists _, _, _. eauto. Qed.
Lemma exec_expiry t (Q : Z → tables → Prop) (E : err → tables → Prop) :
  (∀ x, session_expiry x → Q x t) → (∀ e, parseDuration JWT_REFRESH_EXPIRES_IN = Throw e → E e t) →
  exec getRefreshTokenExpiry t Q E.
Proof. intros HQ HE. unfold getRefreshTokenExpiry, of_result. exec_steps; auto. apply HQ. eexists _, _. eauto. Qed.

Lemma head_joined t (p : user_session_row → bool) se u :
  head (omap (λ r, pair r <$> first (user_is r.(se_user_id)) (rows users t)) (keep p (session_rows t))) = Some (se, u) →
  se ∈ session_rows t ∧ p se = true ∧ first (user_is se.(se_user_id)) (rows users t) = Some u.
Proof.
  intros Hh. assert (Hin : (se, u) ∈ omap (λ r, pair r <$> first (user_is r.(se_user_id)) (rows users t)) (keep p (session_rows t))).
  { destruct (omap _ _); [done|]. injection Hh as ->. left. }
  apply list_elem_of_omap in Hin as (r & [Hp Hr]%elem_of_keep & Hx).
  apply fmap_Some in Hx as (u' & Hu & [= -> ->]). done.
Qed.

Lemma exec_refreshSession token t :
  exec (refreshSession token) t
    (λ tk t', ∃ se u, presents token t se u ∧ is_Some u.(us_email_verified_at) ∧ issued_for se tk
       ∧ rotated_to t t' se tk.(au_refreshToken))
    (λ e t', (t' = t ∧ (e = AuthError "Invalid refresh token" "INVALID_TOKEN" 401 ∨ e = session_expired
                       ∨ (∃ l, constraint user_sessions l = Some e) ∨ (∃ d, parseDuration d = Throw e)))
             ∨ (e = emailNotVerifiedError ∧ ∃ se u, presents token t se u ∧ u.(us_email_verified_at) = None
                ∧ session_rows t' = keep (negb ∘ session_is se.(se_id)) (session_rows t))).
Proof.
  unfold refreshSession, verifyRefreshToken. do 2 exec_step. do 2 exec_step.
  exec_step; [|exec_step; left; auto]. destruct p as [sid jti]. cbv zeta. do 4 exec_step. do 4 exec_step.
  rewrite keep_everything. change (rows user_sessions t) with (session_rows t).
  destruct (head _) as [[se u]|] eqn:Eh; [|exec_step; left; auto].
  destruct (head_joined _ _ _ _ Eh) as (Hse & Hp & Hu). to_prop. unfold session_is in *. to_prop. subst sid.
  apply exec_bind. eapply (exec_weaken _ _ (λ b t', t' = t ∧ (bool_decide (se.(se_refresh_token) = hashToken token) || b = true →
    presents token t se u)) _ (λ _ _, False)); [| |done].
  { assert (Hps : se.(se_refresh_token) = hashToken token ∨ (∃ now, clock_reading now ∧
      isRetiredRefreshTokenAccepted (readRetiredRefreshTokens se.(se_previous_refresh_tokens)) (hashToken token) now = true) →
      presents token t se u)
      by (intros Hor; split; [by exists z, jti|done|by exists z0|done|exact Hor]).
    exec_step; [exec_step|do 3 exec_step]; (split; [done|]); intros Hor; apply Hps;
      [left; by to_prop|right; eexists; split; [done|exact Hor]]. }
  cbv beta. intros isRetry t' [-> Hpres]. exec_step; [exec_step; left; auto|].
  assert (HP : presents token t se u).
  { apply Hpres. destruct (bool_decide (se_refresh_token se = hashToken token)); [done|]. by destruct isRetry. }
  clear Hpres. exec_step.
  - apply exec_bind, exec_delete_where. do 2 exec_step. right. split; [done|]. exists se, u. split_and!; [done| |done].
    by destruct (us_email_verified_at u).
  - assert (HE : ∀ e, (∃ l, constraint user_sessions l = Some e) ∨ (∃ d, parseDuration d = Throw e) →
      (t = t ∧ (e = AuthError "Invalid refresh token" "INVALID_TOKEN" 401 ∨ e = session_expired
         ∨ (∃ l, constraint user_sessions l = Some e) ∨ (∃ d, parseDuration d = Throw e)))) by tauto.
    unfold generateAccessToken, generateRefreshToken. exec_steps.
    apply exec_times_s; [intros times Ht|intros e He; left; apply HE; eauto]. exec_steps.
    apply exec_times_s; [intros times' Ht'|intros e He; left; apply HE; eauto]. exec_steps.
    apply exec_expiry; [intros expires Hexp|intros e He; left; apply HE; eauto]. exec_steps.
    apply exec_update; [|intros e He; left; apply HE; eauto]. intros _. exec_steps.
    exists se, u. split_and!; [done|by destruct (us_email_verified_at u)|split; eauto|].
    do 3 eexists. split_and!; [| |exact Hexp|by rewrite retained_with]; done.
Qed.

(** C27: A session refresh does what it promises: it needs a signed token of a stored, unexpired
    session that is the current one or one retired within its grace, and a verified
    account; it then signs an access and a refresh token for that session, stores the
    hash of the new refresh token, retires the old one and moves the expiry to the
    configured lifetime from now ([getRefreshTokenExpiry]).  A refusal changes nothing,
    unless the account is unverified, which ends that session. *)
Theorem refresh_outcome token s :
  match refreshSession token s with
  | (Ok tk, s') => ∃ se u, presents token (tb s) se u ∧ is_Some u.(us_email_verified_at) ∧ issued_for se tk
      ∧ rotated_to (tb s) (tb s') se tk.(au_refreshToken)
  | (Throw e, s') =>
      (tb s' = tb s ∧ (e = AuthError "Invalid refresh token" "INVALID_TOKEN" 401 ∨ e = session_expired
                       ∨ (∃ l, constraint user_sessions l = Some e) ∨ (∃ d, parseDuration d = Throw e)))
      ∨ (e = emailNotVerifiedError ∧ ∃ se u, presents token (tb s) se u ∧ u.(us_email_verified_at) = None
         ∧ session_rows (tb s') = keep (negb ∘ session_is se.(se_id)) (session_rows (tb s)))
  end.
Proof. exact (exec_run _ _ _ _ (exec_refreshSession token (tb s))). Qed.

(** ** A new password *)

(** The live reset token that a reset used. *)
Definition reset_by (token : string) (t : tables) (r : auth_token_row) : Prop :=
  ∃ now, clock_reading now ∧
  first (live_auth_token password_reset (hashToken token) now) (account_tokens t) = Some r.

Definition invalid_reset : err := AuthError "Invalid or expired reset token" "INVALID_TOKEN" 400.

Lemma exec_reset token newPassword t :
  exec (resetPassword token newPassword) t
    (λ _ t', ∃ r salt now, reset_by token t r
       ∧ rows users t' = update_where (user_is r.(at_user_id)) (set_password (bcrypt_hash newPassword salt) now) (rows users t)
       ∧ account_tokens t' = update_where (λ x, bool_decide (x.(at_id) = r.(at_id))) (use_auth_token now) (account_tokens t)
       ∧ session_rows t' = keep (negb ∘ session_of r.(at_user_id)) (session_rows t))
    (λ e t', t' = t ∧ (e = invalid_reset ∨ (∃ l, constraint users l = Some e) ∨ (∃ l, constraint auth_tokens l = Some e))).
Proof.
  unfold resetPassword, hashPassword. do 7 exec_step. do 2 exec_step. exec_step; [|exec_step; auto].
  do 2 exec_step. apply exec_bind, exec_update; [|intros e He; split; [done|eauto]]. intros _.
  apply exec_bind, exec_update; [|intros e He; split; [done|eauto]]. intros _.
  apply exec_bind, exec_delete_where. exec_step. do 3 eexists. split_and!; [exists z; by split|reflexivity..].
Qed.

(** No live token has a hash. *)
Lemma exec_reset_refused token newPassword t :
  (∀ r, r ∈ account_tokens t → r.(at_token_hash) = hashToken token → is_Some r.(at_used_at)) →
  exec (resetPassword token newPassword) t (λ _ _, False) (λ e t', t' = t ∧ e = invalid_reset).
Proof.
  intros Hu. unfold resetPassword, hashPassword. do 7 exec_step. do 2 exec_step.
  destruct (first _ _) as [r|] eqn:Ef; [|by exec_step]. exfalso. apply first_Some in Ef as [Hin Hl].
  unfold live_auth_token in Hl. to_prop. destruct (Hu r Hin) as [x' Hx]; [done|].
  by rewrite Hx in *.
Qed.

(** A password reset works once and signs every device out: it needs a live reset token of the
    account, sets the new password, leaves no session of the account, and the same link is
    refused ever after it, as long as the tokens of the account only get used or deleted.
    A refused reset changes nothing. *)
Theorem reset_outcome token newPassword s :
  constraint auth_tokens (account_tokens (tb s)) = None →
  match resetPassword token newPassword s with
  | (Ok _, s') => ∃ r salt now, reset_by token (tb s) r
      ∧ rows users (tb s') = update_where (user_is r.(at_user_id)) (set_password (bcrypt_hash newPassword salt) now) (rows users (tb s))
      ∧ (∀ se, se ∈ session_rows (tb s') ↔ se ∈ session_rows (tb s) ∧ se.(se_user_id) ≠ r.(at_user_id))
      ∧ ∀ s'' password,
          (∀ x, x ∈ account_tokens (tb s'') → x.(at_token_hash) = hashToken token →
             ∃ y, y ∈ account_tokens (tb s') ∧ y.(at_token_hash) = x.(at_token_hash)
                  ∧ (is_Some y.(at_used_at) → is_Some x.(at_used_at))) →
          (resetPassword token password s'').1 = Throw invalid_reset
  | (Throw e, s') => tb s' = tb s
      ∧ (e = invalid_reset ∨ (∃ l, constraint users l = Some e) ∨ (∃ l, constraint auth_tokens l = Some e))
  end.
Proof.
  intros Hc. assert (Hx := exec_run _ _ _ _ (exec_reset token newPassword (tb s))).
  destruct (resetPassword token newPassword s) as [[[]|e] s']; [|done].
  destruct Hx as (r & salt & now & Hr & Hu & Ht & Hs). exists r, salt, now. split_and!; [done|done|..].
  - intros se. rewrite Hs, elem_of_keep. unfold session_of. cbn. rewrite negb_true_iff, bool_decide_eq_false. tauto.
  - intros s'' password Hlater. destruct Hr as (now' & _ & Hf). apply first_Some in Hf as [Hin Hl].
    unfold live_auth_token in Hl. to_prop.
    assert (Hused : ∀ x, x ∈ account_tokens (tb s'') → x.(at_token_hash) = hashToken token → is_Some x.(at_used_at)).
    { intros x Hx Hh. destruct (Hlater x Hx Hh) as (y & Hy & Hyx & Himp). apply Himp. rewrite Ht in Hy.
      apply elem_of_update_where in Hy as (y0 & Hy0 & ->). case_bool_decide as Hid; [by eexists|].
      destruct Hid. cbn -[checks unique_on] in Hc. rewrite !checks_cons in Hc. destruct Hc as (_ & Hc & _).
      assert (y0 = r) as ->; [|done]. eapply (unique_on_eq (Some ∘ at_token_hash)); [exact Hc|done..|cbn; congruence]. }
    assert (Hx := exec_run _ s'' _ _ (exec_reset_refused token password (tb s'') Hused)).
    destruct (resetPassword token password s'') as [[[]|e] s3]; [done|]. by destruct Hx as [_ ->].
Qed.
End sessions.
