(* ===== verification/NetAddress.v ===== *)
(** Addresses that must not be fetched.

    Models [isPrivateAddress] of services/oauth-client.service.ts with [isIP] of
    node:net, and relates it to the address ranges as numbers: a 32-bit integer for IPv4,
    eight 16-bit groups for IPv6.  [text4] and [text6] are the texts that name resolution
    and the URL parser produce: the IPv6 text is that of RFC 5952. *)

From S2P Require Import Prelude Js.

(** ** Text *)

Definition lower_char (c : Z) : Z := if (65 <=? c)%Z && (c <=? 90)%Z then (c + 32)%Z else c.
(** [toLowerCase] on ASCII text. *)
Definition ascii_lower (s : jsstring) : jsstring := lower_char <$> s.

Definition hex_char (c : Z) : bool :=
  is_digit c || ((97 <=? c)%Z && (c <=? 102)%Z) || ((65 <=? c)%Z && (c <=? 70)%Z).
Definition hex_char_value (c : Z) : Z :=
  if is_digit c then (c - 48)%Z else if (97 <=? c)%Z then (c - 87)%Z else (c - 55)%Z.
(** [Number.parseInt(s, 16)] of hexadecimal digits. *)
Definition parse_hex (s : jsstring) : Z := foldl (λ n c, (16 * n + hex_char_value c)%Z) 0%Z s.

(** [[0-9a-f]{1,4}] *)
Definition hex_segment (s : jsstring) : bool :=
  forallb hex_char s && (1 <=? length s)%nat && (length s <=? 4)%nat.

(** ** isIP of node:net *)

Definition octet_text (s : jsstring) : bool :=
  forallb is_digit s
  && match s with
     | [_] => true
     | 48%Z :: _ => false
     | [_; _] => true
     | [a; b; c] => (100 * (a - 48) + 10 * (b - 48) + (c - 48) <=? 255)%Z
     | _ => false
     end.
Definition is_ipv4 (s : jsstring) : bool :=
  match split_on 46 s with
  | [a; b; c; d] => octet_text a && octet_text b && octet_text c && octet_text d
  | _ => false
  end.

(** The text before and after the first [::]. *)
Fixpoint split_gap (s : jsstring) : jsstring * option jsstring :=
  match s with
  | [] => ([], None)
  | x :: rest =>
      if (x =? 58)%Z && bool_decide (head rest = Some 58%Z) then ([], Some (tail rest))
      else let '(a, b) := split_gap rest in (x :: a, b)
  end.
(** The groups of a part, where the last may be an IPv4 address and counts for two. *)
Fixpoint count_groups (dotted : bool) (parts : list jsstring) : option nat :=
  match parts with
  | [] => Some 0%nat
  | [p] => if hex_segment p then Some 1%nat else if dotted && is_ipv4 p then Some 2%nat else None
  | p :: ps => if hex_segment p then S <$> count_groups dotted ps else None
  end.
Definition groups_of (s : jsstring) : list jsstring := match s with [] => [] | _ => split_on 58 s end.

Definition zone_char (c : Z) : bool :=
  is_digit c || ((97 <=? c)%Z && (c <=? 122)%Z) || ((65 <=? c)%Z && (c <=? 90)%Z)
  || bool_decide (c ∈ js "-.:").
Definition is_ipv6 (s : jsstring) : bool :=
  let '(address, zone) := span (λ c, negb (c =? 37)%Z) s in
  match zone with [] => true | _ :: z => (0 <? length z)%nat && forallb zone_char z end
  && match split_gap address with
     | (whole, None) => bool_decide (count_groups true (groups_of whole) = Some 8%nat)
     | (before, Some after) =>
         match count_groups false (groups_of before), count_groups true (groups_of after) with
         | Some a, Some b => (a + b <=? 7)%nat
         | _, _ => false
         end
     end.
Definition isIP (s : jsstring) : nat := if is_ipv4 s then 4 else if is_ipv6 s then 6 else 0.

(** ** isPrivateAddress *)

Definition private_octets (parts : list (option Z)) : bool :=
  match parts with
  | Some a :: Some b :: _ =>
      (a =? 10)%Z || (a =? 127)%Z || (a =? 0)%Z
      || (a =? 172)%Z && (16 <=? b)%Z && (b <=? 31)%Z
      || (a =? 192)%Z && (b =? 168)%Z
      || (a =? 169)%Z && (b =? 254)%Z
      || (a =? 100)%Z && (64 <=? b)%Z && (b <=? 127)%Z
  | _ => false
  end.

(** [\d+\.\d+\.\d+\.\d+] *)
Definition dotted_quad (s : jsstring) : bool :=
  match split_on 46 s with
  | [a; b; c; d] => forallb (λ p, forallb is_digit p && (0 <? length p)%nat) [a; b; c; d]
  | _ => false
  end.

Definition mapped_prefix : jsstring := js "::ffff:".
(** What follows [::ffff:], if the text starts with it. *)
Definition after_mapped (s : jsstring) : option jsstring :=
  if starts_with mapped_prefix s then Some (slice_from (length mapped_prefix) s) else None.

(** An IPv4-mapped address is judged on the embedded one: [depth] allows for that one call. *)
Fixpoint private_address (depth : nat) (address : jsstring) : bool :=
  let version := isIP address in
  if (version =? 4)%nat then private_octets (number <$> split_on 46 address)
  else if (version =? 6)%nat then
    let lower := ascii_lower address in
    if bool_decide (lower = js "::1") || bool_decide (lower = js "::") then true
    else if match lower with 102%Z :: c :: _ => bool_decide (c ∈ js "cd") | _ => false end then true
    else if match lower with 102%Z :: 101%Z :: c :: _ => bool_decide (c ∈ js "89ab") | _ => false end then true
    else
      match after_mapped lower, depth with
      | Some rest, S depth =>
          if dotted_quad rest then private_address depth rest
          else
            match split_on 58 rest with
            | [h; l] =>
                if hex_segment h && hex_segment l then
                  let high := parse_hex h in let low := parse_hex l in
                  private_address depth
                    (join (js ".") [js_of_Z (Z.shiftr high 8); js_of_Z (Z.land high 255);
                                    js_of_Z (Z.shiftr low 8); js_of_Z (Z.land low 255)])
                else false
            | _ => false
            end
      | _, _ => false
      end
  else false.
Definition isPrivateAddress (address : jsstring) : bool := private_address 1 address.

(** ** Addresses as numbers *)

Definition text4 (a : Z) : jsstring :=
  join (js ".") [js_of_Z (a / 2 ^ 24); js_of_Z (a / 2 ^ 16 mod 256); js_of_Z (a / 2 ^ 8 mod 256); js_of_Z (a mod 256)].

(** A range by its network address and prefix length. *)
Definition in_cidr (a : Z) (r : Z * Z) : bool := (a / 2 ^ (32 - r.2) =? r.1 / 2 ^ (32 - r.2))%Z.
Definition quad (a b c d : Z) : Z := (((a * 256 + b) * 256 + c) * 256 + d)%Z.
(** This network, loopback, the private ranges, link-local and carrier-grade NAT. *)
Definition private_ranges4 : list (Z * Z) :=
  [(quad 0 0 0 0, 8); (quad 10 0 0 0, 8); (quad 127 0 0 0, 8); (quad 172 16 0 0, 12);
   (quad 192 168 0 0, 16); (quad 169 254 0 0, 16); (quad 100 64 0 0, 10)]%Z.
Definition private4 (a : Z) : bool := existsb (in_cidr a) private_ranges4.

Definition hex_digit_char (n : Z) : Z := if (n <? 10)%Z then (n + 48)%Z else (n + 87)%Z.
(** A group without leading zeros. *)
Definition hex_text (g : Z) : jsstring :=
  if (g <? 16)%Z then [hex_digit_char g]
  else if (g <? 256)%Z then [hex_digit_char (g / 16); hex_digit_char (g mod 16)]
  else if (g <? 4096)%Z then
    [hex_digit_char (g / 256); hex_digit_char (g / 16 mod 16); hex_digit_char (g mod 16)]
  else [hex_digit_char (g / 4096); hex_digit_char (g / 256 mod 16); hex_digit_char (g / 16 mod 16); hex_digit_char (g mod 16)].

(** The first longest run of zero groups: where it starts and its length. *)
Fixpoint zeros (gs : list Z) : nat := match gs with 0%Z :: gs => S (zeros gs) | _ => 0%nat end.
Fixpoint best_run (gs : list Z) : nat * nat :=
  match gs with
  | [] => (0, 0)%nat
  | _ :: rest =>
      let '(i, n) := best_run rest in
      if (n <=? zeros gs)%nat then (0, zeros gs)%nat else (S i, n)
  end.
Definition groups_text (gs : list Z) : jsstring := join (js ":") (hex_text <$> gs).
Definition text6 (gs : list Z) : jsstring :=
  let '(i, n) := best_run gs in
  if (n <=? 1)%nat then groups_text gs
  else groups_text (take i gs) ++ js "::" ++ groups_text (drop (i + n) gs).
(** The text that keeps the last 32 bits dotted, as [inet_ntop] prints a mapped address. *)
Definition text6_mapped (a : Z) : jsstring := mapped_prefix ++ text4 a.

Definition group (g : Z) : Prop := (0 <= g < 65536)%Z.
Definition address6 (gs : list Z) : Prop := length gs = 8%nat ∧ Forall group gs.

(** Loopback, unspecified, unique-local, link-local, and mapped private addresses. *)
Definition private6 (gs : list Z) : bool :=
  bool_decide (gs = [0; 0; 0; 0; 0; 0; 0; 0]%Z) || bool_decide (gs = [0; 0; 0; 0; 0; 0; 0; 1]%Z)
  || match gs with g :: _ => (g / 512 =? 0xfc00 / 512)%Z || (g / 64 =? 0xfe80 / 64)%Z | [] => false end
  || match gs with
     | [0; 0; 0; 0; 0; m; h; l]%Z => (m =? 0xffff)%Z && private4 (h * 65536 + l)
     | _ => false
     end.
(** Global unicast: 2000::/3. *)
Definition global6 (gs : list Z) : bool :=
  match gs with g :: _ => (g / 8192 =? 0x2000 / 8192)%Z | [] => false end.

(** ** Texts of numbers *)

(** A check of the numbers below a bound, by evaluation. *)
Fixpoint check_from (fuel : nat) (z : Z) (p : Z → bool) : bool :=
  match fuel with O => true | S fuel => p z && check_from fuel (Z.succ z) p end.
Lemma forall_below (n : Z) (p : Z → bool) :
  check_from (Z.to_nat n) 0 p = true → ∀ z, (0 <= z < n)%Z → p z = true.
Proof.
  assert (Hc : ∀ fuel k, check_from fuel k p = true → ∀ z, (k <= z < k + Z.of_nat fuel)%Z → p z = true).
  { induction fuel as [|fuel IH]; intros k Hk z Hz; [lia|]. cbn in Hk. apply andb_true_iff in Hk as [Hk Hr].
    destruct (decide (z = k)) as [->|Hne]; [done|]. apply (IH (Z.succ k)); [done|lia]. }
  intros Hn z Hz. apply (Hc _ _ Hn). lia.
Qed.

Definition octet_fact (o : Z) : bool :=
  let t := js_of_Z o in
  octet_text t && bool_decide (number t = Some o) && forallb is_digit t && (0 <? length t)%nat.
Lemma octet_facts o : (0 <= o < 256)%Z →
  octet_text (js_of_Z o) = true ∧ number (js_of_Z o) = Some o ∧ forallb is_digit (js_of_Z o) = true
  ∧ (0 <? length (js_of_Z o))%nat = true.
Proof.
  intros Ho. assert (Hf : octet_fact o = true) by (apply (forall_below 256); [by vm_compute|done]).
  unfold octet_fact in Hf. rewrite !andb_true_iff, bool_decide_eq_true in Hf. tauto.
Qed.

Definition digit_fact (d : Z) : bool :=
  let c := hex_digit_char d in
  hex_char c && (hex_char_value c =? d)%Z && (lower_char c =? c)%Z && negb (c =? 58)%Z && negb (c =? 37)%Z.
Lemma digit_facts d : (0 <= d < 16)%Z →
  hex_char (hex_digit_char d) = true ∧ hex_char_value (hex_digit_char d) = d
  ∧ lower_char (hex_digit_char d) = hex_digit_char d ∧ hex_digit_char d ≠ 58%Z ∧ hex_digit_char d ≠ 37%Z.
Proof.
  intros Hd. assert (Hf : digit_fact d = true) by (apply (forall_below 16); [by vm_compute|done]).
  unfold digit_fact in Hf. rewrite !andb_true_iff, !negb_true_iff, !Z.eqb_eq, !Z.eqb_neq in Hf. tauto.
Qed.

(** The digits of a group. *)
Lemma hex_digits g : group g →
  ∃ ds, hex_text g = hex_digit_char <$> ds ∧ Forall (λ d, (0 <= d < 16)%Z) ds ∧ (1 <= length ds <= 4)%nat
    ∧ foldl (λ n d, (16 * n + d)%Z) 0%Z ds = g.
Proof.
  unfold group, hex_text. intros Hg.
  assert (Hm : ∀ x, (0 <= x mod 16 < 16)%Z) by (intros x; by apply Z.mod_pos_bound).
  destruct (Z.ltb_spec g 16); [exists [g]; split_and!; [done|repeat constructor; lia|cbn; lia..]|].
  destruct (Z.ltb_spec g 256).
  { exists [g / 16; g mod 16]%Z. split_and!; [done| |cbn; lia..|]; [repeat constructor; auto; Z.div_mod_to_equations; lia|].
    cbn. Z.div_mod_to_equations; lia. }
  destruct (Z.ltb_spec g 4096).
  { exists [g / 256; g / 16 mod 16; g mod 16]%Z. split_and!; [done| |cbn; lia..|]; [repeat constructor; auto; Z.div_mod_to_equations; lia|].
    cbn. Z.div_mod_to_equations; lia. }
  exists [g / 4096; g / 256 mod 16; g / 16 mod 16; g mod 16]%Z.
  split_and!; [done| |cbn; lia..|]; [repeat constructor; auto; Z.div_mod_to_equations; lia|].
  cbn. Z.div_mod_to_equations; lia.
Qed.

Lemma hex_facts g : group g →
  hex_segment (hex_text g) = true ∧ ascii_lower (hex_text g) = hex_text g ∧ parse_hex (hex_text g) = g
  ∧ (58%Z ∉ hex_text g) ∧ (37%Z ∉ hex_text g).
Proof.
  intros Hg. destruct (hex_digits g Hg) as (ds & -> & Hds & Hl & Hv).
  rewrite Forall_forall in Hds. assert (Hd : ∀ d, d ∈ ds → _) by exact (λ d Hd, digit_facts d (Hds d Hd)).
  split_and!.
  - unfold hex_segment. rewrite length_fmap, !andb_true_iff, !Nat.leb_le. split_and!; [|lia..].
    rewrite forallb_forall. intros c Hc. apply list_elem_of_In, list_elem_of_fmap in Hc as (d & -> & Hin). by apply Hd.
  - unfold ascii_lower. rewrite <- list_fmap_compose. apply list_fmap_ext. intros i d Hi. cbn.
    apply Hd. by eapply list_elem_of_lookup_2.
  - rewrite <- Hv. unfold parse_hex. generalize 0%Z. clear Hv Hl Hds. induction ds as [|d ds IH]; [done|]. intros n. cbn.
    rewrite (proj1 (proj2 (Hd d ltac:(left)))). apply IH. intros x Hx. apply Hd. by right.
  - intros (d & He & Hin)%list_elem_of_fmap. by destruct (Hd d Hin) as (_ & _ & _ & ? & _).
  - intros (d & He & Hin)%list_elem_of_fmap. by destruct (Hd d Hin) as (_ & _ & _ & _ & ?).
Qed.

(** The first digits of the groups at the edge of the ranges. *)
Lemma hex_unique_local g rest : group g → (g / 512 =? 0xfc00 / 512)%Z = true →
  match hex_text g ++ rest with 102%Z :: c :: _ => bool_decide (c ∈ js "cd") | _ => false end = true.
Proof.
  intros Hg He%Z.eqb_eq. change (0xfc00 / 512)%Z with 126%Z in He. unfold group in Hg.
  unfold hex_text. do 3 (rewrite (proj2 (Z.ltb_ge _ _)) by (Z.div_mod_to_equations; lia)).
  replace (g / 4096)%Z with 15%Z by (Z.div_mod_to_equations; lia).
  assert (Hx : (g / 256 mod 16 = 12 ∨ g / 256 mod 16 = 13)%Z) by (Z.div_mod_to_equations; lia).
  by destruct Hx as [-> | ->].
Qed.
Lemma hex_link_local g rest : group g → (g / 64 =? 0xfe80 / 64)%Z = true →
  match hex_text g ++ rest with 102%Z :: 101%Z :: c :: _ => bool_decide (c ∈ js "89ab") | _ => false end = true.
Proof.
  intros Hg He%Z.eqb_eq. change (0xfe80 / 64)%Z with 1018%Z in He. unfold group in Hg.
  unfold hex_text. do 3 (rewrite (proj2 (Z.ltb_ge _ _)) by (Z.div_mod_to_equations; lia)).
  replace (g / 4096)%Z with 15%Z by (Z.div_mod_to_equations; lia).
  replace (g / 256 mod 16)%Z with 14%Z by (Z.div_mod_to_equations; lia).
  assert (Hx : (g / 16 mod 16 = 8 ∨ g / 16 mod 16 = 9 ∨ g / 16 mod 16 = 10 ∨ g / 16 mod 16 = 11)%Z) by (Z.div_mod_to_equations; lia).
  by destruct Hx as [-> |[-> |[-> | ->]]].
Qed.
Lemma hex_global g rest : group g → (g / 8192 =? 0x2000 / 8192)%Z = true →
  ∃ c t, hex_text g ++ rest = c :: t ∧ (c = 50 ∨ c = 51)%Z.
Proof.
  intros Hg He%Z.eqb_eq. change (0x2000 / 8192)%Z with 1%Z in He. unfold group in Hg.
  unfold hex_text. do 3 (rewrite (proj2 (Z.ltb_ge _ _)) by (Z.div_mod_to_equations; lia)).
  assert (Hx : (g / 4096 = 2 ∨ g / 4096 = 3)%Z) by (Z.div_mod_to_equations; lia).
  destruct Hx as [-> | ->]; do 2 eexists; (split; [reflexivity|auto]).
Qed.
Lemma hex_text_not_nil g : group g → hex_text g ≠ [].
Proof. intros Hg. destruct (hex_facts g Hg) as [Hs _]. by destruct (hex_text g). Qed.

(** Splitting what was joined. *)
Lemma split_join c parts :
  parts ≠ [] → Forall (λ p, c ∉ p) parts → split_on c (join [c] parts) = parts.
Proof.
  induction parts as [|p parts IH]; [done|]. intros _ [Hp Hps]%Forall_cons.
  destruct parts as [|q parts]; [by apply split_on_no_sep|].
  change (join [c] (p :: q :: parts)) with (p ++ c :: join [c] (q :: parts)).
  rewrite split_on_app by done. by rewrite IH.
Qed.

Lemma octet_no_dot o : (0 <= o < 256)%Z → 46%Z ∉ js_of_Z o.
Proof.
  intros Ho Hin. destruct (octet_facts o Ho) as (_ & _ & Hd & _). rewrite forallb_forall in Hd.
  apply list_elem_of_In, Hd in Hin. done.
Qed.

(** ** IPv4 *)

Section octets.
Context (a b c d : Z) (Ha : (0 <= a < 256)%Z) (Hb : (0 <= b < 256)%Z) (Hc : (0 <= c < 256)%Z) (Hd : (0 <= d < 256)%Z).
Definition octets_text : jsstring := join (js ".") [js_of_Z a; js_of_Z b; js_of_Z c; js_of_Z d].

Lemma split_octets : split_on 46 octets_text = [js_of_Z a; js_of_Z b; js_of_Z c; js_of_Z d].
Proof using Ha Hb Hc Hd. apply (split_join 46); [done|]. repeat constructor; by apply octet_no_dot. Qed.
Lemma isIP_octets : isIP octets_text = 4%nat.
Proof using Ha Hb Hc Hd.
  unfold isIP, is_ipv4. rewrite split_octets.
  by rewrite (proj1 (octet_facts a Ha)), (proj1 (octet_facts b Hb)), (proj1 (octet_facts c Hc)), (proj1 (octet_facts d Hd)).
Qed.
Lemma dotted_octets : dotted_quad octets_text = true.
Proof using Ha Hb Hc Hd.
  unfold dotted_quad. rewrite split_octets. cbn [forallb].
  destruct (octet_facts a Ha) as (_&_&->&->), (octet_facts b Hb) as (_&_&->&->),
    (octet_facts c Hc) as (_&_&->&->), (octet_facts d Hd) as (_&_&->&->). done.
Qed.
Lemma private_octets_text depth :
  private_address depth octets_text = private_octets [Some a; Some b; Some c; Some d].
Proof using Ha Hb Hc Hd.
  assert (Hn : number <$> split_on 46 octets_text = [Some a; Some b; Some c; Some d]).
  { rewrite split_octets. cbn. by rewrite (proj1 (proj2 (octet_facts a Ha))), (proj1 (proj2 (octet_facts b Hb))),
      (proj1 (proj2 (octet_facts c Hc))), (proj1 (proj2 (octet_facts d Hd))). }
  destruct depth; cbn [private_address]; rewrite isIP_octets, Hn; done.
Qed.
End octets.

(** The octets that are private are the ranges. *)
Lemma private_octets_ranges a :
  (0 <= a < 2 ^ 32)%Z →
  private_octets [Some (a / 2 ^ 24); Some (a / 2 ^ 16 mod 256); Some (a / 2 ^ 8 mod 256); Some (a mod 256)]%Z = private4 a.
Proof.
  intros Ha. unfold private_octets, private4, private_ranges4, in_cidr. cbn [existsb fst snd].
  apply eq_true_iff_eq. rewrite !orb_true_iff, !andb_true_iff, !Z.eqb_eq, !Z.leb_le.
  change (2 ^ 24)%Z with 16777216%Z. change (2 ^ 16)%Z with 65536%Z.
  change (2 ^ (32 - 8))%Z with 16777216%Z. change (2 ^ (32 - 12))%Z with 1048576%Z.
  change (2 ^ (32 - 16))%Z with 65536%Z. change (2 ^ (32 - 10))%Z with 4194304%Z.
  assert (H16 : (a / 65536 = a / 16777216 * 256 + a / 65536 mod 256)%Z) by (Z.div_mod_to_equations; lia).
  assert (H20 : (a / 1048576 = a / 16777216 * 16 + a / 65536 mod 256 / 16)%Z) by (Z.div_mod_to_equations; lia).
  assert (H22 : (a / 4194304 = a / 16777216 * 4 + a / 65536 mod 256 / 64)%Z) by (Z.div_mod_to_equations; lia).
  assert (Hb : (0 <= a / 65536 mod 256 < 256)%Z) by (apply Z.mod_pos_bound; lia).
  revert H16 H20 H22 Hb. generalize (a / 65536 mod 256)%Z (a / 16777216)%Z.
  intros y x H16 H20 H22 Hy. rewrite H20, H22, H16. clear H16 H20 H22.
  assert (H64 : (y / 16 / 4 = y / 64)%Z) by (by rewrite Z.div_div).
  rewrite <- H64. assert (Hq : (0 <= y / 16 < 16)%Z) by (Z.div_mod_to_equations; lia).
  assert (H16' : (y / 16 = 1 ↔ 16 <= y <= 31)%Z) by (Z.div_mod_to_equations; lia).
  assert (H4 : (y / 16 / 4 = 1 ↔ 64 <= y <= 127)%Z) by (rewrite H64; Z.div_mod_to_equations; lia).
  assert (Hq' : (0 <= y / 16 / 4 < 4)%Z) by (rewrite H64; Z.div_mod_to_equations; lia).
  change (quad 0 0 0 0 / 16777216)%Z with 0%Z. change (quad 10 0 0 0 / 16777216)%Z with 10%Z.
  change (quad 127 0 0 0 / 16777216)%Z with 127%Z. change (quad 172 16 0 0 / 1048576)%Z with 2753%Z.
  change (quad 192 168 0 0 / 65536)%Z with 49320%Z. change (quad 169 254 0 0 / 65536)%Z with 43518%Z.
  change (quad 100 64 0 0 / 4194304)%Z with 401%Z.
  assert (E1 : (x * 16 + y / 16 = 2753 ↔ x = 172 ∧ y / 16 = 1)%Z) by (clear -Hq Hy Hq'; lia).
  assert (E2 : (x * 256 + y = 49320 ↔ x = 192 ∧ y = 168)%Z) by (clear -Hq Hy Hq'; lia).
  assert (E3 : (x * 256 + y = 43518 ↔ x = 169 ∧ y = 254)%Z) by (clear -Hq Hy Hq'; lia).
  assert (E4 : (x * 4 + y / 16 / 4 = 401 ↔ x = 100 ∧ y / 16 / 4 = 1)%Z) by (clear -Hq Hy Hq'; lia).
  assert (E5 : false = true ↔ False) by done.
  rewrite E1, E2, E3, E4, E5, H16', H4. tauto.
Qed.

Lemma text4_octets a :
  text4 a = octets_text (a / 2 ^ 24) (a / 2 ^ 16 mod 256) (a / 2 ^ 8 mod 256) (a mod 256).
Proof. done. Qed.
Lemma byte_mod x : (0 <= x mod 256 < 256)%Z.
Proof. by apply Z.mod_pos_bound. Qed.
Lemma top_octet a : (0 <= a < 2 ^ 32)%Z → (0 <= a / 2 ^ 24 < 256)%Z.
Proof. intros Ha. Z.div_mod_to_equations; lia. Qed.

Lemma private_text4 depth a :
  (0 <= a < 2 ^ 32)%Z → private_address depth (text4 a) = private4 a.
Proof.
  intros Ha. rewrite text4_octets, private_octets_text; [by apply private_octets_ranges|by apply top_octet|apply byte_mod..].
Qed.

(** ** The text of IPv6 *)

(** Its characters. *)
Definition text6_char (c : Z) : Prop := c = 58%Z ∨ ∃ d, (0 <= d < 16)%Z ∧ c = hex_digit_char d.
Lemma hex_text_chars g c : group g → c ∈ hex_text g → text6_char c.
Proof.
  intros Hg Hc. destruct (hex_digits g Hg) as (ds & He & Hds & _). rewrite He in Hc. apply list_elem_of_fmap in Hc as (d & -> & Hd).
  right. exists d. rewrite Forall_forall in Hds. by split; [apply Hds|].
Qed.
Lemma join_elem sep parts (c : Z) : c ∈ join sep parts → c ∈ sep ∨ ∃ p, p ∈ parts ∧ c ∈ p.
Proof.
  induction parts as [|p parts IH]; [by intros ?%not_elem_of_nil|]. destruct parts as [|q parts].
  - intros Hc. right. exists p. split; [left|done].
  - change (join sep (p :: q :: parts)) with (p ++ sep ++ join sep (q :: parts)).
    rewrite !elem_of_app. intros [Hc|[Hc|Hc]]; [right; exists p; split; [left|done]|by left|].
    destruct (IH Hc) as [?|(r & Hr & ?)]; [by left|right; exists r; split; [by right|done]].
Qed.
Lemma groups_text_chars gs c : Forall group gs → c ∈ groups_text gs → text6_char c.
Proof.
  rewrite Forall_forall. intros Hgs [Hc|(p & Hp & Hc)]%join_elem.
  - left. by apply list_elem_of_singleton in Hc.
  - apply list_elem_of_fmap in Hp as (g & -> & Hg). eapply hex_text_chars; eauto.
Qed.
Lemma text6_chars gs c : Forall group gs → c ∈ text6 gs → text6_char c.
Proof.
  intros Hgs. unfold text6. destruct (best_run gs) as [i n]. destruct (n <=? 1)%nat; [by apply groups_text_chars|].
  rewrite !elem_of_app. intros [Hc|[Hc|Hc]].
  - eapply groups_text_chars; [by apply Forall_take|done].
  - left. change (js "::") with [58; 58]%Z in Hc. by apply elem_of_cons in Hc as [->|Hc%list_elem_of_singleton].
  - eapply groups_text_chars; [by apply Forall_drop|done].
Qed.
Lemma text6_char_facts c : text6_char c → c ≠ 46%Z ∧ c ≠ 37%Z ∧ lower_char c = c.
Proof.
  intros [->|(d & Hd & ->)]; [done|]. destruct (digit_facts d Hd) as (Hh & _ & Hl & _ & H37). split_and!; [|done..].
  intros He. by rewrite He in Hh.
Qed.

Lemma span_all {P : Z → bool} s : (∀ c, c ∈ s → P c = true) → span P s = (s, []).
Proof.
  induction s as [|c s IH]; intros Hs; [done|]. cbn. rewrite (Hs c) by left. rewrite IH; [done|].
  intros x Hx. apply Hs. by right.
Qed.
Lemma lower_same s : (∀ c, c ∈ s → lower_char c = c) → ascii_lower s = s.
Proof.
  intros Hs. unfold ascii_lower. rewrite <- (list_fmap_id s) at 2. apply list_fmap_ext. intros i c Hc. cbn.
  apply Hs. by eapply list_elem_of_lookup_2.
Qed.

Lemma split_gap_app s t : 58%Z ∉ s → split_gap (s ++ t) = let '(a, b) := split_gap t in (s ++ a, b).
Proof.
  induction s as [|c s IH]; intros Hs; [cbn; by destruct (split_gap t)|]. apply not_elem_of_cons in Hs as [Hc Hs].
  change (split_gap ((c :: s) ++ t)) with
    (if (c =? 58)%Z && bool_decide (head (s ++ t) = Some 58%Z) then ([], Some (tail (s ++ t)))
     else let '(a, b) := split_gap (s ++ t) in (c :: a, b)).
  rewrite (proj2 (Z.eqb_neq c 58)) by congruence. cbn [andb]. rewrite IH by done. by destruct (split_gap t).
Qed.
Lemma split_gap_colon c t : c ≠ 58%Z → split_gap (58%Z :: c :: t) = let '(a, b) := split_gap (c :: t) in (58%Z :: a, b).
Proof.
  intros Hc. change (split_gap (58%Z :: c :: t)) with
    (if (58 =? 58)%Z && bool_decide (Some c = Some 58%Z) then ([], Some t)
     else let '(a, b) := split_gap (c :: t) in (58%Z :: a, b)).
  by rewrite bool_decide_eq_false_2 by congruence.
Qed.

Lemma groups_text_cons g g' gs : groups_text (g :: g' :: gs) = hex_text g ++ 58%Z :: groups_text (g' :: gs).
Proof. done. Qed.
Lemma groups_text_head g gs t : group g → ∃ c s, groups_text (g :: gs) ++ t = c :: s ∧ c ≠ 58%Z.
Proof.
  intros Hg. destruct (hex_facts g Hg) as (_ & _ & _ & Hc & _).
  assert (Hh : ∃ s, groups_text (g :: gs) ++ t = hex_text g ++ s).
  { destruct gs as [|g' gs]; [by eexists|]. rewrite groups_text_cons, <- app_assoc. by eexists. }
  destruct Hh as [s ->]. destruct (hex_text g) as [|c h] eqn:E; [by apply hex_text_not_nil in Hg|].
  exists c, (h ++ s). split; [done|]. intros ->. apply Hc. by left.
Qed.
Lemma split_gap_groups gs t :
  Forall group gs → split_gap (groups_text gs ++ t) = let '(a, b) := split_gap t in (groups_text gs ++ a, b).
Proof.
  induction gs as [|g gs IH]; intros Hgs; [cbn; by destruct (split_gap t)|]. apply Forall_cons in Hgs as [Hg Hgs].
  destruct (hex_facts g Hg) as (_ & _ & _ & Hc & _). destruct gs as [|g' gs]; [by apply split_gap_app|].
  rewrite groups_text_cons, <- app_assoc. cbn [app]. rewrite split_gap_app by done.
  apply Forall_cons in Hgs as Hg'. destruct Hg' as [Hg' _].
  destruct (groups_text_head g' gs t Hg') as (c & s & Hs & Hc'). rewrite Hs, split_gap_colon, <- Hs, IH by done.
  destruct (split_gap t). by rewrite <- app_assoc.
Qed.

Lemma groups_of_text gs : Forall group gs → groups_of (groups_text gs) = hex_text <$> gs.
Proof.
  intros Hgs. destruct gs as [|g gs]; [done|]. unfold groups_of.
  destruct (groups_text_head g gs [] (proj1 (proj1 (Forall_cons _ _ _) Hgs))) as (c & s & Hs & _).
  rewrite app_nil_r in Hs. rewrite Hs, <- Hs. apply (split_join 58); [done|].
  rewrite Forall_fmap. eapply Forall_impl; [exact Hgs|]. intros x Hx. by apply (hex_facts x Hx).
Qed.
Lemma count_groups_text dotted gs : Forall group gs → count_groups dotted (hex_text <$> gs) = Some (length gs).
Proof.
  induction gs as [|g gs IH]; [done|]. intros [Hg Hgs]%Forall_cons. destruct (hex_facts g Hg) as (Hs & _).
  destruct gs as [|g' gs]; [cbn; by rewrite Hs|].
  change (count_groups dotted (hex_text <$> g :: g' :: gs)) with
    (if hex_segment (hex_text g) then S <$> count_groups dotted (hex_text <$> g' :: gs) else None).
  by rewrite Hs, IH.
Qed.
Lemma best_run_bound gs : (let '(i, n) := best_run gs in i + n <= length gs)%nat.
Proof.
  assert (Hz : ∀ l, (zeros l <= length l)%nat).
  { induction l as [|x l IH]; [done|]. cbn. destruct x; lia. }
  induction gs as [|g gs IH]; [cbn; lia|]. cbn [best_run]. destruct (best_run gs) as [i n].
  specialize (Hz (g :: gs)). destruct (n <=? zeros (g :: gs))%nat; cbn [length] in *; lia.
Qed.

Lemma isIP_text6 gs : address6 gs → isIP (text6 gs) = 6%nat.
Proof.
  intros [Hlen Hgs]. assert (Hch : ∀ c, c ∈ text6 gs → c ≠ 46%Z ∧ c ≠ 37%Z ∧ lower_char c = c).
  { intros c Hc. by eapply text6_char_facts, text6_chars. }
  unfold isIP, is_ipv4. rewrite split_on_no_sep by (intros Hc; by apply Hch in Hc as [? _]).
  unfold is_ipv6. rewrite span_all by (intros c Hc; apply negb_true_iff, Z.eqb_neq, (Hch c Hc)).
  assert (Hb := best_run_bound gs). unfold text6. destruct (best_run gs) as [i n].
  destruct (Nat.leb_spec n 1).
  - rewrite <- (app_nil_r (groups_text gs)), split_gap_groups by done. cbn [split_gap].
    rewrite app_nil_r, groups_of_text, count_groups_text by done. by rewrite Hlen.
  - assert (Ht := Forall_take _ i _ Hgs). assert (Hd := Forall_drop _ (i + n) _ Hgs).
    rewrite split_gap_groups by done. change (js "::" ++ groups_text (drop (i + n) gs)) with (58 :: 58 :: groups_text (drop (i + n) gs))%Z.
    change (split_gap (58 :: 58 :: groups_text (drop (i + n) gs))%Z) with (@nil Z, Some (groups_text (drop (i + n) gs))).
    cbv beta iota. rewrite app_nil_r, !groups_of_text, !count_groups_text by done.
    rewrite length_take, length_drop, Hlen. cbn [andb]. destruct (Nat.leb_spec (i `min` 8 + (8 - (i + n))) 7); [done|lia].
Qed.

(** ** The ranges of IPv6 *)

Lemma lower_text6 gs : Forall group gs → ascii_lower (text6 gs) = text6 gs.
Proof. intros Hgs. apply lower_same. intros c Hc. by eapply text6_char_facts, text6_chars. Qed.

(** A first group that is not zero comes first. *)
Lemma text6_first g gs : g ≠ 0%Z → ∃ rest, text6 (g :: gs) = hex_text g ++ rest.
Proof.
  intros Hg. assert (Hgr : ∀ l t, ∃ rest, groups_text (g :: l) ++ t = hex_text g ++ rest).
  { intros l t. destruct l as [|g' l]; [by eexists|]. rewrite groups_text_cons, <- app_assoc. by eexists. }
  unfold text6. cbn [best_run]. assert (Hz : zeros (g :: gs) = 0%nat) by (cbn; by destruct g). rewrite Hz.
  destruct (best_run gs) as [i n]. destruct (Nat.leb_spec n 0).
  - cbn [Nat.leb]. destruct (Hgr gs []) as [rest Hr]. rewrite app_nil_r in Hr. by exists rest.
  - destruct (n <=? 1)%nat; [|apply Hgr].
    destruct (Hgr gs []) as [rest Hr]. rewrite app_nil_r in Hr. by exists rest.
Qed.

(** The tests of the text of an IPv6 address, in order. *)
Lemma private_address6 depth s :
  isIP s = 6%nat → ascii_lower s = s →
  private_address depth s =
    (bool_decide (s = js "::1") || bool_decide (s = js "::")
     || match s with 102%Z :: c :: _ => bool_decide (c ∈ js "cd") | _ => false end
     || match s with 102%Z :: 101%Z :: c :: _ => bool_decide (c ∈ js "89ab") | _ => false end
     || match after_mapped s, depth with
        | Some rest, S depth =>
            if dotted_quad rest then private_address depth rest
            else match split_on 58 rest with
                 | [h; l] =>
                     hex_segment h && hex_segment l
                     && private_address depth (octets_text (Z.shiftr (parse_hex h) 8) (Z.land (parse_hex h) 255)
                                                 (Z.shiftr (parse_hex l) 8) (Z.land (parse_hex l) 255))
                 | _ => false
                 end
        | _, _ => false
        end).
Proof.
  intros Hi Hl. destruct depth; cbn [private_address]; rewrite Hi, Hl; cbn [Nat.eqb]; repeat case_match; try done;
    cbn [orb andb]; try done.
Qed.

Lemma after_mapped_app rest : after_mapped (mapped_prefix ++ rest) = Some rest.
Proof. done. Qed.

(** Mapped addresses, as the URL parser and as [inet_ntop] print them. *)
Lemma text6_mapped_hex h l :
  text6 [0; 0; 0; 0; 0; 0xffff; h; l]%Z = mapped_prefix ++ hex_text h ++ 58%Z :: hex_text l.
Proof. by destruct h, l. Qed.

Lemma mapped_rest rest depth :
  isIP (mapped_prefix ++ rest) = 6%nat → ascii_lower (mapped_prefix ++ rest) = mapped_prefix ++ rest →
  private_address (S depth) (mapped_prefix ++ rest) =
    if dotted_quad rest then private_address depth rest
    else match split_on 58 rest with
         | [h; l] =>
             hex_segment h && hex_segment l
             && private_address depth (octets_text (Z.shiftr (parse_hex h) 8) (Z.land (parse_hex h) 255)
                                         (Z.shiftr (parse_hex l) 8) (Z.land (parse_hex l) 255))
         | _ => false
         end.
Proof.
  intros Hi Hl. rewrite private_address6 by done. rewrite after_mapped_app.
  by rewrite !bool_decide_eq_false_2 by done.
Qed.

Lemma private_mapped_hex h l : group h → group l →
  isPrivateAddress (text6 [0; 0; 0; 0; 0; 0xffff; h; l]%Z) = private4 (h * 65536 + l).
Proof.
  intros Hh Hl. assert (Hgs : address6 [0; 0; 0; 0; 0; 0xffff; h; l]%Z) by
    (split; [done|]; rewrite !Forall_cons, Forall_nil; unfold group in *; lia).
  assert (Hi := isIP_text6 _ Hgs). assert (Hlow := lower_text6 _ (proj2 Hgs)). rewrite text6_mapped_hex in *.
  unfold isPrivateAddress. rewrite mapped_rest by done.
  destruct (hex_facts h Hh) as (Hs & _ & Hp & H58 & _), (hex_facts l Hl) as (Hs' & _ & Hp' & H58' & _).
  assert (Hnd : 46%Z ∉ hex_text h ++ 58%Z :: hex_text l).
  { assert (Hx : ∀ g, group g → 46%Z ∉ hex_text g).
    { intros g Hg Hc. by destruct (text6_char_facts 46%Z (hex_text_chars _ _ Hg Hc)). }
    intros [Hc|[Hc|Hc]%elem_of_cons]%elem_of_app; [by apply (Hx h)|done|by apply (Hx l)]. }
  unfold dotted_quad. rewrite split_on_no_sep by done. cbv beta iota.
  rewrite split_on_app, split_on_no_sep, Hs, Hs', Hp, Hp' by done. cbn [andb].
  rewrite !Z.shiftr_div_pow2 by lia. change 255%Z with (Z.ones 8). rewrite !Z.land_ones by lia.
  change (2 ^ 8)%Z with 256%Z. unfold group in *.
  rewrite <- (private_text4 0) by lia. rewrite text4_octets. f_equal.
  f_equal; Z.div_mod_to_equations; lia.
Qed.

Lemma digit_char_facts c : is_digit c = true → c ≠ 58%Z ∧ c ≠ 37%Z ∧ lower_char c = c.
Proof.
  unfold is_digit, lower_char. rewrite andb_true_iff, !Z.leb_le. intros Hc. split_and!; [lia..|].
  by rewrite (proj2 (Z.leb_gt 65 c)) by lia.
Qed.
Lemma text4_chars a c : (0 <= a < 2 ^ 32)%Z → c ∈ text4 a → c = 46%Z ∨ is_digit c = true.
Proof.
  intros Ha [Hc|(p & Hp & Hc)]%join_elem; [left; by apply list_elem_of_singleton in Hc|right].
  assert (Ho : ∃ o, (0 <= o < 256)%Z ∧ p = js_of_Z o).
  { repeat (apply elem_of_cons in Hp as [->|Hp]; [eexists; split; [|reflexivity]; [by apply top_octet || apply byte_mod]|]).
    by apply not_elem_of_nil in Hp. }
  destruct Ho as (o & Ho & ->). destruct (octet_facts o Ho) as (_ & _ & Hd & _).
  rewrite forallb_forall in Hd. by apply Hd, list_elem_of_In.
Qed.

Lemma prefix_char c : c ∈ mapped_prefix → (c = 58 ∨ c = 102)%Z.
Proof.
  change mapped_prefix with [58; 58; 102; 102; 102; 102; 58]%Z. rewrite !elem_of_cons.
  intros Hc. repeat destruct Hc as [->|Hc]; auto. by apply not_elem_of_nil in Hc.
Qed.
Lemma text4_first a : ∃ rest, text4 a = js_of_Z (a / 2 ^ 24) ++ 46%Z :: rest.
Proof. by eexists. Qed.

Lemma isIP_mapped_dotted a : (0 <= a < 2 ^ 32)%Z → isIP (text6_mapped a) = 6%nat.
Proof.
  intros Ha. assert (Hch : ∀ c, c ∈ text4 a → c ≠ 58%Z ∧ c ≠ 37%Z).
  { intros c [->|Hd]%text4_chars; [done| |done]. by destruct (digit_char_facts c Hd) as (? & ? & _). }
  assert (H4 : is_ipv4 (text4 a) = true).
  { assert (Hx := isIP_octets _ _ _ _ (top_octet a Ha) (byte_mod (a / 2 ^ 16)) (byte_mod (a / 2 ^ 8)) (byte_mod a)).
    rewrite <- text4_octets in Hx. unfold isIP in Hx. destruct (is_ipv4 _); [done|]. by destruct (is_ipv6 _). }
  unfold isIP. assert (Hn4 : is_ipv4 (text6_mapped a) = false).
  { unfold is_ipv4, text6_mapped. destruct (text4_first a) as [rest ->].
    rewrite app_assoc, split_on_app.
    - by destruct (split_on 46 rest) as [|? [|? [|? []]]].
    - intros [Hc|Hc]%elem_of_app; [by apply prefix_char in Hc as [?|?]|].
      revert Hc. by apply octet_no_dot, top_octet. }
  rewrite Hn4. unfold is_ipv6, text6_mapped.
  rewrite span_all; [|intros c [Hc|Hc]%elem_of_app; [|apply negb_true_iff, Z.eqb_neq, (Hch c Hc)]].
  2:{ by apply prefix_char in Hc as [-> | ->]. }
  change (split_gap (mapped_prefix ++ text4 a)) with
    (@nil Z, Some ([102; 102; 102; 102; 58]%Z ++ text4 a)). cbn [andb].
  assert (Hne : text4 a ≠ []).
  { intros He. rewrite He in H4. done. }
  change (groups_of ([102; 102; 102; 102; 58]%Z ++ text4 a)) with (split_on 58 ([102; 102; 102; 102]%Z ++ 58%Z :: text4 a)).
  rewrite split_on_app, split_on_no_sep; [|intros Hc; by destruct (Hch _ Hc)|decide_vm].
  assert (Hs : hex_segment (text4 a) = false).
  { apply not_true_iff_false. intros Hs. unfold hex_segment in Hs. rewrite !andb_true_iff, forallb_forall in Hs.
    destruct Hs as [[Hs _] _]. assert (Hin : 46%Z ∈ text4 a).
    { destruct (text4_first a) as [rest ->]. apply elem_of_app. right. left. }
    by specialize (Hs 46%Z (proj1 (list_elem_of_In _ _) Hin)). }
  cbn [count_groups groups_of]. rewrite Hs, H4. done.
Qed.

Lemma private_mapped_dotted a : (0 <= a < 2 ^ 32)%Z → isPrivateAddress (text6_mapped a) = private4 a.
Proof.
  intros Ha. unfold isPrivateAddress, text6_mapped. rewrite mapped_rest.
  - rewrite text4_octets, dotted_octets, <- text4_octets by (by apply top_octet || apply byte_mod). by apply private_text4.
  - by apply isIP_mapped_dotted.
  - apply lower_same. intros c [Hc|Hc]%elem_of_app.
    + by apply prefix_char in Hc as [-> | ->].
    + destruct (text4_chars a c Ha Hc) as [->|Hd]; [done|]. by destruct (digit_char_facts c Hd) as (_ & _ & ?).
Qed.

(** The guard against fetching internal addresses is right on the texts it is given.  An IPv4
    address is refused exactly when it lies in this network, loopback, a private range,
    link-local (where the cloud metadata service is) or carrier-grade NAT.  An IPv6 address
    that is loopback, unspecified, unique-local or link-local is refused; one that maps an
    IPv4 address, in either spelling, is refused exactly when that address is; and a global
    unicast address is not refused. *)
Theorem private_addresses_refused :
  (∀ a, (0 <= a < 2 ^ 32)%Z → isPrivateAddress (text4 a) = private4 a
                              ∧ isPrivateAddress (text6_mapped a) = private4 a)
  ∧ (∀ gs, address6 gs → private6 gs = true → isPrivateAddress (text6 gs) = true)
  ∧ (∀ h l, group h → group l →
       isPrivateAddress (text6 [0; 0; 0; 0; 0; 0xffff; h; l]%Z) = private4 (h * 65536 + l))
  ∧ (∀ gs, address6 gs → global6 gs = true → isPrivateAddress (text6 gs) = false).
Proof.
  split_and!.
  - intros a Ha. split; [by apply private_text4|by apply private_mapped_dotted].
  - intros gs Hgs Hp. assert (Hi := isIP_text6 gs Hgs). assert (Hl := lower_text6 gs (proj2 Hgs)).
    unfold private6 in Hp. rewrite !orb_true_iff, !bool_decide_eq_true in Hp.
    destruct Hp as [[[->| ->]|Hp]|Hp]; [by vm_compute|by vm_compute| |].
    + destruct gs as [|g gs]; [done|]. destruct Hgs as [_ [Hg _]%Forall_cons]. unfold isPrivateAddress.
      rewrite private_address6 by done. destruct (text6_first g gs) as [rest ->]; [by intros ->|].
      rewrite orb_true_iff in Hp. destruct Hp as [Hp|Hp];
        [rewrite hex_unique_local by done|rewrite hex_link_local by done]; by rewrite ?orb_true_r.
    + destruct gs as [|[]  [|[] [|[] [|[] [|[] [|m [|h [|l []]]]]]]]]; try done.
      apply andb_true_iff in Hp as [->%Z.eqb_eq Hp]. destruct Hgs as [_ Hgs]. rewrite !Forall_cons in Hgs.
      by rewrite private_mapped_hex by tauto.
  - intros h l. apply private_mapped_hex.
  - intros gs Hgs Hg. assert (Hi := isIP_text6 gs Hgs). assert (Hl := lower_text6 gs (proj2 Hgs)).
    destruct gs as [|g gs]; [done|]. destruct Hgs as [_ [Hgr _]%Forall_cons]. unfold isPrivateAddress.
    rewrite private_address6 by done. cbn in Hg. destruct (text6_first g gs) as [rest ->]; [by intros ->|].
    destruct (hex_global g rest Hgr Hg) as (c & t & -> & Hc).
    assert (Hm : after_mapped (c :: t) = None) by (unfold after_mapped; by destruct Hc as [-> | ->]).
    rewrite Hm. by destruct Hc as [-> | ->].
Qed.
