(* ===== verification/OAuthClients.v ===== *)
(** The clients of the authorization server and their metadata documents.

    Models services/oauth-client.service.ts and oauth-hosted-clients.ts.  The URL
    parser, the JSON parser, name resolution and the network are parameters: a dialled
    address answers with a list of events, which [fetchFromAddress] handles one by one. *)

From S2P Require Import Prelude Js PublicRows TenantDb PublicDb OAuth NetAddress.

(** ** Values *)

Inductive json :=
| JNull | JBool (b : bool) | JNumber (z : Z) | JString (s : jsstring)
| JArray (l : list json) | JObject (fields : list (jsstring * json)).

(** [doc[k]], [None] for undefined; an array has none of the fields that are read. *)
Definition field (k : string) (doc : json) : option json :=
  match doc with
  | JObject fields => snd <$> first (λ f, bool_decide (f.1 = js k)) fields
  | _ => None
  end.

(** The parts of a URL object that are read. *)
Record url_parts := mkUrl {
  u_protocol : jsstring; u_hostname : jsstring; u_host : jsstring; u_port : jsstring;
  u_pathname : jsstring; u_search : jsstring; u_hash : jsstring }.

Record ResolvedOAuthClient := mkResolved {
  rc_clientId : string; rc_clientName : option jsstring;
  rc_redirectUris : list jsstring; rc_tokenEndpointAuthMethod : jsstring }.

Record HostedClientDefinition := mkHosted {
  hc_slug : string; hc_clientName : jsstring; hc_redirectUris : list jsstring }.
Record PreRegisteredClient := mkPreRegistered {
  pc_clientId : string; pc_clientName : jsstring; pc_redirectUris : list jsstring }.

Definition FETCH_TIMEOUT_MS : Z := 5000.
Definition MAX_DOCUMENT_BYTES : Z := 64 * 1024.
Definition CACHE_TTL_MS : Z := 60 * 60 * 1000.

(** ** oauth-hosted-clients.ts *)

Definition HOSTED_CLIENTS : list HostedClientDefinition :=
  [mkHosted "grok" (js "Grok")
     [js "https://grok.com/connectors-oauth-exchange-code/"; js "https://grok.com/connectors-oauth-exchange-code"]].
Definition PRE_REGISTERED_CLIENTS : list PreRegisteredClient :=
  [mkPreRegistered "https://grok.com/oauth/mcp-client.json" (js "Grok")
     [js "https://grok.com/connectors-oauth-exchange-code/"; js "https://grok.com/connectors-oauth-exchange-code";
      js "https://console.x.ai/connectors-oauth-exchange-code/"; js "https://console.x.ai/connectors-oauth-exchange-code"]].

Definition findPreRegisteredClient (clientId : string) : option PreRegisteredClient :=
  first (λ c, String.eqb c.(pc_clientId) clientId) PRE_REGISTERED_CLIENTS.
Definition hostedClientId (issuer slug : string) : string :=
  String.append issuer (String.append "/api/oauth/clients/" (String.append slug ".json")).
Definition canHostClients (issuer : string) : bool := String.prefix "https://" issuer.
Definition findHostedClient (issuer clientId : string) : option HostedClientDefinition :=
  if negb (canHostClients issuer) then None
  else first (λ c, String.eqb (hostedClientId issuer c.(hc_slug)) clientId) HOSTED_CLIENTS.

(** ** The document *)

Definition client_error (message code : string) : err := OAuthClientError message code.

Definition strings_of (l : list json) : list jsstring :=
  omap (λ v, match v with JString s => Some s | _ => None end) l.

(** The fields of a document. *)
Definition document_claims (clientId : string) (doc : json) : bool :=
  match field "client_id" doc with Some (JString s) => bool_decide (s = js clientId) | _ => false end.
Definition document_redirects (doc : json) : list jsstring :=
  match field "redirect_uris" doc with Some (JArray l) => strings_of l | _ => [] end.
Definition document_name (doc : json) : option jsstring :=
  match field "client_name" doc with
  | Some (JString s) => match trim s with [] => None | t => Some (take 200 t) end
  | _ => None
  end.
Definition document_auth_method (doc : json) : jsstring :=
  match field "token_endpoint_auth_method" doc with Some (JString s) => s | _ => js "none" end.

Definition parseDocument (clientId : string) (raw : json) : result ResolvedOAuthClient :=
  if match raw with JArray _ | JObject _ => false | _ => true end
  then Throw (client_error "Client metadata is not an object" "invalid_document")
  else if negb (document_claims clientId raw)
  then Throw (client_error "Client metadata client_id does not match its URL" "invalid_document")
  else
    match document_redirects raw with
    | [] => Throw (client_error "Client metadata declares no redirect_uris" "invalid_document")
    | redirectUris => Ok (mkResolved clientId (document_name raw) redirectUris (document_auth_method raw))
    end.

(** ** One attempt *)

(** What the runtime reports of a request, in order. *)
Inductive fetch_event :=
| Deadline
| Answered (status : Z) (contentLength : option Z)  (* [Number] of the header, [None] for NaN *)
| Data (chunk : list Z)
| End
| BodyError
| SocketTimeout
| SocketError.

Record fetch_state := mkFetch {
  fs_settled : option (result json);
  fs_reading : bool;  (* the handlers of the body are installed *)
  fs_received : Z;
  fs_chunks : list (list Z) }.

Definition settle (r : result json) (s : fetch_state) : fetch_state :=
  mkFetch (match s.(fs_settled) with Some r => Some r | None => Some r end) s.(fs_reading) s.(fs_received) s.(fs_chunks).
Definition settleReject (message code : string) : fetch_state → fetch_state :=
  settle (Throw (client_error message code)).

Section fetch.
(** [JSON.parse] of the body as UTF-8. *)
Context (parse_json : list Z → option json).

Definition on_event (s : fetch_state) (e : fetch_event) : fetch_state :=
  match e with
  | Deadline => settleReject "Client metadata timed out" "unreachable" s
  | Answered status declared =>
      if (300 <=? status)%Z && (status <? 400)%Z
      then settleReject "Client metadata must not redirect" "invalid_document" s
      else if (status <? 200)%Z || (300 <=? status)%Z
      then settleReject (String.append "Client metadata returned HTTP " (pretty status)) "http_status" s
      else if match declared with Some n => (MAX_DOCUMENT_BYTES <? n)%Z | None => false end
      then settleReject "Client metadata document is too large" "invalid_document" s
      else mkFetch s.(fs_settled) true 0 []
  | Data chunk =>
      if s.(fs_reading) then
        let received := (s.(fs_received) + Z.of_nat (length chunk))%Z in
        let s' := mkFetch s.(fs_settled) true received s.(fs_chunks) in
        if (MAX_DOCUMENT_BYTES <? received)%Z
        then settleReject "Client metadata document is too large" "invalid_document" s'
        else mkFetch s.(fs_settled) true received (s.(fs_chunks) ++ [chunk])
      else s
  | End =>
      if s.(fs_reading) then
        match parse_json (concat s.(fs_chunks)) with
        | Some v => settle (Ok v) s
        | None => settleReject "Client metadata is not valid JSON" "invalid_document" s
        end
      else s
  | BodyError => if s.(fs_reading) then settleReject "Could not read client metadata" "unreachable" s else s
  | SocketTimeout => settleReject "Client metadata timed out" "unreachable" s
  | SocketError => settleReject "Could not fetch client metadata" "unreachable" s
  end.

Definition fetch_start : fetch_state := mkFetch None false 0 [].
Definition fetch_run (events : list fetch_event) : fetch_state := foldl on_event fetch_start events.

(** The outcome of an attempt; a request that reports nothing more meets its deadline. *)
Definition fetchFromAddress (events : list fetch_event) : result json :=
  default (Throw (client_error "Client metadata timed out" "unreachable")) (fetch_run events).(fs_settled).
End fetch.

(** ** Resolution *)

(** [hostname.replace(/^\[|\]$/g, "")] *)
Definition unbracket (s : jsstring) : jsstring :=
  let s := match s with 91%Z :: t => t | _ => s end in
  if ends_with (js "]") s then take (length s - 1) s else s.

Definition pinned_address : Type := jsstring * nat.

Section resolve.
Context `{Oracle} (issuer : string) (parse_json : list Z → option json)
  (new_URL : jsstring → option url_parts)  (* [None]: the constructor throws *)
  (lookup : jsstring → option (list pinned_address))  (* [None]: it rejects *)
  (dial : url_parts → pinned_address → list fetch_event).

Definition assertHttpsUrl (raw : string) : result url_parts :=
  match new_URL (js raw) with
  | None => Throw (client_error "client_id must be an absolute URL" "invalid_client_id")
  | Some url =>
      if negb (bool_decide (url.(u_protocol) = js "https:"))
      then Throw (client_error "client_id must use https" "invalid_client_id")
      else if truthy (Some url.(u_hash))
      then Throw (client_error "client_id must not contain a fragment" "invalid_client_id")
      else
        let host := unbracket url.(u_hostname) in
        if negb (isIP host =? 0)%nat && isPrivateAddress host
        then Throw (client_error "client_id must not point at a private address" "invalid_client_id")
        else Ok url
  end.

Definition resolveSafeAddresses (hostname : jsstring) : result (list pinned_address) :=
  let bare := unbracket hostname in
  if negb (isIP bare =? 0)%nat then
    if isPrivateAddress bare
    then Throw (client_error "client_id must not point at a private address" "invalid_client_id")
    else Ok [(bare, isIP bare)]
  else
    match lookup bare with
    | None | Some [] => Throw (client_error (String.append "Could not resolve " (string_of_js bare)) "unreachable")
    | Some entries =>
        if existsb (λ e, isPrivateAddress e.1) entries
        then Throw (client_error "client_id must not point at a private address" "invalid_client_id")
        else Ok (keep (λ e, (e.2 =? 4)%nat) entries ++ keep (λ e, negb (e.2 =? 4)%nat) entries)
    end.

Definition error_code (e : err) : option string :=
  match e with OAuthClientError _ code => Some code | _ => None end.

(** The loop over the addresses, with [answeredError] and [lastError]. *)
Fixpoint fetch_loop (url : url_parts) (deadlineAt : Z) (addresses : list pinned_address)
    (answeredError lastError : option err) : M json :=
  let no_document := throw (default (client_error "Could not fetch client metadata" "unreachable")
                          (nullish answeredError lastError)) in
  match addresses with
  | [] => no_document
  | pinned :: rest =>
      now ← toDbDate;
      if (deadlineAt <=? now)%Z then no_document
      else
        match fetchFromAddress parse_json (dial url pinned) with
        | Ok document => mret document
        | Throw e =>
            if bool_decide (error_code e = Some "invalid_document") then throw e
            else
              let answeredError :=
                if bool_decide (error_code e = Some "http_status") && is_null answeredError
                then Some e else answeredError in
              fetch_loop url deadlineAt rest answeredError (Some e)
        end
  end.

Definition fetchDocument (url : url_parts) : M json :=
  match resolveSafeAddresses url.(u_hostname) with
  | Throw e => throw e
  | Ok addresses => now ← toDbDate; fetch_loop url (now + FETCH_TIMEOUT_MS)%Z addresses None None
  end.

(** [metadata], which repeats the other columns, is not modelled. *)
Definition persistClient (client : ResolvedOAuthClient) : M unit :=
  now ← toDbDate; created ← db_now;
  insert_on_conflict_update oauth_clients
    (λ r, String.eqb r.(cl_client_id) client.(rc_clientId))
    (λ r, mkClient r.(cl_client_id) client.(rc_clientName) client.(rc_redirectUris)
            client.(rc_tokenEndpointAuthMethod) now (now + CACHE_TTL_MS)%Z r.(cl_created_at))
    (mkClient client.(rc_clientId) client.(rc_clientName) client.(rc_redirectUris)
       client.(rc_tokenEndpointAuthMethod) now (now + CACHE_TTL_MS)%Z created).

Definition resolveOAuthClient (clientId : string) : M ResolvedOAuthClient :=
  match findHostedClient issuer clientId with
  | Some hosted =>
      let client := mkResolved clientId (Some hosted.(hc_clientName)) hosted.(hc_redirectUris) (js "none") in
      _ ← persistClient client; mret client
  | None =>
      match assertHttpsUrl clientId with
      | Throw e => throw e
      | Ok url =>
          match findPreRegisteredClient clientId with
          | Some p =>
              let client := mkResolved clientId (Some p.(pc_clientName)) p.(pc_redirectUris) (js "none") in
              _ ← persistClient client; mret client
          | None =>
              cached ← select_first oauth_clients (λ r, String.eqb r.(cl_client_id) clientId);
              now ← toDbDate;
              let refetch :=
                document ← fetchDocument url;
                match parseDocument clientId document with
                | Throw e => throw e
                | Ok client => _ ← persistClient client; mret client
                end in
              match cached with
              | Some r =>
                  if (now <? r.(cl_cache_expires_at))%Z
                  then mret (mkResolved r.(cl_client_id) r.(cl_client_name) r.(cl_redirect_uris)
                               r.(cl_token_endpoint_auth_method))
                  else refetch
              | None => refetch
              end
          end
      end
  end.

(** ** Redirects *)

Definition loopbackHosts : list jsstring := [js "localhost"; js "127.0.0.1"; js "[::1]"].

Definition isAllowedRedirectUri (client : ResolvedOAuthClient) (candidate : jsstring) : bool :=
  match new_URL candidate with
  | None => false
  | Some target =>
      if truthy (Some target.(u_hash)) then false
      else
        existsb (λ declared,
          if bool_decide (declared = candidate) then true
          else
            match new_URL declared with
            | None => false
            | Some allowed =>
                bool_decide (allowed.(u_hostname) ∈ loopbackHosts)
                && bool_decide (allowed.(u_hostname) = target.(u_hostname))
                && bool_decide (allowed.(u_protocol) = target.(u_protocol))
                && bool_decide (allowed.(u_pathname) = target.(u_pathname))
                && bool_decide (allowed.(u_search) = target.(u_search))
            end) client.(rc_redirectUris)
  end.
End resolve.
