(* ===== verification/ClientSpec.v ===== *)
(** What resolving a client promises: only public addresses are dialled, a response is read
    to a bound, and what a client may do comes from a source that vouches for it. *)

From S2P Require Import Prelude Js PublicRows TenantDb PublicDb Exec OAuth NetAddress OAuthClients.

(** ** One attempt *)

Section attempt.
Context (parse_json : list Z → option json).

Definition buffered (s : fetch_state) : Z := Z.of_nat (length (concat s.(fs_chunks))).

(** Until it settles, the buffer is what was received, within the bound. *)
Definition reading_ok (s : fetch_state) : Prop :=
  (buffered s <= MAX_DOCUMENT_BYTES)%Z ∧ (buffered s <= s.(fs_received))%Z.

Lemma settle_stays r s v : s.(fs_settled) = Some v → (settle r s).(fs_settled) = Some v.
Proof. intros Hs. cbn. by rewrite Hs. Qed.
Lemma on_event_stays s e v : s.(fs_settled) = Some v → (on_event parse_json s e).(fs_settled) = Some v.
Proof. intros Hs. destruct e; cbn; repeat case_match; cbn; by rewrite ?Hs. Qed.
Lemma events_stay evs s v : s.(fs_settled) = Some v → (foldl (on_event parse_json) s evs).(fs_settled) = Some v.
Proof. revert s. induction evs as [|e evs IH]; intros s Hs; [done|]. cbn. by apply IH, on_event_stays. Qed.

Lemma on_event_reading s e : reading_ok s → reading_ok (on_event parse_json s e).
Proof.
  unfold reading_ok, buffered. intros [H1 H2].
  destruct e; cbn; repeat case_match; cbn; try done.
  - lia.
  - rewrite concat_app, !length_app. cbn. rewrite length_app. cbn. lia.
Qed.
Lemma fetch_run_reading evs : reading_ok (fetch_run parse_json evs).
Proof.
  unfold fetch_run. assert (Hs : reading_ok fetch_start) by done. revert Hs. generalize fetch_start.
  induction evs as [|e evs IH]; intros s Hs; [done|]. by apply IH, on_event_reading.
Qed.

(** The body is read only after an answer of success. *)
Lemma reading_answered evs :
  (fetch_run parse_json evs).(fs_reading) = true →
  ∃ status declared, Answered status declared ∈ evs ∧ (200 <= status < 300)%Z.
Proof.
  unfold fetch_run. induction evs as [|e evs IH] using rev_ind; [done|]. rewrite foldl_snoc. intros Hr.
  assert (Hor : (foldl (on_event parse_json) fetch_start evs).(fs_reading) = true
    ∨ ∃ status declared, e = Answered status declared ∧ (200 <= status < 300)%Z).
  { revert Hr. generalize (foldl (on_event parse_json) fetch_start evs). intros s Hr.
    destruct e as [|status declared|chunk| | | |]; cbn in Hr; repeat case_match; cbn in Hr; try congruence;
      try (by left); right; do 2 eexists; (split; [reflexivity|]); to_prop; lia. }
  destruct Hor as [Hr'|(st & d & -> & Hst)].
  - destruct (IH Hr') as (st & d & Hin & Hst). exists st, d. split; [apply elem_of_app; by left|done].
  - exists st, d. split; [apply elem_of_app; right; by left|done].
Qed.

(** A metadata document is accepted only from an answer of success that ended in time, parses
    as JSON and stays within the size bound; whatever the host sends, no more than the
    bound is ever buffered, and the first outcome of a request is its only one. *)
Theorem fetch_bounded events :
  (∀ before after, events = before ++ after →
     (buffered (fetch_run parse_json before) <= MAX_DOCUMENT_BYTES)%Z
     ∧ ∀ r, (fetch_run parse_json before).(fs_settled) = Some r → (fetch_run parse_json events).(fs_settled) = Some r)
  ∧ ∀ document, fetchFromAddress parse_json events = Ok document →
     ∃ before after status declared,
       events = before ++ End :: after ∧ Answered status declared ∈ before ∧ (200 <= status < 300)%Z
       ∧ parse_json (concat (fetch_run parse_json before).(fs_chunks)) = Some document.
Proof.
  split.
  - intros before after ->. split; [apply fetch_run_reading|]. intros r Hr. unfold fetch_run.
    rewrite foldl_app. by apply events_stay.
  - intros document. unfold fetchFromAddress, fetch_run. induction events as [|e evs IH] using rev_ind; [done|].
    rewrite foldl_snoc. intros Hd.
    destruct (fs_settled (foldl (on_event parse_json) fetch_start evs)) as [r|] eqn:Es.
    + rewrite (on_event_stays _ _ _ Es) in Hd. destruct (IH Hd) as (b & a & st & d & -> & Hrest).
      exists b, (a ++ [e]), st, d. by rewrite <- app_assoc.
    + assert (Hx : e = End ∧ (foldl (on_event parse_json) fetch_start evs).(fs_reading) = true
        ∧ parse_json (concat (foldl (on_event parse_json) fetch_start evs).(fs_chunks)) = Some document).
      { revert Hd Es. generalize (foldl (on_event parse_json) fetch_start evs). intros s Hd Es. clear IH.
        destruct e; cbn in Hd; repeat case_match; cbn in Hd; rewrite ?Es in Hd; cbn in Hd; by simplify_eq. }
      destruct Hx as (-> & Hr & Hp). destruct (reading_answered evs Hr) as (st & d & Hin & Hst).
      by exists evs, [], st, d.
Qed.
End attempt.

(** ** Resolution *)

(** What a connection to an address reports. *)
Definition Dial : Type := url_parts → pinned_address → list fetch_event.

Section resolution.
Context `{Oracle} (issuer : string) (parse_json : list Z → option json)
  (new_URL : jsstring → option url_parts) (lookup : jsstring → option (list pinned_address)).

Lemma safe_addresses host l :
  resolveSafeAddresses lookup host = Ok l → ∀ a, a ∈ l → isPrivateAddress a.1 = false.
Proof.
  unfold resolveSafeAddresses. intros Hr a Ha. repeat case_match; simplify_eq.
  - by apply list_elem_of_singleton in Ha as ->.
  - rewrite elem_of_app, !elem_of_keep in Ha. apply not_true_iff_false. intros Hp.
    match goal with Hx : existsb _ _ = false |- _ => apply not_true_iff_false in Hx; apply Hx end.
    apply existsb_exists. exists a. split; [apply list_elem_of_In; tauto|done].
Qed.

(** Two networks that agree on the public addresses cannot be told apart. *)
Definition agree (dial dial' : Dial) : Prop :=
  ∀ url a, isPrivateAddress a.1 = false → dial url a = dial' url a.

Lemma fetch_loop_agree dial dial' url deadline l o1 o2 s :
  agree dial dial' → (∀ a, a ∈ l → isPrivateAddress a.1 = false) →
  fetch_loop parse_json dial url deadline l o1 o2 s = fetch_loop parse_json dial' url deadline l o1 o2 s.
Proof.
  intros Hd. revert o1 o2 s. induction l as [|a l IH]; intros o1 o2 s Hl; [done|].
  cbn [fetch_loop]. cbv [mbind M_bind]. destruct (toDbDate s) as [[now|e] s']; [|done].
  destruct (deadline <=? now)%Z; [done|]. rewrite (Hd url a) by (apply Hl; left).
  destruct (fetchFromAddress parse_json (dial' url a)); [done|]. case_bool_decide; [done|].
  apply IH. intros b Hb. apply Hl. by right.
Qed.
Lemma fetchDocument_agree dial dial' url s :
  agree dial dial' → fetchDocument parse_json lookup dial url s = fetchDocument parse_json lookup dial' url s.
Proof.
  intros Hd. unfold fetchDocument. destruct (resolveSafeAddresses lookup (u_hostname url)) as [l|e] eqn:Er; [|done].
  cbv [mbind M_bind]. destruct (toDbDate s) as [[now|e] s']; [|done].
  apply fetch_loop_agree; [done|]. by eapply safe_addresses.
Qed.

(** Where a resolved client comes from. *)
Inductive vouched (dial : Dial) (clientId : string) (t : tables) (c : ResolvedOAuthClient) : Prop :=
| vouched_hosted h : findHostedClient issuer clientId = Some h → c.(rc_redirectUris) = h.(hc_redirectUris) →
    vouched dial clientId t c
| vouched_registered p : findPreRegisteredClient clientId = Some p → c.(rc_redirectUris) = p.(pc_redirectUris) →
    vouched dial clientId t c
| vouched_cached r now : r ∈ rows oauth_clients t → r.(cl_client_id) = clientId → clock_reading now →
    (now < r.(cl_cache_expires_at))%Z → c.(rc_redirectUris) = r.(cl_redirect_uris) → vouched dial clientId t c
| vouched_document url a document : assertHttpsUrl new_URL clientId = Ok url → isPrivateAddress a.1 = false →
    fetchFromAddress parse_json (dial url a) = Ok document → parseDocument clientId document = Ok c →
    vouched dial clientId t c.

Lemma exec_fetch_loop dial url deadline l o1 o2 t :
  (∀ a, a ∈ l → isPrivateAddress a.1 = false) →
  exec (fetch_loop parse_json dial url deadline l o1 o2) t
    (λ d t', t' = t ∧ ∃ a, isPrivateAddress a.1 = false ∧ fetchFromAddress parse_json (dial url a) = Ok d)
    (λ _ t', t' = t).
Proof.
  revert o1 o2. induction l as [|a l IH]; intros o1 o2 Hl; cbn [fetch_loop]; [by apply exec_throw|].
  do 2 exec_step. exec_step; [by apply exec_throw|].
  destruct (fetchFromAddress parse_json (dial url a)) as [d|e] eqn:Ef.
  - exec_step. split; [done|]. exists a. split; [apply Hl; left|done].
  - exec_step; [by exec_step|]. apply IH. intros b Hb. apply Hl. by right.
Qed.
Lemma exec_fetchDocument dial url t :
  exec (fetchDocument parse_json lookup dial url) t
    (λ d t', t' = t ∧ ∃ a, isPrivateAddress a.1 = false ∧ fetchFromAddress parse_json (dial url a) = Ok d)
    (λ _ t', t' = t).
Proof.
  unfold fetchDocument. destruct (resolveSafeAddresses lookup (u_hostname url)) as [l|e] eqn:Er; [|by apply exec_throw].
  do 2 exec_step. apply exec_fetch_loop. by eapply safe_addresses.
Qed.

Lemma parseDocument_id clientId d c : parseDocument clientId d = Ok c → c.(rc_clientId) = clientId ∧ c.(rc_redirectUris) ≠ [].
Proof.
  unfold parseDocument. destruct (match d with JArray _ | JObject _ => false | _ => true end); [done|].
  destruct (negb _); [done|]. destruct (document_redirects d); [done|]. by intros [= <-].
Qed.

Lemma exec_persist client t (Q : unit → tables → Prop) (E : err → tables → Prop) :
  (∀ t', Q tt t') → (∀ e, E e t) → exec (persistClient client) t Q E.
Proof.
  intros HQ HE. unfold persistClient. do 4 exec_step.
  apply exec_insert_on_conflict_update; intros; auto.
Qed.

Lemma exec_resolve dial clientId t :
  exec (resolveOAuthClient issuer parse_json new_URL lookup dial clientId) t
    (λ c _, c.(rc_clientId) = clientId ∧ vouched dial clientId t c) (λ _ t', t' = t).
Proof.
  unfold resolveOAuthClient. exec_step.
  { exec_step. apply exec_persist; [|done]. intros t'. exec_step. split; [done|]. by eapply vouched_hosted. }
  destruct (assertHttpsUrl new_URL clientId) as [url|e] eqn:Eu; [|by exec_step]. exec_step.
  { exec_step. apply exec_persist; [|done]. intros t'. exec_step. split; [done|]. by eapply vouched_registered. }
  do 4 exec_step.
  assert (Hre : exec (document ← fetchDocument parse_json lookup dial url;
      match parseDocument clientId document with
      | Throw e => throw e | Ok client => _ ← persistClient client; mret client end) t
      (λ c _, c.(rc_clientId) = clientId ∧ vouched dial clientId t c) (λ _ t', t' = t)).
  { apply exec_bind. eapply exec_weaken; [apply exec_fetchDocument| |done]. cbv beta. intros d t' (-> & a & Ha & Hf).
    destruct (parseDocument clientId d) as [c|e] eqn:Ep; [|by exec_step].
    exec_step. apply exec_persist; [|done]. intros t'. exec_step.
    split; [by apply (parseDocument_id _ _ _ Ep)|by eapply vouched_document]. }
  destruct (first _ _) as [r|] eqn:Ef; [|exact Hre].
  destruct (z <? cl_cache_expires_at r)%Z eqn:Ez; [|exact Hre]. exec_step.
  apply first_Some in Ef as [Hin Hid%String.eqb_eq]. split; [done|].
  eapply vouched_cached; [exact Hin|done|done| |done]. lia.
Qed.

(** C28: Resolving a client_id never reaches an internal address: its outcome does not depend on
    what any private address would answer.  A resolved client has the identity that was
    asked for, and its redirects come from this server's registry, a cached row that has
    not expired, or a document fetched from a public address that names that identity; on
    any failure nothing is stored, so an expired row is never served. *)
Theorem client_is_vouched_for dial clientId s :
  (∀ dial', agree dial dial' →
     resolveOAuthClient issuer parse_json new_URL lookup dial clientId s
     = resolveOAuthClient issuer parse_json new_URL lookup dial' clientId s)
  ∧ match resolveOAuthClient issuer parse_json new_URL lookup dial clientId s with
    | (Ok c, _) => c.(rc_clientId) = clientId ∧ vouched dial clientId (tb s) c
    | (Throw _, s') => tb s' = tb s
    end.
Proof.
  split; [|exact (exec_run _ _ _ _ (exec_resolve dial clientId (tb s)))].
  intros dial' Hd. unfold resolveOAuthClient. destruct (findHostedClient issuer clientId); [done|].
  destruct (assertHttpsUrl new_URL clientId) as [url|e]; [|done]. destruct (findPreRegisteredClient clientId); [done|].
  cbv [mbind M_bind]. destruct (select_first _ _ s) as [[cached|e] s1]; [|done].
  destruct (toDbDate s1) as [[now|e] s2]; [|done].
  assert (Hf := fetchDocument_agree dial dial' url s2 Hd).
  destruct cached as [r|]; [destruct (now <? cl_cache_expires_at r)%Z; [done|]|]; by rewrite Hf.
Qed.
End resolution.
