(* ===== verification/Cases.v ===== *)
(** Conversation cases: the lifecycle of a contact's or conversation's work.

    Models conversation-case.service.ts.  A case is open or pending until it is
    resolved; a reopen is a new case.  Every function below is the service's
    function statement by statement: the row lock, the ownership check, the
    conditional UPDATE or INSERT ... ON CONFLICT, and the projection row of
    conversation_states that mirrors the active case. *)

From S2P Require Import Prelude Js SpineRows TenantDb Workflow.

(** ** Rows as the service returns them *)

Record ConversationCase := mkConversationCase {
  id : string; contactId : string; kind : case_kind; status : case_status;
  openedAt : Z; openingMessageId : option string; openSource : open_source;
  openedBy : option string; policyId : string; responseTargetMinutes : Z;
  resolutionTargetMinutes : Z; reopenedFromCaseId : option string;
  reopenReason : option jsstring; resolvedAt : option Z; resolvedBy : option string;
  resolutionOutcome : option case_outcome; resolutionNotes : option jsstring;
  createdAt : Z; updatedAt : Z }.

Definition toConversationCase (row : case_row) : ConversationCase :=
  mkConversationCase row.(cc_id) (default "" row.(cc_contact_id)) row.(cc_kind)
    row.(cc_status) row.(cc_opened_at) row.(cc_opening_message_id) row.(cc_open_source)
    row.(cc_opened_by) row.(cc_policy_id) row.(cc_response_target_minutes)
    row.(cc_resolution_target_minutes) row.(cc_reopened_from_case_id)
    row.(cc_reopen_reason) row.(cc_resolved_at) row.(cc_resolved_by)
    row.(cc_resolution_outcome) row.(cc_resolution_notes) row.(cc_created_at)
    row.(cc_updated_at).

Definition RESPONSE_SLA_EXCLUSION_OUTCOMES : list case_outcome :=
  [no_reply_needed; spam; duplicate].
Definition RESOLUTION_OUTCOMES : list case_outcome :=
  [handled; no_reply_needed; spam; duplicate; other].

(** SET clauses. *)
Definition set_status (st : case_status) (at_ : Z) (r : case_row) : case_row :=
  mkCase r.(cc_id) r.(cc_contact_id) r.(cc_conversation_id) r.(cc_company_id) r.(cc_kind)
    st r.(cc_opened_at) r.(cc_opening_message_id) r.(cc_open_source) r.(cc_opened_by)
    r.(cc_policy_id) r.(cc_response_target_minutes) r.(cc_resolution_target_minutes)
    r.(cc_reopened_from_case_id) r.(cc_reopen_reason) r.(cc_resolved_at)
    r.(cc_resolved_by) r.(cc_resolution_outcome) r.(cc_resolution_notes)
    r.(cc_created_at) at_.

Definition set_resolution (resolved_at : Z) (by_ : string) (outcome : case_outcome)
    (notes : option jsstring) (at_ : Z) (r : case_row) : case_row :=
  mkCase r.(cc_id) r.(cc_contact_id) r.(cc_conversation_id) r.(cc_company_id) r.(cc_kind)
    resolved r.(cc_opened_at) r.(cc_opening_message_id) r.(cc_open_source) r.(cc_opened_by)
    r.(cc_policy_id) r.(cc_response_target_minutes) r.(cc_resolution_target_minutes)
    r.(cc_reopened_from_case_id) r.(cc_reopen_reason) (Some resolved_at)
    (Some by_) (Some outcome) notes r.(cc_created_at) at_.

(** [notes?.trim() || null] *)
Definition trimmed_or_null (notes : option jsstring) : option jsstring :=
  let t := trim <$> notes in if truthy t then t else None.

(** [ORDER BY created_at DESC, id DESC] *)
Definition newer_case (a b : case_row) : Prop :=
  (b.(cc_created_at) < a.(cc_created_at))%Z
  ∨ (a.(cc_created_at) = b.(cc_created_at) ∧ String.le b.(cc_id) a.(cc_id)).
#[export] Instance newer_case_dec : RelDecision newer_case.
Proof. intros a b. unfold newer_case. apply _. Defined.

(** [ORDER BY created_at DESC] *)
Definition not_older_case (a b : case_row) : Prop := (b.(cc_created_at) ≤ a.(cc_created_at))%Z.
#[export] Instance not_older_case_dec : RelDecision not_older_case.
Proof. intros a b. unfold not_older_case. apply _. Defined.

(** [ORDER BY seq DESC]: PostgreSQL sorts NULL first in descending order. *)
Definition later_message (a b : message_row) : Prop :=
  match a.(ms_seq), b.(ms_seq) with
  | None, _ => True
  | Some _, None => False
  | Some x, Some y => (y ≤ x)%Z
  end.
#[export] Instance later_message_dec : RelDecision later_message.
Proof. intros a b. unfold later_message. repeat case_match; apply _. Defined.

(** ** Locks and checks *)

(** [SELECT id ... FOR UPDATE]: the row lock serialises the transactions of one
    contact, so a transaction body runs as one step; the read remains. *)
Definition lockConversation (conversationId : string) : M unit :=
  conversation ← select_first conversations (λ r, bool_decide (r.(cv_id) = conversationId));
  match conversation with
  | None => throw (NotFoundError "Conversation")
  | Some _ => mret tt
  end.

Definition lockContact (contactId : string) : M unit :=
  contact ← select_first contacts (λ r, bool_decide (r.(ct_id) = contactId));
  match contact with
  | None => throw (NotFoundError "Contact")
  | Some _ => mret tt
  end.

Definition assert_owner (assignment : option assignment_row) (actorUserId : string) : M unit :=
  match assignment with
  | Some a =>
      if bool_decide (a.(ca_assigned_to) = actorUserId) then mret tt
      else throw (ContactAssignedToOtherError a.(ca_assigned_to))
  | None => mret tt
  end.

Definition assertActorOwnsContact (contactId actorUserId : string) : M unit :=
  assignment ← getCurrentAssignment contactId None;
  assert_owner assignment actorUserId.

Definition assertActorOwnsConversation (conversationId actorUserId : string) : M unit :=
  assignment ← getCurrentConversationAssignment conversationId;
  assert_owner assignment actorUserId.

(** ** Queries *)

Definition is_active (r : case_row) : bool := active r.(cc_status).
Definition of_contact (c : string) (r : case_row) : bool := is_id c r.(cc_contact_id).
Definition of_conversation (v : string) (r : case_row) : bool := is_id v r.(cc_conversation_id).
Definition of_either (x : string) (r : case_row) : bool := of_contact x r || of_conversation x r.

Definition getActiveCaseRow (contactId : string) : M (option case_row) :=
  select_first cases (λ r, of_either contactId r && is_active r).

Definition getActiveCase (contactId : string) : M (option ConversationCase) :=
  row ← getActiveCaseRow contactId; mret (toConversationCase <$> row).

Definition getMostRecentCase (contactId : string) : M (option ConversationCase) :=
  l ← select cases (of_either contactId);
  mret (toConversationCase <$> head (merge_sort newer_case l)).

Definition hasCaseHistory (contactId : string) : M bool :=
  row ← select_first cases (of_either contactId);
  mret (bool_decide (is_Some row)).

Definition resolveActiveCaseIdForContact (contactId : string) : M (option string) :=
  _ ← lockContact contactId;
  row ← select_first cases (λ r, of_contact contactId r && is_active r);
  mret (cc_id <$> row).

Definition resolveActiveCaseIdForConversation (conversationId : string) : M (option string) :=
  _ ← lockConversation conversationId;
  row ← select_first cases (λ r, of_conversation conversationId r && is_active r);
  mret (cc_id <$> row).

Definition requireActiveCaseForConversationSend (conversationId : string) : M string :=
  caseId ← resolveActiveCaseIdForConversation conversationId;
  match caseId with
  | Some (String _ _ as c) => mret c
  | _ => throw NoActiveCaseError
  end.

Definition requireActiveCaseForSend (contactId : string) : M string :=
  caseId ← resolveActiveCaseIdForContact contactId;
  match caseId with
  | Some (String _ _ as c) => mret c
  | _ => throw NoActiveCaseError
  end.

Definition hasUnansweredLatestTurn (activeCaseId : string) : M bool :=
  l ← select messages (λ m, is_id activeCaseId m.(ms_case_id));
  match head (merge_sort later_message l) with
  | Some m => mret (negb m.(ms_from_me))
  | None => mret false
  end.

Definition getConversationCaseHistory (contactId : string) : M (list ConversationCase) :=
  l ← select cases (of_contact contactId);
  mret (toConversationCase <$> merge_sort not_older_case l).

(** ** The projection row *)

(** A field of [ProjectionSync] that may be omitted: [None] is [undefined]. *)
Record ProjectionSync := mkSync {
  ps_activeCaseId : option string; ps_status : case_status;
  ps_resolvedAt : option (option Z); ps_resolvedBy : option (option string);
  ps_resolutionNotes : option (option jsstring);
  ps_reopenedAt : option (option Z); ps_reopenedBy : option (option string) }.

(** [{ activeCaseId, status }] with every other field omitted. *)
Definition sync_status (activeCaseId : option string) (st : case_status) : ProjectionSync :=
  mkSync activeCaseId st None None None None None.

(** [{ activeCaseId, status: "open", resolvedAt: null, resolvedBy: null,
       resolutionNotes: null, ...(reopened ? { reopenedAt, reopenedBy } : {}) }] *)
Definition sync_opened (activeCaseId : string) (reopened : bool) (at_ : Z)
    (by_ : option string) : ProjectionSync :=
  mkSync (Some activeCaseId) open (Some None) (Some None) (Some None)
    (if reopened then Some (Some at_) else None)
    (if reopened then Some by_ else None).

Definition sync_resolved (resolvedCase : case_row) : ProjectionSync :=
  mkSync None resolved (Some resolvedCase.(cc_resolved_at))
    (Some resolvedCase.(cc_resolved_by)) (Some resolvedCase.(cc_resolution_notes)) None None.

(** The SET clause of the two projection updates; [contact] and [conversation]
    are the identity columns to write, [None] leaving the column alone. *)
Definition apply_sync (contact conversation : option (option string)) (sync : ProjectionSync)
    (updated_at : Z) (r : state_row) : state_row :=
  mkState r.(cs_id) (default r.(cs_contact_id) contact)
    (default r.(cs_conversation_id) conversation)
    sync.(ps_activeCaseId) sync.(ps_status)
    (default r.(cs_resolved_at) sync.(ps_resolvedAt))
    (default r.(cs_resolved_by) sync.(ps_resolvedBy))
    (default r.(cs_resolution_notes) sync.(ps_resolutionNotes))
    (default r.(cs_reopened_at) sync.(ps_reopenedAt))
    (default r.(cs_reopened_by) sync.(ps_reopenedBy))
    r.(cs_created_at) updated_at r.(cs_activity).

Definition new_state (id : string) (contact conversation : option string)
    (sync : ProjectionSync) (created_at updated_at : Z) : state_row :=
  mkState id contact conversation sync.(ps_activeCaseId) sync.(ps_status)
    (default None sync.(ps_resolvedAt)) (default None sync.(ps_resolvedBy))
    (default None sync.(ps_resolutionNotes)) (default None sync.(ps_reopenedAt))
    (default None sync.(ps_reopenedBy)) created_at updated_at no_activity.

Definition state_of_contact (c : string) (r : state_row) : bool := is_id c r.(cs_contact_id).
Definition state_of_conversation (v : string) (r : state_row) : bool :=
  is_id v r.(cs_conversation_id).

Section operations.
Context `{Oracle}.

Definition syncProjection (contactId : string) (sync : ProjectionSync) : M unit :=
  conversation_id ← conversationIdForContact contactId;
  updated_at ← toDbDate;
  conversation_id' ← conversationIdForContact contactId;
  updated_at' ← toDbDate;
  id ← randomUUID; created_at ← db_now;
  insert_on_conflict_update states (state_of_contact contactId)
    (apply_sync None (Some conversation_id) sync updated_at)
    (new_state id (Some contactId) conversation_id' sync created_at updated_at').

Definition syncConversationProjection (conversationId : string) (contactId : option string)
    (sync : ProjectionSync) : M unit :=
  updated_at ← toDbDate;
  updated ← update states (state_of_conversation conversationId)
              (apply_sync (Some contactId) None sync updated_at);
  if (0 <? updated)%nat then mret tt
  else
    updated_at' ← toDbDate;
    id ← randomUUID; created_at ← db_now;
    insert_row states (new_state id contactId (Some conversationId) sync created_at updated_at').

(** ** Opening *)

(** The INSERT ... ON CONFLICT ... DO NOTHING RETURNING * of the four opening
    paths; [arbiter] is the partial unique index they name. *)
Definition insert_case (arbiter : case_row → bool) (contact conversation : option string)
    (companyId : string) (k : case_kind) (opened_at : Z) (opening_message_id : option string)
    (source : open_source) (opened_by : option string) (policy : policy_row)
    (prior : option string) (reason : option jsstring) : M (option case_row) :=
  let targets := resolveCaseTargets policy k in
  id ← randomUUID; now ← db_now;
  insert_on_conflict_nothing cases (λ r, arbiter r && is_active r)
    (mkCase id contact conversation companyId k open opened_at opening_message_id source
       opened_by policy.(sp_id) targets.1 targets.2 prior reason None None None None now now).

Record InboundResult := mkInboundResult {
  ir_case : ConversationCase; ir_wasAutoReopen : bool;
  ir_unassignedPreviousAssignee : option string }.

Record contact_arg := mkContactArg { ca_arg_id : string; ca_arg_isGroup : bool }.

Definition kind_of (isGroup : bool) : case_kind := if isGroup then group else direct.

(** [UPDATE messages SET case_id WHERE id] *)
Definition stamp_case (caseId messageId : string) : M unit :=
  _ ← update messages (λ m, bool_decide (m.(ms_id) = messageId))
        (λ m, mkMessage m.(ms_id) m.(ms_whatsapp_connection_id) m.(ms_contact_id)
           m.(ms_conversation_id) m.(ms_message_id) m.(ms_external_message_id)
           m.(ms_from_me) m.(ms_sender_jid) m.(ms_message_type) m.(ms_content)
           m.(ms_media_url) m.(ms_media_mime_type) m.(ms_file_name)
           m.(ms_quoted_message_id) m.(ms_sent_by_user_id) m.(ms_status)
           m.(ms_timestamp) m.(ms_created_at) (Some caseId) m.(ms_seq)
           m.(ms_channel_account_id) m.(ms_client_idempotency_key) m.(ms_reply_to_message_id)
           m.(ms_external_identity_scope) m.(ms_deleted_by_sender) m.(ms_deleted_at)
           m.(ms_neutral));
  mret tt.

(** Flip a pending case back to open, if it is still pending. *)
Definition flip_to_open (caseId : string) : M (option case_row) :=
  at_ ← toDbDate;
  l ← update_returning cases
        (λ r, bool_decide (r.(cc_id) = caseId) && bool_decide (r.(cc_status) = pending))
        (set_status open at_);
  mret (head l).

(** The two inbound functions differ in their keys; these are the branches they
    share.  A new case was inserted: clear the assignment of an automatic reopen
    and point the projection at the case. *)
Definition inbound_created (currentAssignment : M (option assignment_row)) (unassign : M unit)
    (sync : ProjectionSync → M unit) (isReopen : bool) (serverNow : Z) (newCase : case_row)
    : M (option InboundResult * option string) :=
  unassignedPreviousAssignee ←
    (if isReopen then
       priorAssignment ← currentAssignment;
       match priorAssignment with
       | Some a => _ ← unassign; mret (Some a.(ca_assigned_to))
       | None => mret None
       end
     else mret None);
  _ ← sync (sync_opened newCase.(cc_id) isReopen serverNow None);
  mret (Some (mkInboundResult (toConversationCase newCase) isReopen unassignedPreviousAssignee),
        Some newCase.(cc_id)).

(** A case was already active: flip it back from pending, or heal the
    projection; [reread] is the second read of the active case. *)
Definition inbound_existing (sync : ProjectionSync → M unit)
    (activeCase : option ConversationCase) (reread : M (option ConversationCase))
    : M (option InboundResult * option string) :=
  flipped ←
    match activeCase with
    | Some c =>
        if bool_decide (c.(status) = pending) then
          updated ← flip_to_open c.(id);
          match updated with
          | Some u =>
              _ ← sync (sync_status (Some c.(id)) open);
              mret (Some (mkInboundResult (toConversationCase u) false None, c.(id)))
          | None => mret None
          end
        else mret None
    | None => mret None
    end;
  match flipped with
  | Some (res, caseId) => mret (Some res, Some caseId)
  | None =>
      current ← (match activeCase with Some c => mret (Some c) | None => reread end);
      match current with
      | Some c =>
          _ ← sync (sync_status (Some c.(id)) c.(status));
          mret (None, Some c.(id))
      | None => mret (None, None)
      end
  end.

Definition stamp_final (finalCaseId : option string) (messageId : string) : M unit :=
  match finalCaseId with
  | Some caseId => stamp_case caseId messageId
  | None => mret tt
  end.

Definition openOrReopenCaseForInboundMessage (companyId : string) (contact : contact_arg)
    (messageId : string) : M (option InboundResult) :=
  let cid := contact.(ca_arg_id) in
  _ ← lockContact cid;
  conversationId ← conversationIdForContact cid;
  serverNow ← toDbDate;
  let k := kind_of contact.(ca_arg_isGroup) in
  policy ← getCurrentSlaPolicy companyId;
  existingProjection ← select_first states (state_of_contact cid);
  let isReopen := bool_decide (cs_status <$> existingProjection = Some resolved) in
  priorCase ← (if isReopen then getMostRecentCase cid else mret None);
  inserted ← insert_case (of_contact cid) (Some cid) conversationId companyId k serverNow
               (Some messageId) live_inbound None policy (id <$> priorCase) None;
  outcome ←
    match inserted with
    | Some newCase =>
        inbound_created (getCurrentAssignment cid None) (unassignContact cid)
          (syncProjection cid) isReopen serverNow newCase
    | None =>
        activeCase ← getActiveCase cid;
        inbound_existing (syncProjection cid) activeCase (getActiveCase cid)
    end;
  _ ← stamp_final outcome.2 messageId;
  mret outcome.1.

Definition openOrReopenCaseForInboundConversation (companyId conversationId : string)
    (contactId : option string) (isGroup : bool) (messageId : string)
    : M (option InboundResult) :=
  _ ← lockConversation conversationId;
  serverNow ← toDbDate;
  let k := kind_of isGroup in
  policy ← getCurrentSlaPolicy companyId;
  existingProjection ← select_first states (state_of_conversation conversationId);
  let isReopen := bool_decide (cs_status <$> existingProjection = Some resolved) in
  priorCase ←
    (if isReopen then
       l ← select cases (of_conversation conversationId);
       mret (head (merge_sort newer_case l))
     else mret None);
  inserted ← insert_case (of_conversation conversationId) contactId (Some conversationId)
               companyId k serverNow (Some messageId) live_inbound None policy
               (cc_id <$> priorCase) None;
  outcome ←
    match inserted with
    | Some newCase =>
        inbound_created (getCurrentConversationAssignment conversationId)
          (unassignConversation conversationId)
          (syncConversationProjection conversationId contactId) isReopen serverNow newCase
    | None =>
        activeCase ← select_first cases (λ r, of_conversation conversationId r && is_active r);
        inbound_existing (syncConversationProjection conversationId contactId)
          (toConversationCase <$> activeCase) (mret None)
    end;
  _ ← stamp_final outcome.2 messageId;
  mret outcome.1.

(** ** Manual transitions

    The contact functions and their conversation counterparts have the same
    body over different keys; a [scope] is what differs: the lock, the current
    assignment, the rows the UPDATE and the INSERT's arbiter select, the
    identity columns of an inserted case and the projection to write. *)

Record scope := mkScope {
  sc_id : string;
  sc_lock : M unit;
  sc_assertActorOwns : string → M unit;
  sc_rows : case_row → bool;
  sc_columns : M (option string * option string);
  sc_sync : ProjectionSync → M unit }.

Definition contact_scope (contactId : string) : scope :=
  mkScope contactId (lockContact contactId) (assertActorOwnsContact contactId)
    (of_contact contactId)
    (conversationId ← conversationIdForContact contactId;
     mret (Some contactId, conversationId))
    (syncProjection contactId).

Definition conversation_scope (conversationId : string) : scope :=
  mkScope conversationId (lockConversation conversationId)
    (assertActorOwnsConversation conversationId)
    (of_conversation conversationId)
    (mret (None, Some conversationId))
    (syncConversationProjection conversationId None).

Record ResolveCaseInput := mkResolveInput {
  ri_outcome : case_outcome; ri_notes : option jsstring; ri_resolvedBy : string }.

Definition resolve_in (sc : scope) (input : ResolveCaseInput) : M ConversationCase :=
  if bool_decide (input.(ri_outcome) = other) && negb (truthy (trim <$> input.(ri_notes)))
  then throw (ValidationError "Notes are required when the outcome is 'other'")
  else transaction (
    _ ← sc.(sc_lock);
    _ ← sc.(sc_assertActorOwns) input.(ri_resolvedBy);
    active ← getActiveCase sc.(sc_id);
    match active with
    | None => throw (ConflictError "This conversation has no active case to resolve")
    | Some active =>
        unanswered ← (if bool_decide (input.(ri_outcome) = handled)
                      then hasUnansweredLatestTurn active.(id) else mret false);
        if (unanswered : bool)
        then throw (ValidationError "'handled' requires a team reply to the latest inbound message - choose no_reply_needed, spam, or duplicate, or 'other' with notes")
        else
          resolvedAt ← toDbDate;
          updated_at ← toDbDate;
          updated ← update_returning cases
            (λ r, bool_decide (r.(cc_id) = active.(id)) && is_active r)
            (set_resolution resolvedAt input.(ri_resolvedBy) input.(ri_outcome)
               (trimmed_or_null input.(ri_notes)) updated_at);
          match head updated with
          | None => throw (ConflictError "This conversation's active case changed before the resolve could be applied")
          | Some resolvedCase =>
              _ ← sc.(sc_sync) (sync_resolved resolvedCase);
              mret (toConversationCase resolvedCase)
          end
    end).

Definition resolveActiveCase (contactId : string) (input : ResolveCaseInput)
    : M ConversationCase := resolve_in (contact_scope contactId) input.
Definition resolveActiveCaseForConversation (conversationId : string)
    (input : ResolveCaseInput) : M ConversationCase :=
  resolve_in (conversation_scope conversationId) input.

(** The status flip shared by the pending and resume transitions. *)
Definition flip_in (sc : scope) (actorUserId : string) (from to : case_status)
    (changed missing : string) : M ConversationCase :=
  transaction (
    _ ← sc.(sc_lock);
    _ ← sc.(sc_assertActorOwns) actorUserId;
    at_ ← toDbDate;
    updated ← update_returning cases
      (λ r, sc.(sc_rows) r && bool_decide (r.(cc_status) = from)) (set_status to at_);
    match head updated with
    | Some flippedCase =>
        _ ← sc.(sc_sync) (sync_status (Some flippedCase.(cc_id)) to);
        mret (toConversationCase flippedCase)
    | None =>
        current ← getActiveCase sc.(sc_id);
        match current with
        | Some c =>
            if bool_decide (c.(status) = to) then mret c else throw (ConflictError changed)
        | None => throw (ConflictError missing)
        end
    end).

Definition pending_in (sc : scope) (actorUserId : string) : M ConversationCase :=
  flip_in sc actorUserId open pending
    "This conversation's active case changed before it could be marked pending"
    "This conversation has no active case to mark pending".
Definition resume_in (sc : scope) (actorUserId : string) : M ConversationCase :=
  flip_in sc actorUserId pending open
    "This conversation's active case changed before it could be resumed"
    "This conversation has no active case to resume".

Definition setActiveCasePending (contactId actorUserId : string) : M ConversationCase :=
  pending_in (contact_scope contactId) actorUserId.
Definition setActiveCasePendingForConversation (conversationId actorUserId : string)
    : M ConversationCase := pending_in (conversation_scope conversationId) actorUserId.
Definition resumePendingCase (contactId actorUserId : string) : M ConversationCase :=
  resume_in (contact_scope contactId) actorUserId.
Definition resumePendingCaseForConversation (conversationId actorUserId : string)
    : M ConversationCase := resume_in (conversation_scope conversationId) actorUserId.

Inductive open_mode := mode_open | mode_reopen.

Record ManualOpenCaseInput := mkOpenInput {
  oi_companyId : string; oi_openedBy : string;
  oi_reason : option jsstring; oi_expectedMode : open_mode }.

(** Everything after the check of the expected mode. *)
Definition open_after_mode_check (sc : scope) (isGroup : bool) (input : ManualOpenCaseInput)
    (priorCase : option ConversationCase) : M ConversationCase :=
  if bool_decide (is_Some priorCase) && negb (truthy (trim <$> input.(oi_reason)))
  then throw (ValidationError "A reason is required to reopen a previously-closed conversation")
  else
    let k := kind_of isGroup in
    policy ← getCurrentSlaPolicy input.(oi_companyId);
    openedAt ← toDbDate;
    let reason := trimmed_or_null input.(oi_reason) in
    columns ← sc.(sc_columns);
    inserted ← insert_case sc.(sc_rows) columns.1 columns.2 input.(oi_companyId) k
                 openedAt None manual (Some input.(oi_openedBy)) policy
                 (id <$> priorCase) reason;
    match inserted with
    | None => throw (ConflictError "This conversation already has an active case")
    | Some created =>
        _ ← sc.(sc_sync) (sync_opened created.(cc_id) (bool_decide (is_Some priorCase))
               created.(cc_opened_at) (Some input.(oi_openedBy)));
        mret (toConversationCase created)
    end.

Definition open_within (sc : scope) (isGroup : bool) (input : ManualOpenCaseInput)
    : M ConversationCase :=
  _ ← sc.(sc_lock);
  _ ← sc.(sc_assertActorOwns) input.(oi_openedBy);
  priorCase ← getMostRecentCase sc.(sc_id);
  match input.(oi_expectedMode), priorCase with
  | mode_open, Some _ =>
      throw (ConflictError "This conversation already has prior case history - use Reopen instead of Open")
  | mode_reopen, None =>
      throw (ConflictError "This conversation has no prior case history - use Open instead of Reopen")
  | _, _ => open_after_mode_check sc isGroup input priorCase
  end.

Definition openCaseWithin (contact : contact_arg) (input : ManualOpenCaseInput)
    : M ConversationCase :=
  open_within (contact_scope contact.(ca_arg_id)) contact.(ca_arg_isGroup) input.

Definition reopenAsNewCase (contact : contact_arg) (input : ManualOpenCaseInput)
    : M ConversationCase := transaction (openCaseWithin contact input).

Definition reopenAsNewCaseForConversation (conversation : contact_arg)
    (input : ManualOpenCaseInput) : M ConversationCase :=
  transaction (open_within (conversation_scope conversation.(ca_arg_id))
                 conversation.(ca_arg_isGroup) input).

Definition ensureActiveCaseWithin (contact : contact_arg) (companyId openedBy : string)
    (reason : jsstring) : M string :=
  activeCaseId ← resolveActiveCaseIdForContact contact.(ca_arg_id);
  match activeCaseId with
  | Some (String _ _ as c) => mret c
  | _ =>
      priorCase ← getMostRecentCase contact.(ca_arg_id);
      opened ← openCaseWithin contact
        (mkOpenInput companyId openedBy
           (match priorCase with Some _ => Some reason | None => None end)
           (match priorCase with Some _ => mode_reopen | None => mode_open end));
      mret opened.(id)
  end.

End operations.

(** ** Dispatch of the lifecycle routes (routes/conversations/state.ts)

    A route's id names a contact or a conversation; the case of a conversation
    that bridges a contact is the contact's.  The audit log and the broadcasts
    that follow are not modelled: they write no tenant table. *)

Section routes.
Context `{Oracle}.

Definition on_thread {A} (id : string) (on_contact on_conversation : contact_arg → M A) : M A :=
  identity ← resolveWorkflowIdentity id;
  match identity with
  | None => throw (NotFoundError "Conversation")
  | Some identity =>
      match identity.(wi_contactId), identity.(wi_conversationId) with
      | Some (String _ _ as c), _ => on_contact (mkContactArg c identity.(wi_isGroup))
      | _, Some v => on_conversation (mkContactArg v identity.(wi_isGroup))
      | _, None => throw (OtherError "conversationId is null")
      end
  end.

Definition resolveRoute (id : string) (input : ResolveCaseInput) : M ConversationCase :=
  on_thread id (λ c, resolveActiveCase c.(ca_arg_id) input)
               (λ v, resolveActiveCaseForConversation v.(ca_arg_id) input).

Definition pendingRoute (id userId : string) : M ConversationCase :=
  on_thread id (λ c, setActiveCasePending c.(ca_arg_id) userId)
               (λ v, setActiveCasePendingForConversation v.(ca_arg_id) userId).

Definition resumeRoute (id userId : string) : M ConversationCase :=
  on_thread id (λ c, resumePendingCase c.(ca_arg_id) userId)
               (λ v, resumePendingCaseForConversation v.(ca_arg_id) userId).

Definition performManualOpenOrReopen (id : string) (input : ManualOpenCaseInput)
    : M ConversationCase :=
  on_thread id (λ c, reopenAsNewCase c input) (λ v, reopenAsNewCaseForConversation v input).
End routes.
