(* ===== verification/SendAccess.v ===== *)
(** Who may send to a thread.

    Models send-access.service.ts: the guard of every outbound action with an
    acting user.  Under the row lock of the contact or conversation it refuses a
    blocked contact and a thread assigned to someone else, claims an unassigned
    thread for the sender, and returns the active case the message belongs to. *)

From S2P Require Import Prelude Js TenantDb Exec Workflow Cases.

Section send_access.
Context `{Oracle}.

Record SendAccess := mkSendAccess { sa_caseId : string; sa_autoAssigned : bool }.

(** [options.claimUnassigned ?? true] *)
Definition requireSendAccess (contactId userId : string) (claimUnassigned : option bool)
    : M SendAccess :=
  let claimUnassigned := default true claimUnassigned in
  contact ← select_first contacts (λ r, bool_decide (r.(ct_id) = contactId));
  match contact with
  | None => throw (NotFoundError "Contact")
  | Some contact =>
      if contact.(ct_is_blocked) then throw ContactBlockedError
      else
        assignment ← getCurrentAssignment contactId None;
        _ ← assert_owner assignment userId;
        autoAssigned ←
          (match assignment with
           | None =>
               if (claimUnassigned : bool)
               then _ ← assignContactToUser contactId userId userId; mret true
               else mret false
           | Some _ => mret false
           end);
        caseId ← requireActiveCaseForSend contactId;
        mret (mkSendAccess caseId autoAssigned)
  end.

Definition requireConversationSendAccess (conversationId userId : string)
    (claimUnassigned : option bool) : M SendAccess :=
  conversation ← select_first conversations (λ r, bool_decide (r.(cv_id) = conversationId));
  match conversation with
  | None => throw (NotFoundError "Conversation")
  | Some conversation =>
      if bool_decide (is_Some conversation.(cv_archived_at))
      then throw (NotFoundError "Conversation")
      else
        match conversation.(cv_legacy_contact_id) with
        | Some (String _ _ as c) => requireSendAccess c userId claimUnassigned
        | _ =>
            assignment ← getCurrentConversationAssignment conversationId;
            _ ← assert_owner assignment userId;
            autoAssigned ←
              (match assignment with
               | None =>
                   if default true claimUnassigned
                   then _ ← assignConversationToUser conversationId userId userId; mret true
                   else mret false
               | Some _ => mret false
               end);
            caseId ← requireActiveCaseForConversationSend conversationId;
            mret (mkSendAccess caseId autoAssigned)
        end
  end.
End send_access.
