(* ===== verification/Phase.v ===== *)
(** The lifecycle of a conversation: abstract specification and invariant.

    A thread (a contact, or a conversation without a contact) is in one phase:
    never worked on, live with one active case, or closed.  [phase_of] reads it
    from the rows of conversation_cases; the row of conversation_states is a
    projection that must mirror it ([mirrors]).  [Inv] collects what the
    operations rely on, [advance] what each of them does to a thread, and the
    lemmas reduce [advance] to the two writes an operation makes: its change of
    the cases, then the projection ([synced]). *)

From S2P Require Import Prelude Js TenantDb Exec Workflow Cases.

(** ** The abstract lifecycle *)

Inductive phase := Never | Live (caseId : string) (st : case_status) | Closed.

Inductive lstep : phase → phase → Prop :=
| lstep_open i : lstep Never (Live i open)
| lstep_reopen i : lstep Closed (Live i open)
| lstep_pending i : lstep (Live i open) (Live i pending)
| lstep_resume i : lstep (Live i pending) (Live i open)
| lstep_resolve i st : active st = true → lstep (Live i st) Closed.

(** A projection row as (active_case_id, status). 061 closed the conversations it
    found without a case row, so an untouched thread may have a resolved row. *)
Definition mirrors (p : phase) (proj : option (option string * case_status)) : Prop :=
  match p with
  | Never => proj = None ∨ proj = Some (None, resolved)
  | Closed => proj = Some (None, resolved)
  | Live i st => proj = Some (Some i, st)
  end.

(** ** The concrete phase of a thread *)

Definition thread_of (contact conversation : option string) : option string :=
  match contact with Some c => Some c | None => conversation end.

Definition case_of (x : string) (r : case_row) : bool :=
  is_id x (thread_of r.(cc_contact_id) r.(cc_conversation_id)).
Definition state_of (x : string) (r : state_row) : bool :=
  is_id x (thread_of r.(cs_contact_id) r.(cs_conversation_id)).

Definition phase_in (x : string) (l : list case_row) : phase :=
  match first (λ r, case_of x r && is_active r) l with
  | Some k => Live k.(cc_id) k.(cc_status)
  | None => if holds_any (case_of x) l then Closed else Never
  end.

Definition projection_in (x : string) (l : list state_row)
    : option (option string * case_status) :=
  (λ r, (r.(cs_active_case_id), r.(cs_status))) <$> first (state_of x) l.

Definition phase_of (x : string) (t : tables) : phase := phase_in x (t_cases t).
Definition projection_of (x : string) (t : tables) := projection_in x (t_states t).

(** ** Invariant *)

Definition bridge (c : string) (t : tables) : option string :=
  cv_id <$> first (λ r, is_id c r.(cv_legacy_contact_id)
                        && bool_decide (r.(cv_archived_at) = None)) (t_conversations t).

(** Keys of the contacts and conversations tables.  A conversation of the linked device has
    the id of the contact that it bridges (shadow.ts); no other id is shared. *)
Record directory_ok (t : tables) : Prop := {
  dir_conversation_ids : ∀ v w, v ∈ t_conversations t → w ∈ t_conversations t →
    v.(cv_id) = w.(cv_id) → v = w;
  dir_shared : ∀ c v, c ∈ t_contacts t → v ∈ t_conversations t → c.(ct_id) = v.(cv_id) →
    v.(cv_legacy_contact_id) = Some c.(ct_id);
  dir_legacy_unique : ∀ v w c, v ∈ t_conversations t → w ∈ t_conversations t →
    v.(cv_legacy_contact_id) = Some c → w.(cv_legacy_contact_id) = Some c → v = w;
  dir_legacy_contact : ∀ v c, v ∈ t_conversations t → v.(cv_legacy_contact_id) = Some c →
    ∃ r, r ∈ t_contacts t ∧ r.(ct_id) = c;
  dir_ids : ∀ c, c ∈ t_contacts t → c.(ct_id) ≠ "" }.

(** The identity columns of a workflow row: a contact with the conversation that
    bridges it, or a conversation that bridges no contact. *)
Definition keys_ok (t : tables) (contact conversation : option string) : Prop :=
  match contact with
  | Some c => (∃ r, r ∈ t_contacts t ∧ r.(ct_id) = c) ∧ conversation = bridge c t
  | None => ∃ v, v ∈ t_conversations t ∧ v.(cv_legacy_contact_id) = None
                 ∧ conversation = Some v.(cv_id)
  end.

Definition assignments_ok (t : tables) : Prop :=
  constraint assignments (t_assignments t) = None
  ∧ ∀ a, a ∈ t_assignments t → keys_ok t a.(ca_contact_id) a.(ca_conversation_id).

Record Inv (t : tables) : Prop := {
  inv_directory : directory_ok t;
  inv_case_keys : ∀ k, k ∈ t_cases t → keys_ok t k.(cc_contact_id) k.(cc_conversation_id);
  inv_state_keys : ∀ r, r ∈ t_states t → keys_ok t r.(cs_contact_id) r.(cs_conversation_id);
  inv_cases : case_constraint (t_cases t) = None;
  inv_states : constraint states (t_states t) = None;
  inv_assignments : assignments_ok t;
  inv_mirror : ∀ x, mirrors (phase_of x t) (projection_of x t) }.

(** ** Phases of row lists *)

Section phases.
Implicit Types (l : list case_row) (k : case_row) (f : case_row → case_row).

Lemma case_of_eq x k : case_of x k = true ↔ thread_of k.(cc_contact_id) k.(cc_conversation_id) = Some x.
Proof. apply bool_decide_eq_true. Qed.

Lemma is_id_eq x o : is_id x o = true ↔ o = Some x.
Proof. apply bool_decide_eq_true. Qed.

(** A live thread: its active case. *)
Lemma phase_live x l k :
  k ∈ l → case_of x k = true → is_active k = true →
  (∀ k', k' ∈ l → case_of x k' = true → is_active k' = true → k' = k) →
  phase_in x l = Live k.(cc_id) k.(cc_status).
Proof.
  intros Hk Hx Ha Hu. unfold phase_in.
  rewrite (first_unique _ l k); [done..|by rewrite Hx, Ha|].
  intros y Hy [??]%andb_true_iff. by apply Hu.
Qed.

Lemma phase_closed x l k :
  k ∈ l → case_of x k = true →
  (∀ k', k' ∈ l → case_of x k' = true → is_active k' = false) →
  phase_in x l = Closed.
Proof.
  intros Hk Hx Hn. unfold phase_in.
  replace (first _ l) with (@None case_row).
  - replace (holds_any (case_of x) l) with true; [done|].
    symmetry. rewrite holds_any_true. eauto.
  - symmetry. apply first_None. intros y Hy.
    destruct (case_of x y) eqn:E; [|done]. by apply Hn.
Qed.

Lemma phase_Live_inv x l i st :
  phase_in x l = Live i st →
  ∃ k, k ∈ l ∧ case_of x k = true ∧ is_active k = true ∧ k.(cc_id) = i ∧ k.(cc_status) = st.
Proof.
  unfold phase_in. destruct (first _ l) as [k|] eqn:E; [|by destruct (holds_any _ l)].
  intros [= <- <-]. apply first_Some in E as [? [??]%andb_true_iff]. eauto 6.
Qed.

Lemma phase_not_live x l :
  (∀ i st, phase_in x l ≠ Live i st) ↔ first (λ r, case_of x r && is_active r) l = None.
Proof.
  unfold phase_in. destruct (first _ l) as [k|]; [|by destruct (holds_any _ l)].
  split; [|done]. intros Hn. by destruct (Hn k.(cc_id) k.(cc_status)).
Qed.

(** The other threads' rows keep their phase. *)
Lemma phase_app_other x l k : case_of x k = false → phase_in x (l ++ [k]) = phase_in x l.
Proof.
  intros Hx. unfold phase_in. rewrite first_app.
  unfold holds_any. rewrite existsb_app. cbn. rewrite Hx. cbn.
  rewrite orb_false_r.
  destruct (first _ l) eqn:E; [done|]. unfold first. rewrite keep_cons, Hx. done.
Qed.

Lemma phase_update_other x p f l :
  (∀ k, k ∈ l → p k = true → case_of x k = false ∧ case_of x (f k) = false) →
  phase_in x (update_where p f l) = phase_in x l.
Proof.
  intros Hp. unfold phase_in, first.
  rewrite keep_update_where_frame
    by (intros k Hk Hpk; destruct (Hp k Hk Hpk) as [-> ->]; done).
  destruct (head _); [done|].
  replace (holds_any (case_of x) (update_where p f l)) with (holds_any (case_of x) l); [done|].
  apply eq_true_iff_eq. rewrite !holds_any_true. split.
  - intros (k & Hk & Hx). exists k. split; [|done].
    apply elem_of_update_where. exists k. split; [done|].
    destruct (p k) eqn:E; [|done]. destruct (Hp k Hk E). congruence.
  - intros (k & (y & Hy & ->)%elem_of_update_where & Hx). exists y. split; [done|].
    destruct (p y) eqn:E; [|done]. destruct (Hp y Hy E). congruence.
Qed.

(** Opening a case of a thread without an active one. *)
Lemma phase_open x l k :
  case_of x k = true → is_active k = true →
  (∀ k', k' ∈ l → case_of x k' = true → is_active k' = false) →
  phase_in x (l ++ [k]) = Live k.(cc_id) k.(cc_status).
Proof.
  intros Hx Ha Hn. apply phase_live; [apply elem_of_app; right; by left|done|done|].
  intros k' [Hk'|Hk']%elem_of_app Hx' Ha'; [|by apply list_elem_of_singleton in Hk'].
  rewrite (Hn k') in Ha'; done.
Qed.

(** Rewriting the one active case of a thread. *)
Lemma phase_update x p f l k :
  k ∈ l → case_of x k = true →
  (∀ k', k' ∈ l → p k' = true ↔ k' = k) →
  (∀ k', k' ∈ l → case_of x k' = true → is_active k' = true → k' = k) →
  case_of x (f k) = true → (f k).(cc_id) = k.(cc_id) →
  phase_in x (update_where p f l)
  = if is_active (f k) then Live k.(cc_id) (f k).(cc_status) else Closed.
Proof.
  intros Hk Hx Hp Hu Hfx Hid.
  assert (Hin : f k ∈ update_where p f l).
  { apply elem_of_update_where. exists k. split; [done|].
    by replace (p k) with true by (symmetry; by apply Hp). }
  assert (Hall : ∀ k', k' ∈ update_where p f l → case_of x k' = true →
            is_active k' = true → k' = f k).
  { intros k' (y & Hy & ->)%elem_of_update_where.
    destruct (p y) eqn:E; [apply Hp in E as ->; done|]. intros Hxy Hay.
    rewrite (Hu y Hy Hxy Hay) in E.
    assert (p k = true) by (by apply Hp). congruence. }
  destruct (is_active (f k)) eqn:Ha.
  - rewrite <- Hid. by apply phase_live.
  - apply (phase_closed x _ (f k)); [done..|]. intros k' Hk' Hx'.
    destruct (is_active k') eqn:E; [|done]. rewrite (Hall k') in E; congruence.
Qed.
End phases.

(** ** Which rows an operation selects *)

Definition is_contact (c : string) (t : tables) : Prop := ∃ r, r ∈ t_contacts t ∧ r.(ct_id) = c.
Definition is_conversation (v : string) (t : tables) (linked : option string) : Prop :=
  ∃ r, r ∈ t_conversations t ∧ r.(cv_id) = v ∧ r.(cv_legacy_contact_id) = linked
       ∧ r.(cv_archived_at) = None.
(** A conversation without a contact, archived or not. *)
Definition is_thread_conversation (v : string) (t : tables) : Prop :=
  ∃ r, r ∈ t_conversations t ∧ r.(cv_id) = v ∧ r.(cv_legacy_contact_id) = None.

Section selection.
Context (t : tables) (Hdir : directory_ok t).

Lemma bridge_Some c v :
  bridge c t = Some v ↔ is_conversation v t (Some c).
Proof using Hdir.
  unfold bridge, is_conversation. split.
  - intros Hb. destruct (first _ _) as [r|] eqn:E; [|done]. injection Hb as <-.
    apply first_Some in E as [Hr Ha]. apply andb_true_iff in Ha as [Hc Ha].
    apply is_id_eq in Hc. to_prop. eauto.
  - intros (r & Hr & <- & Hc & Ha).
    rewrite (first_unique _ _ r); [done|done| |].
    + apply andb_true_iff. rewrite is_id_eq. by rewrite Ha.
    + intros w Hw [Hcw%is_id_eq _]%andb_true_iff. by eapply (dir_legacy_unique t Hdir).
Qed.

Lemma dir_unlinked c v :
  c ∈ t_contacts t → v ∈ t_conversations t → v.(cv_legacy_contact_id) = None → c.(ct_id) ≠ v.(cv_id).
Proof using Hdir. intros Hc Hv Hl Heq. apply (dir_shared t Hdir c v Hc Hv) in Heq. congruence. Qed.

Lemma keys_of_contact c contact conversation :
  is_contact c t → keys_ok t contact conversation →
  is_id c contact = is_id c (thread_of contact conversation).
Proof using Hdir.
  intros (r & Hr & <-) Hk. destruct contact as [c'|]; [done|]. cbn.
  destruct Hk as (v & Hv & Hl & ->). symmetry.
  apply bool_decide_eq_false. intros [= Heq]. by apply (dir_unlinked r v).
Qed.

(** A row of a conversation that has a contact's id is a row of that contact. *)
Lemma keys_conversation_contact c contact conversation :
  is_contact c t → keys_ok t contact conversation → is_id c conversation = true → is_id c contact = true.
Proof using Hdir.
  intros (r & Hr & <-) Hk. rewrite !is_id_eq. intros ->. destruct contact as [c'|].
  - destruct Hk as [_ Hb]. symmetry in Hb. apply bridge_Some in Hb as (v & Hv & Heq & Hl & _).
    symmetry in Heq. apply (dir_shared t Hdir r v Hr Hv) in Heq. congruence.
  - destruct Hk as (v & Hv & Hl & [= Heq]). by destruct (dir_unlinked r v Hr Hv Hl).
Qed.

Lemma keys_of_conversation v contact conversation :
  is_thread_conversation v t → keys_ok t contact conversation →
  is_id v conversation = is_id v (thread_of contact conversation).
Proof using Hdir.
  intros (r & Hr & <- & Hl) Hk. destruct contact as [c|]; [|done]. cbn.
  destruct Hk as [(q & Hq & <-) ->].
  transitivity false; [|symmetry]; apply bool_decide_eq_false.
  - intros (w & Hw & Heq & Hlw & _)%bridge_Some.
    apply (dir_conversation_ids t Hdir) in Heq as ->; [|done..]. congruence.
  - intros [= Heq]. by apply (dir_unlinked q r).
Qed.

Lemma keys_conversation_not_key v contact conversation :
  is_thread_conversation v t → keys_ok t contact conversation → is_id v contact = false.
Proof using Hdir.
  intros (r & Hr & <- & Hl) Hk. apply bool_decide_eq_false. intros ->.
  destruct Hk as [(q & Hq & Heq) _]. by apply (dir_unlinked q r).
Qed.

(** The rows of a bridging conversation are the rows of its contact. *)
Lemma keys_of_bridge v c contact conversation :
  is_conversation v t (Some c) → keys_ok t contact conversation →
  is_id v conversation = is_id c (thread_of contact conversation).
Proof using Hdir.
  intros Hv Hk. assert (Hb := Hv). apply bridge_Some in Hb.
  destruct Hv as (r & Hr & <- & Hl & Ha).
  destruct (dir_legacy_contact t Hdir r c Hr Hl) as (q & Hq & Hqc).
  apply eq_true_iff_eq. rewrite !is_id_eq.
  destruct contact as [c'|]; cbn.
  - destruct Hk as [_ ->]. split; [|intros [= ->]; done].
    intros (w & Hw & Heq & Hlw & _)%bridge_Some.
    apply (dir_conversation_ids t Hdir) in Heq as ->; [|done..]. congruence.
  - destruct Hk as (w & Hw & Hlw & ->). split; intros [= Heq].
    + apply (dir_conversation_ids t Hdir) in Heq as ->; [|done..]. congruence.
    + exfalso. apply (dir_unlinked q w Hq Hw Hlw). congruence.
Qed.
End selection.

(** A scope of the manual operations, tied to the thread it works on. *)
Inductive thread_kind := thread_contact | thread_conversation.
Definition thread_ok (k : thread_kind) (x : string) (t : tables) : Prop :=
  match k with
  | thread_contact => is_contact x t
  | thread_conversation => is_thread_conversation x t
  end.

Lemma case_selected k x t r :
  directory_ok t → thread_ok k x t → keys_ok t r.(cc_contact_id) r.(cc_conversation_id) →
  of_either x r = case_of x r
  ∧ match k with thread_contact => of_contact x r | thread_conversation => of_conversation x r end
    = case_of x r.
Proof.
  intros Hd Hx Hk. unfold of_either, of_contact, of_conversation, case_of. destruct k; cbn in Hx.
  - assert (Hc := keys_conversation_contact t Hd x _ _ Hx Hk). rewrite <- (keys_of_contact t Hd x _ _ Hx Hk).
    split; [|done]. destruct (is_id x r.(cc_conversation_id)); [|by rewrite orb_false_r]. by rewrite Hc.
  - rewrite (keys_conversation_not_key t Hd x _ _ Hx Hk).
    by rewrite (keys_of_conversation t Hd x _ _ Hx Hk).
Qed.

(** A conversation and the contact [linked] it bridges, if any: their thread. *)
Definition linked_thread (v : string) (linked : option string) (x : string) (t : tables) : Prop :=
  match linked with
  | None => x = v ∧ is_thread_conversation v t
  | Some c => x = c ∧ is_conversation v t (Some c)
  end.

Section linked.
Context (t : tables) (Hdir : directory_ok t) (v : string) (linked : option string) (x : string)
  (Hv : linked_thread v linked x t).

Lemma linked_selects contact conversation :
  keys_ok t contact conversation → is_id v conversation = is_id x (thread_of contact conversation).
Proof using Hdir Hv.
  intros Hk. destruct linked as [c|]; destruct Hv as [-> Hv'].
  - by apply (keys_of_bridge t Hdir).
  - by apply (keys_of_conversation t Hdir).
Qed.

Lemma linked_keys : keys_ok t linked (Some v).
Proof using Hdir Hv.
  destruct linked as [c|]; destruct Hv as [-> Hv']; cbn.
  - split; [|symmetry; by apply bridge_Some].
    destruct Hv' as (r & Hr & _ & Hl & _). by apply (dir_legacy_contact t Hdir r).
  - destruct Hv' as (r & Hr & <- & Hl). eauto.
Qed.

Lemma linked_thread_of : thread_of linked (Some v) = Some x.
Proof using Hv. by destruct linked; destruct Hv as [-> _]. Qed.
End linked.

(** ** The projection upsert *)

Section projection.
Implicit Types (l : list state_row) (r : state_row).

Lemma projection_app_other x l r : state_of x r = false → projection_in x (l ++ [r]) = projection_in x l.
Proof.
  intros Hx. unfold projection_in. rewrite first_app. destruct (first _ l); [done|].
  unfold first. by rewrite keep_cons, Hx.
Qed.

Lemma projection_app x l r :
  state_of x r = true → first (state_of x) l = None →
  projection_in x (l ++ [r]) = Some (r.(cs_active_case_id), r.(cs_status)).
Proof.
  intros Hx Hn. unfold projection_in. rewrite first_app, Hn.
  unfold first. by rewrite keep_cons, Hx.
Qed.

Lemma projection_update_other x p f l :
  (∀ r, r ∈ l → p r = true → state_of x r = false ∧ state_of x (f r) = false) →
  projection_in x (update_where p f l) = projection_in x l.
Proof. intros Hp. unfold projection_in, first. by rewrite keep_update_where_frame. Qed.
End projection.

(** [t'] is [t] with the projection of thread [x] set to [(active_, st)]. *)
Definition synced (x : string) (active_ : option string) (st : case_status) (t t' : tables) : Prop :=
  ∃ l, t' = set_rows states l t
  ∧ constraint states l = None
  ∧ (∀ r, r ∈ l → keys_ok t r.(cs_contact_id) r.(cs_conversation_id))
  ∧ projection_in x l = Some (active_, st)
  ∧ (∀ y, y ≠ x → projection_in y l = projection_in y (t_states t)).

Lemma synced_cases x a st t t' : synced x a st t t' → t_cases t' = t_cases t.
Proof. by intros (l & -> & _). Qed.

Lemma is_id_other x y o : is_id x o = true → y ≠ x → is_id y o = false.
Proof. rewrite is_id_eq. intros -> Hy. apply bool_decide_eq_false. congruence. Qed.

(** The keys of a row determine each other. *)
Lemma keys_ok_conversation t c v v' :
  keys_ok t (Some c) v → keys_ok t (Some c) v' → v = v'.
Proof. intros [_ ->] [_ ->]. done. Qed.

Lemma keys_ok_identity t c v : keys_ok t c v → identity_check c v = true.
Proof.
  destruct c; [done|]. intros (w & _ & _ & ->). done.
Qed.

(** Two rows with the same conversation have the same contact. *)
Lemma keys_ok_contact t c c' v :
  directory_ok t → keys_ok t c (Some v) → keys_ok t c' (Some v) → c = c'.
Proof.
  intros Hd.
  assert (Hmix : ∀ d, keys_ok t (Some d) (Some v) → keys_ok t None (Some v) → False).
  { intros d [_ Hb] (r' & Hr' & Hl' & [= Hid']). symmetry in Hb.
    apply (bridge_Some t Hd) in Hb as (r & Hr & Hrid & Hl & _).
    rewrite Hid' in Hrid. apply (dir_conversation_ids t Hd) in Hrid; [|done..]. congruence. }
  destruct c as [c|], c' as [c'|]; intros Hk Hk'; [|by destruct (Hmix c)|by destruct (Hmix c')|done].
  destruct Hk as [_ Hb], Hk' as [_ Hb']. symmetry in Hb, Hb'.
  apply (bridge_Some t Hd) in Hb as (r & Hr & Hrid & Hl & _).
  apply (bridge_Some t Hd) in Hb' as (r' & Hr' & Hrid' & Hl' & _).
  rewrite <- Hrid' in Hrid. apply (dir_conversation_ids t Hd) in Hrid; [|done..]. congruence.
Qed.

(** A row of another thread shares neither key. *)
Lemma keys_ok_fresh t x c v c' v' :
  directory_ok t → keys_ok t c v → keys_ok t c' v' →
  is_id x (thread_of c v) = true → is_id x (thread_of c' v') = false →
  (is_Some c' → c' ≠ c) ∧ (is_Some v' → v' ≠ v).
Proof.
  intros Hd Hk Hk' Hx Hx'. split.
  - intros [y ->] <-. cbn in *. congruence.
  - intros [w ->] <-. rewrite (keys_ok_contact t c c' w) in Hx by done. congruence.
Qed.

Section sync.
Context (t : tables) (Hdir : directory_ok t)
  (Hkeys : ∀ r, r ∈ t_states t → keys_ok t r.(cs_contact_id) r.(cs_conversation_id))
  (Hst : constraint states (t_states t) = None).

(** Neither branch of the upsert can violate a constraint. *)
Lemma states_insert_ok x r :
  state_of x r = true → keys_ok t r.(cs_contact_id) r.(cs_conversation_id) →
  first (state_of x) (t_states t) = None →
  constraint states (t_states t ++ [r]) = None.
Proof using Hdir Hkeys Hst.
  intros Hx Hk Hn. revert Hst. unfold constraint, states. rewrite !checks_cons.
  intros (Hi & Huc & Huv & _).
  assert (Hf : ∀ r', r' ∈ t_states t →
    (is_Some r'.(cs_contact_id) → r'.(cs_contact_id) ≠ r.(cs_contact_id))
    ∧ (is_Some r'.(cs_conversation_id) → r'.(cs_conversation_id) ≠ r.(cs_conversation_id))).
  { intros r' Hr'. apply (keys_ok_fresh t x); [done|done|by apply Hkeys|done|].
    by apply (proj1 (first_None (state_of x) _) Hn). }
  split_and!; [apply forallb_snoc; [done|by eapply keys_ok_identity]|apply unique_on_app..|done];
    try done; intros r' Hr' Hs; by apply (Hf r' Hr').
Qed.

Lemma states_update_ok p f :
  (∀ r, r ∈ t_states t → p r = true →
     (f r).(cs_contact_id) = r.(cs_contact_id) ∧ (f r).(cs_conversation_id) = r.(cs_conversation_id)) →
  constraint states (update_where p f (t_states t)) = None.
Proof using Hst.
  intros Hf. revert Hst. unfold constraint, states. rewrite !checks_cons.
  intros (Hi & Huc & Huv & _). split_and!; [|apply unique_on_update; [done|]..|done].
  - apply forallb_update; [done|]. intros r Hr Hc Hp. by destruct (Hf r Hr Hp) as [-> ->].
  - intros r Hr Hp. left. by apply Hf.
  - intros r Hr Hp. left. by apply Hf.
Qed.

(** Updating the rows of [x], or inserting one when there is none. *)
Lemma synced_update x active_ st p f :
  (∀ r, r ∈ t_states t → p r = state_of x r) →
  (∀ r, r ∈ t_states t → state_of x r = true →
     state_of x (f r) = true ∧ keys_ok t (f r).(cs_contact_id) (f r).(cs_conversation_id)
     ∧ (f r).(cs_active_case_id) = active_ ∧ (f r).(cs_status) = st) →
  constraint states (update_where p f (t_states t)) = None →
  is_Some (first (state_of x) (t_states t)) →
  synced x active_ st t (set_rows states (update_where p f (t_states t)) t).
Proof using Hkeys.
  intros Hp Hf Hc [r0 Hr0]. exists (update_where p f (t_states t)). split_and!; [done|done|..].
  - intros r (y & Hy & ->)%elem_of_update_where. rewrite (Hp y Hy).
    destruct (state_of x y) eqn:E; [apply (Hf y Hy E)|by apply Hkeys].
  - unfold projection_in. rewrite (first_update_where p), Hr0; [|done|by intros; apply Hf].
    apply first_Some in Hr0 as [Hin Hx]. destruct (Hf r0 Hin Hx) as (_ & _ & Ha & Hs).
    cbn. by rewrite Ha, Hs.
  - intros y Hy. apply projection_update_other. intros r Hr Hpr. rewrite (Hp r Hr) in Hpr.
    destruct (Hf r Hr Hpr) as (Hx & _ & _ & _). split; by apply (is_id_other x).
Qed.

Lemma synced_insert x r :
  state_of x r = true → keys_ok t r.(cs_contact_id) r.(cs_conversation_id) →
  constraint states (t_states t ++ [r]) = None →
  first (state_of x) (t_states t) = None →
  synced x r.(cs_active_case_id) r.(cs_status) t (set_rows states (t_states t ++ [r]) t).
Proof using Hkeys.
  intros Hx Hk Hc Hn. exists (t_states t ++ [r]). split_and!; [done|done|..].
  - intros r' [Hr'|Hr']%elem_of_app; [by apply Hkeys|].
    by apply list_elem_of_singleton in Hr' as ->.
  - by apply projection_app.
  - intros y Hy. apply projection_app_other. by apply (is_id_other x).
Qed.

Context `{Oracle}.

Lemma exec_conversationIdForContact c Q E :
  Q (bridge c t) t → exec (conversationIdForContact c) t Q E.
Proof. intros HQ. unfold conversationIdForContact. by exec_steps. Qed.

Lemma syncProjection_exec c sync :
  is_contact c t →
  exec (syncProjection c sync) t
    (λ _ t', synced c sync.(ps_activeCaseId) sync.(ps_status) t t') (λ _ _, False).
Proof using Hdir Hkeys Hst.
  intros Hc. unfold syncProjection.
  assert (Hsel : ∀ r, r ∈ t_states t → state_of_contact c r = state_of c r).
  { intros r Hr. apply (keys_of_contact t Hdir); [done|by apply Hkeys]. }
  do 2 (exec_step; apply exec_conversationIdForContact; exec_step; exec_step).
  do 2 (exec_step; exec_step).
  assert (Hupd : ∀ r z, r ∈ t_states t → state_of_contact c r = true →
    cs_contact_id (apply_sync None (Some (bridge c t)) sync z r) = cs_contact_id r
    ∧ cs_conversation_id (apply_sync None (Some (bridge c t)) sync z r) = cs_conversation_id r).
  { intros r z' Hr Hrc%is_id_eq. split; [done|]. cbn. specialize (Hkeys r Hr).
    rewrite Hrc in Hkeys. symmetry. apply Hkeys. }
  assert (Hnew : holds_any (state_of_contact c) (t_states t) = false →
    first (state_of c) (t_states t) = None).
  { intros Ha. apply first_None. intros r Hr. rewrite <- (Hsel r Hr). revert r Hr.
    by apply holds_any_false. }
  apply exec_insert_on_conflict_update; change (rows states t) with (t_states t).
  3: { intros e Ha Hc'. rewrite states_update_ok in Hc'; [done|]. auto. }
  3: { intros e Ha Hc'. rewrite (states_insert_ok c) in Hc'; [done| |done|by apply Hnew].
       by apply bool_decide_eq_true. }
  all: intros Ha Hc'.
  - apply synced_update; [done| |done|].
    + intros r Hr Hx. rewrite <- (Hsel r Hr) in Hx. apply is_id_eq in Hx.
      unfold state_of. cbn. rewrite Hx. cbn. rewrite is_id_eq. done.
    + apply holds_any_true in Ha as (r & Hr & Hx). rewrite (Hsel r Hr) in Hx.
      by eapply first_is_Some.
  - apply (synced_insert c (new_state _ _ _ _ _ _)); [|done|done|].
    + by apply bool_decide_eq_true.
    + by apply Hnew.
Qed.

(** [linked] is the contact that the conversation bridges, [x] their thread. *)
Lemma syncConversationProjection_exec v linked x sync :
  linked_thread v linked x t →
  exec (syncConversationProjection v linked sync) t
    (λ _ t', synced x sync.(ps_activeCaseId) sync.(ps_status) t t') (λ _ _, False).
Proof using Hdir Hkeys Hst.
  intros Hv. unfold syncConversationProjection.
  assert (Hsel : ∀ r, r ∈ t_states t → state_of_conversation v r = state_of x r).
  { intros r Hr. apply (linked_selects t Hdir v linked); [done|by apply Hkeys]. }
  assert (Hk := linked_keys t Hdir v linked x Hv).
  assert (Hx := linked_thread_of t v linked x Hv).
  exec_step. exec_step. exec_step. apply exec_update;
    change (rows states t) with (t_states t).
  2: { intros e Hc. rewrite states_update_ok in Hc; [done|]. intros r Hr Hrv.
       split; [|done]. cbn. apply is_id_eq in Hrv. specialize (Hkeys r Hr).
       rewrite Hrv in Hkeys. by eapply keys_ok_contact. }
  intros Hc. assert (Hkeep : keep (state_of_conversation v) (t_states t) = keep (state_of x) (t_states t))
    by (by apply keep_ext).
  rewrite Hkeep. destruct (keep (state_of x) (t_states t)) as [|r0 l0] eqn:Hl;
    cbn [length Nat.ltb Nat.leb].
  - rewrite update_where_none.
    2: { intros r Hr. rewrite (Hsel r Hr). revert r Hr. by apply keep_nil_iff. }
    replace (set_rows states (t_states t) t) with t by (symmetry; apply (set_rows_rows (T:=states))).
    do 6 exec_step.
    assert (Hn : first (state_of x) (t_states t) = None) by (unfold first; by rewrite Hl).
    apply exec_insert_row; change (rows states t) with (t_states t); intros Hc'.
    + apply (synced_insert x (new_state _ _ _ _ _ _)); [|done|done|done].
      unfold state_of. cbn. by apply is_id_eq.
    + intros Hc''. rewrite (states_insert_ok x) in Hc''; [done| |done|done].
      unfold state_of. cbn. by apply is_id_eq.
  - apply exec_ret, synced_update; [done| |done|].
    + intros r Hr Hrx. rewrite <- (Hsel r Hr) in Hrx. apply is_id_eq in Hrx.
      unfold state_of. cbn. rewrite Hrx. split_and!; [by apply is_id_eq|done|done|done].
    + unfold first. rewrite Hl. eauto.
Qed.
End sync.

(** ** One operation's effect on the lifecycle *)

(** The columns of a case that no operation may rewrite. *)
Definition boundary (k : case_row) :=
  (k.(cc_id), k.(cc_contact_id), k.(cc_conversation_id), k.(cc_company_id), k.(cc_kind),
   (k.(cc_opened_at), k.(cc_opening_message_id), k.(cc_open_source), k.(cc_opened_by)),
   (k.(cc_policy_id), k.(cc_response_target_minutes), k.(cc_resolution_target_minutes)),
   (k.(cc_reopened_from_case_id), k.(cc_reopen_reason), k.(cc_created_at))).

Lemma boundary_keys k k' :
  boundary k' = boundary k →
  k'.(cc_id) = k.(cc_id) ∧ k'.(cc_contact_id) = k.(cc_contact_id)
  ∧ k'.(cc_conversation_id) = k.(cc_conversation_id).
Proof. unfold boundary. intros Hb. by injection Hb. Qed.

(** Closed cases stay as they are, and every case keeps its boundary. *)
Definition preserved (l l' : list case_row) : Prop :=
  (∀ k, k ∈ l → is_active k = false → k ∈ l')
  ∧ (∀ k, k ∈ l → ∃ k', k' ∈ l' ∧ boundary k' = boundary k).

(** [t'] follows from [t] by a lifecycle operation on thread [x]. *)
Record advance (x : string) (t t' : tables) : Prop := {
  adv_inv : Inv t';
  adv_phase : phase_of x t' = phase_of x t ∨ lstep (phase_of x t) (phase_of x t');
  adv_others : ∀ y, y ≠ x → phase_of y t' = phase_of y t;
  adv_cases : preserved (t_cases t) (t_cases t');
  adv_static : t_contacts t' = t_contacts t ∧ t_conversations t' = t_conversations t }.

Lemma preserved_refl l : preserved l l.
Proof. split; eauto. Qed.

Lemma preserved_trans l1 l2 l3 : preserved l1 l2 → preserved l2 l3 → preserved l1 l3.
Proof.
  intros [H1 H1'] [H2 H2']. split; [eauto|]. intros k Hk.
  destruct (H1' k Hk) as (k' & Hk' & <-). eauto.
Qed.

Lemma preserved_app l k : preserved l (l ++ [k]).
Proof. split; [intros; apply elem_of_app; auto|]. intros k' Hk'. exists k'. by rewrite elem_of_app; auto. Qed.

Lemma preserved_update p f l :
  (∀ k, k ∈ l → p k = true → is_active k = true ∧ boundary (f k) = boundary k) →
  preserved l (update_where p f l).
Proof.
  intros Hp. split.
  - intros k Hk Ha. apply elem_of_update_where. exists k. split; [done|].
    destruct (p k) eqn:E; [|done]. destruct (Hp k Hk E). congruence.
  - intros k Hk. exists (if p k then f k else k). split.
    + apply elem_of_update_where. eauto.
    + destruct (p k) eqn:E; [|done]. by apply Hp.
Qed.

Lemma advance_refl x t : Inv t → advance x t t.
Proof. split; auto using preserved_refl. Qed.

(** [Inv] reads four tables only. *)
Definition same_core (t t' : tables) : Prop :=
  t_contacts t' = t_contacts t ∧ t_conversations t' = t_conversations t
  ∧ t_cases t' = t_cases t ∧ t_states t' = t_states t.

Lemma same_core_trans t1 t2 t3 : same_core t1 t2 → same_core t2 t3 → same_core t1 t3.
Proof. intros (?&?&?&?) (?&?&?&?). repeat split; congruence. Qed.

Lemma keys_ok_static t t' contact conversation :
  t_contacts t' = t_contacts t → t_conversations t' = t_conversations t →
  keys_ok t contact conversation → keys_ok t' contact conversation.
Proof. intros Hc Hv. unfold keys_ok, bridge. by rewrite Hc, Hv. Qed.

Lemma directory_ok_static t t' :
  t_contacts t' = t_contacts t → t_conversations t' = t_conversations t →
  directory_ok t → directory_ok t'.
Proof. intros Hc Hv []. split; rewrite ?Hc, ?Hv; done. Qed.

Lemma Inv_same_core t t' :
  same_core t t' → assignments_ok t' → Inv t → Inv t'.
Proof.
  intros (Hc & Hv & Hk & Hs) ? [].
  split; unfold phase_of, projection_of; rewrite ?Hk, ?Hs; eauto using directory_ok_static, keys_ok_static.
Qed.

Lemma advance_same_core x t t' t'' :
  same_core t' t'' → assignments_ok t'' →
  advance x t t' → advance x t t''.
Proof.
  intros Hsc Ha []. assert (Hsc' := Hsc). destruct Hsc as (Hc & Hv & Hk & Hs).
  split; unfold phase_of, projection_of in *; rewrite ?Hk, ?Hs, ?Hc, ?Hv; eauto using Inv_same_core.
Qed.

(** New rows of conversation_cases followed by the projection that mirrors them. *)
Lemma advance_synced x t l a st t' :
  Inv t → case_constraint l = None →
  (∀ k, k ∈ l → keys_ok t k.(cc_contact_id) k.(cc_conversation_id)) →
  mirrors (phase_in x l) (Some (a, st)) →
  phase_in x l = phase_of x t ∨ lstep (phase_of x t) (phase_in x l) →
  (∀ y, y ≠ x → phase_in y l = phase_of y t) →
  preserved (t_cases t) l →
  synced x a st (set_rows cases l t) t' →
  advance x t t'.
Proof.
  intros [Hd Hck Hsk Hc Hs Has Hm] Hl Hlk Hmx Hstep Hother Hpres (ls & -> & Hcs & Hks & Hpx & Hpy).
  split; [split; cbn| | | |]; try done.
  - by apply (directory_ok_static t).
  - intros y. unfold phase_of, projection_of. cbn. destruct (decide (y = x)) as [->|Hy].
    + by rewrite Hpx.
    + rewrite Hother, Hpy by done. apply Hm.
Qed.

(** The projection alone, rewritten to what it should be. *)
Lemma advance_healed x t a st t' :
  Inv t → mirrors (phase_of x t) (Some (a, st)) → synced x a st t t' → advance x t t'.
Proof.
  intros Hi Hm Hs. apply (advance_synced x t (t_cases t) a st); by auto using preserved_refl, inv_cases, inv_case_keys.
Qed.

(** A new active case of a thread that has none. *)
Lemma advance_opened x t k t' :
  Inv t → case_of x k = true → k.(cc_status) = open →
  keys_ok t k.(cc_contact_id) k.(cc_conversation_id) →
  (∀ k', k' ∈ t_cases t → case_of x k' = true → is_active k' = false) →
  case_constraint (t_cases t ++ [k]) = None →
  synced x (Some k.(cc_id)) open (set_rows cases (t_cases t ++ [k]) t) t' →
  advance x t t' ∧ phase_of x t' = Live k.(cc_id) open.
Proof.
  intros Hi Hx Hst Hkk Hn Hc Hs.
  assert (Hph : phase_in x (t_cases t ++ [k]) = Live k.(cc_id) open).
  { rewrite phase_open; [by rewrite Hst|done|by unfold is_active; rewrite Hst|done]. }
  split; [|unfold phase_of; by rewrite (synced_cases _ _ _ _ _ Hs)].
  eapply advance_synced; [done|done|..|done]; rewrite ?Hph; try done.
  - intros k' [Hk'|Hk']%elem_of_app; [by apply (inv_case_keys t)|].
    by apply list_elem_of_singleton in Hk' as ->.
  - right. unfold phase_of, phase_in.
    replace (first _ (t_cases t)) with (@None case_row); [case_match; constructor|].
    symmetry. apply first_None. intros r Hr. destruct (case_of x r) eqn:E; [|done]. by apply Hn.
  - intros y Hy. apply phase_app_other. by apply (is_id_other x).
  - apply preserved_app.
Qed.

(** A thread has at most one active case. *)
Lemma active_unique x t k k' :
  Inv t → k ∈ t_cases t → k' ∈ t_cases t → case_of x k = true → case_of x k' = true →
  is_active k = true → is_active k' = true → k = k'.
Proof.
  intros [Hd Hkeys _ Hc _ _ _] Hk Hk' Hx Hx' Ha Ha'.
  assert (Hkk := Hkeys k Hk). assert (Hkk' := Hkeys k' Hk'). rewrite case_of_eq in Hx, Hx'.
  assert (Hmix : ∀ c v : option string, keys_ok t (Some x) c → keys_ok t None v → v ≠ Some x).
  { intros c v [(q & Hq & Hqx) _] (w & Hw & Hl & ->) [= Heq].
    apply (dir_unlinked t Hd q w Hq Hw Hl). congruence. }
  destruct (cc_contact_id k) as [c|] eqn:E, (cc_contact_id k') as [c'|] eqn:E'; cbn in Hx, Hx'.
  - apply (active_contact_unique _ Hc k k' x); done || congruence.
  - injection Hx as ->. by destruct (Hmix _ _ Hkk Hkk').
  - injection Hx' as ->. by destruct (Hmix _ _ Hkk' Hkk).
  - by apply (active_conversation_unique _ Hc k k' x).
Qed.

(** The status change [f] of the one active case [k] of thread [x]. *)
Lemma advance_changed x t p f k st t' :
  Inv t → k ∈ t_cases t → case_of x k = true → is_active k = true →
  (∀ k', k' ∈ t_cases t → p k' = true ↔ k' = k) →
  boundary (f k) = boundary k → (f k).(cc_status) = st →
  lstep (Live k.(cc_id) k.(cc_status)) (if active st then Live k.(cc_id) st else Closed) →
  case_constraint (update_where p f (t_cases t)) = None →
  synced x (if active st then Some k.(cc_id) else None) st
    (set_rows cases (update_where p f (t_cases t)) t) t' →
  advance x t t' ∧ phase_of x t' = if active st then Live k.(cc_id) st else Closed.
Proof.
  intros Hi Hk Hx Ha Hp Hb Hst Hstep Hc Hs.
  assert (Hu : ∀ k', k' ∈ t_cases t → case_of x k' = true → is_active k' = true → k' = k).
  { intros k' Hk' Hx' Ha'. by apply (active_unique x t). }
  destruct (boundary_keys _ _ Hb) as (Hid & Hcc & Hcv).
  assert (Hfx : ∀ y, case_of y (f k) = case_of y k)
    by (intros y; unfold case_of; by rewrite Hcc, Hcv).
  assert (Hph : phase_in x (update_where p f (t_cases t))
                = if active st then Live k.(cc_id) st else Closed).
  { rewrite (phase_update x p f _ k); try done; [|by rewrite Hfx].
    unfold is_active. by rewrite Hst. }
  split; [|unfold phase_of; by rewrite (synced_cases _ _ _ _ _ Hs)].
  eapply advance_synced; [done|done|..|done]; rewrite ?Hph.
  - intros k' (y & Hy & ->)%elem_of_update_where. destruct (p y) eqn:E.
    + apply Hp in E as ->; [|done]. rewrite Hcc, Hcv. by apply (inv_case_keys t).
    + by apply (inv_case_keys t).
  - destruct (active st) eqn:E; [done|]. destruct st; done.
  - right. unfold phase_of. by rewrite (phase_live x _ k).
  - intros y Hy. apply phase_update_other. intros k' Hk' ->%Hp; [|done].
    rewrite Hfx. split; by apply (is_id_other x).
  - apply preserved_update. intros k' Hk' ->%Hp; done.
Qed.
