(* ===== verification/CaseRecords.v ===== *)
(** What every case operation keeps, from any tables whatsoever.

    The refinement of Lifecycle.v starts from the invariant of Phase.v and follows an
    inbound message that carries the contact its conversation is linked to.  The lemmas of
    this file need neither: an operation that throws restores the tables, closed cases and
    the boundaries of all cases are never rewritten, contacts and conversations are left
    alone, and the constraints on cases, states and assignments keep holding. *)

From S2P Require Import Prelude Js TenantDb Exec Steady Workflow Cases SendAccess Phase.

(** ** The relation *)

(** The constraint of a table, once it holds, keeps holding. *)
Definition stays_valid {R} (T : table R) (t t' : tables) : Prop :=
  constraint T (rows T t) = None → constraint T (rows T t') = None.

Record lawful (t t' : tables) : Prop := {
  lw_cases : preserved (t_cases t) (t_cases t');
  lw_static : t_contacts t' = t_contacts t ∧ t_conversations t' = t_conversations t;
  lw_case_rows : stays_valid cases t t';
  lw_state_rows : stays_valid states t t';
  lw_assignment_rows : stays_valid assignments t t' }.

#[export] Instance lawful_preorder : PreOrder lawful.
Proof.
  split; [intros t; split; [apply preserved_refl|done|intros Hc; exact Hc..]|].
  intros t1 t2 t3 [P12 [C12 V12] K12 S12 A12] [P23 [C23 V23] K23 S23 A23].
  split; unfold stays_valid in *; auto; [by apply (preserved_trans _ (t_cases t2))|split; congruence].
Qed.

#[export] Instance lawful_messages : Frame lawful messages.
Proof. intros l t. split; [apply preserved_refl|done|intros Hc; exact Hc..]. Qed.

Section statements.
Context `{Oracle}.

(** A statement on states or assignments writes what their constraint accepts. *)
Lemma lawful_put_states l t : constraint states l = None → lawful t (set_rows states l t).
Proof. intros Hc. split; [apply preserved_refl|done|intros Hx; (exact Hx || exact Hc)..]. Qed.
Lemma lawful_put_assignments l t : constraint assignments l = None → lawful t (set_rows assignments l t).
Proof. intros Hc. split; [apply preserved_refl|done|intros Hx; (exact Hx || exact Hc)..]. Qed.

Lemma lawful_put_cases l t :
  preserved (t_cases t) l → constraint cases l = None → lawful t (set_rows cases l t).
Proof. intros Hp Hc. split; [exact Hp|done|intros Hx; (exact Hx || exact Hc)..]. Qed.

Lemma lawful_update_states p f : steady lawful (update states p f).
Proof. intros t. apply exec_update; [apply lawful_put_states|done]. Qed.
Lemma lawful_insert_state r : steady lawful (insert_row states r).
Proof. intros t. apply exec_insert_row; [apply lawful_put_states|done]. Qed.
Lemma lawful_upsert_state a f r : steady lawful (insert_on_conflict_update states a f r).
Proof. intros t. apply exec_insert_on_conflict_update; by auto using lawful_put_states. Qed.
Lemma lawful_update_assignments p f : steady lawful (update assignments p f).
Proof. intros t. apply exec_update; [apply lawful_put_assignments|done]. Qed.
Lemma lawful_insert_assignment_row r : steady lawful (insert_row assignments r).
Proof. intros t. apply exec_insert_row; [apply lawful_put_assignments|done]. Qed.

(** An update of active cases that keeps their boundary. *)
Lemma lawful_update_cases p f :
  (∀ k, p k = true → is_active k = true ∧ boundary (f k) = boundary k) →
  steady lawful (update_returning cases p f).
Proof.
  intros Hp t. apply exec_update_returning; [|done]. intros Hc.
  apply lawful_put_cases; [|done]. apply preserved_update. intros k _. apply Hp.
Qed.

Lemma lawful_insert_cases a r : steady lawful (insert_on_conflict_nothing cases a r).
Proof.
  intros t. apply exec_insert_on_conflict_nothing; [done| |done]. intros _ Hc.
  apply lawful_put_cases; [apply preserved_app|done].
Qed.
End statements.
#[export] Hint Resolve lawful_update_states lawful_insert_state lawful_upsert_state
  lawful_update_assignments lawful_insert_assignment_row lawful_insert_cases : steady.

(** ** The operations *)

Section operations.
Context `{Oracle}.

Lemma lawful_flip_status p from to z :
  active from = true →
  steady lawful (update_returning cases (λ r, p r && bool_decide (r.(cc_status) = from)) (set_status to z)).
Proof.
  intros Hf. apply lawful_update_cases. intros k [_ Hk]%andb_true_iff. to_prop. unfold is_active.
  by rewrite Hk.
Qed.

Lemma lawful_resolution i z u o n z' :
  steady lawful (update_returning cases (λ r, bool_decide (r.(cc_id) = i) && is_active r) (set_resolution z u o n z')).
Proof. apply lawful_update_cases. by intros k [_ Hk]%andb_true_iff. Qed.

Lemma lawful_sync c sync : steady lawful (syncProjection c sync).
Proof. unfold syncProjection, conversationIdForContact. steady. Qed.
Lemma lawful_sync_conversation v c sync : steady lawful (syncConversationProjection v c sync).
Proof. unfold syncConversationProjection. steady. Qed.
Lemma lawful_insert_case a c v co k z m src u pol prior reason :
  steady lawful (insert_case a c v co k z m src u pol prior reason).
Proof. unfold insert_case. steady. Qed.
Lemma lawful_stamp i m : steady lawful (stamp_final i m).
Proof. unfold stamp_final, stamp_case. steady. Qed.
Lemma lawful_unassign c : steady lawful (unassignContact c).
Proof. unfold unassignContact. steady. Qed.
Lemma lawful_unassign_conversation v : steady lawful (unassignConversation v).
Proof. unfold unassignConversation. steady. Qed.
Lemma lawful_policy co : steady lawful (getCurrentSlaPolicy co).
Proof. unfold getCurrentSlaPolicy. steady. Qed.
Lemma lawful_lockContact c : steady lawful (lockContact c).
Proof. unfold lockContact. steady. Qed.
Lemma lawful_lockConversation v : steady lawful (lockConversation v).
Proof. unfold lockConversation. steady. Qed.
Lemma lawful_owner a u : steady lawful (assert_owner a u).
Proof. unfold assert_owner. steady. Qed.
Lemma lawful_active_case x : steady lawful (getActiveCase x).
Proof. unfold getActiveCase, getActiveCaseRow. steady. Qed.
Lemma lawful_recent_case x : steady lawful (getMostRecentCase x).
Proof. unfold getMostRecentCase. steady. Qed.
Lemma lawful_flip_to_open i : steady lawful (flip_to_open i).
Proof. unfold flip_to_open. steady. by apply lawful_flip_status. Qed.
#[local] Hint Resolve lawful_sync lawful_sync_conversation lawful_insert_case lawful_stamp lawful_unassign
  lawful_unassign_conversation lawful_policy lawful_lockContact lawful_lockConversation lawful_owner
  lawful_active_case lawful_recent_case lawful_flip_to_open : steady.

Lemma lawful_created assignment unassign sync b z k :
  steady lawful assignment → steady lawful unassign → (∀ s, steady lawful (sync s)) →
  steady lawful (inbound_created assignment unassign sync b z k).
Proof. intros Ha Hu Hs. unfold inbound_created. steady. Qed.
Lemma lawful_existing sync c reread :
  (∀ s, steady lawful (sync s)) → steady lawful reread → steady lawful (inbound_existing sync c reread).
Proof. intros Hs Hr. unfold inbound_existing. steady. Qed.

Lemma lawful_inbound co c m : steady lawful (openOrReopenCaseForInboundMessage co c m).
Proof.
  unfold openOrReopenCaseForInboundMessage, conversationIdForContact, getCurrentAssignment. cbv zeta. steady;
    [apply lawful_created|apply lawful_existing]; steady.
Qed.
Lemma lawful_inbound_conversation co v c g m :
  steady lawful (openOrReopenCaseForInboundConversation co v c g m).
Proof.
  unfold openOrReopenCaseForInboundConversation, getCurrentConversationAssignment. cbv zeta. steady;
    [apply lawful_created|apply lawful_existing]; steady.
Qed.

(** A scope whose parts are lawful: both scopes are. *)
Record lawful_scope (sc : scope) : Prop := {
  ls_lock : steady lawful sc.(sc_lock);
  ls_owns : ∀ u, steady lawful (sc.(sc_assertActorOwns) u);
  ls_columns : steady lawful sc.(sc_columns);
  ls_sync : ∀ s, steady lawful (sc.(sc_sync) s) }.

Lemma lawful_contact_scope c : lawful_scope (contact_scope c).
Proof.
  split; cbn; intros; unfold assertActorOwnsContact, getCurrentAssignment, conversationIdForContact; steady.
Qed.
Lemma lawful_conversation_scope v : lawful_scope (conversation_scope v).
Proof.
  split; cbn; intros; unfold assertActorOwnsConversation, getCurrentConversationAssignment; steady.
Qed.

Context (sc : scope) (Hsc : lawful_scope sc).
#[local] Hint Resolve ls_lock ls_owns ls_columns ls_sync : steady.

Lemma lawful_resolve input : steady lawful (resolve_in sc input).
Proof using Hsc.
  unfold resolve_in, hasUnansweredLatestTurn. steady. apply lawful_resolution.
Qed.
Lemma lawful_flip u from to changed missing :
  active from = true → steady lawful (flip_in sc u from to changed missing).
Proof using Hsc. intros Hf. unfold flip_in. steady. by apply lawful_flip_status. Qed.
Lemma lawful_open g input : steady lawful (open_within sc g input).
Proof using Hsc. unfold open_within, open_after_mode_check. cbv zeta. steady. Qed.
End operations.

(** ** The routes and the guards *)

Section routes.
Context `{Oracle}.
#[local] Hint Resolve lawful_contact_scope lawful_conversation_scope lawful_resolve lawful_flip lawful_open
  lawful_policy lawful_lockContact lawful_lockConversation lawful_owner lawful_recent_case
  lawful_unassign lawful_unassign_conversation : steady.

Lemma lawful_on_thread {A} id (fc fv : contact_arg → M A) :
  (∀ c, steady lawful (fc c)) → (∀ v, steady lawful (fv v)) → steady lawful (on_thread id fc fv).
Proof. intros Hc Hv. unfold on_thread, resolveWorkflowIdentity, conversationIdForContact. steady. Qed.

Lemma lawful_resolveRoute id input : steady lawful (resolveRoute id input).
Proof. apply lawful_on_thread; intros; apply lawful_resolve; steady. Qed.
Lemma lawful_pendingRoute id u : steady lawful (pendingRoute id u).
Proof. apply lawful_on_thread; intros; apply lawful_flip; steady. Qed.
Lemma lawful_resumeRoute id u : steady lawful (resumeRoute id u).
Proof. apply lawful_on_thread; intros; apply lawful_flip; steady. Qed.
Lemma lawful_openRoute id input : steady lawful (performManualOpenOrReopen id input).
Proof. apply lawful_on_thread; intros; apply steady_transaction; try apply _; apply lawful_open; steady. Qed.

Lemma lawful_ensure c co u reason : steady lawful (ensureActiveCaseWithin c co u reason).
Proof.
  unfold ensureActiveCaseWithin, resolveActiveCaseIdForContact, openCaseWithin. steady; apply lawful_open; steady.
Qed.

Lemma lawful_requireSendAccess c u claim : steady lawful (requireSendAccess c u claim).
Proof.
  unfold requireSendAccess, getCurrentAssignment, assignContactToUser, insert_assignment, conversationIdForContact,
    requireActiveCaseForSend, resolveActiveCaseIdForContact. cbv zeta. steady.
Qed.
Lemma lawful_requireConversationSendAccess v u claim : steady lawful (requireConversationSendAccess v u claim).
Proof.
  unfold requireConversationSendAccess, getCurrentConversationAssignment, assignConversationToUser,
    insert_assignment, requireActiveCaseForConversationSend, resolveActiveCaseIdForConversation. steady;
    apply lawful_requireSendAccess.
Qed.
End routes.

(** ** Operations that throw change nothing *)

Section atomic.
Context `{Oracle}.

Definition atomic {A} (m : M A) : Prop := ∀ t, exec m t (λ _ _, True) (λ _ t', t' = t).

Lemma atomic_transaction {A} (m : M A) : atomic (transaction m).
Proof. intros t. apply exec_transaction. eapply exec_weaken; [apply exec_anything|done|done]. Qed.

Lemma atomic_throw {A} e : atomic (A := A) (throw e).
Proof. intros t. by apply exec_throw. Qed.

(** What precedes it only reads, what follows it returns. *)
Lemma atomic_after {A B} (m : M A) (k : A → M B) : steady unchanged m → (∀ a, atomic (k a)) → atomic (m ≫= k).
Proof.
  intros Hm Hk t. eapply exec_steady_bind; [exact Hm| |done]. intros a t1 ->. apply Hk.
Qed.
Lemma atomic_discard {A} (m : M A) : atomic m → atomic (_ ← m; mret tt).
Proof. intros Hm t. exec_step. eapply exec_weaken; [apply Hm| |done]. intros a t' _. by apply exec_ret. Qed.

Lemma atomic_on_thread {A} id (fc fv : contact_arg → M A) :
  (∀ c, atomic (fc c)) → (∀ v, atomic (fv v)) → atomic (on_thread id fc fv).
Proof.
  intros Hc Hv. unfold on_thread. apply atomic_after.
  - unfold resolveWorkflowIdentity, conversationIdForContact. steady.
  - intros [i|]; [|apply atomic_throw]. destruct (wi_contactId i) as [[|]|], (wi_conversationId i);
      (apply Hc || apply Hv || apply atomic_throw).
Qed.
Lemma atomic_resolve sc input : atomic (resolve_in sc input).
Proof. unfold resolve_in. destruct (_ && _); [apply atomic_throw|apply atomic_transaction]. Qed.
End atomic.

(** ** Reading the constraints *)

(** A contact and a conversation have one active case at most. *)
Definition one_active (t : tables) : Prop :=
  ∀ k k', k ∈ t_cases t → k' ∈ t_cases t → is_active k = true → is_active k' = true →
    (is_Some k.(cc_contact_id) ∧ k'.(cc_contact_id) = k.(cc_contact_id))
    ∨ (is_Some k.(cc_conversation_id) ∧ k'.(cc_conversation_id) = k.(cc_conversation_id)) → k = k'.

Lemma constraint_one_active t : constraint cases (t_cases t) = None → one_active t.
Proof.
  intros Hc. change (case_constraint (t_cases t) = None) in Hc. revert Hc. unfold case_constraint.
  rewrite !checks_cons. intros (_ & _ & Uc & Uv & _) k k' Hk Hk' Ha Ha' [[[x Hx] He]|[[x Hx] He]].
  - apply (unique_on_eq case_contact_key _ k k' x Uc Hk Hk'); unfold case_contact_key;
      unfold is_active in *; rewrite ?Ha, ?Ha'; congruence.
  - apply (unique_on_eq case_conversation_key _ k k' x Uv Hk Hk'); unfold case_conversation_key;
      unfold is_active in *; rewrite ?Ha, ?Ha'; congruence.
Qed.
