(* ===== verification/Lifecycle.v ===== *)
(** The lifecycle operations refine the abstract lifecycle.

    For every operation of Cases.v: a specification ([exec]) of what it returns,
    which error it throws and why, and that it takes its thread along one
    abstract step ([advance]) and re-establishes [Inv].  The statements about
    whole runs are in LifecycleSpec.v. *)

From S2P Require Import Prelude Js TenantDb Exec Workflow Cases Phase.

(** ** Operations *)

Section operations.
Context `{Oracle}.

Definition scope_of (k : thread_kind) (x : string) : scope :=
  match k with
  | thread_contact => contact_scope x
  | thread_conversation => conversation_scope x
  end.

Lemma sc_id_scope_of k x : (scope_of k x).(sc_id) = x.
Proof. by destruct k. Qed.

(** A conversation scope is only used for a conversation without a contact:
    the routes dispatch that way ([on_thread]). *)
Definition dispatched (k : thread_kind) (x : string) (t : tables) : Prop :=
  match k with
  | thread_contact => True
  | thread_conversation =>
      ∀ v, v ∈ t_conversations t → v.(cv_id) = x → v.(cv_legacy_contact_id) = None
  end.

(** The active assignment of a thread. *)
Definition owner_of (k : thread_kind) (x : string) (t : tables) : option string :=
  ca_assigned_to <$>
  first (λ r, match k with
              | thread_contact => active_assignment r && is_id x r.(ca_contact_id)
              | thread_conversation => is_id x r.(ca_conversation_id) && active_assignment r
              end) (t_assignments t).

(** Why the two guards of every manual operation refuse user [u]. *)
Inductive refused (k : thread_kind) (x u : string) (t : tables) : err → Prop :=
| refused_missing resource : ¬ thread_ok k x t → refused k x u t (NotFoundError resource)
| refused_owner o : owner_of k x t = Some o → o ≠ u →
    refused k x u t (ContactAssignedToOtherError o).

Definition allowed (k : thread_kind) (x u : string) (t : tables) : Prop :=
  thread_ok k x t ∧ ∀ o, owner_of k x t = Some o → o = u.

Lemma exec_lock k x t Q (E : err → tables → Prop) :
  dispatched k x t → (thread_ok k x t → Q tt t) →
  (∀ r, ¬ thread_ok k x t → E (NotFoundError r) t) →
  exec ((scope_of k x).(sc_lock)) t Q E.
Proof.
  intros Hd HQ HE. destruct k; cbn [scope_of contact_scope conversation_scope sc_lock];
    unfold lockContact, lockConversation; exec_steps.
  - apply HQ. apply first_Some in E0 as [Hr Hid]. to_prop. by eexists.
  - apply HE. intros (r & Hr & Hid). rewrite first_None in E0. specialize (E0 r Hr). by to_prop.
  - apply HQ. apply first_Some in E0 as [Hr Hid]. to_prop. eexists. eauto.
  - apply HE. intros (r & Hr & Hid & _). rewrite first_None in E0. specialize (E0 r Hr). by to_prop.
Qed.

Lemma exec_assert_owner a u t Q (E : err → tables → Prop) :
  ((∀ o, ca_assigned_to <$> a = Some o → o = u) → Q tt t) →
  (∀ o, ca_assigned_to <$> a = Some o → o ≠ u → E (ContactAssignedToOtherError o) t) →
  exec (assert_owner a u) t Q E.
Proof.
  intros HQ HE. unfold assert_owner. exec_steps; to_prop.
  - apply HQ. by intros o [= <-].
  - by apply HE.
  - by apply HQ.
Qed.

Lemma exec_assertActorOwns k x u t Q (E : err → tables → Prop) :
  ((∀ o, owner_of k x t = Some o → o = u) → Q tt t) →
  (∀ o, owner_of k x t = Some o → o ≠ u → E (ContactAssignedToOtherError o) t) →
  exec ((scope_of k x).(sc_assertActorOwns) u) t Q E.
Proof.
  intros HQ HE. destruct k; cbn [scope_of contact_scope conversation_scope sc_assertActorOwns];
    unfold assertActorOwnsContact, assertActorOwnsConversation,
      getCurrentAssignment, getCurrentConversationAssignment;
    exec_step; exec_step; by apply exec_assert_owner.
Qed.

(** The prefix of every manual operation. *)
Lemma exec_guard {A} k x u (m : M A) t Q (E : err → tables → Prop) :
  dispatched k x t →
  (allowed k x u t → exec m t Q E) →
  (∀ e, refused k x u t e → E e t) →
  exec (_ ← (scope_of k x).(sc_lock); _ ← (scope_of k x).(sc_assertActorOwns) u; m) t Q E.
Proof.
  intros Hd HQ HE. exec_step. apply exec_lock; [done| |intros; apply HE; by constructor].
  intros Hx. exec_step. apply exec_assertActorOwns; [|intros; apply HE; by constructor].
  intros Ho. by apply HQ.
Qed.

Definition active_case (x : string) (t : tables) : option case_row :=
  first (λ r, case_of x r && is_active r) (t_cases t).

Lemma active_case_Some x t k :
  active_case x t = Some k → k ∈ t_cases t ∧ case_of x k = true ∧ is_active k = true.
Proof. intros [? [??]%andb_true_iff]%first_Some. done. Qed.

Lemma active_case_None x t :
  active_case x t = None → ∀ k, k ∈ t_cases t → case_of x k = true → is_active k = false.
Proof.
  unfold active_case. rewrite first_None. intros Hn k Hk Hx. specialize (Hn k Hk).
  by rewrite Hx in Hn.
Qed.

Lemma exec_getActiveCase k x t Q E :
  Inv t → thread_ok k x t → Q (toConversationCase <$> active_case x t) t →
  exec (getActiveCase x) t Q E.
Proof.
  intros Hi Hx HQ. unfold getActiveCase, getActiveCaseRow. exec_steps.
  erewrite first_ext; [exact HQ|]. intros r Hr. cbv beta. f_equal.
  by apply (case_selected k x t); [apply Hi| |apply (inv_case_keys t)].
Qed.

(** The projection write after a change of the cases never fails. *)
Lemma exec_sync k x t l sync Q E :
  Inv t → thread_ok k x t →
  (∀ t', synced x sync.(ps_activeCaseId) sync.(ps_status) (set_rows cases l t) t' → Q tt t') →
  exec ((scope_of k x).(sc_sync) sync) (set_rows cases l t) Q E.
Proof.
  intros [Hd _ Hk _ Hs _ _] Hx HQ.
  eapply (exec_weaken _ _ (λ _ t', synced x (ps_activeCaseId sync) (ps_status sync)
            (set_rows cases l t) t') _ (λ _ _, False)); [|by intros []; auto|done].
  destruct k; cbn [scope_of contact_scope conversation_scope sc_sync].
  - apply syncProjection_exec; [by apply (directory_ok_static t)|done|done|done].
  - apply syncConversationProjection_exec; [by apply (directory_ok_static t)|done|done|done].
Qed.

Lemma set_same_cases t : set_rows cases (t_cases t) t = t.
Proof. apply (set_rows_rows (T:=cases)). Qed.
End operations.

(** ** The constraints of the cases that operations write *)

Lemma active_not_resolved st : active st = true → bool_decide (st = resolved) = false.
Proof. by destruct st. Qed.

Section cases_ok.
Context (t : tables) (Hi : Inv t).

Lemma cases_insert_ok x k :
  case_of x k = true → keys_ok t k.(cc_contact_id) k.(cc_conversation_id) →
  k.(cc_status) = open → k.(cc_resolved_at) = None → k.(cc_resolution_outcome) = None →
  open_source_actor_check k = true →
  (∀ k', k' ∈ t_cases t → k'.(cc_id) ≠ k.(cc_id)) →
  (∀ k', k' ∈ t_cases t → case_of x k' = true → is_active k' = false) →
  case_constraint (t_cases t ++ [k]) = None.
Proof using Hi.
  intros Hx Hk Hst Hra Hro Hsrc Hid Hn. destruct Hi as [Hd Hkeys _ Hc _ _ _].
  assert (Hf : ∀ k', k' ∈ t_cases t → is_active k' = true →
    (is_Some k'.(cc_contact_id) → k'.(cc_contact_id) ≠ k.(cc_contact_id))
    ∧ (is_Some k'.(cc_conversation_id) → k'.(cc_conversation_id) ≠ k.(cc_conversation_id))).
  { intros k' Hk' Ha. apply (keys_ok_fresh t x); [done|done|by apply Hkeys|done|].
    change (case_of x k' = false). destruct (case_of x k') eqn:E; [|done].
    rewrite (Hn k' Hk' E) in Ha. done. }
  revert Hc. unfold case_constraint. rewrite !checks_cons.
  intros (U1 & C1 & U2 & U3 & C2 & C3 & C4 & C5 & _).
  split_and!; [apply unique_on_app|apply forallb_snoc|apply unique_on_app|apply unique_on_app
              |apply forallb_snoc..|done]; try done.
  - intros k' Hk' _ [= Heq]. by apply (Hid k' Hk').
  - by eapply keys_ok_identity.
  - intros k' Hk'. unfold case_contact_key. destruct (active (cc_status k')) eqn:E; [|by intros []].
    rewrite Hst. by apply Hf.
  - intros k' Hk'. unfold case_conversation_key. destruct (active (cc_status k')) eqn:E; [|by intros []].
    rewrite Hst. by apply Hf.
  - unfold resolution_fields_check. by rewrite Hst, Hra.
  - unfold other_requires_notes_check. by rewrite Hro.
  - unfold resolved_after_opened_check. by rewrite Hra.
Qed.

(** The pending and resume transitions. *)
Lemma cases_status_ok p st z :
  active st = true → (∀ k, k ∈ t_cases t → p k = true → is_active k = true) →
  case_constraint (update_where p (set_status st z) (t_cases t)) = None.
Proof using Hi.
  intros Hst Hp. assert (Hc := inv_cases t Hi). revert Hc. unfold case_constraint.
  rewrite !checks_cons. intros (U1 & C1 & U2 & U3 & C2 & C3 & C4 & C5 & _).
  split_and!; [apply unique_on_update|apply forallb_update|apply unique_on_update
              |apply unique_on_update|apply forallb_update..|done]; try done; intros k Hk.
  - left. done.
  - intros Ha. left. unfold case_contact_key. cbn. rewrite Hst.
    specialize (Hp k Hk Ha). unfold is_active in Hp. by rewrite Hp.
  - intros Ha. left. unfold case_conversation_key. cbn. rewrite Hst.
    specialize (Hp k Hk Ha). unfold is_active in Hp. by rewrite Hp.
  - intros Hf Ha. specialize (Hp k Hk Ha). revert Hf. unfold resolution_fields_check. cbn.
    by rewrite !active_not_resolved by done.
Qed.

Lemma trim_not_spaces s : trim s ≠ [] → forallb (λ c, (c =? 32)%Z) (trim s) = false.
Proof using.
  intros (c & Hc & Hs)%trim_non_space. apply not_true_iff_false. rewrite forallb_forall.
  intros Hall. apply list_elem_of_In, Hall in Hc. apply Z.eqb_eq in Hc as ->. done.
Qed.

(** The resolution can only violate resolved_at >= opened_at. *)
Lemma cases_resolved p z u o notes z' :
  (∀ k, k ∈ t_cases t → p k = true → is_active k = true) →
  (o = other → truthy (trim <$> notes) = true) →
  let l := update_where p (set_resolution z u o (trimmed_or_null notes) z') (t_cases t) in
  (case_constraint l = None ∧ ∀ k, k ∈ t_cases t → p k = true → (k.(cc_opened_at) ≤ z)%Z)
  ∨ (case_constraint l = Some (CheckViolation "conversation_cases_resolved_after_opened_check")
     ∧ ∃ k, k ∈ t_cases t ∧ p k = true ∧ (z < k.(cc_opened_at))%Z).
Proof using Hi.
  intros Hp Ho l. assert (Hc := inv_cases t Hi). revert Hc. unfold case_constraint.
  rewrite !checks_cons. intros (U1 & C1 & U2 & U3 & C2 & C3 & C4 & C5 & _).
  assert (U1' : unique_on (Some ∘ cc_id) l = true) by (apply unique_on_update; auto).
  assert (U2' : unique_on case_contact_key l = true) by (apply unique_on_update; auto).
  assert (U3' : unique_on case_conversation_key l = true) by (apply unique_on_update; auto).
  assert (C1' : forallb (λ r, identity_check r.(cc_contact_id) r.(cc_conversation_id)) l = true)
    by (apply forallb_update; auto).
  assert (C2' : forallb resolution_fields_check l = true) by (apply forallb_update; auto).
  assert (C3' : forallb other_requires_notes_check l = true).
  { apply forallb_update; [done|]. intros k _ _ _. unfold other_requires_notes_check. cbn.
    destruct (bool_decide (Some o = Some other)) eqn:E; [|done]. to_prop. injection E as ->.
    unfold trimmed_or_null. specialize (Ho eq_refl). rewrite Ho.
    destruct notes as [notes|]; [|done]. cbn.
    unfold filled_text. rewrite trim_not_spaces; [done|]. intros Heq. cbn in Ho. by rewrite Heq in Ho. }
  assert (C5' : forallb open_source_actor_check l = true) by (apply forallb_update; auto).
  rewrite U1', C1', U2', U3', C2', C3'. cbn [checks].
  destruct (forallb resolved_after_opened_check l) eqn:C4'; [left|right]; split; [by rewrite C5'| |done|].
  - intros k Hk Hpk. rewrite forallb_forall in C4'.
    specialize (C4' (set_resolution z u o (trimmed_or_null notes) z' k)).
    apply Z.leb_le, C4', list_elem_of_In, elem_of_update_where. exists k. by rewrite Hpk.
  - apply not_true_iff_false in C4'. rewrite forallb_forall in C4'.
    destruct (holds_any (λ k, p k && (z <? k.(cc_opened_at))%Z) (t_cases t)) eqn:E.
    + apply holds_any_true in E as (k & Hk & [? ?]%andb_true_iff). to_prop. eauto.
    + destruct C4'. intros r Hr. apply list_elem_of_In, elem_of_update_where in Hr as (k & Hk & ->).
      rewrite holds_any_false in E. specialize (E k Hk).
      destruct (p k) eqn:Hpk.
      * cbn in E. to_prop. unfold resolved_after_opened_check. cbn. by apply Z.leb_le.
      * rewrite forallb_forall in C4. by apply C4, list_elem_of_In.
Qed.
End cases_ok.

(** ** The manual transitions *)

Section manual.
Context `{Oracle}.

(** What an UPDATE of the active rows of thread [x] returns and leaves. *)
Lemma update_active_case x t k p (f : case_row → case_row) :
  Inv t → active_case x t = Some k → (∀ k', k' ∈ t_cases t → p k' = true ↔ k' = k) →
  head (f <$> keep p (t_cases t)) = Some (f k).
Proof.
  intros Hi Hk Hp. rewrite head_map. change (head (keep p (t_cases t))) with (first p (t_cases t)).
  apply active_case_Some in Hk as (Hk & _ & _).
  rewrite (first_unique p _ k); [done|done|by apply Hp|]. intros y Hy Hpy. by apply Hp.
Qed.

Lemma flip_in_exec k x u from to changed missing t :
  Inv t → dispatched k x t → active from = true → active to = true → from ≠ to →
  (∀ i, lstep (Live i from) (Live i to)) →
  exec (flip_in (scope_of k x) u from to changed missing) t
    (λ c t', advance x t t' ∧ allowed k x u t ∧ c.(status) = to
       ∧ phase_of x t' = Live c.(id) to
       ∧ (phase_of x t = Live c.(id) from ∨ (phase_of x t = Live c.(id) to ∧ t' = t)))
    (λ e t', t' = t ∧ (refused k x u t e
       ∨ (e = ConflictError missing ∧ ∀ i st, phase_of x t ≠ Live i st))).
Proof.
  intros Hi Hd Hfrom Hto Hne Hstep. unfold flip_in. exec_step.
  apply exec_guard; [done| |by auto]. intros Hallow. assert (Hx := proj1 Hallow).
  assert (Hsel : ∀ r, r ∈ t_cases t → (scope_of k x).(sc_rows) r = case_of x r).
  { intros r Hr. destruct (case_selected k x t r) as [_ Hs]; [apply Hi|done|by apply (inv_case_keys t)|].
    by destruct k. }
  set (p := λ r, sc_rows (scope_of k x) r && bool_decide (cc_status r = from)).
  assert (Hp : ∀ r, r ∈ t_cases t → p r = true ↔ case_of x r = true ∧ r.(cc_status) = from).
  { intros r Hr. unfold p. by rewrite (Hsel r Hr), andb_true_iff, bool_decide_eq_true. }
  exec_step. exec_step. exec_step. apply exec_update_returning; change (rows cases t) with (t_cases t).
  2: { intros e Hc. rewrite cases_status_ok in Hc; [done|done|done|].
       intros r Hr [_ Hs]%Hp; [|done]. unfold is_active. by rewrite Hs. }
  intros Hc. destruct (decide ((cc_status <$> active_case x t) = Some from)) as [Hs|Hno].
  - destruct (active_case x t) as [k0|] eqn:Hk0; [|done]. injection Hs as Hs.
    assert (Hk := active_case_Some _ _ _ Hk0). destruct Hk as (Hk & Hkx & Hka).
    assert (Hpk : ∀ r, r ∈ t_cases t → p r = true ↔ r = k0).
    { intros r Hr. rewrite (Hp r Hr). split; [|by intros ->].
      intros [Hrx Hrs]. apply (active_unique x t); try done.
      unfold is_active. by rewrite Hrs. }
    rewrite (update_active_case x t k0) by done. exec_step. apply exec_sync; [done|done|].
    intros t' Hsync. cbn in Hsync. apply exec_ret.
    destruct (advance_changed x t p (set_status to z) k0 to t') as [Hadv Hph]; try done;
      [by rewrite Hs, Hto|by rewrite Hto|].
    rewrite Hto in Hph. split; [done|]. do 3 (split; [done|]). left.
    unfold phase_of. rewrite (phase_live x _ k0), Hs; try done.
    intros; by apply (active_unique x t).
  - assert (Hn : ∀ r, r ∈ t_cases t → p r = false).
    { intros r Hr. destruct (p r) eqn:E; [|done]. apply Hp in E as [Hrx Hrs]; [|done]. exfalso.
      apply Hno. unfold active_case. rewrite (first_unique _ _ r); [by cbn; rewrite Hrs|done|..].
      - unfold is_active. by rewrite Hrx, Hrs.
      - intros y Hy [Hyx Hya]%andb_true_iff. apply (active_unique x t); try done.
        unfold is_active. by rewrite Hrs. }
    rewrite (proj2 (keep_nil_iff p _) Hn), (update_where_none p _ _ Hn), set_same_cases.
    cbn [fmap list_fmap head].
    exec_step. rewrite sc_id_scope_of. apply (exec_getActiveCase k); [done|done|].
    destruct (active_case x t) as [k0|] eqn:Hk0; cbn [fmap option_fmap option_map].
    + assert (Hk := active_case_Some _ _ _ Hk0). destruct Hk as (Hk & Hkx & Hka).
      assert (Hst : k0.(cc_status) = to).
      { revert Hno Hka. unfold is_active. cbn. destruct (cc_status k0), from, to; done. }
      exec_step; to_prop; [|done]. apply exec_ret.
      assert (Hph : phase_of x t = Live k0.(cc_id) to).
      { unfold phase_of. rewrite (phase_live x _ k0), Hst; try done.
        intros; by apply (active_unique x t). }
      split; [by apply advance_refl|]. do 3 (split; [done|]). by right.
    + apply exec_throw. split; [done|right; split; [done|]]. by apply phase_not_live.
Qed.

(** The newest message of a case is inbound. *)
Definition unanswered (i : string) (t : tables) : bool :=
  match head (merge_sort later_message (keep (λ m, is_id i m.(ms_case_id)) (t_messages t))) with
  | Some m => negb m.(ms_from_me)
  | None => false
  end.

Lemma exec_hasUnansweredLatestTurn i t Q E :
  Q (unanswered i t) t → exec (hasUnansweredLatestTurn i) t Q E.
Proof.
  intros HQ. unfold hasUnansweredLatestTurn. exec_step. exec_step. unfold unanswered in HQ. cbn.
  destruct (head _); by apply exec_ret.
Qed.

(** Why a resolve fails. *)
Inductive resolve_error (k : thread_kind) (x : string) (input : ResolveCaseInput) (t : tables)
    : err → Prop :=
| resolve_needs_notes msg : input.(ri_outcome) = other →
    truthy (trim <$> input.(ri_notes)) = false → resolve_error k x input t (ValidationError msg)
| resolve_refused e : refused k x input.(ri_resolvedBy) t e → resolve_error k x input t e
| resolve_no_case msg : (∀ i st, phase_of x t ≠ Live i st) → resolve_error k x input t (ConflictError msg)
| resolve_unanswered msg i st : input.(ri_outcome) = handled → phase_of x t = Live i st →
    unanswered i t = true → resolve_error k x input t (ValidationError msg)
| resolve_clock msg case z : case ∈ t_cases t → case_of x case = true →
    clock_reading z → (z < case.(cc_opened_at))%Z → resolve_error k x input t (CheckViolation msg).

Lemma resolve_in_exec k x input t :
  Inv t → dispatched k x t →
  exec (resolve_in (scope_of k x) input) t
    (λ c t', advance x t t' ∧ phase_of x t' = Closed
       ∧ allowed k x input.(ri_resolvedBy) t
       ∧ (∃ st, phase_of x t = Live c.(id) st)
       ∧ (input.(ri_outcome) = handled → unanswered c.(id) t = false)
       ∧ (c.(status), c.(resolutionOutcome), c.(resolvedBy), c.(resolutionNotes))
         = (resolved, Some input.(ri_outcome), Some input.(ri_resolvedBy),
            trimmed_or_null input.(ri_notes))
       ∧ ∃ row, row ∈ t_cases t' ∧ toConversationCase row = c)
    (λ e t', t' = t ∧ resolve_error k x input t e).
Proof.
  intros Hi Hd. unfold resolve_in. exec_step; to_prop.
  { apply exec_throw. split; [done|]. by apply resolve_needs_notes. }
  assert (Hnotes : ri_outcome input = other → truthy (trim <$> ri_notes input) = true).
  { intros Ho. rewrite bool_decide_eq_true_2 in E by done. cbn in E. by to_prop. }
  exec_step. apply exec_guard; [done| |by intros; split; [|constructor]]. intros Hallow.
  assert (Hx := proj1 Hallow). rewrite sc_id_scope_of. exec_step.
  apply (exec_getActiveCase k); [done|done|].
  destruct (active_case x t) as [k0|] eqn:Hk0; cbn [fmap option_fmap option_map].
  2: { apply exec_throw. split; [done|]. apply resolve_no_case. by apply phase_not_live. }
  assert (Hk := active_case_Some _ _ _ Hk0). destruct Hk as (Hk & Hkx & Hka).
  assert (Hph0 : phase_of x t = Live k0.(cc_id) k0.(cc_status)).
  { unfold phase_of. rewrite (phase_live x _ k0); try done. intros; by apply (active_unique x t). }
  exec_step.
  eapply (exec_weaken _ _ (λ b t', t' = t ∧
     b = (bool_decide (ri_outcome input = handled) && unanswered (cc_id k0) t)) _ (λ _ _, False));
    [|intros b t' [-> ->]|done].
  { destruct (bool_decide (ri_outcome input = handled)); [apply exec_hasUnansweredLatestTurn|apply exec_ret]; done. }
  exec_step; to_prop.
  { apply exec_throw. split; [done|]. by eapply resolve_unanswered. }
  do 5 exec_step. set (p := λ r, _ && is_active r).
  assert (Hp : ∀ r, r ∈ t_cases t → p r = true ↔ r = k0).
  { intros r Hr. unfold p. rewrite andb_true_iff, bool_decide_eq_true. split; [|by intros ->].
    intros [Hid _]. apply (case_id_unique _ (inv_cases t Hi)); done. }
  assert (Hres := cases_resolved t Hi p z (ri_resolvedBy input) (ri_outcome input) (ri_notes input) z0).
  cbn zeta in Hres. destruct Hres as [[Hok Hle]|[Hbad (k1 & Hk1 & Hpk1 & Hlt)]]; [|done|..].
  { intros r Hr ->%Hp; done. }
  2: { apply exec_update_returning; change (rows cases t) with (t_cases t);
       change (constraint cases) with case_constraint; intros; [congruence|].
       rewrite Hbad in *. simplify_eq. split; [done|]. apply Hp in Hpk1 as ->; [|done].
       by apply resolve_clock with (case := k0) (z := z). }
  apply exec_update_returning; change (rows cases t) with (t_cases t);
    change (constraint cases) with case_constraint; [|congruence]. intros _.
  rewrite (update_active_case x t k0) by done. exec_step. apply exec_sync; [done|done|].
  intros t' Hsync. cbn in Hsync. apply exec_ret.
  destruct (advance_changed x t p (set_resolution z (ri_resolvedBy input) (ri_outcome input)
    (trimmed_or_null (ri_notes input)) z0) k0 resolved t') as [Hadv Hph]; try done;
    [by constructor|].
  split; [done|]. split; [done|]. split; [done|]. split; [by eexists|]. split; [|split; [done|]].
  - intros Ho. rewrite bool_decide_eq_true_2 in E0 by done. done.
  - eexists. split; [|done]. rewrite (synced_cases _ _ _ _ _ Hsync). apply elem_of_update_where.
    exists k0. by rewrite (proj2 (Hp k0 Hk)).
Qed.

(** The case that an operation inserts for a thread without an active one. *)
Lemma exec_insert_case (a : case_row → bool) c v co kd z msg src by_ pol prior reason x t Q
    (E : err → tables → Prop) :
  Inv t → (∀ r, r ∈ t_cases t → a r = case_of x r) →
  keys_ok t c v → thread_of c v = Some x →
  bool_decide (src = manual) = bool_decide (is_Some by_) →
  (∀ k, active_case x t = Some k → Q None t) →
  (∀ i now, let targets := resolveCaseTargets pol kd in
     let k := mkCase i c v co kd open z msg src by_ pol.(sp_id) targets.1 targets.2 prior reason
                None None None None now now in
     active_case x t = None →
     (∀ t', synced x (Some i) open (set_rows cases (t_cases t ++ [k]) t) t' →
            advance x t t' ∧ phase_of x t' = Live i open) →
     Q (Some k) (set_rows cases (t_cases t ++ [k]) t)) →
  ((∃ u, drawn_uuid u ∧ u ∈ cc_id <$> t_cases t) →
   E (UniqueViolation "conversation_cases_pkey") t) →
  exec (insert_case a c v co kd z msg src by_ pol prior reason) t Q E.
Proof.
  intros Hi Ha Hk Hx Hsrc HN HS HE. unfold insert_case. do 4 exec_step.
  set (k := mkCase _ _ _ _ _ _ _ _ _ _ _ _ _ _ _ _ _ _ _ _ _).
  assert (Hkx : case_of x k = true) by (apply case_of_eq; exact Hx).
  assert (Hany : holds_any (λ r, a r && is_active r) (t_cases t)
                 = bool_decide (is_Some (active_case x t))).
  { unfold active_case. rewrite <- first_holds_any. apply eq_true_iff_eq. rewrite !holds_any_true.
    split; intros (r & Hr & Hp); exists r; (split; [done|]); by rewrite (Ha r Hr) in *. }
  assert (Hok : active_case x t = None → (∀ k', k' ∈ t_cases t → k'.(cc_id) ≠ u) →
            case_constraint (t_cases t ++ [k]) = None).
  { intros Hn Hid. apply (cases_insert_ok t Hi x); try done.
    - unfold open_source_actor_check. cbn. rewrite Hsrc. apply Bool.eqb_reflx.
    - by apply active_case_None. }
  apply exec_insert_on_conflict_nothing; change (rows cases t) with (t_cases t); rewrite Hany.
  - intros [k0 Hk0]%bool_decide_eq_true. by eapply HN.
  - intros Hn%bool_decide_eq_false%eq_None_not_Some Hc. apply HS; [done|]. intros t' Hs.
    apply (advance_opened x t k t'); try done. by apply active_case_None.
  - intros e Hn%bool_decide_eq_false%eq_None_not_Some Hc.
    destruct (decide (u ∈ cc_id <$> t_cases t)) as [Hin|Hni].
    + replace e with (UniqueViolation "conversation_cases_pkey"); [by eauto|].
      change (case_constraint (t_cases t ++ [k]) = Some e) in Hc. unfold case_constraint in Hc.
      rewrite checks_cons_Some in Hc. destruct Hc as [[_ ->]|[Hun _]]; [done|]. exfalso.
      apply list_elem_of_fmap in Hin as (k' & -> & Hk').
      unfold unique_on in Hun. rewrite bool_decide_eq_true, omap_app in Hun. cbn in Hun.
      apply NoDup_app in Hun as (_ & Hun & _). apply (Hun k'.(cc_id)); [|by left].
      apply list_elem_of_omap. by exists k'.
    + exfalso. change (constraint cases) with case_constraint in Hc. rewrite Hok in Hc; [done|done|].
      intros k' Hk' <-. apply Hni, list_elem_of_fmap. eauto.
Qed.

(** The newest case of a thread, by creation. *)
Definition most_recent (x : string) (t : tables) : option case_row :=
  head (merge_sort newer_case (keep (case_of x) (t_cases t))).

Lemma most_recent_None x t : most_recent x t = None ↔ phase_of x t = Never.
Proof.
  unfold most_recent, phase_of, phase_in. rewrite head_None.
  assert (Hp := merge_sort_Permutation newer_case (keep (case_of x) (t_cases t))).
  split.
  - intros Hs. rewrite Hs in Hp. symmetry in Hp. apply Permutation_nil_r in Hp.
    assert (Hn := proj1 (keep_nil_iff _ _) Hp).
    rewrite (proj2 (first_None _ _)), (proj2 (holds_any_false _ _)); [done|done|].
    intros r Hr. by rewrite Hn.
  - destruct (first _ _); [done|]. destruct (holds_any _ _) eqn:E; [done|]. intros _.
    rewrite holds_any_false in E. rewrite (proj2 (keep_nil_iff _ _) E) in *.
    by apply Permutation_nil_r.
Qed.

Lemma most_recent_case x t k : most_recent x t = Some k → k ∈ t_cases t ∧ case_of x k = true.
Proof.
  unfold most_recent. intros Hh%head_Some_elem_of.
  rewrite merge_sort_Permutation, elem_of_keep in Hh. tauto.
Qed.

Lemma exec_getMostRecentCase k x t Q E :
  Inv t → thread_ok k x t → Q (toConversationCase <$> most_recent x t) t →
  exec (getMostRecentCase x) t Q E.
Proof.
  intros Hi Hx HQ. unfold getMostRecentCase. exec_step. exec_step. apply exec_ret.
  change (rows cases t) with (t_cases t). rewrite (keep_ext (of_either x) (case_of x)); [done|].
  intros r Hr. by apply (case_selected k x t); [apply Hi| |apply (inv_case_keys t)].
Qed.

(** The policy in force. *)
Definition current_policy (company : string) (t : tables) : option policy_row :=
  head (merge_sort newer_policy
    (keep (λ r, bool_decide (r.(sp_company_id) = company)) (t_policies t))).

Lemma exec_getCurrentSlaPolicy co t Q (E : err → tables → Prop) :
  (∀ pol, current_policy co t = Some pol → Q pol t) →
  (current_policy co t = None → E (NotFoundError "SLA policy") t) →
  exec (getCurrentSlaPolicy co) t Q E.
Proof.
  intros HQ HE. unfold getCurrentSlaPolicy. exec_step. exec_step.
  unfold current_policy in *. cbn in *. destruct (head _); [apply exec_ret|apply exec_throw]; auto.
Qed.

(** The phase a manual open starts from. *)
Definition expected_phase (m : open_mode) : phase :=
  match m with mode_open => Never | mode_reopen => Closed end.

Inductive open_error (k : thread_kind) (x : string) (input : ManualOpenCaseInput) (t : tables)
    : err → Prop :=
| open_refused e : refused k x input.(oi_openedBy) t e → open_error k x input t e
| open_wrong_phase msg : phase_of x t ≠ expected_phase input.(oi_expectedMode) →
    open_error k x input t (ConflictError msg)
| open_needs_reason msg : input.(oi_expectedMode) = mode_reopen → phase_of x t ≠ Never →
    truthy (trim <$> input.(oi_reason)) = false → open_error k x input t (ValidationError msg)
| open_no_policy : current_policy input.(oi_companyId) t = None →
    open_error k x input t (NotFoundError "SLA policy")
| open_id_clash index u : drawn_uuid u → u ∈ cc_id <$> t_cases t →
    open_error k x input t (UniqueViolation index).

(** What a manual open returns: the snapshot of the policy, who opened the case,
    and the case it reopens. *)
Definition opened_as (x : string) (isGroup : bool) (input : ManualOpenCaseInput) (t : tables)
    (c : ConversationCase) : Prop :=
  ∃ pol, current_policy input.(oi_companyId) t = Some pol
  ∧ (c.(status), c.(openSource), c.(openedBy), c.(openingMessageId))
    = (open, manual, Some input.(oi_openedBy), None)
  ∧ (c.(policyId), (c.(responseTargetMinutes), c.(resolutionTargetMinutes)))
    = (pol.(sp_id), resolveCaseTargets pol (kind_of isGroup))
  ∧ c.(reopenedFromCaseId) = cc_id <$> most_recent x t
  ∧ c.(reopenReason) = trimmed_or_null input.(oi_reason).

Lemma exec_columns k x t Q E :
  Inv t → thread_ok k x t →
  (∀ c v, keys_ok t c v → thread_of c v = Some x → Q (c, v) t) →
  exec ((scope_of k x).(sc_columns)) t Q E.
Proof.
  intros Hi Hx HQ. destruct k; cbn [scope_of contact_scope conversation_scope sc_columns].
  - exec_step. apply exec_conversationIdForContact. apply exec_ret, HQ; [|done]. by split.
  - apply exec_ret, HQ; [|done]. destruct Hx as (r & Hr & <- & Hl). exists r. done.
Qed.

Definition open_post (k : thread_kind) (x : string) (isGroup : bool) (input : ManualOpenCaseInput)
    (t : tables) (c : ConversationCase) (t' : tables) : Prop :=
  advance x t t' ∧ phase_of x t' = Live c.(id) open
  ∧ allowed k x input.(oi_openedBy) t
  ∧ phase_of x t = expected_phase input.(oi_expectedMode)
  ∧ opened_as x isGroup input t c ∧ t_assignments t' = t_assignments t.

Lemma open_after_mode_check_exec k x isGroup input t :
  Inv t → allowed k x input.(oi_openedBy) t →
  (is_Some (most_recent x t) ↔ oi_expectedMode input = mode_reopen) →
  exec (open_after_mode_check (scope_of k x) isGroup input (toConversationCase <$> most_recent x t)) t
    (open_post k x isGroup input t) (λ e t', t' = t ∧ open_error k x input t e).
Proof.
  intros Hi Hallow Hprior. assert (Hx := proj1 Hallow). assert (Hnever := most_recent_None x t).
  unfold open_after_mode_check. exec_step; to_prop.
  { rewrite fmap_is_Some in *. apply exec_throw. split; [done|].
    apply open_needs_reason; [by apply Hprior| |done].
    intros Hp%Hnever. rewrite Hp in *. by destruct H0. }
  exec_step. apply exec_getCurrentSlaPolicy; [|by intros; split; [|apply open_no_policy]].
  intros pol Hpol. do 3 exec_step. apply exec_columns; [done|done|]. intros c v Hkeys Hthread.
  exec_step. apply (exec_insert_case _ _ _ _ _ _ _ _ _ _ _ _ x); try done.
  - intros r Hr. destruct (case_selected k x t r) as [_ Hs]; [apply Hi|done|by apply (inv_case_keys t)|].
    by destruct k.
  - intros k0 Hk0. apply exec_throw. split; [done|]. apply open_wrong_phase.
    assert (Hl : ∃ i st, phase_of x t = Live i st).
    { unfold phase_of, phase_in. unfold active_case in Hk0. rewrite Hk0. eauto. }
    destruct Hl as (i & st & ->). by destruct (oi_expectedMode input).
  - intros i now targets k0 Hn Hadv. exec_step. apply exec_sync; [done|done|].
    intros t' Hs. apply exec_ret. destruct (Hadv t' Hs) as [Ha Hp].
    split; [done|]. split; [done|]. split; [done|]. split; [|split].
    + unfold phase_of, phase_in. unfold active_case in Hn. rewrite Hn.
      destruct (holds_any (case_of x) (t_cases t)) eqn:Hh.
      * destruct (oi_expectedMode input) eqn:Hm; [|done]. exfalso.
        destruct (most_recent x t) eqn:Hr; [by specialize (proj1 Hprior ltac:(eauto))|].
        assert (Hp0 : phase_of x t = Never) by (by apply Hnever).
        unfold phase_of, phase_in in Hp0. by rewrite Hn, Hh in Hp0.
      * destruct (oi_expectedMode input) eqn:Hm; [done|]. exfalso.
        destruct (proj2 Hprior eq_refl) as [k1 Hk1].
        apply most_recent_case in Hk1 as [Hin Hc1]. rewrite holds_any_false in Hh.
        by rewrite (Hh k1 Hin) in Hc1.
    + exists pol. split_and!; try done; cbn.
      * by destruct (resolveCaseTargets pol (kind_of isGroup)).
      * by destruct (most_recent x t).
    + destruct Hs as (l & -> & _). done.
  - intros (u & Hu & Hin). split; [done|by eapply open_id_clash].
Qed.

(** Opening or reopening a case by hand. *)
Lemma open_within_exec k x isGroup input t :
  Inv t → dispatched k x t →
  exec (open_within (scope_of k x) isGroup input) t
    (open_post k x isGroup input t) (λ e t', t' = t ∧ open_error k x input t e).
Proof.
  intros Hi Hd. unfold open_within. apply exec_guard; [done| |by intros; split; [|constructor]].
  intros Hallow. assert (Hx := proj1 Hallow). rewrite sc_id_scope_of. exec_step.
  apply (exec_getMostRecentCase k); [done|done|].
  assert (Hnever := most_recent_None x t). assert (Hgo := open_after_mode_check_exec k x isGroup input t Hi Hallow).
  destruct (oi_expectedMode input) eqn:Hm, (most_recent x t) as [k0|] eqn:Hr;
    cbn [fmap option_fmap option_map].
  - apply exec_throw. split; [done|]. apply open_wrong_phase. rewrite Hm. cbn. intros Hp%Hnever. done.
  - apply Hgo. split; [by intros []|done].
  - apply Hgo. split; [done|eauto].
  - apply exec_throw. split; [done|]. apply open_wrong_phase. rewrite Hm. cbn. by rewrite (proj1 Hnever).
Qed.
End manual.

(** ** The inbound transitions *)

Section inbound.
Context `{Oracle}.

(** A projection write for thread [x], in any tables with the contacts,
    conversations and projections of [t]. *)
Definition syncs (x : string) (t : tables) (sync : ProjectionSync → M unit) : Prop :=
  ∀ s t1, t_contacts t1 = t_contacts t → t_conversations t1 = t_conversations t →
  t_states t1 = t_states t →
  exec (sync s) t1 (λ _ t', synced x s.(ps_activeCaseId) s.(ps_status) t1 t') (λ _ _, False).

Lemma syncs_contact c t : Inv t → is_contact c t → syncs c t (syncProjection c).
Proof.
  intros [Hd _ Hk _ Hs _ _] (r & Hr & Hid) s t1 Hc Hv Hst. apply syncProjection_exec.
  - by apply (directory_ok_static t).
  - rewrite Hst. intros r' Hr'. apply (keys_ok_static t); auto.
  - by rewrite Hst.
  - exists r. by rewrite Hc.
Qed.

Lemma syncs_conversation v linked x t :
  Inv t → linked_thread v linked x t → syncs x t (syncConversationProjection v linked).
Proof.
  intros [Hd _ Hk _ Hs _ _] Hl s t1 Hc Hv Hst. apply syncConversationProjection_exec.
  - by apply (directory_ok_static t).
  - rewrite Hst. intros r' Hr'. apply (keys_ok_static t); auto.
  - by rewrite Hst.
  - unfold linked_thread, is_thread_conversation, is_conversation in *. by rewrite Hv.
Qed.

Lemma assignments_ok_static t t' :
  t_contacts t' = t_contacts t → t_conversations t' = t_conversations t →
  t_assignments t' = t_assignments t → assignments_ok t → assignments_ok t'.
Proof.
  intros Hc Hv Ha [Hok Hk]. unfold assignments_ok. rewrite Ha. split; [done|].
  intros a Hin. apply (keys_ok_static t); auto.
Qed.

Lemma synced_same_core x a st t1 t2 t' :
  same_core t1 t2 → synced x a st t2 t' →
  ∃ t'', synced x a st t1 t'' ∧ same_core t'' t'
         ∧ t_assignments t' = t_assignments t2 ∧ (assignments_ok t2 → assignments_ok t').
Proof.
  intros (Hc & Hv & Hk & Hs) (l & -> & Hl & Hkeys & Hx & Hy).
  exists (set_rows states l t1). split; [|repeat split; by try apply (assignments_ok_static t2)]. exists l.
  split_and!; [done|done| |done|by rewrite <- Hs].
  intros r Hr. by apply (keys_ok_static t2); [..|apply Hkeys].
Qed.

Lemma close_assignments_ok p z t :
  constraint assignments (t_assignments t) = None →
  constraint assignments (update_where p (close_assignment z) (t_assignments t)) = None.
Proof.
  unfold constraint, assignments. rewrite !checks_cons. intros (U1 & U2 & _).
  split_and!; [apply unique_on_update..|done]; auto.
Qed.

(** The assignment of the inbound functions: by contact or by conversation. *)
Definition currentAssignment_of (k : thread_kind) (x : string) : M (option assignment_row) :=
  match k with
  | thread_contact => getCurrentAssignment x None
  | thread_conversation => getCurrentConversationAssignment x
  end.
Definition unassign_of (k : thread_kind) (x : string) : M unit :=
  match k with
  | thread_contact => unassignContact x
  | thread_conversation => unassignConversation x
  end.

Lemma exec_currentAssignment k x t Q E :
  (∀ a, ca_assigned_to <$> a = owner_of k x t → Q a t) → exec (currentAssignment_of k x) t Q E.
Proof.
  intros HQ. destruct k; cbn; unfold getCurrentAssignment, getCurrentConversationAssignment;
    exec_step; by apply HQ.
Qed.

Lemma assignments_ok_closed p z t :
  assignments_ok t →
  assignments_ok (set_rows assignments (update_where p (close_assignment z) (t_assignments t)) t).
Proof.
  intros [Hok Hk]. split; [by apply close_assignments_ok|]. cbn.
  intros a (y & Hy & ->)%elem_of_update_where. destruct (p y); by apply (Hk y).
Qed.

Lemma exec_unassign k x t Q E :
  assignments_ok t →
  (∀ t', same_core t t' → assignments_ok t' →
     owner_of k x t' = None → t_messages t' = t_messages t → Q tt t') →
  exec (unassign_of k x) t Q E.
Proof.
  intros Ha HQ.
  assert (Hgo : ∀ p q z, (∀ r, p r = q r && active_assignment r) →
    (∀ z' r, q (close_assignment z' r) = q r) →
    (∀ t', owner_of k x t' = ca_assigned_to <$> first p (t_assignments t')) →
    exec (_ ← update assignments p (close_assignment z); mret tt) t Q E).
  { intros p q z Hp Hq Hown. exec_step. apply exec_update; change (rows assignments t) with (t_assignments t).
    2: { intros e. rewrite close_assignments_ok; [done|apply Ha]. }
    intros Hc. apply exec_ret, HQ; [done|by apply assignments_ok_closed| |done]. rewrite Hown.
    replace (first p _) with (@None assignment_row); [done|]. symmetry. apply first_None.
    intros r (y & Hy & ->)%elem_of_update_where. destruct (p y) eqn:E0; [|done].
    rewrite Hp. unfold active_assignment. cbn. by rewrite andb_false_r. }
  destruct k; cbn; unfold unassignContact, unassignConversation; exec_step; exec_step.
  - apply (Hgo _ (λ r, is_id x r.(ca_contact_id))); try done.
    intros t'. unfold owner_of. f_equal. apply first_ext. intros. apply andb_comm.
  - by apply (Hgo _ (λ r, is_id x r.(ca_conversation_id))).
Qed.

Lemma exec_stamp i msg t Q E :
  (∀ t', same_core t t' → t_assignments t' = t_assignments t →
     (∀ m, m ∈ t_messages t' → m.(ms_id) = msg → m.(ms_case_id) = Some i) → Q tt t') →
  exec (stamp_final (Some i) msg) t Q E.
Proof.
  intros HQ. cbn. unfold stamp_case. exec_step. apply exec_update; [|done]. intros _.
  apply exec_ret, HQ; [done|done|]. cbn.
  intros m (y & Hy & ->)%elem_of_update_where. by case_bool_decide.
Qed.

(** What the two branches leave: the thread is live and open with case [i]. *)
Record inbound_effect (k : thread_kind) (x y msg : string) (t : tables)
    (res : option InboundResult) (i : string) (t' : tables) : Prop := {
  ie_advance : advance x t t';
  ie_open : phase_of x t' = Live i open;
  ie_result :
    match res with
    | None => phase_of x t = Live i open ∧ t_assignments t' = t_assignments t
    | Some r =>
        r.(ir_case).(id) = i ∧
        ((phase_of x t = Live i pending ∧ r.(ir_wasAutoReopen) = false
          ∧ r.(ir_unassignedPreviousAssignee) = None ∧ t_assignments t' = t_assignments t)
         ∨ ((∀ j st, phase_of x t ≠ Live j st)
            ∧ r.(ir_wasAutoReopen) = bool_decide (projection_of x t = Some (None, resolved))
            ∧ (r.(ir_case).(openSource), r.(ir_case).(openingMessageId), r.(ir_case).(openedBy))
              = (live_inbound, Some msg, None)
            ∧ if r.(ir_wasAutoReopen)
              then r.(ir_unassignedPreviousAssignee) = owner_of k y t
                   ∧ owner_of k y t' = None
                   ∧ r.(ir_case).(reopenedFromCaseId) = cc_id <$> most_recent x t
              else r.(ir_unassignedPreviousAssignee) = None
                   ∧ t_assignments t' = t_assignments t
                   ∧ r.(ir_case).(reopenedFromCaseId) = None))
    end }.

Definition inbound_done (k : thread_kind) (x y msg : string) (t : tables)
    (o : option InboundResult * option string) (t' : tables) : Prop :=
  ∃ i, o.2 = Some i ∧ inbound_effect k x y msg t o.1 i t'.

Lemma not_live_phase x t : active_case x t = None → ∀ j st, phase_of x t ≠ Live j st.
Proof. intros Hn. by apply phase_not_live. Qed.

Lemma inbound_created_exec k x y msg t row sync z isReopen :
  Inv t → syncs x t sync → active_case x t = None →
  isReopen = bool_decide (projection_of x t = Some (None, resolved)) →
  let t1 := set_rows cases (t_cases t ++ [row]) t in
  (row.(cc_open_source), row.(cc_opening_message_id), row.(cc_opened_by)) = (live_inbound, Some msg, None) →
  row.(cc_reopened_from_case_id) = (if isReopen then cc_id <$> most_recent x t else None) →
  (∀ t', synced x (Some row.(cc_id)) open t1 t' →
         advance x t t' ∧ phase_of x t' = Live row.(cc_id) open) →
  exec (inbound_created (currentAssignment_of k y) (unassign_of k y) sync isReopen z row) t1
    (inbound_done k x y msg t) (λ _ _, False).
Proof.
  intros Hi Hsync Hn HisReopen t1 Hrow Hprior Hadv. unfold inbound_created.
  assert (Hlive := not_live_phase x t Hn).
  assert (Htail : ∀ prev t2, same_core t1 t2 → assignments_ok t2 →
    (if isReopen then prev = owner_of k y t ∧ owner_of k y t2 = None
     else prev = None ∧ t_assignments t2 = t_assignments t) →
    exec (_ ← sync (sync_opened row.(cc_id) isReopen z None);
          mret (Some (mkInboundResult (toConversationCase row) isReopen prev), Some row.(cc_id))) t2
      (inbound_done k x y msg t) (λ _ _, False)).
  { intros prev t2 Hsc Hca Hprev. exec_step.
    eapply exec_weaken; [apply Hsync; apply Hsc| |by intros]. intros [] t' Hs.
    apply (synced_same_core _ _ _ t1) in Hs as (t'' & Hs & Hsc' & Has & Haok); [|done].
    apply Hadv in Hs as [Hav Hph]. apply exec_ret. exists row.(cc_id). split; [done|]. cbn [fst].
    split; [by apply (advance_same_core x t t''); [|apply Haok|]| |].
    - unfold phase_of in *. destruct Hsc' as (_ & _ & -> & _). done.
    - cbn. split; [done|]. right. split; [done|]. split; [done|]. split; [done|].
      assert (Hown : owner_of k y t' = owner_of k y t2) by (unfold owner_of; by rewrite Has).
      destruct isReopen, Hprev as [Hp1 Hp2].
      + by rewrite Hown.
      + by rewrite Has. }
  destruct isReopen eqn:Hr; cbn [mret M_ret].
  - exec_step. exec_step. apply exec_currentAssignment. intros a Ha.
    destruct a as [a|]; cbn in Ha.
    + exec_step. apply exec_unassign; [apply Hi|]. intros t2 Hsc Hca Hown Hms. apply exec_ret.
      by apply Htail.
    + apply exec_ret, Htail; [done|apply Hi|]. by split.
  - exec_step. apply exec_ret, Htail; [done|apply Hi|done].
Qed.

Lemma phase_active_case x t k :
  Inv t → active_case x t = Some k → phase_of x t = Live k.(cc_id) k.(cc_status).
Proof.
  intros Hi (Hk & Hx & Ha)%active_case_Some. unfold phase_of.
  apply phase_live; [done..|]. intros. by apply (active_unique x t).
Qed.

Lemma inbound_existing_exec k x y msg t k0 sync reread :
  Inv t → syncs x t sync → active_case x t = Some k0 →
  exec (inbound_existing sync (Some (toConversationCase k0)) reread) t
    (inbound_done k x y msg t) (λ _ _, False).
Proof.
  intros Hi Hsync Hk0. assert (Hph := phase_active_case x t k0 Hi Hk0).
  assert (Hk := active_case_Some _ _ _ Hk0). destruct Hk as (Hk & Hkx & Hka).
  unfold inbound_existing. exec_step. destruct (bool_decide _) eqn:Hst; to_prop; cbn in Hst.
  - exec_step. unfold flip_to_open. do 3 exec_step.
    set (p := λ r, _ && bool_decide (cc_status r = pending)).
    assert (Hp : ∀ r, r ∈ t_cases t → p r = true ↔ r = k0).
    { intros r Hr. unfold p. rewrite andb_true_iff, !bool_decide_eq_true. split; [|by intros ->].
      intros [Hid _]. apply (case_id_unique _ (inv_cases t Hi)); done. }
    apply exec_update_returning; change (rows cases t) with (t_cases t).
    2: { intros e. change (constraint cases) with case_constraint.
         rewrite cases_status_ok; [done|done|done|]. by intros r Hr ->%Hp. }
    intros Hc. apply exec_ret. rewrite (update_active_case x t k0) by done. exec_step.
    eapply exec_weaken; [by apply Hsync| |by intros]. intros [] t' Hs. apply exec_ret.
    destruct (advance_changed x t p (set_status open z) k0 open t') as [Hadv Hph']; try done.
    { rewrite Hst. constructor. }
    cbn in Hph'. apply exec_ret. exists k0.(cc_id). split; [done|]. split; [done|done|].
    cbn. split; [done|]. left. rewrite Hph, Hst. split; [done|]. split; [done|]. split; [done|].
    by destruct Hs as (l & -> & _).
  - apply exec_ret. exec_step. apply exec_ret. cbn iota. exec_step.
    assert (Hopen : k0.(cc_status) = open).
    { unfold is_active in Hka. by destruct (cc_status k0). }
    eapply exec_weaken; [by apply Hsync| |by intros]. intros [] t' Hs. apply exec_ret.
    cbn in Hs. rewrite Hopen in Hs, Hph.
    exists k0.(cc_id). split; [done|]. split; cbn.
    + apply (advance_healed x t (Some k0.(cc_id)) open); [done| |done]. by rewrite Hph.
    + unfold phase_of. rewrite (synced_cases _ _ _ _ _ Hs). apply Hph.
    + split; [done|]. by destruct Hs as (l & -> & _).
Qed.

(** The whole effect of an inbound message: the branch's effect, and the message
    belongs to the live case. *)
Definition inbound_post (k : thread_kind) (x y msg : string) (t : tables)
    (res : option InboundResult) (t' : tables) : Prop :=
  ∃ i, inbound_effect k x y msg t res i t'
  ∧ ∀ m, m ∈ t_messages t' → m.(ms_id) = msg → m.(ms_case_id) = Some i.

Lemma inbound_effect_same_core k x y msg t res i t' t'' :
  same_core t' t'' → t_assignments t'' = t_assignments t' →
  inbound_effect k x y msg t res i t' → inbound_effect k x y msg t res i t''.
Proof.
  intros Hsc Has [Ha Ho Hr]. split.
  - apply (advance_same_core x t t'); [done| |done].
    apply (assignments_ok_static t'); [apply Hsc|apply Hsc|done|apply Ha].
  - unfold phase_of in *. by destruct Hsc as (_ & _ & -> & _).
  - assert (Hown : owner_of k y t'' = owner_of k y t') by (unfold owner_of; by rewrite Has).
    by rewrite Has, Hown.
Qed.

Lemma exec_inbound_finish (m : M (option InboundResult * option string)) k x y msg t t1 E :
  exec m t1 (inbound_done k x y msg t) (λ _ _, False) →
  exec (outcome ← m; _ ← stamp_final outcome.2 msg; mret outcome.1) t1 (inbound_post k x y msg t) E.
Proof.
  intros Hm. exec_step. eapply exec_weaken; [exact Hm| |by intros].
  intros [res fin] t' (i & [= ->] & Heff). exec_step. apply exec_stamp.
  intros t'' Hsc Has Hst. apply exec_ret. exists i. split; [|done].
  by eapply inbound_effect_same_core.
Qed.

Lemma projection_resolved x t p :
  (∀ r, r ∈ t_states t → p r = state_of x r) → Inv t → active_case x t = None →
  bool_decide (cs_status <$> first p (t_states t) = Some resolved)
  = bool_decide (projection_of x t = Some (None, resolved)).
Proof.
  intros Hp Hi Hn. assert (Hm := inv_mirror t Hi x).
  assert (Hlive := not_live_phase x t Hn).
  rewrite (first_ext p (state_of x)) by done. unfold projection_of, projection_in in *.
  destruct (first (state_of x) (t_states t)) as [r|]; [|done]. cbn in *.
  apply bool_decide_ext. destruct (phase_of x t) as [|i st|]; cbn in Hm.
  - destruct Hm as [|Hm]; [done|]. injection Hm as -> ->. done.
  - by destruct (Hlive i st).
  - injection Hm as -> ->. done.
Qed.

Lemma openOrReopenCaseForInboundMessage_exec company c isGroup msg t :
  Inv t →
  exec (openOrReopenCaseForInboundMessage company (mkContactArg c isGroup) msg) t
    (inbound_post thread_contact c c msg t)
    (λ e t', t' = t ∧ ((¬ is_contact c t ∧ ∃ r, e = NotFoundError r)
       ∨ (current_policy company t = None ∧ e = NotFoundError "SLA policy")
       ∨ ((∃ u, drawn_uuid u ∧ u ∈ cc_id <$> t_cases t)
          ∧ e = UniqueViolation "conversation_cases_pkey"))).
Proof.
  intros Hi. unfold openOrReopenCaseForInboundMessage. cbn [ca_arg_id ca_arg_isGroup]. exec_step.
  apply (exec_lock thread_contact c); [done| |].
  2: { intros r Hr. split; [done|]. left. eauto. }
  intros Hx. exec_step.
  apply exec_conversationIdForContact. do 2 exec_step. exec_step.
  apply exec_getCurrentSlaPolicy; [|by intros; split; [|tauto]]. intros pol Hpol. do 2 exec_step.
  change (rows states t) with (t_states t).
  assert (Hsel : ∀ r, r ∈ t_states t → state_of_contact c r = state_of c r).
  { intros r Hr. apply (keys_of_contact t); [apply Hi|done|by apply (inv_state_keys t)]. }
  assert (Hcs : ∀ r, r ∈ t_cases t → of_contact c r = case_of c r).
  { intros r Hr. by apply (case_selected thread_contact c t);
      [apply Hi| |apply (inv_case_keys t)]. }
  set (isReopen := bool_decide _). exec_step.
  eapply (exec_weaken _ _ (λ p t', t' = t
     ∧ p = (if isReopen then toConversationCase <$> most_recent c t else None)) _ (λ _ _, False));
    [|intros prior t' [-> ->]|done].
  { destruct isReopen; [by apply (exec_getMostRecentCase thread_contact)|by apply exec_ret]. }
  exec_step. apply (exec_insert_case _ _ _ _ _ _ _ _ _ _ _ _ c); try done; [|..|by auto].
  - intros k0 Hk0. apply exec_inbound_finish. exec_step.
    apply (exec_getActiveCase thread_contact); [done|done|]. rewrite Hk0.
    by apply inbound_existing_exec; [|apply syncs_contact|].
  - intros i now targets row Hn Hadv. apply exec_inbound_finish.
    apply (inbound_created_exec thread_contact c c); try done; [by apply syncs_contact| |].
    + by apply projection_resolved.
    + cbn. destruct isReopen; [|done]. by destruct (most_recent c t).
Qed.

Lemma openOrReopenCaseForInboundConversation_exec company v linked isGroup msg x t :
  Inv t → linked_thread v linked x t →
  exec (openOrReopenCaseForInboundConversation company v linked isGroup msg) t
    (inbound_post thread_conversation x v msg t)
    (λ e t', t' = t ∧ ((current_policy company t = None ∧ e = NotFoundError "SLA policy")
       ∨ ((∃ u, drawn_uuid u ∧ u ∈ cc_id <$> t_cases t)
          ∧ e = UniqueViolation "conversation_cases_pkey"))).
Proof.
  intros Hi Hv. unfold openOrReopenCaseForInboundConversation. exec_step.
  unfold lockConversation. exec_step. exec_step.
  destruct (first _ _) as [v0|] eqn:Hlock.
  2: { exfalso. rewrite first_None in Hlock.
       assert (Hex : ∃ r, r ∈ t_conversations t ∧ r.(cv_id) = v).
       { destruct linked; destruct Hv as [_ (r & Hr & Hid & _)]; eauto. }
       destruct Hex as (r & Hr & Hid). specialize (Hlock r Hr). by to_prop. }
  apply exec_ret. do 2 exec_step. exec_step.
  apply exec_getCurrentSlaPolicy; [|by intros; split; [|tauto]]. intros pol Hpol. do 2 exec_step.
  change (rows states t) with (t_states t).
  assert (Hd := inv_directory t Hi).
  assert (Hsel : ∀ r, r ∈ t_states t → state_of_conversation v r = state_of x r).
  { intros r Hr. by apply (linked_selects t Hd v linked x Hv), (inv_state_keys t). }
  assert (Hcs : ∀ r, r ∈ t_cases t → of_conversation v r = case_of x r).
  { intros r Hr. by apply (linked_selects t Hd v linked x Hv), (inv_case_keys t). }
  set (isReopen := bool_decide _). exec_step.
  eapply (exec_weaken _ _ (λ p t', t' = t
     ∧ p = (if isReopen then most_recent x t else None)) _ (λ _ _, False));
    [|intros prior t' [-> ->]|done].
  { destruct isReopen; [|by apply exec_ret]. do 2 exec_step. apply exec_ret. split; [done|].
    unfold most_recent. change (rows cases t) with (t_cases t). by rewrite (keep_ext _ _ _ Hcs). }
  exec_step. apply (exec_insert_case _ _ _ _ _ _ _ _ _ _ _ _ x); try done; [| |..|by auto].
  - by apply (linked_keys t Hd v linked x).
  - by apply (linked_thread_of t).
  - intros k0 Hk0. apply exec_inbound_finish. do 2 exec_step. change (rows cases t) with (t_cases t).
    rewrite (first_ext _ (λ r, case_of x r && is_active r)) by (intros r Hr; by rewrite (Hcs r Hr)).
    unfold active_case in Hk0. rewrite Hk0.
    by apply inbound_existing_exec; [|apply syncs_conversation|].
  - intros i now targets row Hn Hadv. apply exec_inbound_finish.
    apply (inbound_created_exec thread_conversation x v); try done; [by apply syncs_conversation| |].
    + by apply projection_resolved.
    + cbn. destruct isReopen; [|done]. by destruct (most_recent x t).
Qed.
End inbound.
