(* ===== verification/LifecycleSpec.v ===== *)
(** Whole runs of the conversation workflow.

    The operations of Cases.v and SendAccess.v as the transitions of one system,
    each in its transaction, and the theorems about them: single runs on every
    branch, and invariants of every reachable state. *)

From S2P Require Import Prelude Js TenantDb Exec Steady Workflow Cases SendAccess Phase CaseRecords Lifecycle.

(** ** Claiming a thread *)

Section claims.
Context `{Oracle}.

(** Assigning a thread closes the assignment it has and opens [u]'s. *)
Lemma exec_insert_assignment k x c v u t Q E :
  directory_ok t → assignments_ok t → owner_of k x t = None → keys_ok t c v →
  match k with
  | thread_contact => c = Some x
  | thread_conversation => c = None ∧ v = Some x
  end →
  (∀ a t', same_core t t' → assignments_ok t' → owner_of k x t' = Some u → Q a t') →
  exec (insert_assignment c v u u) t Q E.
Proof.
  intros Hd [Hok Hk] Hown Hkeys Hcv HQ. unfold insert_assignment. do 4 exec_step.
  set (row := mkAssignment _ _ _ _ _ _ _). exec_step.
  assert (Hfirst : ∀ a, a ∈ t_assignments t → active_assignment a = true →
            thread_of a.(ca_contact_id) a.(ca_conversation_id) ≠ Some x).
  { intros a Ha Hact Hx. unfold owner_of in Hown. apply fmap_None in Hown.
    rewrite first_None in Hown. specialize (Hown a Ha). cbv beta in Hown. destruct k.
    - rewrite Hact in Hown. cbn in Hown. specialize (Hk a Ha).
      subst c. destruct Hkeys as [Hc _].
      rewrite (keys_of_contact t Hd x _ _ Hc Hk), (proj2 (is_id_eq _ _) Hx) in Hown. done.
    - rewrite Hact, andb_true_r in Hown. specialize (Hk a Ha). destruct Hcv as [-> ->].
      destruct Hkeys as (w & Hw & Hl & [= ->]).
      rewrite (keys_of_conversation t Hd w.(cv_id) a.(ca_contact_id)) in Hown;
        [|by exists w|done]. by rewrite (proj2 (is_id_eq _ _) Hx) in Hown. }
  assert (Hrow : thread_of c v = Some x) by (destruct k; [by subst|by destruct Hcv as [-> ->]]).
  assert (Hins : constraint assignments (t_assignments t ++ [row]) = None).
  { revert Hok. unfold constraint, assignments. rewrite !checks_cons. intros (U1 & U2 & _).
    assert (Hf : ∀ a, a ∈ t_assignments t → active_assignment a = true →
      (is_Some a.(ca_contact_id) → a.(ca_contact_id) ≠ c)
      ∧ (is_Some a.(ca_conversation_id) → a.(ca_conversation_id) ≠ v)).
    { intros a Ha Hact. apply (keys_ok_fresh t x); [done|done|by apply Hk|by apply is_id_eq|].
      apply bool_decide_eq_false. by apply Hfirst. }
    split_and!; [apply unique_on_app..|done]; try done; intros a Ha;
      unfold assignment_contact_key, assignment_conversation_key; cbn;
      destruct (ca_unassigned_at a) eqn:Eu; [by intros []| |by intros []|];
      apply Hf; try done; unfold active_assignment; by rewrite Eu. }
  apply exec_insert_row; change (rows assignments t) with (t_assignments t); [|by rewrite Hins].
  intros _. apply exec_ret, HQ; [by repeat split|split; [done|]|].
  - cbn. intros a [Ha|Ha]%elem_of_app; [by apply Hk|]. by apply list_elem_of_singleton in Ha as ->.
  - unfold owner_of in *. cbn. apply fmap_None in Hown. rewrite first_app, Hown.
    unfold first. rewrite keep_cons. destruct k; [subst c|destruct Hcv as [-> ->]]; cbn;
      unfold is_id; by rewrite bool_decide_eq_true_2.
Qed.

(** An unassigned thread is claimed without touching the lifecycle. *)
Lemma exec_assign k x u t (Q : tables → Prop) E :
  Inv t → thread_ok k x t →
  (∀ t', same_core t t' → assignments_ok t' → owner_of k x t' = Some u → Q t') →
  match k with
  | thread_contact => exec (assignContactToUser x u u) t (λ _ t', Q t') E
  | thread_conversation => exec (assignConversationToUser x u u) t (λ _ t', Q t') E
  end.
Proof.
  intros Hi Hx HQ. destruct k; cbn.
  - unfold assignContactToUser. exec_step.
    apply (exec_unassign thread_contact); [apply Hi|]. intros t1 Hsc Hok Hown _.
    exec_step. apply exec_conversationIdForContact. assert (Hsc1 := Hsc). destruct Hsc1 as (Hc & Hv & _).
    apply (exec_insert_assignment thread_contact x); try done.
    + by apply (directory_ok_static t); [..|apply Hi].
    + apply (keys_ok_static t); [done|done|]. split; [done|]. unfold bridge. by rewrite Hv.
    + intros a t2 Hsc2 Hok2 Hown2. apply HQ; [|done|done]. by apply (same_core_trans t t1).
  - unfold assignConversationToUser. exec_step.
    apply (exec_unassign thread_conversation); [apply Hi|]. intros t1 Hsc Hok Hown _.
    assert (Hsc1 := Hsc). destruct Hsc1 as (Hc & Hv & _). exec_step.
    apply (exec_insert_assignment thread_conversation x); try done.
    + by apply (directory_ok_static t); [..|apply Hi].
    + apply (keys_ok_static t); [done|done|]. destruct Hx as (r & Hr & <- & Hl). by exists r.
    + intros a t2 Hsc2 Hok2 Hown2. apply exec_ret, HQ; [|done|done].
      by apply (same_core_trans t t1).
Qed.

(** ** Send access *)

Inductive send_error (k : thread_kind) (x u : string) (t : tables) : err → Prop :=
| send_refused e : refused k x u t e → send_error k x u t e
| send_blocked c : k = thread_contact → c ∈ t_contacts t → c.(ct_id) = x → c.(ct_is_blocked) = true →
    send_error k x u t ContactBlockedError
| send_no_case : (∀ i st, phase_of x t = Live i st → i = "") → send_error k x u t NoActiveCaseError.

Record send_post (k : thread_kind) (x u : string) (claim : bool) (t : tables)
    (r : SendAccess) (t' : tables) : Prop := {
  sp_inv : Inv t';
  sp_core : same_core t t';
  sp_allowed : allowed k x u t;
  sp_case : ∃ st, phase_of x t = Live r.(sa_caseId) st;
  sp_unblocked : k = thread_contact →
    ∃ c, c ∈ t_contacts t ∧ c.(ct_id) = x ∧ c.(ct_is_blocked) = false;
  sp_claimed : r.(sa_autoAssigned) = claim && bool_decide (owner_of k x t = None);
  sp_owner : owner_of k x t' = if claim then Some u else owner_of k x t }.

Definition claim_step (k : thread_kind) (x u : string) (claim : bool)
    (assignment : option assignment_row) : M bool :=
  match assignment with
  | None =>
      if claim then
        match k with
        | thread_contact => _ ← assignContactToUser x u u; mret true
        | thread_conversation => _ ← assignConversationToUser x u u; mret true
        end
      else mret false
  | Some _ => mret false
  end.

Lemma exec_claim_step k x u claim a t Q E :
  Inv t → thread_ok k x t → ca_assigned_to <$> a = owner_of k x t →
  (∀ o, owner_of k x t = Some o → o = u) →
  (∀ b t', same_core t t' → assignments_ok t' →
     b = claim && bool_decide (owner_of k x t = None) →
     owner_of k x t' = (if claim then Some u else owner_of k x t) → Q b t') →
  exec (claim_step k x u claim a) t Q E.
Proof.
  intros Hi Hx Ha Ho HQ. unfold claim_step. destruct a as [a|]; cbn in Ha.
  - apply exec_ret, HQ; [by repeat split|apply Hi| |].
    + rewrite bool_decide_eq_false_2 by congruence. by rewrite andb_false_r.
    + destruct claim; [|done]. rewrite <- Ha. f_equal. apply Ho. congruence.
  - rewrite bool_decide_eq_true_2 in HQ by done. destruct claim; cbn in HQ.
    + assert (Has := exec_assign k x u t (λ t', exec (mret true) t' Q E) E Hi Hx).
      destruct k; exec_step; apply Has; intros t' Hsc Hok Hown; by apply exec_ret, HQ.
    + apply exec_ret, HQ; [by repeat split|apply Hi|done|done].
Qed.

(** The read of the active case, in tables with the lifecycle of [t]. *)
Lemma exec_require_case k x t t' Q (E : err → tables → Prop) :
  Inv t → thread_ok k x t → same_core t t' →
  (∀ i, (∃ st, phase_of x t = Live i st) → Q i t') →
  ((∀ i st, phase_of x t = Live i st → i = "") → E NoActiveCaseError t') →
  exec (match k with
        | thread_contact => requireActiveCaseForSend x
        | thread_conversation => requireActiveCaseForConversationSend x
        end) t' Q E.
Proof.
  intros Hi Hx (Hc & Hv & Hk & Hs) HQ HE.
  assert (Hcs : ∀ r, r ∈ t_cases t →
    match k with thread_contact => of_contact x r | thread_conversation => of_conversation x r end
    = case_of x r).
  { intros r Hr. by apply (case_selected k x t); [apply Hi| |apply (inv_case_keys t)]. }
  assert (Hread : ∀ p, (∀ r, r ∈ t_cases t → p r = case_of x r) → ∀ row,
    row = first (λ r, p r && is_active r) (t_cases t') →
    match cc_id <$> row with
    | Some (String _ _ as c) => Q c t'
    | _ => E NoActiveCaseError t'
    end).
  { intros p Hp row ->. rewrite Hk.
    rewrite (first_ext _ (λ r, case_of x r && is_active r)) by (intros r Hr; by rewrite Hp).
    change (first _ (t_cases t)) with (active_case x t).
    destruct (active_case x t) as [k0|] eqn:Hk0; cbn [fmap option_fmap option_map].
    - apply (phase_active_case x t k0) in Hk0; [|done].
      destruct (cc_id k0) eqn:Hid; [apply HE; rewrite Hk0; congruence|].
      apply HQ. rewrite Hk0. by eexists.
    - apply HE. intros i st Hl. by apply not_live_phase with (j := i) (st := st) in Hk0. }
  assert (Hx' : thread_ok k x t').
  { destruct k; cbn in *; unfold is_contact, is_thread_conversation in *; by rewrite ?Hc, ?Hv. }
  assert (Hd' : dispatched k x t').
  { destruct k; [done|]. cbn. rewrite Hv. intros v Hin Hid.
    destruct Hx as (r & Hr & Hrid & Hl). rewrite <- Hrid in Hid.
    by apply (dir_conversation_ids t (inv_directory t Hi)) in Hid as ->. }
  assert (Htail : ∀ p, (∀ r, r ∈ t_cases t → p r = case_of x r) →
    exec (caseId ← (row ← select_first cases (λ r, p r && is_active r); mret (cc_id <$> row));
          match caseId with
          | Some (String _ _ as c) => mret c
          | _ => throw NoActiveCaseError
          end) t' Q E).
  { intros p Hp. do 3 exec_step. apply exec_ret. change (rows cases t') with (t_cases t').
    specialize (Hread p Hp _ eq_refl). destruct (cc_id <$> _) as [[|ch c]|];
      [by apply exec_throw|by apply exec_ret|by apply exec_throw]. }
  destruct k; unfold requireActiveCaseForSend, requireActiveCaseForConversationSend,
    resolveActiveCaseIdForContact, resolveActiveCaseIdForConversation; apply exec_bind_assoc; exec_step.
  - apply (exec_lock thread_contact x); [done| |done]. intros _. by apply Htail.
  - apply (exec_lock thread_conversation x); [done| |done]. intros _. by apply Htail.
Qed.

Lemma requireSendAccess_exec c u claim t :
  Inv t →
  exec (requireSendAccess c u claim) t
    (send_post thread_contact c u (default true claim) t)
    (λ e _, send_error thread_contact c u t e).
Proof.
  intros Hi. unfold requireSendAccess. do 2 exec_step.
  destruct (first _ _) as [ct|] eqn:Hct.
  2: { apply exec_throw, send_refused, refused_missing. intros (r & Hr & Hid).
       rewrite first_None in Hct. specialize (Hct r Hr). by to_prop. }
  apply first_Some in Hct as [Hin Hid]. to_prop.
  assert (Hx : thread_ok thread_contact c t) by (by exists ct).
  destruct (ct_is_blocked ct) eqn:Hb; [by apply exec_throw, (send_blocked _ _ _ _ ct)|].
  exec_step. apply (exec_currentAssignment thread_contact). intros a Ha. exec_step.
  apply exec_assert_owner; rewrite Ha.
  2: { intros o Ho Hne. by apply send_refused, (refused_owner _ _ _ _ o). }
  intros Ho. exec_step.
  apply (exec_claim_step thread_contact c u (default true claim) a); try done.
  intros b t' Hsc Hok Hb' Hown. exec_step.
  apply (exec_require_case thread_contact c t); try done; [|by intros; apply send_no_case].
  intros i Hlive. apply exec_ret. split; try done; [by apply (Inv_same_core t)|by eexists].
Qed.

Lemma requireConversationSendAccess_exec v u claim t :
  Inv t →
  exec (requireConversationSendAccess v u claim) t
    (λ r t', (∃ c, is_conversation v t (Some c)
                   ∧ send_post thread_contact c u (default true claim) t r t')
             ∨ (is_conversation v t None
                ∧ send_post thread_conversation v u (default true claim) t r t'))
    (λ e _, (∃ c, is_conversation v t (Some c) ∧ send_error thread_contact c u t e)
            ∨ (is_conversation v t None ∧ send_error thread_conversation v u t e)
            ∨ ((∀ linked, ¬ is_conversation v t linked) ∧ e = NotFoundError "Conversation")).
Proof.
  intros Hi. assert (Hd := inv_directory t Hi). unfold requireConversationSendAccess. do 2 exec_step.
  assert (Hnone : ∀ r, r ∈ t_conversations t → r.(cv_id) = v → is_Some r.(cv_archived_at) →
            ∀ linked, ¬ is_conversation v t linked).
  { intros r Hr Hid [z Hz] linked (r' & Hr' & Hid' & _ & Hn). rewrite <- Hid in Hid'.
    apply (dir_conversation_ids t Hd) in Hid' as ->; [congruence|done..]. }
  destruct (first _ _) as [cv|] eqn:Hcv.
  2: { apply exec_throw. do 2 right. split; [|done]. intros linked (r & Hr & Hid & _).
       rewrite first_None in Hcv. specialize (Hcv r Hr). by to_prop. }
  apply first_Some in Hcv as [Hin Hid]. to_prop. exec_step; to_prop.
  { apply exec_throw. do 2 right. split; [|done]. by apply (Hnone cv). }
  assert (Harch : cv.(cv_archived_at) = None) by (by apply eq_None_not_Some).
  destruct (cv_legacy_contact_id cv) as [c|] eqn:Hl.
  - assert (Hne : c ≠ "").
    { destruct (dir_legacy_contact t Hd cv c Hin Hl) as (r & Hr & <-). by apply (dir_ids t Hd). }
    destruct c as [|ch c']; [done|]. set (c := String ch c') in *.
    assert (Hconv : is_conversation v t (Some c)) by (by exists cv).
    eapply exec_weaken; [by apply requireSendAccess_exec|intros; left; eauto|].
    cbn. intros e _ He. left. eauto.
  - assert (Hconv : is_conversation v t None) by (by exists cv).
    assert (Hx : thread_ok thread_conversation v t) by (by exists cv).
    exec_step. apply (exec_currentAssignment thread_conversation). intros a Ha. exec_step.
    apply exec_assert_owner; rewrite Ha.
    2: { intros o Ho Hne. right. left. split; [done|]. by apply send_refused, (refused_owner _ _ _ _ o). }
    intros Ho. exec_step.
    apply (exec_claim_step thread_conversation v u (default true claim) a); try done.
    intros b t' Hsc Hok Hb' Hown. exec_step.
    apply (exec_require_case thread_conversation v t); try done;
      [|by intros; right; left; split; [|apply send_no_case]].
    intros i Hlive. apply exec_ret. right. split; [done|].
    split; try done. by apply (Inv_same_core t).
Qed.
End claims.

(** ** The operations as one system *)

Section system.
Context `{Oracle}.

Inductive operation :=
| InboundMessage (companyId contactId : string) (isGroup : bool) (messageId : string)
| InboundConversation (companyId conversationId : string) (linked : option string)
    (isGroup : bool) (messageId : string)
| Resolve (id : string) (input : ResolveCaseInput)
| MarkPending (id userId : string)
| Resume (id userId : string)
| OpenOrReopen (id : string) (input : ManualOpenCaseInput)
| EnsureActive (contactId : string) (isGroup : bool) (companyId userId : string) (reason : jsstring)
| Send (contactId userId : string) (claimUnassigned : option bool)
| SendConversation (conversationId userId : string) (claimUnassigned : option bool).

Definition run (op : operation) : M unit :=
  match op with
  | InboundMessage company c g msg =>
      transaction (_ ← openOrReopenCaseForInboundMessage company (mkContactArg c g) msg; mret tt)
  | InboundConversation company v linked g msg =>
      transaction (_ ← openOrReopenCaseForInboundConversation company v linked g msg; mret tt)
  | Resolve id input => _ ← resolveRoute id input; mret tt
  | MarkPending id u => _ ← pendingRoute id u; mret tt
  | Resume id u => _ ← resumeRoute id u; mret tt
  | OpenOrReopen id input => _ ← performManualOpenOrReopen id input; mret tt
  | EnsureActive c g company u reason =>
      transaction (_ ← ensureActiveCaseWithin (mkContactArg c g) company u reason; mret tt)
  | Send c u claim => transaction (_ ← requireSendAccess c u claim; mret tt)
  | SendConversation v u claim => transaction (_ ← requireConversationSendAccess v u claim; mret tt)
  end.

(** An inbound event of a conversation names the contact that the conversation
    is linked to, if any.  That is so for every event of a linked device and for the first
    thread of a customer; on a further thread of the same customer the event processor
    passes the customer's contact, which the first thread keeps
    ([second_thread_inbound_refused]). *)
Definition op_ok (op : operation) (t : tables) : Prop :=
  match op with
  | InboundConversation _ v linked _ _ => ∃ x, linked_thread v linked x t
  | _ => True
  end.

Lemma exec_on_thread {A} id (fc fv : contact_arg → M A) t Q (E : err → tables → Prop) :
  Inv t →
  (∀ c g, is_contact c t → exec (fc (mkContactArg c g)) t Q E) →
  (∀ g, is_thread_conversation id t → dispatched thread_conversation id t →
        exec (fv (mkContactArg id g)) t Q E) →
  E (NotFoundError "Conversation") t →
  exec (on_thread id fc fv) t Q E.
Proof.
  intros Hi Hc Hv HE. assert (Hd := inv_directory t Hi).
  unfold on_thread, resolveWorkflowIdentity. do 3 exec_step.
  destruct (first _ (rows contacts t)) as [ct|] eqn:Hct.
  { apply first_Some in Hct as [Hin Hid]. exec_step. apply exec_conversationIdForContact, exec_ret.
    assert (Hne := dir_ids t Hd ct Hin). assert (Hex : is_contact (ct_id ct) t) by (by exists ct).
    cbn [wi_contactId wi_conversationId wi_isGroup]. destruct (ct_id ct); [done|]. by apply Hc. }
  exec_step. exec_step. destruct (first _ (rows conversations t)) as [cv|] eqn:Hcv.
  2: { apply exec_ret. by apply exec_throw. }
  apply first_Some in Hcv as [Hin Hid]. to_prop. apply exec_ret.
  cbn [wi_contactId wi_conversationId wi_isGroup].
  assert (Hconv : ∀ g, cv_legacy_contact_id cv = None →
            exec (fv (mkContactArg (cv_id cv) g)) t Q E).
  { intros g Hl. replace (cv_id cv) with id by done. apply Hv; [by exists cv|].
    intros r Hr Hrid. rewrite <- H0 in Hrid. by apply (dir_conversation_ids t Hd) in Hrid as ->. }
  destruct (cv_legacy_contact_id cv) as [c|] eqn:Hl; [|by apply Hconv].
  destruct (dir_legacy_contact t Hd cv c Hin Hl) as (r & Hr & Hrc).
  assert (Hne := dir_ids t Hd r Hr). rewrite Hrc in Hne.
  destruct c; [done|]. apply Hc. by exists r.
Qed.

(** Why no case could be ensured for a send. *)
Inductive ensure_error (c company u : string) (reason : jsstring) (t : tables) : err → Prop :=
| ensure_open input e : input.(oi_openedBy) = u → input.(oi_companyId) = company →
    phase_of c t = expected_phase input.(oi_expectedMode) →
    input.(oi_reason) = match phase_of c t with Never => None | _ => Some reason end →
    open_error thread_contact c input t e → ensure_error c company u reason t e
| ensure_missing r : ¬ is_contact c t → ensure_error c company u reason t (NotFoundError r)
| ensure_empty_id e st : phase_of c t = Live "" st → ensure_error c company u reason t e.

Lemma ensureActiveCaseWithin_exec c g company u reason t :
  Inv t →
  exec (ensureActiveCaseWithin (mkContactArg c g) company u reason) t
    (λ i t', advance c t t' ∧
       ((∃ st, phase_of c t = Live i st ∧ t' = t)
        ∨ ((∀ j st, phase_of c t ≠ Live j st) ∧ phase_of c t' = Live i open
           ∧ allowed thread_contact c u t ∧ t_assignments t' = t_assignments t)))
    (λ e t', t' = t ∧ ensure_error c company u reason t e).
Proof.
  intros Hi. unfold ensureActiveCaseWithin, resolveActiveCaseIdForContact. cbn [ca_arg_id].
  apply exec_bind_assoc. exec_step. apply (exec_lock thread_contact c); [done| |].
  2: { intros r Hr. split; [done|by apply ensure_missing]. }
  intros Hx. do 3 exec_step. apply exec_ret. change (rows cases t) with (t_cases t).
  rewrite (first_ext _ (λ r, case_of c r && is_active r)).
  2: { intros r Hr. f_equal. by apply (case_selected thread_contact c t);
         [apply Hi| |apply (inv_case_keys t)]. }
  change (first _ (t_cases t)) with (active_case c t).
  assert (Hopen : exec (priorCase ← getMostRecentCase c;
      opened ← openCaseWithin (mkContactArg c g)
        (mkOpenInput company u (match priorCase with Some _ => Some reason | None => None end)
           (match priorCase with Some _ => mode_reopen | None => mode_open end));
      mret opened.(id)) t
    (λ i t', advance c t t' ∧ phase_of c t = (match most_recent c t with Some _ => Closed | None => Never end)
       ∧ phase_of c t' = Live i open ∧ allowed thread_contact c u t ∧ t_assignments t' = t_assignments t)
    (λ e t', t' = t ∧ open_error thread_contact c
       (mkOpenInput company u (match most_recent c t with Some _ => Some reason | None => None end)
           (match most_recent c t with Some _ => mode_reopen | None => mode_open end)) t e)).
  { exec_step. apply (exec_getMostRecentCase thread_contact); [done|done|]. exec_step.
    unfold openCaseWithin. cbn [ca_arg_id ca_arg_isGroup].
    eapply exec_weaken; [by apply (open_within_exec thread_contact c g)| |].
    - intros k t' (Hadv & Hph & Hal & Hmode & _ & Has). apply exec_ret.
      split; [done|]. split; [by destruct (most_recent c t)|done].
    - intros e t' He. by destruct (most_recent c t). }
  assert (Hnever := most_recent_None c t).
  assert (Hdead : active_case c t = None →
    exec (priorCase ← getMostRecentCase c;
      opened ← openCaseWithin (mkContactArg c g)
        (mkOpenInput company u (match priorCase with Some _ => Some reason | None => None end)
           (match priorCase with Some _ => mode_reopen | None => mode_open end));
      mret opened.(id)) t
    (λ i t', advance c t t' ∧
       ((∃ st, phase_of c t = Live i st ∧ t' = t)
        ∨ ((∀ j st, phase_of c t ≠ Live j st) ∧ phase_of c t' = Live i open
           ∧ allowed thread_contact c u t ∧ t_assignments t' = t_assignments t)))
    (λ e t', t' = t ∧ ensure_error c company u reason t e)).
  { intros Hn. assert (Hlive := not_live_phase c t Hn).
    eapply exec_weaken; [exact Hopen| |].
    - intros i t' (Hadv & _ & Hph & Hal & Has). split; [done|]. by right.
    - intros e t' [-> He]. split; [done|].
      assert (Hp : phase_of c t = match most_recent c t with Some _ => Closed | None => Never end).
      { destruct (most_recent c t) eqn:Hr; [|by apply Hnever].
        destruct (phase_of c t) as [|j st|] eqn:Hp; [|by destruct (Hlive j st)|done].
        by discriminate (proj2 Hnever eq_refl). }
      eapply ensure_open; [..|exact He]; try done; cbn; rewrite Hp; by destruct (most_recent c t). }
  destruct (active_case c t) as [k0|] eqn:Hk0; cbn [fmap option_fmap option_map]; [|by apply Hdead].
  apply phase_active_case in Hk0; [|done].
  destruct (cc_id k0) as [|ch s0] eqn:Hid.
  - eapply exec_weaken; [exact Hopen| |].
    + intros i t' (_ & Hbad & _). exfalso. rewrite Hk0 in Hbad. by destruct (most_recent c t).
    + intros e t' [-> _]. split; [done|]. by eapply ensure_empty_id.
  - apply exec_ret. split; [by apply advance_refl|]. left. by eexists.
Qed.

(** Pending and resume, with their abstract steps. *)
Lemma pending_in_exec k x u t :
  Inv t → dispatched k x t →
  exec (pending_in (scope_of k x) u) t (λ _ t', ∃ y, advance y t t') (λ _ t', t' = t).
Proof.
  intros Hi Hd. unfold pending_in.
  eapply exec_weaken; [by apply flip_in_exec; try done; constructor| |by intros e t' [-> _]].
  intros c t' [Ha _]. by eexists.
Qed.

Lemma resume_in_exec k x u t :
  Inv t → dispatched k x t →
  exec (resume_in (scope_of k x) u) t (λ _ t', ∃ y, advance y t t') (λ _ t', t' = t).
Proof.
  intros Hi Hd. unfold resume_in.
  eapply exec_weaken; [by apply flip_in_exec; try done; constructor| |by intros e t' [-> _]].
  intros c t' [Ha _]. by eexists.
Qed.

Lemma exec_discard {A} (m : M A) t Q (E : err → tables → Prop) :
  exec m t (λ _ t', Q t') E → exec (_ ← m; mret tt) t (λ _ t', Q t') E.
Proof. intros Hm. exec_step. eapply exec_weaken; [exact Hm| |done]. intros a t' Hq. by apply exec_ret. Qed.

(** Every operation advances one thread, or fails and changes nothing. *)
Lemma run_exec op t :
  Inv t → op_ok op t → exec (run op) t (λ _ t', ∃ x, advance x t t') (λ _ t', t' = t).
Proof.
  intros Hi Hop.
  assert (Hsend : ∀ k x u claim r t', send_post k x u claim t r t' → advance x t t').
  { intros k x u claim r t' []. apply (advance_same_core x t t); [done|apply sp_inv0|].
    by apply advance_refl. }
  destruct op; cbn [run op_ok] in *.
  - exec_step. exec_step. eapply exec_weaken; [by apply openOrReopenCaseForInboundMessage_exec| |done].
    intros r t' (i & [Ha _ _] & _). apply exec_ret. by eexists.
  - destruct Hop as [x Hx]. exec_step. exec_step.
    eapply exec_weaken; [by eapply openOrReopenCaseForInboundConversation_exec| |done].
    intros r t' (i & [Ha _ _] & _). apply exec_ret. by eexists.
  - exec_step. apply exec_on_thread; [done|intros c g _|intros g Hv Hd|done].
    + eapply exec_weaken; [by apply (resolve_in_exec thread_contact)| |by intros e t' [-> _]].
      intros r t' [Ha _]. apply exec_ret. by eexists.
    + eapply exec_weaken; [by apply (resolve_in_exec thread_conversation)| |by intros e t' [-> _]].
      intros r t' [Ha _]. apply exec_ret. by eexists.
  - apply exec_discard, exec_on_thread; [done|intros c g _|intros g Hv Hd|done].
    + by apply (pending_in_exec thread_contact c).
    + by apply (pending_in_exec thread_conversation id).
  - apply exec_discard, exec_on_thread; [done|intros c g _|intros g Hv Hd|done].
    + by apply (resume_in_exec thread_contact c).
    + by apply (resume_in_exec thread_conversation id).
  - exec_step. apply exec_on_thread; [done|intros c g _|intros g Hv Hd|done].
    + unfold reopenAsNewCase, openCaseWithin. exec_step.
      eapply exec_weaken; [by apply (open_within_exec thread_contact)| |by intros e t' [-> _]].
      intros r t' [Ha _]. apply exec_ret. by eexists.
    + unfold reopenAsNewCaseForConversation. exec_step.
      eapply exec_weaken; [by apply (open_within_exec thread_conversation)| |by intros e t' [-> _]].
      intros r t' [Ha _]. apply exec_ret. by eexists.
  - exec_step. exec_step. eapply exec_weaken; [by apply ensureActiveCaseWithin_exec| |done].
    intros i t' [Ha _]. apply exec_ret. by eexists.
  - exec_step. exec_step. eapply exec_weaken; [by apply requireSendAccess_exec| |done].
    intros r t' Hp. apply exec_ret. eexists. by eapply Hsend.
  - exec_step. exec_step. eapply exec_weaken; [by apply requireConversationSendAccess_exec| |done].
    intros r t' [(c & _ & Hp)|[_ Hp]]; apply exec_ret; eexists; by eapply Hsend.
Qed.

(** From any tables, and for any contact an event names. *)
Lemma lawful_run op : steady lawful (run op).
Proof.
  destruct op; cbn [run]; repeat (apply steady_bind; [apply _| |intros; apply steady_ret, _]);
    try (apply steady_transaction; [apply _|]; apply steady_bind; [apply _| |intros; apply steady_ret, _]);
    auto using lawful_inbound, lawful_inbound_conversation, lawful_resolveRoute, lawful_pendingRoute,
      lawful_resumeRoute, lawful_openRoute, lawful_ensure, lawful_requireSendAccess,
      lawful_requireConversationSendAccess.
Qed.

Lemma atomic_run op : atomic (run op).
Proof.
  destruct op; cbn [run]; try apply atomic_transaction; apply atomic_discard, atomic_on_thread; intros;
    first [apply atomic_resolve|apply atomic_transaction].
Qed.
End system.

(** ** Single runs *)

Section runs.
Context `{Oracle}.
Implicit Types (s : db) (k : thread_kind) (x : string).

Definition resolve_thread k x (input : ResolveCaseInput) : M ConversationCase :=
  match k with
  | thread_contact => resolveActiveCase x input
  | thread_conversation => resolveActiveCaseForConversation x input
  end.
Definition pending_thread k x (u : string) : M ConversationCase :=
  match k with
  | thread_contact => setActiveCasePending x u
  | thread_conversation => setActiveCasePendingForConversation x u
  end.
Definition resume_thread k x (u : string) : M ConversationCase :=
  match k with
  | thread_contact => resumePendingCase x u
  | thread_conversation => resumePendingCaseForConversation x u
  end.
Definition reopen_thread k x (isGroup : bool) (input : ManualOpenCaseInput) : M ConversationCase :=
  match k with
  | thread_contact => reopenAsNewCase (mkContactArg x isGroup) input
  | thread_conversation => reopenAsNewCaseForConversation (mkContactArg x isGroup) input
  end.

(** C5: resolving a thread closes its live case under the given outcome, only for
    the owner or an unowned thread, only with notes for 'other' and a replied
    latest turn for 'handled'; any failure leaves the tables as they were and is
    one of the listed refusals. *)
Theorem resolve_spec k x input s :
  Inv (tb s) → dispatched k x (tb s) →
  match resolve_thread k x input s with
  | (Ok c, s') =>
      advance x (tb s) (tb s') ∧ phase_of x (tb s') = Closed
      ∧ allowed k x input.(ri_resolvedBy) (tb s)
      ∧ (∃ st, phase_of x (tb s) = Live c.(id) st)
      ∧ (input.(ri_outcome) = handled → unanswered c.(id) (tb s) = false)
      ∧ (c.(status), c.(resolutionOutcome), c.(resolvedBy), c.(resolutionNotes))
        = (resolved, Some input.(ri_outcome), Some input.(ri_resolvedBy),
           trimmed_or_null input.(ri_notes))
      ∧ ∃ row, row ∈ t_cases (tb s') ∧ toConversationCase row = c
  | (Throw e, s') => tb s' = tb s ∧ resolve_error k x input (tb s) e
  end.
Proof.
  intros Hi Hd.
  replace (resolve_thread k x input) with (resolve_in (scope_of k x) input) by (by destruct k).
  exact (exec_run _ s _ _ (resolve_in_exec k x input (tb s) Hi Hd)).
Qed.

(** A resolve succeeds whenever its user may act on the thread, the thread is
    live, the outcome's own requirement is met and the clock is not behind the
    opening of the case. *)
Theorem resolve_succeeds k x input s i st :
  Inv (tb s) → dispatched k x (tb s) → allowed k x input.(ri_resolvedBy) (tb s) →
  phase_of x (tb s) = Live i st →
  (input.(ri_outcome) = other → truthy (trim <$> input.(ri_notes)) = true) →
  (input.(ri_outcome) = handled → unanswered i (tb s) = false) →
  (∀ row z, row ∈ t_cases (tb s) → clock_reading z → (row.(cc_opened_at) ≤ z)%Z) →
  ∃ c s', resolve_thread k x input s = (Ok c, s').
Proof.
  intros Hi Hd [Hx Ho] Hph Hother Hhandled Hclock.
  assert (Hrun := exec_run _ s _ _ (resolve_in_exec k x input (tb s) Hi Hd)).
  replace (resolve_thread k x input) with (resolve_in (scope_of k x) input) by (by destruct k).
  destruct (resolve_in (scope_of k x) input s) as [[c|e] s']; [eauto|].
  destruct Hrun as [_ He]. exfalso.
  destruct He as [msg Hou Hn|e [r Hm|o How Hne]|msg Hl|msg i' st' Hou Hl Hu|msg row z Hin _ Hz Hlt].
  - by rewrite Hother in Hn.
  - done.
  - by apply Hne, Ho.
  - by destruct (Hl i st).
  - rewrite Hl in Hph. simplify_eq. by rewrite Hhandled in Hu.
  - specialize (Hclock row z Hin Hz). lia.
Qed.

(** Marking a thread pending and resuming it are inverse, idempotent moves of
    the one live case: a repeated call returns the case and writes nothing. *)
Theorem pending_resume_spec k x u s (resume : bool) :
  Inv (tb s) → dispatched k x (tb s) →
  let from := if resume then pending else open in
  let to := if resume then open else pending in
  match (if resume then resume_thread k x u else pending_thread k x u) s with
  | (Ok c, s') =>
      advance x (tb s) (tb s') ∧ allowed k x u (tb s) ∧ c.(status) = to
      ∧ phase_of x (tb s') = Live c.(id) to
      ∧ (phase_of x (tb s) = Live c.(id) from
         ∨ (phase_of x (tb s) = Live c.(id) to ∧ tb s' = tb s))
  | (Throw e, s') =>
      tb s' = tb s ∧ (refused k x u (tb s) e
        ∨ ((∃ m, e = ConflictError m) ∧ ∀ i st, phase_of x (tb s) ≠ Live i st))
  end.
Proof.
  intros Hi Hd.
  assert (Hgo : ∀ from to ch mi m, m = flip_in (scope_of k x) u from to ch mi →
    active from = true → active to = true → from ≠ to → (∀ i, lstep (Live i from) (Live i to)) →
    match m s with
    | (Ok c, s') =>
        advance x (tb s) (tb s') ∧ allowed k x u (tb s) ∧ c.(status) = to
        ∧ phase_of x (tb s') = Live c.(id) to
        ∧ (phase_of x (tb s) = Live c.(id) from
           ∨ (phase_of x (tb s) = Live c.(id) to ∧ tb s' = tb s))
    | (Throw e, s') =>
        tb s' = tb s ∧ (refused k x u (tb s) e
          ∨ ((∃ m, e = ConflictError m) ∧ ∀ i st, phase_of x (tb s) ≠ Live i st))
    end).
  { intros from to ch mi m -> Hf Ht Hne Hs.
    assert (Hrun := exec_run _ s _ _ (flip_in_exec k x u from to ch mi (tb s) Hi Hd Hf Ht Hne Hs)).
    destruct (flip_in _ _ _ _ _ _ s) as [[c|e] s']; [done|].
    destruct Hrun as [Heq [He|[-> Hl]]]; split; auto. right. eauto. }
  destruct resume, k; eapply Hgo; try reflexivity; try done; constructor.
Qed.

(** A manual open or reopen starts a new open case from exactly the phase the
    endpoint expects, under the policy in force, credited to the user, chained to
    the most recent case, and without touching the assignment; otherwise nothing
    changes and the error says which precondition failed. *)
Theorem reopen_spec k x isGroup input s :
  Inv (tb s) → dispatched k x (tb s) →
  match reopen_thread k x isGroup input s with
  | (Ok c, s') => open_post k x isGroup input (tb s) c (tb s')
  | (Throw e, s') => tb s' = tb s ∧ open_error k x input (tb s) e
  end.
Proof.
  intros Hi Hd.
  replace (reopen_thread k x isGroup input)
    with (transaction (open_within (scope_of k x) isGroup input)) by (by destruct k).
  refine (exec_run _ s _ (λ e t', t' = tb s ∧ open_error k x input (tb s) e) _).
  apply exec_transaction. eapply exec_weaken; [by apply open_within_exec|done|by intros e t' [_ ?]].
Qed.

(** C4: a live inbound message leaves its contact with one open case and belongs to
    it: it opens a first case, reopens after a resolution (clearing the owner and
    chaining to the most recent case), flips a pending case back, or joins the
    open one; it fails only without the contact or a policy. *)
Theorem inbound_message_spec company c isGroup msg s :
  Inv (tb s) →
  match openOrReopenCaseForInboundMessage company (mkContactArg c isGroup) msg s with
  | (Ok res, s') => inbound_post thread_contact c c msg (tb s) res (tb s')
  | (Throw e, s') =>
      tb s' = tb s ∧
      ((¬ is_contact c (tb s) ∧ ∃ r, e = NotFoundError r)
       ∨ (current_policy company (tb s) = None ∧ e = NotFoundError "SLA policy")
       ∨ ((∃ u, drawn_uuid u ∧ u ∈ cc_id <$> t_cases (tb s))
          ∧ e = UniqueViolation "conversation_cases_pkey"))
  end.
Proof.
  intros Hi.
  exact (exec_run _ s _ _ (openOrReopenCaseForInboundMessage_exec company c isGroup msg (tb s) Hi)).
Qed.

(** The same for an inbound message of any channel's conversation, whose
    thread is the linked contact when the conversation has one. *)
Theorem inbound_conversation_spec company v linked isGroup msg x s :
  Inv (tb s) → linked_thread v linked x (tb s) →
  match openOrReopenCaseForInboundConversation company v linked isGroup msg s with
  | (Ok res, s') => inbound_post thread_conversation x v msg (tb s) res (tb s')
  | (Throw e, s') =>
      tb s' = tb s ∧
      ((current_policy company (tb s) = None ∧ e = NotFoundError "SLA policy")
       ∨ ((∃ u, drawn_uuid u ∧ u ∈ cc_id <$> t_cases (tb s))
          ∧ e = UniqueViolation "conversation_cases_pkey"))
  end.
Proof.
  intros Hi Hv.
  exact (exec_run _ s _ _
    (openOrReopenCaseForInboundConversation_exec company v linked isGroup msg x (tb s) Hi Hv)).
Qed.

(** A customer reachable on two threads has its contact on both, but
    conversations.legacy_contact_id on the first only; while the first thread has
    an active case, every inbound message of the second one is refused by
    cc_active_uidx, which the INSERT's ON CONFLICT clause does not name. *)
Theorem second_thread_inbound_refused company v c isGroup msg s (k : case_row) pol :
  case_constraint (t_cases (tb s)) = None →
  (∃ r, r ∈ t_conversations (tb s) ∧ r.(cv_id) = v) →
  k ∈ t_cases (tb s) → is_active k = true → k.(cc_contact_id) = Some c →
  (∀ r, r ∈ t_cases (tb s) → of_conversation v r = true → is_active r = false) →
  current_policy company (tb s) = Some pol →
  (∀ u, drawn_uuid u → u ∉ cc_id <$> t_cases (tb s)) →
  ∃ s', openOrReopenCaseForInboundConversation company v (Some c) isGroup msg s
        = (Throw (UniqueViolation "cc_active_uidx"), s').
Proof.
  intros Hc (r & Hr & Hrid) Hk Ha Hkc Hfree Hpol Hfresh.
  assert (Hx : exec (openOrReopenCaseForInboundConversation company v (Some c) isGroup msg) (tb s)
    (λ _ _, False) (λ e _, e = UniqueViolation "cc_active_uidx")).
  { unfold openOrReopenCaseForInboundConversation, lockConversation. do 2 exec_step. exec_step.
    destruct (first _ _) as [r0|] eqn:Hlock.
    2: { rewrite first_None in Hlock. specialize (Hlock r Hr). by to_prop. }
    apply exec_ret. do 2 exec_step. exec_step. apply exec_getCurrentSlaPolicy; [|congruence].
    intros pol' Hpol'. do 2 exec_step. set (isReopen := bool_decide _). exec_step.
    eapply (exec_weaken _ _ (λ _ t', t' = tb s) _ (λ _ _, False)); [|intros prior ? ->|done].
    { destruct isReopen; [do 2 exec_step|]; by apply exec_ret. }
    exec_step. unfold insert_case. do 4 exec_step. set (row := mkCase _ _ _ _ _ _ _ _ _ _ _ _ _ _ _ _ _ _ _ _ _).
    assert (Hclash : case_constraint (t_cases (tb s) ++ [row]) = Some (UniqueViolation "cc_active_uidx")).
    { revert Hc. unfold case_constraint. rewrite !checks_cons. intros (U1 & C1 & _).
      rewrite unique_on_app, forallb_snoc; [|done|done|done|].
      2: { intros r' Hr' _ [= Heq]. apply (Hfresh u); [done|]. apply list_elem_of_fmap. eauto. }
      cbn [checks]. destruct (unique_on case_contact_key _) eqn:Hun; [|done]. exfalso.
      assert (Heq : k = row).
      { apply (unique_on_eq case_contact_key _ k row c Hun).
        - apply elem_of_app. auto.
        - apply elem_of_app. right. by left.
        - unfold case_contact_key. unfold is_active in Ha. by rewrite Ha.
        - done. }
      apply (Hfresh u); [done|]. apply list_elem_of_fmap. exists k. split; [by rewrite Heq|done]. }
    apply exec_insert_on_conflict_nothing; change (rows cases (tb s)) with (t_cases (tb s)).
    - intros (r' & Hr' & [Hv' Ha']%andb_true_iff)%holds_any_true. by rewrite (Hfree r' Hr' Hv') in Ha'.
    - intros _ Hok. change (case_constraint (t_cases (tb s) ++ [row]) = None) in Hok. congruence.
    - intros e _ He. change (case_constraint (t_cases (tb s) ++ [row]) = Some e) in He. congruence. }
  apply exec_run in Hx. destruct (openOrReopenCaseForInboundConversation _ _ _ _ _ s) as [[a|e] s'];
    [done|]. rewrite Hx. eauto.
Qed.

(** Ensuring an active case for a send returns the live case untouched, or
    opens one for a thread the user may act on; either way the returned case is
    the contact's live case afterwards. *)
Theorem ensure_active_spec c isGroup company u reason s :
  Inv (tb s) →
  match ensureActiveCaseWithin (mkContactArg c isGroup) company u reason s with
  | (Ok i, s') =>
      advance c (tb s) (tb s') ∧
      ((∃ st, phase_of c (tb s) = Live i st ∧ tb s' = tb s)
       ∨ ((∀ j st, phase_of c (tb s) ≠ Live j st) ∧ phase_of c (tb s') = Live i open
          ∧ allowed thread_contact c u (tb s) ∧ t_assignments (tb s') = t_assignments (tb s)))
  | (Throw e, s') => tb s' = tb s ∧ ensure_error c company u reason (tb s) e
  end.
Proof.
  intros Hi. exact (exec_run _ s _ _ (ensureActiveCaseWithin_exec c isGroup company u reason (tb s) Hi)).
Qed.

(** C6: send access is granted exactly to the owner of an unblocked contact with
    a live case, claiming an unowned contact when asked to; each refusal is one of
    missing, blocked, owned by another, or no active case. *)
Theorem send_access_spec c u claim s :
  Inv (tb s) →
  match requireSendAccess c u claim s with
  | (Ok r, s') => send_post thread_contact c u (default true claim) (tb s) r (tb s')
  | (Throw e, _) => send_error thread_contact c u (tb s) e
  end.
Proof. intros Hi. exact (exec_run _ s _ _ (requireSendAccess_exec c u claim (tb s) Hi)). Qed.

(** A conversation is dispatched to its linked contact's guard, or to its own
    when it has none; an archived or unknown conversation is not found. *)
Theorem conversation_send_access_spec v u claim s :
  Inv (tb s) →
  match requireConversationSendAccess v u claim s with
  | (Ok r, s') =>
      (∃ c, is_conversation v (tb s) (Some c)
            ∧ send_post thread_contact c u (default true claim) (tb s) r (tb s'))
      ∨ (is_conversation v (tb s) None
         ∧ send_post thread_conversation v u (default true claim) (tb s) r (tb s'))
  | (Throw e, _) =>
      (∃ c, is_conversation v (tb s) (Some c) ∧ send_error thread_contact c u (tb s) e)
      ∨ (is_conversation v (tb s) None ∧ send_error thread_conversation v u (tb s) e)
      ∨ ((∀ linked, ¬ is_conversation v (tb s) linked) ∧ e = NotFoundError "Conversation")
  end.
Proof. intros Hi. exact (exec_run _ s _ _ (requireConversationSendAccess_exec v u claim (tb s) Hi)). Qed.

(** Once a user's send has claimed a contact, any other user's send and
    lifecycle mutation is refused for as long as the assignment rows stay. *)
Theorem claim_excludes_others c u u' s r s1 s2 input :
  Inv (tb s) → requireSendAccess c u None s = (Ok r, s1) →
  Inv (tb s2) → t_assignments (tb s2) = t_assignments (tb s1) → u' ≠ u →
  input.(ri_resolvedBy) = u' →
  (∃ e s3, requireSendAccess c u' None s2 = (Throw e, s3))
  ∧ (∃ e s3, resolveActiveCase c input s2 = (Throw e, s3) ∧ tb s3 = tb s2).
Proof.
  intros Hi Hrun Hi2 Has Hne Hby.
  assert (H1 := exec_run _ s _ _ (requireSendAccess_exec c u None (tb s) Hi)). rewrite Hrun in H1.
  assert (Hown : owner_of thread_contact c (tb s2) = Some u).
  { unfold owner_of. rewrite Has. exact (sp_owner _ _ _ _ _ _ _ H1). }
  split.
  - assert (H2 := exec_run _ s2 _ _ (requireSendAccess_exec c u' None (tb s2) Hi2)).
    destruct (requireSendAccess c u' None s2) as [[r'|e] s3]; [|eauto].
    destruct (sp_allowed _ _ _ _ _ _ _ H2) as [_ Ho]. by destruct Hne; rewrite (Ho u Hown).
  - assert (H2 := exec_run _ s2 _ _ (resolve_in_exec thread_contact c input (tb s2) Hi2 I)).
    change (resolveActiveCase c input) with (resolve_in (scope_of thread_contact c) input).
    destruct (resolve_in _ input s2) as [[r'|e] s3]; [|exists e, s3; by destruct H2].
    destruct H2 as (_ & _ & [_ Ho] & _). destruct Hne. symmetry. rewrite <- Hby. by apply Ho.
Qed.

(** ** Runs of the whole system *)

(** C1: every operation, from any tables, either throws and leaves the tables exactly as
    they were, or keeps every closed case, the boundaries of all cases, the contacts and
    conversations, and the constraints on cases, states and assignments; and from tables
    that satisfy the invariant, an operation other than an inbound message that carries a
    contact its conversation is not linked to moves one thread along the abstract
    lifecycle, leaves every other thread alone and re-establishes the invariant. *)
Theorem operations_refine_lifecycle op s :
  match run op s with
  | (Ok _, s') =>
      lawful (tb s) (tb s')
      ∧ (Inv (tb s) → op_ok op (tb s) → ∃ x, advance x (tb s) (tb s'))
  | (Throw _, s') => tb s' = tb s
  end.
Proof.
  assert (Ha := exec_run _ s _ _ (atomic_run op (tb s))).
  assert (Hl := exec_run _ s _ _ (lawful_run op (tb s))).
  assert (Hx : Inv (tb s) → op_ok op (tb s) → match run op s with
    | (Ok _, s') => ∃ x, advance x (tb s) (tb s') | (Throw _, s') => tb s' = tb s end).
  { intros Hi Hop. exact (exec_run _ s _ _ (run_exec op (tb s) Hi Hop)). }
  by destruct (run op s) as [[a|e] s'].
Qed.

(** An operation of the system; [sys_step] asks of an inbound message that it carries the
    contact its conversation is linked to. *)
Definition any_step (t t' : tables) : Prop := ∃ op s, tb s = t ∧ tb (run op s).2 = t'.
Definition sys_step (t t' : tables) : Prop :=
  ∃ op s, tb s = t ∧ op_ok op t ∧ tb (run op s).2 = t'.

Lemma any_step_lawful t t' : rtc any_step t t' → lawful t t'.
Proof.
  intros Hr. induction Hr as [t|t t1 t' (op & s & <- & <-) _ IH]; [reflexivity|]. etransitivity; [|exact IH].
  assert (Hl := exec_run _ s _ _ (lawful_run op (tb s))). by destruct (run op s) as [[a|e] s'].
Qed.

Lemma sys_step_any t t' : rtc sys_step t t' → rtc any_step t t'.
Proof.
  intros Hr. induction Hr as [t|t t1 t' (op & s & Hs & _ & Hs') _ IH]; [constructor|].
  eapply rtc_l; [by exists op, s|done].
Qed.

Lemma sys_step_advance t t' : Inv t → sys_step t t' → ∃ x, advance x t t'.
Proof.
  intros Hi (op & s & <- & Hop & <-).
  assert (Hrun := exec_run _ s _ _ (run_exec op (tb s) Hi Hop)).
  destruct (run op s) as [[[]|e] s']; [done|]. cbn. rewrite Hrun. exists "". by apply advance_refl.
Qed.

Lemma sys_step_run t t' :
  Inv t → rtc sys_step t t' → Inv t' ∧ ∀ x, rtc lstep (phase_of x t) (phase_of x t').
Proof.
  intros Hi Hr. induction Hr as [t|t t1 t' Hstep _ IH]; [by split|].
  apply sys_step_advance in Hstep as [x Ha]; [|done].
  destruct IH as (Hi' & Hph); [apply Ha|]. split; [done|]. intros y. destruct (decide (y = x)) as [->|Hy].
  - destruct (adv_phase _ _ _ Ha) as [Heq|Hl]; [by rewrite <- Heq|].
    eapply rtc_l; [exact Hl|apply Hph].
  - rewrite <- (adv_others _ _ _ Ha y Hy). apply Hph.
Qed.

(** C2: after any sequence of operations no closed case has changed or disappeared, no case's
    boundary has been rewritten, and the constraints still hold; and if every inbound
    message of the sequence carried the contact that its conversation is linked to, the
    invariant holds and every thread has followed the abstract lifecycle. *)
Theorem reachable_lifecycle t t' :
  (rtc any_step t t' → lawful t t')
  ∧ (Inv t → rtc sys_step t t' →
     lawful t t' ∧ Inv t' ∧ ∀ x, rtc lstep (phase_of x t) (phase_of x t')).
Proof.
  split; [apply any_step_lawful|]. intros Hi Hr. split; [by apply any_step_lawful, sys_step_any|].
  by apply sys_step_run.
Qed.

(** C3: after any sequence of operations a contact and a conversation have one active case at
    most; and if every inbound message of the sequence carried the contact that its
    conversation is linked to, a thread has one active case at most and its projection row
    names exactly that case with its status, or is resolved and names none. *)
Theorem reachable_projection t t' :
  (constraint cases (t_cases t) = None → rtc any_step t t' → one_active t')
  ∧ (Inv t → rtc sys_step t t' → ∀ x,
     (∀ k k' : case_row, k ∈ t_cases t' → k' ∈ t_cases t' → case_of x k = true → case_of x k' = true →
        is_active k = true → is_active k' = true → k = k')
     ∧ match active_case x t' with
       | Some k => projection_of x t' = Some (Some k.(cc_id), k.(cc_status))
       | None => projection_of x t' = None ∨ projection_of x t' = Some (None, resolved)
       end).
Proof.
  split.
  - intros Hc Hr. apply constraint_one_active. by apply (lw_case_rows _ _ (any_step_lawful _ _ Hr)).
  - intros Hi Hr x. destruct (sys_step_run t t' Hi Hr) as [Hi' _].
    split; [intros; by apply (active_unique x t')|].
    assert (Hm := inv_mirror t' Hi' x). destruct (active_case x t') as [k|] eqn:Hk.
    + apply phase_active_case in Hk; [|done]. by rewrite Hk in Hm.
    + destruct (phase_of x t') as [|i st|] eqn:Hp; [done| |by right].
      by destruct (not_live_phase x t' Hk i st).
Qed.
End runs.
