(* ===== verification/LifecycleWitness.v ===== *)
(** Concrete runs of the conversation workflow.

    A workspace with a contact c1 on conversation v1, a customer c2 whose
    conversation v2 is linked and whose second conversation v4 is not, and a
    conversation v3 without a contact.  The lemmas apply the theorems of
    LifecycleSpec.v to states that runs of the operations reach. *)

From S2P Require Import Prelude Js PublicRows SpineRows TenantDb Exec Workflow Cases SendAccess Phase CaseRecords Lifecycle LifecycleSpec.

#[export] Instance demo_oracle : Oracle := {|
  app_clock n := (1000 + Z.of_nat n)%Z;
  trx_clock n := (1000 + Z.of_nat n)%Z;
  stmt_clock n := ((1000 + Z.of_nat n) * 1000)%Z;
  gen_uuid n := String.append "i" (pretty n);
  gen_byte n i := Z.of_nat (n + i) |}.

Definition demo_contact (i : string) : contact_row :=
  mkContact i None None None None false false None 0 no_profile.
Definition demo_conversation (i : string) (linked : option string) : conversation_row :=
  mkConversation i kind_direct None linked None "acc"
    (mkThread None i None no_metadata None None 0).
Definition demo_message (i : string) (from_me : bool) : message_row :=
  mkMessage i None (Some "c1") None None None from_me None "text" (js "hello") None None None None
    None "delivered" 0 0 None (Some 1%Z) None None None None false None not_neutral.
Definition demo_policy : policy_row :=
  mkPolicy "p1" "co" 60 480 120 960 "UTC" DEFAULT_SLA_WEEKLY_SCHEDULE [] 0 None 0.

Definition demo_tables : tables :=
  mkTables [demo_contact "c1"; demo_contact "c2"]
    [demo_conversation "v1" (Some "c1"); demo_conversation "v2" (Some "c2");
     demo_conversation "v3" None; demo_conversation "v4" None]
    [] [] [] [demo_message "m1" false] [] [] [] [] [demo_policy] [] [] [] [] [] [] [] [] no_public no_spine.

Definition demo0 : db := mkDb demo_tables 0 0 0 0.
(** After an inbound message of c1, then pending, then its resolution. *)
Definition demo1 : db := (run (InboundMessage "co" "c1" false "m1") demo0).2.
Definition demo2 : db := (run (MarkPending "v1" "u1") demo1).2.
Definition spam_input : ResolveCaseInput := mkResolveInput spam None "u1".
Definition demo3 : db := (run (Resolve "c1" spam_input) demo1).2.
(** After u1 has claimed c1. *)
Definition demo4 : db := (requireSendAccess "c1" "u1" None demo1).2.
(** After an inbound message of v2, the linked thread of customer c2. *)
Definition demo5 : db := (run (InboundConversation "co" "v2" (Some "c2") false "m1") demo0).2.

Lemma Inv_fresh t :
  directory_ok t → t_cases t = [] → t_states t = [] → t_assignments t = [] → Inv t.
Proof.
  intros Hd Hc Hs Ha. split; rewrite ?Hc, ?Hs; try done.
  - intros k []%not_elem_of_nil.
  - intros k []%not_elem_of_nil.
  - unfold assignments_ok. rewrite Ha. split; [done|]. intros k []%not_elem_of_nil.
  - intros x. unfold phase_of, projection_of, phase_in, projection_in. rewrite Hc, Hs. by left.
Qed.

Ltac by_rows :=
  intros; repeat match goal with
  | H : _ ∈ [] |- _ => by apply not_elem_of_nil in H
  | H : _ ∈ _ :: _ |- _ => apply elem_of_cons in H as [->|H]
  end; cbn in *; simplify_eq; try done.

Lemma demo_directory : directory_ok demo_tables.
Proof.
  split; cbn [t_conversations t_contacts demo_tables]; by_rows.
  - exists (demo_contact "c1"). split; [left|done].
  - exists (demo_contact "c2"). split; [right; left|done].
Qed.

Lemma demo0_inv : Inv (tb demo0).
Proof. by apply Inv_fresh; [apply demo_directory|..]. Qed.

Lemma demo_linked : linked_thread "v2" (Some "c2") "c2" demo_tables.
Proof. split; [done|]. eexists. split; [right; left|done]. Qed.

(** A run re-establishes the invariant. *)
Lemma run_inv op s : Inv (tb s) → op_ok op (tb s) → Inv (tb (run op s).2).
Proof.
  intros Hi Hop.
  destruct (sys_step_advance (tb s) (tb (run op s).2) Hi) as [x Ha]; [by exists op, s|apply Ha].
Qed.

Lemma demo1_inv : Inv (tb demo1).
Proof. by apply run_inv; [apply demo0_inv|]. Qed.
Lemma demo2_inv : Inv (tb demo2).
Proof. by apply run_inv; [apply demo1_inv|]. Qed.
Lemma demo3_inv : Inv (tb demo3).
Proof. by apply run_inv; [apply demo1_inv|]. Qed.

Lemma demo4_inv : Inv (tb demo4).
Proof.
  assert (H := exec_run _ demo1 _ _ (requireSendAccess_exec "c1" "u1" None (tb demo1) demo1_inv)).
  unfold demo4. destruct (requireSendAccess "c1" "u1" None demo1) as [[r|e] s] eqn:E; [apply H|].
  exfalso. vm_compute in E. done.
Qed.

Lemma c1_is_contact : is_contact "c1" (tb demo1).
Proof. exists (demo_contact "c1"). split; [vm_compute; left|done]. Qed.

Lemma demo_phases :
  (phase_of "c1" (tb demo0), phase_of "c1" (tb demo1), phase_of "c1" (tb demo2),
   phase_of "c1" (tb demo3), phase_of "c2" (tb demo5))
  = (Never, Live "i0" open, Live "i0" pending, Closed, Live "i0" open).
Proof. vm_compute. reflexivity. Qed.

Lemma resolve_spec_witness :
  match resolve_thread thread_contact "c1" spam_input demo1 with
  | (Ok c, s') =>
      advance "c1" (tb demo1) (tb s') ∧ phase_of "c1" (tb s') = Closed
      ∧ allowed thread_contact "c1" "u1" (tb demo1)
      ∧ (∃ st, phase_of "c1" (tb demo1) = Live c.(id) st)
      ∧ (spam = handled → unanswered c.(id) (tb demo1) = false)
      ∧ (c.(status), c.(resolutionOutcome), c.(resolvedBy), c.(resolutionNotes))
        = (resolved, Some spam, Some "u1", None)
      ∧ ∃ row, row ∈ t_cases (tb s') ∧ toConversationCase row = c
  | (Throw e, s') => tb s' = tb demo1 ∧ resolve_error thread_contact "c1" spam_input (tb demo1) e
  end.
Proof. pose proof (resolve_spec thread_contact "c1" spam_input demo1 demo1_inv I) as Hw. exact Hw. Defined.

Lemma resolve_succeeds_witness :
  ∃ c s', resolve_thread thread_contact "c1" spam_input demo1 = (Ok c, s').
Proof.
  apply (resolve_succeeds thread_contact "c1" spam_input demo1 "i0" open demo1_inv I).
  - split; [apply c1_is_contact|]. intros o Ho. vm_compute in Ho. discriminate Ho.
  - vm_compute. reflexivity.
  - discriminate.
  - discriminate.
  - intros row z Hin [n ->]. vm_compute in Hin. apply elem_of_cons in Hin as [->|Hin];
      [|by apply not_elem_of_nil in Hin]. cbn. lia.
Defined.

Lemma pending_resume_spec_witness :
  match pending_thread thread_contact "c1" "u1" demo1 with
  | (Ok c, s') =>
      advance "c1" (tb demo1) (tb s') ∧ allowed thread_contact "c1" "u1" (tb demo1)
      ∧ c.(status) = pending ∧ phase_of "c1" (tb s') = Live c.(id) pending
      ∧ (phase_of "c1" (tb demo1) = Live c.(id) open
         ∨ (phase_of "c1" (tb demo1) = Live c.(id) pending ∧ tb s' = tb demo1))
  | (Throw e, s') =>
      tb s' = tb demo1 ∧ (refused thread_contact "c1" "u1" (tb demo1) e
        ∨ ((∃ m, e = ConflictError m) ∧ ∀ i st, phase_of "c1" (tb demo1) ≠ Live i st))
  end.
Proof. pose proof (pending_resume_spec thread_contact "c1" "u1" demo1 false demo1_inv I) as Hw. exact Hw. Defined.

Definition reopen_input : ManualOpenCaseInput :=
  mkOpenInput "co" "u1" (Some (js "again")) mode_reopen.

Lemma reopen_spec_witness :
  match reopen_thread thread_contact "c1" false reopen_input demo3 with
  | (Ok c, s') => open_post thread_contact "c1" false reopen_input (tb demo3) c (tb s')
  | (Throw e, s') => tb s' = tb demo3 ∧ open_error thread_contact "c1" reopen_input (tb demo3) e
  end.
Proof. pose proof (reopen_spec thread_contact "c1" false reopen_input demo3 demo3_inv I) as Hw. exact Hw. Defined.

Lemma inbound_message_spec_witness :
  match openOrReopenCaseForInboundMessage "co" (mkContactArg "c1" false) "m1" demo3 with
  | (Ok res, s') => inbound_post thread_contact "c1" "c1" "m1" (tb demo3) res (tb s')
  | (Throw e, s') =>
      tb s' = tb demo3 ∧
      ((¬ is_contact "c1" (tb demo3) ∧ ∃ r, e = NotFoundError r)
       ∨ (current_policy "co" (tb demo3) = None ∧ e = NotFoundError "SLA policy")
       ∨ ((∃ u, drawn_uuid u ∧ u ∈ cc_id <$> t_cases (tb demo3))
          ∧ e = UniqueViolation "conversation_cases_pkey"))
  end.
Proof. pose proof (inbound_message_spec "co" "c1" false "m1" demo3 demo3_inv) as Hw. exact Hw. Defined.

Lemma inbound_conversation_spec_witness :
  match openOrReopenCaseForInboundConversation "co" "v2" (Some "c2") false "m1" demo0 with
  | (Ok res, s') => inbound_post thread_conversation "c2" "v2" "m1" (tb demo0) res (tb s')
  | (Throw e, s') =>
      tb s' = tb demo0 ∧
      ((current_policy "co" (tb demo0) = None ∧ e = NotFoundError "SLA policy")
       ∨ ((∃ u, drawn_uuid u ∧ u ∈ cc_id <$> t_cases (tb demo0))
          ∧ e = UniqueViolation "conversation_cases_pkey"))
  end.
Proof.
  pose proof (inbound_conversation_spec "co" "v2" (Some "c2") false "m1" "c2" demo0 demo0_inv
    demo_linked) as Hw. exact Hw.
Defined.

(** The case of c2 that the first thread opened, under an id no later draw yields. *)
Definition c2_case : case_row :=
  mkCase "first" (Some "c2") (Some "v2") "co" direct open 1 None live_inbound None "p1" 60 480
    None None None None None None 1 1.
Definition demo6 : db :=
  mkDb (set_rows cases [c2_case] demo_tables) 0 0 0 0.

Lemma second_thread_inbound_refused_witness :
  ∃ s', openOrReopenCaseForInboundConversation "co" "v4" (Some "c2") false "m1" demo6
        = (Throw (UniqueViolation "cc_active_uidx"), s').
Proof.
  apply (second_thread_inbound_refused "co" "v4" "c2" false "m1" demo6 c2_case demo_policy).
  - vm_compute. reflexivity.
  - exists (demo_conversation "v4" None). split; [|reflexivity]. cbn. do 3 right. left.
  - cbn. left.
  - reflexivity.
  - reflexivity.
  - intros r Hr Hv. cbn in Hr. apply elem_of_cons in Hr as [->|Hr];
      [vm_compute in Hv; discriminate Hv|by apply not_elem_of_nil in Hr].
  - vm_compute. reflexivity.
  - intros u [n ->] Hin. cbn in Hin. apply list_elem_of_singleton in Hin.
    discriminate Hin.
Defined.

Lemma ensure_active_spec_witness :
  match ensureActiveCaseWithin (mkContactArg "c1" false) "co" "u1" (js "send") demo1 with
  | (Ok i, s') =>
      advance "c1" (tb demo1) (tb s') ∧
      ((∃ st, phase_of "c1" (tb demo1) = Live i st ∧ tb s' = tb demo1)
       ∨ ((∀ j st, phase_of "c1" (tb demo1) ≠ Live j st) ∧ phase_of "c1" (tb s') = Live i open
          ∧ allowed thread_contact "c1" "u1" (tb demo1)
          ∧ t_assignments (tb s') = t_assignments (tb demo1)))
  | (Throw e, s') => tb s' = tb demo1 ∧ ensure_error "c1" "co" "u1" (js "send") (tb demo1) e
  end.
Proof. pose proof (ensure_active_spec "c1" false "co" "u1" (js "send") demo1 demo1_inv) as Hw. exact Hw. Defined.

Lemma send_access_spec_witness :
  match requireSendAccess "c1" "u1" None demo1 with
  | (Ok r, s') => send_post thread_contact "c1" "u1" true (tb demo1) r (tb s')
  | (Throw e, _) => send_error thread_contact "c1" "u1" (tb demo1) e
  end.
Proof. pose proof (send_access_spec "c1" "u1" None demo1 demo1_inv) as Hw. exact Hw. Defined.

Lemma conversation_send_access_spec_witness :
  match requireConversationSendAccess "v1" "u1" None demo1 with
  | (Ok r, s') =>
      (∃ c, is_conversation "v1" (tb demo1) (Some c)
            ∧ send_post thread_contact c "u1" true (tb demo1) r (tb s'))
      ∨ (is_conversation "v1" (tb demo1) None
         ∧ send_post thread_conversation "v1" "u1" true (tb demo1) r (tb s'))
  | (Throw e, _) =>
      (∃ c, is_conversation "v1" (tb demo1) (Some c) ∧ send_error thread_contact c "u1" (tb demo1) e)
      ∨ (is_conversation "v1" (tb demo1) None ∧ send_error thread_conversation "v1" "u1" (tb demo1) e)
      ∨ ((∀ linked, ¬ is_conversation "v1" (tb demo1) linked) ∧ e = NotFoundError "Conversation")
  end.
Proof. pose proof (conversation_send_access_spec "v1" "u1" None demo1 demo1_inv) as Hw. exact Hw. Defined.

Lemma demo4_run : requireSendAccess "c1" "u1" None demo1 = (Ok (mkSendAccess "i0" true), demo4).
Proof. vm_compute. reflexivity. Qed.

Definition other_user_input : ResolveCaseInput := mkResolveInput spam None "u2".

Lemma claim_excludes_others_witness :
  (∃ e s3, requireSendAccess "c1" "u2" None demo4 = (Throw e, s3))
  ∧ (∃ e s3, resolveActiveCase "c1" other_user_input demo4 = (Throw e, s3) ∧ tb s3 = tb demo4).
Proof.
  pose proof (claim_excludes_others "c1" "u1" "u2" demo1 (mkSendAccess "i0" true) demo4 demo4
    other_user_input demo1_inv demo4_run demo4_inv eq_refl (λ Heq, ltac:(discriminate Heq)) eq_refl)
    as Hw. exact Hw.
Defined.

Lemma operations_refine_lifecycle_witness :
  match run (Resolve "c1" spam_input) demo1 with
  | (Ok _, s') => lawful (tb demo1) (tb s') ∧ ∃ x, advance x (tb demo1) (tb s')
  | (Throw _, s') => tb s' = tb demo1
  end.
Proof.
  pose proof (operations_refine_lifecycle (Resolve "c1" spam_input) demo1) as Hw.
  destruct (run (Resolve "c1" spam_input) demo1) as [[a|e] s']; [|exact Hw].
  destruct Hw as [Hl Ha]. split; [exact Hl|exact (Ha demo1_inv I)].
Defined.

Lemma run_step op s : op_ok op (tb s) → sys_step (tb s) (tb (run op s).2).
Proof. intros Hop. by exists op, s. Qed.

Lemma demo_reaches : rtc sys_step (tb demo0) (tb demo3).
Proof.
  apply (rtc_l sys_step _ (tb demo1)).
  - unfold demo1. by apply run_step.
  - apply rtc_once. unfold demo3. by apply run_step.
Qed.

(** A message of v3 that carries c1, which v3 is not linked to. *)
Definition demo_foreign : db := (run (InboundConversation "co" "v3" (Some "c1") false "m1") demo0).2.
Lemma any_run op s : any_step (tb s) (tb (run op s).2).
Proof. by exists op, s. Qed.
Lemma demo_reaches_any : rtc any_step (tb demo0) (tb demo_foreign).
Proof. unfold demo_foreign. apply rtc_once, any_run. Qed.
Lemma demo_foreign_opened :
  (λ k, (k.(cc_contact_id), k.(cc_conversation_id))) <$> t_cases (tb demo_foreign) = [(Some "c1", Some "v3")].
Proof. vm_compute. reflexivity. Qed.

Lemma reachable_lifecycle_witness :
  lawful (tb demo0) (tb demo_foreign)
  ∧ lawful (tb demo0) (tb demo3) ∧ Inv (tb demo3)
  ∧ ∀ x, rtc lstep (phase_of x (tb demo0)) (phase_of x (tb demo3)).
Proof.
  split.
  - exact (proj1 (reachable_lifecycle (tb demo0) (tb demo_foreign)) demo_reaches_any).
  - exact (proj2 (reachable_lifecycle (tb demo0) (tb demo3)) demo0_inv demo_reaches).
Defined.

Lemma demo0_cases : constraint cases (t_cases (tb demo0)) = None.
Proof. reflexivity. Qed.

Lemma reachable_projection_witness :
  one_active (tb demo_foreign)
  ∧ ((∀ k k', k ∈ t_cases (tb demo3) → k' ∈ t_cases (tb demo3) → case_of "c1" k = true →
     case_of "c1" k' = true → is_active k = true → is_active k' = true → k = k')
  ∧ match active_case "c1" (tb demo3) with
    | Some k => projection_of "c1" (tb demo3) = Some (Some k.(cc_id), k.(cc_status))
    | None => projection_of "c1" (tb demo3) = None
              ∨ projection_of "c1" (tb demo3) = Some (None, resolved)
    end).
Proof.
  split.
  - exact (proj1 (reachable_projection (tb demo0) (tb demo_foreign)) demo0_cases demo_reaches_any).
  - exact (proj2 (reachable_projection (tb demo0) (tb demo3)) demo0_inv demo_reaches "c1").
Defined.
