(* ===== verification/CredentialWitness.v ===== *)
(** Concrete runs of the credential requests.

    A workspace "co" with an owner u1 and a member u2, to whom a client is granted
    read access.  The digests are readable stand-ins that meet no more than what the
    theorems ask: each hash is a function. *)

From S2P Require Import Prelude Js Permissions PublicRows TenantDb PublicDb Exec OAuth Workflow Team Sessions AccessControl Credentials CredentialRuns CredentialSpec CodeSpec LifecycleWitness.

#[export] Instance demo_crypto : Crypto := {|
  sha256_hex s := String.append "h:" s;
  sha256_base64url s := String.append "b:" s;
  bcrypt_hash p salt := String.append "pw:" p;
  bcrypt_compare p h := String.eqb h (String.append "pw:" p);
  sign_access u s iat e := String.append "A" (String.append u (String.append "." s));
  sign_refresh s jti iat e := String.append "R" (String.append s (String.append "." jti));
  verify_refresh t now := Some (String.substring 1 3 t, "x");
  verify_access t now := None |}.
#[export] Instance demo_case : CaseMapping := {| toLowerCase s := s; sql_lower s := s |}.

Definition demo_user (i e : string) : user_row := mkUser i None (js e) None "pw:p" (Some 0%Z) 0 0.
Definition demo_member (i u : string) (r : CompanyMemberRole) : member_row := mkMember i u "co" r None None 0.
Definition demo_public : public_tables :=
  mkPublic [demo_user "u1" "a@x"; demo_user "u2" "b@x"]
    [mkCompany "co" (js "Co") None None "company_co" company_active 0 0]
    [mkStats "co" 2 0]
    [demo_member "m1" "u1" owner; demo_member "m2" "u2" member] [] [] [] [] [] [] [] [].
Definition cred0 : db := mkDb (with_public demo_public no_tables) 0 0 0 0.

(** u2 approves a client, which exchanges the code and begins a refresh; u2 disconnects the
    client while the refresh is in flight. *)
Definition demo_approval : CreateAuthorizationCodeInput :=
  mkCodeInput "https://client" "u2" "co" [scope_read] "https://back" "b:verifier" "mcp".
Definition cred1 : db := (run_credential_op (CreateCode demo_approval) cred0).2.
Definition the_code : string :=
  match (createAuthorizationCode demo_approval cred0).1 with
  | Ok c => c | Throw _ => "" end.
Definition demo_exchange : ExchangeCodeInput :=
  mkExchange the_code "https://client" "https://back" "verifier" None (js "Client").
Definition the_issued : IssuedTokens :=
  match (exchangeAuthorizationCode demo_exchange cred1).1 with
  | Ok i => i | Throw _ => mkIssued "" "" 0 [] end.
Definition cred2 : db := (run_credential_op (Exchange demo_exchange) cred1).2.
Definition demo_refresh : RefreshInput := mkRefreshInput the_issued.(is_refreshToken) "https://client" None (js "Client").
Definition flights3 : list flight := takes_off (begin_refresh demo_refresh cred2).1.
Definition cred3 : db := (begin_refresh demo_refresh cred2).2.

Definition the_flight : refresh_lookup * jsstring :=
  match flights3 with
  | Rotating e n :: _ => (e, n)
  | _ => (mkLookup "" "" "" None None None "" "" [] "" None, []) end.
Definition the_token : api_token_row :=
  match tokens (tb cred2) with r :: _ => r | [] => mkApiToken "" "" "" [] "" "" [] None None None 0 None None None None end.
Definition the_grant : grant_row :=
  match grants (tb cred2) with g :: _ => g | [] => mkGrant "" "" "" "" [] "" 0 None None None end.
Definition asked : db := (begin_disconnect the_grant.(gr_id) "co" "u2" false cred3).2.
Definition cred4 : db := (revokeGrant the_grant.(gr_id) "user_revoked" asked).2.

Lemma cred0_sound : Sound (mkCsys cred0 []).
Proof.
  split; cbn.
  - by split; vm_compute.
  - intros r Hr. by apply elem_of_nil in Hr.
  - intros e n Hn. by apply elem_of_nil in Hn.
Qed.
Lemma cred1_sound : Sound (mkCsys cred1 []).
Proof. exact (Sound_cstep _ _ cred0_sound (step_op (CreateCode demo_approval) cred0 [])). Qed.
Lemma cred2_sound : Sound (mkCsys cred2 []).
Proof. exact (Sound_cstep _ _ cred1_sound (step_op (Exchange demo_exchange) cred1 [])). Qed.
(** What the run computes. *)
Lemma exchange_issues :
  exchangeAuthorizationCode demo_exchange cred1 = (Ok the_issued, cred2).
Proof. by vm_compute. Qed.
Lemma flights3_eq : takes_off (begin_refresh demo_refresh cred2).1 = [Rotating the_flight.1 the_flight.2].
Proof. by vm_compute. Qed.
Definition the_verified : VerifiedApiToken :=
  mkVerified the_token.(tk_id) "u2" "co" [scope_read] (Some "mcp").
Definition verified_db : db := (verifyApiToken the_issued.(is_accessToken) cred2).2.
Lemma verify_runs :
  verifyApiToken the_issued.(is_accessToken) (sy_db (mkCsys cred2 [])) = (Ok (Some the_verified), verified_db).
Proof. by vm_compute. Qed.

Definition in_flight : list flight := [Rotating the_flight.1 the_flight.2].
Lemma asked_flights :
  takes_off (begin_disconnect the_grant.(gr_id) "co" "u2" false cred3).1
  = [Burning the_grant.(gr_id) "user_revoked"].
Proof. by vm_compute. Qed.

Lemma Sound_refresh i s f :
  Sound (mkCsys s []) → takes_off (begin_refresh i s).1 = f → Sound (mkCsys (begin_refresh i s).2 f).
Proof.
  intros HS <-. assert (Hn := Sound_cstep _ _ HS (step_refresh i s [])). by rewrite app_nil_r in Hn.
Qed.
Lemma Sound_disconnect g c u a s f fl :
  Sound (mkCsys s fl) → takes_off (begin_disconnect g c u a s).1 = f →
  Sound (mkCsys (begin_disconnect g c u a s).2 (f ++ fl)).
Proof. intros HS <-. exact (Sound_cstep _ _ HS (step_disconnect g c u a s fl)). Qed.
Lemma Sound_burn g r s fl : Sound (mkCsys s (Burning g r :: fl)) → Sound (mkCsys (revokeGrant g r s).2 fl).
Proof. intros HS. exact (Sound_cstep _ _ HS (step_burn g r s [] fl)). Qed.

Lemma cred3_sound : Sound (mkCsys cred3 in_flight).
Proof. exact (Sound_refresh _ _ _ cred2_sound flights3_eq). Qed.
Lemma asked_sound : Sound (mkCsys asked (Burning the_grant.(gr_id) "user_revoked" :: in_flight)).
Proof. exact (Sound_disconnect _ _ _ _ _ _ _ cred3_sound asked_flights). Qed.
Lemma cred4_sound : Sound (mkCsys cred4 in_flight).
Proof. exact (Sound_burn _ _ _ _ asked_sound). Qed.

(** u2 disconnects the client, and the refresh in flight commits after that. *)
Definition disconnected : csys := mkCsys cred4 in_flight.
Definition cred5 : db := (rotate the_flight.1 the_flight.2 disconnected.(sy_db)).2.
Definition late : csys := mkCsys cred5 ([] ++ []).
Definition late_issued : IssuedTokens :=
  match (rotate the_flight.1 the_flight.2 disconnected.(sy_db)).1 with Ok (Some i) => i | _ => the_issued end.
Lemma late_rotation : rotate the_flight.1 the_flight.2 disconnected.(sy_db) = (Ok (Some late_issued), cred5).
Proof. by vm_compute. Qed.
Lemma late_flights : disconnected.(sy_flights) = [] ++ Rotating the_flight.1 the_flight.2 :: [].
Proof. by vm_compute. Qed.
Lemma late_grant : the_flight.1.(rl_grant_id) = the_grant.(gr_id).
Proof. by vm_compute. Qed.
Definition last_token : api_token_row :=
  match tokens (tables_of disconnected) with r :: _ => r | [] => the_token end.
Lemma last_token_stored : last_token ∈ tokens (tables_of disconnected).
Proof. vm_compute. left. Qed.
Lemma last_token_grant : last_token.(tk_grant_id) = Some the_grant.(gr_id).
Proof. by vm_compute. Qed.
Definition burnt_grant : grant_row :=
  match grants (tables_of disconnected) with g :: _ => g | [] => the_grant end.
Lemma grant_burnt : grant_revoked (tables_of disconnected) the_grant.(gr_id).
Proof.
  exists burnt_grant. split; [by vm_compute; left|]. split; [by vm_compute|]. by vm_compute; eexists.
Qed.
Definition late_input : RefreshInput :=
  mkRefreshInput late_issued.(is_refreshToken) demo_refresh.(ri_clientId) None [].
Lemma late_input_token : late_input.(ri_refreshToken) = late_issued.(is_refreshToken).
Proof. by vm_compute. Qed.

Lemma revocation_is_final_witness :
  token_refused disconnected.(sy_db) last_token
  ∧ (verifyApiToken late_issued.(is_accessToken) late.(sy_db)).1 = Ok None
  ∧ (refreshTokens late_input late.(sy_db)).1
    = Throw (OAuthError "invalid_grant" "This authorization has been revoked").
Proof.
  destruct (revocation_is_final disconnected disconnected the_grant.(gr_id) cred4_sound (rtc_refl _ _) grant_burnt)
    as (H1 & _ & H3).
  destruct (H3 the_flight.1 the_flight.2 [] [] late_issued cred5 late late_flights late_grant late_rotation
    (rtc_refl _ _)) as [Hv Hr].
  split; [exact (H1 last_token last_token_stored last_token_grant)|]. split; [exact Hv|].
  exact (Hr late_input late_input_token).
Defined.

(** The refresh commits, and then its token is presented again. *)
Definition rotated : db := (rotate the_flight.1 the_flight.2 cred3).2.
Definition the_rotated : IssuedTokens :=
  match (rotate the_flight.1 the_flight.2 cred3).1 with
  | Ok (Some i) => i | _ => the_issued end.
Lemma rotate_issues : rotate the_flight.1 the_flight.2 cred3 = (Ok (Some the_rotated), rotated).
Proof. by vm_compute. Qed.
Definition cred6 : csys := mkCsys (run_credential_op (VerifyToken the_rotated.(is_accessToken)) rotated).2 [].

Definition spent_token : api_token_row :=
  match tokens (tables_of cred6) with r :: _ => r | [] => the_token end.
Lemma spent_token_facts :
  spent_token.(tk_id) = the_flight.1.(rl_token_id)
  ∧ spent_token.(tk_refresh_token_hash) = Some (sha256_hex demo_refresh.(ri_refreshToken)).
Proof. by vm_compute. Qed.
Lemma refresh_token_spent_once_witness :
  (rotate the_flight.1 the_flight.2 cred6.(sy_db)).1 ≠ Ok (Some the_rotated)
  ∧ ∃ message, (refreshTokens demo_refresh cred6.(sy_db)).1 = Throw (OAuthError "invalid_grant" message).
Proof.
  destruct (refresh_token_spent_once the_flight.1 the_flight.2 the_rotated cred3 rotated [] []
    cred6 cred3_sound rotate_issues (rtc_once _ _ (step_op (VerifyToken the_rotated.(is_accessToken)) rotated [])))
    as [Hr Hs].
  split; [exact (Hr the_flight.1 the_flight.2 the_rotated eq_refl)|].
  assert (Hin : spent_token ∈ tokens (tables_of cred6)) by (vm_compute; left).
  destruct (Hs spent_token demo_refresh Hin (proj1 spent_token_facts) (proj2 spent_token_facts)) as (m & Hm & _).
  exists m. exact Hm.
Defined.

(** The owner removes u2 while the refresh is in flight; the refresh commits after that. *)
Definition left_db : db := (remove_membership "co" "u2" cred3).2.
Lemma removal_runs : remove_membership "co" "u2" cred3 = (Ok tt, left_db).
Proof. by vm_compute. Qed.
Definition cred7 : csys :=
  mkCsys (rotate the_flight.1 the_flight.2 left_db).2
         (after_rotate the_flight.1 (rotate the_flight.1 the_flight.2 left_db).1 ++ []).

Lemma removal_is_a_boundary_witness :
  (∀ a, a ∈ codes (tb left_db) → ¬ owned "co" "u2" a.(ac_company_id) a.(ac_user_id))
  ∧ ∀ r, r ∈ tokens (tables_of cred7) → owned "co" "u2" r.(tk_company_id) r.(tk_user_id) →
    (∃ r0, r0 ∈ tokens (tb left_db) ∧ r0.(tk_id) = r.(tk_id))
    ∨ (∃ g0, g0 ∈ grants (tb left_db) ∧ r.(tk_grant_id) = Some g0.(gr_id)) →
    (∀ raw, r.(tk_token_hash) = hashApiToken raw → (verifyApiToken raw cred7.(sy_db)).1 = Ok None)
    ∧ (∀ input, r.(tk_refresh_token_hash) = Some (sha256_hex input.(ri_refreshToken)) →
         ∃ message, (refreshTokens input cred7.(sy_db)).1 = Throw (OAuthError "invalid_grant" message)).
Proof.
  exact (removal_is_a_boundary "co" "u2" cred3 left_db in_flight cred7 cred3_sound
    removal_runs (rtc_once _ _ (step_rotate the_flight.1 the_flight.2 left_db [] []))).
Defined.

Lemma verified_within_grant_witness :
  ∃ r, r ∈ tokens (tables_of (mkCsys cred2 [])) ∧ r.(tk_grant_id) = Some the_grant.(gr_id) ∧ r.(tk_revoked_at) = None.
Proof.
  destruct (verified_within_grant (mkCsys cred2 []) the_issued.(is_accessToken) the_verified verified_db
    cred2_sound verify_runs)
    as (r & Hr & _ & _ & Hrev & _).
  exists r. split; [exact Hr|]. split; [|exact Hrev].
  revert Hr. vm_compute. intros Hr. by apply list_elem_of_singleton in Hr as ->.
Defined.

(** The code is presented again after a request that verified the token. *)
Definition cred8 : csys :=
  mkCsys (run_credential_op (VerifyToken the_issued.(is_accessToken)) cred2).2 [].
Lemma code_redeemed_once_witness :
  (exchangeAuthorizationCode demo_exchange cred8.(sy_db)).1 ≠ Ok the_issued.
Proof.
  refine (code_redeemed_once demo_exchange demo_exchange the_issued cred1 cred2 [] cred8
    ltac:(by vm_compute) exchange_issues _ eq_refl the_issued).
  apply rtc_once. split; [exact (step_op (VerifyToken the_issued.(is_accessToken)) cred2 [])|].
  vm_compute. intros a' Ha' Hh. by exists a'.
Defined.
