(* ===== verification/AccountWitness.v ===== *)
(** Concrete runs of teams, the membership cache, sessions and clients. *)

From S2P Require Import Prelude Js Permissions PublicRows TenantDb PublicDb Exec Steady OAuth Workflow Team Sessions AccessControl Credentials CredentialRuns TeamSpec TeamRoutes MembershipCache MembershipRuns MembershipWrites SessionSpec NetAddress OAuthClients ClientSpec LifecycleWitness CredentialWitness.

#[export] Instance demo_env : AuthEnv := {|
  JWT_ACCESS_EXPIRES_IN := js "15m"; JWT_REFRESH_EXPIRES_IN := js "7d"; JWT_REFRESH_REUSE_GRACE_SECONDS := 60 |}.

(** ** Teams *)

(** u1 owns "co", u2 is a member. *)
Lemma cred0_team : Team [] (tb cred0).
Proof.
  assert (Hm : ∀ m, m ∈ memberships (tb cred0) → m = demo_member "m1" "u1" owner ∨ m = demo_member "m2" "u2" member).
  { intros m [->|Hm]%elem_of_cons; [by left|right]. by apply list_elem_of_singleton in Hm. }
  assert (Hw : ∀ w, w ∈ workspaces (tb cred0) → w = mkCompany "co" (js "Co") None None "company_co" company_active 0 0).
  { intros w Hw. by apply list_elem_of_singleton in Hw. }
  split; try by vm_compute.
  - intros m [-> | ->]%Hm; (eexists; split; [left|done]).
  - intros w ->%Hw. exists (demo_member "m1" "u1" owner). split_and!; [left|done|done].
  - by intros m m' [-> | ->]%Hm [-> | ->]%Hm.
  - by intros i Hi%not_elem_of_nil.
  - intros s Hs. by apply list_elem_of_singleton in Hs as ->.
  - by intros c Hc%not_elem_of_nil.
Qed.

(** The owner removes u2, transfers to nobody, and the removal is counted later. *)
Definition team1 : db := (remove_membership "co" "u2" cred0).2.
Lemma team1_removed : done_or (remove_membership "co" "u2" cred0).1 ["co"] [] = ["co"].
Proof. by vm_compute. Qed.
Definition team2 : db := (uncount_member "co" team1).2.
Lemma team2_counted : done_or (uncount_member "co" team1).1 [] ["co"] = [].
Proof. by vm_compute. Qed.

Lemma team_step_removed c u s p p' :
  done_or (remove_membership c u s).1 (c :: p) p = p' → team_step (mkTsys s p) (mkTsys (remove_membership c u s).2 p').
Proof. intros <-. apply step_remove. Qed.
Lemma team_step_counted c s p p' p'' :
  p ≡ₚ c :: p' → done_or (uncount_member c s).1 p' p = p'' →
  team_step (mkTsys s p) (mkTsys (uncount_member c s).2 p'').
Proof. intros Hp <-. by apply step_uncount. Qed.

Lemma team_step1 : team_step (mkTsys cred0 []) (mkTsys team1 ["co"]).
Proof. unfold team1. exact (team_step_removed "co" "u2" cred0 [] ["co"] team1_removed). Qed.
Lemma team_step2 : team_step (mkTsys team1 ["co"]) (mkTsys team2 []).
Proof. unfold team2. exact (team_step_counted "co" team1 ["co"] [] [] (Permutation_refl _) team2_counted). Qed.

Definition sys0 : tsys := mkTsys cred0 [].
Definition sys2 : tsys := mkTsys team2 [].
Lemma sys0_team : Team sys0.(ts_uncounted) (tb sys0.(ts_db)).
Proof. unfold sys0. cbn [ts_uncounted ts_db]. exact cred0_team. Qed.
Lemma team_well_formed_witness : Team sys2.(ts_uncounted) (tb sys2.(ts_db)).
Proof.
  exact (team_well_formed sys0 sys2 sys0_team
    (rtc_l _ _ _ _ team_step1 (rtc_once _ _ team_step2))).
Defined.

(** u1 invites u3 with one permission changed; u3 accepts. *)
Definition invite_public : public_tables :=
  mkPublic [demo_user "u1" "a@x"; demo_user "u3" "c@x"]
    [mkCompany "co" (js "Co") None None "company_co" company_active 0 0]
    [mkStats "co" 1 0] [demo_member "m1" "u1" owner] [] [] [] [] [] [] [] [].
Definition invite0 : db := mkDb (with_public invite_public no_tables) 0 0 0 0.
Definition invite_input : InviteMemberInput :=
  mkInvite (js "c@x") None (Some (λ p, match p with can_export => Some true | _ => None end)).
Definition the_invitation : invitation_row :=
  match (create_invitation "co" invite_input "u1" invite0).1 with
  | Ok (i, _) => i
  | Throw _ => mkInvitation "" "" [] member (λ _, None) "" "" 0 None 0
  end.
Definition invite1 : db := (create_invitation "co" invite_input "u1" invite0).2.
Lemma invite_runs : create_invitation "co" invite_input "u1" invite0 = (Ok (the_invitation, None), invite1).
Proof. by vm_compute. Qed.
Definition invite2 : db := (acceptInvitationInTransaction the_invitation.(iv_token) "u3" invite1).2.
Lemma acceptance_runs : ∃ r u, joined the_invitation.(iv_token) "u3" (tb invite1) (tb invite2) r the_invitation u.
Proof.
  assert (Hx := exec_run _ invite1 _ _ (exec_acceptance the_invitation.(iv_token) "u3" (tb invite1))).
  assert (Hok : match (acceptInvitationInTransaction the_invitation.(iv_token) "u3" invite1).1 with Ok _ => true | Throw _ => false end = true)
    by (by vm_compute).
  unfold invite2. destruct (acceptInvitationInTransaction _ _ _) as [[r|e] s']; [|done].
  destruct Hx as (i & u & Hj). exists r, u.
  assert (Hf : first (λ i, bool_decide (i.(iv_token) = the_invitation.(iv_token)) && is_null i.(iv_accepted_at)) (invited (tb invite1))
    = Some the_invitation) by (by vm_compute).
  assert (i = the_invitation) as ->; [|exact Hj]. assert (Hi := jn_invitation _ _ _ _ _ _ _ Hj). congruence.
Qed.

Lemma invitation_grants_request_witness :
  ∃ m, m ∈ memberships (tb invite2) ∧ m.(mb_user_id) = "u3" ∧ (member_data m).2 can_export = true
       ∧ (member_data m).2 can_manage_team = false.
Proof.
  destruct acceptance_runs as (r & u & Hj).
  destruct (invitation_grants_request "co" invite_input "u1" invite0 the_invitation None invite1
    the_invitation.(iv_token) "u3" (tb invite1) (tb invite2) r u invite_runs Hj) as (_ & _ & Hu & Hp).
  exists r.2. split; [|split; [exact Hu|split; [exact (Hp can_export)|exact (Hp can_manage_team)]]].
  rewrite (jn_members _ _ _ _ _ _ _ Hj). apply elem_of_app. right. left.
Defined.

(** u1 removes u2: "co" is among the invalidations. *)
Definition demo_upload (c : string) : M string := mret "logo".
Definition demo_schema (c : string) : M unit := mret tt.
Definition request1 : db :=
  (run_member_request demo_upload demo_schema demo_schema demo_schema (MrRemove "co" "u2") cred0).2.
Lemma membership_writes_invalidate_witness :
  ∃ l, log (tb request1) = log (tb cred0) ++ l
    ∧ ∀ c, c ∉ l → members_in c (tb request1) = members_in c (tb cred0).
Proof.
  exact (membership_writes_invalidate demo_upload demo_schema demo_schema demo_schema
    (λ _, steady_ret told _) (λ _, steady_ret told _) (λ _, steady_ret told _) (λ _, steady_ret told _) (MrRemove "co" "u2") cred0
    ltac:(by vm_compute)).
Defined.

(** ** The membership cache *)

(** A call starts a load that reads; then comes a write and its invalidation; the load
    settles; a second call loads again. *)
Definition demo_hist (c : string) (n : nat) : nat := n.
Definition cache0 : cache_sys nat := mkCacheSys (mkModule [] [] 5000 0 0 0) [] [] (λ _, 0%nat) (λ _, 0%nat).

Lemma cache0_ok : Cached demo_hist cache0.
Proof.
  split; cbn; try done; try lia; try constructor.
  - by intros c e He%not_elem_of_nil.
  - by intros c e He%not_elem_of_nil.
  - by apply not_elem_of_nil in H.
  - by apply not_elem_of_nil in H.
Qed.

Definition stored_entry : list (string * CacheEntry nat) := [("co", mkEntry 0%nat 5000)].
Lemma store_terminates_witness :
  ∃ cache, storeCacheEntry "other" 1%nat 5000 10 stored_entry = Some cache
    ∧ (length cache <= MAX_CACHED_COMPANIES)%nat ∧ last cache = Some ("other", mkEntry 1%nat 5010).
Proof.
  assert (Hn : NoDup stored_entry.*1) by (apply NoDup_singleton).
  destruct (store_terminates "other" 1%nat 5000 10 stored_entry Hn) as (cache & H1 & H2 & H3 & _).
  exists cache. split; [exact H1|split; [exact H2|exact H3]].
Defined.

(** The run of the cache: promise 0 is read before the write and settles after the
    invalidation, so its value is not stored; the second call loads the new membership. *)
Definition opened (s : cache_sys nat) : cache_sys nat :=
  let r := getCompanyMemberPermissions "co" 10 (length s.(ks_promises)) s.(ks_module) in
  let a := answered "co" (s.(ks_dropped) "co") r.1 s.(ks_promises) in
  mkCacheSys r.2 a.1 (a.2 :: s.(ks_calls)) s.(ks_writes) s.(ks_dropped).
Lemma opened_step s : cache_step demo_hist s (opened s).
Proof. destruct s as [m ps cs w d]. exact (cache_call demo_hist "co" 10 m ps cs w d). Qed.

Definition at_promise (i : nat) (st : stage nat) (s : cache_sys nat) : cache_sys nat :=
  mkCacheSys s.(ks_module)
    (match s.(ks_promises) !! i with Some p => <[i := at_stage st p]> s.(ks_promises) | None => s.(ks_promises) end)
    s.(ks_calls) s.(ks_writes) s.(ks_dropped).
Definition written (s : cache_sys nat) : cache_sys nat :=
  mkCacheSys s.(ks_module) s.(ks_promises) s.(ks_calls) (bump "co" s.(ks_writes)) s.(ks_dropped).
Definition dropped (s : cache_sys nat) : cache_sys nat :=
  mkCacheSys (invalidateCompanyMembership "co" s.(ks_module)) s.(ks_promises) s.(ks_calls) s.(ks_writes)
    (catch_up "co" s.(ks_dropped) s.(ks_writes)).

Definition with_module (m : membership_module nat) (s : cache_sys nat) : cache_sys nat :=
  mkCacheSys m s.(ks_promises) s.(ks_calls) s.(ks_writes) s.(ks_dropped).
Definition settled_then (i : nat) (v : nat) (s : cache_sys nat) : cache_sys nat :=
  with_module (default s.(ks_module) (load_then "co" i v 5000 20 s.(ks_module))) (at_promise i (Thened (Some v)) s).
Definition settled_finally (i : nat) (v : nat) (s : cache_sys nat) : cache_sys nat :=
  with_module (load_finally "co" i s.(ks_module)) (at_promise i (Settled (Some v)) s).

Lemma read_step i s :
  s.(ks_promises) !! i = Some (mkPromise "co" (Some 5000%Z) Loading) →
  cache_step demo_hist s (at_promise i (Read (s.(ks_writes) "co")) s).
Proof. destruct s as [m ps cs w d]. unfold at_promise. cbn. intros Hp. rewrite Hp. by apply (cache_read demo_hist). Qed.
Lemma then_step i v s :
  s.(ks_promises) !! i = Some (mkPromise "co" (Some 5000%Z) (Read v)) →
  load_then "co" i v 5000 20 s.(ks_module) = Some (settled_then i v s).(ks_module) →
  cache_step demo_hist s (settled_then i v s).
Proof.
  destruct s as [m ps cs w d]. unfold settled_then, with_module, at_promise. cbn. intros Hp Hl. rewrite Hp.
  by eapply (cache_then demo_hist i _ 5000 v 20).
Qed.
Lemma finally_step i v s :
  s.(ks_promises) !! i = Some (mkPromise "co" (Some 5000%Z) (Thened (Some v))) →
  cache_step demo_hist s (settled_finally i v s).
Proof.
  destruct s as [m ps cs w d]. unfold settled_finally, with_module, at_promise. cbn. intros Hp. rewrite Hp.
  by apply (cache_finally demo_hist i (mkPromise "co" (Some 5000%Z) (Thened (Some v)))).
Qed.
Lemma written_step s : cache_step demo_hist s (written s).
Proof. destruct s as [m ps cs w d]. apply (cache_write demo_hist). Qed.
Lemma dropped_step s : cache_step demo_hist s (dropped s).
Proof. destruct s as [m ps cs w d]. apply (cache_invalidate demo_hist). Qed.

Definition cache1 : cache_sys nat := at_promise 0 (Read 0%nat) (opened cache0).
Definition cache2 : cache_sys nat := opened (dropped (written cache1)).
Definition cache3 : cache_sys nat := at_promise 1 (Read 1%nat) cache2.
Definition cache5 : cache_sys nat := settled_finally 1 1 (settled_then 1 1 cache3).

Lemma cache_run : rtc (cache_step demo_hist) cache0 cache5.
Proof.
  eapply rtc_l; [apply opened_step|]. eapply rtc_l; [exact (read_step 0 (opened cache0) eq_refl)|].
  eapply rtc_l; [apply written_step|]. eapply rtc_l; [apply dropped_step|]. eapply rtc_l; [apply opened_step|].
  eapply rtc_l; [exact (read_step 1 cache2 eq_refl)|].
  eapply rtc_l; [exact (then_step 1 1 cache3 eq_refl eq_refl)|].
  apply rtc_once. exact (finally_step 1 1 (settled_then 1 1 cache3) eq_refl).
Qed.

Lemma membership_never_stale_witness :
  ∃ n, (1 <= n <= cache5.(ks_writes) "co")%nat ∧ 1%nat = demo_hist "co" n.
Proof.
  refine (proj1 (membership_never_stale demo_hist cache0 cache5 (mkCall "co" 1 (inr 1%nat)) 1%nat cache0_ok cache_run _ _)).
  - vm_compute. left.
  - right. exists 1%nat, (mkPromise "co" (Some 5000%Z) (Settled (Some 1%nat))). split; [reflexivity|split; reflexivity].
Defined.

(** ** Sessions *)

Definition demo_history : list rotation := [("h1", 100); ("h2", 200); ("h3", 300)]%Z.
Lemma retention_reference_witness :
  isRetiredRefreshTokenAccepted (retained 60000 demo_history) "h2" 5000
  = reference_accepts 60000 demo_history "h2" 5000.
Proof.
  refine (proj1 (retention_reference 60000 demo_history "h2" 5000 _ _ _)).
  - lia.
  - repeat constructor; done.
  - intros r [->|[->|Hr]%elem_of_cons]%elem_of_cons; [by cbn|by cbn|]. by apply list_elem_of_singleton in Hr as ->.
Defined.

(** u2 asks for a reset link and uses it. *)
Definition reset0 : db := (login (js "b@x") "p" (mkDevice None None None None) cred0).2.
Definition the_link : string := match (forgotPassword (js "b@x") reset0).1 with Ok (Some t) => t | _ => "" end.
Definition reset1 : db := (forgotPassword (js "b@x") reset0).2.
Lemma reset_runs : (resetPassword the_link "new" reset1).1 = Ok tt.
Proof. by vm_compute. Qed.
Lemma reset_outcome_witness :
  ∃ r, reset_by the_link (tb reset1) r
    ∧ ∀ se, se ∈ session_rows (tb (resetPassword the_link "new" reset1).2) → se.(se_user_id) ≠ r.(at_user_id).
Proof.
  assert (Hx := reset_outcome the_link "new" reset1 ltac:(by vm_compute)). assert (Hr := reset_runs). revert Hx Hr.
  destruct (resetPassword the_link "new" reset1) as [[u|e] s']; [|intros _ He; discriminate He].
  intros (r & salt & now & Hby & _ & Hs & _) _. exists r. split; [exact Hby|].
  intros se Hse. exact (proj2 (proj1 (Hs se) Hse)).
Defined.

(** ** Clients *)

Lemma private_addresses_refused_witness :
  isPrivateAddress (text4 (quad 169 254 169 254)) = true ∧ isPrivateAddress (text4 (quad 8 8 8 8)) = false
  ∧ isPrivateAddress (text6_mapped (quad 127 0 0 1)) = true.
Proof.
  destruct private_addresses_refused as (H4 & _).
  split; [rewrite (proj1 (H4 (quad 169 254 169 254) ltac:(by vm_compute))); reflexivity|].
  split; [rewrite (proj1 (H4 (quad 8 8 8 8) ltac:(by vm_compute))); reflexivity|].
  rewrite (proj2 (H4 (quad 127 0 0 1) ltac:(by vm_compute))). reflexivity.
Defined.

(** A client at example.com, whose document its address serves. *)
Definition demo_doc : json :=
  JObject [(js "client_id", JString (js "https://example.com/client.json"));
           (js "redirect_uris", JArray [JString (js "https://example.com/back")])].
Definition demo_json (bytes : list Z) : option json := if bool_decide (bytes = [1%Z]) then Some demo_doc else None.
Definition demo_url (s : jsstring) : option url_parts :=
  Some (mkUrl (js "https:") (js "example.com") (js "example.com") [] (js "/client.json") [] []).
Definition demo_lookup (s : jsstring) : option (list pinned_address) := Some [(js "93.184.215.14", 4%nat)].
Definition demo_dial : Dial := λ _ _, [Answered 200 None; Data [1%Z]; End].
(** A network whose private addresses answer too. *)
Definition leaky_dial : Dial := λ _ a, if isPrivateAddress a.1 then [Answered 200 None; End] else [Answered 200 None; Data [1%Z]; End].

Lemma client_is_vouched_for_witness :
  resolveOAuthClient "https://app" demo_json demo_url demo_lookup demo_dial "https://example.com/client.json" cred0
  = resolveOAuthClient "https://app" demo_json demo_url demo_lookup leaky_dial "https://example.com/client.json" cred0.
Proof.
  refine (proj1 (client_is_vouched_for "https://app" demo_json demo_url demo_lookup demo_dial
    "https://example.com/client.json" cred0) leaky_dial _).
  intros url a Ha. unfold leaky_dial. rewrite Ha. reflexivity.
Defined.
Lemma fetch_bounded_witness :
  ∃ before after status declared, [Answered 200 None; Data [1%Z]; End] = before ++ End :: after
    ∧ Answered status declared ∈ before ∧ (200 <= status < 300)%Z
    ∧ demo_json (concat (fetch_run demo_json before).(fs_chunks)) = Some demo_doc.
Proof. exact (proj2 (fetch_bounded demo_json [Answered 200 None; Data [1%Z]; End]) demo_doc ltac:(reflexivity)). Defined.

(** ** Two races *)

(** A member approves a client; between the membership check of the approval and the
    insertion of the code the owner removes the member.  The code survives the removal,
    and after a new invitation it is exchanged. *)
Definition race_input : CreateAuthorizationCodeInput := demo_approval.
Definition race0 : db := (approve_check "u2" "co" cred0).2.
Definition race1 : db := (removeMember "co" "u2" race0).2.
Definition race_code : string := match (createAuthorizationCode race_input race1).1 with Ok c => c | Throw _ => "" end.
Definition race2 : db := (createAuthorizationCode race_input race1).2.
Definition race_invitation : string :=
  match (inviteMember "co" (mkInvite (js "b@x") None None) "u1" (λ _ _, true) race2).1 with
  | Ok i => i.(iv_token) | Throw _ => "" end.
Definition race3 : db := (inviteMember "co" (mkInvite (js "b@x") None None) "u1" (λ _ _, true) race2).2.
Definition race4 : db := (acceptInvitation race_invitation "u2" race3).2.
Definition race_exchange : ExchangeCodeInput :=
  mkExchange race_code "https://client" "https://back" "verifier" None (js "Client").

(** An approval that was checked before a removal outlives it. *)
Lemma approval_outlives_removal :
  (approve_check "u2" "co" cred0).1 = Ok tt
  ∧ (removeMember "co" "u2" race0).1 = Ok tt
  ∧ is_null (first (is_membership "co" "u2") (memberships (tb race2))) = true
  ∧ match (exchangeAuthorizationCode race_exchange race4).1 with Ok _ => True | Throw _ => False end.
Proof. by vm_compute. Qed.

(** A login whose password was checked before a reset opens a session after it. *)
Definition late0 : db := (check_credentials (js "b@x") "p" reset1).2.
Definition late1 : db := (resetPassword the_link "new" late0).2.
Lemma login_outlives_reset :
  match (check_credentials (js "b@x") "p" reset1).1 with Ok u => u.(us_id) = "u2" | Throw _ => False end
  ∧ (resetPassword the_link "new" late0).1 = Ok tt
  ∧ session_rows (tb late1) = []
  ∧ match (check_credentials (js "b@x") "p" late1).1 with Ok _ => False | Throw e => e = invalidCredentials end
  ∧ match (open_session "u2" (mkDevice None None None None) late1).1 with
    | Ok (Some (u, _, _)) => u.(us_id) = "u2" | _ => False end.
Proof. by vm_compute. Qed.
