(* ===== verification/Calendar.v ===== *)
(** Business hours of an SLA policy.

    Models sla-policy/calendar.ts: the shape check of a persisted calendar, the
    "HH:mm" functions, the open intervals of a date, whether an instant is inside
    business hours, and the day-by-day walk that adds up business time.

    Instants are milliseconds of the epoch; business time is in milliseconds too,
    the code divides each overlap by 60000 and adds up the quotients.  The time
    zone arithmetic is dayjs's: the typeclass [TimeZone] names the conversions the
    code makes, [ZoneLaws] what the theorems need of them. *)

From S2P Require Import Prelude Js TenantDb.

Record SlaCalendar := mkCalendar {
  timezone : string;
  weeklySchedule : list SlaWeeklyScheduleDay;
  exceptions : list SlaScheduleException }.

Definition MAX_DAYS_WALKED : nat := 3660.

(** ** Shape *)

Inductive MalformedSlaCalendarError :=
| bad_weekdays
| open_day_without_intervals (weekday : Z)
| open_exception_without_intervals (date : jsstring).

(** [!intervals || intervals.length === 0] *)
Definition no_intervals (intervals : option (list SlaTimeInterval)) : bool :=
  match intervals with Some (_ :: _) => false | _ => true end.

Definition assertValidCalendarShape (calendar : SlaCalendar) : option MalformedSlaCalendarError :=
  let weekdays := wd_weekday <$> calendar.(weeklySchedule) in
  if negb (length calendar.(weeklySchedule) =? 7)%nat
     || negb (length (remove_dups weekdays) =? 7)%nat
     || existsb (λ w, (w <? 0)%Z || (6 <? w)%Z) weekdays
  then Some bad_weekdays
  else match first (λ day, day.(wd_open) && no_intervals day.(wd_intervals))
               calendar.(weeklySchedule) with
  | Some day => Some (open_day_without_intervals day.(wd_weekday))
  | None =>
      match first (λ exception, negb exception.(ex_closed) && no_intervals exception.(ex_intervals))
              calendar.(exceptions) with
      | Some exception => Some (open_exception_without_intervals exception.(ex_date))
      | None => None
      end
  end.

(** ** "HH:mm" *)

Definition in_range (lo hi c : Z) : bool := (lo <=? c)%Z && (c <=? hi)%Z.

(** [^([01]\d|2[0-3]):[0-5]\d$|^24:00$] *)
Definition isValidHHmm (value : jsstring) : bool :=
  match value with
  | [h1; h2; c; m1; m2] =>
      ((in_range 48 49 h1 && is_digit h2) || ((h1 =? 50)%Z && in_range 48 51 h2))
      && (c =? 58)%Z && in_range 48 53 m1 && is_digit m2
  | _ => false
  end || bool_decide (value = js "24:00").

Definition hhmmToMinutes (value : jsstring) : option Z :=
  match number <$> split_on 58 value with
  | Some h :: Some m :: _ => Some (h * 60 + m)%Z
  | _ => None
  end.

(** Comparisons of numbers that may be NaN. *)
Definition num_lt (a b : option Z) : bool :=
  match a, b with Some a, Some b => (a <? b)%Z | _, _ => false end.
Definition num_ge (a b : option Z) : bool :=
  match a, b with Some a, Some b => (b <=? a)%Z | _, _ => false end.

(** The loop of [intervalsAreValidSortedAndNonOverlapping]. *)
Fixpoint intervalsValidFrom (previousEndMinutes : option Z) (intervals : list SlaTimeInterval)
    : bool :=
  match intervals with
  | [] => true
  | interval :: rest =>
      if negb (isValidHHmm interval.(si_start)) || negb (isValidHHmm interval.(si_end)) then false
      else
        let startMinutes := hhmmToMinutes interval.(si_start) in
        let endMinutes := hhmmToMinutes interval.(si_end) in
        if num_ge startMinutes endMinutes then false
        else if num_lt startMinutes previousEndMinutes then false
        else intervalsValidFrom endMinutes rest
  end.

Definition intervalsAreValidSortedAndNonOverlapping (intervals : list SlaTimeInterval) : bool :=
  intervalsValidFrom (Some (-1)%Z) intervals.

(** ** Days *)

Definition findExceptionForDate (exceptions : list SlaScheduleException) (dateStr : jsstring)
    : option SlaScheduleException :=
  first (λ exception, bool_decide (exception.(ex_date) = dateStr)) exceptions.

Definition findWeeklyDay (schedule : list SlaWeeklyScheduleDay) (weekday : Z)
    : option SlaWeeklyScheduleDay :=
  first (λ day, (day.(wd_weekday) =? weekday)%Z) schedule.

Definition resolveDayIntervals (calendar : SlaCalendar) (dateStr : jsstring) (weekday : Z)
    : list SlaTimeInterval :=
  match findExceptionForDate calendar.(exceptions) dateStr with
  | Some exception =>
      if exception.(ex_closed) then [] else default [] exception.(ex_intervals)
  | None =>
      match findWeeklyDay calendar.(weeklySchedule) weekday with
      | Some weeklyDay => if weeklyDay.(wd_open) then default [] weeklyDay.(wd_intervals) else []
      | None => []
      end
  end.

(** dayjs with its utc and timezone plugins, as the module calls it. *)
Class TimeZone := {
  (** [dayjs.tz(instant, tz).format("YYYY-MM-DD")] and [.day()] *)
  localDate : string → Z → jsstring;
  localWeekday : string → Z → Z;
  (** [dayjs.utc(dateStr).add(1, "day").format("YYYY-MM-DD")] *)
  nextCalendarDateString : jsstring → jsstring;
  (** [dayjs.tz(dateStr, tz).day()] and [.startOf("day")] *)
  weekdayOf : string → jsstring → Z;
  dayStartUtc : string → jsstring → Z;
  (** [dayjs.tz(`${dateStr} ${hhmm}`, tz)] *)
  zonedTime : string → jsstring → jsstring → Z }.

Section calendar.
Context `{TimeZone}.

Definition zonedIntervalBoundToUtc (dateStr hhmm : jsstring) (timeZone : string) : Z :=
  if bool_decide (hhmm = js "24:00")
  then zonedTime timeZone (nextCalendarDateString dateStr) (js "00:00")
  else zonedTime timeZone dateStr hhmm.

Definition isWithinBusinessHours (calendar : SlaCalendar) (instant : Z)
    : sum MalformedSlaCalendarError bool :=
  match assertValidCalendarShape calendar with
  | Some e => inl e
  | None =>
      let dateStr := localDate calendar.(timezone) instant in
      let weekday := localWeekday calendar.(timezone) instant in
      inr (existsb (λ interval,
        let start := zonedIntervalBoundToUtc dateStr interval.(si_start) calendar.(timezone) in
        let end_ := zonedIntervalBoundToUtc dateStr interval.(si_end) calendar.(timezone) in
        (start <=? instant)%Z && (instant <? end_)%Z)
        (resolveDayIntervals calendar dateStr weekday))
  end.

(** The overlap of one interval with [startTime, endTime). *)
Definition intervalOverlap (calendar : SlaCalendar) (startTime endTime : Z) (cursor : jsstring)
    (interval : SlaTimeInterval) : Z :=
  let intervalStart := zonedIntervalBoundToUtc cursor interval.(si_start) calendar.(timezone) in
  let intervalEnd := zonedIntervalBoundToUtc cursor interval.(si_end) calendar.(timezone) in
  let overlapStart := Z.max intervalStart startTime in
  let overlapEnd := Z.min intervalEnd endTime in
  if (overlapStart <? overlapEnd)%Z then (overlapEnd - overlapStart)%Z else 0%Z.

(** The inner loop over the intervals of a day. *)
Definition dayOverlap (calendar : SlaCalendar) (startTime endTime : Z) (cursor : jsstring)
    (intervals : list SlaTimeInterval) (total : Z) : Z :=
  foldl (λ total interval, total + intervalOverlap calendar startTime endTime cursor interval)%Z
    total intervals.

(** The loop over the days; [fuel] is MAX_DAYS_WALKED minus the days walked. *)
Fixpoint walkDays (fuel : nat) (calendar : SlaCalendar) (startTime endTime : Z)
    (earlyExitAt : option Z) (total : Z) (cursor : jsstring) : Z :=
  match fuel with
  | O => total
  | S fuel =>
      let weekday := weekdayOf calendar.(timezone) cursor in
      if (endTime <? dayStartUtc calendar.(timezone) cursor)%Z then total
      else
        let total := dayOverlap calendar startTime endTime cursor
                       (resolveDayIntervals calendar cursor weekday) total in
        if match earlyExitAt with Some bound => (bound <=? total)%Z | None => false end then total
        else
          let nextCursor := nextCalendarDateString cursor in
          if (endTime <? dayStartUtc calendar.(timezone) nextCursor)%Z then total
          else walkDays fuel calendar startTime endTime earlyExitAt total nextCursor
  end.

Definition businessMinutesBetween (calendar : SlaCalendar) (start end_ : Z)
    (earlyExitAt : option Z) : sum MalformedSlaCalendarError Z :=
  match assertValidCalendarShape calendar with
  | Some e => inl e
  | None =>
      if (end_ <=? start)%Z then inr 0%Z
      else inr (walkDays MAX_DAYS_WALKED calendar start end_ earlyExitAt 0
                  (localDate calendar.(timezone) start))
  end.
End calendar.

(** ** Counting the instants of a range *)

Definition instants (p : Z → bool) (a b : Z) : Z :=
  Z.of_nat (length (keep p (seqZ a (b - a)))).

Section instants.
Implicit Types (p q : Z → bool) (a b c : Z).

Lemma instants_empty p a b : (b ≤ a)%Z → instants p a b = 0%Z.
Proof. intros Hle. unfold instants. by rewrite seqZ_nil by lia. Qed.

Lemma instants_split p a b c : (a ≤ b ≤ c)%Z → instants p a c = (instants p a b + instants p b c)%Z.
Proof.
  intros Hle. unfold instants.
  replace (c - a)%Z with ((b - a) + (c - b))%Z by lia.
  rewrite seqZ_app, keep_app, length_app by lia.
  replace (a + (b - a))%Z with b by lia. lia.
Qed.

Lemma instants_ext p q a b :
  (∀ τ, (a ≤ τ < b)%Z → p τ = q τ) → instants p a b = instants q a b.
Proof.
  intros Hpq. unfold instants. rewrite (keep_ext p q); [done|].
  intros τ Hτ%elem_of_seqZ. apply Hpq. lia.
Qed.

Lemma instants_none a b : instants (λ _, false) a b = 0%Z.
Proof. unfold instants. by rewrite (proj2 (keep_nil_iff _ _)). Qed.

Lemma instants_all a b : (a ≤ b)%Z → instants (λ _, true) a b = (b - a)%Z.
Proof.
  intros Hle. unfold instants. rewrite keep_all by (by apply Forall_forall).
  rewrite length_seqZ. lia.
Qed.

Lemma instants_or p q a b :
  (∀ τ, (a ≤ τ < b)%Z → p τ = true → q τ = false) →
  instants (λ τ, p τ || q τ) a b = (instants p a b + instants q a b)%Z.
Proof.
  unfold instants. intros Hd. rewrite <- Nat2Z.inj_add. f_equal.
  assert (Hd' : ∀ τ, τ ∈ seqZ a (b - a) → p τ = true → q τ = false).
  { intros τ Hτ%elem_of_seqZ. apply Hd. lia. }
  clear Hd. induction (seqZ a (b - a)) as [|τ l IH]; [done|]. rewrite !keep_cons.
  assert (IH' := IH (λ y Hy, Hd' y ltac:(by right))). specialize (Hd' τ ltac:(left)).
  destruct (p τ); cbn; [rewrite Hd' by done; cbn; lia|destruct (q τ); cbn; lia].
Qed.

Definition overlap (s e a b : Z) : Z :=
  if (Z.max s a <? Z.min e b)%Z then (Z.min e b - Z.max s a)%Z else 0%Z.

Lemma instants_interval s e a b :
  instants (λ τ, (s <=? τ)%Z && (τ <? e)%Z) a b = overlap s e a b.
Proof.
  unfold overlap. destruct (Z.ltb_spec (Z.max s a) (Z.min e b)) as [Hlt|Hge].
  - rewrite (instants_split _ a (Z.max s a) b) by lia.
    rewrite (instants_split _ (Z.max s a) (Z.min e b) b) by lia.
    rewrite (instants_ext _ (λ _, false) a), (instants_ext _ (λ _, true) (Z.max s a)),
      (instants_ext _ (λ _, false) (Z.min e b)), !instants_none, instants_all by (intros; lia). lia.
  - rewrite (instants_ext _ (λ _, false)) by (intros; lia). apply instants_none.
Qed.
End instants.

(** ** The walk against its specification *)

Section walk.
Context `{TimeZone}.

(** What the theorems need of the time zone [tz]: an instant is in the day that
    its date names, days follow each other, and the weekday is the date's. *)
Record ZoneLaws (tz : string) : Prop := {
  zl_in : ∀ τ, (dayStartUtc tz (localDate tz τ) ≤ τ
                < dayStartUtc tz (nextCalendarDateString (localDate tz τ)))%Z;
  zl_same : ∀ τ τ', (dayStartUtc tz (localDate tz τ) ≤ τ'
                     < dayStartUtc tz (nextCalendarDateString (localDate tz τ)))%Z →
            localDate tz τ' = localDate tz τ;
  zl_next : ∀ τ, localDate tz (dayStartUtc tz (nextCalendarDateString (localDate tz τ)))
                 = nextCalendarDateString (localDate tz τ);
  zl_weekday : ∀ τ, localWeekday tz τ = weekdayOf tz (localDate tz τ) }.

Context (calendar : SlaCalendar).
Local Abbreviation tz := calendar.(timezone).

Definition bounds (d : jsstring) (interval : SlaTimeInterval) : Z * Z :=
  (zonedIntervalBoundToUtc d interval.(si_start) tz, zonedIntervalBoundToUtc d interval.(si_end) tz).

(** The open intervals of date [d] lie inside the day, one after the other. *)
Definition day_ordered (d : jsstring) : Prop :=
  let l := bounds d <$> resolveDayIntervals calendar d (weekdayOf tz d) in
  Forall (λ b, dayStartUtc tz d ≤ b.1 ∧ b.2 ≤ dayStartUtc tz (nextCalendarDateString d))%Z l
  ∧ ForallOrdPairs (λ b b', b.2 ≤ b'.1)%Z l.

(** Whether the instant is inside an interval of its date. *)
Definition open_at (τ : Z) : bool :=
  existsb (λ interval, let b := bounds (localDate tz τ) interval in (b.1 <=? τ)%Z && (τ <? b.2)%Z)
    (resolveDayIntervals calendar (localDate tz τ) (localWeekday tz τ)).

Lemma isWithinBusinessHours_open_at τ :
  assertValidCalendarShape calendar = None → isWithinBusinessHours calendar τ = inr (open_at τ).
Proof. intros Hs. unfold isWithinBusinessHours. by rewrite Hs. Qed.

Lemma dayOverlap_add start end_ d l total :
  dayOverlap calendar start end_ d l total = (total + dayOverlap calendar start end_ d l 0)%Z.
Proof.
  unfold dayOverlap. revert total. induction l as [|i l IH]; intros total; cbn; [lia|].
  rewrite IH, (IH (0 + _)%Z). lia.
Qed.

Lemma dayOverlap_cons start end_ d i l :
  dayOverlap calendar start end_ d (i :: l) 0
  = (intervalOverlap calendar start end_ d i + dayOverlap calendar start end_ d l 0)%Z.
Proof.
  change (dayOverlap calendar start end_ d (i :: l) 0)
    with (dayOverlap calendar start end_ d l (0 + intervalOverlap calendar start end_ d i)%Z).
  by rewrite dayOverlap_add.
Qed.

Lemma dayOverlap_nonneg start end_ d l : (0 ≤ dayOverlap calendar start end_ d l 0)%Z.
Proof.
  induction l as [|i l IH]; [done|]. rewrite dayOverlap_cons.
  unfold intervalOverlap. case_match; to_prop; lia.
Qed.

(** The day's sum counts the open instants of the day inside [start, end). *)
Lemma dayOverlap_instants start end_ d l a b :
  Forall (λ i, (Z.max (bounds d i).1 start = Z.max (bounds d i).1 a)
            ∧ (Z.min (bounds d i).2 end_ = Z.min (bounds d i).2 b)
            ∨ (overlap (bounds d i).1 (bounds d i).2 start end_ = overlap (bounds d i).1 (bounds d i).2 a b))%Z l →
  ForallOrdPairs (λ i j, (bounds d i).2 ≤ (bounds d j).1)%Z l →
  dayOverlap calendar start end_ d l 0
  = instants (λ τ, existsb (λ i, ((bounds d i).1 <=? τ)%Z && (τ <? (bounds d i).2)%Z) l) a b.
Proof.
  induction l as [|i l IH]; intros Hf Ho; [by rewrite instants_none|].
  inversion Hf as [|? ? Hi Hf']; subst. inversion Ho as [|? ? Hij Ho']; subst.
  cbn [existsb]. rewrite dayOverlap_cons, (IH Hf' Ho'), instants_or, instants_interval.
  - f_equal. change (intervalOverlap calendar start end_ d i)
      with (overlap (bounds d i).1 (bounds d i).2 start end_).
    destruct Hi as [[H1 H2]|Hi]; [unfold overlap; by rewrite H1, H2|done].
  - intros τ _ Hτ. to_prop. apply not_true_iff_false. rewrite existsb_exists.
    intros (j & Hj%list_elem_of_In & Hτj). to_prop. rewrite Forall_forall in Hij.
    specialize (Hij j Hj). lia.
Qed.

Lemma ForallOrdPairs_fmap {A B} (f : A → B) (R : B → B → Prop) l :
  ForallOrdPairs R (f <$> l) → ForallOrdPairs (λ a b, R (f a) (f b)) l.
Proof.
  induction l as [|a l IH]; cbn; intros Hl; [constructor|].
  inversion Hl; subst. constructor; [by rewrite Forall_fmap in *|by apply IH].
Qed.

Context (Hlaws : ZoneLaws tz).

Lemma day_sum start end_ d τ :
  d = localDate tz τ → day_ordered d → (dayStartUtc tz d ≤ end_)%Z →
  dayOverlap calendar start end_ d (resolveDayIntervals calendar d (weekdayOf tz d)) 0
  = instants open_at (Z.max start (dayStartUtc tz d))
      (Z.min end_ (dayStartUtc tz (nextCalendarDateString d))).
Proof using Hlaws.
  intros -> [Hin Hord] Hend. set (d := localDate tz τ) in *.
  rewrite Forall_fmap in Hin. apply ForallOrdPairs_fmap in Hord.
  rewrite (dayOverlap_instants start end_ d _
    (Z.max start (dayStartUtc tz d)) (Z.min end_ (dayStartUtc tz (nextCalendarDateString d)))); [| |done].
  - apply instants_ext. intros τ' Hτ'. unfold open_at.
    rewrite (zl_weekday _ Hlaws), (zl_same _ Hlaws τ τ'); [done|]. fold d. lia.
  - eapply Forall_impl; [exact Hin|]. cbn. intros i [H1 H2]. left. lia.
Qed.

Lemma next_good d τ : d = localDate tz τ →
  nextCalendarDateString d = localDate tz (dayStartUtc tz (nextCalendarDateString d))
  ∧ (dayStartUtc tz d < dayStartUtc tz (nextCalendarDateString d))%Z.
Proof using Hlaws.
  intros ->. split; [by rewrite (zl_next _ Hlaws)|]. assert (Hz := zl_in _ Hlaws τ). lia.
Qed.

Lemma walkDays_instants fuel start end_ total d τ :
  d = localDate tz τ → (start ≤ end_)%Z →
  (∀ n, day_ordered (Nat.iter n nextCalendarDateString d)) →
  (end_ < dayStartUtc tz (Nat.iter fuel nextCalendarDateString d))%Z →
  walkDays fuel calendar start end_ None total d
  = (total + instants open_at (Z.max start (dayStartUtc tz d)) end_)%Z.
Proof using Hlaws.
  revert total d τ. induction fuel as [|fuel IH]; intros total d τ Hd Hse Hord Hend.
  - cbn in *. rewrite instants_empty by lia. lia.
  - cbn [walkDays]. destruct (Z.ltb_spec end_ (dayStartUtc tz d)) as [Hlt|Hge].
    { rewrite instants_empty by lia. lia. }
    rewrite dayOverlap_add, (day_sum start end_ d τ) by (done || apply (Hord 0%nat)).
    destruct (next_good d τ Hd) as [Hnext Hmono].
    set (next := nextCalendarDateString d) in *.
    destruct (Z.ltb_spec end_ (dayStartUtc tz next)) as [Hlt|Hge'].
    + replace (Z.min end_ (dayStartUtc tz next)) with end_ by lia. lia.
    + rewrite (IH _ next (dayStartUtc tz next)); [|done|done| |].
      * destruct (Z.le_gt_cases start (dayStartUtc tz next)).
        -- rewrite (instants_split _ (Z.max start (dayStartUtc tz d)) (dayStartUtc tz next) end_) by lia.
           replace (Z.max start (dayStartUtc tz next)) with (dayStartUtc tz next) by lia.
           replace (Z.min end_ (dayStartUtc tz next)) with (dayStartUtc tz next) by lia. lia.
        -- rewrite (instants_empty _ _ (Z.min _ _)) by lia.
           replace (Z.max start (dayStartUtc tz next)) with start by lia.
           replace (Z.max start (dayStartUtc tz d)) with start by lia. lia.
      * intros n. specialize (Hord (S n)). by rewrite Nat.iter_succ_r in Hord.
      * by rewrite Nat.iter_succ_r in Hend.
Qed.
End walk.

(** The early exit returns the full walk's total, or one between it and the bound. *)
Lemma walkDays_mono `{TimeZone} fuel calendar start end_ d total :
  (total ≤ walkDays fuel calendar start end_ None total d)%Z.
Proof.
  revert d total. induction fuel as [|fuel IH]; intros d total; [done|]. cbn [walkDays].
  case_match; [lia|]. rewrite dayOverlap_add.
  assert (Hn := dayOverlap_nonneg calendar start end_ d
    (resolveDayIntervals calendar d (weekdayOf calendar.(timezone) d))).
  case_match; [lia|]. etrans; [|apply IH]. lia.
Qed.

Lemma walkDays_early_exit `{TimeZone} fuel calendar start end_ bound d total :
  let full := walkDays fuel calendar start end_ None total d in
  let early := walkDays fuel calendar start end_ (Some bound) total d in
  early = full ∨ (bound ≤ early ≤ full)%Z.
Proof.
  revert d total. induction fuel as [|fuel IH]; intros d total; [by left|]. cbn [walkDays].
  destruct (end_ <? _)%Z; [by left|].
  set (total' := dayOverlap _ _ _ _ _ _). destruct (Z.leb_spec bound total') as [Hb|Hb].
  - right. destruct (end_ <? _)%Z; [lia|].
    assert (Hm := walkDays_mono fuel calendar start end_ (nextCalendarDateString d) total'). lia.
  - destruct (end_ <? _)%Z; [by left|]. apply IH.
Qed.

Section theorems.
Context `{TimeZone}.

(** The walk covers the range: its last day starts after [end_]. *)
Definition within_walk (calendar : SlaCalendar) (start end_ : Z) : Prop :=
  (end_ < dayStartUtc calendar.(timezone)
            (Nat.iter MAX_DAYS_WALKED nextCalendarDateString (localDate calendar.(timezone) start)))%Z.

Definition days_ordered (calendar : SlaCalendar) (start : Z) : Prop :=
  ∀ n, day_ordered calendar (Nat.iter n nextCalendarDateString (localDate calendar.(timezone) start)).

Lemma businessMinutes_instants calendar start end_ :
  ZoneLaws calendar.(timezone) → assertValidCalendarShape calendar = None →
  days_ordered calendar start → within_walk calendar start end_ →
  businessMinutesBetween calendar start end_ None = inr (instants (open_at calendar) start end_).
Proof.
  intros Hz Hs Ho Hw. unfold businessMinutesBetween. rewrite Hs.
  destruct (Z.leb_spec end_ start); [by rewrite instants_empty|]. f_equal.
  rewrite (walkDays_instants calendar Hz MAX_DAYS_WALKED start end_ 0 _ start); [|done|lia|done|done].
  assert (Hin := zl_in _ Hz start). replace (Z.max start _) with start by lia. lia.
Qed.

(** C39: the business time between two instants, computed day by day from interval
    overlaps, is the number of instants of the range at which the calendar is
    open, as [isWithinBusinessHours] decides it. *)
Theorem businessMinutes_counts_open_instants calendar start end_ :
  ZoneLaws calendar.(timezone) → assertValidCalendarShape calendar = None →
  days_ordered calendar start → within_walk calendar start end_ →
  businessMinutesBetween calendar start end_ None
  = inr (instants (λ τ, match isWithinBusinessHours calendar τ with inr b => b | inl _ => false end)
           start end_).
Proof.
  intros Hz Hs Ho Hw. rewrite businessMinutes_instants by done. f_equal.
  apply instants_ext. intros τ _. by rewrite isWithinBusinessHours_open_at.
Qed.

(** Stopping early never changes an overdue decision: the early result is
    exact, or already at the bound and not above the exact one; so it reaches the
    bound exactly when the full walk does.  No property of the time zone is
    used. *)
Theorem early_exit_decides calendar start end_ bound full early :
  businessMinutesBetween calendar start end_ None = inr full →
  businessMinutesBetween calendar start end_ (Some bound) = inr early →
  (early ≤ full)%Z ∧ ((bound ≤ early)%Z ↔ (bound ≤ full)%Z) ∧ ((early < bound)%Z → early = full).
Proof.
  unfold businessMinutesBetween. destruct (assertValidCalendarShape calendar); [done|].
  destruct (end_ <=? start)%Z.
  { intros Hf He. assert (full = 0%Z ∧ early = 0%Z) as [-> ->] by (split; congruence). lia. }
  assert (Hw := walkDays_early_exit MAX_DAYS_WALKED calendar start end_ bound
    (localDate calendar.(timezone) start) 0). cbv zeta in Hw. revert Hw.
  generalize (walkDays MAX_DAYS_WALKED calendar start end_ None 0 (localDate calendar.(timezone) start)),
    (walkDays MAX_DAYS_WALKED calendar start end_ (Some bound) 0 (localDate calendar.(timezone) start)).
  intros f e He [= <-] [= <-]. lia.
Qed.

(** Business time adds up over consecutive ranges. *)
Theorem business_time_additive calendar a b c :
  ZoneLaws calendar.(timezone) → assertValidCalendarShape calendar = None →
  (a ≤ b ≤ c)%Z → days_ordered calendar a → days_ordered calendar b →
  within_walk calendar a c → within_walk calendar b c → within_walk calendar a b →
  ∃ x y, businessMinutesBetween calendar a b None = inr x
       ∧ businessMinutesBetween calendar b c None = inr y
       ∧ businessMinutesBetween calendar a c None = inr (x + y)%Z.
Proof.
  intros Hz Hs Habc Ha Hb Hac Hbc Hab. do 2 eexists.
  rewrite !businessMinutes_instants by done. split_and!; [done|done|].
  f_equal. by apply instants_split.
Qed.
End theorems.

(** ** "HH:mm" and interval lists *)

Definition pad2 (n : Z) : jsstring := [48 + n / 10; 48 + n mod 10]%Z.
Definition hhmm (h m : Z) : jsstring := pad2 h ++ (58%Z :: pad2 m).

Lemma hhmmToMinutes_digits h1 h2 m1 m2 :
  is_digit h1 = true → is_digit h2 = true → is_digit m1 = true → is_digit m2 = true →
  hhmmToMinutes [h1; h2; 58; m1; m2]%Z
  = Some (((h1 - 48) * 10 + (h2 - 48)) * 60 + ((m1 - 48) * 10 + (m2 - 48)))%Z.
Proof.
  intros Hh1 Hh2 Hm1 Hm2. unfold hhmmToMinutes.
  assert (Hne : ∀ c, is_digit c = true → (c =? 58)%Z = false) by (unfold is_digit; intros; to_prop; lia).
  cbn [split_on]. rewrite (Hne h1), (Hne h2), (Hne m1), (Hne m2), Z.eqb_refl by done. cbn [fmap list_fmap number forallb].
  rewrite Hh1, Hh2. cbn [andb foldl forallb number]. rewrite Hm1, Hm2. done.
Qed.

Lemma hhmm_valid s :
  isValidHHmm s = true ↔
  ∃ h m, s = hhmm h m ∧ hhmmToMinutes s = Some (h * 60 + m)%Z
         ∧ ((0 ≤ h ≤ 23 ∧ 0 ≤ m ≤ 59) ∨ (h = 24 ∧ m = 0))%Z.
Proof.
  split.
  - unfold isValidHHmm. intros [Hv|Hv]%orb_true_iff; [|to_prop; subst s; exists 24%Z, 0%Z; by auto].
    destruct s as [|h1 [|h2 [|c [|m1 [|m2 [|]]]]]]; try discriminate Hv.
    apply andb_true_iff in Hv as [[[Hh Hc]%andb_true_iff Hm1]%andb_true_iff Hm2].
    apply Z.eqb_eq in Hc as ->.
    assert (Hd : is_digit h1 = true ∧ is_digit h2 = true ∧ is_digit m1 = true
                 ∧ (((h1 - 48) * 10 + (h2 - 48)) ≤ 23)%Z
                 ∧ (48 ≤ h1 ≤ 57 ∧ 48 ≤ h2 ≤ 57 ∧ 48 ≤ m1 ≤ 53 ∧ 48 ≤ m2 ≤ 57)%Z).
    { unfold in_range, is_digit in *. apply orb_true_iff in Hh as [?|?]; to_prop;
        rewrite !andb_true_iff, !Z.leb_le; lia. }
    destruct Hd as (Hh1 & Hh2 & Hm1' & Hle & Hr).
    exists ((h1 - 48) * 10 + (h2 - 48))%Z, ((m1 - 48) * 10 + (m2 - 48))%Z.
    rewrite hhmmToMinutes_digits by done. split_and!; [|done|left; lia].
    unfold hhmm, pad2. cbn [app]. rewrite !Z.div_add_l, !Z.div_small, !Z.add_0_r by lia.
    rewrite !(Z.add_comm ((_ - 48) * 10)), !Z_mod_plus_full, !Z.mod_small by lia.
    repeat f_equal; lia.
  - intros (h & m & -> & _ & [[Hh Hm]|[-> ->]]); [|done]. unfold isValidHHmm, hhmm, pad2. cbn [app].
    apply orb_true_iff. left. unfold in_range, is_digit.
    assert (0 ≤ h / 10 < 3)%Z by (split; [apply Z.div_pos; lia|apply Z.div_lt_upper_bound; lia]).
    assert (0 ≤ m / 10 < 6)%Z by (split; [apply Z.div_pos; lia|apply Z.div_lt_upper_bound; lia]).
    assert (Hm1 := Z.mod_pos_bound h 10). assert (Hm2 := Z.mod_pos_bound m 10).
    assert (Hh' := Z.div_mod h 10).
    rewrite !andb_true_iff, orb_true_iff, !andb_true_iff, !Z.leb_le, !Z.eqb_eq. lia.
Qed.

(** The accepted "HH:mm" strings are exactly the two-digit spellings of the
    minutes of a day, and "24:00", and each is read back as its minute. *)
Theorem hhmm_spec s :
  isValidHHmm s = true ↔
  ∃ h m, s = hhmm h m ∧ hhmmToMinutes s = Some (h * 60 + m)%Z
         ∧ ((0 ≤ h ≤ 23 ∧ 0 ≤ m ≤ 59) ∨ (h = 24 ∧ m = 0))%Z.
Proof. apply hhmm_valid. Qed.

Definition minutes (s : jsstring) : Z := default 0%Z (hhmmToMinutes s).

Lemma valid_minutes s :
  isValidHHmm s = true → hhmmToMinutes s = Some (minutes s) ∧ (0 ≤ minutes s ≤ 1440)%Z.
Proof.
  intros (h & m & _ & Hm & Hr)%hhmm_valid. unfold minutes. rewrite Hm. cbn. split; [done|lia].
Qed.

Definition interval_ok (i : SlaTimeInterval) : Prop :=
  isValidHHmm i.(si_start) = true ∧ isValidHHmm i.(si_end) = true
  ∧ (minutes i.(si_start) < minutes i.(si_end))%Z.

Lemma intervalsValidFrom_iff p l :
  intervalsValidFrom (Some p) l = true ↔
  Forall interval_ok l ∧ Forall (λ i, (p ≤ minutes i.(si_start))%Z) l
  ∧ ForallOrdPairs (λ i j, (minutes i.(si_end) ≤ minutes j.(si_start))%Z) l.
Proof.
  revert p. induction l as [|i l IH]; intros p; [split; [repeat constructor|done]|].
  cbn [intervalsValidFrom].
  destruct (isValidHHmm i.(si_start)) eqn:Hs, (isValidHHmm i.(si_end)) eqn:He; cbn;
    try (split; [done|]; intros (Hok & _); inversion Hok as [|? ? (?&?&?)]; congruence).
  destruct (valid_minutes _ Hs) as [Hms Hbs], (valid_minutes _ He) as [Hme Hbe]. rewrite Hms, Hme.
  cbn [num_ge num_lt]. destruct (Z.leb_spec (minutes i.(si_end)) (minutes i.(si_start))).
  { split; [done|]. intros (Hok & _). inversion Hok as [|? ? (_&_&?)]; lia. }
  destruct (Z.ltb_spec (minutes i.(si_start)) p).
  { split; [done|]. intros (_ & Hp & _). inversion Hp; subst; lia. }
  rewrite IH. split.
  - intros (Hok & Hp & Ho). split_and!; constructor; try done.
    eapply Forall_impl; [exact Hp|]. cbn. lia.
  - intros (Hok & Hp & Ho). inversion Hok; inversion Ho; subst. done.
Qed.

(** An interval list is accepted exactly when every interval is valid with its
    start before its end, and each ends no later than every later one starts. *)
Theorem intervals_valid_iff l :
  intervalsAreValidSortedAndNonOverlapping l = true ↔
  Forall interval_ok l
  ∧ ForallOrdPairs (λ i j, (minutes i.(si_end) ≤ minutes j.(si_start))%Z) l.
Proof.
  unfold intervalsAreValidSortedAndNonOverlapping. rewrite intervalsValidFrom_iff.
  split; [by intros (?&_&?)|]. intros [Hok Ho]. split_and!; [done| |done].
  eapply Forall_impl; [exact Hok|]. intros i (Hs & _). apply valid_minutes in Hs as [_ ?]. lia.
Qed.

(** ** A fixed-offset zone

    UTC, with a date written as its day number: an instance of [TimeZone] in which
    the hypotheses of the theorems hold. *)

Definition day_ms : Z := 86400000.

#[local] Instance utc_days : TimeZone := {|
  localDate _ τ := [τ / day_ms]%Z;
  localWeekday _ τ := ((τ / day_ms + 4) mod 7)%Z;
  nextCalendarDateString d := match d with [n] => [n + 1]%Z | _ => d end;
  weekdayOf _ d := match d with [n] => ((n + 4) mod 7)%Z | _ => 0%Z end;
  dayStartUtc _ d := match d with [n] => (n * day_ms)%Z | _ => 0%Z end;
  zonedTime _ d s := match d with [n] => (n * day_ms + minutes s * 60000)%Z | _ => 0%Z end |}.

Lemma utc_laws tz : ZoneLaws tz.
Proof.
  assert (Hd : ∀ τ, (day_ms * (τ / day_ms) ≤ τ < day_ms * (τ / day_ms) + day_ms)%Z).
  { intros τ. assert (H1 := Z.div_mod τ day_ms). assert (H2 := Z.mod_pos_bound τ day_ms).
    unfold day_ms in *. lia. }
  split; cbn.
  - intros τ. specialize (Hd τ). lia.
  - intros τ τ' Hτ. f_equal. specialize (Hd τ). symmetry.
    apply (Z.div_unique τ' day_ms (τ / day_ms) (τ' - day_ms * (τ / day_ms))); [left|]; lia.
  - intros τ. f_equal. by rewrite Z.div_mul.
  - done.
Qed.

Definition office_day (weekday : Z) : SlaWeeklyScheduleDay :=
  mkDay weekday true (Some [mkInterval (js "09:00") (js "12:00"); mkInterval (js "13:00") (js "24:00")]).
Definition office : SlaCalendar := mkCalendar "UTC" (office_day <$> [0; 1; 2; 3; 4; 5; 6]%Z) [].

Lemma office_iter n d : Nat.iter n nextCalendarDateString [d] = [d + Z.of_nat n]%Z.
Proof.
  induction n as [|n IH]; [cbn; by rewrite Z.add_0_r|]. cbn [Nat.iter]. unfold Nat.iter in IH.
  cbn in *. rewrite IH. f_equal. lia.
Qed.

Lemma office_ordered start : days_ordered office start.
Proof.
  intros n. cbn. rewrite (office_iter n). set (d := (_ + _)%Z).
  assert (Hw : ∀ w, (0 ≤ w < 7)%Z → resolveDayIntervals office [d] w =
            [mkInterval (js "09:00") (js "12:00"); mkInterval (js "13:00") (js "24:00")]).
  { intros w Hw. assert (Hcase : (w = 0 ∨ w = 1 ∨ w = 2 ∨ w = 3 ∨ w = 4 ∨ w = 5 ∨ w = 6)%Z) by lia.
    by destruct Hcase as [->|[->|[->|[->|[->|[->| ->]]]]]]. }
  unfold day_ordered. rewrite Hw by (apply Z.mod_pos_bound; lia).
  change (minutes (js "09:00")) with 540%Z.
  unfold bounds, zonedIntervalBoundToUtc. cbn -[minutes js day_ms].
  replace (minutes (js "09:00")) with 540%Z by done. replace (minutes (js "12:00")) with 720%Z by done.
  replace (minutes (js "13:00")) with 780%Z by done. replace (minutes (js "00:00")) with 0%Z by done.
  rewrite !bool_decide_eq_false_2 by (by intros ?). rewrite bool_decide_eq_true_2 by done.
  unfold day_ms. split; repeat constructor; cbn; lia.
Qed.

Lemma office_within start end_ : (end_ < start + 300000000000)%Z → within_walk office start end_.
Proof.
  intros Hlt. unfold within_walk. cbn [localDate utc_days timezone office].
  rewrite (office_iter MAX_DAYS_WALKED). cbn [dayStartUtc utc_days].
  assert (Hm := Z.div_mod start day_ms). assert (Hb := Z.mod_pos_bound start day_ms).
  change (Z.of_nat MAX_DAYS_WALKED) with 3660%Z. unfold day_ms in *. lia.
Qed.

Lemma businessMinutes_counts_open_instants_witness :
  businessMinutesBetween office 0 36000000 None
  = inr (instants (λ τ, match isWithinBusinessHours office τ with inr b => b | inl _ => false end)
           0 36000000).
Proof.
  apply (businessMinutes_counts_open_instants office 0 36000000);
    [apply utc_laws|reflexivity|apply office_ordered|apply office_within; lia].
Defined.

Lemma office_full : businessMinutesBetween office 0 36000000 None = inr 3600000%Z.
Proof. vm_compute. reflexivity. Qed.
Lemma office_early : businessMinutesBetween office 0 36000000 (Some 1800000%Z) = inr 3600000%Z.
Proof. vm_compute. reflexivity. Qed.

Lemma early_exit_decides_witness :
  (3600000 ≤ 3600000)%Z ∧ ((1800000 ≤ 3600000)%Z ↔ (1800000 ≤ 3600000)%Z)
  ∧ ((3600000 < 1800000)%Z → (3600000 = 3600000)%Z).
Proof.
  exact (early_exit_decides office 0 36000000 1800000 3600000 3600000 office_full office_early).
Defined.

Lemma business_time_additive_witness :
  ∃ x y, businessMinutesBetween office 0 36000000 None = inr x
       ∧ businessMinutesBetween office 36000000 90000000 None = inr y
       ∧ businessMinutesBetween office 0 90000000 None = inr (x + y)%Z.
Proof.
  apply (business_time_additive office 0 36000000 90000000);
    [apply utc_laws|reflexivity|lia|apply office_ordered|apply office_ordered|
     apply office_within; lia|apply office_within; lia|apply office_within; lia].
Defined.
