(* ===== verification/RateLimit.v ===== *)
(** Request rate limiting.

    Models config/rate-limit.config.ts (Module [Config]) and the in-memory and
    PostgreSQL stores of lib/rate-limit-store.ts (Modules [Memory] and
    [Postgres]).  Both stores keep fixed windows; [Window] is the window of one
    key, which the theorems compare the stores to.  The Redis store is not
    modelled: its commands are another process's. *)

From S2P Require Import Prelude Js.

(** ** Configuration *)

Definition MAX_RATE_LIMIT_REQUESTS : Z := MAX_SAFE_INTEGER - 1.
Definition MAX_RATE_LIMIT_WINDOW_SECONDS : Z := MAX_SAFE_INTEGER / 1000.
Definition MAX_RATE_LIMIT_MEMORY_ITEMS : Z := 1000000.
Definition MAX_RATE_LIMIT_CLEANUP_INTERVAL_SECONDS : Z := 86400.
Definition MAX_RATE_LIMIT_CLEANUP_BATCH_SIZE : Z := 10000.

Module Config.

Record RateLimitTier := mkTier { requests : Z; windowSeconds : Z }.

Inductive store_type := memory | postgres | redis.
#[export] Instance store_type_eq : EqDecision store_type.
Proof. solve_decision. Defined.

Record RateLimitConfig := mkConfig {
  enabled : bool;
  type_ : store_type; redisUrl : option jsstring; memoryMaxItems : Z;
  postgresCleanupIntervalSeconds : Z; postgresCleanupBatchSize : Z;
  global : RateLimitTier;
  auth : list (string * RateLimitTier);
  resource : list (string * RateLimitTier);
  messaging : list (string * RateLimitTier) }.

Section config.
(** process.env *)
Context (env : string → option jsstring).

Definition parsePositiveInt (value : option jsstring) (defaultValue maxValue : Z) : Z :=
  match value with
  | None | Some [] => defaultValue
  | Some value =>
      match number value with
      | Some parsed =>
          if negb (isSafeInteger parsed) || (parsed <=? 0)%Z || (maxValue <? parsed)%Z
          then defaultValue else parsed
      | None => defaultValue
      end
  end.

Definition isDevelopment : bool := bool_decide (env "NODE_ENV" = Some (js "development")).

Definition getDefaultRequests (envValue : option jsstring) (prodDefault devMultiplier : Z) : Z :=
  match envValue with
  | Some (_ :: _) => parsePositiveInt envValue prodDefault MAX_RATE_LIMIT_REQUESTS
  | _ => if isDevelopment then (prodDefault * devMultiplier)%Z else prodDefault
  end.

(** A tier read from RATE_LIMIT_<name>_REQUESTS and ..._WINDOW_SECONDS. *)
Definition tier (name : string) (prodDefault devMultiplier windowDefault : Z) : RateLimitTier :=
  mkTier
    (getDefaultRequests (env (String.append "RATE_LIMIT_" (String.append name "_REQUESTS")))
       prodDefault devMultiplier)
    (parsePositiveInt (env (String.append "RATE_LIMIT_" (String.append name "_WINDOW_SECONDS")))
       windowDefault MAX_RATE_LIMIT_WINDOW_SECONDS).

Definition getRateLimitConfig : RateLimitConfig :=
  let dev_or (prod : Z) := if isDevelopment then 60%Z else prod in
  mkConfig
    (negb (bool_decide (env "RATE_LIMIT_ENABLED" = Some (js "false"))))
    (if bool_decide (env "RATE_LIMIT_STORE_TYPE" = Some (js "redis")) then redis
     else if bool_decide (env "RATE_LIMIT_STORE_TYPE" = Some (js "postgres")) then postgres
     else memory)
    (env "RATE_LIMIT_REDIS_URL")
    (parsePositiveInt (env "RATE_LIMIT_MEMORY_MAX_ITEMS") 10000 MAX_RATE_LIMIT_MEMORY_ITEMS)
    (parsePositiveInt (env "RATE_LIMIT_POSTGRES_CLEANUP_INTERVAL_SECONDS") 60
       MAX_RATE_LIMIT_CLEANUP_INTERVAL_SECONDS)
    (parsePositiveInt (env "RATE_LIMIT_POSTGRES_CLEANUP_BATCH_SIZE") 1000
       MAX_RATE_LIMIT_CLEANUP_BATCH_SIZE)
    (tier "GLOBAL" 3000 10 60)
    [("login", tier "AUTH_LOGIN" 5 20 (dev_or 900%Z));
     ("register", tier "AUTH_REGISTER" 3 20 (dev_or 3600%Z));
     ("resendVerification", tier "AUTH_RESEND_VERIFICATION" 3 20 (dev_or 3600%Z));
     ("forgotPassword", tier "AUTH_FORGOT_PASSWORD" 3 20 (dev_or 3600%Z));
     ("refresh", tier "AUTH_REFRESH" 20 10 60)]
    [("search", tier "RESOURCE_SEARCH" 30 10 60);
     ("export", tier "RESOURCE_EXPORT" 10 10 (dev_or 3600%Z));
     ("import", tier "RESOURCE_IMPORT" 5 10 60);
     ("analytics", tier "RESOURCE_ANALYTICS" 60 10 60);
     ("mcp", tier "RESOURCE_MCP" 60 10 60);
     ("oauth", tier "RESOURCE_OAUTH" 20 10 60)]
    [("send", tier "MESSAGING_SEND" 60 10 60);
     ("whatsapp", tier "MESSAGING_WHATSAPP" 30 10 60);
     ("bulk", tier "MESSAGING_BULK" 10 10 60)].
End config.

Definition validateTier (tier : RateLimitTier) : bool :=
  isSafeInteger tier.(requests) && (0 <? tier.(requests))%Z
  && (tier.(requests) <=? MAX_RATE_LIMIT_REQUESTS)%Z
  && isSafeInteger tier.(windowSeconds) && (0 <? tier.(windowSeconds))%Z
  && (tier.(windowSeconds) <=? MAX_RATE_LIMIT_WINDOW_SECONDS)%Z.

Definition isValidRateLimitConfig (config : RateLimitConfig) : bool :=
  let positive (n max : Z) := isSafeInteger n && (0 <? n)%Z && (n <=? max)%Z in
  if bool_decide (config.(type_) = redis) && negb (truthy config.(redisUrl)) then false
  else if negb (positive config.(memoryMaxItems) MAX_RATE_LIMIT_MEMORY_ITEMS)
       || negb (positive config.(postgresCleanupIntervalSeconds) MAX_RATE_LIMIT_CLEANUP_INTERVAL_SECONDS)
       || negb (positive config.(postgresCleanupBatchSize) MAX_RATE_LIMIT_CLEANUP_BATCH_SIZE)
  then false
  else validateTier config.(global)
       && forallb validateTier (snd <$> config.(auth))
       && forallb validateTier (snd <$> config.(resource))
       && forallb validateTier (snd <$> config.(messaging)).
End Config.

(** ** Results and arguments *)

Inductive store_error := RangeError | RateLimitStoreUnavailableError.

Definition assertRateLimitArguments (limit windowSeconds : Z) : option store_error :=
  if negb (isSafeInteger limit) || (limit <=? 0)%Z || (MAX_RATE_LIMIT_REQUESTS <? limit)%Z
  then Some RangeError
  else if negb (isSafeInteger windowSeconds) || (windowSeconds <=? 0)%Z
          || (MAX_RATE_LIMIT_WINDOW_SECONDS <? windowSeconds)%Z
  then Some RangeError else None.

Record RateLimitResult := mkResult {
  allowed : bool; currentCount : Z; limit : Z; resetAt : Z; retryAfter : Z }.

(** [Math.ceil(a / b)] for integers. *)
Definition ceil_div (a b : Z) : Z := (- ((- a) / b))%Z.

(** ** The in-memory store *)

Module Memory.

Record CounterEntry := mkEntry { count : Z; windowStart : Z }.

(** A Map in insertion order. *)
Abbreviation Map := (list (string * CounterEntry)).

Definition get (key : string) (counters : Map) : option CounterEntry :=
  snd <$> first (λ kv, bool_decide (kv.1 = key)) counters.
Definition delete (key : string) (counters : Map) : Map :=
  keep (λ kv, negb (bool_decide (kv.1 = key))) counters.
(** [set]: an existing key keeps its place. *)
Definition set_ (key : string) (entry : CounterEntry) (counters : Map) : Map :=
  if holds_any (λ kv, bool_decide (kv.1 = key)) counters
  then update_where (λ kv, bool_decide (kv.1 = key)) (λ kv, (kv.1, entry)) counters
  else counters ++ [(key, entry)].

Record MemoryRateLimitStore := mkStore { counters : Map; maxItems : nat }.

(** The first key is the least recently used one. *)
Fixpoint evict (fuel : nat) (counters : Map) (maxItems : nat) : Map :=
  match fuel with
  | O => counters
  | S fuel =>
      if (maxItems <? length counters)%nat then
        match counters with
        | [] => counters
        | (lruKey, _) :: _ => evict fuel (delete lruKey counters) maxItems
        end
      else counters
  end.

(** Every pass deletes a key, so the size bounds the loop. *)
Definition evictIfNeeded (counters : Map) (maxItems : nat) : Map :=
  evict (length counters) counters maxItems.

(** The mutation of an existing entry. *)
Definition bump (entry : CounterEntry) (now limit windowMs : Z) : CounterEntry :=
  let windowElapsed := (now - entry.(windowStart))%Z in
  if (windowMs <=? windowElapsed)%Z then mkEntry 1 now
  else mkEntry (Z.min (entry.(count) + 1) (limit + 1)) entry.(windowStart).

Definition result_of (entry : CounterEntry) (now limit windowMs : Z) : RateLimitResult :=
  let resetAtMs := (entry.(windowStart) + windowMs)%Z in
  mkResult (entry.(count) <=? limit)%Z entry.(count) limit (resetAtMs / 1000)
    (Z.max 0 (ceil_div (resetAtMs - now) 1000)).

(** [now] is [Date.now()]. *)
Definition increment (store : MemoryRateLimitStore) (now : Z) (key : string)
    (limit windowSeconds : Z) : sum store_error RateLimitResult * MemoryRateLimitStore :=
  match assertRateLimitArguments limit windowSeconds with
  | Some e => (inl e, store)
  | None =>
      let windowMs := (windowSeconds * 1000)%Z in
      match get key store.(counters) with
      | None =>
          let entry := mkEntry 1 now in
          (inr (result_of entry now limit windowMs),
           mkStore (evictIfNeeded (set_ key entry store.(counters)) store.(maxItems)) store.(maxItems))
      | Some entry =>
          let entry := bump entry now limit windowMs in
          (inr (result_of entry now limit windowMs),
           mkStore (set_ key entry (delete key store.(counters))) store.(maxItems))
      end
  end.

Definition reset (store : MemoryRateLimitStore) (key : string) : MemoryRateLimitStore :=
  mkStore (delete key store.(counters)) store.(maxItems).
Definition clear (store : MemoryRateLimitStore) : MemoryRateLimitStore :=
  mkStore [] store.(maxItems).
Definition size (store : MemoryRateLimitStore) : nat := length store.(counters).
End Memory.

(** ** The PostgreSQL store *)

Module Postgres.

(** A row of api_rate_limit_buckets; times are microseconds of the epoch. *)
Record bucket := mkBucket {
  bucket_key : string; request_count : Z; window_started_at : Z; expires_at : Z }.

Abbreviation buckets := (list bucket).

Definition second : Z := 1000000.

(** SET of the upsert; [now] is statement_timestamp(). *)
Definition upsert (now windowSeconds cappedCount : Z) (r : bucket) : bucket :=
  mkBucket r.(bucket_key)
    (if (r.(expires_at) <=? now)%Z then 1%Z
     else if (cappedCount <=? r.(request_count))%Z then cappedCount
     else r.(request_count) + 1)%Z
    (if (r.(expires_at) <=? now)%Z then now else r.(window_started_at))
    (if (r.(expires_at) <=? now)%Z then now + windowSeconds * second else r.(expires_at))%Z.

Definition result_of (row : bucket) (now limit : Z) : sum store_error RateLimitResult :=
  let currentCount := row.(request_count) in
  let resetAt := ceil_div row.(expires_at) second in
  let retryAfter := Z.max 0 (ceil_div (row.(expires_at) - now) second) in
  if negb (isSafeInteger currentCount) || negb (isSafeInteger resetAt) || negb (isSafeInteger retryAfter)
  then inl RateLimitStoreUnavailableError
  else inr (mkResult (currentCount <=? limit)%Z currentCount limit resetAt retryAfter).

Definition is_key (key : string) (r : bucket) : bool := bool_decide (r.(bucket_key) = key).

Definition increment (table : buckets) (now : Z) (key : string) (limit windowSeconds : Z)
    : sum store_error RateLimitResult * buckets :=
  match assertRateLimitArguments limit windowSeconds with
  | Some e => (inl e, table)
  | None =>
      let table' :=
        if holds_any (is_key key) table
        then update_where (is_key key) (upsert now windowSeconds (limit + 1)) table
        else table ++ [mkBucket key 1 now (now + windowSeconds * second)] in
      match first (is_key key) table' with
      | Some row => (result_of row now limit, table')
      | None => (inl RateLimitStoreUnavailableError, table')
      end
  end.

Definition reset (table : buckets) (key : string) : buckets :=
  keep (λ r, negb (is_key key r)) table.

(** [ORDER BY expires_at] *)
Definition expires_first (a b : bucket) : Prop := (a.(expires_at) ≤ b.(expires_at))%Z.
#[export] Instance expires_first_dec : RelDecision expires_first.
Proof. intros a b. unfold expires_first. apply _. Defined.

(** The batch of expired rows that one cleanup deletes; [locked] are the rows that
    other transactions hold, which FOR UPDATE SKIP LOCKED passes over. *)
Definition cleanupExpiredBuckets (table : buckets) (now : Z) (cleanupBatchSize : nat)
    (locked : bucket → bool) : nat * buckets :=
  let expired := take cleanupBatchSize
    (merge_sort expires_first
       (keep (λ r, (r.(expires_at) <=? now)%Z && negb (locked r)) table)) in
  let hit (r : bucket) := bool_decide (r.(bucket_key) ∈ (bucket_key <$> expired)) in
  (length (keep hit table), keep (λ r, negb (hit r)) table).
End Postgres.

(** ** Fixed windows

    The counter of one key as a state machine: the specification that both stores
    implement, and the number of requests it admits. *)

Module Window.

(** (count, start of the window) *)
Definition step (limit W now : Z) (st : option (Z * Z)) : Z * Z :=
  match st with
  | None => (1, now)%Z
  | Some (c, s) => if (W <=? now - s)%Z then (1, now)%Z else (Z.min (c + 1) (limit + 1), s)%Z
  end.

(** The requests at [times], each with its admission. *)
Fixpoint trace (limit W : Z) (st : option (Z * Z)) (times : list Z) : list (Z * bool) :=
  match times with
  | [] => []
  | now :: rest =>
      let st' := step limit W now st in
      (now, (st'.1 <=? limit)%Z) :: trace limit W (Some st') rest
  end.

(** Requests admitted in [a, b). *)
Definition admitted (a b : Z) (l : list (Z * bool)) : Z :=
  Z.of_nat (length (keep (λ e, (a <=? e.1)%Z && (e.1 <? b)%Z && e.2) l)).

Definition room (limit c : Z) : Z := Z.max 0 (limit - c).

Section bounds.
Context (limit W a : Z) (HW : (0 < W)%Z) (Hlimit : (0 < limit)%Z).
Local Abbreviation b := (a + W)%Z.

Lemma admitted_nil x y : admitted x y [] = 0%Z.
Proof. done. Qed.

Lemma admitted_cons x e l :
  admitted x b (e :: l)
  = ((if (x <=? e.1)%Z && (e.1 <? b)%Z && e.2 then 1 else 0) + admitted x b l)%Z.
Proof. unfold admitted. rewrite keep_cons. destruct (_ && _); cbn; lia. Qed.

Lemma admitted_late st times :
  Forall (λ τ, (b ≤ τ)%Z) times → admitted a b (trace limit W st times) = 0%Z.
Proof.
  intros Hf. revert st. induction Hf as [|τ times Hτ Hf IH]; intros st; [done|].
  cbn [trace]. rewrite admitted_cons, IH. cbn. destruct (Z.ltb_spec τ b); [lia|].
  by rewrite andb_false_r.
Qed.

Lemma sorted_ge τ times : StronglySorted Z.le (τ :: times) → Forall (λ x, (τ ≤ x)%Z) times.
Proof. by inversion 1. Qed.

(** A window that starts inside the interval lasts to its end. *)
Lemma admitted_current c s times :
  (1 ≤ c)%Z → (a ≤ s)%Z → StronglySorted Z.le (s :: times) →
  (admitted a b (trace limit W (Some (c, s)) times) ≤ room limit c)%Z.
Proof using HW Hlimit.
  intros Hc Hs Hsort. assert (Hge := sorted_ge _ _ Hsort). inversion Hsort as [|? ? Hst _]; subst.
  clear Hsort. revert c Hc. induction times as [|τ times IH]; intros c Hc; [cbn [trace]; rewrite admitted_nil; unfold room; lia|].
  cbn [trace step]. rewrite admitted_cons. cbn [fst snd].
  inversion Hge as [|? ? Hτ Hge']; inversion Hst as [|? ? Hst' Hτs]; subst.
  destruct (Z.leb_spec W (τ - s)).
  - rewrite admitted_late by (eapply Forall_impl; [exact Hτs|]; cbn; lia).
    destruct (Z.ltb_spec τ b); [lia|]. rewrite andb_false_r. unfold room. cbn. lia.
  - specialize (IH Hge' Hst' (Z.min (c + 1) (limit + 1)) ltac:(lia)).
    unfold room in *. cbn [fst snd]. destruct (Z.leb_spec (Z.min (c + 1) (limit + 1)) limit);
      rewrite ?andb_true_r, ?andb_false_r; repeat case_match; lia.
Qed.

(** A window that started before the interval leaves room for one more. *)
Lemma admitted_earlier c s times :
  (1 ≤ c)%Z → StronglySorted Z.le times → Forall (λ τ, (a ≤ τ)%Z) times →
  (admitted a b (trace limit W (Some (c, s)) times) ≤ room limit c + limit)%Z.
Proof using HW Hlimit.
  revert c. induction times as [|τ times IH]; intros c Hc Hsort Ha; [cbn [trace]; rewrite admitted_nil; unfold room; lia|].
  inversion Hsort as [|? ? Hst Hτs]; inversion Ha as [|? ? Hτ Ha']; subst.
  cbn [trace step]. rewrite admitted_cons. cbn [fst snd]. destruct (Z.leb_spec W (τ - s)).
  - assert (Hcur := admitted_current 1 τ times ltac:(lia) Hτ Hsort). unfold room in *. cbn [fst].
    destruct (_ && _); lia.
  - specialize (IH (Z.min (c + 1) (limit + 1)) ltac:(lia) Hst Ha').
    unfold room in *. cbn [fst snd]. destruct (Z.leb_spec (Z.min (c + 1) (limit + 1)) limit);
      rewrite ?andb_true_r, ?andb_false_r; repeat case_match; lia.
Qed.

Lemma admitted_any st times :
  (∀ c s, st = Some (c, s) → (1 ≤ c)%Z) → StronglySorted Z.le times →
  (admitted a b (trace limit W st times) ≤ 2 * limit)%Z.
Proof using HW Hlimit.
  revert st. induction times as [|τ times IH]; intros st Hst Hsort; [cbn [trace]; rewrite admitted_nil; lia|].
  assert (Hstep : (1 ≤ (step limit W τ st).1)%Z).
  { destruct st as [[c s]|]; cbn; [|lia]. specialize (Hst c s eq_refl). case_match; cbn; lia. }
  inversion Hsort as [|? ? Hs Hτs]; subst. cbn [trace]. rewrite admitted_cons. cbn [fst snd].
  destruct (Z.leb_spec a τ) as [Ha|Ha]; cbn [andb].
  2: { apply IH; [|done]. intros c s [= Heq]. by rewrite Heq in Hstep. }
  assert (Hge : Forall (λ x, (a ≤ x)%Z) times) by (eapply Forall_impl; [exact Hτs|]; cbn; lia).
  destruct st as [[c s]|]; cbn [step] in *.
  - specialize (Hst c s eq_refl). destruct (Z.leb_spec W (τ - s)).
    + assert (Hcur := admitted_current 1 τ times ltac:(lia) Ha Hsort). unfold room in *. cbn [fst].
      destruct (_ && _); lia.
    + assert (Hcur := admitted_earlier (Z.min (c + 1) (limit + 1)) s times ltac:(lia) Hs Hge).
      unfold room in *. cbn [fst]. destruct (Z.leb_spec (Z.min (c + 1) (limit + 1)) limit);
        rewrite ?andb_true_r, ?andb_false_r; repeat case_match; lia.
  - assert (Hcur := admitted_current 1 τ times ltac:(lia) Ha Hsort). unfold room in *. cbn [fst].
    destruct (_ && _); lia.
Qed.
End bounds.
End Window.

(** ** The in-memory store refines the windows *)

Section memory.
Import Memory.
Implicit Types (m : list (string * CounterEntry)) (key : string).

Definition keys m : list string := fst <$> m.
Definition view key m : option (Z * Z) := (λ e, (e.(count), e.(windowStart))) <$> get key m.

Lemma length_keys m : length (keys m) = length m.
Proof. apply length_fmap. Qed.

Lemma get_None key m : get key m = None ↔ key ∉ keys m.
Proof.
  unfold get, keys. rewrite fmap_None, first_None, list_elem_of_fmap. split.
  - intros Hn (kv & -> & Hkv). specialize (Hn kv Hkv). by to_prop.
  - intros Hn kv Hkv. apply bool_decide_eq_false. intros <-. eauto.
Qed.

Lemma delete_other key m : key ∉ keys m → delete key m = m.
Proof.
  intros Hn. apply keep_all, Forall_forall. intros kv Hkv. apply negb_true_iff, bool_decide_eq_false.
  intros <-. apply Hn, list_elem_of_fmap. eauto.
Qed.

Lemma get_delete key key' m : key' ≠ key → get key' (delete key m) = get key' m.
Proof.
  intros Hne. unfold get, delete, first. f_equal. induction m as [|kv m IH]; [done|].
  rewrite !keep_cons. destruct (bool_decide_reflect (kv.1 = key)) as [<-|]; cbn.
  - by rewrite bool_decide_eq_false_2 by done.
  - rewrite keep_cons. by destruct (bool_decide (kv.1 = key')).
Qed.

Lemma keys_delete key m : keys (delete key m) = filter (λ k, k ≠ key) (keys m).
Proof.
  unfold keys, delete. induction m as [|kv m IH]; [done|]. rewrite keep_cons, fmap_cons, filter_cons.
  destruct (bool_decide_reflect (kv.1 = key)); cbn [negb]; case_decide; try done.
  by rewrite fmap_cons, IH.
Qed.

Lemma get_snoc key key' e m :
  get key' (m ++ [(key, e)])
  = match get key' m with Some x => Some x | None => if decide (key = key') then Some e else None end.
Proof.
  unfold get. rewrite first_app. destruct (first _ m); [done|]. unfold first.
  rewrite keep_cons. cbn. destruct (decide (key = key')).
  - by rewrite bool_decide_eq_true_2.
  - by rewrite bool_decide_eq_false_2.
Qed.

Lemma set_new key e m : key ∉ keys m → set_ key e m = m ++ [(key, e)].
Proof.
  intros Hn. unfold set_. rewrite (proj2 (holds_any_false _ _)); [done|].
  intros kv Hkv. apply bool_decide_eq_false. intros <-. apply Hn, list_elem_of_fmap. eauto.
Qed.

Lemma evict_drop fuel m max :
  NoDup (keys m) → length m ≤ fuel → evict fuel m max = drop (length m - max) m.
Proof.
  revert m. induction fuel as [|fuel IH]; intros m Hnd Hl.
  { destruct m; [done|]. cbn in Hl. lia. }
  cbn [evict]. destruct (Nat.ltb_spec max (length m)).
  - destruct m as [|[k e] m]; [cbn in *; lia|]. cbn in Hnd. apply NoDup_cons in Hnd as [Hk Hnd].
    assert (Hd : delete k ((k, e) :: m) = m).
    { unfold delete. rewrite keep_cons. cbn. rewrite bool_decide_eq_true_2 by done. cbn.
      by apply delete_other. }
    cbn in Hl. rewrite Hd, IH by (done || lia). cbn [length].
    replace (S (length m) - max) with (S (length m - max)) by (cbn in *; lia). done.
  - replace (length m - max) with 0 by lia. done.
Qed.

(** The order of use: a request moves its key to the back. *)
Definition touch key (l : list string) : list string := filter (λ k, k ≠ key) l ++ [key].

Definition wf (s : MemoryRateLimitStore) : Prop :=
  NoDup (keys s.(counters)) ∧ length s.(counters) ≤ s.(maxItems).

Lemma NoDup_touch key (l : list string) : NoDup l → NoDup (touch key l).
Proof.
  intros Hl. unfold touch. apply NoDup_app. split_and!; [by apply NoDup_filter| |apply NoDup_singleton].
  intros k [Hk _]%list_elem_of_filter ->%list_elem_of_singleton. done.
Qed.

Lemma filter_ne_absent key (l : list string) : key ∉ l → filter (λ k, k ≠ key) l = l.
Proof.
  induction l as [|k l IH]; [done|]. intros [Hk Hn]%not_elem_of_cons. rewrite filter_cons.
  case_decide; [by rewrite IH|congruence].
Qed.

Lemma touch_new key (l : list string) : key ∉ l → touch key l = l ++ [key].
Proof.
  intros Hn. unfold touch. by rewrite filter_ne_absent.
Qed.

Lemma length_filter_ne key (l : list string) :
  NoDup l → key ∈ l → length (filter (λ k, k ≠ key) l) + 1 = length l.
Proof.
  induction l as [|k l IH]; [by intros _ []%not_elem_of_nil|].
  intros [Hk Hl]%NoDup_cons Hin. rewrite filter_cons. case_decide as Hd; cbn.
  - apply elem_of_cons in Hin as [->|Hin]; [done|]. rewrite IH by done. done.
  - assert (k = key) as -> by (by destruct (decide (k = key))).
    rewrite filter_ne_absent by done. lia.
Qed.

(** Dropping old entries hides no key that is still there. *)
Lemma get_drop n m k : NoDup (keys m) → k ∈ keys (drop n m) → get k (drop n m) = get k m.
Proof.
  intros Hnd Hin. unfold get. f_equal. rewrite <- (take_drop n m) at 2. rewrite first_app.
  replace (first _ (take n m)) with (@None (string * CounterEntry)); [done|].
  symmetry. apply first_None. intros kv Hkv. apply bool_decide_eq_false. intros <-.
  rewrite <- (take_drop n m) in Hnd. unfold keys in Hnd, Hin. rewrite fmap_app in Hnd.
  apply NoDup_app in Hnd as (_ & Hd & _). apply (Hd kv.1); [|done]. apply list_elem_of_fmap. eauto.
Qed.

(** One request: the keys are the most recently used ones, in order, and the
    result is that of the key's window. *)
Lemma increment_spec s now key lim w r s' :
  wf s → increment s now key lim w = (inr r, s') →
  let st := Window.step lim (w * 1000) now (view key s.(counters)) in
  wf s' ∧ s'.(maxItems) = s.(maxItems)
  ∧ keys s'.(counters) = drop (length (touch key (keys s.(counters))) - s.(maxItems))
                              (touch key (keys s.(counters)))
  ∧ (r.(allowed), r.(currentCount)) = ((st.1 <=? lim)%Z, st.1)
  ∧ (∀ k, k ∈ keys s'.(counters) →
       view k s'.(counters) = if decide (k = key) then Some st else view k s.(counters)).
Proof.
  intros [Hnd Hlen]. unfold increment. destruct (assertRateLimitArguments lim w); [done|].
  destruct (get key s.(counters)) as [e|] eqn:Hg; intros [= <- <-]; cbn [counters maxItems].
  - assert (Hin : key ∈ keys s.(counters)).
    { destruct (decide (key ∈ keys s.(counters))); [done|]. by rewrite (proj2 (get_None _ _)) in Hg. }
    assert (Hnew : key ∉ keys (delete key s.(counters))).
    { rewrite keys_delete, list_elem_of_filter. by intros [? _]. }
    rewrite set_new by done.
    assert (Hk : keys (delete key s.(counters) ++ [(key, bump e now lim (w * 1000))])
                 = touch key (keys s.(counters))).
    { unfold keys at 1. rewrite fmap_app. change (fst <$> delete key s.(counters))
        with (keys (delete key s.(counters))). by rewrite keys_delete. }
    assert (Hlk : length (touch key (keys s.(counters))) = length (keys s.(counters))).
    { unfold touch. rewrite length_app. by apply length_filter_ne. }
    assert (Hst : Window.step lim (w * 1000) now (view key s.(counters))
                  = (count (bump e now lim (w * 1000)), windowStart (bump e now lim (w * 1000)))).
    { unfold view. rewrite Hg. cbn. unfold bump. by case_match. }
    split_and!.
    + unfold wf. cbn [counters maxItems]. rewrite Hk. split; [by apply NoDup_touch|].
      by rewrite <- length_keys, Hk, Hlk, length_keys.
    + done.
    + rewrite Hk, Hlk, length_keys.
      by replace (length s.(counters) - s.(maxItems)) with 0 by lia.
    + by rewrite Hst.
    + intros k Hkin. unfold view. rewrite get_snoc. case_decide as Hd.
      * subst k. rewrite (proj2 (get_None _ _) Hnew), decide_True by done. cbn. by rewrite <- Hst.
      * rewrite get_delete by done. rewrite decide_False by done. by destruct (get k _).
  - apply get_None in Hg as Hnew. rewrite set_new by done.
    set (m := s.(counters) ++ [(key, mkEntry 1 now)]).
    assert (Hk : keys m = touch key (keys s.(counters))).
    { unfold m, keys at 1. rewrite fmap_app. by rewrite touch_new. }
    unfold evictIfNeeded. rewrite evict_drop; [|rewrite Hk; by apply NoDup_touch|done].
    assert (Hkd : keys (drop (length m - s.(maxItems)) m)
                  = drop (length (touch key (keys s.(counters))) - s.(maxItems)) (touch key (keys s.(counters)))).
    { unfold keys at 1. rewrite fmap_drop. change (fst <$> m) with (keys m). rewrite Hk.
      f_equal. by rewrite <- Hk, length_keys. }
    split_and!; try done.
    + unfold wf. cbn [counters maxItems]. rewrite Hkd. split.
      * eapply sublist_NoDup; [by apply (NoDup_touch key)|apply sublist_drop].
      * rewrite length_drop. lia.
    + unfold view. by rewrite Hg.
    + intros k Hkin. unfold view at 1. rewrite (get_drop _ m) by (done || (rewrite Hk; by apply NoDup_touch)).
      unfold m. rewrite get_snoc. unfold view. case_decide as Hd.
      * subst. rewrite decide_True by done. by rewrite Hg.
      * rewrite decide_False by done. by destruct (get k _).
Qed.
End memory.

(** ** The configuration is always usable *)

Section config_valid.
Import Config.

Lemma parsePositiveInt_range value d max :
  (0 < d ≤ max)%Z → (max ≤ MAX_SAFE_INTEGER)%Z →
  (0 < parsePositiveInt value d max ≤ max)%Z.
Proof.
  intros Hd Hmax. unfold parsePositiveInt. repeat case_match; to_prop; lia.
Qed.

Lemma positive_range n max :
  (0 < n ≤ max)%Z → (max ≤ MAX_SAFE_INTEGER)%Z →
  isSafeInteger n && (0 <? n)%Z && (n <=? max)%Z = true.
Proof. intros. unfold isSafeInteger. rewrite !andb_true_iff, !Z.leb_le, Z.ltb_lt. lia. Qed.

Lemma tier_valid env name prod mult window :
  (0 < prod ≤ 3000)%Z → (0 < mult ≤ 20)%Z → (0 < window ≤ 3600)%Z →
  validateTier (tier env name prod mult window) = true.
Proof.
  intros Hp Hm Hw. unfold validateTier, tier. cbn [requests windowSeconds].
  rewrite <- !andb_assoc.
  assert (0 < getDefaultRequests env (env (String.append "RATE_LIMIT_" (String.append name "_REQUESTS"))) prod mult
          ≤ MAX_RATE_LIMIT_REQUESTS)%Z as Hr.
  { unfold getDefaultRequests. assert (MAX_RATE_LIMIT_REQUESTS = 9007199254740990)%Z as Hmax by done.
    pose proof (λ v, parsePositiveInt_range v prod MAX_RATE_LIMIT_REQUESTS
      ltac:(lia) ltac:(unfold MAX_SAFE_INTEGER; lia)) as Hparse.
    repeat case_match; try apply Hparse; nia. }
  assert (MAX_RATE_LIMIT_WINDOW_SECONDS = 9007199254740)%Z as Hwmax by done.
  pose proof (parsePositiveInt_range
    (env (String.append "RATE_LIMIT_" (String.append name "_WINDOW_SECONDS"))) window
    MAX_RATE_LIMIT_WINDOW_SECONDS ltac:(lia) ltac:(unfold MAX_SAFE_INTEGER; lia)) as Hws.
  rewrite !andb_assoc, positive_range by (unfold MAX_RATE_LIMIT_REQUESTS, MAX_SAFE_INTEGER in *; lia).
  rewrite andb_true_l, positive_range; [done|done|unfold MAX_SAFE_INTEGER; lia].
Qed.

Lemma tier_accepted t :
  validateTier t = true → assertRateLimitArguments t.(requests) t.(windowSeconds) = None.
Proof.
  unfold validateTier, assertRateLimitArguments. rewrite !andb_true_iff, !Z.leb_le, !Z.ltb_lt.
  intros [[[[[-> ?] ?] ->] ?] ?]. cbn [negb orb].
  repeat (case_match; [to_prop; try lia|]); done.
Qed.

Definition tiers (c : RateLimitConfig) : list RateLimitTier :=
  c.(global) :: (snd <$> c.(auth)) ++ (snd <$> c.(resource)) ++ (snd <$> c.(messaging)).

Lemma tiers_valid env : forallb validateTier (tiers (getRateLimitConfig env)) = true.
Proof.
  unfold tiers, getRateLimitConfig. cbn [global auth resource messaging fmap list_fmap snd app forallb].
  rewrite !tier_valid by (done || (case_match; lia)). done.
Qed.

(** Whatever the environment holds (missing, malformed, negative or oversized values included),
    the configuration read from it passes its own validation, except for a Redis store without
    a URL; and both stores accept the limit and window of every tier of it. *)
Theorem config_valid env :
  isValidRateLimitConfig (getRateLimitConfig env)
  = negb (bool_decide (env "RATE_LIMIT_STORE_TYPE" = Some (js "redis"))
          && negb (truthy (env "RATE_LIMIT_REDIS_URL")))
  ∧ Forall (λ t, assertRateLimitArguments t.(requests) t.(windowSeconds) = None)
      (tiers (getRateLimitConfig env)).
Proof.
  pose proof (tiers_valid env) as Ht. split.
  - unfold isValidRateLimitConfig.
    replace (bool_decide (type_ (getRateLimitConfig env) = redis))
      with (bool_decide (env "RATE_LIMIT_STORE_TYPE" = Some (js "redis")))
      by (cbn [type_ getRateLimitConfig]; by repeat case_bool_decide).
    change (redisUrl (getRateLimitConfig env)) with (env "RATE_LIMIT_REDIS_URL").
    destruct (bool_decide _ && _); [done|].
    cbn [getRateLimitConfig memoryMaxItems postgresCleanupIntervalSeconds postgresCleanupBatchSize].
    rewrite !positive_range by (done || (apply parsePositiveInt_range; done)).
    cbn [negb orb]. unfold tiers in Ht. cbn [forallb] in Ht.
    by rewrite !forallb_app, !andb_assoc in Ht.
  - apply Forall_forall. intros t Hin. apply tier_accepted.
    rewrite forallb_forall in Ht. apply Ht. by apply list_elem_of_In.
Qed.
End config_valid.

(** ** Many requests on the in-memory store *)

Record request := mkRequest { at_ : Z; req_key : string; req_limit : Z; req_window : Z }.

Definition accepted (r : request) : Prop :=
  assertRateLimitArguments r.(req_limit) r.(req_window) = None.

(** The requests in order; the result is each request's time, key and admission. *)
Fixpoint serve (s : Memory.MemoryRateLimitStore) (l : list request)
    : list (request * bool) * Memory.MemoryRateLimitStore :=
  match l with
  | [] => ([], s)
  | r :: l =>
      let '(res, s) := Memory.increment s r.(at_) r.(req_key) r.(req_limit) r.(req_window) in
      let '(out, s) := serve s l in
      ((r, match res with inr x => x.(allowed) | inl _ => false end) :: out, s)
  end.

(** The decisions for one key. *)
Definition decisions (key : string) (out : list (request * bool)) : list (Z * bool) :=
  (λ rb, (rb.1.(at_), rb.2)) <$> keep (λ rb, bool_decide (rb.1.(req_key) = key)) out.
Definition times (key : string) (l : list request) : list Z :=
  at_ <$> keep (λ r, bool_decide (r.(req_key) = key)) l.

Definition new_store (maxItems : nat) : Memory.MemoryRateLimitStore := Memory.mkStore [] maxItems.

Definition recency (l : list request) : list string := foldl (λ ks r, touch r.(req_key) ks) [] l.

(** Keeping the last [n] keys commutes with touching. *)
Lemma last_touch n key l :
  NoDup l →
  let kept := drop (length l - n) l in
  drop (length (touch key kept) - n) (touch key kept) = drop (length (touch key l) - n) (touch key l).
Proof.
  intros Hnd. cbn zeta. set (A := take (length l - n) l). set (K := drop (length l - n) l).
  assert (Hl : l = A ++ K) by (symmetry; apply take_drop).
  assert (HA : length A = length l - n) by (unfold A; rewrite length_take; lia).
  assert (HK : length K = length l - (length l - n)) by (unfold K; by rewrite length_drop).
  clearbody A K. rewrite Hl in Hnd. apply NoDup_app in Hnd as (HndA & Hdis & HndK).
  assert (Ht : touch key l = filter (λ k, k ≠ key) A ++ touch key K).
  { rewrite Hl. unfold touch. by rewrite filter_app, app_assoc. }
  rewrite Ht, length_app. destruct (decide (key ∈ K)) as [Hin|Hin].
  - assert (Ha : key ∉ A) by (intros ?; by eapply Hdis).
    rewrite filter_ne_absent by done. unfold touch. rewrite length_app. cbn [length].
    rewrite length_filter_ne by done.
    replace (length K - n) with 0 by lia.
    replace (length A + length K - n) with (length A + 0) by lia.
    by rewrite drop_app_add.
  - rewrite (touch_new key K) by done. rewrite length_app. cbn [length].
    destruct (decide (length l <= n)) as [Hle|Hgt].
    + assert (A = []) as -> by (apply nil_length_inv; lia). done.
    + replace (length (filter (λ k, k ≠ key) A) + (length K + 1) - n)
        with (length (filter (λ k, k ≠ key) A) + (length K + 1 - n)) by lia.
      by rewrite drop_app_add.
Qed.

Section serve.
Implicit Types (s : Memory.MemoryRateLimitStore) (l : list request).

Lemma increment_accepted s r :
  accepted r → ∃ x s', Memory.increment s r.(at_) r.(req_key) r.(req_limit) r.(req_window) = (inr x, s').
Proof. unfold accepted, Memory.increment. intros ->. case_match; eauto. Qed.

Lemma serve_lru s l R :
  wf s → NoDup R → Forall accepted l →
  keys s.(Memory.counters) = drop (length R - s.(Memory.maxItems)) R →
  let R' := foldl (λ ks r, touch r.(req_key) ks) R l in
  let s' := (serve s l).2 in
  NoDup R' ∧ wf s' ∧ keys s'.(Memory.counters) = drop (length R' - s.(Memory.maxItems)) R'.
Proof.
  revert s R. induction l as [|r l IH]; intros s R Hwf HR Hl Hk; [done|].
  apply Forall_cons in Hl as [Hr Hl]. destruct (increment_accepted s r Hr) as (x & s' & He).
  pose proof (increment_spec s _ _ _ _ x s' Hwf He) as (Hwf' & Hmax & Hk' & _).
  rewrite Hk, last_touch in Hk' by done. rewrite <- Hmax in Hk' |- *.
  specialize (IH s' (touch r.(req_key) R) Hwf' (NoDup_touch _ _ HR) Hl Hk').
  cbn [serve foldl]. rewrite He. destruct (serve s' l) as [out s'']. exact IH.
Qed.

Lemma length_touch key (R : list string) : NoDup R → length R ≤ length (touch key R).
Proof.
  intros HR. destruct (decide (key ∈ R)) as [Hin|Hin].
  - unfold touch. rewrite length_app. cbn. rewrite length_filter_ne by done. done.
  - rewrite touch_new, length_app by done. lia.
Qed.

Lemma length_touches l (R : list string) :
  NoDup R → length R ≤ length (foldl (λ ks r, touch r.(req_key) ks) R l).
Proof.
  revert R. induction l as [|r l IH]; intros R HR; [done|]. cbn [foldl].
  etransitivity; [by apply length_touch|]. apply IH. by apply NoDup_touch.
Qed.

Lemma elem_of_touch k key (R : list string) : k ∈ touch key R ↔ k = key ∨ k ∈ R.
Proof.
  unfold touch. rewrite elem_of_app, list_elem_of_filter, list_elem_of_singleton.
  destruct (decide (k = key)); naive_solver.
Qed.

Lemma view_None key m : key ∉ keys m → view key m = None.
Proof. intros H. unfold view. by rewrite (proj2 (get_None _ _) H). Qed.

(** While the store has room for every key, each key's decisions are its window's. *)
Lemma serve_window key lim w s l :
  wf s → Forall accepted l →
  (∀ r, r ∈ l → r.(req_key) = key → r.(req_limit) = lim ∧ r.(req_window) = w) →
  length (foldl (λ ks r, touch r.(req_key) ks) (keys s.(Memory.counters)) l) ≤ s.(Memory.maxItems) →
  decisions key (serve s l).1 = Window.trace lim (w * 1000) (view key s.(Memory.counters)) (times key l).
Proof.
  revert s. induction l as [|r l IH]; intros s Hwf Hl Hkey Hroom; [done|].
  apply Forall_cons in Hl as [Hr Hl]. destruct (increment_accepted s r Hr) as (x & s' & He).
  pose proof (increment_spec s _ _ _ _ x s' Hwf He) as (Hwf' & Hmax & Hk & Hx & Hview).
  cbn [foldl] in Hroom. assert (Hnd := proj1 Hwf).
  pose proof (length_touches l _ (NoDup_touch r.(req_key) _ Hnd)) as Hgrow.
  replace (_ - _) with 0 in Hk by lia. rewrite drop_0 in Hk.
  rewrite <- Hk, <- Hmax in Hroom.
  specialize (IH s' Hwf' Hl ltac:(intros r' Hr'; apply Hkey; by right) Hroom).
  cbn [serve]. rewrite He. destruct (serve s' l) as [out s''] eqn:Hs. cbn [fst] in IH |- *.
  unfold decisions, times in *. rewrite !keep_cons. cbn [fst].
  destruct (bool_decide_reflect (r.(req_key) = key)) as [Hrk|Hrk].
  - destruct (Hkey r) as [<- <-]; [by left|done|]. subst key.
    cbn [fmap list_fmap fst snd Window.trace]. rewrite IH.
    rewrite (Hview r.(req_key)), decide_True by (done || (rewrite Hk, elem_of_touch; by left)).
    by injection Hx as -> _.
  - rewrite IH. f_equal. destruct (decide (key ∈ keys s'.(Memory.counters))) as [Hin|Hin].
    + rewrite (Hview key Hin). by rewrite decide_False.
    + rewrite !view_None; [done| |done]. rewrite Hk, elem_of_touch in Hin. tauto.
Qed.
End serve.

Lemma new_store_wf n : wf (new_store n).
Proof. split; [apply NoDup_nil; done|cbn; lia]. Qed.

Lemma assert_None limit w :
  assertRateLimitArguments limit w = None →
  (0 < limit ≤ MAX_RATE_LIMIT_REQUESTS)%Z ∧ (0 < w ≤ MAX_RATE_LIMIT_WINDOW_SECONDS)%Z.
Proof. unfold assertRateLimitArguments. intros H. repeat case_match; to_prop; (done || lia). Qed.

(** The in-memory store is a least-recently-used cache: after any requests its keys are the
    [n] most recently used ones, oldest first, each once; so it never holds more than [n]. *)
Theorem memory_lru n l :
  Forall accepted l →
  let s := (serve (new_store n) l).2 in
  keys s.(Memory.counters) = drop (length (recency l) - n) (recency l)
  ∧ NoDup (keys s.(Memory.counters)) ∧ Memory.size s ≤ n.
Proof.
  intros Hl. destruct (serve_lru (new_store n) l [] (new_store_wf n)) as (_ & [Hnd Hlen] & Hk);
    [by apply NoDup_nil|done|done|].
  split; [exact Hk|]. split; [exact Hnd|].
  unfold Memory.size. rewrite <- length_keys, Hk, length_drop. cbn. lia.
Qed.

(** As long as the store has room for the keys in use, a key's decisions are those of a fixed
    window, however its requests interleave with other keys'; hence no interval as long as the
    window ever admits more than twice the limit. *)
Theorem memory_rate_bound n l key lim w a :
  Forall accepted l → length (recency l) ≤ n →
  (∀ r, r ∈ l → r.(req_key) = key → r.(req_limit) = lim ∧ r.(req_window) = w) →
  assertRateLimitArguments lim w = None →
  StronglySorted Z.le (times key l) →
  let out := decisions key (serve (new_store n) l).1 in
  out = Window.trace lim (w * 1000) None (times key l)
  ∧ (Window.admitted a (a + w * 1000) out ≤ 2 * lim)%Z.
Proof.
  intros Hl Hroom Hkey Hargs Hsort out. apply assert_None in Hargs as [Hlim Hw].
  assert (out = Window.trace lim (w * 1000) None (times key l)) as Hout.
  { by apply (serve_window key lim w (new_store n)); [apply new_store_wf|..]. }
  split; [done|]. rewrite Hout. by apply Window.admitted_any; [lia|lia|..].
Qed.

(** ** The PostgreSQL store, with its cleanups *)

Inductive pg_op :=
  | Request (r : request)
  | Cleanup (now : Z) (cleanupBatchSize : nat) (locked : Postgres.bucket → bool).

Definition op_time (o : pg_op) : Z :=
  match o with Request r => r.(at_) | Cleanup now _ _ => now end.

Fixpoint pg_serve (table : list Postgres.bucket) (l : list pg_op)
    : list (request * bool) * list Postgres.bucket :=
  match l with
  | [] => ([], table)
  | Cleanup now n locked :: l => pg_serve (Postgres.cleanupExpiredBuckets table now n locked).2 l
  | Request r :: l =>
      let '(res, table) :=
        Postgres.increment table r.(at_) r.(req_key) r.(req_limit) r.(req_window) in
      let '(out, table) := pg_serve table l in
      ((r, match res with inr x => x.(allowed) | inl _ => false end) :: out, table)
  end.

Definition pg_requests (l : list pg_op) : list request :=
  omap (λ o, match o with Request r => Some r | Cleanup _ _ _ => None end) l.

Section postgres_serve.
Import Postgres.
Implicit Types (t : list bucket) (key : string).

Definition row key t : option bucket := first (is_key key) t.
Definition keyed t : Prop := NoDup (bucket_key <$> t).

(** The row of a key against its window: a missing row is an expired window. *)
Definition tracks key (W now : Z) t (st : option (Z * Z)) : Prop :=
  match row key t with
  | Some r => st = Some (r.(request_count), r.(window_started_at))
              ∧ r.(expires_at) = (r.(window_started_at) + W)%Z
  | None => ∀ c s, st = Some (c, s) → (s + W ≤ now)%Z
  end.

Lemma row_None key t : row key t = None ↔ key ∉ (bucket_key <$> t).
Proof.
  unfold row. rewrite first_None, list_elem_of_fmap. unfold is_key. split.
  - intros Hn (r & -> & Hr). specialize (Hn r Hr). by to_prop.
  - intros Hn r Hr. apply bool_decide_eq_false. intros <-. eauto.
Qed.

Lemma keys_upsert now w c key t :
  bucket_key <$> update_where (is_key key) (upsert now w c) t = bucket_key <$> t.
Proof.
  unfold update_where. rewrite <- list_fmap_compose. apply list_fmap_ext. intros _ r _. cbn.
  by destruct (is_key key r).
Qed.

Lemma row_cons k r t : row k (r :: t) = if decide (r.(bucket_key) = k) then Some r else row k t.
Proof.
  unfold row, first. rewrite keep_cons. unfold is_key. case_decide.
  - by rewrite bool_decide_eq_true_2.
  - by rewrite bool_decide_eq_false_2.
Qed.

Lemma row_upsert now w c key k t :
  row k (update_where (is_key key) (upsert now w c) t)
  = if decide (k = key) then upsert now w c <$> row key t else row k t.
Proof.
  induction t as [|r t IH]; [by case_decide|].
  unfold update_where in *. rewrite fmap_cons, !row_cons, IH. unfold is_key.
  destruct (bool_decide_reflect (bucket_key r = key)) as [<-|]; cbn [upsert bucket_key];
    repeat case_decide; subst; cbn; congruence.
Qed.

Lemma row_snoc k r t :
  row k (t ++ [r]) = match row k t with Some x => Some x
                     | None => if decide (r.(bucket_key) = k) then Some r else None end.
Proof.
  induction t as [|x t IH]; [rewrite app_nil_l, row_cons; by case_decide|].
  rewrite <- app_comm_cons, !row_cons, IH. by destruct (decide (bucket_key x = k)).
Qed.

Lemma row_keep k p t :
  keyed t →
  row k (keep p t) = match row k t with Some r => if p r then Some r else None | None => None end.
Proof.
  induction t as [|x t IH]; [done|]. unfold keyed. rewrite fmap_cons. intros [Hx Ht]%NoDup_cons.
  rewrite keep_cons, row_cons. specialize (IH Ht). case_decide as Hd.
  - subst k. destruct (p x); [by rewrite row_cons, decide_True|].
    rewrite IH. by rewrite (proj2 (row_None _ _) Hx).
  - destruct (p x); [by rewrite row_cons, decide_False|done].
Qed.

Lemma keyed_keep p t : keyed t → keyed (keep p t).
Proof.
  unfold keyed. induction t as [|x t IH]; [done|]. rewrite fmap_cons. intros [Hx Ht]%NoDup_cons.
  rewrite keep_cons. destruct (p x); [|by apply IH]. rewrite fmap_cons. apply NoDup_cons.
  split; [|by apply IH]. intros (r & Heq & [_ Hr]%elem_of_keep)%list_elem_of_fmap. apply Hx. rewrite Heq.
  apply list_elem_of_fmap. eauto.
Qed.

(** A cleanup deletes expired rows only. *)
Lemma row_cleanup k t now n locked :
  keyed t →
  let t' := (cleanupExpiredBuckets t now n locked).2 in
  keyed t' ∧ (row k t' = row k t ∨ row k t' = None ∧ ∃ r, row k t = Some r ∧ (r.(expires_at) ≤ now)%Z).
Proof.
  intros Ht t'. split; [by apply keyed_keep|]. unfold t', cleanupExpiredBuckets. cbn [snd].
  rewrite row_keep by done. destruct (row k t) as [r|] eqn:Hr; [|by left].
  case_match eqn:Hdel; [by left|right; split; [done|]]. exists r. split; [done|]. to_prop.
  apply list_elem_of_fmap in Hdel as (r' & Hk & Hin).
  apply elem_of_take in Hin as (i & Hin & _). apply list_elem_of_lookup_2 in Hin.
  rewrite merge_sort_Permutation in Hin. apply elem_of_keep in Hin as [Hexp Hin]. to_prop.
  apply first_Some in Hr as [Hr _]. replace r with r'; [done|].
  apply list_elem_of_lookup in Hin as (i1 & H1). apply list_elem_of_lookup in Hr as (i2 & H2).
  enough (i1 = i2) by congruence.
  eapply (NoDup_lookup (bucket_key <$> t)); [done|..]; rewrite list_lookup_fmap.
  - by rewrite H1.
  - rewrite H2. cbn. by f_equal.
Qed.

(** Times a JavaScript Date can hold, in microseconds. *)
Definition dated (now : Z) : Prop := (0 ≤ now ≤ 8640000000000000000)%Z.

Lemma ceil_div_bounds x d : (0 < d)%Z → (x ≤ d * ceil_div x d < x + d)%Z.
Proof.
  intros Hd. unfold ceil_div. pose proof (Z.mul_div_le (- x) d Hd).
  pose proof (Z.mul_succ_div_gt (- x) d Hd). lia.
Qed.

(** With dates in range the store is never reported unavailable. *)
Lemma result_of_ok (r : bucket) now lim w :
  dated now → (1 ≤ r.(request_count) ≤ lim + 1)%Z → dated r.(window_started_at) →
  r.(expires_at) = (r.(window_started_at) + w * second)%Z →
  (lim ≤ MAX_RATE_LIMIT_REQUESTS)%Z → (0 < w ≤ MAX_RATE_LIMIT_WINDOW_SECONDS)%Z →
  ∃ x, result_of r now lim = inr x ∧ x.(allowed) = (r.(request_count) <=? lim)%Z.
Proof.
  unfold dated, result_of, second, isSafeInteger. intros Hnow Hc Hs He Hlim Hw.
  assert (MAX_SAFE_INTEGER = 9007199254740991)%Z as Hmax by done.
  assert (MAX_RATE_LIMIT_REQUESTS = 9007199254740990)%Z as Hreq by done.
  assert (MAX_RATE_LIMIT_WINDOW_SECONDS = 9007199254740)%Z as Hwin by done.
  pose proof (ceil_div_bounds r.(expires_at) 1000000 ltac:(lia)).
  pose proof (ceil_div_bounds (r.(expires_at) - now) 1000000 ltac:(lia)).
  eexists. rewrite (proj2 (negb_false_iff _)) by (rewrite andb_true_iff, !Z.leb_le; lia).
  rewrite (proj2 (negb_false_iff _)) by (rewrite andb_true_iff, !Z.leb_le; lia).
  rewrite (proj2 (negb_false_iff _)) by (rewrite andb_true_iff, !Z.leb_le; lia).
  split; [reflexivity|done].
Qed.

Lemma increment_table t now key lim w :
  (increment t now key lim w).2
  = match assertRateLimitArguments lim w with
    | Some _ => t
    | None => if holds_any (is_key key) t
              then update_where (is_key key) (upsert now w (lim + 1)) t
              else t ++ [mkBucket key 1 now (now + w * second)]
    end.
Proof.
  unfold increment. destruct (assertRateLimitArguments lim w); [done|]. cbn zeta.
  by destruct (first (is_key key) _).
Qed.

(** A request leaves the other keys' rows alone. *)
Lemma row_increment_other k t now key lim w :
  k ≠ key → row k (increment t now key lim w).2 = row k t.
Proof.
  intros Hk. rewrite increment_table. repeat case_match; [done| |].
  - by rewrite row_upsert, decide_False.
  - rewrite row_snoc. cbn [bucket_key]. rewrite decide_False by done. by destruct (row k t).
Qed.

Lemma keyed_increment t now key lim w : keyed t → keyed (increment t now key lim w).2.
Proof.
  intros Ht. rewrite increment_table. destruct (assertRateLimitArguments lim w); [done|].
  rewrite first_holds_any. case_bool_decide as Hany; unfold keyed in *.
  - by rewrite keys_upsert.
  - rewrite fmap_app. apply NoDup_app. split_and!; [done| |apply NoDup_singleton].
    intros k Hk ->%list_elem_of_singleton. apply Hany. apply not_eq_None_Some.
    change (row key t ≠ None). rewrite row_None. cbn in *. tauto.
Qed.

(** The window behind the row of a key. *)
Definition sound key lim w now t (st : option (Z * Z)) : Prop :=
  tracks key (w * second) now t st
  ∧ (∀ c s, st = Some (c, s) → (1 ≤ c ≤ lim + 1)%Z ∧ dated s).

Lemma sound_increment key lim w now t st :
  assertRateLimitArguments lim w = None → dated now → keyed t → sound key lim w now t st →
  let st' := Window.step lim (w * second) now st in
  ∃ x, (increment t now key lim w).1 = inr x ∧ x.(allowed) = (st'.1 <=? lim)%Z
  ∧ sound key lim w now (increment t now key lim w).2 (Some st').
Proof.
  intros Hargs Hnow Ht [Htr Hst] st'. unfold increment. rewrite Hargs.
  apply assert_None in Hargs as [Hlim Hw]. cbn zeta.
  set (t' := if holds_any _ _ then _ else _).
  assert (Hrow : ∃ r, row key t' = Some r ∧ st' = (r.(request_count), r.(window_started_at))
                      ∧ r.(expires_at) = (r.(window_started_at) + w * second)%Z).
  { unfold t'. rewrite first_holds_any. change (first (is_key key) t) with (row key t).
    unfold tracks in Htr. destruct (row key t) as [r|] eqn:Hr.
    - rewrite bool_decide_eq_true_2, row_upsert, decide_True, Hr by eauto.
      eexists. split; [reflexivity|]. destruct Htr as [-> He]. unfold st', Window.step, upsert.
      cbn [request_count window_started_at expires_at]. rewrite He.
      destruct (Z.leb_spec (r.(window_started_at) + w * second) now), (Z.leb_spec (w * second) (now - r.(window_started_at)));
        try lia; split; try done.
      f_equal. destruct (Hst _ _ eq_refl) as [? _]. case_match; to_prop; lia.
    - rewrite bool_decide_eq_false_2 by (by intros []).
      rewrite row_snoc, Hr. cbn [bucket_key]. rewrite decide_True by done.
      eexists. split; [reflexivity|]. split; [|done]. unfold st', Window.step.
      destruct st as [[c s]|]; [|done]. specialize (Htr c s eq_refl).
      by destruct (Z.leb_spec (w * second) (now - s)); [|lia]. }
  destruct Hrow as (r & Hr & Hr' & He). unfold row in Hr. rewrite Hr.
  assert (Hb : (1 ≤ r.(request_count) ≤ lim + 1)%Z ∧ dated r.(window_started_at)).
  { unfold st', Window.step in Hr'. destruct st as [[c s]|].
    - destruct (Hst c s eq_refl). case_match; injection Hr' as <- <-; split; (done || lia).
    - injection Hr' as <- <-. split; [lia|done]. }
  destruct Hb as [Hc Hs].
  destruct (result_of_ok r now lim w Hnow Hc Hs He ltac:(lia) Hw) as (x & Hx & Ha).
  exists x. split; [done|]. rewrite Hr'. split; [done|]. unfold sound, tracks, row.
  cbn [snd]. rewrite Hr. split; [done|]. by intros c s [= <- <-].
Qed.

Lemma sound_later key lim w now now' t st :
  (now ≤ now')%Z → sound key lim w now t st → sound key lim w now' t st.
Proof.
  intros Hn [Ht Hst]. split; [|done]. unfold tracks in *. case_match; [done|].
  intros c s Heq. specialize (Ht c s Heq). lia.
Qed.

Lemma sound_cleanup key lim w now t st n locked :
  keyed t → sound key lim w now t st → sound key lim w now (cleanupExpiredBuckets t now n locked).2 st.
Proof.
  intros Ht [Htr Hst]. split; [|done]. unfold tracks in *.
  destruct (row_cleanup key t now n locked Ht) as [_ [->|[-> (r & Hr & He)]]]; [done|].
  rewrite Hr in Htr. destruct Htr as [-> Hexp]. intros c s [= <- <-]. lia.
Qed.

Lemma pg_window key lim w t st now l :
  keyed t → sound key lim w now t st → assertRateLimitArguments lim w = None →
  Forall dated (op_time <$> l) → StronglySorted Z.le (now :: (op_time <$> l)) →
  (∀ r, r ∈ pg_requests l → r.(req_key) = key → r.(req_limit) = lim ∧ r.(req_window) = w) →
  decisions key (pg_serve t l).1 = Window.trace lim (w * second) st (times key (pg_requests l)).
Proof.
  revert t st now. induction l as [|o l IH]; intros t st now Ht Hs Hargs Hd Hsort Hkey; [done|].
  rewrite fmap_cons in Hd, Hsort. apply Forall_cons in Hd as [Hdo Hd].
  inversion Hsort as [|? ? Hsort' Hle]; subst. apply Forall_cons in Hle as [Hle _].
  apply (sound_later _ _ _ _ _ _ _ Hle) in Hs. destruct o as [r|now' n locked]; cbn [op_time] in *.
  - unfold pg_requests in Hkey |- *. cbn [omap list_omap] in Hkey |- *.
    fold (omap (λ o, match o with Request r => Some r | Cleanup _ _ _ => None end) l) in Hkey |- *.
    fold (pg_requests l) in Hkey |- *. cbn [pg_serve].
    pose proof (keyed_increment t r.(at_) r.(req_key) r.(req_limit) r.(req_window) Ht) as Ht'.
    assert (Hkey' : ∀ r, r ∈ pg_requests l → r.(req_key) = key → r.(req_limit) = lim ∧ r.(req_window) = w)
      by (intros r' Hr'; apply Hkey; by right).
    destruct (decide (r.(req_key) = key)) as [Hrk|Hrk].
    + destruct (Hkey r) as [Hrl Hrw]; [by left|done|]. rewrite Hrk, Hrl, Hrw in *.
      destruct (sound_increment key lim w _ t st Hargs Hdo Ht Hs) as (x & Hx & Ha & Hs').
      destruct (increment t r.(at_) key lim w) as [res t']. cbn [fst snd] in *. subst res.
      specialize (IH _ _ _ Ht' Hs' Hargs Hd Hsort' Hkey').
      destruct (pg_serve t' l) as [out t'']. cbn [fst] in *. unfold decisions, times in *.
      rewrite !keep_cons. cbn [fst]. rewrite bool_decide_eq_true_2 by done.
      rewrite !fmap_cons. cbn [fst snd Window.trace]. by rewrite IH, Ha.
    + pose proof (row_increment_other key t r.(at_) r.(req_key) r.(req_limit) r.(req_window) ltac:(congruence)) as Hrow.
      destruct (increment t _ _ _ _) as [res t']. cbn [fst snd] in *.
      assert (Hs' : sound key lim w r.(at_) t' st) by (unfold sound, tracks in *; by rewrite Hrow).
      specialize (IH _ _ _ Ht' Hs' Hargs Hd Hsort' Hkey').
      destruct (pg_serve t' l) as [out t'']. cbn [fst] in *. unfold decisions, times in *.
      rewrite !keep_cons. cbn [fst]. by rewrite bool_decide_eq_false_2.
  - cbn [pg_serve]. apply (IH _ _ now'); try done.
    + by apply (row_cleanup key).
    + by apply sound_cleanup.
Qed.
End postgres_serve.

Lemma times_bounded key P l :
  Forall P (op_time <$> l) → Forall P (times key (pg_requests l)).
Proof.
  rewrite !Forall_forall. intros HP t (r & -> & [_ Hr]%elem_of_keep)%list_elem_of_fmap.
  apply list_elem_of_omap in Hr as (o & Ho & Heq). destruct o as [r'|]; [|done].
  injection Heq as ->. apply HP, list_elem_of_fmap. by exists (Request r).
Qed.

Lemma times_sorted key l :
  StronglySorted Z.le (op_time <$> l) → StronglySorted Z.le (times key (pg_requests l)).
Proof.
  induction l as [|o l IH]; [constructor|]. rewrite fmap_cons. intros Hs.
  inversion Hs as [|? ? Hs' Hle]; subst. specialize (IH Hs').
  apply (times_bounded key) in Hle. destruct o as [r|]; [|exact IH].
  unfold times, pg_requests in *. cbn [omap list_omap]. rewrite keep_cons.
  case_match; [|exact IH]. rewrite fmap_cons. by constructor.
Qed.

(** C40: the shared store decides each key like a fixed window too, with any requests of other keys
    and any cleanups (of any batch size, skipping any locked rows) in between: deleting expired
    rows never changes an answer, and the store never reports itself unavailable; so no
    interval as long as the window admits more than twice the limit. *)
Theorem postgres_rate_bound l key lim w a :
  assertRateLimitArguments lim w = None →
  (∀ r, r ∈ pg_requests l → r.(req_key) = key → r.(req_limit) = lim ∧ r.(req_window) = w) →
  Forall dated (op_time <$> l) → StronglySorted Z.le (op_time <$> l) →
  let W := (w * Postgres.second)%Z in
  let out := decisions key (pg_serve [] l).1 in
  out = Window.trace lim W None (times key (pg_requests l))
  ∧ (Window.admitted a (a + W) out ≤ 2 * lim)%Z.
Proof.
  intros Hargs Hkey Hd Hsort W out.
  assert (out = Window.trace lim W None (times key (pg_requests l))) as Hout.
  { destruct l as [|o l]; [done|].
    apply (pg_window key lim w [] None (op_time o)); try done; [by apply NoDup_nil|].
    apply SSorted_cons; [done|]. rewrite fmap_cons in *. inversion Hsort; subst. by constructor. }
  split; [done|]. rewrite Hout. apply assert_None in Hargs as [Hlim Hw].
  apply Window.admitted_any; [unfold W, Postgres.second; lia|lia|done|].
  by apply times_sorted.
Qed.

(** ** Witnesses *)

(** Three keys on a store of two; [k1] asks four times with a limit of 2. *)
Definition demo_requests : list request :=
  [mkRequest 0 "k1" 2 60; mkRequest 10 "k2" 5 60; mkRequest 20 "k1" 2 60;
   mkRequest 30 "k1" 2 60; mkRequest 60000 "k1" 2 60].

Lemma memory_lru_witness :
  Forall accepted (demo_requests ++ [mkRequest 70000 "k3" 5 60])
  ∧ keys (Memory.counters (serve (new_store 2) (demo_requests ++ [mkRequest 70000 "k3" 5 60])).2)
    = ["k1"; "k3"].
Proof.
  assert (Ha : Forall accepted (demo_requests ++ [mkRequest 70000 "k3" 5 60]))
    by (repeat apply Forall_cons_2; (apply Forall_nil_2 || reflexivity)).
  split; [exact Ha|].
  pose proof (memory_lru 2 _ Ha) as [Hk _]. rewrite Hk. reflexivity.
Defined.

Lemma memory_rate_bound_witness :
  decisions "k1" (serve (new_store 2) demo_requests).1
  = [(0, true); (20, true); (30, false); (60000, true)]%Z.
Proof.
  assert (Hs : StronglySorted Z.le (times "k1" demo_requests)).
  { change (times "k1" demo_requests) with [0; 20; 30; 60000]%Z. repeat constructor; lia. }
  assert (Ha : Forall accepted demo_requests)
    by (repeat apply Forall_cons_2; (apply Forall_nil_2 || reflexivity)).
  assert (Hk : ∀ r, r ∈ demo_requests → r.(req_key) = "k1" → r.(req_limit) = 2%Z ∧ r.(req_window) = 60%Z).
  { intros r Hr Hk. unfold demo_requests in Hr.
    repeat (apply elem_of_cons in Hr as [->|Hr]; [split; (reflexivity || discriminate)|]).
    by apply not_elem_of_nil in Hr. }
  pose proof (memory_rate_bound 2 demo_requests "k1" 2 60 0 Ha ltac:(vm_compute; lia) Hk
                ltac:(reflexivity) Hs) as [Hd _].
  rewrite Hd. reflexivity.
Defined.

(** The cleanup after the window of [k1] does not change its last answer. *)
Definition demo_ops : list pg_op :=
  [Request (mkRequest 0 "k1" 1 60); Request (mkRequest 10 "k2" 5 60);
   Request (mkRequest 20 "k1" 1 60); Cleanup 60000000 10 (λ _, false);
   Request (mkRequest 60000000 "k1" 1 60)].

Lemma postgres_rate_bound_witness :
  decisions "k1" (pg_serve [] demo_ops).1 = [(0, true); (20, false); (60000000, true)]%Z.
Proof.
  assert (Hs : StronglySorted Z.le (op_time <$> demo_ops)).
  { change (op_time <$> demo_ops) with [0; 10; 20; 60000000; 60000000]%Z. repeat constructor; lia. }
  assert (Hd : Forall dated (op_time <$> demo_ops)).
  { change (op_time <$> demo_ops) with [0; 10; 20; 60000000; 60000000]%Z.
    repeat constructor; unfold dated; lia. }
  assert (Hk : ∀ r, r ∈ pg_requests demo_ops → r.(req_key) = "k1" → r.(req_limit) = 1%Z ∧ r.(req_window) = 60%Z).
  { intros r Hr Hk. unfold pg_requests, demo_ops in Hr. cbn [omap list_omap] in Hr.
    repeat (apply elem_of_cons in Hr as [->|Hr]; [split; (reflexivity || discriminate)|]).
    by apply not_elem_of_nil in Hr. }
  pose proof (postgres_rate_bound demo_ops "k1" 1 60 0 ltac:(reflexivity) Hk Hd Hs) as [Ho _].
  rewrite Ho. reflexivity.
Defined.
