(* ===== verification/Media.v ===== *)
(** Stored media objects.

    Models the ownership checks of lib/storage.ts and the reservation protocol of
    services/media-reference-lock.ts.  S3 and the parsing of a media URL are the
    typeclass [Storage]; the objects deleted from storage are recorded in
    [t_deleted_media]. *)

From S2P Require Import Prelude Js TenantDb.
From Stdlib Require Import Ascii.

(** A nullable string is truthy when it is present and non-empty. *)
Definition filled (o : option string) : bool :=
  match o with Some (String _ _) => true | _ => false end.

(** [s || undefined], [s || null] *)
Definition filled_or_null (o : option string) : option string := if filled o then o else None.

(** [s.includes(sub)] *)
Definition includes (sub s : string) : bool := bool_decide (is_Some (String.index 0 sub s)).

(** /[\0-\x1f\x7f]/ *)
Definition is_control (c : ascii) : bool := (N_of_ascii c <=? 31)%N || (N_of_ascii c =? 127)%N.

(** [key.split("/").pop()] *)
Fixpoint last_segment (acc s : string) : string :=
  match s with
  | EmptyString => acc
  | String c s =>
      if Ascii.eqb c "/" then last_segment "" s
      else last_segment (String.append acc (String c "")) s
  end.
Definition baseName (key : string) : string := last_segment "" key.

(** What S3 answers to HeadObject. *)
Record HeadObject := mkHead {
  ho_tenant_id : option string; ho_original_filename : option string; ho_sha256 : option string;
  ho_ContentLength : option Z; ho_ContentType : option string;
  ho_dispositionName : option string  (* the file name in ContentDisposition *) }.

Inductive head_outcome :=
| head_found (object : HeadObject)
| head_not_found  (* NotFound, or HTTP status 404 *)
| head_failed (message : string).

Class Storage := {
  (** The percent-decoded object key that a media URL names in the configured
      bucket; [None] when [new URL] or the checks of the bucket throw. *)
  decodedKey : string → option string;
  headObject : string → head_outcome;
  (** Whether S3 accepts a DeleteObject. *)
  deleteAccepted : string → bool;
  (** [s3://<bucket>/<encoded key>] *)
  getPrivateMediaReference : string → string }.

(** ** lib/storage.ts *)

Inductive media_head :=
| media_found (reference : MediaObjectReference)
| media_missing
| media_error (message : string).

Section media.
Context `{Storage}.

Definition tenant_prefix (companyId : string) : string :=
  String.append "media/" (String.append companyId "/").

Definition owned_key (companyId key : string) : bool :=
  String.prefix (tenant_prefix companyId) key
  && (String.length (tenant_prefix companyId) <? String.length key)%nat
  && negb (includes ".." key) && negb (includes "\" key)
  && negb (existsb is_control (String.list_ascii_of_string key)).

Definition resolveMediaKeyForCompany (mediaUrl companyId : string) : option string :=
  match decodedKey mediaUrl with
  | Some key => if owned_key companyId key then Some key else None
  | None => None
  end.

Definition getMediaObjectReference (mediaUrl companyId : string) : media_head :=
  match resolveMediaKeyForCompany mediaUrl companyId with
  | None => media_error "Media object does not belong to the active tenant"
  | Some key =>
      match headObject key with
      | head_not_found => media_missing
      | head_failed message => media_error message
      | head_found object =>
          if filled object.(ho_tenant_id)
             && negb (bool_decide (object.(ho_tenant_id) = Some companyId))
          then media_error "Media object metadata belongs to another tenant"
          else
            let size := default 0%Z object.(ho_ContentLength) in
            if (size <=? 0)%Z || (50 * 1024 * 1024 <? size)%Z
            then media_error "Media object size is outside the supported limit"
            else
              let or_else o d := match o with Some (String _ _ as x) => x | _ => d end in
              media_found (mkMedia key
                (or_else object.(ho_ContentType) "application/octet-stream")
                (or_else object.(ho_original_filename)
                   (or_else object.(ho_dispositionName) (or_else (Some (baseName key)) "file")))
                size object.(ho_sha256))
      end
  end.

(** [deleteMedia(resolveMediaKeyForCompany(mediaUrl, companyId))] inside the
    callers' try block, which logs any failure. *)
Definition try_deleteMedia (mediaUrl companyId : string) : M unit :=
  match resolveMediaKeyForCompany mediaUrl companyId with
  | Some key => when (deleteAccepted key) (insert_row deleted_media key)
  | None => mret tt
  end.

(** ** media-reference-lock.ts *)

(** The distinct owned keys, sorted. *)
Definition ownedMediaKeys (references : list (option string)) (companyId : string) : list string :=
  merge_sort String.le (remove_dups (omap (λ reference,
    match reference with
    | Some (String _ _ as r) => resolveMediaKeyForCompany r companyId
    | _ => None
    end) references)).

Definition MEDIA_DELETING_MARKER : string := "deleting".

Definition findMediaDeletionIntents (keys : list string) : M (list string) :=
  match keys with
  | [] => mret []
  | _ =>
      rows ← select purge_cleanup_items (λ r,
        bool_decide (r.(pc_kind) = "media")
        && bool_decide (r.(pc_last_error) = Some MEDIA_DELETING_MARKER)
        && match r.(pc_media_key) with Some k => bool_decide (k ∈ keys) | None => false end);
      mret (omap pc_media_key rows)
  end.

(** The advisory locks serialise the transactions that hold a key; a transaction
    body runs as one step. *)
Definition reserveMediaReferences (companyId : string) (references : list (option string)) : M unit :=
  match ownedMediaKeys references companyId with
  | [] => mret tt
  | keys =>
      reclaimed ← findMediaDeletionIntents keys;
      match reclaimed with
      | [] => mret tt
      | _ => throw (ConflictError "This media attachment is no longer available - upload it again")
      end
  end.
End media.
