(* ===== verification/Outbound.v ===== *)
(** Building blocks of sending a message.

    Models getActiveSessionId (services/whatsapp/session.ts), isConfirmedQuote
    (lib/message-quote.ts), buildSendMessageCommand and buildCommandSubject
    (lib/nats/client.ts), enqueueCommand (services/command-outbox.service.ts) and
    insertNeutralOutboundSend (services/channel-outbound.service.ts).  The dual write of
    linked devices (channel-spine/application/shadow.ts), which a company's flag turns on,
    is not modelled. *)

From S2P Require Import Prelude Js SpineRows TenantDb SpineDb Workflow Fanout Media.

(** ** Sessions *)

(** [ORDER BY created_at DESC] *)
Definition newer_session (a b : session_row) : Prop := (b.(ws_created_at) ≤ a.(ws_created_at))%Z.
#[export] Instance newer_session_dec : RelDecision newer_session.
Proof. intros a b. unfold newer_session. apply _. Defined.

Definition getActiveSessionId (connectionId : string) : M string :=
  l ← select whatsapp_connection_sessions (λ r,
    bool_decide (r.(ws_whatsapp_connection_id) = connectionId)
    && bool_decide (r.(ws_ended_at) = None));
  match head (merge_sort newer_session l) with
  | Some session => mret session.(ws_id)
  | None => throw (NotFoundError (String.append "WhatsApp connection " connectionId))
  end.

(** ** Quotes *)

Definition isConfirmedQuote (m : message_row) : bool :=
  match m.(ms_message_id) with
  | Some (String _ _ as message_id) =>
      negb (String.prefix "pending_" message_id)
      && (negb m.(ms_from_me) || bool_decide (m.(ms_status) ∈ ["sent"; "delivered"; "read"]))
  | _ => false
  end.

(** ** Commands *)

Definition MEDIA_MESSAGE_TYPES : list string := ["image"; "video"; "audio"; "document"; "sticker"].

Section outbound.
Context `{Oracle} `{Storage}.

Definition buildSendMessageCommand (companyId connectionId : string) (jid content : jsstring)
    (messageType userId pendingMessageId : string) (mediaUrl replyTo : option string)
    (replyToSender : option jsstring) : M send_command :=
  let media_type := bool_decide (messageType ∈ MEDIA_MESSAGE_TYPES) in
  let command content caption media :=
    mkSendCommand pendingMessageId connectionId jid messageType content caption media userId
      replyTo replyToSender in
  match mediaUrl with
  | Some (String _ _ as url) =>
      if media_type then
        match getMediaObjectReference url companyId with
        | media_found reference =>
            mret (command [] (if truthy (Some content) then Some content else None) (Some reference))
        | _ => throw (OtherError "Invalid media object for sending")
        end
      else mret (command content None None)
  | _ =>
      if media_type
      then throw (OtherError (String.append "mediaUrl is required for " (String.append messageType " messages")))
      else mret (command content None None)
  end.

Definition buildCommandSubject (companyId connectionId : string) : string :=
  String.append "WHATSAPP.commands." (String.append companyId (String.append "." connectionId)).

(** The advisory lock on the recipient serialises acceptances; an operation runs as one
    step. *)
Definition enqueueCommand (subject : string) (payload : command_payload) : M string :=
  id ← randomUUID;
  databaseNow ← statement_timestamp;
  _ ← insert_row command_outbox
        (mkCommand id subject payload command_pending 0 databaseNow None databaseNow None);
  mret id.

(** ** Messages *)

(** The sequence behind the column default of messages.seq: above every value in
    the table. *)
Definition next_seq (l : list message_row) : Z :=
  foldr Z.max 0%Z (omap ms_seq l) + 1.

(** INSERT INTO messages: the sequence numbers the row. *)
Definition insert_message (r : Z → message_row) : M unit :=
  l ← select messages (λ _, true);
  insert_row messages (r (next_seq l)).

Record NeutralSend := mkNeutralSend {
  ns_companyId : string; ns_actorUserId : string; ns_contactId : option string; ns_conversationId : string;
  ns_channelAccountId : string; ns_content : jsstring; ns_messageType : string;
  ns_mediaUrl : option string; ns_caseId : option string;
  ns_replyToMessageId : option string; ns_replyToExternalMessageId : option string;
  ns_idempotencyKey : string }.

(** The message, its fan-out, the conversation's activity and the intent, in the caller's
    transaction. *)
Definition insertNeutralOutboundSend (input : NeutralSend) : M string :=
  messageId ← randomUUID;
  now ← toDbDate;
  created_at ← db_now;
  _ ← insert_message (λ seq,
    mkMessage messageId None input.(ns_contactId) (Some input.(ns_conversationId)) None None
      true None input.(ns_messageType) input.(ns_content) input.(ns_mediaUrl) None None None
      (Some input.(ns_actorUserId)) "pending" now created_at input.(ns_caseId) (Some seq)
      (Some input.(ns_channelAccountId)) (Some input.(ns_idempotencyKey))
      input.(ns_replyToMessageId) None false None
      (mkNeutral (Some dir_outbound) None None (Some input.(ns_messageType)) None
         (Some input.(ns_content)) None (Some no_metadata) None None));
  _ ← enqueueOutboundRealtimeFanout input.(ns_companyId) input.(ns_channelAccountId)
        input.(ns_conversationId) messageId;
  occurredAt ← toDbDate;
  _ ← recordOutboundConversationActivity input.(ns_conversationId) input.(ns_contactId)
        (Some input.(ns_content)) occurredAt;
  id ← randomUUID; created_at ← db_now;
  _ ← insert_row outbound_message_intents
        (mkIntent id input.(ns_channelAccountId) input.(ns_conversationId) (Some messageId) "send"
           input.(ns_idempotencyKey)
           (mkPayload (Some input.(ns_messageType)) (Some input.(ns_content))
              (Some input.(ns_actorUserId)) input.(ns_replyToExternalMessageId)
              (filled_or_null input.(ns_mediaUrl)))
           intent_pending 0 created_at None None None None created_at created_at);
  mret messageId.
End outbound.
