(* ===== verification/ChannelOutbound.v ===== *)
(** The dispatcher of neutral intents.

    Models services/channel-outbound.service.ts (the insertion of an intent is in
    [Outbound.v]), services/channel-spine-authority.service.ts and
    channel-spine/application/adapter-registry.ts.  An intent is leased under a fresh
    token, its actor's authority is checked again, the channel's adapter is called
    outside of any transaction, and the outcome is written under the token.  The
    adapters are a parameter; what the dispatcher only reads besides the tenant's
    tables is the record [directory]. *)

From S2P Require Import Prelude Js SpineRows TenantDb Exec Steady Workflow Fanout Permissions Media Outbound.

(** ** Workspace flags *)

Inductive flag_source := configured | absent | invalid | unavailable.
#[export] Instance flag_source_eq : EqDecision flag_source.
Proof. solve_decision. Defined.

(** A row of channel_spine_workspace_flags; [write_authority] and [revision] are read as
    strings, an absent list of providers is [None]. *)
Record flag_row := mkFlags {
  fl_dual_write_enabled : bool; fl_dual_write_revision : option jsstring;
  fl_neutral_reads_enabled : bool; fl_neutral_read_revision : option jsstring;
  fl_shadow_normalization_enabled : bool; fl_shadow_normalization_revision : option jsstring;
  fl_write_authority : string; fl_write_authority_revision : option jsstring;
  fl_enabled_providers : option (list jsstring); fl_provider_enable_revision : option jsstring;
  fl_revision : option jsstring }.

Record WorkspaceAuthority := mkAuthority {
  wa_dualWriteEnabled : bool; wa_neutralReadsEnabled : bool;
  wa_shadowNormalizationEnabled : bool; wa_writeAuthority : string;
  wa_enabledProviders : list jsstring; wa_source : flag_source }.

Definition legacyAuthority (source : flag_source) : WorkspaceAuthority :=
  mkAuthority false false false "legacy" [] source.

Definition nonBlank (value : option jsstring) : bool :=
  match value with Some s => (0 <? length (trim s))%nat | None => false end.

(** [/^\d+$/] and at least one. *)
Definition positive_revision (value : option jsstring) : bool :=
  match value with
  | Some ((_ :: _) as s) => forallb is_digit s && existsb (λ c, negb (c =? 48)%Z) s
  | _ => false
  end.

(** isValid, in the order of its early returns. *)
Definition isValid (value : flag_row) : bool :=
  if negb (positive_revision value.(fl_revision)) then false
  else if negb (bool_decide (value.(fl_write_authority) ∈ ["legacy"; "neutral"])) then false
  else if value.(fl_dual_write_enabled) && negb (nonBlank value.(fl_dual_write_revision)) then false
  else if value.(fl_neutral_reads_enabled) && negb (nonBlank value.(fl_neutral_read_revision)) then false
  else if value.(fl_shadow_normalization_enabled) && negb (nonBlank value.(fl_shadow_normalization_revision))
  then false
  else if bool_decide (value.(fl_write_authority) = "neutral")
          && negb (nonBlank value.(fl_write_authority_revision)) then false
  else match value.(fl_enabled_providers) with
       | None => false
       | Some providers =>
           if existsb (λ key, negb (nonBlank (Some key))) providers
              || negb (bool_decide (NoDup providers)) then false
           else bool_decide (length providers = 0) || nonBlank value.(fl_provider_enable_revision)
       end.

(** [None]: the query failed; [Some None]: no row. *)
Definition getChannelSpineWorkspaceAuthority (row : option (option flag_row)) : WorkspaceAuthority :=
  match row with
  | None => legacyAuthority unavailable
  | Some None => legacyAuthority absent
  | Some (Some row) =>
      if isValid row
      then mkAuthority row.(fl_dual_write_enabled) row.(fl_neutral_reads_enabled)
             row.(fl_shadow_normalization_enabled) row.(fl_write_authority)
             (default [] row.(fl_enabled_providers)) configured
      else legacyAuthority invalid
  end.

Definition isChannelProviderEnabled (authority : WorkspaceAuthority) (provider : jsstring) : bool :=
  bool_decide (authority.(wa_source) = configured)
  && bool_decide (provider ∈ authority.(wa_enabledProviders)).

(** ** Channels, accounts and adapters *)

Definition CHANNELS : list jsstring :=
  js <$> ["whatsapp"; "messenger"; "instagram"; "telegram"; "line"; "viber"; "email"].
Definition PROVIDERS : list jsstring :=
  js <$> ["whatsapp_linked_device"; "meta_cloud"; "telegram_bot"; "line_messaging"; "viber_bot";
          "gmail"; "microsoft_graph"; "imap_smtp"].
Definition isChannel (value : jsstring) : bool := bool_decide (value ∈ CHANNELS).
Definition isChannelProvider (value : jsstring) : bool := bool_decide (value ∈ PROVIDERS).

(** The columns of channel_accounts that the dispatcher reads. *)
Record account_row := mkAccount {
  ac_id : string; ac_channel : jsstring; ac_provider : jsstring; ac_status : string;
  ac_legacy_whatsapp_connection_id : option string; ac_archived_at : option Z }.

(** What a dispatcher reads besides the tenant's other tables: the company's flags and
    members, its channel accounts, and whether its indexes are ready. *)
Record directory := mkDirectory {
  dr_flags : option (option flag_row); dr_members : list member_row;
  dr_accounts : list account_row; dr_ready : bool }.

Record ClaimedIntent := mkClaimed {
  cl_id : string; cl_companyId : string; cl_channelAccountId : string; cl_conversationId : string;
  cl_messageId : option string; cl_operation : string; cl_idempotencyKey : string;
  cl_payload : intent_payload; cl_attemptKey : string; cl_leaseToken : string;
  cl_provider : jsstring; cl_channel : jsstring }.

Inductive failure_outcome := transient_failure | permanent_failure | uncertain.
#[export] Instance failure_outcome_eq : EqDecision failure_outcome.
Proof. solve_decision. Defined.

(** accepted or confirmed, or a failure. *)
Inductive ProviderSendResult :=
| Delivered (confirmed : bool) (providerRequestId externalMessageId externalIdentityScope : option string)
| SendFailed (outcome : failure_outcome) (errorCode : string) (retryAfterMs : option Z)
    (providerRequestId : option string).

(** The outcome of a failed action; [None] is unsupported. *)
Inductive ProviderActionResult :=
| ActionDone (confirmed : bool) (providerRequestId : option string)
| ActionFailed (outcome : option failure_outcome) (errorCode : string) (retryAfterMs : option Z).

(** The capabilities that the dispatcher looks at. *)
Record ResolvedCapabilities := mkCapabilities { version : jsstring; outboundInitiation : bool }.

Definition unavailableCapabilities (reasonCode : jsstring) : ResolvedCapabilities :=
  mkCapabilities (js "unavailable:" ++ reasonCode) false.

Record ChannelAdapter := mkAdapter {
  resolveCapabilities : ClaimedIntent → M ResolvedCapabilities;
  send : ClaimedIntent → M ProviderSendResult;
  perform : ClaimedIntent → string → M ProviderActionResult }.

(** The registered adapters, by channel and provider. *)
Definition ChannelAdapterRegistry : Type := list (jsstring * jsstring * ChannelAdapter).

Definition registry_get (registry : ChannelAdapterRegistry) (channel provider : jsstring)
    : option ChannelAdapter :=
  snd <$> first (λ x, bool_decide (x.1 = (channel, provider))) registry.

(** register throws on an unknown channel or provider and on a second adapter. *)
Definition register (registry : ChannelAdapterRegistry) (channel provider : jsstring)
    (adapter : ChannelAdapter) : option ChannelAdapterRegistry :=
  if negb (isChannel channel) then None
  else if negb (isChannelProvider provider) then None
  else match registry_get registry channel provider with
       | Some _ => None
       | None => Some (registry ++ [(channel, provider, adapter)])
       end.

Section outbound.
Context `{Oracle}.
Context (companyId : string) (registry : ChannelAdapterRegistry).

Definition LEASE_MS : Z := 30000.

(** The adapter of a claim, or the registry's error. *)
Definition adapter_of (claim : ClaimedIntent) : M ChannelAdapter :=
  match registry_get registry claim.(cl_channel) claim.(cl_provider) with
  | Some adapter => mret adapter
  | None => throw (OtherError "Channel adapter is not registered")
  end.

Definition resolveAdapterCapabilities (claim : ClaimedIntent) : M ResolvedCapabilities :=
  catch (adapter ← adapter_of claim;
         capabilities ← adapter.(resolveCapabilities) claim;
         mret (match trim capabilities.(version) with
               | [] => unavailableCapabilities (js "invalid-capability-revision")
               | _ => capabilities
               end))
        (λ _, mret (unavailableCapabilities (js "capability-resolution-unavailable"))).

(** ** Claiming *)

Definition account (D : directory) (id : string) : option account_row :=
  first (λ a, bool_decide (a.(ac_id) = id)) D.(dr_accounts).

(** A linked device is online when its connection is; any other account by its own status. *)
Definition account_online (connections : list connection_row) (a : account_row) : bool :=
  match a.(ac_legacy_whatsapp_connection_id) with
  | None => bool_decide (a.(ac_status) = "connected")
  | Some c => existsb (λ w, bool_decide (w.(wc_id) = c) && bool_decide (w.(wc_status) = connected)) connections
  end.

(** The WHERE clause of a claim, the two inner joins included. *)
Definition deliverable (D : directory) (authority : WorkspaceAuthority) (connections : list connection_row)
    (conversations : list conversation_row) (now : Z) (r : intent_row) : bool :=
  bool_decide (r.(it_status) = intent_pending) && (r.(it_next_attempt_at) <=? now)%Z
  && match account D r.(it_channel_account_id) with
     | None => false
     | Some a => is_null a.(ac_archived_at) && account_online connections a
                 && bool_decide (a.(ac_provider) ∈ authority.(wa_enabledProviders))
     end
  && existsb (λ c, bool_decide (c.(cv_id) = r.(it_conversation_id)) && is_null c.(cv_archived_at)) conversations.

(** [ORDER BY next_attempt_at, created_at] *)
Definition due_first (a b : intent_row) : Prop :=
  (a.(it_next_attempt_at) < b.(it_next_attempt_at))%Z
  ∨ (a.(it_next_attempt_at) = b.(it_next_attempt_at) ∧ (a.(it_created_at) ≤ b.(it_created_at))%Z).
#[export] Instance due_first_dec : RelDecision due_first.
Proof. intros a b. unfold due_first. apply _. Defined.

(** The columns that the dispatcher writes. *)
Definition it_update (r : intent_row) (status : intent_status) (attempts next_attempt_at : Z)
    (lease : option (string * Z)) (provider_request_id last_error_code : option string)
    (updated_at : Z) : intent_row :=
  mkIntent r.(it_id) r.(it_channel_account_id) r.(it_conversation_id) r.(it_message_id)
    r.(it_operation) r.(it_idempotency_key) r.(it_payload) status attempts next_attempt_at
    (fst <$> lease) (snd <$> lease) provider_request_id last_error_code r.(it_created_at) updated_at.

Definition lease_intent (token : string) (expires updated_at : Z) (r : intent_row) : intent_row :=
  it_update r intent_dispatching (r.(it_attempts) + 1) r.(it_next_attempt_at) (Some (token, expires))
    r.(it_provider_request_id) r.(it_last_error_code) updated_at.

Definition pending_intent (id : string) (r : intent_row) : bool :=
  bool_decide (r.(it_id) = id) && bool_decide (r.(it_status) = intent_pending).

(** [locked]: the rows that other transactions hold. *)
Definition claim_intent (D : directory) (authority : WorkspaceAuthority) (locked : intent_row → bool)
    : M (option ClaimedIntent) :=
  transaction (
    now ← toDbDate;
    connections ← select whatsapp_connections (λ _, true);
    conversations ← select conversations (λ _, true);
    l ← select outbound_message_intents (λ r,
      deliverable D authority connections conversations now r && negb (locked r));
    match head (merge_sort due_first l) with
    | None => mret None
    | Some row =>
        match account D row.(it_channel_account_id) with
        | None => mret None
        | Some a =>
            if negb (isChannel a.(ac_channel) && isChannelProvider a.(ac_provider)) then mret None
            else if negb (isChannelProviderEnabled authority a.(ac_provider)) then mret None
            else
              leaseToken ← randomUUID;
              leased_at ← toDbDate;
              updated_at ← toDbDate;
              updated ← update_returning outbound_message_intents (pending_intent row.(it_id))
                          (lease_intent leaseToken (leased_at + LEASE_MS) updated_at);
              match updated with
              | [] => mret None
              | _ =>
                  mret (Some (mkClaimed row.(it_id) companyId row.(it_channel_account_id)
                    row.(it_conversation_id) row.(it_message_id) row.(it_operation)
                    row.(it_idempotency_key) row.(it_payload)
                    (String.append row.(it_id) (String.append ":" (pretty (row.(it_attempts) + 1)%Z)))
                    leaseToken a.(ac_provider) a.(ac_channel)))
              end
        end
    end).

(** ** Authority *)

Definition intentActorUserId (p : intent_payload) : option string := filled_or_null p.(np_actorUserId).

Definition member_of (D : directory) (userId : string) : option (CompanyMemberRole * MemberPermissions) :=
  getMemberWithPermissions D.(dr_members) companyId userId.

(** The active assignments of a conversation or of its linked contact. *)
Definition assignment_of_thread (conversationId : string) (contactId : option string) (r : assignment_row) : bool :=
  is_null r.(ca_unassigned_at)
  && (is_id conversationId r.(ca_conversation_id)
      || match contactId with Some (String _ _ as c) => is_id c r.(ca_contact_id) | _ => false end).

(** The account of the conversation is online and neither is archived. *)
Definition thread_live (D : directory) (connections : list connection_row)
    (c : conversation_row) : bool :=
  match account D c.(cv_channel_account_id) with
  | None => false
  | Some a => is_null c.(cv_archived_at) && is_null a.(ac_archived_at) && account_online connections a
  end.

Definition isClaimStillAuthorized (D : directory) (claim : ClaimedIntent) : M bool :=
  match intentActorUserId claim.(cl_payload) with
  | None => mret false
  | Some actorUserId =>
      match member_of D actorUserId with
      | None => mret false
      | Some (_, permissions) =>
          if negb (permissions can_send_messages) then mret false
          else
            connections ← select whatsapp_connections (λ _, true);
            conversation ← select_first conversations (λ c,
              bool_decide (c.(cv_id) = claim.(cl_conversationId))
              && bool_decide (c.(cv_channel_account_id) = claim.(cl_channelAccountId)));
            match conversation with
            | None => mret false
            | Some conversation =>
                if negb (thread_live D connections conversation) then mret false
                else
                  reachable ←
                    match conversation.(cv_legacy_contact_id) with
                    | Some (String _ _ as contactId) =>
                        contact ← select_first contacts (λ c, bool_decide (c.(ct_id) = contactId));
                        mret (match contact with Some c => negb c.(ct_is_blocked) | None => false end)
                    | _ => mret true
                    end;
                  if negb (reachable : bool) then mret false
                  else
                    assignment ← select_first assignments
                      (assignment_of_thread claim.(cl_conversationId) conversation.(cv_legacy_contact_id));
                    mret (match assignment with
                          | Some a => bool_decide (a.(ca_assigned_to) = actorUserId)
                          | None => permissions can_view_all_chats
                          end)
            end
      end
  end.

(** ** The provider *)

Definition action_result (r : ProviderActionResult) : ProviderSendResult :=
  match r with
  | ActionDone c providerRequestId => Delivered c providerRequestId None None
  | ActionFailed outcome errorCode retryAfterMs =>
      SendFailed (default permanent_failure outcome) errorCode retryAfterMs None
  end.

(** [operation.slice("action:".length)] *)
Definition action_name (operation : string) : string :=
  String.substring 7 (String.length operation) operation.

Definition call_provider (claim : ClaimedIntent) : M ProviderSendResult :=
  catch
    (capabilities ← resolveAdapterCapabilities claim;
     if negb capabilities.(outboundInitiation) && bool_decide (claim.(cl_operation) = "initiate")
     then mret (SendFailed permanent_failure "outbound_initiation_unsupported" None None)
     else if is_action claim.(cl_operation) then
       adapter ← adapter_of claim;
       action ← adapter.(perform) claim (action_name claim.(cl_operation));
       mret (action_result action)
     else
       adapter ← adapter_of claim;
       adapter.(send) claim)
    (λ _, mret (SendFailed uncertain "adapter_outcome_unknown" None None)).

(** ** The outcome *)

Definition fenced_intent (claim : ClaimedIntent) (r : intent_row) : bool :=
  bool_decide (r.(it_id) = claim.(cl_id)) && bool_decide (r.(it_status) = intent_dispatching)
  && is_id claim.(cl_leaseToken) r.(it_lease_token).

Definition is_message (id : string) (m : message_row) : bool := bool_decide (m.(ms_id) = id).

(** The columns of a message that an outcome writes. *)
Definition ms_update (m : message_row) (message_id external_message_id : option string)
    (content : jsstring) (status : string) (scope : option string) (deleted : bool) (deleted_at : option Z)
    (neutral : message_neutral) : message_row :=
  mkMessage m.(ms_id) m.(ms_whatsapp_connection_id) m.(ms_contact_id) m.(ms_conversation_id)
    message_id external_message_id m.(ms_from_me) m.(ms_sender_jid) m.(ms_message_type) content
    m.(ms_media_url) m.(ms_media_mime_type) m.(ms_file_name) m.(ms_quoted_message_id)
    m.(ms_sent_by_user_id) status m.(ms_timestamp) m.(ms_created_at) m.(ms_case_id) m.(ms_seq)
    m.(ms_channel_account_id) m.(ms_client_idempotency_key) m.(ms_reply_to_message_id)
    scope deleted deleted_at neutral.

Definition delete_message (deleted_at : Z) (m : message_row) : message_row :=
  ms_update m m.(ms_message_id) m.(ms_external_message_id) m.(ms_content) m.(ms_status)
    m.(ms_external_identity_scope) true (Some deleted_at) m.(ms_neutral).
Definition edit_message (content : jsstring) (m : message_row) : message_row :=
  let n := m.(ms_neutral) in
  ms_update m m.(ms_message_id) m.(ms_external_message_id) content m.(ms_status)
    m.(ms_external_identity_scope) m.(ms_deleted_by_sender) m.(ms_deleted_at)
    (mkNeutral n.(nm_direction) n.(nm_sender_participant_id) n.(nm_provider_occurred_at)
       n.(nm_normalized_type) n.(nm_subject) (Some content) n.(nm_sanitized_html_content)
       n.(nm_provider_metadata) n.(nm_sender_name) n.(nm_media_size)).
Definition fail_message (m : message_row) : message_row :=
  ms_update m m.(ms_message_id) m.(ms_external_message_id) m.(ms_content) "failed"
    m.(ms_external_identity_scope) m.(ms_deleted_by_sender) m.(ms_deleted_at) m.(ms_neutral).
Definition deliver_message (confirmed : bool) (externalMessageId externalIdentityScope : option string)
    (m : message_row) : message_row :=
  ms_update m
    (if filled externalMessageId then externalMessageId else m.(ms_message_id))
    (if filled externalMessageId then externalMessageId else m.(ms_external_message_id))
    m.(ms_content) (if confirmed then "sent" else "pending")
    (if filled externalIdentityScope then externalIdentityScope else m.(ms_external_identity_scope))
    m.(ms_deleted_by_sender) m.(ms_deleted_at) m.(ms_neutral).

(** Tells the browsers what became of the message. *)
Definition tell_browsers (claim : ClaimedIntent) (messageId : string) : M unit :=
  enqueueOutboundRealtimeFanout companyId claim.(cl_channelAccountId) claim.(cl_conversationId) messageId.

(** What a delivered intent does to its message. *)
Definition record_delivery (claim : ClaimedIntent) (message_id : option string) (confirmed : bool)
    (externalMessageId externalIdentityScope : option string) : M unit :=
  match message_id with
  | Some (String _ _ as id) =>
      if is_action claim.(cl_operation) then
        if negb confirmed then mret tt
        else if bool_decide (claim.(cl_operation) = "action:delete") then
          deleted_at ← toDbDate;
          _ ← update messages (is_message id) (delete_message deleted_at);
          mret tt
        else if bool_decide (claim.(cl_operation) = "action:edit") then
          match claim.(cl_payload).(np_textContent) with
          | Some textContent => _ ← update messages (is_message id) (edit_message textContent); mret tt
          | None => mret tt
          end
        else mret tt
      else
        _ ← update messages (is_message id) (deliver_message confirmed externalMessageId externalIdentityScope);
        tell_browsers claim id
  | _ => mret tt
  end.

Definition intent_retry_delay (attempts : Z) (retryAfterMs : option Z) : Z :=
  default (Z.min (15 * 60000) (5000 * 2 ^ Z.min attempts 8)) retryAfterMs.

Definition is_claim (claim : ClaimedIntent) (r : intent_row) : bool := bool_decide (r.(it_id) = claim.(cl_id)).

Definition completeClaim (claim : ClaimedIntent) (result : ProviderSendResult) : M unit :=
  transaction (
    fenced ← select_first outbound_message_intents (fenced_intent claim);
    match fenced with
    | None => mret tt
    | Some fenced =>
        updated_at ← toDbDate;
        match result with
        | Delivered confirmed providerRequestId externalMessageId externalIdentityScope =>
            _ ← update outbound_message_intents (is_claim claim) (λ r,
                  it_update r (if confirmed then intent_confirmed else intent_handed_off)
                    r.(it_attempts) r.(it_next_attempt_at) None providerRequestId None updated_at);
            record_delivery claim fenced.(it_message_id) confirmed externalMessageId externalIdentityScope
        | SendFailed outcome errorCode retryAfterMs providerRequestId =>
            now ← toDbDate;
            let transient := bool_decide (outcome = transient_failure) in
            _ ← update outbound_message_intents (is_claim claim) (λ r,
                  it_update r
                    (match outcome with
                     | transient_failure => intent_pending
                     | uncertain => intent_uncertain
                     | permanent_failure => intent_failed
                     end)
                    r.(it_attempts)
                    (if transient then now + intent_retry_delay fenced.(it_attempts) retryAfterMs else now)
                    None providerRequestId (Some errorCode) updated_at);
            match fenced.(it_message_id) with
            | Some (String _ _ as id) =>
                when (bool_decide (outcome = permanent_failure) && negb (is_action claim.(cl_operation)))
                  (_ ← update messages (is_message id) fail_message; tell_browsers claim id)
            | _ => mret tt
            end
        end
    end).

(** ** Leases that ran out *)

Definition expired_intent (now : Z) (r : intent_row) : bool :=
  bool_decide (r.(it_status) = intent_dispatching)
  && match r.(it_lease_expires_at) with Some e => (e <? now)%Z | None => false end.

(** recoverExpiredLeases, for one company; it runs when the service starts. *)
Definition recoverExpiredLeases : M unit :=
  updated_at ← toDbDate;
  now ← toDbDate;
  _ ← update outbound_message_intents (expired_intent now) (λ r,
        it_update r intent_uncertain r.(it_attempts) r.(it_next_attempt_at) None
          r.(it_provider_request_id) (Some "dispatch_lease_expired_outcome_unknown") updated_at);
  mret tt.

(** The turn of one company: [D] is read for the claim, [D'] for the actor's authority. *)
Definition dispatch_outbound (D D' : directory) (locked : intent_row → bool) : M nat :=
  let authority := getChannelSpineWorkspaceAuthority D.(dr_flags) in
  if negb (bool_decide (authority.(wa_writeAuthority) = "neutral")) then mret 0
  else if negb D.(dr_ready) then mret 0
  else
    claim ← claim_intent D authority locked;
    match claim with
    | None => mret 0
    | Some claim =>
        authorized ← isClaimStillAuthorized D' claim;
        if negb (authorized : bool) then
          _ ← completeClaim claim
                (SendFailed permanent_failure "authorization_or_resource_state_revoked" None None);
          mret 1
        else
          result ← call_provider claim;
          _ ← completeClaim claim result;
          mret 1
    end.
End outbound.

(** ** The system *)

(** The steps of services and dispatchers; a dispatcher may complete any claim it once
    made, however late, and the recovery may run at any time. *)
Inductive intent_op :=
| AddIntent (r : intent_row)
| ClaimNext (D : directory) (locked : intent_row → bool)
| Complete (claim : ClaimedIntent) (result : ProviderSendResult)
| Recover.

(** Events: an intent goes to its adapter; it comes back to wait. *)
Inductive intent_event := Handed (id : string) | Returned (id : string).

Definition event_intent (e : intent_event) : string := match e with Handed i | Returned i => i end.

(** The columns of a new intent that have defaults. *)
Definition new_intent (r : intent_row) : intent_row :=
  it_update r intent_pending 0 r.(it_next_attempt_at) None None None r.(it_updated_at).

Section system.
Context `{Oracle} (companyId : string).

Definition intent_step (op : intent_op) : M (option intent_event) :=
  match op with
  | AddIntent r => _ ← insert_row outbound_message_intents (new_intent r); mret None
  | ClaimNext D locked =>
      claim ← claim_intent companyId D (getChannelSpineWorkspaceAuthority D.(dr_flags)) locked;
      mret ((λ c, Handed c.(cl_id)) <$> claim)
  | Complete claim result =>
      fenced ← select_first outbound_message_intents (fenced_intent claim);
      _ ← completeClaim companyId claim result;
      mret (match fenced, result with
            | Some _, SendFailed transient_failure _ _ _ => Some (Returned claim.(cl_id))
            | _, _ => None
            end)
  | Recover => _ ← recoverExpiredLeases; mret None
  end.

Fixpoint intent_run (ops : list intent_op) (s : db) : list intent_event * db :=
  match ops with
  | [] => ([], s)
  | op :: ops =>
      let '(r, s1) := intent_step op s in
      let '(log, s2) := intent_run ops s1 in
      (match r with Ok (Some e) => e :: log | _ => log end, s2)
  end.
End system.
