(* ===== verification/ChannelEvents.v ===== *)
(** The event processor of the channel spine: one normalized event, applied once.

    Models src/apps/api/src/channel-spine/application/event-processor.ts and the guards
    of packages/shared/src/channel-spine/contracts.ts.  An event's identity is reserved
    in channel_event_inbox by a commit of its own; the event is then applied in one
    transaction, and a failure is recorded by a third commit.  The lists of channels and
    providers and [nonBlank] are those of ChannelOutbound.v.  The preview and
    the bounds of a thread are those of Fanout.v, the case that an inbound message opens
    is the one of Cases.v.  SHA-256, the collation of the runtime and the
    text of an error are the typeclass [ChannelRuntime]. *)

From S2P Require Import Prelude Js Json SpineRows TenantDb SpineDb Workflow Fanout Cases Outbound ChannelOutbound.

Class ChannelRuntime := {
  (** [createHash("sha256").update(text).digest("hex")] *)
  sha256 : jsstring → jsstring;
  localeCompare_le : jsstring → jsstring → bool;
  (** [error.message] *)
  failure_text : err → jsstring }.

(** ** contracts.ts *)

Definition DURABLE_CHANNEL_EVENT_KINDS : list string :=
  ["account.status"; "endpoint.upsert"; "conversation.upsert"; "participant.upsert";
   "participant.remove"; "message.upsert"; "message.edit"; "message.delete"; "reaction.upsert";
   "reaction.delete"; "delivery.update"; "attachment.available"; "attachment.failed";
   "sync.checkpoint"].

Definition isDurableChannelEvent (event : NormalizedChannelEvent) : bool :=
  bool_decide (event_kind event.(ev_payload) ∈ DURABLE_CHANNEL_EVENT_KINDS).

(** The first requirement that the event breaks; [None] when it is well formed. *)
Definition event_refusal (event : NormalizedChannelEvent) : option string :=
  if negb (event.(ev_contractVersion) =? 1)%Z then Some "unsupported channel event contract version"
  else if negb (nonBlank (Some event.(ev_eventId))) then Some "channel event ID is required"
  else if negb (nonBlank (Some (js event.(ev_companyId)))) then Some "company ID is required"
  else if negb (nonBlank (Some (js event.(ev_channelAccountId)))) then Some "channel account ID is required"
  else if negb (isChannel (js event.(ev_channel))) then Some "unsupported channel"
  else if negb (isChannelProvider (js event.(ev_provider))) then Some "unsupported provider"
  else if is_null event.(ev_receivedAt).(ts_instant) then Some "receivedAt must be an ISO timestamp"
  else match event.(ev_providerOccurredAt) with
       | Some t => if is_null t.(ts_instant) then Some "providerOccurredAt must be an ISO timestamp" else None
       | None => None
       end.

Definition assertNormalizedChannelEvent (event : NormalizedChannelEvent) : M unit :=
  match event_refusal event with Some m => throw (OtherError m) | None => mret tt end.

(** ** Values *)

(** [new Date(t)] of a value that is written: PostgreSQL refuses an invalid date. *)
Definition new_date (t : timestamp) : M Z :=
  match t.(ts_instant) with
  | Some z => mret z
  | None => throw (OtherError "invalid input syntax for type timestamp with time zone")
  end.

(** [event.providerOccurredAt ?? event.receivedAt] *)
Definition occurred (event : NormalizedChannelEvent) : timestamp :=
  default event.(ev_receivedAt) event.(ev_providerOccurredAt).

(** [event.providerOccurredAt ? new Date(event.providerOccurredAt) : null] *)
Definition given_date (t : option timestamp) : M (option Z) :=
  match t with
  | Some t => if bool_decide (t.(ts_text) = []) then mret None else (z ← new_date t; mret (Some z))
  | None => mret None
  end.

(** [metadata ?? {}] in a jsonb column. *)
Definition stored_metadata (m : option metadata) : metadata := jsonb (default no_metadata m).

Definition LEGACY_MESSAGE_TYPES : list string :=
  ["text"; "image"; "video"; "audio"; "document"; "sticker"; "location"; "contact"; "reaction";
   "template"].
Definition legacyMessageType (value : string) : string :=
  if bool_decide (value ∈ LEGACY_MESSAGE_TYPES) then value else "text".

Definition CUSTOMER_ENDPOINT_KINDS : list string := ["person"; "user"; "phone"; "email"].

(** ** SET clauses *)

(** The columns of a message that events write. *)
Definition ms_event (m : message_row) (conversation : option string) (sender_jid : option jsstring)
    (message_type : string) (content : jsstring) (quoted sent_by : option string) (status : string)
    (timestamp : Z) (deleted : bool) (deleted_at : option Z) (neutral : message_neutral) : message_row :=
  mkMessage m.(ms_id) m.(ms_whatsapp_connection_id) m.(ms_contact_id) conversation m.(ms_message_id)
    m.(ms_external_message_id) m.(ms_from_me) sender_jid message_type content m.(ms_media_url)
    m.(ms_media_mime_type) m.(ms_file_name) quoted sent_by status timestamp m.(ms_created_at)
    m.(ms_case_id) m.(ms_seq) m.(ms_channel_account_id) m.(ms_client_idempotency_key)
    m.(ms_reply_to_message_id) m.(ms_external_identity_scope) deleted deleted_at neutral.

Definition set_neutral (m : message_row) (content : jsstring) (deleted : bool) (deleted_at : option Z)
    (neutral : message_neutral) : message_row :=
  ms_event m m.(ms_conversation_id) m.(ms_sender_jid) m.(ms_message_type) content
    m.(ms_quoted_message_id) m.(ms_sent_by_user_id) m.(ms_status) m.(ms_timestamp) deleted deleted_at
    neutral.

(** [payload.textContent ?? payload.sanitizedHtmlContent ?? ""] *)
Definition content_of (text html : option jsstring) : jsstring := default [] (nullish text html).

(** The neutral columns that a message.upsert sets. *)
Definition upsert_neutral (payload : MessageUpsertEventPayload) (occurredAt : Z)
    (participant : option string) (media_size : option Z) : message_neutral :=
  mkNeutral (Some payload.(mu_direction)) participant (Some occurredAt)
    (Some payload.(mu_normalizedType)) payload.(mu_subject) payload.(mu_textContent)
    payload.(mu_sanitizedHtmlContent) (Some (stored_metadata payload.(mu_providerMetadata)))
    (payload.(mu_sender) ≫= xe_displayName) media_size.

(** The UPDATE of an upsert that meets its message. *)
Definition upsert_message (payload : MessageUpsertEventPayload) (conversationId : string) (occurredAt : Z)
    (m : message_row) : message_row :=
  ms_event m (Some conversationId) (xe_externalId <$> payload.(mu_sender))
    (legacyMessageType payload.(mu_normalizedType))
    (content_of payload.(mu_textContent) payload.(mu_sanitizedHtmlContent))
    payload.(mu_replyToExternalMessageId) payload.(mu_sentByUserId) m.(ms_status) occurredAt
    m.(ms_deleted_by_sender) m.(ms_deleted_at)
    (upsert_neutral payload occurredAt m.(ms_neutral).(nm_sender_participant_id)
       m.(ms_neutral).(nm_media_size)).

(** The row of an upsert that does not. *)
Definition new_message (event : NormalizedChannelEvent) (payload : MessageUpsertEventPayload)
    (contactId : option string) (conversationId : string) (occurredAt : Z) (id : string) (created_at seq : Z)
    : message_row :=
  let attachment := payload.(mu_attachments) ≫= head in
  let sent := bool_decide (payload.(mu_direction) = dir_outbound) in
  mkMessage id None contactId (Some conversationId) (Some payload.(mu_externalMessageId))
    (Some payload.(mu_externalMessageId)) sent (xe_externalId <$> payload.(mu_sender))
    (legacyMessageType payload.(mu_normalizedType))
    (content_of payload.(mu_textContent) payload.(mu_sanitizedHtmlContent))
    (attachment ≫= xa_storageUri) (attachment ≫= xa_contentType) None
    payload.(mu_replyToExternalMessageId) payload.(mu_sentByUserId)
    (if sent then "sent" else "delivered") occurredAt created_at None (Some seq)
    (Some event.(ev_channelAccountId)) None None (Some payload.(mu_externalIdentityScope)) false None
    (upsert_neutral payload occurredAt None (attachment ≫= xa_byteSize)).

Definition set_sender_participant (participantId : string) (m : message_row) : message_row :=
  let n := m.(ms_neutral) in
  set_neutral m m.(ms_content) m.(ms_deleted_by_sender) m.(ms_deleted_at)
    (mkNeutral n.(nm_direction) (Some participantId) n.(nm_provider_occurred_at) n.(nm_normalized_type)
       n.(nm_subject) n.(nm_text_content) n.(nm_sanitized_html_content) n.(nm_provider_metadata)
       n.(nm_sender_name) n.(nm_media_size)).

Definition delete_mutation (occurredAt : Z) (m : message_row) : message_row :=
  let n := m.(ms_neutral) in
  set_neutral m m.(ms_content) true (Some occurredAt)
    (mkNeutral n.(nm_direction) n.(nm_sender_participant_id) (Some occurredAt) n.(nm_normalized_type)
       n.(nm_subject) n.(nm_text_content) n.(nm_sanitized_html_content) n.(nm_provider_metadata)
       n.(nm_sender_name) n.(nm_media_size)).

Definition edit_mutation (payload : MessageMutationEventPayload) (occurredAt : Z) (m : message_row)
    : message_row :=
  let n := m.(ms_neutral) in
  set_neutral m (content_of payload.(mm_textContent) payload.(mm_sanitizedHtmlContent))
    m.(ms_deleted_by_sender) m.(ms_deleted_at)
    (mkNeutral n.(nm_direction) n.(nm_sender_participant_id) (Some occurredAt) n.(nm_normalized_type)
       n.(nm_subject) payload.(mm_textContent) payload.(mm_sanitizedHtmlContent)
       (Some (stored_metadata payload.(mm_providerMetadata))) n.(nm_sender_name) n.(nm_media_size)).

Definition message_is (id : string) (m : message_row) : bool := bool_decide (m.(ms_id) = id).

(** The CASE of a delivery update. *)
Definition next_status (update status : string) : string :=
  if String.eqb update "read" then "read"
  else if String.eqb update "delivered" && (String.eqb status "pending" || String.eqb status "sent")
  then "delivered"
  else if String.eqb update "sent" && String.eqb status "pending" then "sent"
  else if String.eqb update "failed" && String.eqb status "pending" then "failed"
  else status.
Definition DELIVERY_STATUSES : list string := ["pending"; "sent"; "delivered"; "read"; "failed"].
Definition set_delivery (update : string) (m : message_row) : message_row :=
  ms_event m m.(ms_conversation_id) m.(ms_sender_jid) m.(ms_message_type) m.(ms_content)
    m.(ms_quoted_message_id) m.(ms_sent_by_user_id) (next_status update m.(ms_status)) m.(ms_timestamp)
    m.(ms_deleted_by_sender) m.(ms_deleted_at) m.(ms_neutral).

Definition event_row (event : NormalizedChannelEvent) (r : inbox_row) : bool :=
  bool_decide (r.(ib_channel_account_id) = event.(ev_channelAccountId))
  && bool_decide (r.(ib_external_event_scope) = event.(ev_provider))
  && bool_decide (r.(ib_external_event_id) = event.(ev_eventId)).

Definition ib_update (r : inbox_row) (status : inbox_status) (attempts next_attempt_at : Z)
    (last_error_code : option jsstring) (applied_at : option Z) : inbox_row :=
  mkInbox r.(ib_channel_account_id) r.(ib_external_event_scope) r.(ib_external_event_id) r.(ib_kind)
    r.(ib_payload_digest) r.(ib_normalized_event) status attempts next_attempt_at last_error_code
    r.(ib_received_at) applied_at.

(** ** Operations *)

Section events.
Context `{Oracle} `{ChannelRuntime}.

(** The keys of an object, [receivedAt] among them in the source, are those of
    [ev_object], which leaves it out. *)
Definition channelEventPayloadDigest (event : NormalizedChannelEvent) : jsstring :=
  sha256 (stableJson localeCompare_le event.(ev_object)).

(** What the inbox keeps of an event. *)
Definition stored_event (event : NormalizedChannelEvent) : NormalizedChannelEvent :=
  mkEvent event.(ev_contractVersion) event.(ev_eventId) event.(ev_companyId)
    event.(ev_channelAccountId) event.(ev_channel) event.(ev_provider)
    event.(ev_providerOccurredAt) event.(ev_receivedAt) event.(ev_payload) (jsonb event.(ev_object)).

Inductive reservation := Reserved | AlreadyApplied.

Definition reserveInboxEvent (event : NormalizedChannelEvent) (digest : jsstring) : M reservation :=
  inserted ← transaction (
    now ← db_now;
    insert_on_conflict_nothing channel_event_inbox (event_row event)
      (mkInbox event.(ev_channelAccountId) event.(ev_provider) event.(ev_eventId)
         (event_kind event.(ev_payload)) digest (stored_event event) inbox_pending 0 (now * 1000) None
         now None));
  match inserted with
  | Some _ => mret Reserved
  | None =>
      existing ← select_first channel_event_inbox (event_row event);
      match existing with
      | None => throw (OtherError "no result")
      | Some existing =>
          if bool_decide (existing.(ib_payload_digest) ≠ digest) then
            _ ← update channel_event_inbox (event_row event)
                  (λ r, ib_update r inbox_quarantined r.(ib_attempts) r.(ib_next_attempt_at)
                          (Some (js "event_identity_collision")) r.(ib_applied_at));
            throw (ChannelEventIdentityCollisionError "event identity was reused with another payload")
          else mret (if bool_decide (existing.(ib_status) = inbox_applied) then AlreadyApplied else Reserved)
      end
  end.

Definition requireMatchingAccount (event : NormalizedChannelEvent) : M unit :=
  account ← select_first channel_accounts (λ r, bool_decide (r.(sa_id) = event.(ev_channelAccountId)));
  let refused := ChannelEventAccountMismatchError "event does not match an active channel account" in
  match account with
  | None => throw refused
  | Some a =>
      if negb (is_null a.(sa_archived_at)) || bool_decide (a.(sa_channel) ≠ event.(ev_channel))
         || bool_decide (a.(sa_provider) ≠ event.(ev_provider))
      then throw refused else mret tt
  end.

Definition ensureConversation (event : NormalizedChannelEvent) (reference : ExternalConversationReference)
    (providerStatus : option jsstring) (providerMetadata : option metadata) : M string :=
  existing ← select_first conversations (λ r,
    bool_decide (r.(cv_channel_account_id) = event.(ev_channelAccountId))
    && bool_decide (r.(cv_thread).(th_client_thread_key) = reference.(xc_clientThreadKey)));
  match existing with
  | Some existing =>
      now ← toDbDate;
      _ ← update conversations (λ r, bool_decide (r.(cv_id) = existing.(cv_id)))
            (λ r, mkConversation r.(cv_id) reference.(xc_kind) reference.(xc_subject)
               r.(cv_legacy_contact_id) r.(cv_archived_at) r.(cv_channel_account_id)
               (mkThread reference.(xc_externalThreadId) r.(cv_thread).(th_client_thread_key)
                  providerStatus (stored_metadata providerMetadata) r.(cv_thread).(th_first_message_at)
                  r.(cv_thread).(th_last_message_at) now));
      mret existing.(cv_id)
  | None =>
      id ← randomUUID; created_at ← db_now;
      _ ← insert_row conversations
            (mkConversation id reference.(xc_kind) reference.(xc_subject) None None
               event.(ev_channelAccountId)
               (mkThread reference.(xc_externalThreadId) reference.(xc_clientThreadKey) providerStatus
                  (stored_metadata providerMetadata) None None created_at));
      mret id
  end.

Definition ensureEndpoint (event : NormalizedChannelEvent) (endpoint : ExternalEndpointReference)
    : M string :=
  existing ← select_first contact_endpoints (λ r,
    bool_decide (r.(ep_channel) = event.(ev_channel)) && bool_decide (r.(ep_provider) = event.(ev_provider))
    && is_id event.(ev_channelAccountId) r.(ep_channel_account_id)
    && bool_decide (r.(ep_identity_scope) = endpoint.(xe_identityScope))
    && bool_decide (r.(ep_external_id) = endpoint.(xe_externalId)));
  match existing with
  | Some existing =>
      seen ← toDbDate; now ← toDbDate;
      _ ← update contact_endpoints (λ r, bool_decide (r.(ep_id) = existing.(ep_id)))
            (λ r, mkEndpoint r.(ep_id) r.(ep_contact_id) r.(ep_channel) r.(ep_provider)
               r.(ep_channel_account_id) endpoint.(xe_endpointKind) r.(ep_external_id)
               r.(ep_identity_scope) endpoint.(xe_normalizedAddress) endpoint.(xe_addressDisplay)
               endpoint.(xe_displayName) r.(ep_verification_state) r.(ep_first_seen_at) seen now);
      mret existing.(ep_id)
  | None =>
      id ← randomUUID; now ← db_now;
      _ ← insert_row contact_endpoints
            (mkEndpoint id None event.(ev_channel) event.(ev_provider) (Some event.(ev_channelAccountId))
               endpoint.(xe_endpointKind) endpoint.(xe_externalId) endpoint.(xe_identityScope)
               endpoint.(xe_normalizedAddress) endpoint.(xe_addressDisplay) endpoint.(xe_displayName)
               "provider_verified" now now now);
      mret id
  end.

Definition ensureParticipant (conversationId endpointId : string) (endpoint : ExternalEndpointReference)
    : M string :=
  existing ← select_first conversation_participants (λ r,
    bool_decide (r.(pt_conversation_id) = conversationId) && is_id endpointId r.(pt_contact_endpoint_id)
    && is_null r.(pt_left_at));
  match existing with
  | Some existing => mret existing.(pt_id)
  | None =>
      id ← randomUUID; now ← db_now;
      _ ← insert_row conversation_participants
            (mkParticipant id conversationId (Some endpointId) None kind_external
               endpoint.(xe_endpointKind) false None None no_metadata now);
      mret id
  end.

(** ** The customer of a conversation *)

Definition is_customer_kind (r : endpoint_row) : bool :=
  bool_decide (r.(ep_endpoint_kind) ∈ CUSTOMER_ENDPOINT_KINDS).

(** The participants that stand for external parties of the conversation now. *)
Definition external_participant (conversationId : string) (r : participant_row) : bool :=
  bool_decide (r.(pt_conversation_id) = conversationId)
  && bool_decide (r.(pt_participant_kind) = kind_external)
  && negb r.(pt_is_self) && is_null r.(pt_left_at).

(** INNER JOIN contact_endpoints ON endpoint.id = participant.contact_endpoint_id *)
Definition endpoints_of (endpoints : list endpoint_row) (participants : list participant_row)
    : list endpoint_row :=
  participants ≫= λ p, keep (λ r, is_id r.(ep_id) p.(pt_contact_endpoint_id)) endpoints.

Definition customer_candidates (conversationId : string) (candidateEndpointId : option string)
    : M (list endpoint_row) :=
  match candidateEndpointId with
  | Some id => select contact_endpoints (λ r, bool_decide (r.(ep_id) = id))
  | None =>
      participants ← select conversation_participants (external_participant conversationId);
      endpoints ← select contact_endpoints (λ _, true);
      mret (endpoints_of endpoints participants)
  end.

Definition adopt_endpoint (contactId : string) (updated_at : Z) (r : endpoint_row) : endpoint_row :=
  mkEndpoint r.(ep_id) (Some contactId) r.(ep_channel) r.(ep_provider) r.(ep_channel_account_id)
    r.(ep_endpoint_kind) r.(ep_external_id) r.(ep_identity_scope) r.(ep_normalized_address)
    r.(ep_address_display) r.(ep_display_name) r.(ep_verification_state) r.(ep_first_seen_at)
    r.(ep_last_seen_at) updated_at.

Definition new_customer (id : string) (endpoint : endpoint_row) (created_at : Z) : contact_row :=
  mkContact id None None (nullish endpoint.(ep_display_name) endpoint.(ep_address_display)) None false
    false None created_at
    (mkProfile endpoint.(ep_normalized_address) endpoint.(ep_display_name) (Some "customer")).

Definition link_contact (contactId : string) (updated_at : Z) (r : conversation_row) : conversation_row :=
  let t := r.(cv_thread) in
  mkConversation r.(cv_id) r.(cv_kind) r.(cv_subject) (Some contactId) r.(cv_archived_at)
    r.(cv_channel_account_id)
    (mkThread t.(th_external_thread_id) t.(th_client_thread_key) t.(th_provider_status)
       t.(th_provider_metadata) t.(th_first_message_at) t.(th_last_message_at) updated_at).

(** UPDATE ... SET contact_id WHERE conversation_id AND contact_id IS NULL, on the three
    workflow tables. *)
Definition claim_state (contactId : string) (r : state_row) : state_row :=
  mkState r.(cs_id) (Some contactId) r.(cs_conversation_id) r.(cs_active_case_id) r.(cs_status)
    r.(cs_resolved_at) r.(cs_resolved_by) r.(cs_resolution_notes) r.(cs_reopened_at) r.(cs_reopened_by)
    r.(cs_created_at) r.(cs_updated_at) r.(cs_activity).
Definition claim_assignment (contactId : string) (r : assignment_row) : assignment_row :=
  mkAssignment r.(ca_id) (Some contactId) r.(ca_conversation_id) r.(ca_assigned_to) r.(ca_assigned_by)
    r.(ca_assigned_at) r.(ca_unassigned_at).
Definition claim_case (contactId : string) (r : case_row) : case_row :=
  mkCase r.(cc_id) (Some contactId) r.(cc_conversation_id) r.(cc_company_id) r.(cc_kind) r.(cc_status)
    r.(cc_opened_at) r.(cc_opening_message_id) r.(cc_open_source) r.(cc_opened_by) r.(cc_policy_id)
    r.(cc_response_target_minutes) r.(cc_resolution_target_minutes) r.(cc_reopened_from_case_id)
    r.(cc_reopen_reason) r.(cc_resolved_at) r.(cc_resolved_by) r.(cc_resolution_outcome)
    r.(cc_resolution_notes) r.(cc_created_at) r.(cc_updated_at).
Definition backfill_workflow (conversationId contactId : string) : M unit :=
  _ ← update states (λ r, is_id conversationId r.(cs_conversation_id) && is_null r.(cs_contact_id))
        (claim_state contactId);
  _ ← update assignments (λ r, is_id conversationId r.(ca_conversation_id) && is_null r.(ca_contact_id))
        (claim_assignment contactId);
  _ ← update cases (λ r, is_id conversationId r.(cc_conversation_id) && is_null r.(cc_contact_id))
        (claim_case contactId);
  mret tt.

Definition customer_of (endpoint : endpoint_row) : M string :=
  match endpoint.(ep_contact_id) with
  | Some contactId => mret contactId
  | None =>
      id ← randomUUID; created_at ← db_now;
      _ ← insert_row contacts (new_customer id endpoint created_at);
      mret id
  end.

Definition attachWorkflowContact (conversationId : string) (candidateEndpointId : option string)
    : M (option string) :=
  conversation ← select_first conversations (λ r, bool_decide (r.(cv_id) = conversationId));
  match conversation with
  | None => throw (OtherError "no result")
  | Some conversation =>
      match conversation.(cv_legacy_contact_id) with
      | Some linked => mret (Some linked)
      | None =>
          if bool_decide (conversation.(cv_kind) ≠ kind_direct) then mret None
          else
            candidates ← customer_candidates conversationId candidateEndpointId;
            match keep is_customer_kind candidates with
            | [endpoint] =>
                contactId ← customer_of endpoint;
                _ ← when (is_null endpoint.(ep_contact_id))
                      (now ← toDbDate;
                       _ ← update contact_endpoints (λ r, bool_decide (r.(ep_id) = endpoint.(ep_id)))
                             (adopt_endpoint contactId now);
                       mret tt);
                alreadyLinked ← select_first conversations (λ r, is_id contactId r.(cv_legacy_contact_id));
                _ ← when (is_null alreadyLinked)
                      (now ← toDbDate;
                       _ ← update conversations
                             (λ r, bool_decide (r.(cv_id) = conversationId) && is_null r.(cv_legacy_contact_id))
                             (link_contact contactId now);
                       mret tt);
                _ ← backfill_workflow conversationId contactId;
                mret (Some contactId)
            | _ => mret None
            end
      end
  end.

(** ** Attachments, queues *)

(** [value ? value : column] *)
Definition if_given (value column : option string) : option string :=
  match value with Some (String _ _) => value | _ => column end.

Definition new_attachment (id messageId : string) (attachment : NormalizedAttachment)
    (status : attachment_status) (now : Z) : attachment_row :=
  mkAttachment id messageId attachment.(xa_ordinal) attachment.(xa_kind)
    attachment.(xa_providerAttachmentId) attachment.(xa_fileName) attachment.(xa_contentType)
    attachment.(xa_byteSize) attachment.(xa_storageUri) status attachment.(xa_errorCode)
    (stored_metadata attachment.(xa_providerMetadata)) now.

Definition attachment_at (messageId : string) (ordinal : Z) (r : attachment_row) : bool :=
  bool_decide (r.(ma_message_id) = messageId) && (r.(ma_ordinal) =? ordinal)%Z.

(** DO UPDATE SET of a repeated message.upsert: an attachment that is available does
    not go back to pending, and neither its URI nor its error is erased. *)
Definition refresh_attachment (attachment : NormalizedAttachment) (now : Z) (r : attachment_row)
    : attachment_row :=
  mkAttachment r.(ma_id) r.(ma_message_id) r.(ma_ordinal) attachment.(xa_kind)
    attachment.(xa_providerAttachmentId) attachment.(xa_fileName) attachment.(xa_contentType)
    attachment.(xa_byteSize) (if_given attachment.(xa_storageUri) r.(ma_storage_uri))
    (if bool_decide (r.(ma_status) = att_available) && bool_decide (attachment.(xa_status) = att_pending)
     then r.(ma_status) else attachment.(xa_status))
    (if_given attachment.(xa_errorCode) r.(ma_error_code))
    (stored_metadata attachment.(xa_providerMetadata)) now.

(** DO UPDATE SET of attachment.available and attachment.failed. *)
Definition settle_attachment (attachment : NormalizedAttachment) (status : attachment_status) (now : Z)
    (r : attachment_row) : attachment_row :=
  mkAttachment r.(ma_id) r.(ma_message_id) r.(ma_ordinal) r.(ma_kind) r.(ma_provider_attachment_id)
    r.(ma_file_name) r.(ma_content_type) r.(ma_byte_size)
    (if_given attachment.(xa_storageUri) r.(ma_storage_uri)) status attachment.(xa_errorCode)
    r.(ma_provider_metadata) now.

Definition replaceAttachments (messageId : string) (payload : MessageUpsertEventPayload) : M unit :=
  _ ← mapM (λ attachment,
        now ← toDbDate; id ← randomUUID; created_at ← db_now;
        insert_on_conflict_update message_attachments (attachment_at messageId attachment.(xa_ordinal))
          (refresh_attachment attachment now)
          (new_attachment id messageId attachment attachment.(xa_status) created_at))
      (default [] payload.(mu_attachments));
  mret tt.

(** ON CONFLICT DO NOTHING: the primary key arbitrates. *)
Definition enqueueMessageSearch (companyId connectionId messageId : string) : M unit :=
  _ ← insert_on_conflict_nothing message_search_outbox
        (λ r, bool_decide (search_key r = Some (companyId, messageId)))
        (mkSearch companyId messageId connectionId);
  mret tt.

Definition enqueueFanout (companyId channelAccountId conversationId messageId : string) : M unit :=
  _ ← mapM (λ kind,
        insert_on_conflict_nothing channel_message_delivery_outbox
          (λ r, bool_decide (fanout_key r = Some (companyId, messageId, kind)))
          (mkFanout companyId channelAccountId conversationId messageId kind))
      ["realtime"; "push"];
  mret tt.

Definition externally_named (channelAccountId scope externalId : string) (m : message_row) : bool :=
  is_id channelAccountId m.(ms_channel_account_id) && is_id scope m.(ms_external_identity_scope)
  && is_id externalId m.(ms_external_message_id).
Definition findMessage (channelAccountId scope externalId : string) : M (option message_row) :=
  select_first messages (externally_named channelAccountId scope externalId).

(** [findMessage(...) or throw]: an event that arrives before its message. *)
Definition findDependency (channelAccountId scope externalId : string) : M message_row :=
  message ← findMessage channelAccountId scope externalId;
  match message with
  | None => throw (OtherError "message_dependency_missing")
  | Some m => mret m
  end.

(** [message.provider_occurred_at && occurredAt < message.provider_occurred_at] *)
Definition outdated (occurredAt : Z) (m : message_row) : bool :=
  match m.(ms_neutral).(nm_provider_occurred_at) with
  | Some at_ => (occurredAt <? at_)%Z
  | None => false
  end.

(** ** Applying an event *)

Record applied_to := mkAppliedTo { ap_conversationId : option string; ap_messageId : option string }.

Definition set_activity (occurredAt : Z) (preview : option jsstring) (updated_at : Z) (r : state_row)
    : state_row :=
  mkState r.(cs_id) r.(cs_contact_id) r.(cs_conversation_id) r.(cs_active_case_id) r.(cs_status)
    r.(cs_resolved_at) r.(cs_resolved_by) r.(cs_resolution_notes) r.(cs_reopened_at) r.(cs_reopened_by)
    r.(cs_created_at) updated_at
    (mkActivity (r.(cs_activity).(sa_unread_count) + 1) (Some occurredAt) preview).

(** What a new inbound message does beyond its rows: its case, the unread counter. *)
Definition record_inbound (event : NormalizedChannelEvent) (payload : MessageUpsertEventPayload)
    (conversationId messageId : string) (contactId : option string) (occurredAt : Z) : M unit :=
  conversation ← select_first conversations (λ r, bool_decide (r.(cv_id) = conversationId));
  match conversation with
  | None => throw (OtherError "no result")
  | Some conversation =>
      _ ← openOrReopenCaseForInboundConversation event.(ev_companyId) conversationId contactId
            (bool_decide (conversation.(cv_kind) ≠ kind_direct)) messageId;
      let preview := preview_of payload.(mu_textContent) in
      now ← toDbDate;
      updated ← update states (λ r, is_id conversationId r.(cs_conversation_id))
                  (set_activity occurredAt preview now);
      if (updated =? 0)%nat then
        id ← randomUUID; created_at ← db_now;
        insert_row states
          (mkState id contactId (Some conversationId) None open None None None None None created_at
             created_at (mkActivity 1 (Some occurredAt) preview))
      else mret tt
  end.

(** The sender as a participant of the conversation and of the message. *)
Definition record_sender (conversationId messageId : string) (senderEndpointId : option string)
    (sender : option ExternalEndpointReference) : M unit :=
  match senderEndpointId, sender with
  | Some endpointId, Some sender =>
      participantId ← ensureParticipant conversationId endpointId sender;
      _ ← update messages (message_is messageId) (set_sender_participant participantId);
      _ ← insert_on_conflict_nothing message_participants
            (λ r, bool_decide (message_participant_key r = Some (messageId, "from", 0%Z)))
            (mkMessageParticipant messageId 0 "from" (Some endpointId)
               (default sender.(xe_externalId) sender.(xe_addressDisplay)) sender.(xe_displayName));
      mret tt
  | _, _ => mret tt
  end.

(** The row of the message: the one of its external identity, or a new one. *)
Definition write_message (event : NormalizedChannelEvent) (payload : MessageUpsertEventPayload)
    (contactId : option string) (conversationId : string) (occurredAt : Z) (existing : option message_row)
    : M string :=
  match existing with
  | Some existing =>
      _ ← update messages (message_is existing.(ms_id)) (upsert_message payload conversationId occurredAt);
      mret existing.(ms_id)
  | None =>
      id ← randomUUID; created_at ← db_now;
      _ ← insert_message (new_message event payload contactId conversationId occurredAt id created_at);
      mret id
  end.

Definition applyMessageUpsert (event : NormalizedChannelEvent) (payload : MessageUpsertEventPayload)
    : M applied_to :=
  conversationId ← ensureConversation event payload.(mu_conversation) None None;
  senderEndpointId ←
    match payload.(mu_sender) with
    | Some sender => id ← ensureEndpoint event sender; mret (Some id)
    | None => mret None
    end;
  contactId ← attachWorkflowContact conversationId
                (if bool_decide (payload.(mu_direction) = dir_inbound) then senderEndpointId else None);
  occurredAt ← new_date (occurred event);
  existing ← findMessage event.(ev_channelAccountId) payload.(mu_externalIdentityScope)
               payload.(mu_externalMessageId);
  if match existing with Some m => outdated occurredAt m | None => false end
  then mret (mkAppliedTo (Some conversationId) (ms_id <$> existing))
  else
    messageId ← write_message event payload contactId conversationId occurredAt existing;
    _ ← record_sender conversationId messageId senderEndpointId payload.(mu_sender);
    _ ← when (is_null existing && bool_decide (payload.(mu_direction) = dir_inbound))
          (record_inbound event payload conversationId messageId contactId occurredAt);
    _ ← enqueueMessageSearch event.(ev_companyId) event.(ev_channelAccountId) messageId;
    _ ← replaceAttachments messageId payload;
    now ← toDbDate;
    _ ← update conversations (λ r, bool_decide (r.(cv_id) = conversationId)) (extend_thread occurredAt now);
    _ ← enqueueFanout event.(ev_companyId) event.(ev_channelAccountId) conversationId messageId;
    mret (mkAppliedTo (Some conversationId) (Some messageId)).

(** message.edit and message.delete; [mutation] is the SET of the kind. *)
Definition applyMessageMutation (event : NormalizedChannelEvent) (payload : MessageMutationEventPayload)
    (mutation : Z → message_row → message_row) : M applied_to :=
  message ← findDependency event.(ev_channelAccountId) payload.(mm_externalIdentityScope)
              payload.(mm_externalMessageId);
  occurredAt ← new_date (occurred event);
  if outdated occurredAt message then mret (mkAppliedTo None (Some message.(ms_id)))
  else
    _ ← update messages (message_is message.(ms_id)) (mutation occurredAt);
    mret (mkAppliedTo None (Some message.(ms_id))).

Definition reaction_is (account scope : string) (reaction : jsstring) (r : reaction_row) : bool :=
  bool_decide (reaction_key r = Some (account, scope, reaction)).

Definition applyReactionMutation (event : NormalizedChannelEvent) (payload : ReactionEventPayload)
    (deletes : bool) : M applied_to :=
  message ← findDependency event.(ev_channelAccountId) payload.(re_messageIdentityScope)
              payload.(re_messageExternalId);
  reactorEndpointId ← ensureEndpoint event payload.(re_reactor);
  let eventScope := default event.(ev_provider) payload.(re_externalEventScope) in
  let reactionId := default event.(ev_eventId) payload.(re_externalReactionId) in
  let this := reaction_is event.(ev_channelAccountId) eventScope reactionId in
  if deletes then
    _ ← delete_where message_reactions (λ r, bool_decide (r.(mx_message_id) = message.(ms_id)) && this r);
    mret (mkAppliedTo None (Some message.(ms_id)))
  else
    existing ← select_first message_reactions this;
    occurredAt ← given_date event.(ev_providerOccurredAt);
    _ ← match existing with
        | Some existing =>
            _ ← update message_reactions (λ r, bool_decide (r.(mx_id) = existing.(mx_id)))
                  (λ r, mkReactionRow r.(mx_id) r.(mx_message_id) r.(mx_reactor_jid) payload.(re_emoji)
                     r.(mx_reactor_endpoint_id) r.(mx_channel_account_id) r.(mx_external_reaction_id)
                     r.(mx_external_event_scope) occurredAt);
            mret tt
        | None =>
            id ← randomUUID;
            insert_row message_reactions
              (mkReactionRow id message.(ms_id) payload.(re_reactor).(xe_externalId) payload.(re_emoji)
                 (Some reactorEndpointId) (Some event.(ev_channelAccountId)) (Some reactionId)
                 (Some eventScope) occurredAt)
        end;
    mret (mkAppliedTo None (Some message.(ms_id))).

Definition applyAttachmentEvent (event : NormalizedChannelEvent) (payload : AttachmentEventPayload)
    (status : attachment_status) : M applied_to :=
  message ← findDependency event.(ev_channelAccountId) payload.(ae_messageIdentityScope)
              payload.(ae_messageExternalId);
  let attachment := payload.(ae_attachment) in
  now ← toDbDate; id ← randomUUID; created_at ← db_now;
  _ ← insert_on_conflict_update message_attachments
        (attachment_at message.(ms_id) attachment.(xa_ordinal)) (settle_attachment attachment status now)
        (new_attachment id message.(ms_id) attachment status created_at);
  mret (mkAppliedTo None (Some message.(ms_id))).

Definition applyDeliveryUpdate (event : NormalizedChannelEvent) (payload : DeliveryUpdateEventPayload)
    : M applied_to :=
  message ← findDependency event.(ev_channelAccountId) payload.(du_messageIdentityScope)
              payload.(du_messageExternalId);
  recipientEndpointId ←
    match payload.(du_recipient) with
    | Some recipient => id ← ensureEndpoint event recipient; mret (Some id)
    | None => mret None
    end;
  occurredAt ← given_date event.(ev_providerOccurredAt);
  id ← randomUUID;
  let row := mkDeliveryEvent id event.(ev_channelAccountId) message.(ms_id) recipientEndpointId
    (Some (default event.(ev_provider) payload.(du_externalEventScope)))
    (Some (default event.(ev_eventId) payload.(du_externalEventId))) payload.(du_status) occurredAt
    payload.(du_errorCode) payload.(du_errorDetail) (stored_metadata payload.(du_providerMetadata)) in
  _ ← insert_on_conflict_nothing message_delivery_events
        (λ r, bool_decide (r.(de_id) = id)
              || bool_decide (delivery_event_key r = delivery_event_key row)) row;
  _ ← when (bool_decide (payload.(du_status) ∈ DELIVERY_STATUSES))
        (_ ← update messages (message_is message.(ms_id)) (set_delivery payload.(du_status)); mret tt);
  mret (mkAppliedTo None (Some message.(ms_id))).

Definition applySyncCheckpoint (event : NormalizedChannelEvent) (payload : SyncCheckpointEventPayload)
    : M applied_to :=
  match payload.(sy_conversation) with
  | None => mret (mkAppliedTo None None)
  | Some reference =>
      conversationId ← ensureConversation event reference None None;
      completed ← new_date (occurred event);
      now ← toDbDate; created_at ← db_now;
      let generation := default 0%Z payload.(sy_requestGeneration) in
      _ ← insert_on_conflict_update conversation_sync_states
            (λ r, bool_decide (sync_state_key r = Some (conversationId, event.(ev_provider))))
            (λ r, mkSyncState r.(ss_conversation_id) r.(ss_provider) payload.(sy_status)
               payload.(sy_cursorOrAnchor) generation (Some completed) payload.(sy_errorCode) now)
            (mkSyncState conversationId event.(ev_provider) payload.(sy_status)
               payload.(sy_cursorOrAnchor) generation (Some completed) payload.(sy_errorCode) created_at);
      mret (mkAppliedTo (Some conversationId) None)
  end.

(** [Boolean(workspaceUserId)] and the two optional WHERE clauses of a participant. *)
Definition given_user (workspaceUserId : option string) : option string := if_given workspaceUserId None.
Definition participant_match (conversationId : string) (endpointId workspaceUserId : option string)
    (r : participant_row) : bool :=
  bool_decide (r.(pt_conversation_id) = conversationId)
  && match endpointId with Some e => is_id e r.(pt_contact_endpoint_id) | None => true end
  && match given_user workspaceUserId with Some u => is_id u r.(pt_workspace_user_id) | None => true end.

(** The conversation and the endpoint of a participant event; one identity is required. *)
Definition participant_identity (event : NormalizedChannelEvent)
    (conversation : ExternalConversationReference) (endpoint : option ExternalEndpointReference)
    (workspaceUserId : option string) : M (string * option string) :=
  conversationId ← ensureConversation event conversation None None;
  endpointId ←
    match endpoint with
    | Some endpoint => id ← ensureEndpoint event endpoint; mret (Some id)
    | None => mret None
    end;
  if is_null endpointId && is_null (given_user workspaceUserId)
  then throw (OtherError "participant_identity_missing")
  else mret (conversationId, endpointId).

Definition applyParticipantRemove (event : NormalizedChannelEvent) (payload : ParticipantRemove)
    : M applied_to :=
  ids ← participant_identity event payload.(pr_conversation) payload.(pr_endpoint)
          payload.(pr_workspaceUserId);
  left_at ← new_date (default (occurred event) payload.(pr_leftAt));
  now ← toDbDate;
  _ ← update conversation_participants (participant_match ids.1 ids.2 payload.(pr_workspaceUserId))
        (λ r, mkParticipant r.(pt_id) r.(pt_conversation_id) r.(pt_contact_endpoint_id)
           r.(pt_workspace_user_id) r.(pt_participant_kind) r.(pt_role) r.(pt_is_self) r.(pt_joined_at)
           (Some left_at) r.(pt_provider_metadata) now);
  mret (mkAppliedTo (Some ids.1) None).

Definition applyParticipantUpsert (event : NormalizedChannelEvent) (payload : ParticipantUpsert)
    : M applied_to :=
  ids ← participant_identity event payload.(pu_conversation) payload.(pu_endpoint)
          payload.(pu_workspaceUserId);
  existing ← select_first conversation_participants (λ r,
    participant_match ids.1 ids.2 payload.(pu_workspaceUserId) r
    && bool_decide (r.(pt_participant_kind) = payload.(pu_participantKind)));
  let metadata := stored_metadata payload.(pu_providerMetadata) in
  _ ← match existing with
      | Some existing =>
          now ← toDbDate;
          _ ← update conversation_participants (λ r, bool_decide (r.(pt_id) = existing.(pt_id)))
                (λ r, mkParticipant r.(pt_id) r.(pt_conversation_id) r.(pt_contact_endpoint_id)
                   r.(pt_workspace_user_id) r.(pt_participant_kind) payload.(pu_role)
                   payload.(pu_isSelf) r.(pt_joined_at) None metadata now);
          mret tt
      | None =>
          joined_at ← given_date payload.(pu_joinedAt);
          id ← randomUUID; now ← db_now;
          insert_row conversation_participants
            (mkParticipant id ids.1 ids.2 payload.(pu_workspaceUserId) payload.(pu_participantKind)
               payload.(pu_role) payload.(pu_isSelf) joined_at None metadata now)
      end;
  mret (mkAppliedTo (Some ids.1) None).

Definition set_account_status (status : account_status) (providerStatus : option jsstring)
    (synced now : Z) (r : spine_account_row) : spine_account_row :=
  mkSpineAccount r.(sa_id) r.(sa_channel) r.(sa_provider) status providerStatus (Some synced) now
    r.(sa_archived_at).

Definition applyDurableEvent (event : NormalizedChannelEvent) : M applied_to :=
  match event.(ev_payload) with
  | AccountStatusEvent status providerStatus =>
      synced ← toDbDate; now ← toDbDate;
      _ ← update channel_accounts (λ r, bool_decide (r.(sa_id) = event.(ev_channelAccountId)))
            (set_account_status status providerStatus synced now);
      mret (mkAppliedTo None None)
  | EndpointUpsertEvent endpoint =>
      _ ← ensureEndpoint event endpoint; mret (mkAppliedTo None None)
  | ConversationUpsertEvent conversation providerStatus providerMetadata =>
      id ← ensureConversation event conversation providerStatus providerMetadata;
      mret (mkAppliedTo (Some id) None)
  | ParticipantUpsertEvent p => applyParticipantUpsert event p
  | ParticipantRemoveEvent p => applyParticipantRemove event p
  | MessageUpsertEvent p => applyMessageUpsert event p
  | MessageEditEvent p => applyMessageMutation event p (edit_mutation p)
  | MessageDeleteEvent p => applyMessageMutation event p delete_mutation
  | ReactionUpsertEvent p => applyReactionMutation event p false
  | ReactionDeleteEvent p => applyReactionMutation event p true
  | DeliveryUpdateEvent p => applyDeliveryUpdate event p
  | AttachmentAvailableEvent p => applyAttachmentEvent event p att_available
  | AttachmentFailedEvent p => applyAttachmentEvent event p att_failed
  | SyncCheckpointEvent p => applySyncCheckpoint event p
  | TypingUpdateEvent | PresenceUpdateEvent =>
      throw (OtherError (String.append "unsupported_durable_event:" (event_kind event.(ev_payload))))
  end.

(** ** One delivery of an event *)

Inductive event_outcome := outcome_applied | outcome_duplicate | outcome_transient.
Record AppliedChannelEvent := mkApplied {
  ac_outcome : event_outcome; ac_conversationId : option string; ac_messageId : option string }.

(** The transaction that applies a reserved event. *)
Definition apply_reserved (event : NormalizedChannelEvent) (digest : jsstring) : M AppliedChannelEvent :=
  transaction (
    inbox ← select_first channel_event_inbox (event_row event);
    match inbox with
    | None => throw (OtherError "no result")
    | Some inbox =>
        if bool_decide (inbox.(ib_payload_digest) ≠ digest)
        then throw (ChannelEventIdentityCollisionError "event identity was reused with another payload")
        else match inbox.(ib_status) with
        | inbox_applied => mret (mkApplied outcome_duplicate None None)
        | inbox_quarantined => throw (ChannelEventIdentityCollisionError "event is quarantined")
        | inbox_pending =>
            _ ← requireMatchingAccount event;
            applied ← applyDurableEvent event;
            applied_at ← toDbDate;
            _ ← update channel_event_inbox (event_row event)
                  (λ r, ib_update r inbox_applied (r.(ib_attempts) + 1) r.(ib_next_attempt_at) None
                          (Some applied_at));
            mret (mkApplied outcome_applied applied.(ap_conversationId) applied.(ap_messageId))
        end
    end).

Definition quarantines (error : err) : bool :=
  match error with
  | ChannelEventIdentityCollisionError _ | ChannelEventAccountMismatchError _ => true
  | _ => false
  end.

(** LEAST(15 minutes, 5 seconds * 2 ^ LEAST(attempts, 8)), in microseconds *)
Definition retry_delay (attempts : Z) : Z := ((15 * 60) `min` (5 * 2 ^ (attempts `min` 8)) * 1000000)%Z.

Definition recordApplicationFailure (event : NormalizedChannelEvent) (error : err) : M unit :=
  let code := slice 0 200 (failure_text error) in
  now ← statement_timestamp;
  _ ← update channel_event_inbox (event_row event)
        (λ r, ib_update r (if quarantines error then inbox_quarantined else inbox_pending)
                ((r.(ib_attempts) + 1) `min` 30)%Z (now + retry_delay r.(ib_attempts)) (Some code)
                r.(ib_applied_at));
  mret tt.

Definition applyNormalizedChannelEvent (event : NormalizedChannelEvent) : M AppliedChannelEvent :=
  _ ← assertNormalizedChannelEvent event;
  if negb (isDurableChannelEvent event) then mret (mkApplied outcome_transient None None)
  else
    let digest := channelEventPayloadDigest event in
    reserved ← reserveInboxEvent event digest;
    match reserved with
    | AlreadyApplied => mret (mkApplied outcome_duplicate None None)
    | Reserved =>
        catch (apply_reserved event digest)
          (λ error, _ ← recordApplicationFailure event error; throw error)
    end.
End events.
