(* ===== verification/ChannelEventSpec.v ===== *)
(** What a delivery of an event does, whatever the event.

    The application of an event never touches the inbox; around it, the inbox decides
    whether the event is applied, repeated or refused.  [delivery_outcome] lists every
    outcome of [applyNormalizedChannelEvent] with what it changes. *)

From S2P Require Import Prelude Js Json SpineRows TenantDb SpineDb Exec Steady Workflow Cases Outbound ChannelOutbound ChannelEvents.

(** ** The inbox during an application *)

Definition inbox (t : tables) : list inbox_row := s_inbox (t_spine t).
Definition same_inbox (t t' : tables) : Prop := inbox t' = inbox t.

#[export] Instance same_inbox_preorder : PreOrder same_inbox.
Proof. split; [done|]. intros t1 t2 t3 H1 H2. unfold same_inbox in *. congruence. Qed.
#[export] Instance same_inbox_cases : Frame same_inbox cases. Proof. done. Qed.
#[export] Instance same_inbox_states : Frame same_inbox states. Proof. done. Qed.
#[export] Instance same_inbox_assignments : Frame same_inbox assignments. Proof. done. Qed.
#[export] Instance same_inbox_messages : Frame same_inbox messages. Proof. done. Qed.
#[export] Instance same_inbox_contacts : Frame same_inbox contacts. Proof. done. Qed.
#[export] Instance same_inbox_conversations : Frame same_inbox conversations. Proof. done. Qed.
#[export] Instance same_inbox_accounts : Frame same_inbox channel_accounts. Proof. done. Qed.
#[export] Instance same_inbox_endpoints : Frame same_inbox contact_endpoints. Proof. done. Qed.
#[export] Instance same_inbox_participants : Frame same_inbox conversation_participants. Proof. done. Qed.
#[export] Instance same_inbox_message_participants : Frame same_inbox message_participants. Proof. done. Qed.
#[export] Instance same_inbox_attachments : Frame same_inbox message_attachments. Proof. done. Qed.
#[export] Instance same_inbox_reactions : Frame same_inbox message_reactions. Proof. done. Qed.
#[export] Instance same_inbox_deliveries : Frame same_inbox message_delivery_events. Proof. done. Qed.
#[export] Instance same_inbox_sync : Frame same_inbox conversation_sync_states. Proof. done. Qed.
#[export] Instance same_inbox_search : Frame same_inbox message_search_outbox. Proof. done. Qed.
#[export] Instance same_inbox_fanout : Frame same_inbox channel_message_delivery_outbox. Proof. done. Qed.

(** Any relation that the tables which a function writes do not disturb. *)
Section steady_dates.
Context `{Oracle} `{ChannelRuntime} (R : tables → tables → Prop) `{!PreOrder R}.

Lemma steady_new_date t : steady R (new_date t).
Proof using PreOrder0. unfold new_date. steady. Qed.
Lemma steady_given_date t : steady R (given_date t).
Proof using PreOrder0. unfold given_date, new_date. steady. Qed.
End steady_dates.

Section steady_workflow.
Context `{Oracle} `{ChannelRuntime} (R : tables → tables → Prop) `{!PreOrder R}.
Context `{!Frame R cases} `{!Frame R states} `{!Frame R assignments}.

Lemma steady_inbound_case (Hstamp : ∀ c m, steady R (stamp_case c m)) c v k g m :
  steady R (openOrReopenCaseForInboundConversation c v k g m).
Proof using All.
  unfold openOrReopenCaseForInboundConversation, lockConversation, getCurrentSlaPolicy, insert_case,
    inbound_created, inbound_existing, flip_to_open, syncConversationProjection, stamp_final,
    getCurrentConversationAssignment, unassignConversation. steady; apply Hstamp.
Qed.
Lemma steady_record_inbound (Hstamp : ∀ c m, steady R (stamp_case c m)) e p v m k z :
  steady R (record_inbound e p v m k z).
Proof using All.
  unfold record_inbound. steady. by apply steady_inbound_case.
Qed.
Lemma steady_backfill_workflow v k : steady R (backfill_workflow v k).
Proof using All. unfold backfill_workflow. steady. Qed.
End steady_workflow.

Section steady_rows.
Context `{Oracle} `{ChannelRuntime} (R : tables → tables → Prop) `{!PreOrder R}.
Context `{!Frame R conversation_participants} `{!Frame R message_attachments}
  `{!Frame R message_search_outbox} `{!Frame R channel_message_delivery_outbox}.

Lemma steady_ensureParticipant v x e : steady R (ensureParticipant v x e).
Proof using All. unfold ensureParticipant. steady. Qed.
Lemma steady_replaceAttachments i p : steady R (replaceAttachments i p).
Proof using All. unfold replaceAttachments. steady. Qed.
Lemma steady_enqueueMessageSearch c a m : steady R (enqueueMessageSearch c a m).
Proof using All. unfold enqueueMessageSearch. steady. Qed.
Lemma steady_enqueueFanout c a v m : steady R (enqueueFanout c a v m).
Proof using All. unfold enqueueFanout. steady. Qed.
End steady_rows.

Section steady_parties.
Context `{Oracle} `{ChannelRuntime} (R : tables → tables → Prop) `{!PreOrder R}.
Context `{!Frame R cases} `{!Frame R states} `{!Frame R assignments} `{!Frame R contacts}
  `{!Frame R conversations} `{!Frame R contact_endpoints}.

Lemma steady_ensureConversation e c p m : steady R (ensureConversation e c p m).
Proof using All. unfold ensureConversation. steady. Qed.
Lemma steady_ensureEndpoint e x : steady R (ensureEndpoint e x).
Proof using All. unfold ensureEndpoint. steady. Qed.
Lemma steady_attachWorkflowContact v x : steady R (attachWorkflowContact v x).
Proof using All.
  unfold attachWorkflowContact, customer_candidates, customer_of, backfill_workflow. steady.
Qed.
Lemma steady_participant_identity e c x u : steady R (participant_identity e c x u).
Proof using All.
  unfold participant_identity. steady; [apply steady_ensureConversation|apply steady_ensureEndpoint].
Qed.
End steady_parties.

#[export] Hint Resolve steady_new_date steady_given_date steady_ensureConversation steady_ensureEndpoint
  steady_ensureParticipant steady_attachWorkflowContact steady_replaceAttachments
  steady_enqueueMessageSearch steady_enqueueFanout steady_participant_identity : steady.

Section inbox_kept.
Context `{Oracle} `{ChannelRuntime}.

Lemma steady_stamp_case c m : steady same_inbox (stamp_case c m).
Proof. unfold stamp_case. steady. Qed.
#[local] Hint Resolve steady_record_inbound steady_stamp_case : steady.

Lemma steady_applyMessageUpsert e p : steady same_inbox (applyMessageUpsert e p).
Proof.
  unfold applyMessageUpsert, findMessage, write_message, record_sender, insert_message. steady.
Qed.
#[local] Hint Resolve steady_applyMessageUpsert : steady.

Lemma steady_applyDurableEvent e : steady same_inbox (applyDurableEvent e).
Proof.
  unfold applyDurableEvent, applyParticipantUpsert, applyParticipantRemove, applyMessageMutation,
    applyReactionMutation, applyDeliveryUpdate, applyAttachmentEvent, applySyncCheckpoint,
    findDependency, findMessage. steady.
Qed.
End inbox_kept.

(** ** One delivery *)

(** The row of an event's identity. *)
Definition inbox_of (event : NormalizedChannelEvent) (t : tables) : option inbox_row :=
  first (event_row event) (inbox t).

(** Nothing changed but rows of the event's identity in the inbox. *)
Definition only_inbox (event : NormalizedChannelEvent) (t t' : tables) : Prop :=
  t' = set_rows channel_event_inbox (inbox t') t
  ∧ keep (negb ∘ event_row event) (inbox t') = keep (negb ∘ event_row event) (inbox t).

(** No other identity's row changed. *)
Definition others_kept (event : NormalizedChannelEvent) (t t' : tables) : Prop :=
  keep (negb ∘ event_row event) (inbox t') = keep (negb ∘ event_row event) (inbox t).

(** The account that the event names is live and of its channel and provider. *)
Definition active_account (event : NormalizedChannelEvent) (t : tables) : Prop :=
  ∃ a, a ∈ s_accounts (t_spine t) ∧ a.(sa_id) = event.(ev_channelAccountId) ∧ a.(sa_archived_at) = None
       ∧ a.(sa_channel) = event.(ev_channel) ∧ a.(sa_provider) = event.(ev_provider).

Lemma only_inbox_refl event t : only_inbox event t t.
Proof. split; [|done]. symmetry. apply (set_rows_rows (T := channel_event_inbox)). Qed.

Lemma only_inbox_set event t l :
  keep (negb ∘ event_row event) l = keep (negb ∘ event_row event) (inbox t) →
  only_inbox event t (set_rows channel_event_inbox l t).
Proof. intros Hl. split; [|done]. by destruct t as [? ? ? ? ? ? ? ? ? ? ? ? ? ? ? ? ? ? ? ? []]. Qed.

Lemma only_inbox_trans event t1 t2 t3 :
  only_inbox event t1 t2 → only_inbox event t2 t3 → only_inbox event t1 t3.
Proof.
  intros [H1 K1] [H2 K2]. split; [|congruence]. rewrite H2 at 1. rewrite H1 at 1.
  by rewrite (set_rows_set_rows (T := channel_event_inbox)).
Qed.

Lemma keep_negb_update (p : inbox_row → bool) f l :
  (∀ r, p (f r) = p r) → keep (negb ∘ p) (update_where p f l) = keep (negb ∘ p) l.
Proof.
  intros Hf. apply keep_update_where_frame. intros x _ Hp. unfold compose. by rewrite Hf, Hp.
Qed.

Lemma event_row_update event r st n at_ c ap : event_row event (ib_update r st n at_ c ap) = event_row event r.
Proof. done. Qed.

Section delivery.
Context `{Oracle} `{ChannelRuntime} (event : NormalizedChannelEvent).

(** An update of the event's row. *)
Lemma inbox_of_update f t :
  (∀ r, event_row event (f r) = event_row event r) →
  inbox_of event (set_rows channel_event_inbox (update_where (event_row event) f (inbox t)) t)
  = f <$> inbox_of event t.
Proof.
  intros Hf. unfold inbox_of. change (inbox (set_rows _ ?l t)) with l.
  apply first_update_where; [done|]. intros r _ Hr. by rewrite Hf.
Qed.

Lemma inbox_constraint_error l e : constraint channel_event_inbox l = Some e → quarantines e = false.
Proof using. cbn -[unique_on]. repeat case_match; by intros [= <-]. Qed.

Lemma exec_update_inbox f t Q E :
  (∀ r, event_row event (f r) = event_row event r) →
  (∀ n t', only_inbox event t t' → inbox_of event t' = f <$> inbox_of event t → Q n t') →
  (∀ e, quarantines e = false → E e t) →
  exec (update channel_event_inbox (event_row event) f) t Q E.
Proof.
  intros Hf HQ HE. apply exec_update; [|intros e He; by eapply HE, inbox_constraint_error]. intros _. apply HQ; [|by apply inbox_of_update].
  by apply only_inbox_set, keep_negb_update.
Qed.

Lemma exec_recordApplicationFailure e t :
  exec (recordApplicationFailure event e) t
    (λ _ t', only_inbox event t t'
       ∧ ∀ r, inbox_of event t = Some r → ∃ r', inbox_of event t' = Some r'
         ∧ r'.(ib_status) = (if quarantines e then inbox_quarantined else inbox_pending)
         ∧ r'.(ib_payload_digest) = r.(ib_payload_digest)
         ∧ r'.(ib_normalized_event) = r.(ib_normalized_event))
    (λ e' t', t' = t ∧ quarantines e' = false).
Proof.
  unfold recordApplicationFailure. do 3 exec_step.
  apply exec_update_inbox; [done| |done]. intros n t' Ho Hi. apply exec_ret. split; [done|].
  intros r Hr. rewrite Hi, Hr. cbn. eauto.
Qed.

Lemma exec_requireMatchingAccount t :
  exec (requireMatchingAccount event) t (λ _ t', t' = t ∧ active_account event t)
    (λ e t', t' = t ∧ quarantines e = true).
Proof.
  unfold requireMatchingAccount. do 2 exec_step. destruct (first _ _) as [a|] eqn:Ha; [|by apply exec_throw].
  apply first_Some in Ha as [Ha Hid]. to_prop. destruct (_ || _) eqn:E; [by apply exec_throw|].
  to_prop. apply exec_ret. split; [done|]. exists a. split; [done|]. split; [done|].
  destruct (sa_archived_at a); [done|]. split; [done|].
  split; [destruct (decide (sa_channel a = ev_channel event))|destruct (decide (sa_provider a = ev_provider event))];
    tauto.
Qed.

(** What the transaction does with the event's row as it finds it. *)
Definition reserved_outcome (digest : jsstring) (t : tables) (a : AppliedChannelEvent) (t' : tables) : Prop :=
  ∃ r, inbox_of event t = Some r ∧ r.(ib_payload_digest) = digest ∧
  match a.(ac_outcome) with
  | outcome_applied =>
      r.(ib_status) = inbox_pending ∧ active_account event t ∧ others_kept event t t'
      ∧ ∃ r', inbox_of event t' = Some r' ∧ r'.(ib_status) = inbox_applied
              ∧ r'.(ib_payload_digest) = digest
  | outcome_duplicate => r.(ib_status) = inbox_applied ∧ t' = t
  | outcome_transient => False
  end.

Lemma exec_apply_reserved digest t :
  exec (apply_reserved event digest) t (reserved_outcome digest t)
    (λ e t', t' = t ∧ ∀ r, inbox_of event t = Some r →
       (r.(ib_payload_digest) ≠ digest ∨ r.(ib_status) = inbox_quarantined → quarantines e = true)
       ∧ (r.(ib_payload_digest) = digest → r.(ib_status) ≠ inbox_applied)).
Proof.
  unfold apply_reserved. exec_step. do 2 exec_step.
  change (first (event_row event) (rows channel_event_inbox t)) with (inbox_of event t).
  destruct (inbox_of event t) as [r|] eqn:Hr; [|by apply exec_throw; split].
  destruct (bool_decide _) eqn:Hd; to_prop.
  { apply exec_throw. split; [done|]. intros r' [= <-]. split; [done|tauto]. }
  destruct (decide (ib_payload_digest r = digest)) as [Hdig|]; [|done].
  destruct (ib_status r) eqn:Hst.
  - apply exec_bind. eapply exec_weaken; [apply exec_requireMatchingAccount|..]; cbv beta.
    2: { intros e t' [-> Hq]. split; [done|]. intros r' [= <-]. rewrite Hst. by split. }
    intros _ t' [-> Hacc].
    apply (exec_steady_bind same_inbox); [apply steady_applyDurableEvent| |].
    2: { intros e t' _. split; [done|]. intros r' [= <-]. rewrite Hst. split; [|done]. by intros [?|?]. }
    intros applied t1 H1. do 2 exec_step.
    apply exec_bind, exec_update_inbox; [done| |].
    2: { intros e. split; [done|]. intros r' [= <-]. rewrite Hst. split; [|done]. by intros [?|?]. }
    intros n t2 Ho Hi. apply exec_ret. exists r. split; [done|]. split; [done|]. cbn.
    split; [done|]. split; [done|]. split.
    + unfold others_kept. rewrite (proj2 Ho). by rewrite H1.
    + rewrite Hi. unfold inbox_of in *. rewrite H1, Hr. cbn. eauto.
  - apply exec_ret. exists r. cbn. tauto.
  - apply exec_throw. split; [done|]. intros r' [= <-]. by rewrite Hst.
Qed.

(** ** Reservation *)

Lemma event_row_own k d x st n at_ c now ap :
  event_row event (mkInbox event.(ev_channelAccountId) event.(ev_provider) event.(ev_eventId) k d
    x st n at_ c now ap) = true.
Proof using. unfold event_row. cbn. by rewrite !bool_decide_eq_true_2. Qed.

(** What the reservation finds, and leaves. *)
Definition reserve_outcome (digest : jsstring) (t : tables) (a : reservation) (t' : tables) : Prop :=
  match a with
  | Reserved =>
      (inbox_of event t = None ∧ only_inbox event t t'
       ∧ ∃ r', inbox_of event t' = Some r' ∧ r'.(ib_payload_digest) = digest ∧ r'.(ib_status) = inbox_pending)
      ∨ (t' = t ∧ ∃ r, inbox_of event t = Some r ∧ r.(ib_payload_digest) = digest ∧ r.(ib_status) ≠ inbox_applied)
  | AlreadyApplied =>
      t' = t ∧ ∃ r, inbox_of event t = Some r ∧ r.(ib_payload_digest) = digest ∧ r.(ib_status) = inbox_applied
  end.

(** What a failed delivery may have done to its row. *)
Definition failure_left (e : err) (t t' : tables) : Prop :=
  t' = t ∨ only_inbox event t t' ∧ ∃ r', inbox_of event t' = Some r' ∧ r'.(ib_status) ≠ inbox_applied
    ∧ (quarantines e = true → r'.(ib_status) = inbox_quarantined)
    ∧ ∀ r, inbox_of event t = Some r → r'.(ib_payload_digest) = r.(ib_payload_digest)
        ∧ (r.(ib_status) = inbox_applied → r'.(ib_status) = inbox_quarantined).

Lemma exec_reserveInboxEvent digest t :
  exec (reserveInboxEvent event digest) t (reserve_outcome digest t)
    (λ e t', (failure_left e t t' ∧ (quarantines e = true ∨ t' = t))
       ∧ ∀ r, inbox_of event t = Some r → r.(ib_payload_digest) = digest → t' = t ∧ r.(ib_status) ≠ inbox_applied).
Proof.
  unfold reserveInboxEvent. do 2 exec_step. do 2 exec_step.
  set (row := mkInbox _ _ _ _ _ _ _ _ _ _ _ _).
  assert (Hrow : event_row event row = true) by apply event_row_own.
  apply exec_insert_on_conflict_nothing; change (rows channel_event_inbox t) with (inbox t).
  - intros Hany. do 2 exec_step. change (rows channel_event_inbox t) with (inbox t). fold (inbox_of event t).
    rewrite first_holds_any in Hany. to_prop. destruct Hany as [r Hr].
    change (first (event_row event) (inbox t)) with (inbox_of event t) in Hr. rewrite Hr.
    destruct (bool_decide _) eqn:Hd; to_prop.
    + apply exec_bind, exec_update_inbox; [done| |].
      * intros n t' Ho Hi. apply exec_throw. split; [|by intros r' [= <-]].
        split; [|by left]. right. split; [done|]. rewrite Hi, Hr. eexists. split; [done|]. split; [done|]. split; [done|].
        intros r' [= <-]. done.
      * intros e. split; [split; [by left|by right]|]. by intros r' [= <-].
    + destruct (decide (ib_payload_digest r = digest)) as [Hdig|]; [|done].
      apply exec_ret. destruct (bool_decide _) eqn:Hst; to_prop; cbn; [eauto|]. right. eauto 6.
  - intros Hnone _. apply exec_ret. left. rewrite first_holds_any in Hnone. to_prop.
    assert (Hn : inbox_of event t = None).
    { unfold inbox_of. destruct (first _ _); [|done]. by destruct Hnone. }
    split; [done|]. split.
    + apply only_inbox_set. rewrite keep_app, keep_cons. unfold compose at 2. rewrite Hrow. cbn.
      by rewrite app_nil_r.
    + exists row. unfold inbox_of in *. change (inbox (set_rows _ ?l t)) with l.
      rewrite first_app, Hn. unfold first. rewrite keep_cons, Hrow. by cbn.
  - intros e Hnone _. split; [split; [by left|by right]|]. intros r Hr. rewrite first_holds_any in Hnone.
    change (first (event_row event) (inbox t)) with (inbox_of event t) in Hnone.
    rewrite Hr in Hnone. to_prop. destruct Hnone. eauto.
Qed.

(** ** The whole delivery *)

Definition digest_of : jsstring := channelEventPayloadDigest event.

(** What an answer says about the event's row, before and after. *)
Definition delivery_answer (a : AppliedChannelEvent) (t t' : tables) : Prop :=
  match a.(ac_outcome) with
  | outcome_transient => isDurableChannelEvent event = false ∧ t' = t
  | outcome_duplicate =>
      t' = t ∧ ∃ r, inbox_of event t = Some r ∧ r.(ib_payload_digest) = digest_of ∧ r.(ib_status) = inbox_applied
  | outcome_applied =>
      (∀ r, inbox_of event t = Some r → r.(ib_payload_digest) = digest_of ∧ r.(ib_status) = inbox_pending)
      ∧ active_account event t ∧ others_kept event t t'
      ∧ ∃ r', inbox_of event t' = Some r' ∧ r'.(ib_payload_digest) = digest_of ∧ r'.(ib_status) = inbox_applied
  end.

Definition delivery_failure (e : err) (t t' : tables) : Prop :=
  failure_left e t t'
  ∧ (∀ m, event_refusal event = Some m → e = OtherError m ∧ t' = t)
  ∧ ∀ r, event_refusal event = None → inbox_of event t = Some r →
      (r.(ib_payload_digest) = digest_of → r.(ib_status) ≠ inbox_applied)
      ∧ (r.(ib_status) = inbox_quarantined → quarantines e = true ∨ t' = t).

Lemma active_account_inbox t t' : only_inbox event t t' → active_account event t' → active_account event t.
Proof using. intros [-> _]. done. Qed.

(** The transaction and the record of its failure, from a reserved row. *)
Lemma exec_apply_or_record t r :
  event_refusal event = None →
  inbox_of event t = Some r → r.(ib_payload_digest) = digest_of → r.(ib_status) ≠ inbox_applied →
  exec (catch (apply_reserved event digest_of)
          (λ error, _ ← recordApplicationFailure event error; throw error)) t
    (λ a t', a.(ac_outcome) = outcome_applied ∧ delivery_answer a t t')
    (λ e t', delivery_failure e t t' ∧ (r.(ib_status) = inbox_pending → t' = t → quarantines e = false)).
Proof.
  intros Href Hr Hd Hst. exec_step. eapply exec_weaken; [apply exec_apply_reserved|..]; cbv beta.
  - intros a t' (r0 & Hr0 & _ & Ha). rewrite Hr in Hr0. injection Hr0 as <-. unfold delivery_answer.
    destruct (ac_outcome a); [|by destruct Ha as [? _]|done].
    destruct Ha as (Hp & Hacc & Hoth & r' & Hr' & Hs' & Hd').
    split; [done|]. split; [intros r0 Hr0; rewrite Hr in Hr0; by injection Hr0 as <-|]. eauto 8.
  - intros e t' [-> He]. destruct (He r Hr) as [Hq _]. apply exec_bind.
    eapply exec_weaken; [apply exec_recordApplicationFailure|..]; cbv beta.
    + intros _ t1 [Ho Hrec]. apply exec_throw. destruct (Hrec r Hr) as (r' & Hr' & Hs' & Hd' & _).
      split; [split; [|split; [by rewrite Href|]]|].
      * right. split; [done|]. exists r'. split; [done|]. rewrite Hs'.
        split; [by destruct (quarantines e)|]. split; [by intros ->|].
        intros r0 Hr0. rewrite Hr in Hr0. injection Hr0 as <-. done.
      * intros r0 _ Hr0. rewrite Hr in Hr0. injection Hr0 as <-. split; [done|]. intros Hsq. left. auto.
      * intros Hp ->. rewrite Hr in Hr'. injection Hr' as <-. rewrite Hp in Hs'. by destruct (quarantines e).
    + intros e' t' [-> Hq']. split; [|done]. split; [by left|]. split; [by rewrite Href|].
      intros r0 _ Hr0. rewrite Hr in Hr0. injection Hr0 as <-. auto.
Qed.

Lemma exec_delivery t :
  exec (applyNormalizedChannelEvent event) t (λ a t', delivery_answer a t t') (λ e t', delivery_failure e t t').
Proof.
  unfold applyNormalizedChannelEvent, assertNormalizedChannelEvent. exec_step.
  destruct (event_refusal event) as [m|] eqn:Href.
  { apply exec_throw. split; [by left|]. split; [|intros r Hr; by rewrite Href in Hr].
    intros m' Hm. rewrite Href in Hm. by injection Hm as <-. }
  apply exec_ret. destruct (negb _) eqn:Hdur; to_prop.
  { apply exec_ret. unfold delivery_answer. cbn. by rewrite Hdur. }
  change (channelEventPayloadDigest event) with digest_of. exec_step.
  eapply exec_weaken; [apply exec_reserveInboxEvent|..]; cbv beta.
  2: { intros e t' [[Hl Hq] Hd]. split; [done|]. split; [by rewrite Href|].
       intros r _ Hr. split; [|done]. intros Hdig. by destruct (Hd r Hr Hdig). }
  intros [|] t' Ha; [|by apply exec_ret].
  destruct Ha as [(Hn & Ho & r' & Hr' & Hd' & Hs')|(-> & r & Hr & Hd & Hst)].
  - eapply exec_weaken; [apply (exec_apply_or_record t' r'); [done..|by rewrite Hs']|..]; cbv beta.
    + intros a t2 [Hap Ha]. unfold delivery_answer in *. rewrite Hap in *.
      destruct Ha as (_ & Hacc & Hoth & Hafter). split; [by rewrite Hn|].
      split; [by eapply active_account_inbox|]. split; [|done].
      unfold others_kept in *. by rewrite Hoth, (proj2 Ho).
    + intros e t2 ((Hl & _ & _) & Hq0). split; [|split; [by rewrite Href|by rewrite Hn]].
      right. destruct Hl as [->|(Ho2 & r2 & Hr2 & Hne & Hq & _)].
      * split; [done|]. exists r'. rewrite Hn, Hs'. split; [done|]. split; [done|]. split; [|done].
        intros Hq. by rewrite Hq0 in Hq.
      * split; [by eapply only_inbox_trans|]. exists r2. rewrite Hn. done.
  - eapply exec_weaken; [by apply (exec_apply_or_record t r)|..]; cbv beta; tauto.
Qed.
End delivery.

(** C8: Every answer of the processor, and what it changed.  [applied]: the event's
    identity was new, or pending with this payload, its account is live, and the row
    says applied now.  [duplicate] and [transient]: nothing changed.  An error: nothing
    but the row of this identity changed, which never says applied after it unless
    nothing changed at all; an event that is not well formed changes nothing, one that
    collides with an applied or quarantined one leaves the row quarantined. *)
Theorem delivery_outcome `{Oracle} `{ChannelRuntime} event s :
  match applyNormalizedChannelEvent event s with
  | (Ok a, s') => delivery_answer event a (tb s) (tb s')
  | (Throw e, s') => delivery_failure event e (tb s) (tb s')
  end.
Proof. exact (exec_run _ s _ _ (exec_delivery event (tb s))). Qed.
