(* ===== verification/ChannelMessages.v ===== *)
(** Messages under events: the provider's clock decides.

    [messages_step z] is what an event that occurred at [z] may do to the messages:
    none is lost, its identity stays, its body changes only when it was not newer than
    the event, and then carries the event's time; a deleted message stays deleted and a
    delivery status does not go back.  The last part shows that the edits of a message
    converge, whatever the order of their delivery. *)

From S2P Require Import Prelude Js Json SpineRows TenantDb SpineDb Exec Steady Workflow Cases Outbound ChannelOutbound ChannelEvents ChannelEventSpec.

(** ** What stays, what changes *)

Definition clock (m : message_row) : option Z := m.(ms_neutral).(nm_provider_occurred_at).

Definition not_newer (m : message_row) (z : Z) : Prop := outdated z m = false.

(** The columns of a message that no event rewrites. *)
Definition identity_columns (m : message_row) :=
  (m.(ms_id), m.(ms_contact_id), m.(ms_from_me), m.(ms_created_at), m.(ms_seq),
   (m.(ms_channel_account_id), m.(ms_external_identity_scope), m.(ms_external_message_id))).

(** A message without its case, its delivery status and the link to its sender. *)
Definition body (m : message_row) : message_row :=
  let n := m.(ms_neutral) in
  mkMessage m.(ms_id) m.(ms_whatsapp_connection_id) m.(ms_contact_id) m.(ms_conversation_id)
    m.(ms_message_id) m.(ms_external_message_id) m.(ms_from_me) m.(ms_sender_jid) m.(ms_message_type)
    m.(ms_content) m.(ms_media_url) m.(ms_media_mime_type) m.(ms_file_name) m.(ms_quoted_message_id)
    m.(ms_sent_by_user_id) "" m.(ms_timestamp) m.(ms_created_at) None m.(ms_seq)
    m.(ms_channel_account_id) m.(ms_client_idempotency_key) m.(ms_reply_to_message_id)
    m.(ms_external_identity_scope) m.(ms_deleted_by_sender) m.(ms_deleted_at)
    (mkNeutral n.(nm_direction) None n.(nm_provider_occurred_at) n.(nm_normalized_type) n.(nm_subject)
       n.(nm_text_content) n.(nm_sanitized_html_content) n.(nm_provider_metadata) n.(nm_sender_name)
       n.(nm_media_size)).

(** How far a delivery status has come. *)
Definition status_rank (status : string) : nat :=
  if String.eqb status "sent" then 1
  else if String.eqb status "failed" then 1
  else if String.eqb status "delivered" then 2
  else if String.eqb status "read" then 3
  else 0.

Definition message_step (z : Z) (m m' : message_row) : Prop :=
  identity_columns m' = identity_columns m
  ∧ (m.(ms_deleted_by_sender) = true → m'.(ms_deleted_by_sender) = true)
  ∧ status_rank m.(ms_status) ≤ status_rank m'.(ms_status)
  ∧ (body m' = body m ∨ not_newer m z ∧ clock m' = Some z).

Definition messages_step (z : Z) (t t' : tables) : Prop :=
  extends (message_step z) (t_messages t) (t_messages t').

Lemma body_clock m m' : body m' = body m → clock m' = clock m.
Proof. intros Hb. exact (f_equal (λ b, nm_provider_occurred_at (ms_neutral b)) Hb). Qed.

#[export] Instance message_step_preorder z : PreOrder (message_step z).
Proof.
  split.
  { intros m. split; [done|]. split; [done|]. split; [done|by left]. }
  intros m1 m2 m3.
  intros (I1 & D1 & S1 & B1) (I2 & D2 & S2 & B2). split; [congruence|]. split; [auto|]. split; [lia|].
  destruct B1 as [B1|[N1 C1]], B2 as [B2|[N2 C2]].
  - left. congruence.
  - right. split; [|done]. unfold not_newer, outdated in *. fold (clock m1). fold (clock m2) in N2.
    by rewrite <- (body_clock _ _ B1).
  - right. split; [done|]. by rewrite (body_clock _ _ B2).
  - by right.
Qed.

#[export] Instance messages_step_preorder z : PreOrder (messages_step z).
Proof.
  split; [intros t; unfold messages_step; reflexivity|].
  intros t1 t2 t3. unfold messages_step. apply transitivity.
Qed.

(** ** The other tables *)

Definition same_messages (t t' : tables) : Prop := t_messages t' = t_messages t.
#[export] Instance same_messages_preorder : PreOrder same_messages.
Proof. split; [done|]. intros t1 t2 t3 H1 H2. unfold same_messages in *. congruence. Qed.

Lemma same_messages_step z t t' : same_messages t t' → messages_step z t t'.
Proof. intros Ht. unfold messages_step. by rewrite Ht. Qed.

(** A table whose rows are not messages. *)
Class Aside {A} (T : table A) : Prop := aside : ∀ l t, t_messages (set_rows T l t) = t_messages t.
#[export] Instance aside_same {A} (T : table A) `{!Aside T} : Frame same_messages T.
Proof. intros l t. apply aside. Qed.
#[export] Instance aside_step z {A} (T : table A) `{!Aside T} : Frame (messages_step z) T.
Proof. intros l t. apply same_messages_step, aside. Qed.

#[export] Instance aside_cases : Aside cases. Proof. done. Qed.
#[export] Instance aside_states : Aside states. Proof. done. Qed.
#[export] Instance aside_assignments : Aside assignments. Proof. done. Qed.
#[export] Instance aside_contacts : Aside contacts. Proof. done. Qed.
#[export] Instance aside_conversations : Aside conversations. Proof. done. Qed.
#[export] Instance aside_accounts : Aside channel_accounts. Proof. done. Qed.
#[export] Instance aside_endpoints : Aside contact_endpoints. Proof. done. Qed.
#[export] Instance aside_participants : Aside conversation_participants. Proof. done. Qed.
#[export] Instance aside_message_participants : Aside message_participants. Proof. done. Qed.
#[export] Instance aside_attachments : Aside message_attachments. Proof. done. Qed.
#[export] Instance aside_reactions : Aside message_reactions. Proof. done. Qed.
#[export] Instance aside_deliveries : Aside message_delivery_events. Proof. done. Qed.
#[export] Instance aside_sync : Aside conversation_sync_states. Proof. done. Qed.
#[export] Instance aside_inbox : Aside channel_event_inbox. Proof. done. Qed.
#[export] Instance aside_search : Aside message_search_outbox. Proof. done. Qed.
#[export] Instance aside_fanout : Aside channel_message_delivery_outbox. Proof. done. Qed.

(** ** Statements on messages *)

Section messages.
Context `{Oracle} `{ChannelRuntime} (z : Z).

Lemma update_messages_step p f t :
  (∀ m, m ∈ t_messages t → p m = true → message_step z m (f m)) →
  messages_step z t (set_rows messages (update_where p f (t_messages t)) t).
Proof.
  intros Hf. apply extends_update; [apply _|exact Hf].
Qed.

Lemma exec_update_messages p f t Q E :
  (∀ m, m ∈ t_messages t → p m = true → message_step z m (f m)) →
  (∀ n t', messages_step z t t' → Q n t') → exec (update messages p f) t Q E.
Proof.
  intros Hf HQ. apply exec_update; [|done]. intros _. apply HQ.
  by apply update_messages_step.
Qed.

Lemma steady_update_messages p f :
  (∀ m, message_step z m (f m)) → steady (messages_step z) (update messages p f).
Proof. intros Hf t. by apply exec_update_messages. Qed.

Lemma steady_insert_message r : steady (messages_step z) (insert_message r).
Proof.
  unfold insert_message. intros t. do 2 exec_step. apply exec_insert_row; [|done]. intros _.
  apply extends_app, _.
Qed.

Lemma steady_stamp c i : steady (messages_step z) (stamp_case c i).
Proof.
  unfold stamp_case. apply steady_bind; [apply _| |intros; apply steady_ret; apply _].
  apply steady_update_messages. intros m. split; [done|]. split; [done|]. split; [done|by left].
Qed.

Lemma set_sender_step i m : message_step z m (set_sender_participant i m).
Proof. split; [done|]. split; [done|]. split; [done|by left]. Qed.

Lemma next_status_rank u s : status_rank s ≤ status_rank (next_status u s).
Proof.
  assert (H3 : status_rank s ≤ 3) by (unfold status_rank; repeat case_match; lia).
  unfold next_status. destruct (String.eqb u "read"); [done|].
  destruct (String.eqb u "delivered" && (String.eqb s "pending" || String.eqb s "sent")) eqn:E1.
  { apply andb_true_iff in E1 as [_ E1]. apply orb_true_iff in E1 as [E1|E1]; apply String.eqb_eq in E1 as ->;
      vm_compute; lia. }
  destruct (String.eqb u "sent" && String.eqb s "pending") eqn:E2.
  { apply andb_true_iff in E2 as [_ E2]. apply String.eqb_eq in E2 as ->. vm_compute. lia. }
  destruct (String.eqb u "failed" && String.eqb s "pending") eqn:E3; [|done].
  apply andb_true_iff in E3 as [_ E3]. apply String.eqb_eq in E3 as ->. vm_compute. lia.
Qed.

Lemma set_delivery_step u m : message_step z m (set_delivery u m).
Proof. split; [done|]. split; [done|]. split; [apply next_status_rank|by left]. Qed.

Lemma edit_step p m : not_newer m z → message_step z m (edit_mutation p z m).
Proof. intros Hn. split; [done|]. split; [done|]. split; [done|by right]. Qed.
Lemma delete_step m : not_newer m z → message_step z m (delete_mutation z m).
Proof. intros Hn. split; [done|]. split; [done|]. split; [done|by right]. Qed.
Lemma upsert_step p v m : not_newer m z → message_step z m (upsert_message p v z m).
Proof. intros Hn. split; [done|]. split; [done|]. split; [done|by right]. Qed.

Lemma steady_record_sender v i e x : steady (messages_step z) (record_sender v i e x).
Proof.
  unfold record_sender. steady. apply steady_update_messages. intros m. apply set_sender_step.
Qed.
End messages.

(** ** Every event *)

(** messages.id is the primary key. *)
Definition message_ids_unique (t : tables) : Prop := unique_on (Some ∘ ms_id) (t_messages t) = true.

Lemma same_id t m m' : message_ids_unique t → m ∈ t_messages t → m' ∈ t_messages t → m.(ms_id) = m'.(ms_id) → m = m'.
Proof. intros Hu Hm Hm' Hid. eapply (unique_on_eq (Some ∘ ms_id)); [exact Hu|done..|]. cbn. by rewrite Hid. Qed.

Lemma steady_intro `{Oracle} R {A} (m : M A) t :
  steady R m → exec m t (λ _ t', R t t') (λ _ t', R t t').
Proof. intros Hm. apply Hm. Qed.

Section events.
Context `{Oracle} `{ChannelRuntime} (event : NormalizedChannelEvent) (z : Z).
Context (Hz : (occurred event).(ts_instant) = Some z).

Lemma exec_occurred t Q E : Q z t → exec (new_date (occurred event)) t Q E.
Proof using Hz. intros HQ. unfold new_date. rewrite Hz. by apply exec_ret. Qed.

(** The update of one message that an event has found. *)
Lemma exec_update_found t m f Q E :
  message_ids_unique t → m ∈ t_messages t → message_step z m (f m) →
  (∀ n t', messages_step z t t' → Q n t') → exec (update messages (message_is m.(ms_id)) f) t Q E.
Proof using.
  intros Hu Hm Hf HQ. apply (exec_update_messages z); [|done]. intros m' Hm' Hid. unfold message_is in Hid.
  to_prop. by rewrite (same_id t m' m Hu Hm' Hm Hid).
Qed.

Lemma exec_mutation p f t :
  message_ids_unique t → (∀ m, not_newer m z → message_step z m (f z m)) →
  exec (applyMessageMutation event p f) t (λ _ t', messages_step z t t') (λ _ t', messages_step z t t').
Proof using Hz.
  intros Hu Hf. unfold applyMessageMutation, findDependency, findMessage. do 3 exec_step.
  destruct (first _ _) as [m|] eqn:Hm; [|by apply exec_throw]. apply first_Some in Hm as [Hm _].
  apply exec_ret. exec_step. apply exec_occurred. destruct (outdated z m) eqn:Ho; [by apply exec_ret|].
  exec_step. eapply exec_update_found; [done|done|by apply Hf|]. intros n t' Ht. by apply exec_ret.
Qed.

Lemma exec_write_message p k v existing t :
  message_ids_unique t → (∀ m, existing = Some m → m ∈ t_messages t ∧ not_newer m z) →
  exec (write_message event p k v z existing) t (λ _ t', messages_step z t t') (λ _ t', messages_step z t t').
Proof using.
  intros Hu He. unfold write_message. destruct existing as [m|].
  - destruct (He m eq_refl) as [Hm Hn]. exec_step.
    eapply exec_update_found; [done|done|by apply upsert_step|]. intros n t' Ht. by apply exec_ret.
  - apply steady_intro. steady. apply steady_insert_message.
Qed.

Lemma exec_message_upsert p t :
  message_ids_unique t →
  exec (applyMessageUpsert event p) t (λ _ t', messages_step z t t') (λ _ t', messages_step z t t').
Proof using All.
  intros Hu. unfold applyMessageUpsert.
  apply (exec_steady_bind same_messages); [steady| |intros; by apply same_messages_step].
  intros v t1 H1. apply (exec_steady_bind same_messages); [steady| |].
  2: { intros e t2 H2. apply same_messages_step. by transitivity t1. }
  intros x t2 H2. apply (exec_steady_bind same_messages); [steady| |].
  2: { intros e t3 H3. apply same_messages_step. transitivity t1; [done|by transitivity t2]. }
  intros k t3 H3. assert (Ht : same_messages t t3) by (transitivity t1; [done|by transitivity t2]).
  exec_step. apply exec_occurred. unfold findMessage. do 2 exec_step.
  set (existing := first _ _).
  assert (He : ∀ m, existing = Some m → m ∈ t_messages t3).
  { intros m Hm. apply first_Some in Hm as [Hm _]. done. }
  assert (Hu3 : message_ids_unique t3) by (unfold message_ids_unique; by rewrite Ht).
  destruct (match existing with Some m => outdated z m | None => false end) eqn:Hout.
  { apply exec_ret. by apply same_messages_step. }
  apply exec_bind. eapply exec_weaken; [apply exec_write_message; [exact Hu3|]|..]; cbv beta.
  { intros m Hm. split; [by apply He|]. by rewrite Hm in Hout. }
  2: { intros e t4 H4. etrans; [by apply same_messages_step|done]. }
  intros i t4 H4. assert (H04 : messages_step z t t4) by (etrans; [by apply same_messages_step|done]).
  eapply exec_weaken;
    [apply (steady_intro (messages_step z))|intros a t5 H5; by etrans|intros e t5 H5; by etrans].
  steady; [apply steady_record_sender|apply steady_record_inbound; try apply _; apply steady_stamp].
Qed.

Lemma exec_applyDurableEvent t :
  message_ids_unique t →
  exec (applyDurableEvent event) t (λ _ t', messages_step z t t') (λ _ t', messages_step z t t').
Proof using All.
  intros Hu. unfold applyDurableEvent. destruct (ev_payload event);
    try (apply exec_message_upsert; done); try (apply exec_mutation; [done|]; auto using edit_step, delete_step);
    apply steady_intro; unfold applyParticipantUpsert, applyParticipantRemove, applyReactionMutation, applyDeliveryUpdate,
    applyAttachmentEvent, applySyncCheckpoint, findDependency, findMessage; steady.
  apply steady_update_messages. intros m. apply set_delivery_step.
Qed.

Lemma exec_apply_reserved_messages digest t :
  message_ids_unique t →
  exec (apply_reserved event digest) t (λ _ t', messages_step z t t') (λ _ t', messages_step z t t').
Proof using All.
  intros Hu. unfold apply_reserved. exec_step. do 2 exec_step.
  destruct (first _ _) as [r|]; [|by apply exec_throw]. destruct (bool_decide _); [by apply exec_throw|].
  destruct (ib_status r); [|by apply exec_ret|by apply exec_throw].
  exec_step. unfold requireMatchingAccount. do 2 exec_step. destruct (first _ _) as [a|]; [|by apply exec_throw].
  destruct (_ || _); [by apply exec_throw|]. apply exec_ret. apply exec_bind.
  eapply exec_weaken; [by apply exec_applyDurableEvent|..]; cbv beta; [|done].
  intros applied t1 H1. eapply exec_weaken; [apply (steady_intro (messages_step z))|..]; cbv beta;
    [steady|intros b t2 H2; by etrans|intros; done].
Qed.
End events.

Lemma exec_delivery_messages `{Oracle} `{ChannelRuntime} event t :
  message_ids_unique t →
  let z := default 0%Z (occurred event).(ts_instant) in
  exec (applyNormalizedChannelEvent event) t (λ _ t', messages_step z t t') (λ _ t', messages_step z t t').
Proof.
  intros Hu z. unfold applyNormalizedChannelEvent, assertNormalizedChannelEvent. exec_step.
  destruct (event_refusal event) as [m|] eqn:Href; [by apply exec_throw|]. apply exec_ret.
  assert (Hz : (occurred event).(ts_instant) = Some z).
  { assert (Hsome : is_Some (ts_instant (occurred event))); [|destruct Hsome as [w Hw]; unfold z; by rewrite Hw].
    revert Href. unfold event_refusal, occurred. repeat (destruct (negb _); [done|]).
    destruct (ts_instant (ev_receivedAt event)) eqn:Er; [|done]. cbn.
    destruct (ev_providerOccurredAt event) as [p|]; cbn; [|by rewrite Er]. by destruct (ts_instant p). }
  clearbody z. destruct (negb _); [by apply exec_ret|].
  apply (exec_steady_bind same_messages); [unfold reserveInboxEvent; steady| |intros; by apply same_messages_step].
  intros [|] t1 H1; [|apply exec_ret; by apply same_messages_step].
  assert (Hu1 : message_ids_unique t1) by (unfold message_ids_unique; by rewrite H1).
  exec_step. eapply exec_weaken; [by apply (exec_apply_reserved_messages event z Hz)|..]; cbv beta.
  - intros a t2 H2. etrans; [by apply same_messages_step|done].
  - intros e t2 H2. eapply exec_weaken; [apply (steady_intro (messages_step z))|..]; cbv beta.
    + unfold recordApplicationFailure. steady.
    + intros b t3 H3. etrans; [by apply same_messages_step|by etrans].
    + intros e' t3 H3. etrans; [by apply same_messages_step|by etrans].
Qed.

(** C9: Whatever event is delivered, and whether it is applied or fails: no message is lost,
    none changes its identity, a deleted one stays deleted, a delivery status does not
    go back, and the body of a message that is newer than the event does not change. *)
Theorem messages_follow_clock `{Oracle} `{ChannelRuntime} event s :
  message_ids_unique (tb s) →
  messages_step (default 0%Z (occurred event).(ts_instant)) (tb s)
    (tb (applyNormalizedChannelEvent event s).2).
Proof.
  intros Hu. assert (Hx := exec_run _ s _ _ (exec_delivery_messages event (tb s) Hu)).
  by destruct (applyNormalizedChannelEvent event s) as [[a|e] s'].
Qed.

(** ** Edits converge *)

Abbreviation edit := (Z * MessageMutationEventPayload)%type.

(** The time and the payload of an edit event. *)
Definition edit_at (event : NormalizedChannelEvent) : option edit :=
  match event.(ev_payload), (occurred event).(ts_instant) with
  | MessageEditEvent p, Some z => Some (z, p)
  | _, _ => None
  end.

(** An edit of the message that the account, the scope and the identifier name. *)
Definition edits_of (target : string * string * string) (event : NormalizedChannelEvent) : Prop :=
  ∃ z p, edit_at event = Some (z, p)
  ∧ (event.(ev_channelAccountId), p.(mm_externalIdentityScope), p.(mm_externalMessageId)) = target.
Definition target_of (target : string * string * string) (m : message_row) : bool :=
  externally_named target.1.1 target.1.2 target.2 m.

(** What one edit makes of its message. *)
Definition apply_edit (m : message_row) (e : edit) : message_row :=
  if outdated e.1 m then m else edit_mutation e.2 e.1 m.

(** The reference: the newest edit alone, unless the message is newer still. *)
Definition newer_edit (best : option edit) (e : edit) : option edit :=
  match best with Some b => if (e.1 <? b.1)%Z then best else Some e | None => Some e end.
Definition newest (es : list edit) : option edit := foldl newer_edit None es.
Definition newest_edit (es : list edit) (m : message_row) : message_row :=
  match newest es with Some e => apply_edit m e | None => m end.

Lemma edits_newest es m : foldl apply_edit m es = newest_edit es m.
Proof.
  induction es as [|x es IH] using rev_ind; [done|]. unfold newest_edit, newest in *. rewrite !foldl_app. cbn.
  rewrite IH. destruct (foldl newer_edit None es) as [y|]; [|done]. cbn [newer_edit].
  destruct (Z.ltb_spec x.1 y.1) as [Hxy|Hxy]; unfold apply_edit; destruct (outdated y.1 m) eqn:Hy; try done.
  - replace (outdated x.1 m) with true; [done|]. unfold outdated in *.
    destruct (nm_provider_occurred_at (ms_neutral m)); [|done]. lia.
  - unfold outdated at 1. cbn. by rewrite (proj2 (Z.ltb_lt _ _) Hxy).
  - replace (outdated x.1 m) with false.
    + unfold outdated. cbn. by rewrite (proj2 (Z.ltb_ge _ _) Hxy).
    + unfold outdated in *. destruct (nm_provider_occurred_at (ms_neutral m)); [|done]. lia.
Qed.

Lemma newest_spec es :
  match newest es with Some y => y ∈ es ∧ ∀ x, x ∈ es → (x.1 ≤ y.1)%Z | None => es = [] end.
Proof.
  induction es as [|x es IH] using rev_ind; [done|]. unfold newest in *. rewrite foldl_app. cbn.
  destruct (foldl newer_edit None es) as [y|]; cbn.
  - destruct IH as [Hy Hmax]. destruct (Z.ltb_spec x.1 y.1); (split; [set_solver|]); intros w.
    + rewrite elem_of_app, list_elem_of_singleton. intros [Hw| ->]; [by apply Hmax|lia].
    + rewrite elem_of_app, list_elem_of_singleton. intros [Hw| ->]; [|lia]. specialize (Hmax w Hw). lia.
  - subst es. split; [by left|]. intros w Hw%list_elem_of_singleton. by subst.
Qed.

Lemma newest_permutation es es' : NoDup es.*1 → es' ≡ₚ es → newest es' = newest es.
Proof.
  intros Hnd Hp. assert (H1 := newest_spec es). assert (H2 := newest_spec es').
  destruct (newest es) as [y|], (newest es') as [y'|]; [| | |done].
  - destruct H1 as [Hy Hmax], H2 as [Hy' Hmax']. rewrite Hp in Hy'. f_equal.
    assert (Hz : y'.1 = y.1). { assert (y.1 ≤ y'.1)%Z by (apply Hmax'; by rewrite Hp). specialize (Hmax y' Hy'). lia. }
    apply list_elem_of_lookup_1 in Hy as [i Hi], Hy' as [j Hj].
    assert (i = j) as <-; [|congruence]. eapply (NoDup_lookup es.*1 i j y.1); [done|..].
    + by rewrite list_lookup_fmap, Hi.
    + by rewrite list_lookup_fmap, Hj, <- Hz.
  - subst es'. apply Permutation_nil_l in Hp. subst es. by destruct H1 as [H1%not_elem_of_nil _].
  - subst es. symmetry in Hp. apply Permutation_nil_l in Hp. subst es'. by destruct H2 as [H2%not_elem_of_nil _].
Qed.

Lemma update_found_ext t m f g :
  message_ids_unique t → m ∈ t_messages t → f m = g m →
  update_where (message_is m.(ms_id)) f (t_messages t) = update_where (message_is m.(ms_id)) g (t_messages t).
Proof.
  intros Hu Hm Hfg. unfold update_where. apply list_fmap_ext. intros i x Hx.
  unfold message_is. destruct (bool_decide _) eqn:E; to_prop; [|done].
  assert (x = m) as ->; [|done]. apply (same_id t); [done|by eapply list_elem_of_lookup_2|done|done].
Qed.

Section edits.
Context `{Oracle} `{ChannelRuntime} (target : string * string * string).

Lemma exec_edit event e m t :
  edit_at event = Some e → edits_of target event →
  message_ids_unique t → first (target_of target) (t_messages t) = Some m →
  exec (applyDurableEvent event) t
    (λ _ t', t_messages t' = update_where (message_is m.(ms_id)) (λ x, apply_edit x e) (t_messages t))
    (λ _ _, False).
Proof.
  intros He (z & p & He' & Ht) Hu Hm. rewrite He in He'. injection He' as ->. unfold edit_at in He.
  unfold applyDurableEvent. destruct (ev_payload event); try done. destruct (ts_instant _) eqn:Hz; [|done].
  injection He as -> ->. unfold applyMessageMutation, findDependency, findMessage. do 3 exec_step.
  assert (Hf : first (externally_named (ev_channelAccountId event) (mm_externalIdentityScope p) (mm_externalMessageId p))
                 (rows messages t) = Some m) by by rewrite <- Ht in Hm.
  rewrite Hf. apply exec_ret. apply exec_bind, (exec_occurred event z Hz).
  assert (Hin : m ∈ t_messages t) by by apply first_Some in Hm as [Hm _].
  destruct (outdated z m) eqn:Ho.
  - apply exec_ret. rewrite <- (update_where_same (message_is m.(ms_id)) (t_messages t)) at 1.
    apply update_found_ext; [done|done|]. unfold apply_edit. cbn. by rewrite Ho.
  - apply exec_bind, exec_update; [|done]. intros _. apply exec_ret.
    apply (update_found_ext t m); [done|done|]. unfold apply_edit. cbn. by rewrite Ho.
Qed.

Lemma apply_edit_kept e m :
  (apply_edit m e).(ms_id) = m.(ms_id) ∧ target_of target (apply_edit m e) = target_of target m.
Proof using. unfold apply_edit. by destruct (outdated _ _). Qed.

Lemma exec_edits events es m t :
  Forall (edits_of target) events → es = omap edit_at events →
  message_ids_unique t → first (target_of target) (t_messages t) = Some m →
  exec (mapM applyDurableEvent events) t
    (λ _ t', t_messages t' = update_where (message_is m.(ms_id)) (λ x, foldl apply_edit x es) (t_messages t))
    (λ _ _, False).
Proof.
  intros Hf. revert es m t. induction Hf as [|event events He _ IH]; intros es m t -> Hu Hm.
  - apply exec_ret. cbn. by rewrite update_where_same.
  - cbn [mapM]. destruct He as (z & p & Hz & Ht). cbn [omap list_omap]. rewrite Hz.
    assert (Hed : edits_of target event) by (exists z, p; done).
    apply exec_bind. eapply exec_weaken; [by apply (exec_edit event (z, p) m)|..]; cbv beta; [|done].
    intros a t' Ht'. destruct (apply_edit_kept (z, p) m) as [Hid _].
    assert (Hm' : first (target_of target) (t_messages t') = Some (apply_edit m (z, p))).
    { rewrite Ht', first_update_any by (intros x; apply apply_edit_kept). rewrite Hm. cbn.
      unfold message_is. by rewrite bool_decide_eq_true_2. }
    assert (Hu' : message_ids_unique t').
    { unfold message_ids_unique. rewrite Ht'. apply unique_on_update; [done|]. intros x _ _. left. cbn.
      by rewrite (proj1 (apply_edit_kept (z, p) x)). }
    apply exec_bind. eapply exec_weaken; [by apply (IH (omap edit_at events) (apply_edit m (z, p)))|..]; cbv beta; [|done].
    intros answers t2 Ht2. apply exec_ret. rewrite Ht2, Ht', Hid. cbn [foldl]. unfold update_where.
    rewrite <- list_fmap_compose. apply list_fmap_ext. intros i x _. unfold compose, message_is.
    destruct (bool_decide (ms_id x = ms_id m)) eqn:Ex; [|by rewrite Ex].
    by rewrite (proj1 (apply_edit_kept (z, p) x)), Ex.
Qed.

(** C10: The edits of a message may arrive in any order: when no two of them have the same
    time, every order leaves the messages as the newest edit alone would, or unchanged
    when the message is newer than all of them. *)
Theorem edits_converge events events' m s :
  message_ids_unique (tb s) → first (target_of target) (t_messages (tb s)) = Some m →
  Forall (edits_of target) events → NoDup (omap edit_at events).*1 → events' ≡ₚ events →
  match mapM applyDurableEvent events' s with
  | (Ok _, s') =>
      t_messages (tb s') = update_where (message_is m.(ms_id)) (newest_edit (omap edit_at events)) (t_messages (tb s))
  | (Throw _, _) => False
  end.
Proof.
  intros Hu Hm Hf Hnd Hp. assert (Hf' : Forall (edits_of target) events') by by rewrite Hp.
  assert (Hx := exec_run _ s _ _ (exec_edits events' _ m (tb s) Hf' eq_refl Hu Hm)).
  destruct (mapM _ _ _) as [[a|e] s']; [|done]. rewrite Hx. unfold update_where. apply list_fmap_ext. intros i x _.
  rewrite edits_newest. unfold newest_edit. by rewrite (newest_permutation (omap edit_at events)) by by rewrite ?Hp.
Qed.
End edits.
