(* ===== verification/ChannelCustomers.v ===== *)
(** Customers under events: no identity is ever reassigned.

    [attachWorkflowContact] of event-processor.ts decides which customer a conversation
    belongs to.  Whatever event arrives, an endpoint that belongs to a customer and a
    conversation that names one keep it, and the customers themselves only grow in
    number; a conversation gets a customer only when it is direct and one person stands
    for it. *)

From S2P Require Import Prelude Js Json SpineRows TenantDb SpineDb Exec Steady Workflow Cases Outbound ChannelOutbound ChannelEvents ChannelEventSpec.

(** ** What is kept *)

Definition endpoint_step (r r' : endpoint_row) : Prop :=
  r'.(ep_id) = r.(ep_id) ∧ ∀ k, r.(ep_contact_id) = Some k → r'.(ep_contact_id) = Some k.
Definition conversation_step (r r' : conversation_row) : Prop :=
  r'.(cv_id) = r.(cv_id) ∧ ∀ k, r.(cv_legacy_contact_id) = Some k → r'.(cv_legacy_contact_id) = Some k.

#[export] Instance endpoint_step_preorder : PreOrder endpoint_step.
Proof.
  split; [done|]. intros r1 r2 r3 [H1 K1] [H2 K2]. split; [congruence|]. auto.
Qed.
#[export] Instance conversation_step_preorder : PreOrder conversation_step.
Proof.
  split; [done|]. intros r1 r2 r3 [H1 K1] [H2 K2]. split; [congruence|]. auto.
Qed.

Definition endpoints (t : tables) : list endpoint_row := s_endpoints (t_spine t).

(** contact_endpoints.id is the primary key. *)
Definition endpoint_ids_unique (t : tables) : Prop := unique_on (Some ∘ ep_id) (endpoints t) = true.

Definition customers_kept (t t' : tables) : Prop :=
  extends endpoint_step (endpoints t) (endpoints t')
  ∧ extends conversation_step (t_conversations t) (t_conversations t')
  ∧ extends eq (t_contacts t) (t_contacts t')
  ∧ (endpoint_ids_unique t → endpoint_ids_unique t').

#[export] Instance customers_kept_preorder : PreOrder customers_kept.
Proof.
  split.
  - intros t. split; [reflexivity|]. split; [reflexivity|]. split; [reflexivity|done].
  - intros t1 t2 t3 (E1 & V1 & K1 & U1) (E2 & V2 & K2 & U2).
    split; [by etrans|]. split; [by etrans|]. split; [by etrans|auto].
Qed.

(** A table whose rows name no customer of an endpoint or a conversation. *)
Class Apart {A} (T : table A) : Prop :=
  apart : ∀ l t, endpoints (set_rows T l t) = endpoints t
    ∧ t_conversations (set_rows T l t) = t_conversations t ∧ t_contacts (set_rows T l t) = t_contacts t.
#[export] Instance apart_kept {A} (T : table A) `{!Apart T} : Frame customers_kept T.
Proof.
  intros l t. destruct (apart (T := T) l t) as (He & Hv & Hk). unfold customers_kept, endpoint_ids_unique.
  rewrite He, Hv, Hk. split; [reflexivity|]. split; [reflexivity|]. split; [reflexivity|done].
Qed.

#[export] Instance apart_cases : Apart cases. Proof. done. Qed.
#[export] Instance apart_states : Apart states. Proof. done. Qed.
#[export] Instance apart_assignments : Apart assignments. Proof. done. Qed.
#[export] Instance apart_messages : Apart messages. Proof. done. Qed.
#[export] Instance apart_accounts : Apart channel_accounts. Proof. done. Qed.
#[export] Instance apart_participants : Apart conversation_participants. Proof. done. Qed.
#[export] Instance apart_message_participants : Apart message_participants. Proof. done. Qed.
#[export] Instance apart_attachments : Apart message_attachments. Proof. done. Qed.
#[export] Instance apart_reactions : Apart message_reactions. Proof. done. Qed.
#[export] Instance apart_deliveries : Apart message_delivery_events. Proof. done. Qed.
#[export] Instance apart_sync : Apart conversation_sync_states. Proof. done. Qed.
#[export] Instance apart_inbox : Apart channel_event_inbox. Proof. done. Qed.
#[export] Instance apart_search : Apart message_search_outbox. Proof. done. Qed.
#[export] Instance apart_fanout : Apart channel_message_delivery_outbox. Proof. done. Qed.

(** ** Statements on the three tables *)

Section statements.
Context `{Oracle} `{ChannelRuntime}.

Lemma exec_update_conversations p f t Q E :
  (∀ r, r ∈ t_conversations t → p r = true → conversation_step r (f r)) →
  (∀ n t', customers_kept t t' → Q n t') → (∀ e, E e t) → exec (update conversations p f) t Q E.
Proof.
  intros Hf HQ HE. apply exec_update; [|auto]. intros _. apply HQ. split; [reflexivity|].
  split; [apply extends_update; [apply _|exact Hf]|]. split; [reflexivity|done].
Qed.

Lemma steady_update_conversations p f :
  (∀ r, p r = true → conversation_step r (f r)) → steady customers_kept (update conversations p f).
Proof. intros Hf t. apply exec_update_conversations; [auto|auto|reflexivity]. Qed.

Lemma steady_insert_conversation r : steady customers_kept (insert_row conversations r).
Proof.
  intros t. apply exec_insert_row; [|reflexivity]. intros _. split; [reflexivity|].
  split; [apply extends_app, _|]. split; [reflexivity|done].
Qed.

Lemma steady_insert_contact r : steady customers_kept (insert_row contacts r).
Proof.
  intros t. apply exec_insert_row; [|reflexivity]. intros _. split; [reflexivity|].
  split; [reflexivity|]. split; [apply extends_app, _|done].
Qed.

Lemma exec_update_endpoints p f t Q E :
  (∀ r, r ∈ endpoints t → p r = true → endpoint_step r (f r)) →
  (∀ n t', customers_kept t t' → Q n t') → (∀ e, E e t) → exec (update contact_endpoints p f) t Q E.
Proof.
  intros Hf HQ HE. apply exec_update; [|auto]. intros _. apply HQ.
  change (rows contact_endpoints t) with (endpoints t).
  split; [by apply extends_update; [apply _|]|]. split; [reflexivity|]. split; [reflexivity|].
  intros Hu. apply unique_on_update; [exact Hu|]. intros r Hr Hp. left. cbn. f_equal. by apply Hf.
Qed.

Lemma steady_update_endpoints p f :
  (∀ r, endpoint_step r (f r)) → steady customers_kept (update contact_endpoints p f).
Proof. intros Hf t. apply exec_update_endpoints; [auto|auto|reflexivity]. Qed.

Lemma steady_insert_endpoint r : steady customers_kept (insert_row contact_endpoints r).
Proof.
  intros t. apply exec_insert_row; [|reflexivity]. intros Hc. split; [apply extends_app, _|].
  split; [reflexivity|]. split; [reflexivity|]. intros _. unfold endpoint_ids_unique.
  cbn -[unique_on] in Hc. change (endpoints _) with (s_endpoints (t_spine t) ++ [r]). by destruct (unique_on _ _).
Qed.

Lemma kept_ensureConversation e c p m : steady customers_kept (ensureConversation e c p m).
Proof.
  unfold ensureConversation. steady; [|apply steady_insert_conversation].
  by apply steady_update_conversations.
Qed.
Lemma kept_ensureEndpoint e x : steady customers_kept (ensureEndpoint e x).
Proof.
  unfold ensureEndpoint. steady; [|apply steady_insert_endpoint]. by apply steady_update_endpoints.
Qed.
Lemma kept_participant_identity e c x u : steady customers_kept (participant_identity e c x u).
Proof. unfold participant_identity. steady; [apply kept_ensureConversation|apply kept_ensureEndpoint]. Qed.
End statements.

(** ** The customer of a conversation *)

Section attach.
Context `{Oracle} `{ChannelRuntime} (v : string) (candidate : option string).

(** The endpoints that may stand for the conversation's customer. *)
Definition candidates_of (t : tables) : list endpoint_row :=
  match candidate with
  | Some id => keep (λ r, bool_decide (r.(ep_id) = id)) (endpoints t)
  | None => endpoints_of (endpoints t) (keep (external_participant v) (s_participants (t_spine t)))
  end.

Lemma exec_candidates t Q E :
  Q (candidates_of t) t → exec (customer_candidates v candidate) t Q E.
Proof using.
  intros HQ. unfold customer_candidates, candidates_of in *. destruct candidate; [by exec_step|].
  do 5 exec_step. change (rows contact_endpoints t) with (endpoints t). by rewrite (keep_all (λ _, true)) by (by apply Forall_true).
Qed.

Lemma candidates_endpoints t e : e ∈ candidates_of t → e ∈ endpoints t.
Proof using.
  unfold candidates_of. destruct candidate; [by intros [_ ?]%elem_of_keep|].
  unfold endpoints_of. rewrite list_elem_of_bind. by intros (p & [_ He]%elem_of_keep & _).
Qed.

(** The tables of the workflow are untouched. *)
Definition same_workflow (t t' : tables) : Prop :=
  t_states t' = t_states t ∧ t_assignments t' = t_assignments t ∧ t_cases t' = t_cases t.
#[local] Instance same_workflow_preorder : PreOrder same_workflow.
Proof. split; [done|]. intros t1 t2 t3 (?&?&?) (?&?&?). unfold same_workflow. split_and!; congruence. Qed.

(** The contact of the endpoint, or a new one. *)
Definition customer_found (e : endpoint_row) (k : string) (t t' : tables) : Prop :=
  match e.(ep_contact_id) with
  | Some k' => k = k' ∧ t' = t
  | None => ∃ now, t' = set_rows contacts (t_contacts t ++ [new_customer k e now]) t
  end.

Lemma exec_customer_of e t :
  exec (customer_of e) t (λ k t', customer_found e k t t') (λ _ t', t' = t).
Proof using.
  unfold customer_of, customer_found. destruct (ep_contact_id e) as [k|]; [by apply exec_ret|].
  do 4 exec_step. apply exec_bind, exec_insert_row; [|done]. intros _. apply exec_ret. by eexists.
Qed.

Lemma customer_found_kept e k t t' : customer_found e k t t' → endpoints t' = endpoints t
  ∧ t_conversations t' = t_conversations t ∧ customers_kept t t' ∧ same_workflow t t'.
Proof using.
  unfold customer_found. destruct (ep_contact_id e); [intros [_ ->]|intros [now ->]]; (split; [done|split; [done|]]).
  - split; reflexivity.
  - split; [|done]. split; [reflexivity|]. split; [reflexivity|]. split; [apply extends_app, _|done].
Qed.

Lemma exec_adopt e k t Q E :
  endpoint_ids_unique t → e ∈ endpoints t →
  (∀ t', customers_kept t t' → same_workflow t t' →
     t_conversations t' = t_conversations t → t_contacts t' = t_contacts t →
     (∀ r, r ∈ endpoints t' → r.(ep_id) = e.(ep_id) → r.(ep_contact_id) = Some (default k e.(ep_contact_id))) → Q tt t') →
  (∀ e', E e' t) →
  exec (when (is_null e.(ep_contact_id))
          (now ← toDbDate;
           _ ← update contact_endpoints (λ r, bool_decide (r.(ep_id) = e.(ep_id))) (adopt_endpoint k now);
           mret tt)) t Q E.
Proof using.
  intros Hu He HQ HE.
  assert (Hsame : ∀ r, r ∈ endpoints t → r.(ep_id) = e.(ep_id) → r = e).
  { intros r Hr Hid. eapply (unique_on_eq (Some ∘ ep_id)); [exact Hu|done..|]. cbn. by rewrite Hid. }
  destruct (ep_contact_id e) as [k'|] eqn:Hk; cbn [is_null when].
  - apply exec_ret, HQ; [reflexivity|done|done|done|]. intros r Hr Hid. by rewrite (Hsame r Hr Hid).
  - do 2 exec_step. apply exec_bind, exec_update; [|done]. change (rows contact_endpoints t) with (endpoints t).
    intros _. apply exec_ret, HQ; [|done|done|done|].
    + split; [apply extends_update; [apply _|]|split; [reflexivity|split; [reflexivity|]]].
      * intros r Hr Hid. to_prop. rewrite (Hsame r Hr Hid). split; [done|]. by rewrite Hk.
      * intros _. apply unique_on_update; [exact Hu|]. intros r _ _. by left.
    + intros r (r0 & Hr0 & ->)%elem_of_update_where. destruct (bool_decide _) eqn:Eid; to_prop; [done|].
      intros Hid. done.
Qed.

(** The conversation names the customer, unless another one does already. *)
Definition customer_named (k : string) (t t' : tables) : Prop :=
  (∃ r, r ∈ t_conversations t' ∧ r.(cv_legacy_contact_id) = Some k)
  ∧ ((∀ r, r ∈ t_conversations t → r.(cv_legacy_contact_id) ≠ Some k) →
     ∃ r, r ∈ t_conversations t' ∧ r.(cv_id) = v ∧ r.(cv_legacy_contact_id) = Some k).

Lemma exec_link {A} k (rest : M A) t Q E :
  (∃ r, r ∈ t_conversations t ∧ r.(cv_id) = v ∧ r.(cv_legacy_contact_id) = None) →
  (∀ t', customers_kept t t' → same_workflow t t' → endpoints t' = endpoints t →
     t_contacts t' = t_contacts t → customer_named k t t' → exec rest t' Q E) →
  (∀ e', E e' t) →
  exec (alreadyLinked ← select_first conversations (λ r, is_id k r.(cv_legacy_contact_id));
        _ ← when (is_null alreadyLinked)
              (now ← toDbDate;
               _ ← update conversations (λ r, bool_decide (r.(cv_id) = v) && is_null r.(cv_legacy_contact_id))
                     (link_contact k now);
               mret tt);
        rest) t Q E.
Proof using All.
  intros (r0 & Hr0 & Hid & Hnull) HQ HE. do 2 exec_step. apply exec_bind.
  destruct (first _ _) as [r|] eqn:Hfirst; cbn [is_null when].
  - apply exec_ret, HQ; [reflexivity|done|done|done|]. apply first_Some in Hfirst as [Hr Hk]. unfold is_id in Hk.
    to_prop. split; [eauto|]. intros Hnone. by destruct (Hnone r Hr).
  - do 2 exec_step. apply exec_bind, exec_update; [|done]. intros _. apply exec_ret, HQ; [|done|done|done|].
    + split; [reflexivity|]. split; [apply extends_update; [apply _|]|by split; [reflexivity|]].
      intros r _ Hp. apply andb_true_iff in Hp as [_ Hp]. split; [done|]. intros k' Hk'. by rewrite Hk' in Hp.
    + assert (Hnamed : ∃ r, r ∈ t_conversations (set_rows conversations
          (update_where (λ r, bool_decide (cv_id r = v) && is_null (cv_legacy_contact_id r))
             (link_contact k z) (t_conversations t)) t)
          ∧ r.(cv_id) = v ∧ r.(cv_legacy_contact_id) = Some k).
      { eexists. split; [apply elem_of_update_where; exists r0; split; [done|reflexivity]|].
        by rewrite Hid, bool_decide_eq_true_2, Hnull. }
      split; [|done]. destruct Hnamed as (r & Hr & _ & Hk). eauto.
Qed.

(** Row by row: those of the conversation that named nobody name [k] now, every other row
    names whom it named, and no row changes its conversation. *)
Definition named_after {R} (k : string) (conversation contact : R → option string) (l l' : list R) : Prop :=
  Forall2 (λ r r', conversation r' = conversation r
    ∧ contact r' = if bool_decide (conversation r = Some v ∧ contact r = None) then Some k else contact r) l l'.

Definition workflow_claimed (k : string) (t t' : tables) : Prop :=
  named_after k cs_conversation_id cs_contact_id (t_states t) (t_states t')
  ∧ named_after k ca_conversation_id ca_contact_id (t_assignments t) (t_assignments t')
  ∧ named_after k cc_conversation_id cc_contact_id (t_cases t) (t_cases t').

Lemma named_after_update {R} k (conversation contact : R → option string) (f : R → R) l :
  (∀ r, conversation (f r) = conversation r) → (∀ r, contact (f r) = Some k) →
  named_after k conversation contact l
    (update_where (λ r, is_id v (conversation r) && is_null (contact r)) f l).
Proof using.
  intros Hconv Hf. unfold named_after, update_where. apply Forall2_fmap_r, Forall_Forall2_diag, Forall_true.
  intros r. unfold compose, is_id. destruct (bool_decide (conversation r = Some v)) eqn:Ev;
    [apply bool_decide_eq_true_1 in Ev|apply bool_decide_eq_false_1 in Ev]; cbn [andb].
  2: { rewrite bool_decide_eq_false_2; [|by intros []]. done. }
  destruct (contact r) eqn:Ec; cbn [is_null].
  - rewrite bool_decide_eq_false_2; [done|]. by intros [].
  - rewrite bool_decide_eq_true_2; [|done]. by rewrite Hconv, Hf.
Qed.

Lemma exec_backfill k t :
  exec (backfill_workflow v k) t
    (λ _ t', customers_kept t t' ∧ endpoints t' = endpoints t ∧ t_conversations t' = t_conversations t
       ∧ t_contacts t' = t_contacts t ∧ workflow_claimed k t t') (λ _ t', customers_kept t t').
Proof using All.
  eapply exec_weaken; [apply (exec_steady customers_kept _ t (λ _ t', endpoints t' = endpoints t
    ∧ t_conversations t' = t_conversations t ∧ t_contacts t' = t_contacts t ∧ workflow_claimed k t t'))|..]; cbv beta.
  { apply steady_backfill_workflow; apply _. }
  { unfold backfill_workflow. apply exec_bind, exec_update; [intros _|done]. apply exec_bind, exec_update; [intros _|done].
    apply exec_bind, exec_update; [intros _|done]. apply exec_ret.
    split; [done|]. split; [done|]. split; [done|]. split; [|split]; by apply named_after_update. }
  all: tauto.
Qed.

(** The endpoint [e] stands for the customer [k] of the conversation now. *)
Definition claimed_by (e : endpoint_row) (k : string) (t t' : tables) : Prop :=
  match e.(ep_contact_id) with
  | Some k' => k = k' ∧ t_contacts t' = t_contacts t
  | None => ∃ now, t_contacts t' = t_contacts t ++ [new_customer k e now]
  end
  ∧ (∀ r, r ∈ endpoints t' → r.(ep_id) = e.(ep_id) → r.(ep_contact_id) = Some k)
  ∧ customer_named k t t'
  ∧ workflow_claimed k t t'.

Lemma exec_claim_customer e t :
  endpoint_ids_unique t → e ∈ endpoints t →
  (∃ r, r ∈ t_conversations t ∧ r.(cv_id) = v ∧ r.(cv_legacy_contact_id) = None) →
  exec (contactId ← customer_of e;
        _ ← when (is_null e.(ep_contact_id))
              (now ← toDbDate;
               _ ← update contact_endpoints (λ r, bool_decide (r.(ep_id) = e.(ep_id))) (adopt_endpoint contactId now);
               mret tt);
        alreadyLinked ← select_first conversations (λ r, is_id contactId r.(cv_legacy_contact_id));
        _ ← when (is_null alreadyLinked)
              (now ← toDbDate;
               _ ← update conversations (λ r, bool_decide (r.(cv_id) = v) && is_null r.(cv_legacy_contact_id))
                     (link_contact contactId now);
               mret tt);
        _ ← backfill_workflow v contactId;
        mret (Some contactId)) t
    (λ a t', customers_kept t t' ∧ ∃ k, a = Some k ∧ claimed_by e k t t') (λ _ t', customers_kept t t').
Proof using All.
  intros Hu He Hrow. apply exec_bind. eapply exec_weaken; [apply exec_customer_of|..]; cbv beta.
  2: { intros e' t' ->. reflexivity. }
  intros k t1 Hfound. destruct (customer_found_kept e k t t1 Hfound) as (He1 & Hv1 & Hk1 & Hw1).
  apply exec_bind, (exec_adopt e k); [unfold endpoint_ids_unique; by rewrite He1|by rewrite He1| |done].
  intros t2 Hk2 Hw2 Hv2 Hc2 Hown. assert (Hk02 : customers_kept t t2) by by etrans.
  apply exec_link; [by rewrite Hv2, Hv1| |done].
  intros t3 Hk3 Hw3 He3 Hc3 Hnamed. assert (Hk03 : customers_kept t t3) by by etrans.
  apply exec_bind. eapply exec_weaken; [apply exec_backfill|..]; cbv beta.
  2: { intros e' t4 Hk4. by etrans. }
  intros _ t4 (Hk4 & He4 & Hv4 & Hc4 & Hclaim). apply exec_ret. split; [by etrans|].
  exists k. split; [done|]. unfold claimed_by. rewrite Hc4, Hc3, Hc2, He4, He3.
  assert (same_workflow t t3) as (Hws & Hwa & Hwc) by (etrans; [done|by etrans]).
  unfold workflow_claimed in *. rewrite <- Hws, <- Hwa, <- Hwc.
  unfold customer_named in *. rewrite Hv4. rewrite <- Hv1, <- Hv2.
  unfold customer_found in Hfound. split; [|split; [|done]].
  - destruct (ep_contact_id e); [by destruct Hfound as [-> ->]|]. destruct Hfound as [now ->]. by exists now.
  - intros r Hr Hid. rewrite (Hown r Hr Hid). destruct (ep_contact_id e); [by destruct Hfound as [-> _]|done].
Qed.

(** What [attachWorkflowContact] answers, and leaves. *)
Definition attach_outcome (t : tables) (answer : option string) (t' : tables) : Prop :=
  ∃ c, first (λ r, bool_decide (r.(cv_id) = v)) (t_conversations t) = Some c ∧
  match c.(cv_legacy_contact_id) with
  | Some k => answer = Some k ∧ t' = t
  | None =>
      match (if bool_decide (c.(cv_kind) = kind_direct) then keep is_customer_kind (candidates_of t) else []) with
      | [e] => ∃ k, answer = Some k ∧ claimed_by e k t t'
      | _ => answer = None ∧ t' = t
      end
  end.

Lemma exec_attach t :
  endpoint_ids_unique t →
  exec (attachWorkflowContact v candidate) t
    (λ a t', customers_kept t t' ∧ attach_outcome t a t') (λ _ t', customers_kept t t').
Proof using All.
  intros Hu. unfold attachWorkflowContact, attach_outcome. do 2 exec_step.
  change (rows conversations t) with (t_conversations t).
  destruct (first _ (t_conversations t)) as [c|] eqn:Hc; [|by apply exec_throw].
  destruct (cv_legacy_contact_id c) as [k|] eqn:Hlegacy.
  { apply exec_ret. split; [reflexivity|]. exists c. by rewrite Hlegacy. }
  destruct (decide (cv_kind c = kind_direct)) as [Hkind|Hkind].
  2: { rewrite bool_decide_eq_true_2 by done. apply exec_ret. split; [reflexivity|]. exists c.
       by rewrite Hlegacy, bool_decide_eq_false_2. }
  rewrite bool_decide_eq_false_2 by tauto. apply exec_bind, exec_candidates.
  assert (Hrow : ∃ r, r ∈ t_conversations t ∧ r.(cv_id) = v ∧ r.(cv_legacy_contact_id) = None).
  { apply first_Some in Hc as [Hc Hid]. to_prop. eauto. }
  destruct (keep is_customer_kind (candidates_of t)) as [|e [|e2 l]] eqn:Hkeep.
  1,3: apply exec_ret; split; [reflexivity|]; exists c; by rewrite Hlegacy, bool_decide_eq_true_2.
  assert (He : e ∈ endpoints t).
  { apply candidates_endpoints. assert (e ∈ keep is_customer_kind (candidates_of t)) as [_ ?]%elem_of_keep; [|done].
    rewrite Hkeep. by left. }
  eapply exec_weaken; [by apply exec_claim_customer|..]; cbv beta; [|done].
  intros a t' [Hk Ho]. split; [done|]. exists c. by rewrite Hlegacy, bool_decide_eq_true_2.
Qed.
End attach.


(** ** Every event *)

Section events.
Context `{Oracle} `{ChannelRuntime}.

(** A computation that needs the primary key of the endpoints to keep the customers. *)
Definition keeps {A} (m : M A) : Prop :=
  ∀ t, endpoint_ids_unique t → exec m t (λ _ t', customers_kept t t') (λ _ t', customers_kept t t').

Lemma keeps_steady {A} (m : M A) : steady customers_kept m → keeps m.
Proof. intros Hm t _. apply Hm. Qed.

Lemma keeps_bind {A B} (m : M A) (k : A → M B) : keeps m → (∀ a, keeps (k a)) → keeps (m ≫= k).
Proof.
  intros Hm Hk t Hu. apply exec_bind. eapply exec_weaken; [by apply Hm|..]; cbv beta; [|done].
  intros a t' Ht. assert (Hu' : endpoint_ids_unique t') by by apply Ht.
  eapply exec_weaken; [by apply Hk|..]; intros x t'' Ht'; by etrans.
Qed.

Lemma keeps_catch {A} (m : M A) h : keeps m → (∀ e, keeps (h e)) → keeps (catch m h).
Proof.
  intros Hm Hh t Hu. apply exec_catch. eapply exec_weaken; [by apply Hm|done|]; cbv beta.
  intros e t' Ht. assert (Hu' : endpoint_ids_unique t') by by apply Ht.
  eapply exec_weaken; [by apply Hh|..]; intros x t'' Ht'; by etrans.
Qed.

Lemma keeps_attach v candidate : keeps (attachWorkflowContact v candidate).
Proof. intros t Hu. eapply exec_weaken; [by apply exec_attach|..]; cbv beta; [by intros a t' [Hk _]|done]. Qed.

#[local] Hint Resolve kept_ensureConversation kept_ensureEndpoint kept_participant_identity : steady.

Lemma kept_stamp c m : steady customers_kept (stamp_case c m).
Proof. unfold stamp_case. steady. Qed.

Lemma keeps_upsert event p : keeps (applyMessageUpsert event p).
Proof.
  unfold applyMessageUpsert. apply keeps_bind; [apply keeps_steady; steady|intros v].
  apply keeps_bind; [apply keeps_steady; steady|intros x].
  apply keeps_bind; [apply keeps_attach|intros k]. apply keeps_steady.
  unfold findMessage, write_message, record_sender, insert_message. steady.
  - apply steady_record_inbound; try apply _. apply kept_stamp.
  - apply steady_update_conversations. by intros r _.
Qed.

Lemma keeps_applyDurableEvent event : keeps (applyDurableEvent event).
Proof.
  unfold applyDurableEvent. destruct (ev_payload event); try apply keeps_upsert; apply keeps_steady;
    unfold applyParticipantUpsert, applyParticipantRemove, applyMessageMutation, applyReactionMutation,
      applyDeliveryUpdate, applyAttachmentEvent, applySyncCheckpoint, findDependency, findMessage; steady.
Qed.

Lemma keeps_transaction {A} (m : M A) : keeps m → keeps (transaction m).
Proof. intros Hm t Hu. apply exec_transaction. eapply exec_weaken; [by apply Hm|done|]; cbv beta. by intros. Qed.

Lemma keeps_delivery event : keeps (applyNormalizedChannelEvent event).
Proof.
  unfold applyNormalizedChannelEvent. apply keeps_bind; [unfold assertNormalizedChannelEvent; apply keeps_steady; steady|intros _].
  destruct (negb _); [apply keeps_steady; steady|]. apply keeps_bind; [unfold reserveInboxEvent; apply keeps_steady; steady|].
  intros [|]; [|apply keeps_steady; steady]. apply keeps_catch.
  2: { intros e. unfold recordApplicationFailure. apply keeps_steady. steady. }
  unfold apply_reserved. apply keeps_transaction. apply keeps_bind; [apply keeps_steady; steady|]. intros [r|]; [|apply keeps_steady; steady].
  destruct (bool_decide _); [apply keeps_steady; steady|]. destruct (ib_status r); try solve [apply keeps_steady; steady].
  apply keeps_bind; [unfold requireMatchingAccount; apply keeps_steady; steady|intros _].
  apply keeps_bind; [apply keeps_applyDurableEvent|intros a]. apply keeps_steady. steady.
Qed.
End events.

(** C11: Whatever event is delivered, and whether it is applied or fails: no contact is lost
    or rewritten, and every endpoint that belongs to a customer and every conversation
    that names one is still there and keeps it. *)
Theorem customers_never_reassigned `{Oracle} `{ChannelRuntime} event s :
  endpoint_ids_unique (tb s) →
  customers_kept (tb s) (tb (applyNormalizedChannelEvent event s).2).
Proof.
  intros Hu. assert (Hx := exec_run _ s _ _ (keeps_delivery event (tb s) Hu)).
  by destruct (applyNormalizedChannelEvent event s) as [[a|e] s'].
Qed.
