(* ===== verification/ChannelDelivery.v ===== *)
(** How events reach the processor: the ingress route and the retry service.

    Models routes/channel-ingress.ts and services/channel-event-retry.service.ts.  A
    provider's request is resolved to an account by the hash of its route key, verified
    and normalized by the account's adapter, and its events are applied in order; an
    event whose application failed stays in channel_event_inbox, and the retry service
    applies the stored event again.  The adapters and the routes of the public schema
    are parameters; whether a workspace's indexes are ready is read as a flag. *)

From S2P Require Import Prelude Js Json SpineRows TenantDb SpineDb Workflow Cases Outbound ChannelOutbound ChannelEvents.

(** ** Date.prototype.toISOString *)

(** Days since 1970-01-01 to year, month and day of the Gregorian calendar. *)
Definition civil_from_days (days : Z) : Z * Z * Z :=
  let z := (days + 719468)%Z in
  let era := (z / 146097)%Z in
  let doe := (z - era * 146097)%Z in
  let yoe := ((doe - doe / 1460 + doe / 36524 - doe / 146096) / 365)%Z in
  let doy := (doe - (365 * yoe + yoe / 4 - yoe / 100))%Z in
  let mp := ((5 * doy + 2) / 153)%Z in
  let m := (if mp <? 10 then mp + 3 else mp - 9)%Z in
  ((yoe + era * 400 + (if m <=? 2 then 1 else 0))%Z, m, (doy - (153 * mp + 2) / 5 + 1)%Z).

(** The last [n] decimal digits of a number. *)
Fixpoint padded (n : nat) (z : Z) : jsstring :=
  match n with O => [] | S n => padded n (z / 10) ++ [48 + z mod 10]%Z end.

Definition year_text (y : Z) : jsstring :=
  if (0 <=? y)%Z && (y <=? 9999)%Z then padded 4 y
  else (if (y <? 0)%Z then js "-" else js "+") ++ padded 6 (Z.abs y).

Definition toISOString (t : Z) : jsstring :=
  let days := (t / 86400000)%Z in let ms := (t mod 86400000)%Z in
  let '(y, m, d) := civil_from_days days in
  year_text y ++ js "-" ++ padded 2 m ++ js "-" ++ padded 2 d ++ js "T"
  ++ padded 2 (ms / 3600000) ++ js ":" ++ padded 2 (ms / 60000 mod 60) ++ js ":"
  ++ padded 2 (ms / 1000 mod 60) ++ js "." ++ padded 3 (ms mod 1000) ++ js "Z".

(** The timestamp of an instant: [Date.parse] reads back what [toISOString] writes. *)
Definition iso_timestamp (t : Z) : timestamp := mkTimestamp (toISOString t) (Some t).

Example iso_epoch : toISOString 0 = js "1970-01-01T00:00:00.000Z".
Proof. vm_compute. reflexivity. Qed.
Example iso_leap : toISOString 1709210096789 = js "2024-02-29T12:34:56.789Z".
Proof. vm_compute. reflexivity. Qed.

Section delivery.
Context `{Oracle} `{ChannelRuntime}.

(** ** Retry *)

Definition retry_due (authority : WorkspaceAuthority) (now : Z) (r : inbox_row) : bool :=
  bool_decide (r.(ib_status) = inbox_pending) && (r.(ib_next_attempt_at) <=? now * 1000)%Z
  && bool_decide (js r.(ib_external_event_scope) ∈ authority.(wa_enabledProviders)).

(** [ORDER BY next_attempt_at, received_at] *)
Definition retried_before (a b : inbox_row) : Prop :=
  (a.(ib_next_attempt_at) < b.(ib_next_attempt_at))%Z
  ∨ (a.(ib_next_attempt_at) = b.(ib_next_attempt_at) ∧ a.(ib_received_at) ≤ b.(ib_received_at))%Z.
#[export] Instance retried_before_dec : RelDecision retried_before.
Proof. intros a b. unfold retried_before. apply _. Defined.

(** The stored event is well formed and the one that its row names. *)
Definition stored_event_valid (authority : WorkspaceAuthority) (companyId : string) (row : inbox_row) : bool :=
  let event := row.(ib_normalized_event) in
  is_null (event_refusal event)
  && bool_decide (event.(ev_companyId) = companyId)
  && bool_decide (event.(ev_channelAccountId) = row.(ib_channel_account_id))
  && bool_decide (event.(ev_provider) = row.(ib_external_event_scope))
  && bool_decide (event.(ev_eventId) = row.(ib_external_event_id))
  && isChannelProviderEnabled authority (js event.(ev_provider)).

Definition this_row (row r : inbox_row) : bool :=
  bool_decide (r.(ib_channel_account_id) = row.(ib_channel_account_id))
  && bool_decide (r.(ib_external_event_scope) = row.(ib_external_event_scope))
  && bool_decide (r.(ib_external_event_id) = row.(ib_external_event_id)).

(** The turn of one due row: apply what is stored, or put it aside.  The answer of the
    application is not looked at. *)
Definition retry_row (authority : WorkspaceAuthority) (companyId : string) (row : inbox_row)
    : M (option AppliedChannelEvent) :=
  if stored_event_valid authority companyId row then
    catch (a ← applyNormalizedChannelEvent row.(ib_normalized_event); mret (Some a)) (λ _, mret None)
  else
    _ ← update channel_event_inbox (this_row row)
          (λ r, ib_update r inbox_quarantined r.(ib_attempts) r.(ib_next_attempt_at)
                  (Some (js "invalid_stored_event")) r.(ib_applied_at));
    mret None.

(** The turn of one company: the row that was taken, if one was due. *)
Definition retry_company (companyId : string) (authority : WorkspaceAuthority) (ready : bool)
    : M (option (inbox_row * option AppliedChannelEvent)) :=
  if bool_decide (authority.(wa_writeAuthority) ≠ "neutral") then mret None
  else if negb ready then mret None
  else
    now ← toDbDate;
    l ← select channel_event_inbox (retry_due authority now);
    match head (merge_sort retried_before l) with
    | None => mret None
    | Some row => answer ← retry_row authority companyId row; mret (Some (row, answer))
    end.

(** The active companies in the order of their ids, each with its database. *)
Record tenant := mkTenant {
  tn_id : string; tn_authority : WorkspaceAuthority; tn_ready : bool; tn_db : db }.

(** One row of the first company that has one. *)
Fixpoint dispatchNextChannelEventRetry (companies : list tenant) : result nat * list tenant :=
  match companies with
  | [] => (Ok 0, [])
  | c :: companies =>
      let '(answer, s) := retry_company c.(tn_id) c.(tn_authority) c.(tn_ready) c.(tn_db) in
      let c' := mkTenant c.(tn_id) c.(tn_authority) c.(tn_ready) s in
      match answer with
      | Throw e => (Throw e, c' :: companies)
      | Ok (Some _) => (Ok 1, c' :: companies)
      | Ok None =>
          let '(n, rest) := dispatchNextChannelEventRetry companies in (n, c' :: rest)
      end
  end.

(** ** Ingress *)

Definition MAX_INGRESS_BYTES : Z := 1048576.

(** /^[A-Za-z0-9_-]{32,128}$/ *)
Definition route_key_char (c : Z) : bool :=
  ((65 <=? c) && (c <=? 90) || (97 <=? c) && (c <=? 122) || (48 <=? c) && (c <=? 57)
   || (c =? 95) || (c =? 45))%Z.
Definition validRouteKey (routeKey : jsstring) : bool :=
  forallb route_key_char routeKey && (32 <=? length routeKey)%nat && (length routeKey <=? 128)%nat.

(** A row of public.channel_ingress_routes. *)
Record ingress_route_row := mkIngressRoute {
  ir_company_id : string; ir_channel_account_id : string; ir_provider : string;
  ir_route_key_hash : jsstring; ir_state : string }.

Record ingress_request := mkIngressRequest {
  iq_provider : string; iq_routeKey : jsstring; iq_contentLength : option jsstring;
  iq_rawBody : list Z; iq_headers : list (jsstring * jsstring) }.

(** The part of the route before the tenant database is opened: the route and its
    company's authority. *)
Definition resolve_ingress (routes : list ingress_route_row) (flags : string → option (option flag_row))
    (request : ingress_request) : M ingress_route_row :=
  let not_found := HTTPException 404 "Channel ingress route not found" in
  if negb (isChannelProvider (js request.(iq_provider))) || negb (validRouteKey request.(iq_routeKey))
  then throw not_found
  else
    match first (λ r, bool_decide (r.(ir_provider) = request.(iq_provider))
                      && bool_decide (r.(ir_route_key_hash) = sha256 request.(iq_routeKey))
                      && bool_decide (r.(ir_state) = "active")) routes with
    | None => throw not_found
    | Some route =>
        let authority := getChannelSpineWorkspaceAuthority (flags route.(ir_company_id)) in
        if bool_decide (authority.(wa_writeAuthority) ≠ "neutral")
           || negb (isChannelProviderEnabled authority (js request.(iq_provider)))
        then throw not_found
        else
          let contentLength := number (default (js "0") request.(iq_contentLength)) in
          if match contentLength with Some n => isFinite n && (MAX_INGRESS_BYTES <? n)%Z | None => false end
          then throw (HTTPException 413 "Channel ingress body is too large")
          else
            let byteLength := Z.of_nat (length request.(iq_rawBody)) in
            if (byteLength =? 0)%Z || (MAX_INGRESS_BYTES <? byteLength)%Z
            then throw (HTTPException 413 "Channel ingress body is invalid")
            else mret route
    end.

(** What an adapter verifies and normalizes. *)
Record ProviderIngress := mkProviderIngress {
  pi_rawBody : list Z; pi_headers : list (jsstring * jsstring); pi_receivedAt : timestamp;
  pi_companyId : string; pi_channelAccountId : string }.

(** [verify] is [registry.get(channel, provider).verifyAndNormalizeIngress]; [key_error]
    recognises a ChannelCredentialKeyError. *)
Definition channel_ingress (routes : list ingress_route_row) (flags : string → option (option flag_row))
    (ready : string → bool)
    (verify : string → string → ProviderIngress → M (list NormalizedChannelEvent))
    (key_error : err → bool) (request : ingress_request) : M unit :=
  route ← resolve_ingress routes flags request;
  if negb (ready route.(ir_company_id))
  then throw (HTTPException 503 "Channel ingress is not ready")
  else
    account ← select_first channel_accounts (λ r, bool_decide (r.(sa_id) = route.(ir_channel_account_id)));
    let not_found := HTTPException 404 "Channel ingress route not found" in
    match account with
    | None => throw not_found
    | Some account =>
        if negb (is_null account.(sa_archived_at)) || bool_decide (account.(sa_status) ≠ account_connected)
           || negb (isChannel (js account.(sa_channel))) || negb (isChannelProvider (js account.(sa_provider)))
           || bool_decide (account.(sa_provider) ≠ request.(iq_provider))
        then throw not_found
        else
          receivedAt ← toDbDate;
          events ←
            catch (verify account.(sa_channel) account.(sa_provider)
                     (mkProviderIngress request.(iq_rawBody) request.(iq_headers) (iso_timestamp receivedAt)
                        route.(ir_company_id) route.(ir_channel_account_id)))
              (λ error, if key_error error
                        then throw (HTTPException 503 "Channel credentials are unavailable")
                        else throw (HTTPException 401 "Channel ingress verification failed"));
          _ ← mapM applyNormalizedChannelEvent events;
          mret tt
    end.
End delivery.
