(* ===== verification/ChannelRuns.v ===== *)
(** Runs of the event processor: an event is applied at most once.

    A run is a sequence of deliveries, of turns of the retry service and of operations
    that do not write the inbox, each as one step.  Steps that overlap are the subject
    of [mark_lost_in_overlap] at the end: the code lets a failure that is recorded late
    undo the mark of a success. *)

From S2P Require Import Prelude Js Json SpineRows TenantDb SpineDb Exec Steady Workflow Cases Outbound ChannelOutbound ChannelEvents ChannelEventSpec ChannelDelivery.

(** The identity of an event: its account, its provider and its identifier. *)
Definition identity : Type := string * string * jsstring.
Definition identity_of (event : NormalizedChannelEvent) : identity :=
  (event.(ev_channelAccountId), event.(ev_provider), event.(ev_eventId)).
Definition has_identity (k : identity) (r : inbox_row) : bool :=
  bool_decide (r.(ib_channel_account_id) = k.1.1) && bool_decide (r.(ib_external_event_scope) = k.1.2)
  && bool_decide (r.(ib_external_event_id) = k.2).
Definition row_of (k : identity) (t : tables) : option inbox_row := first (has_identity k) (inbox t).

Lemma row_of_event event t : row_of (identity_of event) t = inbox_of event t.
Proof. done. Qed.

Lemma has_identity_own k r :
  has_identity k r = true ↔ k = (r.(ib_channel_account_id), r.(ib_external_event_scope), r.(ib_external_event_id)).
Proof.
  unfold has_identity. rewrite !andb_true_iff, !bool_decide_eq_true. destruct k as [[a p] i]. cbn.
  split; [by intros [[-> ->] ->]|by intros [= -> -> ->]].
Qed.

(** The identity is no longer waiting: it was applied, or put aside. *)
Definition settled (k : identity) (t : tables) : Prop :=
  ∃ r, row_of k t = Some r ∧ r.(ib_status) ≠ inbox_pending.

Lemma first_keep {A} (p q : A → bool) l : (∀ x, p x = true → q x = true) → first p (keep q l) = first p l.
Proof.
  intros Hpq. unfold first. induction l as [|x l IH]; [done|]. rewrite !keep_cons.
  destruct (q x) eqn:Eq; [rewrite !keep_cons; by destruct (p x)|].
  destruct (p x) eqn:Ep; [|done]. by rewrite (Hpq x Ep) in Eq.
Qed.

Lemma row_of_others k event t t' :
  others_kept event t t' → k ≠ identity_of event → row_of k t' = row_of k t.
Proof.
  intros Ho Hk. unfold row_of.
  rewrite <- (first_keep _ (negb ∘ event_row event) (inbox t')).
  - rewrite Ho. apply first_keep. intros r Hr. apply negb_true_iff, not_true_iff_false. intros He.
    apply Hk. rewrite has_identity_own in Hr. change (has_identity (identity_of event) r = true) in He.
    rewrite has_identity_own in He. congruence.
  - intros r Hr. apply negb_true_iff, not_true_iff_false. intros He.
    apply Hk. rewrite has_identity_own in Hr. change (has_identity (identity_of event) r = true) in He.
    rewrite has_identity_own in He. congruence.
Qed.

Section runs.
Context `{Oracle} `{ChannelRuntime}.

Inductive channel_op :=
| Deliver (event : NormalizedChannelEvent)
| Retry (companyId : string) (authority : WorkspaceAuthority) (ready : bool)
| Elsewhere (m : M unit).

Definition applied_key (event : NormalizedChannelEvent) (a : option AppliedChannelEvent) : option identity :=
  match a with
  | Some a => match a.(ac_outcome) with outcome_applied => Some (identity_of event) | _ => None end
  | None => None
  end.

(** A step, and the identity of the event that it applied, if it did; an error ends the
    request, not the run. *)
Definition channel_step (op : channel_op) : M (option identity) :=
  catch
    (match op with
     | Deliver event => a ← applyNormalizedChannelEvent event; mret (applied_key event (Some a))
     | Retry companyId authority ready =>
         turn ← retry_company companyId authority ready;
         mret (match turn with
               | Some (row, a) => applied_key row.(ib_normalized_event) a
               | None => None
               end)
     | Elsewhere m => _ ← m; mret None
     end)
    (λ _, mret None).

Fixpoint channel_run (ops : list channel_op) (s : db) : list (option identity) * db :=
  match ops with
  | [] => ([], s)
  | op :: ops =>
      let '(answer, s1) := channel_step op s in
      let '(log, s2) := channel_run ops s1 in
      (match answer with Ok k => k | Throw _ => None end :: log, s2)
  end.

(** What any step does to the identities. *)
Definition step_post (log : option identity) (t t' : tables) : Prop :=
  (∀ k, settled k t → settled k t') ∧ ∀ k, log = Some k → ¬ settled k t ∧ settled k t'.

Lemma step_post_same t : step_post None t t.
Proof. by split. Qed.

Lemma answer_post event a t t' :
  delivery_answer event a t t' → step_post (applied_key event (Some a)) t t'.
Proof.
  unfold delivery_answer, applied_key. destruct (ac_outcome a).
  - intros (Hb & _ & Ho & r' & Hr' & _ & Hs'). split.
    + intros k Hk. destruct (decide (k = identity_of event)) as [->|Hne].
      * exists r'. rewrite row_of_event. by rewrite Hs'.
      * destruct Hk as (r & Hr & Hs). exists r. by rewrite (row_of_others k event t t').
    + intros k [= <-]. split.
      * intros (r & Hr & Hs). rewrite row_of_event in Hr. by destruct (Hb r Hr).
      * exists r'. rewrite row_of_event. by rewrite Hs'.
  - intros [-> _]. apply step_post_same.
  - intros [_ ->]. apply step_post_same.
Qed.

Lemma failure_post event e t t' : delivery_failure event e t t' → step_post None t t'.
Proof.
  intros (Hl & Href & Hq). destruct Hl as [->|([_ Ho] & r' & Hr' & Hna & Hqq & Hrr)]; [apply step_post_same|].
  split; [|done]. intros k Hk. destruct (decide (k = identity_of event)) as [->|Hne].
  - destruct Hk as (r & Hr & Hs). rewrite row_of_event in Hr. destruct (Hrr r Hr) as [Hd Happ].
    destruct (event_refusal event) as [m|] eqn:Href'.
    { destruct (Href m eq_refl) as [_ ->]. exists r. by rewrite row_of_event. }
    destruct (Hq r eq_refl Hr) as [_ Hqr]. destruct (ib_status r) eqn:Est; [done| |].
    + exists r'. rewrite row_of_event, (Happ eq_refl). done.
    + destruct (Hqr eq_refl) as [He| ->]; [|exists r; by rewrite row_of_event, Est].
      exists r'. rewrite row_of_event, (Hqq He). done.
  - destruct Hk as (r & Hr & Hs). exists r. by rewrite (row_of_others k event t t').
Qed.

Lemma exec_deliver event t :
  exec (a ← applyNormalizedChannelEvent event; mret (applied_key event (Some a))) t
    (λ log t', step_post log t t') (λ _ t', step_post None t t').
Proof.
  apply exec_bind. eapply exec_weaken; [apply exec_delivery|..]; cbv beta.
  - intros a t' Ha. apply exec_ret. by apply answer_post.
  - intros e t'. apply failure_post.
Qed.

Lemma exec_quarantine row f t :
  (∀ r, ib_status (f r) = inbox_quarantined) → (∀ k r, has_identity k (f r) = has_identity k r) →
  exec (update channel_event_inbox (this_row row) f) t (λ _ t', step_post None t t') (λ _ t', step_post None t t').
Proof.
  intros Hst Hf. apply exec_update; [|intros e _; apply step_post_same]. intros _. split; [|done].
  intros k (r & Hr & Hs). unfold settled, row_of. change (inbox (set_rows _ ?l t)) with l.
  rewrite first_update_any by auto. change (rows channel_event_inbox t) with (inbox t).
  fold (row_of k t). rewrite Hr. cbn. eexists. split; [done|]. destruct (this_row row r); [by rewrite Hst|done].
Qed.

Lemma exec_retry_row authority companyId row t :
  exec (retry_row authority companyId row) t
    (λ a t', step_post (applied_key row.(ib_normalized_event) a) t t') (λ _ t', step_post None t t').
Proof.
  unfold retry_row. exec_step.
  - exec_step. apply exec_bind. eapply exec_weaken; [apply exec_delivery|..]; cbv beta.
    + intros a t' Ha. apply exec_ret. by apply answer_post.
    + intros e t' He. apply exec_ret. by apply failure_post in He.
  - apply exec_bind. eapply exec_weaken; [by apply exec_quarantine|..]; cbv beta; [|done].
    intros _ t' Ht. by apply exec_ret.
Qed.

Lemma exec_channel_step op t :
  match op with Elsewhere m => steady same_inbox m | _ => True end →
  exec (channel_step op) t (λ log t', step_post log t t') (λ _ _, False).
Proof.
  intros Hop. unfold channel_step. exec_step.
  eapply (exec_weaken _ _ (λ log t', step_post log t t') _ (λ _ t', step_post None t t'));
    [|done|intros e t' Ht; by apply exec_ret].
  destruct op as [event|companyId authority ready|m].
  - apply exec_deliver.
  - apply exec_bind. unfold retry_company. destruct (bool_decide _); [do 2 apply exec_ret; apply step_post_same|].
    destruct (negb ready); [do 2 apply exec_ret; apply step_post_same|]. do 4 exec_step.
    destruct (head _) as [row|]; [|do 2 apply exec_ret; apply step_post_same].
    apply exec_bind. eapply exec_weaken; [apply exec_retry_row|..]; cbv beta; [|done].
    intros a t' Ht. by do 2 apply exec_ret.
  - apply exec_bind. eapply exec_weaken; [apply Hop|..]; cbv beta.
    + intros [] t' Ht. apply exec_ret. split; [|done]. intros k (r & Hr & Hs). exists r.
      split; [|done]. unfold row_of. by rewrite Ht.
    + intros e t' Ht. split; [|done]. intros k (r & Hr & Hs). exists r. split; [|done]. unfold row_of. by rewrite Ht.
Qed.

Definition well_behaved (ops : list channel_op) : Prop :=
  ∀ m, Elsewhere m ∈ ops → steady same_inbox m.

Lemma channel_step_post op s :
  match op with Elsewhere m => steady same_inbox m | _ => True end →
  ∃ log s', channel_step op s = (Ok log, s') ∧ step_post log (tb s) (tb s').
Proof.
  intros Hop. assert (Hx := exec_run _ s _ _ (exec_channel_step op (tb s) Hop)).
  destruct (channel_step op s) as [[log|e] s']; [eauto|done].
Qed.

(** A settled identity is not applied by any later step. *)
Lemma settled_not_applied ops s k :
  well_behaved ops → settled k (tb s) → Some k ∉ (channel_run ops s).1.
Proof.
  revert s. induction ops as [|op ops IH]; intros s Hw Hk; [apply not_elem_of_nil|]. cbn.
  destruct (channel_step_post op s) as (log & s1 & -> & Hs & Hl).
  { destruct op; try done. apply Hw. left. }
  destruct (channel_run ops s1) as [l s2] eqn:Er. cbn. intros [Heq|Hin]%elem_of_cons.
  - by destruct (Hl k (eq_sym Heq)).
  - apply (IH s1); [intros m Hm; apply Hw; by right|by apply Hs|by rewrite Er].
Qed.

Definition applications (k : identity) (log : list (option identity)) : nat :=
  length (keep (λ x, bool_decide (x = Some k)) log).

Lemma no_applications k log : Some k ∉ log → applications k log = 0.
Proof using.
  intros Hk. unfold applications. rewrite (proj2 (keep_nil_iff _ log)); [done|].
  intros x Hx. apply bool_decide_eq_false. by intros ->.
Qed.

(** C7: In any sequence of deliveries, repeated and colliding ones included, of turns of the
    retry service and of operations that leave the inbox alone, the event of one
    identity is applied at most once. *)
Theorem event_applied_once ops s k : well_behaved ops → applications k (channel_run ops s).1 ≤ 1.
Proof.
  revert s. induction ops as [|op ops IH]; intros s Hw; [by apply Nat.le_0_l|]. cbn.
  destruct (channel_step_post op s) as (log & s1 & -> & Hs & Hl).
  { destruct op; try done. apply Hw. left. }
  assert (Hw' : well_behaved ops) by (intros m Hm; apply Hw; by right).
  assert (Hn := settled_not_applied ops s1 k Hw'). specialize (IH s1 Hw').
  destruct (channel_run ops s1) as [l s2] eqn:Er. cbn in *.
  unfold applications. rewrite keep_cons. destruct (bool_decide (log = Some k)) eqn:E; [|exact IH]. to_prop.
  destruct (Hl k E) as [_ Hk]. cbn. fold (applications k l). rewrite no_applications by auto. lia.
Qed.
End runs.

(** ** Deliveries that overlap *)

(** A failure is recorded without a look at the status.  When two deliveries of one
    event overlap and the one that fails records it after the other has committed, the
    mark of the success is lost and the event waits to be applied again. *)
Lemma mark_lost_in_overlap `{Oracle} `{ChannelRuntime} event e s r :
  inbox_of event (tb s) = Some r → r.(ib_status) = inbox_applied → quarantines e = false →
  match recordApplicationFailure event e s with
  | (Ok _, s') => ∃ r', inbox_of event (tb s') = Some r' ∧ r'.(ib_status) = inbox_pending
                        ∧ r'.(ib_payload_digest) = r.(ib_payload_digest)
  | (Throw _, s') => tb s' = tb s
  end.
Proof.
  intros Hr Hs Hq. assert (Hx := exec_run _ s _ _ (exec_recordApplicationFailure event e (tb s))).
  destruct (recordApplicationFailure event e s) as [[u|e'] s']; [|by destruct Hx].
  destruct Hx as [_ Hx]. destruct (Hx r Hr) as (r' & Hr' & Hs' & Hd' & _). rewrite Hq in Hs'. eauto.
Qed.
