(* ===== verification/Telegram.v ===== *)
(** The Telegram adapter's ingress: from a Bot API update to normalized events.

    Models packages/adapter-telegram/src/normalize.ts and the verification of
    adapter.ts.  An update is a JSON value of unknown shape, so its properties are read
    from a [jsval] and checked where the code checks them; the numbers of an update are
    the integers that a double holds exactly.  An event is built together with the
    object literal that the code writes, in which an optional property is often present
    and undefined. *)

From S2P Require Import Prelude Js Json PublicRows SpineRows TenantDb OAuth Team ChannelOutbound ChannelEvents ChannelDelivery.

#[export] Instance result_ret : MRet result := λ A a, Ok a.
#[export] Instance result_bind : MBind result := λ A B k m,
  match m with Ok a => k a | Throw e => Throw e end.

(** ** Dynamic values *)

Definition refuse_update {A} (m : string) : result A := Throw (OtherError m).

(** [value.key] of a record. *)
Definition property (key : string) (value : jsval) : jsval :=
  match value with
  | JObject o => default JUndefined (snd <$> first (λ kv, bool_decide (kv.1 = js key)) o)
  | _ => JUndefined
  end.

Definition isRecord (value : jsval) : bool := match value with JObject _ => true | _ => false end.
Definition truthy_value (value : jsval) : bool :=
  match value with
  | JUndefined | JNull | JBool false | JNumber 0 | JString [] => false
  | _ => true
  end.
Definition isPositiveSafeInteger (value : jsval) : bool :=
  match value with JNumber n => isSafeInteger n && (0 <? n)%Z | _ => false end.
Definition is_string (value : jsval) : bool := match value with JString _ => true | _ => false end.
Definition is_number (value : jsval) : bool := match value with JNumber _ => true | _ => false end.

(** The text of a property that has been checked to be a string or undefined. *)
Definition text_of (value : jsval) : option jsstring :=
  match value with JString s => Some s | _ => None end.

(** [`${value}`] and the elements of [join]; an object has no text of its own. *)
Fixpoint template_text (value : jsval) : jsstring :=
  match value with
  | JUndefined => js "undefined"
  | JNull => js "null"
  | JBool b => js (if b then "true" else "false")
  | JNumber n => js_of_Z n
  | JString s => s
  | JArray l =>
      join comma ((λ x, match x with JUndefined | JNull => [] | x => template_text x end) <$> l)
  | JObject _ => js "[object Object]"
  end.

Definition requireOptionalStrings (value : jsval) (keys : list string) : result unit :=
  foldr (λ key rest,
    match property key value with
    | JUndefined | JString _ => rest
    | _ => refuse_update (String.append "Invalid Telegram " key)
    end) (Ok tt) keys.

(** ** Checks *)

Definition requireUpdate (value : jsval) : result Z :=
  match property "update_id" value with
  | JNumber n => if isRecord value && isSafeInteger n && (0 <=? n)%Z then Ok n
                 else refuse_update "Invalid Telegram update"
  | _ => refuse_update "Invalid Telegram update"
  end.

Definition requireChat (chat : jsval) : result unit :=
  let id_valid := match property "id" chat with
                  | JNumber n => isSafeInteger n && negb (n =? 0)%Z | _ => false end in
  let type_valid := match property "type" chat with JString (_ :: _) => true | _ => false end in
  if isRecord chat && id_valid && type_valid
  then requireOptionalStrings chat ["title"; "first_name"; "last_name"; "username"]
  else refuse_update "Invalid Telegram chat".

Definition requireUser (user : jsval) : result unit :=
  let bot_valid := match property "is_bot" user with JUndefined | JBool _ => true | _ => false end in
  if isRecord user && isPositiveSafeInteger (property "id" user) && bot_valid
  then requireOptionalStrings user ["first_name"; "last_name"; "username"]
  else refuse_update "Invalid Telegram user".

(** [if (value.key !== undefined) check(value.key)] *)
Definition if_defined (value : jsval) (check : jsval → result unit) : result unit :=
  match value with JUndefined => Ok tt | _ => check value end.

Definition optional_thread (value : jsval) : bool :=
  match value with JUndefined => true | _ => isPositiveSafeInteger value end.

Definition requireMessage (message : jsval) : result unit :=
  let edit_valid := match property "edit_date" message with JUndefined | JNumber _ => true | _ => false end in
  if isRecord message && isPositiveSafeInteger (property "message_id" message)
     && is_number (property "date" message) && isRecord (property "chat" message)
     && optional_thread (property "message_thread_id" message) && edit_valid
  then
    _ ← requireOptionalStrings message ["text"; "caption"; "media_group_id"];
    _ ← if_defined (property "from" message) requireUser;
    _ ← if_defined (property "sender_chat" message) requireChat;
    _ ← if_defined (property "reply_to_message" message) (λ reply,
          if isRecord reply && optional_thread (property "message_id" reply) then Ok tt
          else refuse_update "Invalid Telegram reply reference");
    if_defined (property "photo" message) (λ photo,
      match photo with JArray (_ :: _) => Ok tt | _ => refuse_update "Invalid Telegram photo attachment" end)
  else refuse_update "Invalid Telegram message".

Definition requireReaction (reaction : jsval) : result unit :=
  let is_array v := match v with JArray _ => true | _ => false end in
  if isRecord reaction && isPositiveSafeInteger (property "message_id" reaction)
     && is_number (property "date" reaction) && isRecord (property "chat" reaction)
     && optional_thread (property "message_thread_id" reaction)
     && is_array (property "old_reaction" reaction) && is_array (property "new_reaction" reaction)
  then
    _ ← if_defined (property "user" reaction) requireUser;
    if_defined (property "actor_chat" reaction) requireChat
  else refuse_update "Invalid Telegram reaction update".

(** The instants that a Date can hold. *)
Definition MAX_DATE : Z := 8640000000000000.
Definition unixSecondsToIso (value : jsval) (field : string) : result timestamp :=
  match value with
  | JNumber n =>
      if (n <? 0)%Z || (MAX_DATE <? n * 1000)%Z
      then refuse_update (String.append "Invalid Telegram " field)
      else Ok (iso_timestamp (n * 1000))
  | _ => refuse_update (String.append "Invalid Telegram " field)
  end.

(** ** References *)

Record TelegramNormalizationContext := mkContext {
  tx_companyId : string; tx_channelAccountId : string; tx_receivedAt : timestamp }.

(** The number of a checked property. *)
Definition number_of (value : jsval) : Z := match value with JNumber n => n | _ => 0%Z end.
Definition id_text (value : jsval) : string := pretty (number_of value).

(** [[first_name, last_name].filter(Boolean).join(" ") || username]; reading a property
    of null or undefined throws. *)
Definition displayName (value : jsval) : result jsval :=
  match value with
  | JUndefined | JNull => refuse_update "Cannot read properties of undefined"
  | _ =>
      let name := join (js " ") (template_text <$>
        keep truthy_value [property "first_name" value; property "last_name" value]) in
      Ok (match name with [] => property "username" value | _ => JString name end)
  end.

Definition is_private (chat : jsval) : bool := bool_decide (text_of (property "type" chat) = Some (js "private")).

Definition conversationReference (chat messageThreadId : jsval) : result ExternalConversationReference :=
  _ ← requireChat chat;
  let chatId := id_text (property "id" chat) in
  let externalThreadId :=
    if is_number messageThreadId
    then String.append chatId (String.append ":thread:" (id_text messageThreadId)) else chatId in
  Ok (mkConversationRef (Some externalThreadId) (String.append "telegram:" externalThreadId)
        (if is_number messageThreadId then kind_thread
         else if is_private chat then kind_direct else kind_group)
        (if is_private chat then None else text_of (property "title" chat))).

(** [`@${username}`] of a username that is not empty. *)
Definition handle_of (value : jsval) : option jsstring :=
  match property "username" value with JString ((_ :: _) as u) => Some (js "@" ++ u) | _ => None end.

Definition messageIdentityScope (externalThreadId : string) : string :=
  String.append "telegram-thread:" externalThreadId.

Section normalize.
Context `{CaseMapping}.

Definition userEndpoint (user : jsval) : result ExternalEndpointReference :=
  if negb (match property "id" user with JNumber n => isSafeInteger n | _ => false end)
  then refuse_update "Invalid Telegram user ID"
  else
    name ← displayName user;
    Ok (mkEndpointRef (js (id_text (property "id" user))) "telegram-user"
          (if truthy_value (property "is_bot" user) then "bot" else "person")
          (toLowerCase <$> text_of (property "username" user)) (handle_of user) (text_of name)).

Definition chatEndpoint (chat : jsval) : result ExternalEndpointReference :=
  _ ← requireChat chat;
  name ← match text_of (property "title" chat) with
         | Some title => Ok (JString title)
         | None => displayName chat
         end;
  Ok (mkEndpointRef (js (id_text (property "id" chat))) "telegram-chat"
        (if bool_decide (text_of (property "type" chat) = Some (js "channel")) then "channel" else "group")
        (toLowerCase <$> text_of (property "username" chat)) (handle_of chat) (text_of name)).

(** [user ? userEndpoint(user) : chat ? chatEndpoint(chat) : undefined] *)
Definition actor (user chat : jsval) : result (option ExternalEndpointReference) :=
  if truthy_value user then x ← userEndpoint user; Ok (Some x)
  else if truthy_value chat then x ← chatEndpoint chat; Ok (Some x)
  else Ok None.

(** ** Messages *)

Definition normalizedMessageType (message : jsval) : string :=
  let has key := truthy_value (property key message) in
  if is_string (property "text" message) then "text"
  else if has "photo" then "image"
  else if has "animation" then "animation"
  else if has "video" then "video"
  else if has "video_note" then "video_note"
  else if has "audio" then "audio"
  else if has "voice" then "voice"
  else if has "document" then "document"
  else if has "sticker" then "sticker"
  else if has "venue" then "venue"
  else if has "location" then "location"
  else if has "contact" then "contact"
  else if has "poll" then "poll"
  else if has "dice" then "dice"
  else "system".

Definition stickerContentType (kind : string) (sticker : jsval) : option string :=
  if negb (String.eqb kind "sticker") || negb (truthy_value sticker) then None
  else if truthy_value (property "is_video" sticker) then Some "video/webm"
  else if truthy_value (property "is_animated" sticker) then Some "application/gzip"
  else Some "image/webp".

(** [photo?.at(-1)] of a checked photo. *)
Definition last_photo (photo : jsval) : jsval :=
  match photo with JArray l => default JUndefined (last l) | _ => JUndefined end.
Definition is_defined (value : jsval) : bool := negb (is_undefined value).

(** A MIME type is ASCII text. *)
Definition normalizeAttachments (message : jsval) : result (option (list NormalizedAttachment)) :=
  let candidates :=
    [("image", last_photo (property "photo" message)); ("animation", property "animation" message);
     ("video", property "video" message); ("video_note", property "video_note" message);
     ("audio", property "audio" message); ("voice", property "voice" message);
     ("document", property "document" message); ("sticker", property "sticker" message)] in
  match first (is_defined ∘ snd) candidates with
  | None => Ok None
  | Some (kind, file) =>
      match property "file_id" file with
      | JString ((_ :: _) as file_id) =>
          _ ← requireOptionalStrings file ["file_name"; "mime_type"];
          size ← match property "file_size" file with
                 | JUndefined => Ok None
                 | JNumber n => if isSafeInteger n && (0 <=? n)%Z then Ok (Some n)
                                else refuse_update "Invalid Telegram attachment size"
                 | _ => refuse_update "Invalid Telegram attachment size"
                 end;
          Ok (Some [mkAttachmentRef 0 kind (Some file_id) (text_of (property "file_name" file))
                (nullish (string_of_js <$> text_of (property "mime_type" file))
                   (stickerContentType kind (property "sticker" message)))
                size None att_pending None None])
      | _ => refuse_update "Telegram attachment has no file ID"
      end
  end.

(** [value ?? "someone"] in a template. *)
Definition name_or_someone (value : jsval) : jsstring :=
  match value with JUndefined | JNull => js "someone" | v => template_text v end.

Fixpoint member_names (members : list jsval) : result (list jsstring) :=
  match members with
  | [] => Ok []
  | m :: members => name ← displayName m; names ← member_names members; Ok (name_or_someone name :: names)
  end.

(** The elements of [new_chat_members] when its length is truthy; a value with a length
    that is not an array has no [map]. *)
Definition new_members (value : jsval) : result (list jsval) :=
  match value with
  | JArray l => Ok l
  | JString (_ :: _) => refuse_update "message.new_chat_members.map is not a function"
  | JObject _ => if truthy_value (property "length" value)
                 then refuse_update "message.new_chat_members.map is not a function" else Ok []
  | _ => Ok []
  end.

Definition serviceMessageText (message : jsval) : result (option jsstring) :=
  members ← new_members (property "new_chat_members" message);
  match members with
  | _ :: _ => names ← member_names members; Ok (Some (join (js ", ") names ++ js " joined the group"))
  | [] =>
      let left_member := property "left_chat_member" message in
      if truthy_value left_member then
        name ← displayName left_member; Ok (Some (name_or_someone name ++ js " left the group"))
      else if truthy_value (property "new_chat_title" message) then
        Ok (Some (js "The group was renamed to " ++ [34%Z]
                  ++ template_text (property "new_chat_title" message) ++ [34%Z]))
      else if truthy_value (property "group_chat_created" message)
              || truthy_value (property "supergroup_chat_created" message)
              || truthy_value (property "channel_chat_created" message)
      then Ok (Some (js "The group was created"))
      else Ok None
  end.

(** [message.text ?? message.caption ?? serviceMessageText(message)] *)
Definition message_text (message : jsval) : result (option jsstring) :=
  match nullish (text_of (property "text" message)) (text_of (property "caption" message)) with
  | Some text => Ok (Some text)
  | None => serviceMessageText message
  end.

(** ** The object literals of events *)

Definition text_value (s : string) : jsval := JString (js s).
Definition optional {A} (f : A → jsval) (o : option A) : jsval :=
  match o with Some x => f x | None => JUndefined end.
Definition object (o : list (string * jsval)) : jsval := JObject ((λ kv, (js kv.1, kv.2)) <$> o).

Definition endpoint_object (x : ExternalEndpointReference) : jsval :=
  object [("externalId", JString x.(xe_externalId)); ("identityScope", text_value x.(xe_identityScope));
          ("endpointKind", text_value x.(xe_endpointKind));
          ("displayName", optional JString x.(xe_displayName));
          ("addressDisplay", optional JString x.(xe_addressDisplay));
          ("normalizedAddress", optional JString x.(xe_normalizedAddress))].

Definition kind_text (k : conversation_kind) : string :=
  match k with kind_direct => "direct" | kind_group => "group" | kind_thread => "thread" end.
Definition conversation_object (c : ExternalConversationReference) : jsval :=
  object [("externalThreadId", optional text_value c.(xc_externalThreadId));
          ("clientThreadKey", text_value c.(xc_clientThreadKey)); ("kind", text_value (kind_text c.(xc_kind)));
          ("subject", optional JString c.(xc_subject))].

Definition attachment_object (a : NormalizedAttachment) : jsval :=
  object [("ordinal", JNumber a.(xa_ordinal)); ("kind", text_value a.(xa_kind));
          ("providerAttachmentId", optional JString a.(xa_providerAttachmentId));
          ("fileName", optional JString a.(xa_fileName)); ("contentType", optional text_value a.(xa_contentType));
          ("byteSize", optional JNumber a.(xa_byteSize)); ("status", text_value "pending")].

Definition upsert_object (p : MessageUpsertEventPayload) : jsval :=
  object [("conversation", conversation_object p.(mu_conversation));
          ("externalMessageId", text_value p.(mu_externalMessageId));
          ("externalIdentityScope", text_value p.(mu_externalIdentityScope));
          ("direction", text_value "inbound"); ("sender", optional endpoint_object p.(mu_sender));
          ("normalizedType", text_value p.(mu_normalizedType));
          ("textContent", optional JString p.(mu_textContent));
          ("replyToExternalMessageId", optional text_value p.(mu_replyToExternalMessageId));
          ("attachments", optional (λ l, JArray (attachment_object <$> l)) p.(mu_attachments));
          ("providerMetadata", optional id p.(mu_providerMetadata))].

Definition edit_object (p : MessageMutationEventPayload) : jsval :=
  object [("conversation", conversation_object p.(mm_conversation));
          ("externalMessageId", text_value p.(mm_externalMessageId));
          ("externalIdentityScope", text_value p.(mm_externalIdentityScope));
          ("textContent", optional JString p.(mm_textContent));
          ("providerMetadata", optional id p.(mm_providerMetadata))].

Definition reaction_object (p : ReactionEventPayload) : jsval :=
  object [("conversation", conversation_object p.(re_conversation));
          ("messageExternalId", text_value p.(re_messageExternalId));
          ("messageIdentityScope", text_value p.(re_messageIdentityScope));
          ("externalReactionId", optional JString p.(re_externalReactionId));
          ("externalEventScope", optional text_value p.(re_externalEventScope));
          ("reactor", endpoint_object p.(re_reactor)); ("emoji", JString p.(re_emoji))].

(** An event of this adapter; [suffix] ends its identifier. *)
Definition telegram_event (context : TelegramNormalizationContext) (updateId : Z) (suffix : string)
    (occurredAt : timestamp) (payload : event_payload) (payload_object : jsval) : NormalizedChannelEvent :=
  let eventId := js "telegram:" ++ js_of_Z updateId ++ js ":" ++ js suffix in
  mkEvent 1 eventId context.(tx_companyId) context.(tx_channelAccountId) "telegram" "telegram_bot"
    (Some occurredAt) context.(tx_receivedAt) payload
    (object [("contractVersion", JNumber 1); ("eventId", JString eventId);
             ("companyId", text_value context.(tx_companyId));
             ("channelAccountId", text_value context.(tx_channelAccountId));
             ("channel", text_value "telegram"); ("provider", text_value "telegram_bot");
             ("kind", text_value (event_kind payload));
             ("providerOccurredAt", JString occurredAt.(ts_text)); ("payload", payload_object)]).

(** [assertNormalizedChannelEvent(event)] *)
Definition asserted (event : NormalizedChannelEvent) : result NormalizedChannelEvent :=
  match event_refusal event with Some m => refuse_update m | None => Ok event end.

Definition referenceEvents (context : TelegramNormalizationContext) (updateId : Z)
    (conversation : ExternalConversationReference) (endpoint : option ExternalEndpointReference)
    (occurredAt : timestamp) : result (list NormalizedChannelEvent) :=
  endpoints ←
    match endpoint with
    | Some x =>
        e ← asserted (telegram_event context updateId "endpoint.upsert" occurredAt (EndpointUpsertEvent x)
                        (object [("endpoint", endpoint_object x);
                                 ("verificationState", text_value "provider_verified")]));
        Ok [e]
    | None => Ok []
    end;
  c ← asserted (telegram_event context updateId "conversation.upsert" occurredAt
                  (ConversationUpsertEvent conversation None None)
                  (object [("conversation", conversation_object conversation)]));
  Ok (endpoints ++ [c]).

(** [message.media_group_id ? { mediaGroupId } : undefined] *)
Definition media_group (message : jsval) : option metadata :=
  match property "media_group_id" message with
  | JString (_ :: _) as v => Some (object [("mediaGroupId", v)])
  | _ => None
  end.

Definition normalizeMessage (context : TelegramNormalizationContext) (updateId : Z) (message : jsval)
    (edited : bool) : result (list NormalizedChannelEvent) :=
  _ ← requireMessage message;
  conversation ← conversationReference (property "chat" message) (property "message_thread_id" message);
  let identityScope := messageIdentityScope (default "" conversation.(xc_externalThreadId)) in
  let date := if edited && is_number (property "edit_date" message)
              then property "edit_date" message else property "date" message in
  occurredAt ← unixSecondsToIso date "message date";
  let messageId := id_text (property "message_id" message) in
  let sender_of := actor (property "from" message) (property "sender_chat" message) in
  event ←
    if edited then
      text ← message_text message;
      let payload := mkMessageMutation conversation messageId identityScope text None (media_group message) in
      asserted (telegram_event context updateId "message.edit" occurredAt (MessageEditEvent payload)
                  (edit_object payload))
    else
      sender ← sender_of;
      text ← message_text message;
      attachments ← normalizeAttachments message;
      let reply := property "message_id" (property "reply_to_message" message) in
      let payload := mkMessageUpsert conversation messageId identityScope dir_inbound sender
        (normalizedMessageType message) None text None
        (if is_number reply then Some (id_text reply) else None) None attachments (media_group message) in
      asserted (telegram_event context updateId "message.upsert" occurredAt (MessageUpsertEvent payload)
                  (upsert_object payload));
  sender ← sender_of;
  references ← referenceEvents context updateId conversation sender occurredAt;
  Ok (references ++ [event]).

(** ** Reactions *)

(** [f] on every element, the first error winning. *)
Fixpoint each {A B} (f : A → result B) (l : list A) : result (list B) :=
  match l with
  | [] => Ok []
  | x :: l => y ← f x; ys ← each f l; Ok (y :: ys)
  end.

Definition reactionKey (reaction : jsval) : result jsstring :=
  let kind := default [] (text_of (property "type" reaction)) in
  if bool_decide (kind = js "emoji") then
    match property "emoji" reaction with
    | JString ((_ :: _) as e) => Ok (js "emoji:" ++ e)
    | _ => refuse_update "Invalid Telegram emoji reaction"
    end
  else if bool_decide (kind = js "custom_emoji") then
    match property "custom_emoji_id" reaction with
    | JString ((_ :: _) as e) => Ok (js "custom:" ++ e)
    | _ => refuse_update "Invalid Telegram custom emoji reaction"
    end
  else if bool_decide (kind = js "paid") then Ok (js "paid")
  else refuse_update "Unsupported Telegram reaction type".

(** The star that stands for a paid reaction. *)
Definition PAID_STAR : jsstring := [11088%Z].
Definition reactionDisplayValue (reaction : jsval) : jsstring :=
  let kind := default [] (text_of (property "type" reaction)) in
  if bool_decide (kind = js "emoji") then default [] (text_of (property "emoji" reaction))
  else if bool_decide (kind = js "custom_emoji")
  then js "custom_emoji:" ++ default [] (text_of (property "custom_emoji_id" reaction))
  else PAID_STAR.

(** [counts.get(key) ?? 0] after the loop: how often a key occurs. *)
Definition reactionCount (keys : list jsstring) (key : jsstring) : Z :=
  Z.of_nat (length (keep (λ k, bool_decide (k = key)) keys)).

(** [map.set(key, value)]: a key keeps its place. *)
Fixpoint map_set (key : jsstring) (value : jsval) (m : list (jsstring * jsval)) : list (jsstring * jsval) :=
  match m with
  | [] => [(key, value)]
  | (k, v) :: m => if bool_decide (k = key) then (key, value) :: m else (k, v) :: map_set key value m
  end.
Definition allReactionDescriptors (keyed : list (jsstring * jsval)) : list (jsstring * jsval) :=
  foldl (λ m kv, map_set kv.1 kv.2 m) [] keyed.

Definition keyed (reaction : jsval) : result (jsstring * jsval) := k ← reactionKey reaction; Ok (k, reaction).

(** One step per unit of difference: added or removed, the key and its descriptor. *)
Definition reaction_steps (old new : list (jsstring * jsval)) : list (bool * jsstring * jsval) :=
  allReactionDescriptors (old ++ new) ≫= λ kv,
    let difference := (reactionCount (fst <$> new) kv.1 - reactionCount (fst <$> old) kv.1)%Z in
    replicate (Z.to_nat (Z.abs difference)) ((0 <? difference)%Z, kv.1, kv.2).

Definition reaction_event (context : TelegramNormalizationContext) (updateId : Z)
    (conversation : ExternalConversationReference) (reactor : ExternalEndpointReference)
    (messageId : string) (occurredAt : timestamp) (ordinal : nat) (step : bool * jsstring * jsval)
    : NormalizedChannelEvent :=
  let '(added, key, descriptor) := step in
  let payload := mkReaction conversation messageId
    (messageIdentityScope (default "" conversation.(xc_externalThreadId)))
    (Some (js reactor.(xe_identityScope) ++ js ":" ++ reactor.(xe_externalId) ++ js ":" ++ js messageId
           ++ js ":" ++ key))
    (Some "telegram-reaction") reactor (reactionDisplayValue descriptor) in
  let event := if added then ReactionUpsertEvent payload else ReactionDeleteEvent payload in
  telegram_event context updateId (String.append (event_kind event) (String.append ":" (pretty ordinal)))
    occurredAt event (reaction_object payload).

Definition elements (value : jsval) : list jsval := match value with JArray l => l | _ => [] end.

Definition normalizeReaction (context : TelegramNormalizationContext) (updateId : Z) (reaction : jsval)
    : result (list NormalizedChannelEvent) :=
  _ ← requireReaction reaction;
  conversation ← conversationReference (property "chat" reaction) (property "message_thread_id" reaction);
  reactor ← actor (property "user" reaction) (property "actor_chat" reaction);
  match reactor with
  | None => refuse_update "Telegram reaction has no actor"
  | Some reactor =>
      occurredAt ← unixSecondsToIso (property "date" reaction) "reaction date";
      old ← each keyed (elements (property "old_reaction" reaction));
      new ← each keyed (elements (property "new_reaction" reaction));
      references ← referenceEvents context updateId conversation (Some reactor) occurredAt;
      events ← each asserted
        (imap (reaction_event context updateId conversation reactor
                 (id_text (property "message_id" reaction)) occurredAt) (reaction_steps old new));
      Ok (references ++ events)
  end.

(** ** Updates *)

Definition normalizeTelegramUpdate (value : jsval) (context : TelegramNormalizationContext)
    : result (list NormalizedChannelEvent) :=
  updateId ← requireUpdate value;
  let update key := property key value in
  if truthy_value (update "message") then normalizeMessage context updateId (update "message") false
  else if truthy_value (update "channel_post") then normalizeMessage context updateId (update "channel_post") false
  else if truthy_value (update "edited_message") then normalizeMessage context updateId (update "edited_message") true
  else if truthy_value (update "edited_channel_post")
  then normalizeMessage context updateId (update "edited_channel_post") true
  else if truthy_value (update "message_reaction")
  then normalizeReaction context updateId (update "message_reaction")
  else Ok [].

(** ** adapter.ts: verification of a webhook *)

Definition SECRET_HEADER : jsstring := js "x-telegram-bot-api-secret-token".
Definition MAX_WEBHOOK_BYTES : Z := 1048576.

Definition headerValue (headers : list (jsstring * jsstring)) (soughtName : jsstring) : option jsstring :=
  match keep (λ h, bool_decide (toLowerCase h.1 = soughtName)) headers with
  | [h] => Some h.2
  | _ => None
  end.

Definition validSecret (value : option jsstring) : bool :=
  match value with Some s => (0 <? length s)%nat && (length s <=? 256)%nat | None => false end.

(** The digests are compared in constant time. *)
Definition secureEqual `{ChannelRuntime} (expected presented : jsstring) : bool :=
  bool_decide (sha256 expected = sha256 presented).

(** [resolveWebhookSecret] reads and decrypts the account's secret; [parse] decodes the
    body as UTF-8 and JSON. *)
Definition verifyAndNormalizeIngress `{ChannelRuntime} (resolveWebhookSecret : result (option jsstring))
    (isCredentialUnavailable : err → bool) (parse : list Z → option jsval) (input : ProviderIngress)
    : result (list NormalizedChannelEvent) :=
  let verification_failed := OtherError "Telegram webhook verification failed" in
  match resolveWebhookSecret with
  | Throw error => if isCredentialUnavailable error then Throw error else Throw verification_failed
  | Ok expected =>
      match expected, headerValue input.(pi_headers) SECRET_HEADER with
      | Some secret, Some ((_ :: _) as presented) =>
          if negb (validSecret expected) || negb (secureEqual secret presented) then Throw verification_failed
          else
            let byteLength := Z.of_nat (length input.(pi_rawBody)) in
            if (byteLength =? 0)%Z || (MAX_WEBHOOK_BYTES <? byteLength)%Z
            then refuse_update "Invalid Telegram webhook body size"
            else
              match parse input.(pi_rawBody) with
              | None => refuse_update "Invalid Telegram webhook JSON"
              | Some update =>
                  normalizeTelegramUpdate update
                    (mkContext input.(pi_companyId) input.(pi_channelAccountId) input.(pi_receivedAt))
              end
      | _, _ => Throw verification_failed
      end
  end.
End normalize.
