(* ===== verification/TelegramSpec.v ===== *)
(** What the Telegram adapter makes of an update.

    Every event of an update is well formed, carries the account that the webhook was
    verified for and an identifier of its own, which no other update shares; the events
    of a reaction are the difference of the two lists that Telegram reports. *)

From S2P Require Import Prelude Js Json PublicRows SpineRows TenantDb OAuth Team ChannelOutbound ChannelEvents ChannelDelivery Telegram.

(** ** Results *)

Lemma bind_Ok {A B} (m : result A) (k : A → result B) b :
  m ≫= k = Ok b → ∃ a, m = Ok a ∧ k a = Ok b.
Proof. destruct m as [a|e]; [by eauto|done]. Qed.

(** Peel the binds and the tests of a computation that is known to succeed. *)
Ltac peel :=
  repeat match goal with
  | Hk : mbind _ _ = Ok _ |- _ => apply bind_Ok in Hk as (? & ? & Hk)
  | Hk : (if ?b then _ else refuse_update _) = Ok _ |- _ => let Eb := fresh "Eb" in destruct b eqn:Eb; [|done]
  | Hk : Ok _ = Ok _ |- _ => injection Hk as Hk; subst
  end.

(** ** Identifiers *)

Lemma js_app s1 s2 : js (String.append s1 s2) = js s1 ++ js s2.
Proof. unfold js. induction s1 as [|c s1 IH]; [done|].
  change (String.append (String c s1) s2) with (String c (String.append s1 s2)). cbn. by f_equal.
Qed.

Lemma js_inj s1 s2 : js s1 = js s2 → s1 = s2.
Proof.
  revert s2. induction s1 as [|c s1 IH]; intros [|d s2]; [done..|]. intros [= Hc Hs].
  f_equal; [|by apply IH]. apply N2Z.inj in Hc.
  by rewrite <- (Ascii.ascii_N_embedding c), <- (Ascii.ascii_N_embedding d), Hc.
Qed.

Definition colon : Z := 58.

Lemma digits_no_colon_go x s : colon ∉ js s → colon ∉ js (pretty.pretty_N_go x s).
Proof.
  revert s. induction (N.lt_wf_0 x) as [x _ IH]; intros s Hs.
  destruct (decide (x = 0)%N) as [->|]; [by rewrite pretty.pretty_N_go_0|].
  rewrite pretty.pretty_N_go_step by lia. apply IH; [apply N.div_lt; lia|].
  intros [Hc|Hin]%elem_of_cons; [|done]. revert Hc. unfold colon, pretty.pretty_N_char.
  by repeat case_match.
Qed.

Lemma digits_no_colon z : colon ∉ js_of_Z z.
Proof.
  unfold js_of_Z, pretty, pretty.pretty_Z.
  assert (Hn : ∀ n : N, colon ∉ js (pretty n)).
  { intros n. unfold pretty, pretty.pretty_N. destruct (decide _); [by apply not_elem_of_cons; split; [|apply not_elem_of_nil]|].
    apply digits_no_colon_go, not_elem_of_nil. }
  destruct z as [|p|p]; [exact (Hn 0%N)|exact (Hn (N.pos p))|].
  rewrite js_app, not_elem_of_app. split; [|exact (Hn (N.pos p))].
  by apply not_elem_of_cons; split; [|apply not_elem_of_nil].
Qed.

(** ** The events of an update *)

(** The object literal of each payload that the adapter writes. *)
Definition payload_object (p : event_payload) : jsval :=
  match p with
  | EndpointUpsertEvent x =>
      object [("endpoint", endpoint_object x); ("verificationState", text_value "provider_verified")]
  | ConversationUpsertEvent c _ _ => object [("conversation", conversation_object c)]
  | MessageUpsertEvent p => upsert_object p
  | MessageEditEvent p => edit_object p
  | ReactionUpsertEvent p | ReactionDeleteEvent p => reaction_object p
  | _ => JUndefined
  end.

(** An event of update [u] whose identifier ends in [suffix]. *)
Definition event_of (context : TelegramNormalizationContext) (u : Z) (suffix : string)
    (event : NormalizedChannelEvent) : Prop :=
  event_refusal event = None
  ∧ ∃ occurredAt p, payload_object p ≠ JUndefined
      ∧ event = telegram_event context u suffix occurredAt p (payload_object p).

(** Events with suffixes of their own. *)
Definition normalized (context : TelegramNormalizationContext) (u : Z) (events : list NormalizedChannelEvent) : Prop :=
  ∃ suffixes, NoDup suffixes ∧ Forall2 (event_of context u) suffixes events.

Lemma asserted_Ok e e' : asserted e = Ok e' → e' = e ∧ event_refusal e = None.
Proof. unfold asserted. destruct (event_refusal e) eqn:Er; [done|]. by intros [= <-]. Qed.

Lemma asserted_event context u suffix occurredAt p e :
  payload_object p ≠ JUndefined →
  asserted (telegram_event context u suffix occurredAt p (payload_object p)) = Ok e →
  event_of context u suffix e ∧ ev_payload e = p.
Proof. intros Hp [-> Hr]%asserted_Ok. split; [split; [done|eauto]|done]. Qed.

Definition reference_suffixes (endpoint : option ExternalEndpointReference) : list string :=
  (if endpoint is Some _ then ["endpoint.upsert"] else []) ++ ["conversation.upsert"].

(** The part that announces the sender and the conversation. *)
Definition reference_payload (p : event_payload) : Prop :=
  match p with EndpointUpsertEvent _ | ConversationUpsertEvent _ None None => True | _ => False end.

Lemma reference_spec context u conversation endpoint occurredAt evs :
  referenceEvents context u conversation endpoint occurredAt = Ok evs →
  Forall2 (event_of context u) (reference_suffixes endpoint) evs
  ∧ Forall (λ e, reference_payload (ev_payload e)) evs.
Proof.
  unfold referenceEvents. intros Hk. apply bind_Ok in Hk as (endpoints & He & Hk).
  apply bind_Ok in Hk as (c & Hc & [= <-]).
  apply (asserted_event _ _ _ _ (ConversationUpsertEvent conversation None None)) in Hc as [Hc Hp]; [|done].
  assert (Hr : reference_payload (ev_payload c)) by by rewrite Hp.
  unfold reference_suffixes. destruct endpoint as [x|].
  - apply bind_Ok in He as (e & He & [= <-]).
    apply (asserted_event _ _ _ _ (EndpointUpsertEvent x)) in He as [He Hpe]; [|done].
    split; [by apply Forall2_cons; split; [|apply Forall2_cons; split; [|apply Forall2_nil]]|].
    apply Forall_cons. split; [by rewrite Hpe|]. by apply Forall_singleton.
  - injection He as <-. split; [by apply Forall2_cons; split; [|apply Forall2_nil]|by apply Forall_singleton].
Qed.

Section updates.
Context `{CaseMapping}.

(** Of a message: the announcements, then the message. *)
Lemma message_spec context u message edited evs :
  normalizeMessage context u message edited = Ok evs →
  ∃ conversation sender occurredAt references event p,
    evs = references ++ [event] ∧ referenceEvents context u conversation sender occurredAt = Ok references
    ∧ event_of context u (if edited then "message.edit" else "message.upsert") event ∧ ev_payload event = p
    ∧ match p with
      | MessageUpsertEvent p => edited = false ∧ mu_providerMetadata p = media_group message
      | MessageEditEvent p => edited = true ∧ mm_providerMetadata p = media_group message
      | _ => False
      end.
Proof.
  unfold normalizeMessage. intros Hk. apply bind_Ok in Hk as ([] & _ & Hk).
  apply bind_Ok in Hk as (conversation & _ & Hk). apply bind_Ok in Hk as (occurredAt & _ & Hk).
  apply bind_Ok in Hk as (event & Hev & Hk). apply bind_Ok in Hk as (sender & _ & Hk).
  apply bind_Ok in Hk as (references & Hrefs & [= <-]).
  exists conversation, sender, occurredAt, references, event, (ev_payload event).
  split; [done|]. split; [done|]. destruct edited.
  - apply bind_Ok in Hev as (text & _ & Hev). cbv zeta in Hev.
    apply (asserted_event _ _ _ _ (MessageEditEvent _)) in Hev as [Hev Hp]; [|done]. by rewrite Hp.
  - apply bind_Ok in Hev as (sender' & _ & Hev). apply bind_Ok in Hev as (text & _ & Hev).
    apply bind_Ok in Hev as (attachments & _ & Hev). cbv zeta in Hev.
    apply (asserted_event _ _ _ _ (MessageUpsertEvent _)) in Hev as [Hev Hp]; [|done]. by rewrite Hp.
Qed.

Lemma message_normalized context u message edited evs :
  normalizeMessage context u message edited = Ok evs → normalized context u evs.
Proof.
  intros (conversation & sender & at_ & references & event & p & -> & Hr & He & _)%message_spec.
  apply reference_spec in Hr as [Hr _].
  exists (reference_suffixes sender ++ [if edited then "message.edit" else "message.upsert"]). split.
  - destruct sender, edited; by apply (bool_decide_unpack (NoDup _)).
  - apply Forall2_app; [done|]. by apply Forall2_cons; split; [|apply Forall2_nil].
Qed.

(** ** Reactions *)

Lemma each_asserted l l' : each asserted l = Ok l' → l' = l ∧ Forall (λ e, event_refusal e = None) l.
Proof.
  revert l'. induction l as [|e l IH]; intros l'; cbn; [by intros [= <-]|].
  intros (e' & [-> He]%asserted_Ok & Hk)%bind_Ok. apply bind_Ok in Hk as (l2 & [-> Hl]%IH & [= <-]).
  split; [done|by constructor].
Qed.

Definition step_kind (added : bool) : string := if added then "reaction.upsert" else "reaction.delete".
Definition step_suffix (ordinal : nat) (step : bool * jsstring * jsval) : string :=
  String.append (step_kind step.1.1) (String.append ":" (pretty ordinal)).

Lemma step_suffix_inj i j x y : step_suffix i x = step_suffix j y → i = j.
Proof.
  unfold step_suffix. intros Hs%(f_equal js). rewrite !js_app in Hs.
  assert (Hl : ∀ b, length (js (step_kind b)) = 15) by by intros [].
  apply app_inj_1 in Hs as [_ Hs]; [|by rewrite !Hl]. apply (app_inv_head (js ":")) in Hs.
  by apply js_inj, (inj pretty) in Hs.
Qed.

Lemma step_suffix_new i x endpoint : step_suffix i x ∉ reference_suffixes endpoint.
Proof.
  assert (Hn : head (js (step_suffix i x)) = Some 114%Z).
  { unfold step_suffix. rewrite js_app. by destruct x as [[[] k] d]. }
  unfold reference_suffixes. destruct endpoint; cbn;
    rewrite ?elem_of_cons, elem_of_nil; intros Hin; destruct_or?; try done;
    match goal with Hs : step_suffix i x = _ |- _ => by rewrite Hs in Hn end.
Qed.

Lemma reaction_events context u conversation reactor messageId occurredAt steps events :
  each asserted (imap (reaction_event context u conversation reactor messageId occurredAt) steps) = Ok events →
  events = imap (reaction_event context u conversation reactor messageId occurredAt) steps
  ∧ Forall2 (event_of context u) (imap step_suffix steps) events.
Proof.
  intros [-> Hf]%each_asserted. split; [done|]. apply Forall2_same_length_lookup_2; [by rewrite !length_imap|].
  intros i suffix e. rewrite !list_lookup_imap. destruct (steps !! i) as [st|] eqn:Hst; [|done].
  intros [= <-] [= <-]. assert (Hok : event_refusal (reaction_event context u conversation reactor messageId occurredAt i st) = None).
  { rewrite Forall_forall in Hf. apply Hf. eapply list_elem_of_lookup_2. by rewrite list_lookup_imap, Hst. }
  destruct st as [[added key] d]. split; [done|]. unfold reaction_event. cbv zeta. unfold step_suffix. cbn [fst snd].
  destruct added.
  - eexists occurredAt, (ReactionUpsertEvent _). split; [|reflexivity]. done.
  - eexists occurredAt, (ReactionDeleteEvent _). split; [|reflexivity]. done.
Qed.

Lemma reaction_spec context u reaction evs :
  normalizeReaction context u reaction = Ok evs →
  ∃ conversation reactor occurredAt old new references,
    conversationReference (property "chat" reaction) (property "message_thread_id" reaction) = Ok conversation
    ∧ actor (property "user" reaction) (property "actor_chat" reaction) = Ok (Some reactor)
    ∧ each keyed (elements (property "old_reaction" reaction)) = Ok old
    ∧ each keyed (elements (property "new_reaction" reaction)) = Ok new
    ∧ referenceEvents context u conversation (Some reactor) occurredAt = Ok references
    ∧ let events := imap (reaction_event context u conversation reactor (id_text (property "message_id" reaction)) occurredAt)
                      (reaction_steps old new) in
      evs = references ++ events ∧ Forall2 (event_of context u) (imap step_suffix (reaction_steps old new)) events.
Proof.
  unfold normalizeReaction. intros Hk. apply bind_Ok in Hk as ([] & _ & Hk).
  apply bind_Ok in Hk as (conversation & Hc & Hk). apply bind_Ok in Hk as ([reactor|] & Ha & Hk); [|done].
  apply bind_Ok in Hk as (occurredAt & _ & Hk). apply bind_Ok in Hk as (old & Hold & Hk).
  apply bind_Ok in Hk as (new & Hnew & Hk). apply bind_Ok in Hk as (references & Hr & Hk).
  apply bind_Ok in Hk as (events & [-> He]%reaction_events & [= <-]).
  by exists conversation, reactor, occurredAt, old, new, references.
Qed.

Lemma reaction_normalized context u reaction evs :
  normalizeReaction context u reaction = Ok evs → normalized context u evs.
Proof.
  intros (c & reactor & at_ & old & new & refs & _ & _ & _ & _ & Hr & -> & He)%reaction_spec.
  apply reference_spec in Hr as [Hr _].
  exists (reference_suffixes (Some reactor) ++ imap step_suffix (reaction_steps old new)).
  split; [|by apply Forall2_app]. apply NoDup_app. split; [by apply (bool_decide_unpack (NoDup _))|]. split.
  - intros s Hs (i & Hi)%list_elem_of_lookup_1. rewrite list_lookup_imap in Hi.
    destruct (reaction_steps old new !! i); [|done]. injection Hi as <-. by apply step_suffix_new in Hs.
  - apply NoDup_alt. intros i j s. rewrite !list_lookup_imap.
    destruct (reaction_steps old new !! i), (reaction_steps old new !! j); try done.
    intros [= <-] [= Hs]. by apply step_suffix_inj in Hs.
Qed.

(** ** Every update *)

Lemma update_normalized value context evs :
  normalizeTelegramUpdate value context = Ok evs → ∃ u, requireUpdate value = Ok u ∧ normalized context u evs.
Proof.
  unfold normalizeTelegramUpdate. intros (u & Hu & Hk)%bind_Ok. exists u. split; [done|]. cbv zeta in Hk.
  repeat (destruct (truthy_value _); [eauto using message_normalized, reaction_normalized|]).
  injection Hk as <-. exists []. split; [apply NoDup_nil_2|by apply Forall2_nil].
Qed.

Lemma event_id_inj u u' suffix suffix' :
  js "telegram:" ++ js_of_Z u ++ js ":" ++ js suffix = js "telegram:" ++ js_of_Z u' ++ js ":" ++ js suffix' →
  u = u' ∧ suffix = suffix'.
Proof.
  intros Hs%app_inv_head. change (js ":") with [colon] in Hs. cbn [app] in Hs.
  assert (Hu := f_equal (split_first colon) Hs).
  rewrite !split_first_prefix in Hu by apply digits_no_colon. rewrite Hu in Hs.
  apply app_inv_head in Hs. injection Hs as Hs. split; [|by apply js_inj].
  by apply js_inj, (inj pretty) in Hu.
Qed.

(** What the adapter promises of an event. *)
Definition trusted_event (context : TelegramNormalizationContext) (event : NormalizedChannelEvent) : Prop :=
  event_refusal event = None ∧ isDurableChannelEvent event = true
  ∧ event.(ev_companyId) = context.(tx_companyId)
  ∧ event.(ev_channelAccountId) = context.(tx_channelAccountId)
  ∧ event.(ev_receivedAt) = context.(tx_receivedAt)
  ∧ event.(ev_channel) = "telegram" ∧ event.(ev_provider) = "telegram_bot".

Lemma event_of_trusted context u suffix event : event_of context u suffix event → trusted_event context event.
Proof using.
  intros [Hr (occurredAt & p & Hp & He)]. split; [done|]. subst event. split; [|done].
  unfold isDurableChannelEvent. cbn [ev_payload telegram_event]. by destruct p.
Qed.

Lemma event_of_id context u suffix event :
  event_of context u suffix event → ev_eventId event = js "telegram:" ++ js_of_Z u ++ js ":" ++ js suffix.
Proof using. by intros [_ (occurredAt & p & _ & ->)]. Qed.

(** C13: Every event of an accepted update is well formed, durable and of the account that
    was verified; no two share an identifier, and an identifier belongs to one update,
    so that the inbox tells the events of different updates apart. *)
Theorem telegram_events value context evs :
  normalizeTelegramUpdate value context = Ok evs →
  Forall (trusted_event context) evs ∧ NoDup (ev_eventId <$> evs)
  ∧ ∀ value' context' evs', normalizeTelegramUpdate value' context' = Ok evs' →
      requireUpdate value' ≠ requireUpdate value →
      ∀ e e', e ∈ evs → e' ∈ evs' → ev_eventId e ≠ ev_eventId e'.
Proof.
  intros (u & Hu & suffixes & Hnd & Hf)%update_normalized. split; [|split].
  - eapply Forall2_Forall_r; [exact Hf|]. apply Forall_true. intros s e. apply event_of_trusted.
  - apply NoDup_alt. intros i j x. rewrite !list_lookup_fmap.
    destruct (evs !! i) as [e|] eqn:Hi, (evs !! j) as [e'|] eqn:Hj; try done.
    destruct (Forall2_lookup_r _ _ _ _ _ Hf Hi) as (si & Hsi & He%event_of_id).
    destruct (Forall2_lookup_r _ _ _ _ _ Hf Hj) as (sj & Hsj & He'%event_of_id).
    cbn. rewrite He, He'. intros <-%(inj Some) Hs%(inj Some). apply event_id_inj in Hs as [_ ->].
    by eapply NoDup_lookup.
  - intros value' context' evs' (u' & Hu' & suffixes' & _ & Hf')%update_normalized Hne e e'
      (i & Hi)%list_elem_of_lookup_1 (j & Hj)%list_elem_of_lookup_1.
    destruct (Forall2_lookup_r _ _ _ _ _ Hf Hi) as (si & _ & ->%event_of_id).
    destruct (Forall2_lookup_r _ _ _ _ _ Hf' Hj) as (sj & _ & ->%event_of_id).
    intros [-> _]%event_id_inj. congruence.
Qed.

(** ** The difference of two lists of reactions *)

Lemma map_set_keys k v (l : list (jsstring * jsval)) x : x ∈ (map_set k v l).*1 ↔ x = k ∨ x ∈ l.*1.
Proof using.
  induction l as [|[j w] l IH]; cbn; [by rewrite elem_of_cons, !elem_of_nil; tauto|].
  destruct (bool_decide _) eqn:E; to_prop; cbn; rewrite !elem_of_cons, ?IH; [subst|]; tauto.
Qed.

Lemma map_set_NoDup k v (l : list (jsstring * jsval)) : NoDup l.*1 → NoDup (map_set k v l).*1.
Proof using.
  induction l as [|[j w] l IH]; cbn; [intros _; by apply NoDup_singleton|].
  intros [Hj Hl]%NoDup_cons. destruct (bool_decide _) eqn:E; to_prop; cbn; apply NoDup_cons; [by subst|].
  split; [|by apply IH]. rewrite map_set_keys. by intros [->|?].
Qed.

Lemma descriptors_keys l : NoDup (allReactionDescriptors l).*1
  ∧ ∀ x, x ∈ (allReactionDescriptors l).*1 ↔ x ∈ l.*1.
Proof using.
  unfold allReactionDescriptors. assert (Hg : ∀ m, NoDup m.*1 →
    NoDup (foldl (λ m kv, map_set kv.1 kv.2 m) m l).*1
    ∧ ∀ x, x ∈ (foldl (λ m kv, map_set kv.1 kv.2 m) m l).*1 ↔ x ∈ m.*1 ∨ x ∈ l.*1).
  { induction l as [|[k v] l IH]; intros m Hm; cbn; [split; [done|intros x; rewrite elem_of_nil; tauto]|].
    destruct (IH (map_set k v m)) as [Hn Hx]; [by apply map_set_NoDup|]. split; [done|].
    intros x. rewrite Hx, map_set_keys, elem_of_cons. tauto. }
  destruct (Hg [] (NoDup_nil_2)) as [Hn Hx]. split; [done|]. intros x. rewrite Hx, elem_of_nil. tauto.
Qed.

Definition step_is (added : bool) (key : jsstring) (step : bool * jsstring * jsval) : bool :=
  Bool.eqb step.1.1 added && bool_decide (step.1.2 = key).

Lemma keep_replicate {A} (p : A → bool) n x : keep p (replicate n x) = if p x then replicate n x else [].
Proof using.
  induction n as [|n IH]; cbn [replicate]; [by destruct (p x)|]. rewrite keep_cons, IH. by destruct (p x).
Qed.

Lemma count_absent keys key : key ∉ keys → reactionCount keys key = 0%Z.
Proof using.
  intros Hk. unfold reactionCount. rewrite (proj2 (keep_nil_iff _ keys)); [done|].
  intros x Hx. apply bool_decide_eq_false. by intros ->.
Qed.

Lemma steps_count added key old new :
  length (keep (step_is added key) (reaction_steps old new))
  = Z.to_nat (if added then reactionCount new.*1 key - reactionCount old.*1 key
              else reactionCount old.*1 key - reactionCount new.*1 key)%Z.
Proof using.
  set (d k := (reactionCount new.*1 k - reactionCount old.*1 k)%Z).
  unfold reaction_steps. destruct (descriptors_keys (old ++ new)) as [Hnd Hin].
  assert (Hg : ∀ m : list (jsstring * jsval), NoDup m.*1 →
    length (keep (step_is added key)
      (m ≫= λ kv, replicate (Z.to_nat (Z.abs (d kv.1))) ((0 <? d kv.1)%Z, kv.1, kv.2)))
    = if bool_decide (key ∈ m.*1) then Z.to_nat (if added then d key else - d key) else 0).
  { induction m as [|[k v] m IH]; [done|]. cbn [fmap list_fmap fst]. intros [Hk Hm]%NoDup_cons.
    cbn [mbind list_bind]. rewrite keep_app, length_app, keep_replicate.
    change (list_bind _ _ ?f m) with (m ≫= f). rewrite IH by done. unfold step_is at 1. cbn [fst snd].
    destruct (decide (k = key)) as [->|Hne].
    - rewrite (bool_decide_eq_false_2 (key ∈ m.*1)) by done. rewrite (bool_decide_eq_true_2 (key ∈ _)) by left.
      rewrite (bool_decide_eq_true_2 (key = key)) by done. rewrite andb_true_r.
      generalize (d key). intros z.
      destruct (Z.ltb_spec 0 z), added; cbn; rewrite ?length_replicate; lia.
    - rewrite (bool_decide_eq_false_2 (k = key)) by done. rewrite andb_false_r. cbn.
      rewrite (bool_decide_ext (key ∈ m.*1) (key ∈ k :: m.*1)); [done|].
      rewrite elem_of_cons. split; [by right|by intros [->|?]]. }
  cbv zeta. rewrite Hg by done. destruct (bool_decide _) eqn:E; to_prop.
  - f_equal. subst d. destruct added; lia.
  - assert (Hnot : key ∉ (old ++ new).*1) by by rewrite <- Hin.
    rewrite fmap_app, not_elem_of_app in Hnot. destruct Hnot as [Ho Hn].
    rewrite !count_absent by done. by destruct added.
Qed.

(** The external identifier of the reactions of one actor with one key. *)
Definition reaction_id (reactor : ExternalEndpointReference) (messageId : string) (key : jsstring) : jsstring :=
  js reactor.(xe_identityScope) ++ js ":" ++ reactor.(xe_externalId) ++ js ":" ++ js messageId ++ js ":" ++ key.

Definition reaction_change (added : bool) (id : jsstring) (event : NormalizedChannelEvent) : bool :=
  match event.(ev_payload) with
  | ReactionUpsertEvent p => added && bool_decide (re_externalReactionId p = Some id)
  | ReactionDeleteEvent p => negb added && bool_decide (re_externalReactionId p = Some id)
  | _ => false
  end.

Lemma keep_imap {A B} (p : B → bool) (q : A → bool) (f : nat → A → B) l :
  (∀ i x, p (f i x) = q x) → length (keep p (imap f l)) = length (keep q l).
Proof using.
  revert f. induction l as [|x l IH]; intros f Hf; [done|]. rewrite imap_cons, !keep_cons, Hf.
  destruct (q x); cbn; rewrite (IH (f ∘ S)) by (intros i y; apply Hf); done.
Qed.

(** C14: The events of a reaction are the difference of the two lists: for every reaction
    key, as many upserts as the new list has more of it, as many deletes as it has
    fewer, and all under one external identifier. *)
Theorem reaction_deltas context u reaction evs :
  normalizeReaction context u reaction = Ok evs →
  ∃ reactor old new,
    actor (property "user" reaction) (property "actor_chat" reaction) = Ok (Some reactor)
    ∧ each keyed (elements (property "old_reaction" reaction)) = Ok old
    ∧ each keyed (elements (property "new_reaction" reaction)) = Ok new
    ∧ ∀ key, let id := reaction_id reactor (id_text (property "message_id" reaction)) key in
        length (keep (reaction_change true id) evs) = Z.to_nat (reactionCount new.*1 key - reactionCount old.*1 key)
        ∧ length (keep (reaction_change false id) evs) = Z.to_nat (reactionCount old.*1 key - reactionCount new.*1 key).
Proof.
  intros (c & reactor & at_ & old & new & refs & _ & Ha & Hold & Hnew & Hr & -> & _)%reaction_spec.
  exists reactor, old, new. do 3 (split; [done|]). intros key. cbv zeta. apply reference_spec in Hr as [_ Hr].
  assert (Hrefs : ∀ added id, keep (reaction_change added id) refs = []).
  { intros added id. apply keep_nil_iff. intros e He. rewrite Forall_forall in Hr. specialize (Hr e He).
    unfold reaction_change. by destruct (ev_payload e). }
  assert (Hsteps : ∀ added,
    length (keep (reaction_change added (reaction_id reactor (id_text (property "message_id" reaction)) key))
      (refs ++ imap (reaction_event context u c reactor (id_text (property "message_id" reaction)) at_) (reaction_steps old new)))
    = length (keep (step_is added key) (reaction_steps old new))).
  { intros added. rewrite keep_app, Hrefs. cbn [app]. apply keep_imap. intros i [[b k] d].
    assert (Hk : bool_decide (reaction_id reactor (id_text (property "message_id" reaction)) k
                              = reaction_id reactor (id_text (property "message_id" reaction)) key) = bool_decide (k = key)).
    { apply bool_decide_ext. unfold reaction_id. rewrite !app_assoc. split; [apply app_inv_head|by intros ->]. }
    assert (Hs : ∀ x y : jsstring, bool_decide (Some x = Some y) = bool_decide (x = y)).
    { intros x y. apply bool_decide_ext. split; [apply (inj Some)|by intros ->]. }
    unfold step_is. cbn [fst snd]. rewrite <- Hk, <- Hs. by destruct b, added. }
  by rewrite !Hsteps, !steps_count.
Qed.
End updates.
