(* ===== verification/ChannelRetry.v ===== *)
(** What the retry of an event meets: the event that was stored, and its digest.

    The digest of an event is taken of the object that the adapter built; the retry
    service takes it again of the object that the database returns.  The two agree
    exactly when no property of the event is undefined, and when they do not the retry
    quarantines the event instead of applying it.  The last part shows that every
    message of the Telegram adapter outside of an album is such an event. *)

From S2P Require Import Prelude Js Json SpineRows TenantDb SpineDb Exec Steady Team Workflow Cases Outbound ChannelOutbound ChannelEvents ChannelEventSpec ChannelDelivery Telegram TelegramSpec.

Section retry.
Context `{Oracle} `{ChannelRuntime}.

(** C15: The digest of an event is the digest of what the inbox returns of it exactly when
    no property of the event is undefined.  SHA-256 is taken to have no collisions. *)
Theorem digest_survives_storage event
    `{!Total (λ a b, localeCompare_le a b = true)} `{!Transitive (λ a b, localeCompare_le a b = true)} :
  Inj (=) (=) sha256 → well_keyed localeCompare_le event.(ev_object) = true →
  channelEventPayloadDigest (stored_event event) = channelEventPayloadDigest event
  ↔ fully_defined event.(ev_object) = true.
Proof.
  intros Hinj Hk. unfold channelEventPayloadDigest. cbn [stored_event ev_object].
  rewrite <- (stableJson_stored localeCompare_le) by done. split; [apply Hinj|by intros ->].
Qed.

Lemma digest_changes event :
  Inj (=) (=) sha256 → fully_defined event.(ev_object) = false →
  channelEventPayloadDigest (stored_event event) ≠ channelEventPayloadDigest event.
Proof. intros Hinj Hf Heq%Hinj. by apply undefined_changes_text in Heq. Qed.

(** ** A failed delivery *)

(** The row that a delivery leaves when its application failed and may be repeated. *)
Definition waiting (event : NormalizedChannelEvent) (t : tables) (r : inbox_row) : Prop :=
  inbox_of event t = Some r ∧ r.(ib_status) = inbox_pending
  ∧ r.(ib_payload_digest) = channelEventPayloadDigest event
  ∧ r.(ib_normalized_event) = stored_event event.

Definition sound_inbox (t : tables) : Prop := constraint channel_event_inbox (inbox t) = None.

Lemma exec_record_waiting event e r t :
  waiting event t r → sound_inbox t → quarantines e = false →
  exec (recordApplicationFailure event e) t (λ _ t', sound_inbox t' ∧ ∃ r', waiting event t' r') (λ _ t', t' = t).
Proof.
  intros (Hr & _ & Hd & He) Ht Hq. unfold recordApplicationFailure. do 3 exec_step. apply exec_update; [|done].
  intros Hc. apply exec_ret. split; [exact Hc|].
  assert (Hi := inbox_of_update event _ t (λ r, event_row_update event r inbox_pending
    ((ib_attempts r + 1) `min` 30)%Z (z + retry_delay (ib_attempts r))%Z (Some (slice 0 200 (failure_text e))) (ib_applied_at r))).
  rewrite Hq. rewrite Hr in Hi. eexists. split; [exact Hi|]. done.
Qed.

Lemma exec_first_failure event t :
  event_refusal event = None → inbox_of event t = None →
  exec (applyNormalizedChannelEvent event) t (λ _ _, True)
    (λ e t', quarantines e = false → t' = t ∨ sound_inbox t' ∧ ∃ r, waiting event t' r).
Proof.
  intros Href Hn. unfold applyNormalizedChannelEvent, assertNormalizedChannelEvent. rewrite Href.
  exec_step. apply exec_ret. destruct (negb _); [by apply exec_ret|]. exec_step.
  unfold reserveInboxEvent. do 2 exec_step. do 2 exec_step. set (row := mkInbox _ _ _ _ _ _ _ _ _ _ _ _).
  apply exec_insert_on_conflict_nothing; change (rows channel_event_inbox t) with (inbox t).
  - intros Hany. rewrite first_holds_any in Hany. unfold inbox_of in Hn. rewrite Hn in Hany. by to_prop; destruct Hany.
  - intros _ Hc. set (t1 := set_rows _ _ _).
    assert (Hw : waiting event t1 row).
    { split; [|done]. unfold inbox_of in *. change (inbox t1) with (inbox t ++ [row]). rewrite first_app, Hn.
      assert (Hown : event_row event row = true) by apply event_row_own. unfold first. by rewrite keep_cons, Hown. }
    assert (Hs : sound_inbox t1) by exact Hc.
    apply exec_ret. exec_step. eapply exec_weaken; [apply exec_apply_reserved|..]; cbv beta; [done|].
    intros e t' [-> _]. apply exec_bind. destruct (quarantines e) eqn:Hq.
    { eapply exec_weaken; [apply exec_recordApplicationFailure|..]; cbv beta.
      - intros _ t' _. apply exec_throw. by rewrite Hq.
      - intros e' t' [-> _] _. right. eauto. }
    eapply exec_weaken; [by apply (exec_record_waiting event e row t1)|..]; cbv beta.
    + intros _ t' Ht'. apply exec_throw. intros _. by right.
    + intros e' t' -> _. right. eauto.
  - intros e _ _. by left.
Qed.

(** ** Its retry *)

Lemma sound_update event t f :
  sound_inbox t → (∀ r, inbox_key (f r) = inbox_key r) →
  (∀ r, ib_attempts (f r) = ib_attempts r ∧ ib_normalized_event (f r) = ib_normalized_event r) →
  constraint channel_event_inbox (update_where (event_row event) f (inbox t)) = None.
Proof using.
  unfold sound_inbox. intros Ht Hk Hf. cbn -[unique_on] in *.
  destruct (unique_on inbox_key (inbox t)) eqn:Hu; [|done].
  destruct (forallb _ (inbox t)) eqn:Ha; [|done].
  rewrite unique_on_update by auto. rewrite forallb_update; [done|done|].
  intros r _ Hr. destruct (Hf r) as [-> ->]. done.
Qed.

Lemma exec_collision event digest r t :
  sound_inbox t → inbox_of event t = Some r → r.(ib_payload_digest) ≠ digest →
  exec (reserveInboxEvent event digest) t (λ _ _, False)
    (λ e t', only_inbox event t t'
       ∧ ∃ r', inbox_of event t' = Some r' ∧ r'.(ib_status) = inbox_quarantined).
Proof.
  intros Ht Hr Hd. unfold reserveInboxEvent. do 2 exec_step. do 2 exec_step.
  apply exec_insert_on_conflict_nothing; change (rows channel_event_inbox t) with (inbox t).
  2,3: intros **; match goal with Hf : holds_any _ _ = false |- _ => rename Hf into Hnone end;
    rewrite first_holds_any in Hnone; unfold inbox_of in Hr; rewrite Hr in Hnone; to_prop; by destruct Hnone.
  intros _. do 2 exec_step. change (rows channel_event_inbox t) with (inbox t). fold (inbox_of event t). rewrite Hr.
  rewrite bool_decide_eq_true_2 by done. apply exec_bind, exec_update.
  - intros _. apply exec_throw. change (rows channel_event_inbox t) with (inbox t). split.
    + by apply only_inbox_set, keep_negb_update.
    + rewrite inbox_of_update by done. rewrite Hr. cbn. eauto.
  - intros e He. change (rows channel_event_inbox t) with (inbox t) in He. by rewrite sound_update in He.
Qed.

Lemma exec_retry_waiting authority companyId event r t :
  Inj (=) (=) sha256 → fully_defined event.(ev_object) = false → isDurableChannelEvent event = true →
  waiting event t r → sound_inbox t → stored_event_valid authority companyId r = true →
  exec (retry_row authority companyId r) t
    (λ a t', a = None ∧ only_inbox event t t'
       ∧ ∃ r', inbox_of event t' = Some r' ∧ r'.(ib_status) = inbox_quarantined)
    (λ _ _, False).
Proof.
  intros Hinj Hf Hdur (Hr & _ & Hd & He) Ht Hv. unfold retry_row. rewrite Hv, He.
  assert (Href : event_refusal (stored_event event) = None).
  { unfold stored_event_valid in Hv. rewrite He in Hv. rewrite !andb_true_iff in Hv.
    destruct Hv as [[[[[Hv _] _] _] _] _]. by destruct (event_refusal _). }
  exec_step. apply exec_bind. unfold applyNormalizedChannelEvent at 1, assertNormalizedChannelEvent. rewrite Href.
  exec_step. apply exec_ret. change (isDurableChannelEvent (stored_event event)) with (isDurableChannelEvent event).
  rewrite Hdur. cbn [negb]. exec_step.
  eapply exec_weaken; [apply (exec_collision (stored_event event) _ r); [done|exact Hr|]|..]; cbv beta.
  - rewrite Hd. intros Heq. by apply (digest_changes event).
  - done.
  - intros e t' [Ho Hq]. by apply exec_ret.
Qed.

(** ** Messages of Telegram *)

(** A message or an edit that is not part of an album. *)
Definition outside_album (event : NormalizedChannelEvent) : Prop :=
  match event.(ev_payload) with
  | MessageUpsertEvent p => p.(mu_providerMetadata) = None
  | MessageEditEvent p => p.(mm_providerMetadata) = None
  | _ => False
  end.

Lemma not_fully_defined o k v :
  (k, v) ∈ o → is_undefined v = true ∨ fully_defined v = false → fully_defined (object o) = false.
Proof using.
  intros Hin Hv. apply not_true_iff_false. unfold object. cbn [fully_defined]. rewrite forallb_forall. intros Hf.
  specialize (Hf (js k, v)). rewrite <- list_elem_of_In in Hf.
  assert (Hj : (js k, v) ∈ (λ kv, (js kv.1, kv.2)) <$> o) by (apply list_elem_of_fmap; by exists (k, v)).
  specialize (Hf Hj). apply andb_true_iff in Hf as [Hu Hd]. cbn in *. destruct Hv as [Hv|Hv]; by rewrite Hv in *.
Qed.

Lemma telegram_undefined `{CaseMapping} value context evs event :
  normalizeTelegramUpdate value context = Ok evs → event ∈ evs → outside_album event →
  fully_defined event.(ev_object) = false.
Proof using.
  intros (u & _ & suffixes & _ & Hf)%update_normalized (i & Hi)%list_elem_of_lookup_1 Ha.
  destruct (Forall2_lookup_r _ _ _ _ _ Hf Hi) as (suffix & _ & _ & occurredAt & p & _ & ->).
  unfold outside_album in Ha. cbn [ev_payload ev_object telegram_event] in *.
  apply not_fully_defined with "payload" (payload_object p); [by repeat first [by left|right]|right].
  destruct p; try done; apply not_fully_defined with "providerMetadata" JUndefined; try by left.
  all: unfold payload_object, upsert_object, edit_object; rewrite Ha; cbn [optional]; by repeat first [by left|right].
Qed.

(** C16: A message of Telegram, outside of an album, whose first application failed for a
    reason that may pass waits in the inbox, and its retry cannot apply it: the retry
    meets another digest and quarantines it.  SHA-256 is taken to have no collisions. *)
Theorem telegram_failure_is_final `{CaseMapping} value context evs event s e s1 :
  Inj (=) (=) sha256 →
  normalizeTelegramUpdate value context = Ok evs → event ∈ evs → outside_album event →
  inbox_of event (tb s) = None →
  applyNormalizedChannelEvent event s = (Throw e, s1) → quarantines e = false → tb s1 ≠ tb s →
  ∃ row, inbox_of event (tb s1) = Some row ∧ row.(ib_status) = inbox_pending
  ∧ ∀ authority s2, tb s2 = tb s1 → stored_event_valid authority event.(ev_companyId) row = true →
      match retry_row authority event.(ev_companyId) row s2 with
      | (Ok a, s3) => a = None ∧ only_inbox event (tb s2) (tb s3)
          ∧ ∃ row', inbox_of event (tb s3) = Some row' ∧ row'.(ib_status) = inbox_quarantined
      | (Throw _, _) => False
      end.
Proof.
  intros Hinj Hn Hin Ha Hnone Happ Hq Hne.
  assert (Hf : fully_defined event.(ev_object) = false) by by eapply telegram_undefined.
  destruct (telegram_events value context evs Hn) as (Htr & _ & _). rewrite Forall_forall in Htr.
  destruct (Htr event Hin) as (Href & Hdur & _).
  assert (Hx := exec_run _ s _ _ (exec_first_failure event (tb s) Href Hnone)). rewrite Happ in Hx.
  destruct (Hx Hq) as [|(Hs & row & Hw)]; [done|]. exists row.
  split; [by destruct Hw|]. split; [by destruct Hw as (_ & ? & _)|]. intros authority s2 Hs2 Hv. rewrite <- Hs2 in *.
  exact (exec_run _ s2 _ _ (exec_retry_waiting authority _ event row (tb s2) Hinj Hf Hdur Hw Hs Hv)).
Qed.
End retry.
