(* ===== verification/IntentSpec.v ===== *)
(** Contracts of the dispatcher of neutral intents. *)

From S2P Require Import Prelude Js SpineRows TenantDb Exec Steady Workflow Fanout Permissions Media Outbound ChannelOutbound.

(** ** Rows *)

(** The unique indexes hold. *)
Definition keyed_intents (t : tables) : Prop := constraint outbound_message_intents (t_intents t) = None.

Definition intent_of (t : tables) (i : string) : option intent_row :=
  first (λ r, bool_decide (r.(it_id) = i)) (t_intents t).

(** The columns that no statement rewrites. *)
Definition intent_identity (r : intent_row) :=
  (r.(it_id), r.(it_channel_account_id), r.(it_conversation_id), r.(it_message_id), r.(it_operation),
   r.(it_idempotency_key), r.(it_payload), r.(it_created_at)).

Definition outcome_status (result : ProviderSendResult) : intent_status :=
  match result with
  | Delivered true _ _ _ => intent_confirmed
  | Delivered false _ _ _ => intent_handed_off
  | SendFailed transient_failure _ _ _ => intent_pending
  | SendFailed permanent_failure _ _ _ => intent_failed
  | SendFailed uncertain _ _ _ => intent_uncertain
  end.

(** The life of an intent: it waits, is dispatched under a token, and either waits again,
    after a transient failure reported under that token, or reaches its last status. *)
Inductive intent_life : intent_op → option intent_row → option intent_row → Prop :=
| life_added r : intent_life (AddIntent r) None (Some (new_intent r))
| life_claimed D locked r r' :
    intent_identity r' = intent_identity r →
    r.(it_status) = intent_pending → r'.(it_status) = intent_dispatching →
    r'.(it_attempts) = (r.(it_attempts) + 1)%Z → is_Some r'.(it_lease_token) →
    intent_life (ClaimNext D locked) (Some r) (Some r')
| life_completed claim result r r' :
    intent_identity r' = intent_identity r →
    r.(it_status) = intent_dispatching → r.(it_lease_token) = Some claim.(cl_leaseToken) →
    r'.(it_status) = outcome_status result → r'.(it_attempts) = r.(it_attempts) → r'.(it_lease_token) = None →
    intent_life (Complete claim result) (Some r) (Some r')
| life_expired r r' :
    intent_identity r' = intent_identity r →
    r.(it_status) = intent_dispatching → r'.(it_status) = intent_uncertain →
    r'.(it_attempts) = r.(it_attempts) → r'.(it_lease_token) = None →
    intent_life Recover (Some r) (Some r').

Lemma checks_intents l :
  constraint outbound_message_intents l = None → unique_on (Some ∘ it_id) l = true.
Proof. cbn [constraint outbound_message_intents]. rewrite checks_cons. by intros []. Qed.

Lemma intent_of_Some t i r : intent_of t i = Some r → r ∈ t_intents t ∧ r.(it_id) = i.
Proof. intros Hr. apply first_Some in Hr as [Hr Hi]. by to_prop. Qed.

Lemma intent_unique t a b :
  keyed_intents t → a ∈ t_intents t → b ∈ t_intents t → a.(it_id) = b.(it_id) → a = b.
Proof.
  intros Hk Ha Hb Hid. eapply (unique_on_eq (Some ∘ it_id)); [by apply checks_intents|done|done|done|]. cbn. by rewrite Hid.
Qed.

Lemma intent_of_in t r : keyed_intents t → r ∈ t_intents t → intent_of t r.(it_id) = Some r.
Proof.
  intros Hk Hr. apply first_unique; [done|by apply bool_decide_eq_true_2|].
  intros y Hy Hid. to_prop. by apply (intent_unique t).
Qed.

(** What an update that keeps the ids does to one intent. *)
Lemma intent_of_update p f i l t :
  (∀ r, intent_identity (f r) = intent_identity r) →
  intent_of (set_rows outbound_message_intents (update_where p f l) t) i
  = (λ r, if p r then f r else r) <$> first (λ r, bool_decide (r.(it_id) = i)) l.
Proof.
  intros Hf. unfold intent_of. change (t_intents (set_rows outbound_message_intents ?l t)) with l.
  unfold first, update_where. induction l as [|r l IH]; [done|]. cbn [fmap list_fmap]. rewrite !keep_cons.
  assert (Hid : (if p r then f r else r).(it_id) = r.(it_id)) by (destruct (p r); [|done]; specialize (Hf r); unfold intent_identity in Hf; congruence). rewrite Hid.
  by case_bool_decide.
Qed.

Lemma constraint_update p f l :
  (∀ r, intent_identity (f r) = intent_identity r) → constraint outbound_message_intents l = None →
  constraint outbound_message_intents (update_where p f l) = None.
Proof.
  intros Hf. cbn [constraint outbound_message_intents]. rewrite !checks_cons. intros (H1 & H2 & H3 & _).
  assert (Hk : ∀ r, (f r).(it_id) = r.(it_id) ∧ intent_key (f r) = intent_key r ∧ send_message_key (f r) = send_message_key r).
  { intros r. specialize (Hf r). unfold intent_identity in Hf. unfold intent_key, send_message_key.
    split_and!; [congruence..|]. by replace (it_operation (f r)) with (it_operation r) by congruence;
      replace (it_message_id (f r)) with (it_message_id r) by congruence. }
  split_and!; [..|done]; (apply unique_on_update; [done|]); intros r _ _; left; destruct (Hk r) as (? & ? & ?);
    unfold compose; congruence.
Qed.

(** ** The life of an intent *)

Definition waiting (t : tables) (i : string) : bool :=
  match intent_of t i with Some r => bool_decide (r.(it_status) = intent_pending) | None => true end.

(** One operation: every intent takes at most one step of its life, and the event tells
    which intent stopped or started to wait. *)
Definition intent_moves (op : intent_op) (t : tables) (o : option intent_event) (t' : tables) : Prop :=
  keyed_intents t →
  keyed_intents t'
  ∧ (∀ i, intent_of t' i = intent_of t i ∨ intent_life op (intent_of t i) (intent_of t' i))
  ∧ match o with
    | None => ∀ i, waiting t' i = waiting t i
    | Some e => waiting t (event_intent e) = (match e with Handed _ => true | Returned _ => false end)
                ∧ waiting t' (event_intent e) = negb (waiting t (event_intent e))
                ∧ ∀ i, i ≠ (event_intent e) → waiting t' i = waiting t i
    end.

Lemma waiting_ext t t' i : intent_of t' i = intent_of t i → waiting t' i = waiting t i.
Proof. unfold waiting. by intros ->. Qed.

Lemma intent_moves_same op t t' : t_intents t' = t_intents t → intent_moves op t None t'.
Proof.
  intros He Hk. assert (Hi : ∀ i, intent_of t' i = intent_of t i) by (intros i; unfold intent_of; by rewrite He).
  split_and!; [unfold keyed_intents; by rewrite He|auto|]. intros i. by apply waiting_ext.
Qed.

(** An update that hits no row but [r]. *)
Lemma intent_moves_one op p f r t t' o :
  t_intents t' = update_where p f (t_intents t) → (∀ x, intent_identity (f x) = intent_identity x) →
  (∀ x, x ∈ t_intents t → p x = true → x.(it_id) = r.(it_id)) →
  r ∈ t_intents t → (keyed_intents t → intent_life op (Some r) (Some (f r))) → p r = true →
  match o with
  | None => bool_decide ((f r).(it_status) = intent_pending) = bool_decide (r.(it_status) = intent_pending)
  | Some e => event_intent e = r.(it_id)
      ∧ bool_decide (r.(it_status) = intent_pending) = (match e with Handed _ => true | Returned _ => false end)
      ∧ bool_decide ((f r).(it_status) = intent_pending) = negb (bool_decide (r.(it_status) = intent_pending))
  end →
  intent_moves op t o t'.
Proof.
  intros He Hf Hp Hr Hl Hpr Ho Hk.
  assert (Hi : ∀ i, intent_of t' i = (λ x, if p x then f x else x) <$> intent_of t i).
  { intros i. unfold intent_of at 1. rewrite He. by apply (intent_of_update p f i (t_intents t) t). }
  assert (Hself : intent_of t r.(it_id) = Some r) by by apply intent_of_in.
  assert (Hself' : intent_of t' r.(it_id) = Some (f r)) by (rewrite Hi, Hself; cbn; by rewrite Hpr).
  assert (Hother : ∀ i, i ≠ r.(it_id) → intent_of t' i = intent_of t i).
  { intros i Hne. rewrite Hi. destruct (intent_of t i) as [x|] eqn:Hx; [|done]. cbn.
    apply intent_of_Some in Hx as [Hx Hid]. destruct (p x) eqn:Hpx; [|done]. specialize (Hp x Hx Hpx). congruence. }
  split_and!.
  - unfold keyed_intents. rewrite He. by apply constraint_update.
  - intros i. destruct (decide (i = r.(it_id))) as [->|Hne]; [right|left; by apply Hother].
    rewrite Hself, Hself'. by apply Hl.
  - destruct o as [e|].
    + destruct Ho as (-> & Hw & Hw'). unfold waiting at 1 2 3. rewrite Hself, Hself'. split_and!; [done|done|].
      intros i Hne. by apply waiting_ext, Hother.
    + intros i. destruct (decide (i = r.(it_id))) as [->|Hne]; [|by apply waiting_ext, Hother].
      unfold waiting. by rewrite Hself, Hself'.
Qed.

Section steps.
Context `{Oracle} (companyId : string).

(** The claim leases the earliest deliverable row, or does nothing. *)
Definition claimed_by (D : directory) (authority : WorkspaceAuthority) (locked : intent_row → bool)
    (t : tables) (claim : ClaimedIntent) (t' : tables) : Prop :=
  ∃ r a now expires updated_at,
    r ∈ t_intents t
    ∧ deliverable D authority (t_connections t) (t_conversations t) now r = true ∧ locked r = false
    ∧ (∀ x, x ∈ t_intents t → deliverable D authority (t_connections t) (t_conversations t) now x = true →
         locked x = false → x = r ∨ due_first r x)
    ∧ account D r.(it_channel_account_id) = Some a
    ∧ claim = mkClaimed r.(it_id) companyId r.(it_channel_account_id) r.(it_conversation_id) r.(it_message_id)
                r.(it_operation) r.(it_idempotency_key) r.(it_payload)
                (String.append r.(it_id) (String.append ":" (pretty (r.(it_attempts) + 1)%Z)))
                claim.(cl_leaseToken) a.(ac_provider) a.(ac_channel)
    ∧ t' = set_rows outbound_message_intents
             (update_where (pending_intent r.(it_id)) (lease_intent claim.(cl_leaseToken) expires updated_at)
                (t_intents t)) t.

#[local] Instance due_first_trans : Transitive due_first.
Proof. unfold due_first. intros a b c [?|[? ?]] [?|[? ?]]; lia. Qed.
#[local] Instance due_first_total : Total due_first.
Proof. intros a b. unfold due_first. lia. Qed.

Lemma exec_claim_intent D authority locked t :
  exec (claim_intent companyId D authority locked) t
    (λ o t', match o with None => t' = t | Some claim => claimed_by D authority locked t claim t' end)
    (λ _ t', t' = t).
Proof using.
  unfold claim_intent. do 9 exec_step. rewrite !keep_everything.
  change (rows outbound_message_intents t) with (t_intents t). change (rows conversations t) with (t_conversations t).
  change (rows whatsapp_connections t) with (t_connections t).
  set (l := keep _ (t_intents t)).
  assert (Hhead := head_merge_sort due_first l).
  destruct (head (merge_sort due_first l)) as [r|]; [|by apply exec_ret]. destruct Hhead as [Hr Hmin].
  unfold l in Hr. apply elem_of_keep in Hr as [Hd Hr]. to_prop.
  destruct (account D (it_channel_account_id r)) as [a|] eqn:Ha; [|by apply exec_ret].
  exec_step; [by apply exec_ret|]. exec_step; [by apply exec_ret|]. do 7 exec_step.
  apply exec_update_returning; [|done]. intros _. change (rows outbound_message_intents t) with (t_intents t).
  assert (Hpr : pending_intent r.(it_id) r = true).
  { unfold deliverable in H0. to_prop. unfold pending_intent. by rewrite !bool_decide_eq_true_2. }
  destruct (keep (pending_intent (it_id r)) (t_intents t)) as [|x k] eqn:Hk.
  { apply (proj1 (keep_nil_iff _ _)) with (x := r) in Hk; [congruence|done]. }
  cbn [fmap list_fmap]. apply exec_ret. exists r, a. do 3 eexists. split_and!; [done|done|done| |done|reflexivity|reflexivity].
  intros y Hy Hdy Hly. apply Hmin, elem_of_keep. by rewrite Hdy, Hly.
Qed.

(** What an outcome may do to the message of its intent. *)
Definition message_outcome (claim : ClaimedIntent) (result : ProviderSendResult) (m m' : message_row) : Prop :=
  if is_action claim.(cl_operation) then
    m'.(ms_status) = m.(ms_status) ∧ m'.(ms_message_id) = m.(ms_message_id)
    ∧ (m' = m ∨ ∃ req ext scope, result = Delivered true req ext scope
         ∧ ((claim.(cl_operation) = "action:delete" ∧ m'.(ms_deleted_by_sender) = true
             ∧ m'.(ms_content) = m.(ms_content))
            ∨ (claim.(cl_operation) = "action:edit" ∧ Some m'.(ms_content) = claim.(cl_payload).(np_textContent)
               ∧ m'.(ms_deleted_by_sender) = m.(ms_deleted_by_sender))))
  else
    match result with
    | Delivered confirmed _ ext _ =>
        m'.(ms_status) = (if confirmed then "sent" else "pending") ∧ m'.(ms_content) = m.(ms_content)
        ∧ m'.(ms_message_id) = (if filled ext then ext else m.(ms_message_id))
        ∧ m'.(ms_external_message_id) = (if filled ext then ext else m.(ms_external_message_id))
    | SendFailed permanent_failure _ _ _ =>
        m'.(ms_status) = "failed" ∧ m'.(ms_content) = m.(ms_content) ∧ m'.(ms_message_id) = m.(ms_message_id)
    | SendFailed _ _ _ _ => m' = m
    end.

(** The row of an intent after its outcome. *)
Definition completed_row (result : ProviderSendResult) (now updated_at : Z) (attempts : Z) (r : intent_row) : intent_row :=
  match result with
  | Delivered _ req _ _ =>
      it_update r (outcome_status result) r.(it_attempts) r.(it_next_attempt_at) None req None updated_at
  | SendFailed outcome code after req =>
      it_update r (outcome_status result) r.(it_attempts)
        (if bool_decide (outcome = transient_failure) then now + intent_retry_delay attempts after else now)
        None req (Some code) updated_at
  end.

(** The browsers are told when a message was delivered or will never be. *)
Definition told (claim : ClaimedIntent) (result : ProviderSendResult) : bool :=
  negb (is_action claim.(cl_operation))
  && match result with Delivered _ _ _ _ | SendFailed permanent_failure _ _ _ => true | _ => false end.

Definition telling (claim : ClaimedIntent) (result : ProviderSendResult) (message_id : option string) (t : tables)
    : tables :=
  match message_id with
  | Some (String _ _ as id) =>
      if told claim result
      then queue_fanout (mkFanout companyId claim.(cl_channelAccountId) claim.(cl_conversationId) id "realtime") t
      else t
  | _ => t
  end.

(** The intent of the claim has its outcome, its message what follows from it, the
    browsers are told, and nothing else has changed. *)
Definition completed (claim : ClaimedIntent) (result : ProviderSendResult) (r : intent_row) (t t' : tables) : Prop :=
  ∃ now updated_at g,
    t' = telling claim result r.(it_message_id)
           (set_rows messages
             (match r.(it_message_id) with
              | Some (String _ _ as id) => update_where (is_message id) g (t_messages t)
              | _ => t_messages t
              end)
             (set_rows outbound_message_intents
                (update_where (is_claim claim) (completed_row result now updated_at r.(it_attempts)) (t_intents t)) t))
    ∧ (filled r.(it_message_id) = true → ∀ m, message_outcome claim result m (g m)).

Lemma same_message_rows l t :
  set_rows messages (t_messages t) (set_rows outbound_message_intents l t) = set_rows outbound_message_intents l t.
Proof using. by destruct t. Qed.

Lemma telling_intents claim result m t : t_intents (telling claim result m t) = t_intents t.
Proof using.
  unfold telling. destruct m as [[|c id]|]; [done| |done]. destruct (told _ _); [|done].
  by apply (queue_frame outbound_message_intents).
Qed.

Lemma completed_identity result now upd a r : intent_identity (completed_row result now upd a r) = intent_identity r.
Proof using. by destruct result. Qed.

(** The outcome with the message updated, or left alone. *)
Lemma completed_message claim result r c id g now upd t t' :
  r.(it_message_id) = Some (String c id) → (∀ m, message_outcome claim result m (g m)) →
  t' = telling claim result (Some (String c id))
    (set_rows messages (update_where (is_message (String c id)) g (t_messages t))
      (set_rows outbound_message_intents
         (update_where (is_claim claim) (completed_row result now upd r.(it_attempts)) (t_intents t)) t)) →
  completed claim result r t t'.
Proof using. intros Hid Hg ->. exists now, upd, g. by rewrite Hid. Qed.

Lemma completed_alone claim result r now upd t :
  (filled r.(it_message_id) = true → told claim result = false ∧ ∀ m, message_outcome claim result m m) →
  completed claim result r t
    (set_rows outbound_message_intents
       (update_where (is_claim claim) (completed_row result now upd r.(it_attempts)) (t_intents t)) t).
Proof using.
  intros Hm. exists now, upd, (λ m, m). split; [|by apply Hm].
  destruct (it_message_id r) as [[|c id]|]; unfold telling; rewrite ?update_where_same, same_message_rows; [done| |done].
  by rewrite (proj1 (Hm eq_refl)).
Qed.

(** The update of the message, and the browsers told. *)
Lemma exec_tell claim result r c id g now upd t :
  r.(it_message_id) = Some (String c id) → told claim result = true → (∀ m, message_outcome claim result m (g m)) →
  exec (_ ← update messages (is_message (String c id)) g; tell_browsers companyId claim (String c id))
    (set_rows outbound_message_intents
       (update_where (is_claim claim) (completed_row result now upd r.(it_attempts)) (t_intents t)) t)
    (λ _ t', completed claim result r t t') (λ _ _, ¬ keyed_fanout t).
Proof using.
  intros Hid Ht Hg. exec_step. apply exec_update; [intros _|done]. unfold tell_browsers.
  eapply exec_weaken; [apply exec_enqueue_fanout| |by intros e t' [_ Hk]]. intros _ t' ->.
  apply (completed_message claim result r c id g now upd t); [done|done|]. unfold telling. by rewrite Ht.
Qed.

Lemma exec_record_delivery claim r confirmed req ext scope now upd t :
  exec (record_delivery companyId claim r.(it_message_id) confirmed ext scope)
    (set_rows outbound_message_intents
       (update_where (is_claim claim) (completed_row (Delivered confirmed req ext scope) now upd r.(it_attempts))
          (t_intents t)) t)
    (λ _ t', completed claim (Delivered confirmed req ext scope) r t t') (λ _ _, ¬ keyed_fanout t).
Proof using.
  unfold record_delivery. destruct (it_message_id r) as [[|c id]|] eqn:Hid;
    [by apply exec_ret, completed_alone; rewrite Hid| |by apply exec_ret, completed_alone; rewrite Hid].
  set (result := Delivered confirmed req ext scope).
  destruct (is_action (cl_operation claim)) eqn:Ha.
  - assert (Ht : told claim result = false) by (unfold told; by rewrite Ha).
    assert (Hsame : ∀ m, message_outcome claim result m m) by (intros m; unfold message_outcome; rewrite Ha; auto).
    destruct confirmed; [|by apply exec_ret, completed_alone]. cbn [negb].
    case_bool_decide as Hdel; [|case_bool_decide as Hedit; [|by apply exec_ret, completed_alone]].
    + exec_step. exec_step. exec_step. apply exec_update; [intros _|done]. apply exec_ret.
      refine (completed_message claim _ r c id _ now upd t _ Hid _ _); [|unfold telling; by rewrite Ht].
      intros m. unfold message_outcome. rewrite Ha.
      split_and!; [done..|]. right. exists req, ext, scope. split; [done|]. by left.
    + destruct (np_textContent _) as [txt|] eqn:Htxt; [|by apply exec_ret, completed_alone].
      exec_step. apply exec_update; [intros _|done]. apply exec_ret.
      refine (completed_message claim _ r c id _ now upd t _ Hid _ _); [|unfold telling; by rewrite Ht].
      intros m. unfold message_outcome. rewrite Ha.
      split_and!; [done..|]. right. exists req, ext, scope. split; [done|]. right. by rewrite Htxt.
  - apply (exec_tell claim result r); [done|unfold told; by rewrite Ha|]. intros m. unfold message_outcome. by rewrite Ha.
Qed.

Lemma exec_complete claim result t :
  keyed_intents t →
  exec (completeClaim companyId claim result) t
    (λ _ t', match first (fenced_intent claim) (t_intents t) with
             | None => t' = t
             | Some r => completed claim result r t t'
             end) (λ _ t', t' = t ∧ ¬ keyed_fanout t).
Proof using.
  intros Hk. unfold completeClaim. apply exec_transaction. exec_step. exec_step.
  change (rows outbound_message_intents t) with (t_intents t).
  destruct (first _ (t_intents t)) as [r|]; [|by apply exec_ret]. exec_step. exec_step.
  assert (Hc : ∀ f, (∀ x, intent_identity (f x) = intent_identity x) →
    constraint outbound_message_intents (update_where (is_claim claim) f (rows outbound_message_intents t)) = None)
    by (intros f Hf; by apply constraint_update).
  destruct result as [confirmed req ext scope|outcome code after req].
  - exec_step. apply exec_update; [intros _|intros e; by rewrite Hc].
    eapply exec_weaken; [exact (exec_record_delivery claim r confirmed req ext scope 0 z t)|done|done].
  - exec_step. exec_step. cbv zeta. exec_step. apply exec_update; [intros _|intros e; by rewrite Hc].
    change (rows outbound_message_intents t) with (t_intents t).
    match goal with |- exec _ ?t1 _ _ => set (t2 := t1) end.
    assert (Ht2 : t2 = set_rows outbound_message_intents (update_where (is_claim claim)
      (completed_row (SendFailed outcome code after req) z0 z r.(it_attempts)) (t_intents t)) t) by (by destruct outcome).
    rewrite Ht2. destruct (it_message_id r) as [[|c id]|] eqn:Hid;
      [by apply exec_ret, completed_alone; rewrite Hid| |by apply exec_ret, completed_alone; rewrite Hid].
    unfold when. destruct (bool_decide (outcome = permanent_failure) && _) eqn:Hp.
    + apply andb_true_iff in Hp as [->%bool_decide_eq_true_1 Ha%negb_true_iff].
      eapply exec_weaken; [apply (exec_tell claim (SendFailed permanent_failure code after req) r c id)|done|done];
        [done|unfold told; by rewrite Ha|]. intros m. unfold message_outcome. by rewrite Ha.
    + apply exec_ret, completed_alone. intros _. unfold told, message_outcome.
      destruct (is_action (cl_operation claim)); [auto|]. by destruct outcome.
Qed.

(** *** Every operation is a step of the life *)

Lemma add_moves r t :
  keyed_intents (set_rows outbound_message_intents (t_intents t ++ [new_intent r]) t) →
  intent_moves (AddIntent r) t None (set_rows outbound_message_intents (t_intents t ++ [new_intent r]) t).
Proof using.
  intros Hk Hk0. split; [done|].
  assert (Hi : ∀ i, intent_of (set_rows outbound_message_intents (t_intents t ++ [new_intent r]) t) i
    = match intent_of t i with Some x => Some x | None => if decide (i = it_id r) then Some (new_intent r) else None end).
  { intros i. unfold intent_of. change (t_intents (set_rows outbound_message_intents ?l t)) with l.
    rewrite first_app. destruct (first _ (t_intents t)); [done|]. unfold first. rewrite keep_cons.
    change (it_id (new_intent r)) with (it_id r). case_bool_decide as Hd.
    - by rewrite decide_True.
    - by rewrite decide_False. }
  assert (Hfresh : intent_of t r.(it_id) = None).
  { destruct (intent_of t (it_id r)) as [x|] eqn:Hx; [|done]. exfalso. apply intent_of_Some in Hx as [Hx Hid].
    apply checks_intents in Hk. change (t_intents (set_rows outbound_message_intents ?l t)) with l in Hk.
    unfold unique_on in Hk. apply bool_decide_eq_true_1 in Hk. rewrite omap_app in Hk. cbn in Hk.
    apply NoDup_app in Hk as (_ & Hk & _). apply (Hk (it_id x)); [|rewrite Hid; left].
    apply list_elem_of_omap. by exists x. }
  split; intros i; specialize (Hi i).
  - destruct (decide (i = it_id r)) as [->|Hne]; [right; rewrite Hi, Hfresh; constructor|left].
    rewrite Hi. by destruct (intent_of t i).
  - unfold waiting. rewrite Hi. destruct (intent_of t i) as [x|] eqn:Hx; [done|].
    destruct (decide (i = it_id r)); [|done]. by rewrite bool_decide_eq_true_2.
Qed.

Lemma claim_moves D authority locked t claim t' :
  claimed_by D authority locked t claim t' → intent_moves (ClaimNext D locked) t (Some (Handed claim.(cl_id))) t'.
Proof using.
  intros (r & a & now & expires & upd & Hr & Hd & _ & _ & _ & Hcl & ->).
  assert (Hst : r.(it_status) = intent_pending) by (unfold deliverable in Hd; by to_prop).
  assert (Hid : claim.(cl_id) = r.(it_id)) by by rewrite Hcl.
  apply (intent_moves_one _ (pending_intent r.(it_id)) (lease_intent claim.(cl_leaseToken) expires upd) r);
    [done|done| |done| | |].
  - intros x _ Hp. unfold pending_intent in Hp. by to_prop.
  - intros _. by constructor.
  - unfold pending_intent. by rewrite !bool_decide_eq_true_2.
  - rewrite Hst. cbn. by rewrite Hid.
Qed.

Lemma completed_moves claim result r t t' :
  first (fenced_intent claim) (t_intents t) = Some r → completed claim result r t t' →
  intent_moves (Complete claim result) t
    (match result with SendFailed transient_failure _ _ _ => Some (Returned claim.(cl_id)) | _ => None end) t'.
Proof using.
  intros Hr (now & upd & g & -> & _). apply first_Some in Hr as [Hr Hf]. unfold fenced_intent, is_id in Hf. to_prop.
  apply (intent_moves_one _ (is_claim claim) (completed_row result now upd r.(it_attempts)) r);
    [by rewrite telling_intents|intros; apply completed_identity| |done| | |].
  - intros x _ Hx. unfold is_claim in Hx. to_prop. congruence.
  - intros _. constructor; [apply completed_identity|done|done|by destruct result|by destruct result|by destruct result].
  - by apply bool_decide_eq_true_2.
  - rewrite H2. destruct result as [[]|[] ? ? ?]; done.
Qed.

(** The recovery may touch many rows, each of them like [intent_moves_one]. *)
Lemma recover_moves now upd t :
  intent_moves Recover t None
    (set_rows outbound_message_intents
       (update_where (expired_intent now) (λ r,
          it_update r intent_uncertain r.(it_attempts) r.(it_next_attempt_at) None
            r.(it_provider_request_id) (Some "dispatch_lease_expired_outcome_unknown") upd) (t_intents t)) t).
Proof using.
  intros Hk. match goal with |- context [update_where _ ?g _] => set (f := g) end.
  assert (Hf : ∀ x, intent_identity (f x) = intent_identity x) by done.
  assert (Hi : ∀ i, intent_of (set_rows outbound_message_intents (update_where (expired_intent now) f (t_intents t)) t) i
    = (λ x, if expired_intent now x then f x else x) <$> intent_of t i)
    by (intros i; by apply (intent_of_update _ f i (t_intents t) t)).
  split_and!; [by apply constraint_update| |]; intros i; specialize (Hi i).
  - rewrite Hi. destruct (intent_of t i) as [x|]; [|by left]. cbn. destruct (expired_intent now x) eqn:He; [right|by left].
    unfold expired_intent in He. to_prop. by constructor.
  - unfold waiting. rewrite Hi. destruct (intent_of t i) as [x|]; [|done]. cbn.
    destruct (expired_intent now x) eqn:He; [|done]. unfold expired_intent in He. to_prop. by rewrite H0.
Qed.

Lemma exec_intent_step op t :
  keyed_intents t →
  exec (intent_step companyId op) t (λ o t', intent_moves op t o t') (λ _ t', intent_moves op t None t').
Proof using.
  intros Hk. destruct op as [r|D locked|claim result|]; cbn [intent_step].
  - exec_step. apply exec_insert_row; [|intros; by apply intent_moves_same]. intros Hc. apply exec_ret.
    by apply add_moves.
  - exec_step. eapply exec_weaken; [apply exec_claim_intent| |intros e t' ->; by apply intent_moves_same].
    intros [claim|] t' Hp; apply exec_ret; [by eapply claim_moves|subst; by apply intent_moves_same].
  - exec_step. exec_step. exec_step. eapply exec_weaken; [by apply exec_complete| |by intros e t' [-> _]; apply intent_moves_same].
    cbv beta. intros _ t' Hp. apply exec_ret.
    change (rows outbound_message_intents t) with (t_intents t).
    destruct (first (fenced_intent claim) (t_intents t)) as [r|] eqn:Hr.
    + assert (Hm := completed_moves claim result r t t' Hr Hp). destruct result as [|[]]; exact Hm.
    + subst. assert (Hm := intent_moves_same (Complete claim result) t t eq_refl). exact Hm.
  - unfold recoverExpiredLeases. do 6 exec_step.
    apply exec_update; [|intros; by apply intent_moves_same].
    intros _. do 2 apply exec_ret. apply recover_moves.
Qed.
End steps.

(** ** Contracts *)

(** The events of one intent: handed over while it waits, and returned while it does not. *)
Fixpoint alternates (waits : bool) (l : list intent_event) : Prop :=
  match l with
  | [] => True
  | Handed _ :: l => waits = true ∧ alternates false l
  | Returned _ :: l => waits = false ∧ alternates true l
  end.

Definition events_of (i : string) (log : list intent_event) : list intent_event :=
  keep (λ e, bool_decide (event_intent e = i)) log.

(** What an actor needs at the moment of the hand-over. *)
Definition may_send (companyId : string) (D : directory) (t : tables) (claim : ClaimedIntent) : Prop :=
  ∃ actor role permissions c,
    claim.(cl_payload).(np_actorUserId) = Some actor ∧ actor ≠ ""
    ∧ member_of companyId D actor = Some (role, permissions) ∧ permissions can_send_messages = true
    ∧ first (λ c, bool_decide (c.(cv_id) = claim.(cl_conversationId))
                  && bool_decide (c.(cv_channel_account_id) = claim.(cl_channelAccountId))) (t_conversations t) = Some c
    ∧ thread_live D (t_connections t) c = true
    ∧ (filled c.(cv_legacy_contact_id) = true →
       ∃ x, first (λ x, is_id x.(ct_id) c.(cv_legacy_contact_id)) (t_contacts t) = Some x ∧ x.(ct_is_blocked) = false)
    ∧ match first (assignment_of_thread claim.(cl_conversationId) c.(cv_legacy_contact_id)) (t_assignments t) with
      | Some a => a.(ca_assigned_to) = actor
      | None => permissions can_view_all_chats = true
      end.

Section contracts.
Context `{Oracle} (companyId : string).

Lemma intent_run_alternates ops s :
  keyed_intents (tb s) →
  keyed_intents (tb (intent_run companyId ops s).2)
  ∧ ∀ i, alternates (waiting (tb s) i) (events_of i (intent_run companyId ops s).1).
Proof.
  revert s. induction ops as [|op ops IH]; intros s Hk; cbn [intent_run]; [done|].
  assert (Hx := exec_run _ s _ _ (exec_intent_step companyId op (tb s) Hk)).
  destruct (intent_step companyId op s) as [r s1].
  set (o := match r with Ok o => o | Throw _ => None end).
  assert (Hm : intent_moves op (tb s) o (tb s1)) by (by destruct r). clear Hx.
  destruct (Hm Hk) as (Hk1 & _ & Ho). specialize (IH s1 Hk1).
  destruct (intent_run companyId ops s1) as [log s2]. cbn [fst snd] in *. destruct IH as [Hk2 Hlog].
  split; [done|]. intros i. specialize (Hlog i).
  replace (match r with Ok (Some e) => e :: log | _ => log end) with (option_list o ++ log)
    by (by destruct r as [[e|]|]).
  destruct o as [e|]; [|by rewrite Ho in Hlog]. destruct Ho as (Hw & Hw' & Hother).
  change (option_list (Some e) ++ log) with (e :: log).
  unfold events_of. rewrite keep_cons. fold (events_of i log).
  case_bool_decide as Hi; [|by rewrite Hother in Hlog by done].
  subst i. rewrite Hw', Hw in Hlog. rewrite Hw. by destruct e.
Qed.

(** C35: An intent is handed to its provider once, and again only after a transient failure
    was reported: in any run of insertions, claims, outcomes of any dispatcher (late and
    repeated ones included) and recoveries of expired leases, the events of every intent
    alternate between being handed over and coming back to wait; so whatever was
    delivered, failed for good or has an unknown outcome is never handed over again. *)
Theorem intent_handed_once ops s i :
  keyed_intents (tb s) → alternates (waiting (tb s) i) (events_of i (intent_run companyId ops s).1).
Proof. intros Hk. by apply intent_run_alternates. Qed.

(** C36: Every operation on intents follows their life: one step from waiting through
    dispatching under a token to waiting again or to a last status, each step only by the
    operation and the outcome that stand for it; the identity, payload and number of
    attempts change in no other way, and the unique indexes keep holding. *)
Theorem intents_follow_life op s :
  keyed_intents (tb s) →
  let t' := tb (intent_step companyId op s).2 in
  keyed_intents t'
  ∧ ∀ i, intent_of t' i = intent_of (tb s) i ∨ intent_life op (intent_of (tb s) i) (intent_of t' i).
Proof.
  intros Hk. assert (Hx := exec_run _ s _ _ (exec_intent_step companyId op (tb s) Hk)).
  destruct (intent_step companyId op s) as [r s1]. cbn [snd].
  destruct r as [o|e]; destruct (Hx Hk) as (Hk1 & Hl & _); by split.
Qed.

Lemma intent_delay a : (0 ≤ a)%Z → (5000 ≤ intent_retry_delay a None ≤ 900000)%Z.
Proof using.
  intros Ha. unfold intent_retry_delay. cbn [default].
  assert (Hp : (2 ^ 0 ≤ 2 ^ Z.min a 8)%Z) by (apply Z.pow_le_mono_r; lia). cbn in Hp. cbn. lia.
Qed.

(** A reported outcome settles its intent once: under the current token the intent gets
    the outcome's status and waits between five seconds and fifteen minutes after a
    transient failure without a delay of the provider's; its message becomes sent, failed
    or stays pending as the outcome says (the browsers are told unless it is to be retried
    or unknown), is edited or deleted only by a confirmed action, and no other row changes.
    Under any other token nothing changes. *)
Theorem completion_spec claim result s :
  keyed_intents (tb s) → keyed_fanout (tb s) →
  let '(res, s') := completeClaim companyId claim result s in
  res = Ok tt
  ∧ match first (fenced_intent claim) (t_intents (tb s)) with
    | None => tb s' = tb s
    | Some r => completed companyId claim result r (tb s) (tb s')
                ∧ ((0 ≤ r.(it_attempts))%Z → (5000 ≤ intent_retry_delay r.(it_attempts) None ≤ 900000)%Z)
    end.
Proof.
  intros Hk Hq. assert (Hx := exec_run _ s _ _ (exec_complete companyId claim result (tb s) Hk)).
  destruct (completeClaim companyId claim result s) as [[[]|e] s']; [|by destruct Hx]. split; [done|].
  destruct (first _ _); [|done]. split; [done|]. apply intent_delay.
Qed.

Lemma exec_authorized D claim t :
  exec (isClaimStillAuthorized companyId D claim) t
    (λ b t', t' = t ∧ (b = true ↔ may_send companyId D t claim)) (λ _ _, False).
Proof.
  unfold isClaimStillAuthorized, intentActorUserId, filled_or_null.
  destruct (np_actorUserId (cl_payload claim)) as [[|ch actor]|] eqn:Ha; cbn [filled];
    [by apply exec_ret; unfold may_send; rewrite ?Ha; naive_solver| |by apply exec_ret; unfold may_send; rewrite ?Ha; naive_solver].
  destruct (member_of companyId D _) as [[role perms]|] eqn:Hm; [|by apply exec_ret; unfold may_send; rewrite ?Ha; naive_solver].
  destruct (perms can_send_messages) eqn:Hs; cbn [negb]; [|by apply exec_ret; unfold may_send; rewrite ?Ha; naive_solver].
  do 4 exec_step. rewrite keep_everything. change (rows conversations t) with (t_conversations t).
  change (rows whatsapp_connections t) with (t_connections t).
  destruct (first _ (t_conversations t)) as [c|] eqn:Hc; [|by apply exec_ret; unfold may_send; rewrite ?Ha; naive_solver].
  destruct (thread_live D _ c) eqn:Hl; cbn [negb]; [|by apply exec_ret; unfold may_send; rewrite ?Ha; naive_solver].
  assert (Hlast : ∀ b : bool,
    (b = true ↔ (filled c.(cv_legacy_contact_id) = true →
       ∃ x, first (λ x, is_id x.(ct_id) c.(cv_legacy_contact_id)) (t_contacts t) = Some x ∧ x.(ct_is_blocked) = false)) →
    exec (if negb b then mret false else
          assignment ← select_first assignments (assignment_of_thread claim.(cl_conversationId) c.(cv_legacy_contact_id));
          mret (match assignment with
                | Some a => bool_decide (a.(ca_assigned_to) = String ch actor)
                | None => perms can_view_all_chats
                end)) t
      (λ b t', t' = t ∧ (b = true ↔ may_send companyId D t claim)) (λ _ _, False)).
  { intros b Hb. unfold may_send. rewrite Ha. destruct b; cbn [negb].
    - exec_step. exec_step. apply exec_ret. change (rows assignments t) with (t_assignments t). split; [done|].
      assert (Hb' := proj1 Hb eq_refl). split.
      + intros Hok. exists (String ch actor), role, perms, c. split_and!; try done.
        destruct (first _ (t_assignments t)); [by to_prop|done].
      + intros (a' & role' & perms' & c' & [= <-] & _ & Hm' & _ & Hc' & _ & _ & Hok). simplify_eq.
        destruct (first _ (t_assignments t)); [by apply bool_decide_eq_true_2|done].
    - apply exec_ret. split; [done|]. split; [done|].
      intros (a' & role' & perms' & c' & [= <-] & _ & _ & _ & Hc' & _ & Hx & _). simplify_eq. by apply Hb in Hx. }
  exec_step. destruct (cv_legacy_contact_id c) as [[|y contactId]|] eqn:Hcid.
  1, 3: apply exec_ret; apply Hlast; naive_solver.
  exec_step. exec_step. apply exec_ret, Hlast. change (rows contacts t) with (t_contacts t).
  rewrite (first_ext _ (λ x, is_id (ct_id x) (Some (String y contactId)))).
  2: { intros x _. unfold is_id. apply bool_decide_ext. split; [by intros ->|by intros [= ->]]. }
  destruct (first _ (t_contacts t)) as [x|]; [|naive_solver]. rewrite negb_true_iff. naive_solver.
Qed.

Definition revoked : ProviderSendResult :=
  SendFailed permanent_failure "authorization_or_resource_state_revoked" None None.

(** No provider is called without authority: when the actor of a claimed intent is not a
    member with the permission to send, or the conversation, its account or its device is
    gone, the contact is blocked, or the thread belongs to somebody else, the turn is the
    same for all adapters, and the intent ends as failed. *)
Theorem provider_needs_authority D D' locked s claim s1 :
  claim_intent companyId D (getChannelSpineWorkspaceAuthority D.(dr_flags)) locked s = (Ok (Some claim), s1) →
  keyed_intents (tb s1) → keyed_fanout (tb s1) → ¬ may_send companyId D' (tb s1) claim →
  (∀ registry registry', dispatch_outbound companyId registry D D' locked s
                         = dispatch_outbound companyId registry' D D' locked s)
  ∧ ∀ registry, wa_writeAuthority (getChannelSpineWorkspaceAuthority D.(dr_flags)) = "neutral" → D.(dr_ready) = true →
      let t' := tb (dispatch_outbound companyId registry D D' locked s).2 in
      match first (fenced_intent claim) (t_intents (tb s1)) with
      | None => t' = tb s1
      | Some r => completed companyId claim revoked r (tb s1) t'
      end.
Proof.
  intros Hclaim Hk Hq Hno. assert (Hx := exec_run _ s1 _ _ (exec_authorized D' claim (tb s1))).
  assert (Hrun : ∀ registry, dispatch_outbound companyId registry D D' locked s
    = let authority := getChannelSpineWorkspaceAuthority D.(dr_flags) in
      if negb (bool_decide (authority.(wa_writeAuthority) = "neutral")) then (Ok 0, s)
      else if negb D.(dr_ready) then (Ok 0, s)
      else (_ ← completeClaim companyId claim revoked; mret 1) (isClaimStillAuthorized companyId D' claim s1).2).
  { intros registry. unfold dispatch_outbound. cbv zeta. destruct (negb _); [done|]. destruct (negb _); [done|].
    cbv [mbind M_bind]. rewrite Hclaim. destruct (isClaimStillAuthorized companyId D' claim s1) as [[b|e] s2]; [|done].
    destruct Hx as [_ Hb]. destruct b; [|done]. destruct Hno. by apply Hb. }
  split; [intros; by rewrite !Hrun|]. intros registry Hn Hr. cbv zeta. rewrite Hrun. cbv zeta.
  rewrite bool_decide_eq_true_2, Hr by done. cbn [negb].
  destruct (isClaimStillAuthorized companyId D' claim s1) as [[b|e] s2]; [|done]. destruct Hx as [Ht _].
  cbn [snd]. assert (Hk2 : keyed_intents (tb s2)) by (unfold keyed_intents; by rewrite Ht).
  assert (Hy := exec_run _ s2 _ _ (exec_complete companyId claim revoked (tb s2) Hk2)).
  cbv [mbind M_bind]. destruct (completeClaim companyId claim revoked s2) as [[[]|e] s3]; [by rewrite Ht in Hy|].
  rewrite Ht in Hy. by destruct Hy.
Qed.
End contracts.
