(* ===== verification/CommandOutbox.v ===== *)
(** The outbox of worker commands and its dispatcher.

    Models services/command-outbox.service.ts.  A dispatcher leases due commands, at
    most one per recipient and none behind an unfinished earlier one; just before it
    hands a command to the broker it renews the lease, whose end is the token that
    the outcome must still match.  The broker is the parameter [publish], the realtime
    broadcasts of a failure are the parameter [announce_failure].  Polling, the list of
    ready workspaces and the health counters are not modelled. *)

From S2P Require Import Prelude Js TenantDb Exec Steady Workflow Media Outbound.

(** ** Rows *)

Definition BATCH_SIZE : nat := 25.
Definition MAX_ATTEMPTS : Z := 10.
Definition CLAIM_LEASE_MS : Z := 30000.

(** [payload->>'to'], the type and the message of a command. *)
Definition payload_to (p : command_payload) : option jsstring :=
  match p with SendMessage c => Some c.(sd_to) | OtherCommand _ to _ => to end.
Definition payload_message_id (p : command_payload) : option string :=
  match p with SendMessage c => Some c.(sd_message_id) | OtherCommand _ _ m => m end.

Definition unfinished (r : command_row) : bool :=
  bool_decide (r.(cm_status) ∈ [command_pending; command_claimed]).

(** The same subject and the same recipient; [NULL] is equal to nothing. *)
Definition same_recipient (a b : command_row) : bool :=
  bool_decide (a.(cm_subject) = b.(cm_subject))
  && match payload_to a.(cm_payload), payload_to b.(cm_payload) with
     | Some x, Some y => bool_decide (x = y)
     | _, _ => false
     end.

(** [(a.created_at, a.id) < (b.created_at, b.id)] *)
Definition accepted_before (a b : command_row) : bool :=
  (a.(cm_created_at) <? b.(cm_created_at))%Z
  || ((a.(cm_created_at) =? b.(cm_created_at))%Z && String.ltb a.(cm_id) b.(cm_id)).

(** No unfinished earlier command of the recipient. *)
Definition at_head (l : list command_row) (r : command_row) : bool :=
  negb (existsb (λ earlier, same_recipient earlier r && unfinished earlier && accepted_before earlier r) l).

Definition oldest_first (a b : command_row) : Prop := (a.(cm_created_at) ≤ b.(cm_created_at))%Z.
#[export] Instance oldest_first_dec : RelDecision oldest_first.
Proof. intros a b. unfold oldest_first. apply _. Defined.

(** The columns that statements write. *)
Definition cm_update (r : command_row) (status : command_status) (attempts next_attempt_at : Z)
    (last_error : option jsstring) (published_at : option Z) : command_row :=
  mkCommand r.(cm_id) r.(cm_subject) r.(cm_payload) status attempts next_attempt_at last_error
    r.(cm_created_at) published_at.

Definition lease_command (claimUntil : Z) (r : command_row) : command_row :=
  cm_update r command_claimed r.(cm_attempts) claimUntil r.(cm_last_error) r.(cm_published_at).

(** [WHERE id AND status = 'claimed' AND next_attempt_at = claimUntil] *)
Definition leased (id : string) (claimUntil : Z) (r : command_row) : bool :=
  bool_decide (r.(cm_id) = id) && bool_decide (r.(cm_status) = command_claimed)
  && (r.(cm_next_attempt_at) =? claimUntil)%Z.

(** [date_trunc('milliseconds', statement_timestamp() + CLAIM_LEASE_MS)] *)
Definition next_lease (now : Z) : Z := ((now + CLAIM_LEASE_MS * 1000) / 1000 * 1000)%Z.

Definition getOutboxRetryDelayMs (attempts : Z) : Z := Z.min 60000 (1000 * 2 ^ Z.min attempts 6).

Section outbox.
Context `{Oracle}.
Context (publish : string → command_payload → string → M unit).
Context (announce_failure : string → command_payload → M unit).
(** The message of an error of the broker or of the database. *)
Context (failure_message : err → jsstring).

(** The claim of a batch: the rows with their leases; [locked] are the rows that other
    transactions hold, which SKIP LOCKED passes over. *)
Definition claim_commands (locked : command_row → bool) : M (list (command_row * Z)) :=
  transaction (
    databaseNow ← statement_timestamp;
    all ← select command_outbox (λ _, true);
    l ← select command_outbox (λ r,
      unfinished r && (r.(cm_next_attempt_at) <=? databaseNow)%Z && at_head all r && negb (locked r));
    let claimed := take BATCH_SIZE (merge_sort oldest_first l) in
    match claimed with
    | [] => mret []
    | _ =>
        now ← statement_timestamp;
        leases ← update_returning command_outbox
          (λ r, bool_decide (r.(cm_id) ∈ (cm_id <$> claimed))) (lease_command (next_lease now));
        mret (omap (λ row,
          lease ← first (λ x, bool_decide (x.(cm_id) = row.(cm_id))) leases;
          Some (row, lease.(cm_next_attempt_at))) claimed)
    end).

(** The renewal right before the network call: the new lease, if the old one is current. *)
Definition refresh_claim (row : command_row) (claimUntil : Z) : M (option Z) :=
  now ← statement_timestamp;
  l ← update_returning command_outbox (leased row.(cm_id) claimUntil) (lease_command (next_lease now));
  mret (cm_next_attempt_at <$> head l).

Definition record_published (row : command_row) (claimUntil : Z) : M unit :=
  published_at ← toDbDate;
  _ ← update command_outbox (leased row.(cm_id) claimUntil)
        (λ r, cm_update r command_published (row.(cm_attempts) + 1) r.(cm_next_attempt_at) None
                (Some published_at));
  mret tt.

Definition with_status (status : string) (r : message_row) : message_row :=
  mkMessage r.(ms_id) r.(ms_whatsapp_connection_id) r.(ms_contact_id) r.(ms_conversation_id)
    r.(ms_message_id) r.(ms_external_message_id) r.(ms_from_me) r.(ms_sender_jid) r.(ms_message_type)
    r.(ms_content) r.(ms_media_url) r.(ms_media_mime_type) r.(ms_file_name) r.(ms_quoted_message_id)
    r.(ms_sent_by_user_id) status r.(ms_timestamp) r.(ms_created_at) r.(ms_case_id) r.(ms_seq)
    r.(ms_channel_account_id) r.(ms_client_idempotency_key) r.(ms_reply_to_message_id)
    r.(ms_external_identity_scope) r.(ms_deleted_by_sender) r.(ms_deleted_at)
    r.(ms_neutral).

Definition record_failure (row : command_row) (claimUntil : Z) (error : err) : M unit :=
  let attempts := (row.(cm_attempts) + 1)%Z in
  let exhausted := (MAX_ATTEMPTS <=? attempts)%Z in
  now ← statement_timestamp;
  updated ← update command_outbox (leased row.(cm_id) claimUntil)
    (λ r, cm_update r (if exhausted then command_failed else command_pending) attempts
            (now + getOutboxRetryDelayMs attempts * 1000) (Some (take 2000 (failure_message error)))
            r.(cm_published_at));
  when (exhausted && (0 <? updated)%nat)
    (_ ← match payload_message_id row.(cm_payload) with
         | Some (String _ _ as pendingMessageId) =>
             _ ← update messages (λ m, is_id pendingMessageId m.(ms_message_id)
                                       && bool_decide (m.(ms_status) = "pending")) (with_status "failed");
             mret tt
         | _ => mret tt
         end;
     announce_failure row.(cm_id) row.(cm_payload)).

(** One row of a batch.  An accepted command whose outcome cannot be stored stays leased. *)
Definition dispatch_command (row : command_row) (claimUntil : Z) : M unit :=
  lease ← refresh_claim row claimUntil;
  match lease with
  | None => mret tt
  | Some claimUntil =>
      publishFailure ← catch (_ ← publish row.(cm_subject) row.(cm_payload) row.(cm_id); mret None)
                             (λ e, mret (Some e));
      match publishFailure with
      | None => catch (record_published row claimUntil) (λ _, mret tt)
      | Some error => record_failure row claimUntil error
      end
  end.

Definition dispatchCompany (locked : command_row → bool) : M nat :=
  rows ← claim_commands locked;
  _ ← mapM (λ '(row, claimUntil), dispatch_command row claimUntil) rows;
  mret (length rows).
End outbox.

(** ** The system *)

(** The steps that dispatchers and services take; [Renew] begins a publication. *)
Inductive outbox_op :=
| Accept (subject : string) (payload : command_payload)
| Claim (locked : command_row → bool)
| Renew (row : command_row) (claimUntil : Z)
| Published (row : command_row) (claimUntil : Z)
| Failed (row : command_row) (claimUntil : Z) (error : err).

Section system.
Context `{Oracle} (announce_failure : string → command_payload → M unit) (failure_message : err → jsstring).

(** One step; the result names the command whose publication begins. *)
Definition outbox_step (op : outbox_op) : M (option string) :=
  match op with
  | Accept subject payload => _ ← enqueueCommand subject payload; mret None
  | Claim locked => _ ← claim_commands locked; mret None
  | Renew row claimUntil => lease ← refresh_claim row claimUntil;
                            mret ((λ _, row.(cm_id)) <$> lease)
  | Published row claimUntil => _ ← record_published row claimUntil; mret None
  | Failed row claimUntil error =>
      _ ← record_failure announce_failure failure_message row claimUntil error; mret None
  end.

(** The publications that begin, in order, each with the table's row at that moment. *)
Fixpoint outbox_run (ops : list outbox_op) (s : db) : list command_row * db :=
  match ops with
  | [] => ([], s)
  | op :: ops =>
      let '(r, s1) := outbox_step op s in
      let '(log, s2) := outbox_run ops s1 in
      (match r with
       | Ok (Some i) => option_list (first (λ x, bool_decide (x.(cm_id) = i)) (t_commands (tb s1))) ++ log
       | _ => log
       end, s2)
  end.
End system.
