(* ===== verification/Readiness.v ===== *)
(** The ready list of workspaces.

    Models services/outbox-dispatch.service.ts, the trigger of migration 084 and the
    loop of services/command-outbox.service.ts that takes workspaces from the list.
    Every statement is one function of the shared tables; [now] is its
    [statement_timestamp()].  The dispatchers run as processes whose steps
    interleave; a statement may carry a timestamp older than the clock, because it may
    have waited for a lock.  Times are in microseconds. *)

From S2P Require Import Prelude Js PublicRows TenantDb CommandOutbox.

(** ** Tables *)

(** A row of public.outbox_dispatch_ready. *)
Record ready_row := mkReady {
  rd_generation : Z; rd_due_at : option Z;
  rd_claim_token : option string; rd_claimed_until : option Z }.

(** The row of public.outbox_dispatch_recovery. *)
Record recovery_row := mkRecovery { rc_cursor : option string; rc_next_run_at : Z }.

(** The public tables, and every company's nats_outbox. *)
Record shared := mkShared {
  companies : gmap string company_status;
  outboxes : gmap string (list command_row);
  ready : gmap string ready_row;
  recovery : recovery_row }.

Definition with_ready (r : gmap string ready_row) (s : shared) : shared :=
  mkShared s.(companies) s.(outboxes) r s.(recovery).

Definition is_active_company (s : shared) (c : string) : bool :=
  bool_decide (s.(companies) !! c = Some company_active).
Definition outbox (s : shared) (c : string) : list command_row := default [] (s.(outboxes) !! c).

(** ** SQL on nullable times *)

(** [LEAST] and [min] ignore nulls. *)
Definition least (a b : option Z) : option Z :=
  match a, b with
  | Some x, Some y => Some (Z.min x y)
  | Some x, None => Some x
  | None, _ => b
  end.
Definition sql_min (l : list Z) : option Z := foldr (λ x m, least (Some x) m) None l.

(** A JavaScript date made of a timestamp keeps its milliseconds. *)
Definition to_js_date (t : Z) : Z := (t / 1000 * 1000)%Z.

Definition minutes_us (n : Z) : Z := (n * 60000000)%Z.
Definition seconds_us (n : Z) : Z := (n * 1000000)%Z.

(** ** The trigger *)

Inductive row_change := RowInserted (new : command_row) | RowUpdated | RowDeleted (old : command_row).

Definition mark_outbox_dispatch_ready (now : Z) (tenant_id : string) (r : gmap string ready_row)
    (op : row_change) : gmap string ready_row :=
  let upsert :=
    match r !! tenant_id with
    | None => <[tenant_id := mkReady 1 (Some now) None None]> r
    | Some x => <[tenant_id := mkReady (x.(rd_generation) + 1) (least x.(rd_due_at) (Some now))
                                       x.(rd_claim_token) x.(rd_claimed_until)]> r
    end in
  match op with
  | RowDeleted old => if unfinished old then upsert else r
  | RowInserted new => if unfinished new then upsert else r
  | RowUpdated => upsert
  end.

(** The statements that write a company's outbox. *)
Inductive outbox_write :=
| InsertRow (new : command_row)
| UpdateRows (p : command_row → bool) (f : command_row → command_row)
| DeleteRows (p : command_row → bool).

Definition written (w : outbox_write) (l : list command_row) : list command_row :=
  match w with
  | InsertRow new => l ++ [new]
  | UpdateRows p f => update_where p f l
  | DeleteRows p => keep (λ r, negb (p r)) l
  end.
Definition changes (w : outbox_write) (l : list command_row) : list row_change :=
  match w with
  | InsertRow new => [RowInserted new]
  | UpdateRows p _ => (λ _, RowUpdated) <$> keep p l
  | DeleteRows p => RowDeleted <$> keep p l
  end.

(** A write with the trigger, which fires once per row. *)
Definition write_outbox (now : Z) (c : string) (w : outbox_write) (s : shared) : shared :=
  mkShared s.(companies) (<[c := written w (outbox s c)]> s.(outboxes))
    (foldl (mark_outbox_dispatch_ready now c) s.(ready) (changes w (outbox s c))) s.(recovery).

(** ** Claiming and settling a workspace *)

Record Claim := mkClaim { company_id : string; claim_token : string }.

Definition claimable (now : Z) (s : shared) (c : string) (r : ready_row) : bool :=
  is_active_company s c
  && match r.(rd_due_at) with Some d => (d <=? now)%Z | None => false end
  && match r.(rd_claimed_until) with Some u => (u <=? now)%Z | None => true end.

(** [ORDER BY due_at, company_id] *)
Definition due_before (a b : string * ready_row) : Prop :=
  let x := default 0%Z a.2.(rd_due_at) in
  let y := default 0%Z b.2.(rd_due_at) in
  (x < y)%Z ∨ (x = y ∧ String.le a.1 b.1).
#[export] Instance due_before_dec : RelDecision due_before.
Proof. intros a b. unfold due_before. apply _. Defined.

(** [locked] are the rows that other transactions hold. *)
Definition candidates (locked : string → bool) (now : Z) (s : shared) : list (string * ready_row) :=
  keep (λ x, claimable now s x.1 x.2 && negb (locked x.1)) (map_to_list s.(ready)).

Definition claimReadyWorkspace (locked : string → bool) (token : string) (now : Z) (s : shared)
    : option Claim * shared :=
  match head (merge_sort due_before (candidates locked now s)) with
  | None => (None, s)
  | Some (c, r) =>
      (Some (mkClaim c token),
       with_ready (<[c := mkReady r.(rd_generation) r.(rd_due_at) (Some token)
                                  (Some (now + minutes_us 2)%Z)]> s.(ready)) s)
  end.

(** The row of a claim, while its token is current. *)
Definition claimed_row (claim : Claim) (s : shared) : option ready_row :=
  r ← s.(ready) !! claim.(company_id);
  if bool_decide (r.(rd_claim_token) = Some claim.(claim_token)) then Some r else None.

(** The three statements of finishWorkspaceDispatch: the generation, the remaining work,
    and the settlement. *)
Definition read_generation (claim : Claim) (s : shared) : option Z :=
  rd_generation <$> claimed_row claim s.

Definition remaining_due (c : string) (s : shared) : option Z :=
  to_js_date <$> sql_min (cm_next_attempt_at <$> keep unfinished (outbox s c)).

Definition settleWorkspaceDispatch (claim : Claim) (generation : Z) (due : option Z) (now : Z)
    (s : shared) : shared :=
  match claimed_row claim s with
  | None => s
  | Some r =>
      let due_at := if (r.(rd_generation) =? generation)%Z then Z.max now <$> due else Some now in
      with_ready (<[claim.(company_id) := mkReady r.(rd_generation) due_at None None]> s.(ready)) s
  end.

Definition finishWorkspaceDispatch (claim : Claim) (now : Z) (s : shared) : shared :=
  match read_generation claim s with
  | None => s
  | Some generation =>
      settleWorkspaceDispatch claim generation (remaining_due claim.(company_id) s) now s
  end.

Definition releaseWorkspaceDispatch (claim : Claim) (now : Z) (s : shared) : shared :=
  match claimed_row claim s with
  | None => s
  | Some r =>
      with_ready (<[claim.(company_id) := mkReady r.(rd_generation) (Some (now + seconds_us 5)%Z) None None]>
                    s.(ready)) s
  end.

(** ** The recovery scan *)

Definition RECOVERY_PAGE : nat := 10.

Definition after_cursor (cursor : option string) (c : string) : bool :=
  match cursor with None => true | Some x => String.ltb x c end.

(** The active companies after the cursor, in the order of their ids. *)
Definition recovery_page (s : shared) : list string :=
  take RECOVERY_PAGE (merge_sort String.le
    (keep (λ c, is_active_company s c && after_cursor s.(recovery).(rc_cursor) c)
          (map_to_list s.(companies)).*1)).

Definition recover_company (s : shared) (r : gmap string ready_row) (c : string) : gmap string ready_row :=
  match sql_min (cm_next_attempt_at <$> keep unfinished (outbox s c)) with
  | None => r
  | Some due =>
      match r !! c with
      | None => <[c := mkReady 0 (Some due) None None]> r
      | Some x => <[c := mkReady (x.(rd_generation) + 1) (least x.(rd_due_at) (Some due))
                                 x.(rd_claim_token) x.(rd_claimed_until)]> r
      end
  end.

(** [skipped]: another replica holds the recovery row; [later]: the timestamp of the last
    statement of the transaction. *)
Definition recoverOutboxDispatch (skipped : bool) (now later : Z) (s : shared) : shared :=
  if skipped || negb (s.(recovery).(rc_next_run_at) <=? now)%Z then s
  else
    let page := recovery_page s in
    let visited := foldl (recover_company s) s.(ready) page in
    mkShared s.(companies) s.(outboxes)
      (filter (λ x, is_active_company s x.1 = true) visited)
      (mkRecovery (if bool_decide (length page = RECOVERY_PAGE) then last page else None)
                  (later + minutes_us 1)).

(** ** The dispatcher's turns *)

Section pending_commands.
(** The timestamps of the statements and the drawn tokens of a turn; the rows that other
    transactions hold; what dispatchCompany does to the tables, with the number of its
    commands or [None] when it throws. *)
Context (stamp : nat → nat → Z) (uuid : nat → string) (locked : nat → string → bool).
Context (dispatch : nat → string → shared → option nat * shared).

Definition MAX_TURNS : nat := 4.

(** The turns that are left, from turn [n] on. *)
Fixpoint dispatch_turns (remaining n processed : nat) (s : shared) : nat * shared :=
  match remaining with
  | 0 => (processed, s)
  | S remaining =>
      match claimReadyWorkspace (locked n) (uuid n) (stamp n 0) s with
      | (None, s) => (processed, s)
      | (Some claim, s) =>
          match dispatch n claim.(company_id) s with
          | (Some k, s) =>
              dispatch_turns remaining (S n) (processed + k) (finishWorkspaceDispatch claim (stamp n 1) s)
          | (None, s) =>
              dispatch_turns remaining (S n) processed (releaseWorkspaceDispatch claim (stamp n 1) s)
          end
      end
  end.

(** [recovered]: whether the recovery scan ran without an error, which only delays it. *)
Definition dispatchPendingCommands (skipped recovered : bool) (now later : Z) (s : shared) : nat * shared :=
  dispatch_turns MAX_TURNS 0 0 (if recovered then recoverOutboxDispatch skipped now later s else s).
End pending_commands.

(** ** The system *)

(** A dispatcher that holds a claim: it is dispatching, has read the generation, or has
    measured the remaining work. *)
Inductive turn :=
| Dispatching (claim : Claim)
| Measuring (claim : Claim) (generation : Z)
| Settling (claim : Claim) (generation : Z) (due : option Z).

Definition claim_of_turn (t : turn) : Claim :=
  match t with Dispatching c | Measuring c _ | Settling c _ _ => c end.

(** The next statement of finishWorkspaceDispatch. *)
Definition finish_step (t : turn) (now : Z) (s : shared) : option turn * shared :=
  match t with
  | Dispatching claim => (Measuring claim <$> read_generation claim s, s)
  | Measuring claim generation =>
      (Some (Settling claim generation (remaining_due claim.(company_id) s)), s)
  | Settling claim generation due => (None, settleWorkspaceDispatch claim generation due now s)
  end.

Record system := mkSystem { sh : shared; turns : gmap nat turn; clock : Z }.

(** [gen_random_uuid()] draws a token that no dispatcher holds. *)
Definition fresh_token (token : string) (ts : gmap nat turn) : Prop :=
  ∀ p t, ts !! p = Some t → (claim_of_turn t).(claim_token) ≠ token.

Inductive step : system → system → Prop :=
| step_tick s ts k k' : (k ≤ k')%Z → step (mkSystem s ts k) (mkSystem s ts k')
| step_write c w now s ts k : (now ≤ k)%Z →
    step (mkSystem s ts k) (mkSystem (write_outbox now c w s) ts k)
| step_company c status s ts k :
    step (mkSystem s ts k)
         (mkSystem (mkShared (<[c := status]> s.(companies)) s.(outboxes) s.(ready) s.(recovery)) ts k)
| step_claim p locked token now s ts k claim s' : (now ≤ k)%Z →
    ts !! p = None → fresh_token token ts →
    claimReadyWorkspace locked token now s = (Some claim, s') →
    step (mkSystem s ts k) (mkSystem s' (<[p := Dispatching claim]> ts) k)
| step_finish p t now s ts k t' s' : (now ≤ k)%Z →
    ts !! p = Some t → finish_step t now s = (t', s') →
    step (mkSystem s ts k) (mkSystem s' (partial_alter (λ _, t') p ts) k)
| step_release p t now s ts k : (now ≤ k)%Z →
    ts !! p = Some t →
    step (mkSystem s ts k) (mkSystem (releaseWorkspaceDispatch (claim_of_turn t) now s) (delete p ts) k)
| step_crash p s ts k : step (mkSystem s ts k) (mkSystem s (delete p ts) k)
| step_recover skipped now later s ts k : (now ≤ k)%Z → (later ≤ k)%Z →
    step (mkSystem s ts k) (mkSystem (recoverOutboxDispatch skipped now later s) ts k).

(** A run during which the company is active. *)
Definition active_step (c : string) (s s' : system) : Prop :=
  is_active_company s.(sh) c = true ∧ step s s'.
