(* ===== verification/ReadinessSpec.v ===== *)
(** Contracts of the ready list: no command is forgotten, what a claim takes, and how
    soon the recovery scan returns to a company. *)

From S2P Require Import Prelude Js PublicRows TenantDb CommandOutbox Readiness.

(** ** The trigger *)

(** The row changes on which the trigger writes. *)
Definition fires (op : row_change) : bool :=
  match op with
  | RowInserted new => unfinished new
  | RowUpdated => true
  | RowDeleted old => unfinished old
  end.

(** One or more marks at [now]: the generation has moved, the claim has not, and the
    workspace is due. *)
Definition marked (now : Z) (x : option ready_row) (y : ready_row) : Prop :=
  (∃ d, y.(rd_due_at) = Some d ∧ (d ≤ now)%Z)
  ∧ y.(rd_claim_token) = (x ← x; x.(rd_claim_token))
  ∧ y.(rd_claimed_until) = (x ← x; x.(rd_claimed_until))
  ∧ ∀ z, x = Some z → (z.(rd_generation) < y.(rd_generation))%Z.

Lemma marked_trans now x y z : marked now x y → marked now (Some y) z → marked now x z.
Proof.
  intros (_ & Ht & Hu & Hg) (Hd & Ht' & Hu' & Hg'). cbn in *. split_and!; [done|congruence..|].
  intros w Hw. specialize (Hg w Hw). specialize (Hg' y eq_refl). lia.
Qed.

Lemma mark_spec now c r op :
  mark_outbox_dispatch_ready now c r op
  = if fires op then <[c := default (mkReady 1 (Some now) None None)
       ((λ x, mkReady (x.(rd_generation) + 1) (least x.(rd_due_at) (Some now))
                      x.(rd_claim_token) x.(rd_claimed_until)) <$> r !! c)]> r else r.
Proof. destruct op; cbn; try case_match; try done; by destruct (r !! c). Qed.

Lemma marks_spec now c ops r :
  let r' := foldl (mark_outbox_dispatch_ready now c) r ops in
  (∀ c', c' ≠ c → r' !! c' = r !! c')
  ∧ if existsb fires ops then ∃ y, r' !! c = Some y ∧ marked now (r !! c) y else r' = r.
Proof.
  cbv zeta. revert r. induction ops as [|op ops IH]; intros r; cbn; [done|].
  destruct (IH (mark_outbox_dispatch_ready now c r op)) as [Ho Hc]. rewrite mark_spec in *.
  destruct (fires op); cbn; [|by split]. split.
  - intros c' Hne. rewrite Ho by done. by rewrite lookup_insert_ne by done.
  - set (y := default _ _) in *. assert (Hy : marked now (r !! c) y).
    { subst y. destruct (r !! c) as [x|]; cbn; split_and!; cbn; try done.
      - destruct (rd_due_at x) as [d|]; cbn; eexists; split; try done; lia.
      - intros z [= <-]. cbn. lia.
      - exists now. split; [done|lia]. }
    rewrite lookup_insert_eq in Hc. destruct (existsb fires ops).
    + destruct Hc as (z & Hz & Hm). exists z. split; [done|]. by eapply marked_trans.
    + rewrite Hc. exists y. by rewrite lookup_insert_eq.
Qed.

(** A write on which the trigger keeps silent leaves the unfinished commands alone. *)
Lemma keep_none {A} (p q : A → bool) l :
  existsb q (keep p l) = false → keep q (keep (λ r, negb (p r)) l) = keep q l.
Proof.
  induction l as [|x l IH]; [done|]. rewrite !keep_cons. destruct (p x); cbn.
  - intros [Hq Hl]%orb_false_iff. rewrite Hq. by apply IH.
  - intros Hl. rewrite keep_cons. by rewrite IH.
Qed.

Lemma silent_write w l : existsb fires (changes w l) = false → keep unfinished (written w l) = keep unfinished l.
Proof.
  destruct w as [new|p f|p]; cbn [changes written].
  - cbn. rewrite orb_false_r. intros Hn. rewrite keep_app, keep_cons, Hn. cbn. by rewrite app_nil_r.
  - destruct (keep p l) as [|x k] eqn:Hk; [|done]. intros _. f_equal.
    unfold update_where. rewrite <- (list_fmap_id l) at 2. apply list_fmap_ext. intros i x Hx.
    destruct (p x) eqn:Hp; [|done]. assert (Hin : x ∈ keep p l) by (apply elem_of_keep; eauto using list_elem_of_lookup_2).
    rewrite Hk in Hin. by apply not_elem_of_nil in Hin.
  - intros Hf. apply keep_none. revert Hf. induction (keep p l) as [|x k IH]; cbn; [done|].
    intros [-> Hk]%orb_false_iff. by apply IH.
Qed.

(** An unfinished command after a write was there before, or the trigger fired. *)
Lemma write_outbox_spec now c w s :
  let s' := write_outbox now c w s in
  (∀ c', c' ≠ c → s'.(ready) !! c' = s.(ready) !! c' ∧ outbox s' c' = outbox s c')
  ∧ ((∃ y, s'.(ready) !! c = Some y ∧ marked now (s.(ready) !! c) y)
     ∨ (s'.(ready) = s.(ready) ∧ keep unfinished (outbox s' c) = keep unfinished (outbox s c))).
Proof.
  cbv zeta. destruct (marks_spec now c (changes w (outbox s c)) s.(ready)) as [Ho Hc].
  split.
  - intros c' Hne. split; [by apply Ho|]. unfold outbox. cbn. by rewrite lookup_insert_ne by done.
  - destruct (existsb fires (changes w (outbox s c))) eqn:Hf; [by left|right].
    split; [done|]. unfold outbox at 1. cbn. rewrite lookup_insert_eq. cbn. by apply silent_write.
Qed.

(** ** Claims that are settled later *)

(** What a dispatcher knows of the row that it claimed. *)
Definition knows (s : shared) (t : turn) : Prop :=
  match t with
  | Dispatching _ => True
  | Measuring claim g => ∀ r, claimed_row claim s = Some r → (g ≤ r.(rd_generation))%Z
  | Settling claim g due => ∀ r, claimed_row claim s = Some r →
      (g ≤ r.(rd_generation))%Z ∧ (r.(rd_generation) = g → due = remaining_due claim.(company_id) s)
  end.

(** The row of a claim after a statement is the row before it, and an unchanged
    generation means unchanged work. *)
Definition keeps_claim (s s' : shared) (claim : Claim) : Prop :=
  ∀ r', claimed_row claim s' = Some r' →
    ∃ r, claimed_row claim s = Some r ∧ (r.(rd_generation) ≤ r'.(rd_generation))%Z
      ∧ (r.(rd_generation) = r'.(rd_generation) →
         remaining_due claim.(company_id) s' = remaining_due claim.(company_id) s).

Lemma knows_keeps s s' t : keeps_claim s s' (claim_of_turn t) → knows s t → knows s' t.
Proof.
  destruct t as [claim|claim g|claim g due]; cbn; [done|..]; intros Hk Hs r' Hr';
    destruct (Hk r' Hr') as (r & Hr & Hle & Heq); specialize (Hs r Hr).
  - lia.
  - destruct Hs as [Hg Hd]. split; [lia|]. intros <-. rewrite Hd, Heq by lia. done.
Qed.

Lemma claimed_row_spec claim s r :
  claimed_row claim s = Some r
  ↔ s.(ready) !! claim.(company_id) = Some r ∧ r.(rd_claim_token) = Some claim.(claim_token).
Proof.
  unfold claimed_row. destruct (ready s !! company_id claim) as [x|]; cbn; [|naive_solver].
  case_bool_decide; naive_solver.
Qed.

Lemma remaining_due_ext c s s' :
  keep unfinished (outbox s' c) = keep unfinished (outbox s c) → remaining_due c s' = remaining_due c s.
Proof. unfold remaining_due. by intros ->. Qed.

Lemma write_keeps_claim now c w s claim : keeps_claim s (write_outbox now c w s) claim.
Proof.
  destruct (write_outbox_spec now c w s) as [Ho Hc]. intros r' [Hr Ht]%claimed_row_spec.
  destruct (decide (company_id claim = c)) as [<-|Hne].
  - destruct Hc as [(y & Hy & _ & Hty & _ & Hg)|[Hrd Hk]].
    + rewrite Hy in Hr. simplify_eq. rewrite Ht in Hty.
      destruct (ready s !! company_id claim) as [x|] eqn:Hx; cbn in Hty; [|done].
      exists x. split; [by apply claimed_row_spec|]. specialize (Hg x eq_refl). split; [lia|]. intros. lia.
    + rewrite Hrd in Hr. exists r'. split; [by apply claimed_row_spec|]. split; [lia|]. intros _.
      by apply remaining_due_ext.
  - destruct (Ho _ Hne) as [Hrd Hob]. rewrite Hrd in Hr. exists r'.
    split; [by apply claimed_row_spec|]. split; [lia|]. intros _. apply remaining_due_ext. by rewrite Hob.
Qed.

(** A statement that only touches the row of [c], and leaves it under no token of the claim. *)
Lemma insert_keeps_claim c x s claim :
  x.(rd_claim_token) ≠ Some claim.(claim_token) →
  keeps_claim s (with_ready (<[c := x]> s.(ready)) s) claim.
Proof.
  intros Hx r' [Hr Ht]%claimed_row_spec. cbn in Hr.
  destruct (decide (company_id claim = c)) as [<-|Hne].
  - rewrite lookup_insert_eq in Hr. by simplify_eq.
  - rewrite lookup_insert_ne in Hr by done. exists r'. by rewrite claimed_row_spec.
Qed.

Lemma keeps_claim_refl s claim : keeps_claim s s claim.
Proof. intros r Hr. by exists r. Qed.

Lemma settle_keeps_claim c g due now s claim : keeps_claim s (settleWorkspaceDispatch c g due now s) claim.
Proof.
  unfold settleWorkspaceDispatch. destruct (claimed_row c s); [|apply keeps_claim_refl].
  by apply insert_keeps_claim.
Qed.

Lemma release_keeps_claim c now s claim : keeps_claim s (releaseWorkspaceDispatch c now s) claim.
Proof.
  unfold releaseWorkspaceDispatch. destruct (claimed_row c s); [|apply keeps_claim_refl].
  by apply insert_keeps_claim.
Qed.

(** ** The recovery scan *)

(** What a visit does to the row of a company with unfinished work due at [due]. *)
Definition visited (due : Z) (x : option ready_row) (y : ready_row) : Prop :=
  (∃ d, y.(rd_due_at) = Some d ∧ (d ≤ due)%Z)
  ∧ match x with
    | None => y.(rd_claim_token) = None ∧ y.(rd_claimed_until) = None
    | Some x => (x.(rd_generation) < y.(rd_generation))%Z ∧ y.(rd_claim_token) = x.(rd_claim_token)
                ∧ y.(rd_claimed_until) = x.(rd_claimed_until)
                ∧ (∀ d, x.(rd_due_at) = Some d → ∃ d', y.(rd_due_at) = Some d' ∧ (d' ≤ d)%Z)
    end.

Definition first_due (c : string) (s : shared) : option Z :=
  sql_min (cm_next_attempt_at <$> keep unfinished (outbox s c)).

Lemma recover_company_same s r c :
  match first_due c s with
  | None => recover_company s r c = r
  | Some due => ∃ y, recover_company s r c = <[c := y]> r ∧ visited due (r !! c) y
  end.
Proof.
  unfold recover_company. fold (first_due c s). destruct (first_due c s) as [due|]; [|done].
  destruct (r !! c) as [x|] eqn:Hx; eexists; (split; [reflexivity|]); unfold visited; cbn.
  - destruct (rd_due_at x) as [d|]; cbn.
    + split_and!; try done; [eexists; split; [done|lia]|lia|]. intros d' [= <-]. eexists; split; [done|lia].
    + split_and!; try done; [eexists; split; [done|lia]|lia].
  - split; [|done]. eexists. split; [done|lia].
Qed.

Lemma visited_trans due x y z : visited due x y → visited due (Some y) z → visited due x z.
Proof.
  unfold visited. intros [(d & Hd & Hle) Hx] [Hz (Hg & Ht & Hu & Hdue)]. split; [done|].
  destruct x as [x|]; [|destruct Hx; split; congruence].
  destruct Hx as (Hg' & Ht' & Hu' & Hdue'). split_and!; [lia|congruence|congruence|].
  intros e He. destruct (Hdue' e He) as (e' & He' & Hle'). destruct (Hdue e' He') as (e2 & He2 & Hle2).
  exists e2. split; [done|lia].
Qed.

Lemma recovers_spec s l r c :
  let r' := foldl (recover_company s) r l in
  match first_due c s with
  | Some due => if bool_decide (c ∈ l) then ∃ y, r' !! c = Some y ∧ visited due (r !! c) y else r' !! c = r !! c
  | None => r' !! c = r !! c
  end.
Proof.
  cbv zeta. revert r. induction l as [|x l IH]; intros r; cbn [foldl].
  { by destruct (first_due c s). }
  specialize (IH (recover_company s r x)). assert (Hx := recover_company_same s r x).
  destruct (decide (x = c)) as [->|Hne].
  - destruct (first_due c s) as [due|]; [|by rewrite Hx in *].
    destruct Hx as (y & Hy & Hv). rewrite bool_decide_eq_true_2 by left.
    rewrite Hy, lookup_insert_eq in IH. rewrite Hy.
    case_bool_decide; [|by exists y]. destruct IH as (z & Hz & Hvz). exists z. split; [done|].
    by eapply visited_trans.
  - assert (Hsame : recover_company s r x !! c = r !! c).
    { destruct (first_due x s); [|by rewrite Hx]. destruct Hx as (y & -> & _). by rewrite lookup_insert_ne. }
    rewrite Hsame in IH. destruct (first_due c s) as [due|]; [|done].
    rewrite (bool_decide_ext _ (c ∈ l)); [done|]. rewrite elem_of_cons. naive_solver.
Qed.

Lemma recover_row skipped now later s c :
  let s' := recoverOutboxDispatch skipped now later s in
  s'.(companies) = s.(companies) ∧ s'.(outboxes) = s.(outboxes)
  ∧ (s'.(ready) !! c = s.(ready) !! c
     ∨ (s'.(ready) !! c = None ∧ is_active_company s c = false)
     ∨ ∃ due y, first_due c s = Some due ∧ s'.(ready) !! c = Some y ∧ visited due (s.(ready) !! c) y).
Proof.
  cbv zeta. unfold recoverOutboxDispatch. destruct (skipped || _); [split_and!; auto|]. cbn.
  split_and!; [done..|]. assert (Hr := recovers_spec s (recovery_page s) s.(ready) c). cbv zeta in Hr.
  destruct (is_active_company s c) eqn:Ha.
  - assert (Hf : ∀ m : gmap string ready_row, filter (λ x, is_active_company s x.1 = true) m !! c = m !! c).
    { intros m. destruct (m !! c) as [x|] eqn:Hx.
      - by apply map_lookup_filter_Some.
      - apply map_lookup_filter_None. by left. }
    rewrite Hf. destruct (first_due c s) as [due|]; [|by left]. case_bool_decide; [|by left].
    right; right. destruct Hr as (y & Hy & Hv). by exists due, y.
  - right; left. split; [|done]. apply map_lookup_filter_None. right. intros x _. cbn. by rewrite Ha.
Qed.

Lemma recover_keeps_claim skipped now later s claim :
  keeps_claim s (recoverOutboxDispatch skipped now later s) claim.
Proof.
  intros r' [Hr Ht]%claimed_row_spec.
  destruct (recover_row skipped now later s claim.(company_id)) as (_ & Ho & [Hs|[[Hs _]|(due & y & _ & Hs & Hv)]]);
    rewrite Hs in Hr; simplify_eq.
  - exists r'. split; [by apply claimed_row_spec|]. split; [lia|]. intros _.
    apply remaining_due_ext. unfold outbox. by rewrite Ho.
  - destruct Hv as [_ Hv]. destruct (ready s !! company_id claim) as [x|] eqn:Hx.
    + destruct Hv as (Hg & Htx & _). exists x. split; [apply claimed_row_spec; split; [done|congruence]|].
      split; [lia|]. intros. lia.
    + destruct Hv. congruence.
Qed.

(** ** What a claim takes *)

#[export] Instance due_before_trans : Transitive due_before.
Proof.
  unfold due_before. intros a b c [?|[? Hab]] [?|[? Hbc]]; try (left; lia).
  right. split; [lia|]. by etrans.
Qed.
#[export] Instance due_before_total : Total due_before.
Proof.
  intros a b. unfold due_before.
  destruct (Z.lt_trichotomy (default 0%Z (rd_due_at a.2)) (default 0%Z (rd_due_at b.2))) as [?|[He|?]];
    [by left; left| |by right; left].
  destruct (total String.le a.1 b.1); [left|right]; by right.
Qed.

Lemma elem_of_candidates locked now s c r :
  (c, r) ∈ candidates locked now s ↔ s.(ready) !! c = Some r ∧ claimable now s c r = true ∧ locked c = false.
Proof.
  unfold candidates. rewrite elem_of_keep, elem_of_map_to_list. cbn.
  rewrite andb_true_iff, negb_true_iff. naive_solver.
Qed.

(** The row as the claim leaves it. *)
Definition claimed_until (token : string) (until : Z) (r : ready_row) : ready_row :=
  mkReady r.(rd_generation) r.(rd_due_at) (Some token) (Some until).

Lemma claim_row_spec locked token now s :
  match claimReadyWorkspace locked token now s with
  | (None, s') => s' = s ∧ candidates locked now s = []
  | (Some claim, s') =>
      claim.(claim_token) = token ∧
      ∃ r, (claim.(company_id), r) ∈ candidates locked now s
        ∧ (∀ x, x ∈ candidates locked now s → x = (claim.(company_id), r) ∨ due_before (claim.(company_id), r) x)
        ∧ s' = with_ready (<[claim.(company_id) := claimed_until token (now + minutes_us 2) r]> s.(ready)) s
  end.
Proof.
  unfold claimReadyWorkspace. assert (Hh := head_merge_sort due_before (candidates locked now s)).
  destruct (head (merge_sort due_before _)) as [[c r]|]; [|done].
  split; [done|]. exists r. by destruct Hh.
Qed.

(** ** The invariant *)

Definition lease_bounded (k : Z) (r : ready_row) : Prop :=
  ∀ u, r.(rd_claimed_until) = Some u → (u ≤ k + minutes_us 2)%Z.

Definition Inv (σ : system) : Prop :=
  (∀ p t, σ.(turns) !! p = Some t → knows σ.(sh) t)
  ∧ ∀ c r, σ.(sh).(ready) !! c = Some r → lease_bounded σ.(clock) r.

(** Every unfinished command of the company is announced by a due time no later than its
    own, or than five seconds from now. *)
Definition announced (k : Z) (c : string) (s : shared) : Prop :=
  ∀ r, r ∈ outbox s c → unfinished r = true →
    ∃ x d, s.(ready) !! c = Some x ∧ x.(rd_due_at) = Some d
           ∧ (d ≤ Z.max r.(cm_next_attempt_at) (k + seconds_us 5))%Z.

Lemma knows_all s s' (ts : gmap nat turn) :
  (∀ p t, ts !! p = Some t → keeps_claim s s' (claim_of_turn t)) →
  (∀ p t, ts !! p = Some t → knows s t) → ∀ p t, ts !! p = Some t → knows s' t.
Proof. intros Hk Hs p t Ht. eapply knows_keeps; eauto. Qed.

Lemma leases_insert k c x (m : gmap string ready_row) :
  lease_bounded k x → (∀ c r, m !! c = Some r → lease_bounded k r) →
  ∀ c' r, <[c := x]> m !! c' = Some r → lease_bounded k r.
Proof. intros Hx Hm c' r [[<- <-]|[_ Hr]]%lookup_insert_Some; eauto. Qed.

Lemma write_leases k now c w s :
  (∀ c r, s.(ready) !! c = Some r → lease_bounded k r) →
  ∀ c' r, (write_outbox now c w s).(ready) !! c' = Some r → lease_bounded k r.
Proof.
  intros Hs c' r Hr. destruct (write_outbox_spec now c w s) as [Ho Hc].
  destruct (decide (c' = c)) as [->|Hne]; [|destruct (Ho c' Hne) as [He _]; rewrite He in Hr; eauto].
  destruct Hc as [(y & Hy & _ & _ & Hu & _)|[He _]]; [|rewrite He in Hr; eauto].
  rewrite Hy in Hr. simplify_eq. intros u Hru. rewrite Hru in Hu.
  destruct (ready s !! c) as [x|] eqn:Hx; cbn in Hu; [|done]. by eapply Hs.
Qed.

Lemma recover_leases k skipped now later s :
  (∀ c r, s.(ready) !! c = Some r → lease_bounded k r) →
  ∀ c r, (recoverOutboxDispatch skipped now later s).(ready) !! c = Some r → lease_bounded k r.
Proof.
  intros Hs c r Hr. destruct (recover_row skipped now later s c) as (_ & _ & [He|[[He _]|(due & y & _ & He & _ & Hv)]]);
    rewrite He in Hr; simplify_eq; [by eapply Hs|].
  intros u Hu. destruct (ready s !! c) as [x|] eqn:Hx; [|destruct Hv; congruence].
  destruct Hv as (_ & _ & Hux & _). eapply Hs; [done|congruence].
Qed.

Lemma lookup_shrink p q (ts : gmap nat turn) t : delete p ts !! q = Some t → ts !! q = Some t.
Proof. by intros [_ ?]%lookup_delete_Some. Qed.

Lemma finish_step_spec t now s t' s' :
  finish_step t now s = (t', s') → knows s t →
  (∀ u, t' = Some u → claim_of_turn u = claim_of_turn t ∧ knows s' u)
  ∧ (s' = s ∨ ∃ g due, t = Settling (claim_of_turn t) g due
                       ∧ s' = settleWorkspaceDispatch (claim_of_turn t) g due now s).
Proof.
  destruct t as [claim|claim g|claim g due]; cbn; intros [= <- <-] Hk.
  - split; [|by left]. intros u Hu. unfold read_generation in Hu.
    destruct (claimed_row claim s) as [r|] eqn:Hr; cbn in Hu; simplify_eq. split; [done|].
    cbn. intros r' Hr'. rewrite Hr in Hr'. simplify_eq. lia.
  - split; [|by left]. intros u [= <-]. split; [done|]. cbn. intros r Hr. split; [by apply Hk|done].
  - split; [done|]. right. by exists g, due.
Qed.

Lemma step_inv σ σ' : step σ σ' → Inv σ → Inv σ'.
Proof.
  intros Hstep [Hk Hl]. destruct Hstep; split; cbn in *; try done.
  - intros c r Hr u Hu. specialize (Hl c r Hr u Hu). lia.
  - eapply knows_all; [|done]. intros. apply write_keeps_claim.
  - by apply write_leases.
  - assert (Hc := claim_row_spec locked token now s). rewrite H2 in Hc.
    destruct Hc as (<- & r & _ & _ & ->). intros q t [[<- <-]|[_ Ht]]%lookup_insert_Some; [done|].
    eapply knows_keeps; [|by eapply Hk]. apply insert_keeps_claim. cbn. intros [= He]. by eapply H1.
  - assert (Hc := claim_row_spec locked token now s). rewrite H2 in Hc.
    destruct Hc as (<- & r & _ & _ & ->). cbn. apply leases_insert; [|done]. cbn. intros u [= <-]. lia.
  - destruct (finish_step_spec t now s t' s' H1 (Hk p t H0)) as [Ht Hs].
    intros q u Hu. destruct (decide (q = p)) as [->|Hne].
    { rewrite lookup_partial_alter_eq in Hu. by apply Ht. }
    rewrite lookup_partial_alter_ne in Hu by done. destruct Hs as [->|(g & due & _ & ->)]; [by eapply Hk|].
    eapply knows_keeps; [apply settle_keeps_claim|by eapply Hk].
  - destruct (finish_step_spec t now s t' s' H1 (Hk p t H0)) as [_ [->|(g & due & _ & ->)]]; [done|].
    unfold settleWorkspaceDispatch. case_match; [|done]. cbn. by apply leases_insert.
  - intros q u Hu%lookup_shrink. eapply knows_keeps; [apply release_keeps_claim|by eapply Hk].
  - unfold releaseWorkspaceDispatch. case_match; [|done]. cbn. by apply leases_insert.
  - intros q u Hu%lookup_shrink. by eapply Hk.
  - eapply knows_all; [|done]. intros. apply recover_keeps_claim.
  - by apply recover_leases.
Qed.

(** ** No command is forgotten *)

Lemma sql_min_least l x : x ∈ l → ∃ m, sql_min l = Some m ∧ (m ≤ x)%Z.
Proof.
  induction l as [|y l IH]; intros Hx; [by apply not_elem_of_nil in Hx|].
  change (sql_min (y :: l)) with (least (Some y) (sql_min l)).
  apply elem_of_cons in Hx as [->|Hx].
  - destruct (sql_min l); cbn; eexists; (split; [done|lia]).
  - destruct (IH Hx) as (m & -> & Hm). cbn. eexists. split; [done|lia].
Qed.

Lemma first_due_least c s r :
  r ∈ outbox s c → unfinished r = true → ∃ m, first_due c s = Some m ∧ (m ≤ r.(cm_next_attempt_at))%Z.
Proof.
  intros Hr Hu. apply sql_min_least. apply list_elem_of_fmap. exists r. split; [done|]. by apply elem_of_keep.
Qed.

Lemma to_js_date_le t : (to_js_date t ≤ t)%Z.
Proof. unfold to_js_date. assert (H := Z.mul_div_le t 1000). lia. Qed.

Lemma remaining_due_least c s r :
  r ∈ outbox s c → unfinished r = true →
  ∃ m, remaining_due c s = Some m ∧ (m ≤ r.(cm_next_attempt_at))%Z.
Proof.
  intros Hr Hu. destruct (first_due_least c s r Hr Hu) as (m & Hm & Hle).
  unfold remaining_due. fold (first_due c s). rewrite Hm. eexists. split; [done|].
  assert (H := to_js_date_le m). lia.
Qed.

Lemma announced_later k k' c s : (k ≤ k')%Z → announced k c s → announced k' c s.
Proof.
  intros Hk Ha r Hr Hu. destruct (Ha r Hr Hu) as (x & d & Hx & Hd & Hle). exists x, d. split_and!; [done..|lia].
Qed.

(** The row of [c] is due by five seconds from now. *)
Lemma announced_soon k c s x d :
  s.(ready) !! c = Some x → x.(rd_due_at) = Some d → (d ≤ k + seconds_us 5)%Z → announced k c s.
Proof. intros Hx Hd Hle r _ _. exists x, d. split_and!; [done..|lia]. Qed.

(** The work of [c] is the same, and its due time at most what it was. *)
Lemma announced_ext k c s s' :
  keep unfinished (outbox s' c) = keep unfinished (outbox s c) →
  (∀ x d, s.(ready) !! c = Some x → x.(rd_due_at) = Some d →
     ∃ x' d', s'.(ready) !! c = Some x' ∧ x'.(rd_due_at) = Some d' ∧ (d' ≤ d)%Z) →
  announced k c s → announced k c s'.
Proof.
  intros Ho Hr Ha r Hin Hu. assert (Hin' : r ∈ keep unfinished (outbox s' c)) by by apply elem_of_keep.
  rewrite Ho in Hin'. apply elem_of_keep in Hin' as [_ Hin'].
  destruct (Ha r Hin' Hu) as (x & d & Hx & Hd & Hle). destruct (Hr x d Hx Hd) as (x' & d' & Hx' & Hd' & Hle').
  exists x', d'. split_and!; [done..|lia].
Qed.

Lemma announced_same k c s s' :
  s'.(outboxes) = s.(outboxes) → s'.(ready) !! c = s.(ready) !! c → announced k c s → announced k c s'.
Proof.
  intros Ho Hr. apply announced_ext; [unfold outbox; by rewrite Ho|]. rewrite Hr. intros x d Hx Hd.
  exists x, d. split_and!; [done..|lia].
Qed.

Lemma write_announced k now c' w s c : (now ≤ k)%Z → announced k c s → announced k c (write_outbox now c' w s).
Proof.
  intros Hn Ha. destruct (write_outbox_spec now c' w s) as [Ho Hc].
  destruct (decide (c = c')) as [->|Hne].
  - destruct Hc as [(y & Hy & (d & Hd & Hle) & _)|[He Hk]].
    + eapply announced_soon; [done..|]. unfold seconds_us. lia.
    + eapply announced_ext; [done| |done]. rewrite He. intros x d Hx Hd. exists x, d. split_and!; [done..|lia].
  - destruct (Ho c Hne) as [Hr Hob]. eapply announced_ext; [by rewrite Hob| |done].
    rewrite Hr. intros x d Hx Hd. exists x, d. split_and!; [done..|lia].
Qed.

Lemma settle_announced k claim g due now s c :
  (now ≤ k)%Z → knows s (Settling claim g due) → announced k c s →
  announced k c (settleWorkspaceDispatch claim g due now s).
Proof.
  intros Hn Hk Ha. unfold settleWorkspaceDispatch. destruct (claimed_row claim s) as [x|] eqn:Hx; [|done].
  destruct (decide (c = company_id claim)) as [->|Hne].
  - destruct (rd_generation x =? g)%Z eqn:Hg.
    + apply Z.eqb_eq in Hg. destruct (Hk x Hx) as [_ Hd]. rewrite (Hd Hg). intros r Hr Hu.
      destruct (remaining_due_least (company_id claim) s r Hr Hu) as (m & Hm & Hle).
      cbn. rewrite lookup_insert_eq, Hm. cbn. eexists _, _. split_and!; [done..|]. unfold seconds_us. lia.
    + eapply announced_soon; [by cbn; rewrite lookup_insert_eq|done|]. unfold seconds_us. lia.
  - apply (announced_same _ _ s); [done| |done]. cbn. by rewrite lookup_insert_ne by done.
Qed.

Lemma release_announced k claim now s c :
  (now ≤ k)%Z → announced k c s → announced k c (releaseWorkspaceDispatch claim now s).
Proof.
  intros Hn Ha. unfold releaseWorkspaceDispatch. destruct (claimed_row claim s) as [x|] eqn:Hx; [|done].
  destruct (decide (c = company_id claim)) as [->|Hne].
  - eapply announced_soon; [by cbn; rewrite lookup_insert_eq|done|]. lia.
  - apply (announced_same _ _ s); [done| |done]. cbn. by rewrite lookup_insert_ne by done.
Qed.

Lemma claim_announced k locked token now s s' claim c :
  claimReadyWorkspace locked token now s = (Some claim, s') → announced k c s → announced k c s'.
Proof.
  intros He Ha. assert (Hc := claim_row_spec locked token now s). rewrite He in Hc.
  destruct Hc as (_ & r & [Hr _]%elem_of_candidates & _ & ->).
  apply (announced_ext _ _ s); [done| |done]. intros x d Hx Hd. cbn.
  destruct (decide (c = company_id claim)) as [->|Hne].
  - rewrite lookup_insert_eq. simplify_eq. eexists _, d. split_and!; [done..|lia].
  - rewrite lookup_insert_ne by done. exists x, d. split_and!; [done..|lia].
Qed.

Lemma recover_announced k skipped now later s c :
  is_active_company s c = true → announced k c s → announced k c (recoverOutboxDispatch skipped now later s).
Proof.
  intros Hac Ha. destruct (recover_row skipped now later s c) as (_ & Ho & [He|[[_ Hf]|(due & y & _ & Hy & (d & Hd & _) & Hv)]]).
  - by apply (announced_same _ _ s).
  - congruence.
  - apply (announced_ext _ _ s); [unfold outbox; by rewrite Ho| |done]. intros x e Hx He. rewrite Hx in Hv.
    destruct Hv as (_ & _ & _ & Hdue). destruct (Hdue e He) as (e' & He' & Hle). by exists y, e'.
Qed.

Lemma step_announced c σ σ' :
  Inv σ → active_step c σ σ' → announced σ.(clock) c σ.(sh) → announced σ'.(clock) c σ'.(sh).
Proof.
  intros [Hk _] [Hac Hstep] Ha. destruct Hstep; cbn in *; try done.
  - by eapply announced_later.
  - by apply write_announced.
  - by eapply claim_announced.
  - destruct (finish_step_spec t now s t' s' H1 (Hk p t H0)) as [_ [->|(g & due & Ht & ->)]]; [done|].
    apply settle_announced; [done| |done]. rewrite <- Ht. by apply (Hk p).
  - by apply release_announced.
  - by apply recover_announced.
Qed.

Lemma steps_inv σ σ' : rtc step σ σ' → Inv σ → Inv σ'.
Proof. induction 1; eauto using step_inv. Qed.

Lemma active_steps c σ σ' :
  rtc (active_step c) σ σ' → Inv σ → announced σ.(clock) c σ.(sh) → Inv σ' ∧ announced σ'.(clock) c σ'.(sh).
Proof.
  induction 1 as [|σ1 σ2 σ3 [Hac Hs] _ IH]; intros Hi Ha; [done|].
  apply IH; [by eapply step_inv|]. eapply step_announced; [done|by split|done].
Qed.

(** ** The recovery scan comes around *)

(** The companies that are still ahead of the cursor. *)
Definition ahead (s : shared) : list string :=
  merge_sort String.le
    (keep (λ c, is_active_company s c && after_cursor s.(recovery).(rc_cursor) c) (map_to_list s.(companies)).*1).

Lemma ltb_spec a b : String.ltb a b = true ↔ String.le a b ∧ a ≠ b.
Proof.
  unfold String.le, String.ltb, String.leb. destruct (String.compare a b) eqn:Hc; cbn.
  - apply String.compare_eq_iff in Hc. naive_solver.
  - assert (a ≠ b) by (intros ->; assert (Ho := String.compare_antisym b b); by rewrite Hc in Ho). naive_solver.
  - naive_solver.
Qed.

Lemma elem_of_ahead s c :
  c ∈ ahead s ↔ is_active_company s c = true ∧ after_cursor s.(recovery).(rc_cursor) c = true.
Proof.
  unfold ahead. rewrite merge_sort_Permutation, elem_of_keep, andb_true_iff. split; [naive_solver|].
  intros [Ha Hc]. split; [done|]. unfold is_active_company in Ha. apply bool_decide_eq_true_1 in Ha.
  apply list_elem_of_fmap. exists (c, company_active). by rewrite elem_of_map_to_list.
Qed.

Lemma NoDup_ahead s : NoDup (ahead s).
Proof.
  unfold ahead. rewrite merge_sort_Permutation. apply NoDup_filter, NoDup_fst_map_to_list.
Qed.

Lemma sorted_ahead s : StronglySorted String.le (ahead s).
Proof. apply StronglySorted_merge_sort; apply _. Qed.

Definition active_companies (s : shared) : list string :=
  keep (is_active_company s) (map_to_list s.(companies)).*1.

Lemma elem_of_active_companies s c : c ∈ active_companies s ↔ is_active_company s c = true.
Proof.
  unfold active_companies. rewrite elem_of_keep. split; [by intros []|]. intros Ha. split; [done|].
  unfold is_active_company in Ha. apply bool_decide_eq_true_1 in Ha.
  apply list_elem_of_fmap. exists (c, company_active). by rewrite elem_of_map_to_list.
Qed.

(** Recoveries in a row, each with its timestamps and the tables that it finds; anything
    else may run between them: companies register, are activated and suspended. *)
Fixpoint passes (l : list (Z * Z * shared)) : Prop :=
  match l with
  | [] => True
  | (now, later, s) :: l' =>
      (s.(recovery).(rc_next_run_at) ≤ now)%Z
      ∧ match l' with
        | [] => True
        | (_, _, s') :: _ => s'.(recovery) = (recoverOutboxDispatch false now later s).(recovery)
        end
      ∧ passes l'
  end.

(** The companies that are active at some pass are among [U]. *)
Definition within (U : list string) (l : list (Z * Z * shared)) : Prop :=
  ∀ n k s d, (n, k, s) ∈ l → is_active_company s d = true → d ∈ U.

Definition always_active (c : string) (l : list (Z * Z * shared)) : Prop :=
  ∀ n k s, (n, k, s) ∈ l → is_active_company s c = true.

(** The companies of [U] that the cursor has not gone past. *)
Definition to_come (U : list string) (s : shared) : list string :=
  keep (after_cursor s.(recovery).(rc_cursor)) U.

Lemma pass_cursor now later s :
  (s.(recovery).(rc_next_run_at) ≤ now)%Z →
  (recoverOutboxDispatch false now later s).(recovery).(rc_cursor)
  = if (length (ahead s) <? 10)%nat then None else last (take 10 (ahead s)).
Proof.
  intros Hn. unfold recoverOutboxDispatch. cbn [orb]. rewrite (proj2 (Z.leb_le _ _) Hn). cbn [negb recovery rc_cursor].
  change (recovery_page s) with (take 10 (ahead s)). rewrite length_take.
  destruct (Nat.ltb_spec (length (ahead s)) 10).
  - rewrite bool_decide_eq_false_2; [done|]. unfold RECOVERY_PAGE. lia.
  - rewrite bool_decide_eq_true_2; [done|]. unfold RECOVERY_PAGE. lia.
Qed.

Lemma after_cursor_trans o x c : after_cursor o x = true → String.ltb x c = true → after_cursor o c = true.
Proof.
  destruct o as [y|]; [|done]. cbn. rewrite !ltb_spec. intros [Hyx Hn] [Hxc _].
  split; [by etrans|]. intros ->. apply Hn. by apply (anti_symm String.le).
Qed.

(** The last company of a full page separates the page from what is left. *)
Lemma page_splits s l x k :
  ahead s = l ++ x :: k →
  (∀ d, d ∈ l ++ [x] → String.ltb x d = false) ∧ (∀ d, d ∈ k → String.ltb x d = true).
Proof.
  intros Hq. assert (Hsort := sorted_ahead s). assert (Hnd := NoDup_ahead s). rewrite Hq in Hsort, Hnd.
  apply StronglySorted_app in Hsort as (Hcross & _ & Hk). apply StronglySorted_inv in Hk as [_ Hxk].
  apply NoDup_app in Hnd as (_ & _ & Hnd). apply NoDup_cons in Hnd as [Hx _].
  rewrite List.Forall_forall in Hxk. split.
  - intros d Hd. apply not_true_iff_false. rewrite ltb_spec. intros [Hle Hne]. apply Hne.
    apply elem_of_app in Hd as [Hd|Hd%list_elem_of_singleton]; [|done].
    apply (anti_symm String.le); [done|]. apply Hcross; [done|left].
  - intros d Hd. apply ltb_spec. split; [by apply Hxk, list_elem_of_In|]. intros ->. done.
Qed.

(** One pass reaches the end of the list, or puts ten companies behind the cursor and
    none that is still to be visited. *)
Lemma pass_next U now later s s' :
  (s.(recovery).(rc_next_run_at) ≤ now)%Z →
  s'.(recovery) = (recoverOutboxDispatch false now later s).(recovery) →
  NoDup U → (∀ d, is_active_company s d = true → d ∈ U) →
  (length (ahead s) < 10 ∧ s'.(recovery).(rc_cursor) = None)
  ∨ (length (to_come U s') + 10 ≤ length (to_come U s)
     ∧ ∀ c, c ∈ ahead s → c ∉ take 10 (ahead s) → after_cursor s'.(recovery).(rc_cursor) c = true).
Proof.
  intros Hn Hr HU Hin. assert (Hc := pass_cursor now later s Hn). rewrite <- Hr in Hc.
  destruct (Nat.ltb_spec (length (ahead s)) 10) as [Hlt|Hge]; [by left|right].
  assert (Hlen : length (take 10 (ahead s)) = 10) by (rewrite length_take; lia).
  assert (Hl := take_drop 10 (ahead s)). revert Hc Hlen Hl. generalize (drop 10 (ahead s)) as k.
  destruct (take 10 (ahead s)) as [|x l _] using rev_ind; [done|]. intros k Hc Hlen Hl.
  rewrite last_snoc in Hc. assert (Hq := eq_sym Hl). rewrite <- app_assoc in Hq.
  destruct (page_splits s l x k Hq) as [Hpage Hrest].
  assert (Hax : ∀ d, d ∈ l ++ [x] → d ∈ ahead s) by (intros d Hd; rewrite <- Hl; set_solver).
  split.
  - assert (Hle : length (to_come U s' ++ (l ++ [x])) ≤ length (to_come U s)).
    { apply submseteq_length, NoDup_submseteq.
      - assert (Hnd := NoDup_ahead s). rewrite <- Hl in Hnd. apply NoDup_app in Hnd as (Hnd & _).
        apply NoDup_app. split_and!; [by apply NoDup_filter| |done].
        intros d [Hd _]%elem_of_keep Hd'. rewrite Hc in Hd. cbn in Hd. by rewrite (Hpage d Hd') in Hd.
      - intros d [[Hd Hu]%elem_of_keep|Hd]%elem_of_app; apply elem_of_keep; split; [|done| |].
        + rewrite Hc in Hd. eapply after_cursor_trans; [|exact Hd].
          apply elem_of_ahead, Hax. set_solver.
        + by apply elem_of_ahead, Hax.
        + by apply Hin, elem_of_ahead, Hax. }
    rewrite length_app, Hlen in Hle. exact Hle.
  - intros c Hca Hout. rewrite Hc. cbn. apply Hrest.
    rewrite <- Hl in Hca. apply elem_of_app in Hca. by destruct Hca.
Qed.

Lemma length_ahead U s : (∀ d, is_active_company s d = true → d ∈ U) → length (ahead s) ≤ length (to_come U s).
Proof.
  intros Hin. apply submseteq_length, NoDup_submseteq; [apply NoDup_ahead|].
  intros c [Hc Ha]%elem_of_ahead. apply elem_of_keep. auto.
Qed.

(** A round of at most [n] companies ends at least one pass in ten. *)
Lemma round_shorter a b n : a + 10 ≤ b → b / 10 ≤ S n → a / 10 ≤ n.
Proof.
  intros Hab Hn. assert (H := Nat.Div0.div_le_mono (a + 1 * 10) b 10 Hab). rewrite Nat.div_add in H by lia. lia.
Qed.

(** A company that is ahead of the cursor is on a page before the cursor starts over. *)
Lemma reach_ahead U l now later s c :
  NoDup U → within U ((now, later, s) :: l) → always_active c ((now, later, s) :: l) →
  passes ((now, later, s) :: l) → after_cursor s.(recovery).(rc_cursor) c = true →
  length (to_come U s) / 10 ≤ length l →
  ∃ n k s', (n, k, s') ∈ (now, later, s) :: l ∧ c ∈ take 10 (ahead s') ∧ (s'.(recovery).(rc_next_run_at) ≤ n)%Z.
Proof.
  intros HU. revert now later s. induction l as [|[[now' later'] s'] l IH];
    intros now later s Hw Hact (Hn & Hnext & Hp) Hc Hlen;
    (assert (Hin : ∀ d, is_active_company s d = true → d ∈ U) by (intros d; apply (Hw now later s d); left));
    (assert (Hca : c ∈ ahead s) by (apply elem_of_ahead; split; [apply (Hact now later s); left|done]));
    (destruct (decide (c ∈ take 10 (ahead s))) as [Hon|Hout]; [by exists now, later, s; split; [left|]|]).
  - exfalso. apply Hout. rewrite take_ge; [done|]. assert (Hle := length_ahead U s Hin). cbn [length] in Hlen.
    assert (H := Nat.div_mod_eq (length (to_come U s)) 10).
    assert (H' := Nat.mod_upper_bound (length (to_come U s)) 10). lia.
  - destruct (pass_next U now later s s' Hn Hnext HU Hin) as [[Hlt _]|[Hge Ha]].
    { destruct Hout. by rewrite take_ge by lia. }
    destruct (IH now' later' s') as (n & k & s2 & Hin2 & Ht & Hn2); [..|by exists n, k, s2; split; [right|]].
    + intros n k s2 d Hi. apply (Hw n k). by right.
    + intros n k s2 Hi. apply (Hact n k). by right.
    + done.
    + by apply Ha.
    + by eapply round_shorter.
Qed.

(** The cursor starts over. *)
Lemma reach_wrap U l now later s m :
  NoDup U → within U ((now, later, s) :: l) →
  passes ((now, later, s) :: l) → length (to_come U s) / 10 + m < length l →
  ∃ l1 now' later' s' l2, l = l1 ++ (now', later', s') :: l2 ∧ m ≤ length l2
    ∧ passes ((now', later', s') :: l2) ∧ s'.(recovery).(rc_cursor) = None.
Proof.
  intros HU. revert now later s. induction l as [|[[now' later'] s'] l IH]; intros now later s Hw (Hn & Hnext & Hp) Hlen.
  { cbn in Hlen. lia. }
  assert (Hin : ∀ d, is_active_company s d = true → d ∈ U) by (intros d; apply (Hw now later s d); left).
  cbn [length] in Hlen.
  destruct (pass_next U now later s s' Hn Hnext HU Hin) as [[Hlt Hc]|[Hge _]].
  - exists [], now', later', s', l. cbn [app]. split_and!; [done|lia|done..].
  - destruct (IH now' later' s') as (l1 & n & k & s2 & l2 & Hl & Hm & Hp2 & Hc2); [|done| |].
    + intros n k s2 d Hi. apply (Hw n k). by right.
    + assert (H := Nat.Div0.div_le_mono (length (to_come U s') + 1 * 10) (length (to_come U s)) 10 Hge).
      rewrite Nat.div_add in H by lia. lia.
    + exists ((now', later', s') :: l1), n, k, s2, l2. split_and!; [by rewrite Hl|done..].
Qed.

Lemma visit_announces now later s c k :
  (s.(recovery).(rc_next_run_at) ≤ now)%Z → c ∈ take 10 (ahead s) →
  announced k c (recoverOutboxDispatch false now later s).
Proof.
  intros Hn Hc r Hr Hu.
  assert (Hac : is_active_company s c = true) by (apply elem_of_ahead; by eapply elem_of_take_sub).
  unfold recoverOutboxDispatch in *. cbn [orb] in *. rewrite (proj2 (Z.leb_le _ _) Hn) in *. cbn in *.
  destruct (first_due_least c s r Hr Hu) as (m & Hm & Hle).
  assert (Hv := recovers_spec s (recovery_page s) s.(ready) c). cbv zeta in Hv.
  rewrite Hm, bool_decide_eq_true_2 in Hv by done. destruct Hv as (y & Hy & (d & Hd & Hdm) & _).
  exists y, d. split_and!; [|done|lia]. apply map_lookup_filter_Some. done.
Qed.

(** C38: The recovery scan comes around: whatever runs between its passes, registrations,
    activations and suspensions of other companies included, a company that each pass
    finds active is visited, from any position of the cursor, within two rounds of ten
    companies a pass over all the companies that are active at some pass; and after its
    visit the company's unfinished commands are all announced in the ready list.  A
    company that registers behind the cursor waits for the next round, and one that
    registers ahead of it lengthens this round by its own place only. *)
Theorem recovery_reaches_all U l now later s c :
  NoDup U → within U ((now, later, s) :: l) →
  passes ((now, later, s) :: l) → always_active c ((now, later, s) :: l) →
  2 * (length U / 10) + 2 ≤ length l →
  ∃ n m s', (n, m, s') ∈ (now, later, s) :: l
            ∧ ∀ k, announced k c (recoverOutboxDispatch false n m s').
Proof.
  intros HU Hw Hp Hact Hlen.
  assert (Hq : ∀ s', length (to_come U s') / 10 ≤ length U / 10)
    by (intros; apply Nat.Div0.div_le_mono, length_filter).
  assert (Hq0 := Hq s).
  destruct (reach_wrap U l now later s (length U / 10)) as (l1 & n & m & s1 & l2 & Hl & Hm & Hp1 & Hc1); [done..|lia|].
  assert (Hsub : ∀ x, x ∈ (n, m, s1) :: l2 → x ∈ (now, later, s) :: l)
    by (intros x Hx; right; rewrite Hl; apply elem_of_app; by right).
  destruct (reach_ahead U l2 n m s1 c) as (n2 & m2 & s2 & Hin & Ht & Hn2); [done| | |done|by rewrite Hc1| |].
  - intros ? ? ? ? Hx. eapply Hw. by apply Hsub.
  - intros ? ? ? Hx. eapply Hact. by apply Hsub.
  - etrans; [apply Hq|done].
  - exists n2, m2, s2. split; [by apply Hsub|intros k; by apply visit_announces].
Qed.

(** ** Contracts *)

Lemma announced_candidate k c s r now :
  announced k c s → (∀ c r, s.(ready) !! c = Some r → lease_bounded k r) →
  is_active_company s c = true → r ∈ outbox s c → unfinished r = true →
  (Z.max r.(cm_next_attempt_at) (k + minutes_us 2) ≤ now)%Z →
  ∃ x, (c, x) ∈ candidates (λ _, false) now s.
Proof.
  intros Ha Hl Hac Hr Hu Hnow. destruct (Ha r Hr Hu) as (x & d & Hx & Hd & Hle).
  exists x. apply elem_of_candidates. split_and!; [done| |done]. unfold claimable. rewrite Hac, Hd. cbn [andb].
  unfold minutes_us, seconds_us in *. rewrite (proj2 (Z.leb_le d now)) by lia. cbn [andb].
  destruct (rd_claimed_until x) as [u|] eqn:Hxu; [|done]. apply Z.leb_le. specialize (Hl c x Hx u Hxu).
  unfold minutes_us in Hl. lia.
Qed.

(** C37: No command is forgotten: once a company's unfinished commands are announced in the
    ready list they stay announced through any interleaving of writes, claims,
    settlements that measured the outbox earlier, releases, crashes of dispatchers and
    recovery scans, as long as the company is active; and each of them makes its
    workspace a candidate for every claim from its own due time on, at most two minutes
    after the last step. *)
Theorem no_command_forgotten c σ0 σ σ' :
  σ0.(turns) = ∅ → (∀ c r, σ0.(sh).(ready) !! c = Some r → lease_bounded σ0.(clock) r) →
  rtc step σ0 σ → announced σ.(clock) c σ.(sh) → rtc (active_step c) σ σ' →
  announced σ'.(clock) c σ'.(sh)
  ∧ ∀ r now, is_active_company σ'.(sh) c = true → r ∈ outbox σ'.(sh) c → unfinished r = true →
      (Z.max r.(cm_next_attempt_at) (σ'.(clock) + minutes_us 2) ≤ now)%Z →
      ∃ x, (c, x) ∈ candidates (λ _, false) now σ'.(sh).
Proof.
  intros Ht Hl Hrun Ha Hact. assert (Hi : Inv σ).
  { apply (steps_inv σ0); [done|]. split; [|done]. intros p t. by rewrite Ht, lookup_empty. }
  destruct (active_steps c σ σ' Hact Hi Ha) as [[_ Hl'] Ha']. split; [done|].
  intros r now Hac Hr Hu Hnow. by eapply announced_candidate.
Qed.

(** A claim takes the workspace that has been due longest among the active ones that
    nobody else holds, for two minutes under a new token, and touches no other row; it
    takes nothing only when there is none; and until the two minutes are over no other
    claim takes that workspace unless its holder settles or releases it. *)
Theorem claim_ready_spec locked token now s :
  match claimReadyWorkspace locked token now s with
  | (None, s') => s' = s ∧ ∀ c r, s.(ready) !! c = Some r → claimable now s c r = true → locked c = true
  | (Some claim, s') =>
      claim.(claim_token) = token ∧
      ∃ r, s.(ready) !! claim.(company_id) = Some r
        ∧ claimable now s claim.(company_id) r = true ∧ locked claim.(company_id) = false
        ∧ (∀ c x, s.(ready) !! c = Some x → claimable now s c x = true → locked c = false →
             (c, x) = (claim.(company_id), r) ∨ due_before (claim.(company_id), r) (c, x))
        ∧ s'.(companies) = s.(companies) ∧ s'.(outboxes) = s.(outboxes) ∧ s'.(recovery) = s.(recovery)
        ∧ s'.(ready) = <[claim.(company_id) := claimed_until token (now + minutes_us 2) r]> s.(ready)
        ∧ ∀ s2 locked2 token2 now2 claim2 s3, s2.(ready) !! claim.(company_id) = s'.(ready) !! claim.(company_id) →
            (now2 < now + minutes_us 2)%Z → claimReadyWorkspace locked2 token2 now2 s2 = (Some claim2, s3) →
            claim2.(company_id) ≠ claim.(company_id)
  end.
Proof.
  assert (Hc := claim_row_spec locked token now s).
  destruct (claimReadyWorkspace locked token now s) as [[claim|] s'].
  - destruct Hc as (Ht & r & Hr & Hmin & ->). split; [done|]. exists r.
    apply elem_of_candidates in Hr as (Hr & Hcl & Hlk). split_and!; try done.
    + intros c x Hx Hcx Hlx. apply Hmin. by apply elem_of_candidates.
    + intros s2 locked2 token2 now2 claim2 s3 Hs2 Hnow He Heq.
      assert (Hc2 := claim_row_spec locked2 token2 now2 s2). rewrite He in Hc2.
      destruct Hc2 as (_ & r2 & Hr2 & _). apply elem_of_candidates in Hr2 as (Hr2 & Hcl2 & _).
      rewrite Heq, Hs2 in Hr2. cbn in Hr2. rewrite lookup_insert_eq in Hr2. injection Hr2 as <-.
      unfold claimable in Hcl2. to_prop. cbn in *. to_prop. lia.
  - destruct Hc as [-> Hnil]. split; [done|]. intros c r Hr Hcl. destruct (locked c) eqn:Hlk; [done|].
    assert (Hin : (c, r) ∈ candidates locked now s) by by apply elem_of_candidates.
    rewrite Hnil in Hin. by apply not_elem_of_nil in Hin.
Qed.

(** ** The dispatcher runs in the system *)

(** Writes to the outbox of one company, by statements up to the time [k]. *)
Definition company_writes (k : Z) (c : string) : shared → shared → Prop :=
  rtc (λ s s', ∃ w now, (now ≤ k)%Z ∧ s' = write_outbox now c w s).

Lemma writes_steps k c s s' ts : company_writes k c s s' → rtc step (mkSystem s ts k) (mkSystem s' ts k).
Proof.
  induction 1 as [|s1 s2 s3 (w & now & Hn & ->) _ IH]; [done|]. eapply rtc_l; [|done]. by constructor.
Qed.

Lemma finish_steps k p claim now s ts :
  (now ≤ k)%Z → ts !! p = Some (Dispatching claim) →
  rtc step (mkSystem s ts k) (mkSystem (finishWorkspaceDispatch claim now s) (delete p ts) k).
Proof.
  intros Hn Hp. unfold finishWorkspaceDispatch. destruct (read_generation claim s) as [g|] eqn:Hg.
  - eapply rtc_l. { eapply (step_finish p); [done..|]. cbn. by rewrite Hg. }
    eapply rtc_l. { eapply (step_finish p); [done|by rewrite lookup_partial_alter_eq|]. reflexivity. }
    eapply rtc_l. { eapply (step_finish p); [done|by rewrite lookup_partial_alter_eq|]. reflexivity. }
    replace (partial_alter _ p _) with (delete p ts); [apply rtc_refl|].
    apply map_eq. intros q. destruct (decide (q = p)) as [->|].
    + by rewrite lookup_partial_alter_eq, lookup_delete_eq.
    + by rewrite !lookup_partial_alter_ne, lookup_delete_ne.
  - eapply rtc_l. { eapply (step_finish p); [done..|]. cbn. by rewrite Hg. }
    apply rtc_refl.
Qed.

Lemma turns_steps stamp uuid locked dispatch k :
  (∀ n i, (stamp n i ≤ k)%Z) → (∀ n c s, company_writes k c s (dispatch n c s).2) →
  ∀ remaining n processed s,
  rtc step (mkSystem s ∅ k) (mkSystem (dispatch_turns stamp uuid locked dispatch remaining n processed s).2 ∅ k).
Proof.
  intros Hk Hd. induction remaining as [|remaining IH]; intros n processed s; cbn [dispatch_turns]; [done|].
  destruct (claimReadyWorkspace (locked n) (uuid n) (stamp n 0) s) as [[claim|] s1] eqn:Hc.
  2: { assert (He := claim_row_spec (locked n) (uuid n) (stamp n 0) s). rewrite Hc in He. by destruct He as [-> _]. }
  eapply rtc_l.
  { eapply (step_claim 0); [apply Hk|apply lookup_empty| |done]. intros q t. by rewrite lookup_empty. }
  assert (Hw := Hd n claim.(company_id) s1). destruct (dispatch n (company_id claim) s1) as [[m|] s2]; cbn in Hw;
    (etrans; [by eapply writes_steps|]).
  - etrans; [eapply (finish_steps _ 0); [apply Hk|by rewrite lookup_insert_eq]|].
    rewrite delete_insert_id by apply lookup_empty. apply IH.
  - eapply rtc_l; [eapply (step_release 0); [apply Hk|by rewrite lookup_insert_eq]|].
    rewrite delete_insert_id by apply lookup_empty. apply IH.
Qed.

(** The dispatcher's turns are steps of the system: a recovery scan and up to four
    claims, each with the writes of its dispatch and its settlement or release, form a
    run of the system that ends without a claim in hand. *)
Theorem pending_commands_refine stamp uuid locked dispatch k skipped recovered now later s :
  (∀ n i, (stamp n i ≤ k)%Z) → (now ≤ k)%Z → (later ≤ k)%Z →
  (∀ n c s, company_writes k c s (dispatch n c s).2) →
  rtc step (mkSystem s ∅ k)
    (mkSystem (dispatchPendingCommands stamp uuid locked dispatch skipped recovered now later s).2 ∅ k).
Proof.
  intros Hk Hn Hl Hd. unfold dispatchPendingCommands. destruct recovered; [|by apply turns_steps].
  eapply rtc_l; [by apply (step_recover skipped now later)|]. by apply turns_steps.
Qed.
