(* ===== verification/OutboxSpec.v ===== *)
(** The order and the fences of the command outbox.

    A claimed command has no unfinished earlier command of its recipient before it; all
    steps keep that, because they only settle rows and append later ones.  So the
    publications that begin reach every recipient in the order of acceptance. *)

From S2P Require Import Prelude Js TenantDb Exec Steady Workflow Media Outbound CommandOutbox.

(** ** How rows change *)

Definition keyed_commands (t : tables) : Prop := unique_on (Some ∘ cm_id) (t_commands t) = true.

Definition command_identity (r : command_row) := (r.(cm_id), r.(cm_subject), r.(cm_payload), r.(cm_created_at)).

(** A published or failed command stays as it is. *)
Definition settles (r r' : command_row) : Prop :=
  command_identity r' = command_identity r ∧ (unfinished r = false → r' = r).

Lemma settles_refl r : settles r r.
Proof. done. Qed.

(** What one step makes of the table. *)
Inductive command_step (l : list command_row) : list command_row → Prop :=
| step_settle f :
    (∀ r, r ∈ l → settles r (f r)
       ∧ ((f r).(cm_status) = command_claimed → r.(cm_status) = command_claimed ∨ at_head l r = true)) →
    command_step l (f <$> l)
| step_accept r :
    r.(cm_status) = command_pending → command_step l (l ++ [r]).

Definition outbox_moves (t t' : tables) : Prop :=
  keyed_commands t → keyed_commands t' ∧ command_step (t_commands t) (t_commands t').

Lemma command_step_refl l : command_step l l.
Proof.
  rewrite <- (list_fmap_id l) at 2. apply step_settle. intros r _. split; [apply settles_refl|by left].
Qed.
Lemma moves_same t t' : t_commands t' = t_commands t → outbox_moves t t'.
Proof. intros Heq Hk. unfold keyed_commands. rewrite Heq. split; [done|apply command_step_refl]. Qed.

Lemma moves_update p f t :
  constraint command_outbox (update_where p f (t_commands t)) = None →
  (keyed_commands t → ∀ r, r ∈ t_commands t → p r = true → settles r (f r)
     ∧ ((f r).(cm_status) = command_claimed → r.(cm_status) = command_claimed ∨ at_head (t_commands t) r = true)) →
  outbox_moves t (set_rows command_outbox (update_where p f (t_commands t)) t).
Proof.
  intros Hc Hf Hk. cbn [constraint command_outbox] in Hc. apply checks_cons in Hc as [Hc _]. split; [exact Hc|].
  apply (step_settle _ (λ r, if p r then f r else r)). intros r Hr. destruct (p r) eqn:Hp; [by apply Hf|].
  split; [apply settles_refl|by left].
Qed.

(** The settled columns of a leased row. *)
Lemma settles_leased i token r st a n e p :
  leased i token r = true → settles r (cm_update r st a n e p) ∧ r.(cm_status) = command_claimed.
Proof.
  unfold leased. intros Hl. to_prop. split; [|done]. split; [done|]. intros Hu.
  unfold unfinished in Hu. rewrite H1, bool_decide_eq_true_2 in Hu by set_solver. done.
Qed.

Section steps.
Context `{Oracle}.
Context (announce_failure : string → command_payload → M unit) (failure_message : err → jsstring).
Context (Hannounce : ∀ i p, reads (announce_failure i p)).

Lemma exec_update_leased i token f t (Q : nat → tables → Prop) E :
  (∀ r, ∃ st a n e p, f r = cm_update r st a n e p) →
  (∀ n t', outbox_moves t t' → Q n t') → (∀ e, E e t) →
  exec (update command_outbox (leased i token) f) t Q E.
Proof using.
  intros Hf HQ HE. apply exec_update; [|auto]. intros Hc. apply HQ, moves_update; [exact Hc|].
  intros _ r _ Hl. destruct (Hf r) as (st & a & n & e & p & ->).
  destruct (settles_leased i token r st a n e p Hl). auto.
Qed.

Lemma exec_refresh row token t :
  exec (refresh_claim row token) t
    (λ o t', outbox_moves t t'
       ∧ (is_Some o → ∃ r, r ∈ t_commands t' ∧ r.(cm_id) = row.(cm_id) ∧ r.(cm_status) = command_claimed))
    (λ _ t', t' = t).
Proof using.
  unfold refresh_claim. do 3 exec_step. apply exec_update_returning; [intros Hc|done]. apply exec_ret. split.
  - apply moves_update; [exact Hc|]. intros _ r _ Hl.
    destruct (settles_leased _ _ _ command_claimed r.(cm_attempts) (next_lease z) r.(cm_last_error)
                r.(cm_published_at) Hl). auto.
  - intros [n Hn]. change (rows command_outbox t) with (t_commands t) in Hn. rewrite head_map in Hn.
    change (head (keep _ (t_commands t))) with (first (leased row.(cm_id) token) (t_commands t)) in Hn.
    destruct (first _ _) as [r|] eqn:Hr; [|done]. apply first_Some in Hr as [Hr Hl].
    exists (lease_command (next_lease z) r). split; [|by unfold leased in Hl; to_prop].
    change (t_commands (set_rows command_outbox ?l t)) with l. apply elem_of_update_where. exists r. by rewrite Hl.
Qed.

Lemma exec_published row token t :
  exec (record_published row token) t (λ _ t', outbox_moves t t') (λ _ t', t' = t).
Proof using.
  unfold record_published. exec_step. exec_step. exec_step. apply exec_update_leased; [by eauto 6| |done].
  intros n t' Hm. by apply exec_ret.
Qed.

Lemma exec_failed row token e t :
  exec (record_failure announce_failure failure_message row token e) t
    (λ _ t', outbox_moves t t') (λ _ t', outbox_moves t t').
Proof using Hannounce.
  assert (Hrefl : outbox_moves t t) by by apply moves_same.
  unfold record_failure. do 3 exec_step. apply exec_update_leased; [by eauto 6| |done].
  intros n t1 Hm. unfold when. exec_step; [|by apply exec_ret].
  assert (Hlast : ∀ t2, t_commands t2 = t_commands t1 → outbox_moves t t2).
  { intros t2 Heq Hk. destruct (Hm Hk). unfold keyed_commands. by rewrite Heq. }
  assert (Hann : ∀ t2, t_commands t2 = t_commands t1 →
    exec (announce_failure row.(cm_id) row.(cm_payload)) t2 (λ _ t', outbox_moves t t') (λ _ t', outbox_moves t t')).
  { intros t2 Heq. eapply exec_weaken; [by apply exec_reads|..]; cbv beta; intros x t3 ->; auto. }
  exec_step. destruct (payload_message_id _) as [[|c i]|]; [by apply exec_ret, Hann| |by apply exec_ret, Hann].
  exec_step. apply exec_update; [intros _|intros; by apply Hlast]. apply exec_ret. by apply Hann.
Qed.

Lemma exec_accept subject payload t :
  exec (enqueueCommand subject payload) t (λ _ t', outbox_moves t t') (λ _ t', t' = t).
Proof using.
  unfold enqueueCommand. do 5 exec_step. apply exec_insert_row; [|done]. intros Hc. apply exec_ret. intros _.
  cbn [constraint command_outbox] in Hc. apply checks_cons in Hc as [Hc _]. split; [exact Hc|]. by apply step_accept.
Qed.

Lemma command_id_unique t a b :
  keyed_commands t → a ∈ t_commands t → b ∈ t_commands t → a.(cm_id) = b.(cm_id) → a = b.
Proof using.
  intros Hk Ha Hb Hid. eapply (unique_on_eq (Some ∘ cm_id)); [exact Hk|done|done|done|]. cbn. by rewrite Hid.
Qed.

Lemma exec_claim_commands locked t :
  exec (claim_commands locked) t (λ _ t', outbox_moves t t') (λ _ t', t' = t).
Proof using.
  unfold claim_commands. apply exec_transaction. do 6 exec_step.
  change (rows command_outbox t) with (t_commands t). rewrite keep_everything.
  set (q := take _ _). assert (Hq : ∀ r, r ∈ q → r ∈ t_commands t ∧ unfinished r = true ∧ at_head (t_commands t) r = true).
  { intros r Hr. apply elem_of_take_sub in Hr. rewrite merge_sort_Permutation, elem_of_keep in Hr.
    destruct Hr as [Hp Hr]. to_prop. auto. }
  destruct q as [|r0 q'] eqn:Heq; [apply exec_ret; by apply moves_same|]. rewrite <- Heq in *. clearbody q.
  do 3 exec_step. apply exec_update_returning; [intros Hc|done]. apply exec_ret.
  apply moves_update; [exact Hc|]. intros Hk r Hr Hin. to_prop.
  apply list_elem_of_fmap in Hin as (x & Hid & Hx). destruct (Hq x Hx) as (Hxt & Hu & Hh).
  rewrite (command_id_unique t r x Hk Hr Hxt Hid) in *. split; [|by right]. split; [done|]. by rewrite Hu.
Qed.

(** Every step moves rows, and begins the publication of a claimed one. *)
Lemma exec_outbox_step op t :
  exec (outbox_step announce_failure failure_message op) t
    (λ o t', outbox_moves t t' ∧ ∀ i, o = Some i →
       ∃ r, r ∈ t_commands t' ∧ r.(cm_id) = i ∧ r.(cm_status) = command_claimed)
    (λ _ t', outbox_moves t t').
Proof using Hannounce.
  assert (Hsame : ∀ (e : err) t', t' = t → outbox_moves t t') by (intros e t' ->; by apply moves_same).
  destruct op as [sub p|locked|row token|row token|row token e]; unfold outbox_step; exec_step.
  - eapply exec_weaken; [apply exec_accept| |exact Hsame]. intros i t' Hm. by apply exec_ret.
  - eapply exec_weaken; [apply exec_claim_commands| |exact Hsame]. intros i t' Hm. by apply exec_ret.
  - eapply exec_weaken; [apply exec_refresh| |exact Hsame]. intros [n|] t' [Hm Hr]; apply exec_ret; [|by split].
    split; [done|]. intros i [= <-]. by apply Hr.
  - eapply exec_weaken; [apply exec_published| |exact Hsame]. intros i t' Hm. by apply exec_ret.
  - eapply exec_weaken; [apply exec_failed| |done]. intros i t' Hm. by apply exec_ret.
Qed.
End steps.

(** ** Order *)

(** The command [x], as the table knows it, is behind no unfinished one. *)
Definition heads (x : command_row) (l : list command_row) : Prop :=
  (∃ r, r ∈ l ∧ command_identity r = command_identity x) ∧ at_head l x = true.

Definition ordered (l : list command_row) : Prop :=
  ∀ r, r ∈ l → r.(cm_status) = command_claimed → at_head l r = true.

(** What a step appends is accepted later than what was there. *)
Definition accepted_later (l l' : list command_row) : Prop :=
  ∀ r, r ∈ drop (length l) l' → ∀ x, x ∈ l → (x.(cm_created_at) < r.(cm_created_at))%Z.

Lemma at_head_spec l r :
  at_head l r = true ↔
  ∀ e, e ∈ l → same_recipient e r = true → accepted_before e r = true → unfinished e = false.
Proof.
  unfold at_head. rewrite negb_true_iff.
  change (existsb ?f l) with (holds_any f l). rewrite holds_any_false. split.
  - intros Hh e He Hs Ha. specialize (Hh e He). cbv beta in Hh. rewrite Hs, Ha, andb_true_r in Hh. done.
  - intros Hh e He. destruct (same_recipient e r) eqn:Hs; [|done]. destruct (accepted_before e r) eqn:Ha.
    + by rewrite (Hh e He Hs Ha).
    + by rewrite andb_false_r.
Qed.

Lemma identity_fields a b :
  command_identity a = command_identity b →
  (∀ r, same_recipient a r = same_recipient b r) ∧ (∀ r, same_recipient r a = same_recipient r b)
  ∧ (∀ r, accepted_before a r = accepted_before b r) ∧ (∀ r, accepted_before r a = accepted_before r b).
Proof.
  unfold command_identity. intros [= Hi Hs Hp Hc]. unfold same_recipient, accepted_before. rewrite Hi, Hs, Hp, Hc. done.
Qed.

Lemma heads_step x l l' :
  command_step l l' → accepted_later l l' → heads x l → heads x l'.
Proof.
  intros Hstep Hlater [(r0 & Hr0 & Hid0) Hh]. rewrite at_head_spec in Hh. destruct Hstep as [f Hf|r Hr].
  - split.
    + exists (f r0). split; [by apply list_elem_of_fmap_2|]. destruct (Hf r0 Hr0) as [[Hid _] _]. congruence.
    + apply at_head_spec. intros e (y & -> & Hy)%list_elem_of_fmap Hs Ha. destruct (Hf y Hy) as [[Hid Hfin] _].
      destruct (identity_fields _ _ Hid) as (E1 & _ & E2 & _). rewrite E1 in Hs. rewrite E2 in Ha.
      assert (Hu := Hh y Hy Hs Ha). by rewrite (Hfin Hu).
  - split; [exists r0; split; [set_solver|done]|]. apply at_head_spec. intros e He Hs Ha.
    apply elem_of_app in He as [He| ->%list_elem_of_singleton]; [by apply Hh|].
    assert (Hlt : (r0.(cm_created_at) < r.(cm_created_at))%Z).
    { apply Hlater; [|done]. rewrite drop_app_length. left. }
    unfold command_identity in Hid0. unfold accepted_before in Ha. injection Hid0 as _ _ _ Hc. rewrite Hc in Hlt.
    rewrite (proj2 (Z.ltb_ge _ _)), (proj2 (Z.eqb_neq _ _)) in Ha by lia. done.
Qed.

Lemma ordered_step l l' : command_step l l' → accepted_later l l' → ordered l → ordered l'.
Proof.
  intros Hstep Hlater Ho r' Hr' Hc.
  assert (Hx : ∃ x, x ∈ l ∧ command_identity r' = command_identity x ∧ at_head l x = true).
  { destruct Hstep as [f Hf|r Hr].
    - apply list_elem_of_fmap in Hr' as (r & -> & Hr). destruct (Hf r Hr) as [[Hid _] Hcl]. exists r.
      split; [done|]. split; [done|]. destruct (Hcl Hc) as [Hwas|?]; [by apply Ho|done].
    - apply elem_of_app in Hr' as [Hr'| ->%list_elem_of_singleton]; [|congruence]. exists r'. auto. }
  destruct Hx as (x & Hx & Hid & Hh).
  assert (Hheads : heads r' l).
  { split; [by exists x|]. rewrite at_head_spec in Hh |- *. intros e He Hs Ha.
    destruct (identity_fields _ _ Hid) as (_ & E1 & _ & E2). rewrite E1 in Hs. rewrite E2 in Ha. by apply Hh. }
  by destruct (heads_step r' l l' Hstep Hlater Hheads).
Qed.

(** ** Runs *)

Section runs.
Context `{Oracle}.
Context (announce_failure : string → command_payload → M unit) (failure_message : err → jsstring).
Context (Hannounce : ∀ i p, reads (announce_failure i p)).

Abbreviation step := (outbox_step announce_failure failure_message).
Abbreviation run_outbox := (outbox_run announce_failure failure_message).

(** The database's clock runs forward between acceptances. *)
Fixpoint clock_forward (ops : list outbox_op) (s : db) : Prop :=
  match ops with
  | [] => True
  | op :: ops =>
      let s1 := (step op s).2 in
      accepted_later (t_commands (tb s)) (t_commands (tb s1)) ∧ clock_forward ops s1
  end.

(** [later x y]: [y] does not overtake [x]. *)
Definition in_order (x y : command_row) : Prop := same_recipient y x = true → accepted_before y x = false.

Lemma outbox_run_order ops s :
  keyed_commands (tb s) → ordered (t_commands (tb s)) → clock_forward ops s →
  StronglySorted in_order (run_outbox ops s).1
  ∧ (∀ x, heads x (t_commands (tb s)) → ∀ y, y ∈ (run_outbox ops s).1 → in_order x y)
  ∧ keyed_commands (tb (run_outbox ops s).2) ∧ ordered (t_commands (tb (run_outbox ops s).2)).
Proof using Hannounce.
  revert s. induction ops as [|op ops IH]; intros s Hk Ho; cbn [outbox_run clock_forward].
  { intros _. split; [constructor|]. split; [intros x _ y Hy; by apply not_elem_of_nil in Hy|done]. }
  assert (Hx := exec_run _ s _ _ (exec_outbox_step announce_failure failure_message Hannounce op (tb s))).
  destruct (step op s) as [r s1]. cbn [snd]. intros [Hlater Hfwd].
  assert (Hm : outbox_moves (tb s) (tb s1)) by (destruct r; [by destruct Hx|done]).
  destruct (Hm Hk) as [Hk1 Hstep]. assert (Ho1 := ordered_step _ _ Hstep Hlater Ho).
  specialize (IH s1 Hk1 Ho1 Hfwd). destruct (run_outbox ops s1) as [log s2]. cbn [fst snd] in *.
  destruct IH as (Hsorted & Hheads & Hend).
  assert (Hrest : ∀ x, heads x (t_commands (tb s)) → ∀ y, y ∈ log → in_order x y).
  { intros x Hx0. apply Hheads. by eapply heads_step. }
  destruct r as [[i|]|e]; [|by split..].
  destruct (first _ _) as [y|] eqn:Hy; [|by split]. cbn [option_list app].
  apply first_Some in Hy as [Hy Hid]. to_prop. destruct Hx as [_ Hx]. destruct (Hx i eq_refl) as (y' & Hy' & Hid' & Hc).
  rewrite (command_id_unique (tb s1) y y' Hk1 Hy Hy') in * by congruence.
  assert (Hh : heads y' (t_commands (tb s1))) by (split; [by exists y'|by apply Ho1]).
  split; [constructor; [done|apply Forall_forall; by apply Hheads]|]. split; [|done].
  intros x Hx0 z [->|Hz]%elem_of_cons; [|by apply Hrest].
  intros Hs. apply not_true_iff_false. intros Ha. destruct (heads_step _ _ _ Hstep Hlater Hx0) as [_ Hxh].
  rewrite at_head_spec in Hxh. specialize (Hxh y' Hy' Hs Ha). unfold unfinished in Hxh.
  rewrite Hc, bool_decide_eq_true_2 in Hxh by set_solver. done.
Qed.

(** C34: Commands reach every recipient in the order in which they were accepted: in any run
    of acceptances, claims, lease renewals, outcomes and failures by any number of
    dispatchers, with any stale rows and leases in hand, the publications that begin
    never overtake an earlier command of the same subject and recipient, as long as the
    database's clock runs forward between acceptances. *)
Theorem outbox_in_order ops s :
  keyed_commands (tb s) → ordered (t_commands (tb s)) → clock_forward ops s →
  StronglySorted in_order (run_outbox ops s).1.
Proof using Hannounce. intros Hk Ho Hf. by apply outbox_run_order. Qed.
End runs.

(** ** One dispatch *)

#[export] Instance media_reference_eq : EqDecision MediaObjectReference.
Proof. solve_decision. Defined.
#[export] Instance send_command_eq : EqDecision send_command.
Proof. solve_decision. Defined.
#[export] Instance command_payload_eq : EqDecision command_payload.
Proof. solve_decision. Defined.
#[export] Instance command_row_eq : EqDecision command_row.
Proof. solve_decision. Defined.

(** A broker whose answers are known beforehand. *)
Definition broker `{Oracle} (answer : string → option err) (subject : string) (payload : command_payload) (i : string) : M unit :=
  match answer i with None => mret tt | Some e => throw e end.

(** What the outcome makes of the leased row. *)
Record settled (row r : command_row) (failure : option err) (r' : command_row) : Prop := {
  se_identity : command_identity r' = command_identity r;
  se_attempts : r'.(cm_attempts) = (row.(cm_attempts) + 1)%Z;
  se_status : r'.(cm_status) = match failure with
                               | None => command_published
                               | Some _ => if (10 <=? row.(cm_attempts) + 1)%Z then command_failed else command_pending
                               end;
  se_retry : failure ≠ None → ∃ now delay, r'.(cm_next_attempt_at) = (now + delay * 1000)%Z
    ∧ (2000 ≤ delay ≤ 60000)%Z }.

(** The message of a command that is given up. *)
Definition given_up (row : command_row) (failure : option err) : bool :=
  match failure with Some _ => (10 <=? row.(cm_attempts) + 1)%Z && filled (payload_message_id row.(cm_payload)) | None => false end.

Definition dispatched (row r : command_row) (failure : option err) (t t' : tables) : Prop :=
  ∃ r', settled row r failure r'
    ∧ t' = set_rows messages
        (if given_up row failure
         then update_where (λ m, is_id (default "" (payload_message_id row.(cm_payload))) m.(ms_message_id)
                                 && bool_decide (m.(ms_status) = "pending")) (with_status "failed") (t_messages t)
         else t_messages t)
        (set_rows command_outbox ((λ x, if decide (x = r) then r' else x) <$> t_commands t) t).

Section dispatch.
Context `{Oracle} (answer : string → option err).
Context (announce_failure : string → command_payload → M unit) (failure_message : err → jsstring).
Context (Hannounce : ∀ i p, reads (announce_failure i p)).

Lemma update_leased i token r f t :
  keyed_commands t → r ∈ t_commands t → leased i token r = true →
  update_where (leased i token) f (t_commands t) = (λ x, if decide (x = r) then f r else x) <$> t_commands t.
Proof using.
  intros Hk Hr Hl. unfold update_where. apply list_fmap_ext. intros n x Hx. apply list_elem_of_lookup_2 in Hx.
  case_decide as Heq; [by rewrite Heq, Hl|]. destruct (leased i token x) eqn:Hlx; [|done].
  unfold leased in Hl, Hlx. to_prop. destruct Heq. apply (command_id_unique t); congruence.
Qed.

Lemma keyed_update p f l :
  (∀ r, command_identity (f r) = command_identity r) → unique_on (Some ∘ cm_id) l = true →
  constraint command_outbox (update_where p f l) = None.
Proof using.
  intros Hf Hl. cbn [constraint command_outbox]. apply checks_cons. split; [|done].
  apply unique_on_update; [done|]. intros r _ _. left. specialize (Hf r). unfold command_identity in Hf. cbn. congruence.
Qed.

Lemma exec_update_one i token r f t (Q : nat → tables → Prop) E :
  keyed_commands t → r ∈ t_commands t → leased i token r = true →
  (∀ x, command_identity (f x) = command_identity x) →
  (∀ n, (0 < n)%nat → Q n (set_rows command_outbox ((λ x, if decide (x = r) then f r else x) <$> t_commands t) t)) →
  exec (update command_outbox (leased i token) f) t Q E.
Proof using.
  intros Hk Hr Hl Hf HQ. apply exec_update.
  - intros _. change (rows command_outbox t) with (t_commands t). rewrite (update_leased i token r) by done. apply HQ.
    destruct (keep (leased i token) (t_commands t)) as [|x q] eqn:Hq; [|cbn; lia].
    apply (proj1 (keep_nil_iff _ _)) with (x := r) in Hq; [congruence|done].
  - intros e He. change (rows command_outbox t) with (t_commands t) in He. rewrite keyed_update in He; done.
Qed.

(** Two updates of the leased row are one. *)
Lemma leased_twice t r r1 r2 :
  keyed_commands t → r ∈ t_commands t → r1.(cm_id) = r.(cm_id) →
  (λ x, if decide (x = r1) then r2 else x) <$> ((λ x, if decide (x = r) then r1 else x) <$> t_commands t)
  = (λ x, if decide (x = r) then r2 else x) <$> t_commands t.
Proof using.
  intros Hk Hr Hid. rewrite <- list_fmap_compose. apply list_fmap_ext. intros n x Hx. cbn.
  apply list_elem_of_lookup_2 in Hx. destruct (decide (x = r)) as [Hxr|Hxr]; [by rewrite decide_True|].
  rewrite decide_False; [done|]. intros ->. by apply Hxr, (command_id_unique t).
Qed.

(** The table after the renewal. *)
Definition renewed (r : command_row) (now : Z) (t : tables) : tables :=
  set_rows command_outbox ((λ x, if decide (x = r) then lease_command (next_lease now) r else x) <$> t_commands t) t.

Lemma renewed_row r now t token i :
  keyed_commands t → r ∈ t_commands t → leased i token r = true →
  keyed_commands (renewed r now t) ∧ lease_command (next_lease now) r ∈ t_commands (renewed r now t)
  ∧ leased i (next_lease now) (lease_command (next_lease now) r) = true.
Proof using.
  intros Hk Hr Hl. change (t_commands (renewed r now t))
    with ((λ x, if decide (x = r) then lease_command (next_lease now) r else x) <$> t_commands t).
  split; [|split].
  - unfold keyed_commands. change (t_commands (renewed r now t))
      with ((λ x, if decide (x = r) then lease_command (next_lease now) r else x) <$> t_commands t).
    rewrite <- (update_leased i token r (lease_command (next_lease now)) t) by done.
    apply unique_on_update; [exact Hk|]. by left.
  - apply list_elem_of_fmap. exists r. by rewrite decide_True.
  - unfold leased in *. to_prop. cbn. by rewrite !bool_decide_eq_true_2, Z.eqb_refl.
Qed.

Lemma exec_refresh_current row token r t :
  keyed_commands t → r ∈ t_commands t → leased row.(cm_id) token r = true →
  exec (refresh_claim row token) t (λ o t', ∃ now, o = Some (next_lease now) ∧ t' = renewed r now t) (λ _ _, False).
Proof using.
  intros Hk Hr Hl. unfold refresh_claim. do 3 exec_step. apply exec_update_returning.
  - intros _. apply exec_ret. exists z. change (rows command_outbox t) with (t_commands t). split.
    + rewrite head_map. change (head (keep ?p ?l)) with (first p l). by rewrite (first_unique _ _ r); [|done..|];
        [|intros y Hy Hly; unfold leased in Hl, Hly; to_prop; apply (command_id_unique t); congruence].
    + unfold renewed. by rewrite (update_leased row.(cm_id) token r).
  - intros e He. change (rows command_outbox t) with (t_commands t) in He. rewrite keyed_update in He; done.
Qed.

Lemma same_messages l t : set_rows messages (t_messages t) (set_rows command_outbox l t) = set_rows command_outbox l t.
Proof using. by destruct t. Qed.

Lemma outbox_delay a :
  (1 ≤ a)%Z → (2000 ≤ getOutboxRetryDelayMs a ≤ 60000)%Z.
Proof using.
  intros Ha. unfold getOutboxRetryDelayMs.
  assert (Hp : (2 ^ 1 ≤ 2 ^ Z.min a 6)%Z) by (apply Z.pow_le_mono_r; lia). lia.
Qed.

Lemma exec_record_published row r now t :
  keyed_commands t → r ∈ t_commands t → leased row.(cm_id) (next_lease now) (lease_command (next_lease now) r) = true →
  keyed_commands (renewed r now t) → lease_command (next_lease now) r ∈ t_commands (renewed r now t) →
  exec (record_published row (next_lease now)) (renewed r now t) (λ _ t', dispatched row r None t t') (λ _ _, False).
Proof using.
  intros Hk Hr Hl Hk1 Hr1. unfold record_published. do 3 exec_step.
  apply (exec_update_one _ _ (lease_command (next_lease now) r)); [done..|]. intros n _. apply exec_ret.
  eexists. split; [|cbn [given_up]; rewrite same_messages; symmetry; unfold renewed;
    change (t_commands (set_rows command_outbox ?l t)) with l; rewrite leased_twice by done; reflexivity].
  by split.
Qed.

Lemma exec_record_failed row r now e t :
  (0 ≤ row.(cm_attempts))%Z → keyed_commands t → r ∈ t_commands t →
  leased row.(cm_id) (next_lease now) (lease_command (next_lease now) r) = true →
  keyed_commands (renewed r now t) → lease_command (next_lease now) r ∈ t_commands (renewed r now t) →
  exec (record_failure announce_failure failure_message row (next_lease now) e) (renewed r now t)
    (λ _ t', dispatched row r (Some e) t t') (λ _ t', dispatched row r (Some e) t t').
Proof using Hannounce.
  intros Ha Hk Hr Hl Hk1 Hr1. unfold record_failure. do 3 exec_step.
  apply (exec_update_one _ _ (lease_command (next_lease now) r)); [done..|]. intros n Hn.
  unfold renewed at 1 2. change (t_commands (set_rows command_outbox ?l t)) with l. rewrite leased_twice by done.
  set (exhausted := (MAX_ATTEMPTS <=? _)%Z). match goal with |- context [if decide (_ = r) then ?x else _] => set (r2 := x) end.
  assert (Hs : settled row r (Some e) r2).
  { split; [done|done| |]; [by unfold r2, exhausted, MAX_ATTEMPTS; cbn|]. intros _.
    exists z, (getOutboxRetryDelayMs (row.(cm_attempts) + 1)). split; [done|]. apply outbox_delay. lia. }
  match goal with |- context [set_rows command_outbox ?l2 (set_rows command_outbox ?l1 t)] =>
    change (set_rows command_outbox l2 (set_rows command_outbox l1 t)) with (set_rows command_outbox l2 t);
    set (t2 := set_rows command_outbox l2 t) end.
  assert (Hann : ∀ l, dispatched row r (Some e) t (set_rows messages l t2) →
    exec (announce_failure row.(cm_id) row.(cm_payload)) (set_rows messages l t2)
      (λ _ t', dispatched row r (Some e) t t') (λ _ t', dispatched row r (Some e) t t')).
  { intros l Hd. eapply exec_weaken; [by apply exec_reads|..]; cbv beta; by intros x t3 ->. }
  assert (Hsame : t2 = set_rows messages (t_messages t) t2) by (symmetry; apply same_messages).
  assert (Hgiven : given_up row (Some e) = exhausted && filled (payload_message_id row.(cm_payload))) by done.
  rewrite (proj2 (Nat.ltb_lt 0 n) Hn), andb_true_r. unfold when. destruct exhausted eqn:Hex.
  - cbn [andb] in Hgiven. exec_step. destruct (payload_message_id _) as [[|c i]|] eqn:Hp.
    1, 3: apply exec_ret; rewrite Hsame; apply Hann; exists r2; split; [done|]; by rewrite Hgiven.
    exec_step. apply exec_update; [|done]. intros _. apply exec_ret. apply (Hann (update_where _ _ _)).
    exists r2. split; [done|]. rewrite Hgiven, Hp. done.
  - cbn [andb] in Hgiven. apply exec_ret. exists r2. split; [done|]. rewrite Hgiven. exact Hsame.
Qed.

Lemma exec_dispatch_command row r token t :
  (0 ≤ row.(cm_attempts))%Z → keyed_commands t → r ∈ t_commands t → leased row.(cm_id) token r = true →
  exec (dispatch_command (broker answer) announce_failure failure_message row token) t
    (λ _ t', dispatched row r (answer row.(cm_id)) t t') (λ _ t', dispatched row r (answer row.(cm_id)) t t').
Proof using Hannounce.
  intros Ha Hk Hr Hl. unfold dispatch_command. exec_step.
  eapply exec_weaken; [by apply exec_refresh_current| |done]. intros o t1 (now & -> & ->).
  destruct (renewed_row r now t token row.(cm_id) Hk Hr Hl) as (Hk1 & Hr1 & Hl1).
  exec_step. exec_step. unfold broker at 1. exec_step. destruct (answer row.(cm_id)) as [e|].
  - apply exec_throw, exec_ret. by apply exec_record_failed.
  - apply exec_ret, exec_ret. exec_step. eapply exec_weaken; [by apply exec_record_published|done|done].
Qed.

(** A lapsed lease publishes nothing. *)
Lemma exec_dispatch_stale row token t :
  (∀ r, r ∈ t_commands t → leased row.(cm_id) token r = false) → constraint command_outbox (t_commands t) = None →
  exec (dispatch_command (broker answer) announce_failure failure_message row token) t
    (λ _ t', t' = t) (λ _ _, False).
Proof using.
  intros Hstale Hc. unfold dispatch_command, refresh_claim. do 4 exec_step.
  apply exec_update_returning; change (rows command_outbox t) with (t_commands t); rewrite update_where_none by done.
  - intros _. change (t_commands t) with (rows command_outbox t). rewrite set_rows_rows.
    rewrite (proj2 (keep_nil_iff _ _)) by done. by apply exec_ret, exec_ret.
  - intros e He. congruence.
Qed.

(** One dispatch settles one command.  Under a current lease the command is published
    exactly when the broker accepts it; otherwise the attempt is counted and the command
    waits between two and sixty seconds, or is given up for good at the tenth attempt,
    when the message it carries stops being pending; no other command and no other
    message changes.  A dispatcher whose lease has lapsed publishes nothing and changes
    nothing. *)
Theorem outbox_dispatch_spec row token s :
  keyed_commands (tb s) → (0 ≤ row.(cm_attempts))%Z →
  let '(res, s') := dispatch_command (broker answer) announce_failure failure_message row token s in
  (∀ r, r ∈ t_commands (tb s) → leased row.(cm_id) token r = true →
     dispatched row r (answer row.(cm_id)) (tb s) (tb s'))
  ∧ ((∀ r, r ∈ t_commands (tb s) → leased row.(cm_id) token r = false) → res = Ok tt ∧ tb s' = tb s).
Proof using Hannounce.
  intros Hk Ha.
  destruct (dispatch_command _ _ _ row token s) as [res s'] eqn:Hrun. split.
  - intros r Hr Hl. assert (Hx := exec_run _ s _ _ (exec_dispatch_command row r token (tb s) Ha Hk Hr Hl)).
    rewrite Hrun in Hx. by destruct res.
  - intros Hstale. assert (Hc : constraint command_outbox (t_commands (tb s)) = None) by (apply checks_cons; by split).
    assert (Hx := exec_run _ s _ _ (exec_dispatch_stale row token (tb s) Hstale Hc)).
    rewrite Hrun in Hx. by destruct res as [[]|e].
Qed.
End dispatch.
