(* ===== verification/Bulk.v ===== *)
(** Bulk broadcast jobs.

    Models config/bulk.config.ts (Module [BulkConfig]) and
    services/bulk-job.service.ts: template rendering, the audience snapshot and its
    hash, creation with its idempotency key, progress, and the job's state
    machine.  The audit log and the realtime broadcasts of a transition are not
    modelled: they write no table of the model.  SHA-256 is a parameter. *)

From S2P Require Import Prelude Js TenantDb Workflow Media.

(** ** config/bulk.config.ts *)

Module BulkConfig.

Definition HARD_MIN_SEND_INTERVAL_MS : Z := 10000.
Definition HARD_MAX_RECIPIENTS_PER_JOB : Z := 500.
Definition HARD_MAX_DAILY_CAP : Z := 1000.

Definition parsePositiveInt (value : option jsstring) (fallback : Z) : Z :=
  match value with
  | None | Some [] => fallback
  | Some value =>
      match parseInt value with
      | Some parsed => if isFinite parsed && (0 <? parsed)%Z then parsed else fallback
      | None => fallback
      end
  end.

Definition clamp (value min max : Z) : Z := Z.min max (Z.max min value).

Record config := mkConfig {
  sendIntervalMs : Z; maxRecipientsPerJob : Z; dailyCapPerConnection : Z }.

(** [env] is process.env. *)
Definition getBulkConfig (env : string → option jsstring) : config :=
  mkConfig
    (clamp (parsePositiveInt (env "BULK_SEND_INTERVAL_MS") 12000)
       HARD_MIN_SEND_INTERVAL_MS MAX_SAFE_INTEGER)
    (clamp (parsePositiveInt (env "BULK_MAX_RECIPIENTS_PER_JOB") 100)
       1 HARD_MAX_RECIPIENTS_PER_JOB)
    (clamp (parsePositiveInt (env "BULK_DAILY_CAP_PER_CONNECTION") 200)
       1 HARD_MAX_DAILY_CAP).
End BulkConfig.

(** ** Templates *)

(** [[A-Za-z0-9_.]] *)
Definition is_word (c : Z) : bool :=
  is_digit c || ((65 <=? c)%Z && (c <=? 90)%Z) || ((97 <=? c)%Z && (c <=? 122)%Z)
  || (c =? 95)%Z || (c =? 46)%Z.

(** A match of TEMPLATE_TOKEN_RE at the start of [s]: the variable and the rest.
    The character classes are disjoint, so the greedy match is the only one. *)
Definition match_token (s : jsstring) : option (jsstring * jsstring) :=
  match s with
  | 123%Z :: 123%Z :: s =>
      let s := (span is_space s).2 in
      let '(variable, s) := span is_word s in
      match variable, (span is_space s).2 with
      | _ :: _, 125%Z :: 125%Z :: rest => Some (variable, rest)
      | _, _ => None
      end
  | _ => None
  end.

Inductive segment :=
| Literal (c : Z)
| Token (raw variable : jsstring).

(** The matches of the global expression, leftmost first, and the characters
    between them; the length of the string is enough fuel. *)
Fixpoint scan (fuel : nat) (s : jsstring) : list segment :=
  match fuel, s with
  | S fuel, c :: s' =>
      match match_token s with
      | Some (variable, rest) =>
          Token (take (length s - length rest) s) variable :: scan fuel rest
      | None => Literal c :: scan fuel s'
      end
  | _, _ => []
  end.
Definition segments (content : jsstring) : list segment := scan (length content) content.

Definition TEMPLATE_VARIABLES : list jsstring := [js "name"; js "firstName"].

Definition findUnknownTemplateVariables (content : jsstring) : list jsstring :=
  foldl (λ unknown seg,
    match seg with
    | Token _ variable =>
        if bool_decide (variable ∈ TEMPLATE_VARIABLES) || bool_decide (variable ∈ unknown)
        then unknown else unknown ++ [variable]
    | Literal _ => unknown
    end) [] (segments content).

Record RecipientNameSource := mkNameSource {
  custom_name : option jsstring; push_name : option jsstring; phone_number : option jsstring }.

Definition resolveRecipientName (contact : RecipientNameSource) : jsstring :=
  default [] (js_or (trim <$> contact.(custom_name))
    (js_or (trim <$> contact.(push_name)) contact.(phone_number))).

(** [name.split(/\s+/)[0]] *)
Definition first_word (name : jsstring) : jsstring := (span (λ c, negb (is_space c)) name).1.

Definition render_segment (name : jsstring) (seg : segment) : jsstring :=
  match seg with
  | Literal c => [c]
  | Token _ variable =>
      if bool_decide (variable = js "name") then name
      else if bool_decide (variable = js "firstName") then first_word name
      else []
  end.

Definition renderBulkTemplate (content : jsstring) (contact : RecipientNameSource) : jsstring :=
  segments content ≫= render_segment (resolveRecipientName contact).

(** ** Audience *)

Record ResolvedRecipient := mkRecipient {
  rr_contactId : string; rr_jid : option jsstring; rr_connectionId : option string;
  rr_connectionName : option jsstring; rr_customName : option jsstring;
  rr_pushName : option jsstring; rr_phoneNumber : option jsstring;
  rr_skipReason : option skip_reason }.

Record ResolvedAudience := mkResolved {
  eligible : list ResolvedRecipient; skipped_ : list ResolvedRecipient; audienceHash : string }.

Definition skip_name (r : skip_reason) : string :=
  match r with
  | no_jid => "no_jid" | no_connection => "no_connection"
  | connection_archived => "connection_archived" | connection_filtered => "connection_filtered"
  | connection_changed => "connection_changed" | blocked => "blocked"
  | is_group_reason => "is_group" | duplicate_jid => "duplicate_jid"
  | contact_missing => "contact_missing"
  end.

Definition eligible_line (r : ResolvedRecipient) : jsstring :=
  js "e:" ++ js r.(rr_contactId) ++ js ":" ++ js (default "" r.(rr_connectionId))
  ++ js ":" ++ default [] r.(rr_jid).
Definition skipped_line (r : ResolvedRecipient) : jsstring :=
  js "s:" ++ js r.(rr_contactId) ++ js ":" ++ js (default "" (skip_name <$> r.(rr_skipReason))).

Definition hash_input (elig skip : list ResolvedRecipient) : jsstring :=
  join [10%Z] (merge_sort js_le ((eligible_line <$> elig) ++ (skipped_line <$> skip))).

(** A contact joined with its connection. *)
Definition connection_of (contact : contact_row) (connections : list connection_row)
    : option connection_row :=
  first (λ w, is_id w.(wc_id) contact.(ct_whatsapp_connection_id)) connections.

(** The verdict on one contact, given the JIDs already taken. *)
Definition verdict (audience : audience) (contact : contact_row) (connection : option connection_row)
    (seenJids : list jsstring) : option skip_reason :=
  if contact.(ct_is_group) then Some is_group_reason
  else if negb (truthy contact.(ct_jid)) then Some no_jid
  else if contact.(ct_is_blocked) then Some blocked
  else if negb (filled contact.(ct_whatsapp_connection_id)) || negb (filled (wc_id <$> connection))
  then Some no_connection
  else if bool_decide (is_Some (connection ≫= wc_archived_at)) then Some connection_archived
  else if filled audience.(au_connectionId)
          && negb (bool_decide (contact.(ct_whatsapp_connection_id) = audience.(au_connectionId)))
  then Some connection_filtered
  else if match contact.(ct_jid) with Some j => bool_decide (j ∈ seenJids) | None => false end
  then Some duplicate_jid
  else None.

Definition recipient_of (contact : contact_row) (connection : option connection_row)
    (skip : option skip_reason) : ResolvedRecipient :=
  mkRecipient contact.(ct_id) contact.(ct_jid) (wc_id <$> connection)
    (connection ≫= wc_name) contact.(ct_custom_name) contact.(ct_push_name)
    contact.(ct_phone_number) skip.

(** One turn of the loop: (eligible, skipped, seenJids). *)
Definition classify (audience : audience) (connections : list connection_row)
    (acc : list ResolvedRecipient * list ResolvedRecipient * list jsstring) (contact : contact_row)
    : list ResolvedRecipient * list ResolvedRecipient * list jsstring :=
  let '(elig, skip, seenJids) := acc in
  let connection := connection_of contact connections in
  match verdict audience contact connection seenJids with
  | Some reason => (elig, skip ++ [recipient_of contact connection (Some reason)], seenJids)
  | None =>
      (elig ++ [recipient_of contact connection None], skip,
       default [] contact.(ct_jid) :: seenJids)
  end.

(** [ORDER BY created_at, id] *)
Definition earlier_contact (a b : contact_row) : Prop :=
  (a.(ct_created_at) < b.(ct_created_at))%Z
  ∨ (a.(ct_created_at) = b.(ct_created_at) ∧ String.le a.(ct_id) b.(ct_id)).
#[export] Instance earlier_contact_dec : RelDecision earlier_contact.
Proof. intros a b. unfold earlier_contact. apply _. Defined.

Definition in_audience (audience : audience) (tags : list contact_tag_row) (c : contact_row) : bool :=
  bool_decide (c.(ct_id) ∈ audience.(au_contactIds))
  || existsb (λ t, bool_decide (t.(tg_contact_id) = c.(ct_id))
                   && bool_decide (t.(tg_tag_id) ∈ audience.(au_tagIds))) tags.

Section bulk.
Context `{Oracle} `{Storage} (sha256 : jsstring → string) (bulkConfig : BulkConfig.config).

Definition computeAudienceHash (elig skip : list ResolvedRecipient) : string :=
  sha256 (hash_input elig skip).

Definition resolveBulkAudience (audience : audience) : M ResolvedAudience :=
  tags ← select contact_tags (λ _, true);
  connections ← select whatsapp_connections (λ _, true);
  selected ← select contacts (in_audience audience tags);
  let '(elig, skip, _) :=
    foldl (classify audience connections) ([], [], []) (merge_sort earlier_contact selected) in
  mret (mkResolved elig skip (computeAudienceHash elig skip)).

(** Add one to the entry of a key, at the end when it is new: a Map or an object
    in insertion order. *)
Fixpoint tally {K V} `{EqDecision K} (key : K) (fresh : V) (bump : V → V) (l : list (K * V))
    : list (K * V) :=
  match l with
  | [] => [(key, bump fresh)]
  | (k, v) :: l => if decide (k = key) then (k, bump v) :: l else (k, v) :: tally key fresh bump l
  end.

Definition buildBulkJobPreview (resolved : ResolvedAudience) : BulkJobPreview :=
  let perConnection := foldl (λ l r,
    match r.(rr_connectionId) with
    | Some (String _ _ as c) =>
        tally c (r.(rr_connectionName), 0%Z) (λ e, (e.1, e.2 + 1)%Z) l
    | _ => l
    end) [] resolved.(eligible) in
  let skippedByReason := foldl (λ l r,
    match r.(rr_skipReason) with
    | Some reason => tally reason 0%Z (λ n, n + 1)%Z l
    | None => l
    end) [] resolved.(skipped_) in
  let sendIntervalSeconds := (- ((- bulkConfig.(BulkConfig.sendIntervalMs)) / 1000))%Z in
  let busiestConnection := foldr (λ e m, Z.max e.2.2 m) 0%Z perConnection in
  mkPreview (Z.of_nat (length resolved.(eligible))) (Z.of_nat (length resolved.(skipped_)))
    ((λ e, (e.1, e.2.1, e.2.2)) <$> perConnection) skippedByReason resolved.(audienceHash)
    (busiestConnection * sendIntervalSeconds)%Z sendIntervalSeconds
    bulkConfig.(BulkConfig.maxRecipientsPerJob) bulkConfig.(BulkConfig.dailyCapPerConnection).

(** ** Creation *)

Definition MAX_RESOLVED_AUDIENCE : nat := 2000.
Definition LEAF_INSERT_CHUNK : nat := 500.

Record CreateBulkJobParams := mkCreateParams {
  cp_companyId : string; cp_name : jsstring; cp_audience : audience; cp_content : jsstring;
  cp_messageType : string; cp_mediaUrl : option string; cp_mediaMimeType : option string;
  cp_mediaFileName : option string; cp_scheduledAt : Z; cp_audienceHash : string;
  cp_idempotencyKey : string; cp_createdBy : string }.

Record CreateBulkJobResult := mkCreateResult { cr_job : job_row; cr_created : bool }.

Definition findJobByIdempotencyKey (idempotencyKey : string) : M (option job_row) :=
  select_first bulk_jobs (λ r, is_id idempotencyKey r.(bj_idempotency_key)).

(** The fields of the JSON text, which spells them in a fixed order; [string] ids
    are sorted by code units. *)
Definition canonicalAudience (a : audience) : list string * list string * option string :=
  (merge_sort String.le a.(au_tagIds), merge_sort String.le a.(au_contactIds), a.(au_connectionId)).

Definition replayOrConflict (job : job_row) (params : CreateBulkJobParams) : M CreateBulkJobResult :=
  let matches :=
    bool_decide (job.(bj_created_by) = params.(cp_createdBy))
    && bool_decide (job.(bj_name) = params.(cp_name))
    && bool_decide (job.(bj_content) = params.(cp_content))
    && bool_decide (job.(bj_message_type) = params.(cp_messageType))
    && bool_decide (job.(bj_media_url) = params.(cp_mediaUrl))
    && (job.(bj_scheduled_at) =? params.(cp_scheduledAt))%Z
    && bool_decide (job.(bj_audience_hash) = params.(cp_audienceHash))
    && bool_decide (canonicalAudience job.(bj_audience) = canonicalAudience params.(cp_audience)) in
  if matches then mret (mkCreateResult job false)
  else throw (ConflictError "This idempotency key was already used for a different broadcast").

(** A leaf of the snapshot. *)
Definition make_leaf (params : CreateBulkJobParams) (jobId : string) (now : Z)
    (recipient : ResolvedRecipient) : M scheduled_row :=
  id ← randomUUID;
  let skip := recipient.(rr_skipReason) in
  mret (mkScheduled id (Some recipient.(rr_contactId)) None
    (renderBulkTemplate params.(cp_content)
       (mkNameSource recipient.(rr_customName) recipient.(rr_pushName) recipient.(rr_phoneNumber)))
    params.(cp_messageType) params.(cp_mediaUrl) params.(cp_mediaMimeType) params.(cp_mediaFileName)
    None params.(cp_scheduledAt) (match skip with Some _ => skipped | None => scheduled end) 0
    params.(cp_scheduledAt) None None params.(cp_createdBy) None None None now now
    (Some jobId) skip None None).

(** The loop over the chunks; the number of leaves is enough fuel. *)
Fixpoint insert_chunks (fuel : nat) (leaves : list scheduled_row) : M unit :=
  match fuel, leaves with
  | S fuel, _ :: _ =>
      _ ← insert_rows scheduled_messages (take LEAF_INSERT_CHUNK leaves);
      insert_chunks fuel (drop LEAF_INSERT_CHUNK leaves)
  | _, _ => mret tt
  end.

Definition create_snapshot (params : CreateBulkJobParams) (resolved : ResolvedAudience) (now : Z)
    : M job_row :=
  transaction (
    _ ← reserveMediaReferences params.(cp_companyId) [params.(cp_mediaUrl)];
    id ← randomUUID;
    let jobRow := mkJob id params.(cp_name) job_scheduled params.(cp_content) params.(cp_messageType)
      params.(cp_mediaUrl) params.(cp_mediaMimeType) params.(cp_mediaFileName) params.(cp_audience)
      resolved.(audienceHash) params.(cp_scheduledAt) (Z.of_nat (length resolved.(eligible)))
      (Z.of_nat (length resolved.(skipped_))) 0 0 0 0 (Some params.(cp_idempotencyKey)) params.(cp_createdBy)
      None None None now now in
    _ ← insert_row bulk_jobs jobRow;
    leaves ← mapM (make_leaf params id now) (resolved.(eligible) ++ resolved.(skipped_));
    _ ← insert_chunks (length leaves) leaves;
    mret jobRow).

Definition createBulkJob (params : CreateBulkJobParams) : M CreateBulkJobResult :=
  match findUnknownTemplateVariables params.(cp_content) with
  | (_ :: _) as unknown =>
      throw (ValidationError (string_of_js (js "Unknown template variables: " ++ join (js ", ") unknown)))
  | [] =>
      existing ← findJobByIdempotencyKey params.(cp_idempotencyKey);
      match existing with
      | Some existing => replayOrConflict existing params
      | None =>
          resolved ← resolveBulkAudience params.(cp_audience);
          let n := length resolved.(eligible) in
          if negb (bool_decide (resolved.(audienceHash) = params.(cp_audienceHash)))
          then throw (BulkAudienceDriftError (buildBulkJobPreview resolved))
          else if (n =? 0)%nat
          then throw (ValidationError "The audience has no eligible recipients")
          else if (bulkConfig.(BulkConfig.maxRecipientsPerJob) <? Z.of_nat n)%Z
          then throw (ValidationError (String.append "The audience exceeds the per-job limit of "
                 (String.append (pretty bulkConfig.(BulkConfig.maxRecipientsPerJob)) " recipients")))
          else if (MAX_RESOLVED_AUDIENCE <? n + length resolved.(skipped_))%nat
          then throw (ValidationError "The audience is too large to snapshot")
          else
            now ← toDbDate;
            catch (job ← create_snapshot params resolved now; mret (mkCreateResult job true))
              (λ e,
                match e with
                | UniqueViolation _ =>
                    winner ← findJobByIdempotencyKey params.(cp_idempotencyKey);
                    match winner with
                    | Some winner => replayOrConflict winner params
                    | None => throw e
                    end
                | _ => throw e
                end)
      end
  end.
End bulk.

(** ** Progress *)

Record BulkJobProgress := mkProgress {
  bp_total : Z; bp_pending : Z; bp_processing : Z; bp_sent : Z; bp_failed : Z;
  bp_canceled : Z; bp_skipped : Z }.

Definition of_job (jobId : string) (r : scheduled_row) : bool := is_id jobId r.(sm_bulk_job_id).
Definition has_status (st : sched_status) (r : scheduled_row) : bool := bool_decide (r.(sm_status) = st).

(** [GROUP BY status]: the count of one group, 0 when it is empty. *)
Definition count_status (st : sched_status) (l : list scheduled_row) : Z :=
  Z.of_nat (length (keep (has_status st) l)).

Definition purged (f : job_row → Z) (retained : option job_row) : Z := default 0%Z (f <$> retained).

Definition all_statuses : list sched_status := [scheduled; processing; sent; failed; canceled; skipped].

(** One row of [GROUP BY bulk_job_id, status] added to the map. *)
Definition add_count (st : sched_status) (count : Z) (p : BulkJobProgress) : BulkJobProgress :=
  let at_ s x := (if bool_decide (st = s) then x + count else x)%Z in
  mkProgress (p.(bp_total) + count) (at_ scheduled p.(bp_pending)) (at_ processing p.(bp_processing))
    (at_ sent p.(bp_sent)) (at_ failed p.(bp_failed)) (at_ canceled p.(bp_canceled))
    (at_ skipped p.(bp_skipped)).

Definition no_progress : BulkJobProgress := mkProgress 0 0 0 0 0 0 0.

Definition retained_progress (r : job_row) : BulkJobProgress :=
  mkProgress (r.(bj_purged_sent) + r.(bj_purged_failed) + r.(bj_purged_canceled) + r.(bj_purged_skipped))
    0 0 r.(bj_purged_sent) r.(bj_purged_failed) r.(bj_purged_canceled) r.(bj_purged_skipped).

(** The groups of [GROUP BY bulk_job_id, status], in some order. *)
Definition grouped (l : list scheduled_row) : list (string * sched_status * Z) :=
  jobId ← remove_dups (omap sm_bulk_job_id l);
  st ← all_statuses;
  let n := count_status st (keep (of_job jobId) l) in
  if (0 <? n)%Z then [(jobId, st, n)] else [].

Section lifecycle.
Context `{Oracle} `{Storage}.

(** Both reads share the snapshot of a REPEATABLE READ transaction. *)
Definition getBulkJobProgress (bulkJobId : string) : M BulkJobProgress :=
  transaction (
    rows ← select scheduled_messages (of_job bulkJobId);
    retained ← select_first bulk_jobs (λ r, bool_decide (r.(bj_id) = bulkJobId));
    let pending := count_status scheduled rows in
    let processing := count_status processing rows in
    let sent := (count_status sent rows + purged bj_purged_sent retained)%Z in
    let failed := (count_status failed rows + purged bj_purged_failed retained)%Z in
    let canceled := (count_status canceled rows + purged bj_purged_canceled retained)%Z in
    let skipped := (count_status skipped rows + purged bj_purged_skipped retained)%Z in
    mret (mkProgress (pending + processing + sent + failed + canceled + skipped) pending
            processing sent failed canceled skipped)).

Definition getBulkJobProgressMap (bulkJobIds : list string) : M (gmap string BulkJobProgress) :=
  match bulkJobIds with
  | [] => mret ∅
  | _ =>
      transaction (
        rows ← select scheduled_messages (λ r,
          match r.(sm_bulk_job_id) with Some j => bool_decide (j ∈ bulkJobIds) | None => false end);
        retainedRows ← select bulk_jobs (λ r, bool_decide (r.(bj_id) ∈ bulkJobIds));
        let map := foldl (λ map r, <[r.(bj_id) := retained_progress r]> map) ∅ retainedRows in
        mret (foldl (λ (map : gmap string BulkJobProgress) '(jobId, st, count),
                <[jobId := add_count st count (default no_progress (map !! jobId))]> map)
              map (grouped rows)))
  end.

Definition deriveBulkJobOutcome (progress : BulkJobProgress) : job_status :=
  if (0 <? progress.(bp_failed))%Z || (0 <? progress.(bp_skipped))%Z
  then job_completed_with_errors else job_completed.

(** ** Transitions *)

(** The columns of a job that statements write. *)
Definition bj_update (r : job_row) (status : job_status) (scheduled_at : Z) (canceled_by : option string)
    (canceled_at completed_at : option Z) (updated_at : Z) : job_row :=
  mkJob r.(bj_id) r.(bj_name) status r.(bj_content) r.(bj_message_type) r.(bj_media_url)
    r.(bj_media_mime_type) r.(bj_media_file_name) r.(bj_audience) r.(bj_audience_hash) scheduled_at
    r.(bj_total_recipients) r.(bj_skipped_recipients) r.(bj_purged_sent) r.(bj_purged_failed)
    r.(bj_purged_canceled) r.(bj_purged_skipped) r.(bj_idempotency_key) r.(bj_created_by)
    canceled_by canceled_at completed_at r.(bj_created_at) updated_at.

Definition is_job (jobId : string) (r : job_row) : bool := bool_decide (r.(bj_id) = jobId).
Definition live_job (r : job_row) : bool := bool_decide (r.(bj_status) ∈ [job_scheduled; job_running]).

Definition set_completed (outcome : job_status) (at_ updated_at : Z) (r : job_row) : job_row :=
  bj_update r outcome r.(bj_scheduled_at) r.(bj_canceled_by) r.(bj_canceled_at) (Some at_) updated_at.

(** [SET completed_at, updated_at WHERE id AND completed_at IS NULL] *)
Definition stamp_completed (bulkJobId : string) (at_ updated_at : Z) : M unit :=
  _ ← update bulk_jobs (λ r, is_job bulkJobId r && bool_decide (r.(bj_completed_at) = None))
        (λ r, set_completed r.(bj_status) at_ updated_at r);
  mret tt.

Definition cleanupBulkJobMediaObject (companyId jobId : string) (media_url : option string) : M unit :=
  match media_url with
  | Some (String _ _ as url) =>
      referencedByMessage ← select_first messages (λ r, is_id url r.(ms_media_url));
      if bool_decide (is_Some referencedByMessage) then mret tt
      else
        referencedByPendingSchedule ← select_first scheduled_messages (λ r,
          is_id url r.(sm_media_url) && bool_decide (r.(sm_status) ∈ [scheduled; processing]));
        if bool_decide (is_Some referencedByPendingSchedule) then mret tt
        else
          referencedBySiblingJob ← select_first bulk_jobs (λ r,
            is_id url r.(bj_media_url) && negb (is_job jobId r) && live_job r);
          if bool_decide (is_Some referencedBySiblingJob) then mret tt
          else try_deleteMedia url companyId
  | _ => mret tt
  end.

Definition finalizeBulkJobIfComplete (companyId bulkJobId : string) : M bool :=
  job ← select_first bulk_jobs (is_job bulkJobId);
  match job with
  | None => mret false
  | Some job =>
      match job.(bj_status) with
      | job_completed | job_completed_with_errors => mret false
      | _ =>
          progress ← getBulkJobProgress bulkJobId;
          if (0 <? progress.(bp_pending) + progress.(bp_processing))%Z then mret false
          else if bool_decide (job.(bj_status) = job_canceled) then
            completed_at ← toDbDate; updated_at ← toDbDate;
            _ ← stamp_completed bulkJobId completed_at updated_at;
            _ ← cleanupBulkJobMediaObject companyId job.(bj_id) job.(bj_media_url);
            mret false
          else
            completed_at ← toDbDate; updated_at ← toDbDate;
            updated ← update bulk_jobs (λ r, is_job bulkJobId r && live_job r)
              (set_completed (deriveBulkJobOutcome progress) completed_at updated_at);
            if (updated =? 0)%nat then mret false
            else
              _ ← cleanupBulkJobMediaObject companyId job.(bj_id) job.(bj_media_url);
              mret true
      end
  end.

Definition markBulkJobRunning (bulkJobId : string) : M unit :=
  updated_at ← toDbDate;
  _ ← update bulk_jobs (λ r, is_job bulkJobId r && bool_decide (r.(bj_status) = job_scheduled))
        (λ r, bj_update r job_running r.(bj_scheduled_at) r.(bj_canceled_by) r.(bj_canceled_at)
                r.(bj_completed_at) updated_at);
  mret tt.

Record RescheduleBulkJobResult := mkReschedule {
  rs_didReschedule : bool; rs_previousScheduledAt : option Z; rs_job : option job_row;
  rs_updatedLeaves : nat }.

Definition move_leaf (scheduledAt now : Z) (r : scheduled_row) : scheduled_row :=
  sm_update r r.(sm_status) r.(sm_attempts) scheduledAt scheduledAt r.(sm_last_error)
    r.(sm_sent_message_id) r.(sm_canceled_by) r.(sm_canceled_at) r.(sm_sent_at) r.(sm_skip_reason) now.

Definition movable (r : scheduled_row) : bool := bool_decide (r.(sm_status) ∈ [scheduled; skipped]).

Definition rescheduleBulkJob (bulkJobId : string) (scheduledAt : Z) : M RescheduleBulkJobResult :=
  now ← toDbDate;
  catch (transaction (
    before ← select_first bulk_jobs (is_job bulkJobId);
    match before with
    | None => throw RescheduleStateConflict
    | Some before =>
        if negb (bool_decide (before.(bj_status) = job_scheduled)) then throw RescheduleStateConflict
        else
          leafStates ← select scheduled_messages (of_job bulkJobId);
          if (length leafStates =? 0)%nat || existsb (λ r, negb (movable r)) leafStates
          then throw RescheduleStateConflict
          else
            leaves ← update scheduled_messages
              (λ r, bool_decide (r.(sm_id) ∈ (sm_id <$> leafStates)) && movable r)
              (move_leaf scheduledAt now);
            if negb (leaves =? length leafStates)%nat then throw RescheduleStateConflict
            else
              jobs ← update_returning bulk_jobs
                (λ r, is_job bulkJobId r && bool_decide (r.(bj_status) = job_scheduled))
                (λ r, bj_update r r.(bj_status) scheduledAt r.(bj_canceled_by) r.(bj_canceled_at)
                        r.(bj_completed_at) now);
              match head jobs with
              | None => throw RescheduleStateConflict
              | Some job => mret (mkReschedule true (Some before.(bj_scheduled_at)) (Some job) leaves)
              end
    end))
  (λ e, match e with
        | RescheduleStateConflict => mret (mkReschedule false None None 0)
        | _ => throw e
        end).

Record CancelBulkJobResult := mkCancel {
  cn_didCancel : bool; cn_canceledLeaves : nat; cn_stillProcessing : nat }.

Definition cancel_leaf (canceledBy : option string) (at_ updated_at : Z) (r : scheduled_row)
    : scheduled_row :=
  sm_update r canceled r.(sm_attempts) r.(sm_scheduled_at) r.(sm_next_attempt_at) r.(sm_last_error)
    r.(sm_sent_message_id) (match canceledBy with Some u => Some u | None => r.(sm_canceled_by) end)
    (Some at_) r.(sm_sent_at) r.(sm_skip_reason) updated_at.

Definition cancelBulkJob (companyId jobId : string) (media_url : option string) (canceledBy : string)
    : M CancelBulkJobResult :=
  now ← toDbDate;
  outcome ← transaction (
    transition ← update bulk_jobs (λ r, is_job jobId r && live_job r)
      (λ r, bj_update r job_canceled r.(bj_scheduled_at) (Some canceledBy) (Some now)
              r.(bj_completed_at) now);
    if (transition =? 0)%nat then mret None
    else
      leaves ← update scheduled_messages
        (λ r, of_job jobId r && bool_decide (r.(sm_status) ∈ [scheduled; failed]))
        (cancel_leaf (Some canceledBy) now now);
      in_flight ← select scheduled_messages (λ r, of_job jobId r && has_status processing r);
      let stillProcessing := length in_flight in
      _ ← when (stillProcessing =? 0)%nat (stamp_completed jobId now now);
      mret (Some (leaves, stillProcessing)));
  match outcome with
  | None => mret (mkCancel false 0 0)
  | Some (leaves, stillProcessing) =>
      _ ← when (stillProcessing =? 0)%nat (cleanupBulkJobMediaObject companyId jobId media_url);
      mret (mkCancel true leaves stillProcessing)
  end.
End lifecycle.
