(* ===== verification/Scheduled.v ===== *)
(** Scheduled messages: the dispatcher, its failures and the routes that create
    and cancel schedules.

    Models services/scheduled-message.service.ts, the POST and DELETE handlers of
    routes/messages/scheduled.ts and services/auto-reply.service.ts.  A dispatcher
    claims due rows under a lease: the lease's end, written to next_attempt_at, is
    the token that every later statement on the row is guarded by.  The broadcasts
    are the parameter [broadcast]; the dual write into the neutral tables is not
    modelled. *)

From S2P Require Import Prelude Js SpineRows TenantDb Workflow Cases SendAccess Calendar Media Outbound Bulk.

Definition BATCH_SIZE : nat := 25.
Definition MAX_ATTEMPTS : Z := 10.
Definition CLAIM_LEASE_MS : Z := 60000.
Definition BULK_CONNECTIONS_PER_CYCLE : nat := 20.

Definition getScheduleRetryDelayMs (attempts : Z) : Z :=
  Z.min (15 * 60000) (30000 * 2 ^ Z.min attempts 5).

(** ** SET clauses *)

Definition claim_row (claimUntil updated_at : Z) (r : scheduled_row) : scheduled_row :=
  sm_update r processing r.(sm_attempts) r.(sm_scheduled_at) claimUntil r.(sm_last_error)
    r.(sm_sent_message_id) r.(sm_canceled_by) r.(sm_canceled_at) r.(sm_sent_at) r.(sm_skip_reason)
    updated_at.

Definition dispatch_row (messageId : string) (attempts sent_at updated_at : Z) (r : scheduled_row)
    : scheduled_row :=
  sm_update r sent attempts r.(sm_scheduled_at) r.(sm_next_attempt_at) None (Some messageId)
    r.(sm_canceled_by) r.(sm_canceled_at) (Some sent_at) r.(sm_skip_reason) updated_at.

Definition fail_row (exhausted : bool) (attempts next_attempt_at : Z) (message : jsstring)
    (updated_at : Z) (r : scheduled_row) : scheduled_row :=
  sm_update r (if exhausted then failed else scheduled) attempts r.(sm_scheduled_at) next_attempt_at
    (Some message) r.(sm_sent_message_id) r.(sm_canceled_by) r.(sm_canceled_at) r.(sm_sent_at)
    r.(sm_skip_reason) updated_at.

Definition skip_row (reason : skip_reason) (attempts updated_at : Z) (r : scheduled_row)
    : scheduled_row :=
  sm_update r skipped attempts r.(sm_scheduled_at) r.(sm_next_attempt_at) r.(sm_last_error)
    r.(sm_sent_message_id) r.(sm_canceled_by) r.(sm_canceled_at) r.(sm_sent_at) (Some reason)
    updated_at.

(** [WHERE id AND status = 'processing' AND next_attempt_at = claimToken] *)
Definition fenced (id : string) (claimToken : Z) (r : scheduled_row) : bool :=
  bool_decide (r.(sm_id) = id) && bool_decide (r.(sm_status) = processing)
  && (r.(sm_next_attempt_at) =? claimToken)%Z.

(** [status IN ('scheduled', 'processing') AND next_attempt_at <= now] *)
Definition due (now : Z) (r : scheduled_row) : bool :=
  bool_decide (r.(sm_status) ∈ [scheduled; processing]) && (r.(sm_next_attempt_at) <=? now)%Z.

(** [ORDER BY scheduled_at] *)
Definition scheduled_before (a b : scheduled_row) : Prop := (a.(sm_scheduled_at) ≤ b.(sm_scheduled_at))%Z.
#[export] Instance scheduled_before_dec : RelDecision scheduled_before.
Proof. intros a b. unfold scheduled_before. apply _. Defined.

(** [ORDER BY scheduled_at, created_at] *)
Definition queued_before (a b : scheduled_row) : Prop :=
  (a.(sm_scheduled_at) < b.(sm_scheduled_at))%Z
  ∨ (a.(sm_scheduled_at) = b.(sm_scheduled_at) ∧ a.(sm_created_at) ≤ b.(sm_created_at))%Z.
#[export] Instance queued_before_dec : RelDecision queued_before.
Proof. intros a b. unfold queued_before. apply _. Defined.

(** [error.message] of the errors that the services throw. *)
Definition error_message (driver_message : err → string) (e : err) : string :=
  match e with
  | NotFoundError resource => String.append resource " not found"
  | ConflictError m | ValidationError m | PermanentDispatchError m | OtherError m => m
  | ContactAssignedToOtherError _ => "This conversation is assigned to another team member"
  | NoActiveCaseError => "This conversation is resolved - open or reopen it before sending a message"
  | ContactBlockedError => "This contact is blocked - unblock them before sending a message"
  | BulkSkipError reason =>
      String.append "Recipient is no longer eligible: " (skip_name reason)
  | _ => driver_message e
  end.

Section scheduled.
Context `{Oracle} `{Storage} `{TimeZone}.
(** The message of an error that PostgreSQL or its driver raises. *)
Context (driver_message : err → string).

Definition cleanupScheduledMediaObject (companyId : string) (mediaUrl : option string) : M unit :=
  match mediaUrl with
  | Some (String _ _ as url) =>
      referencedByMessage ← select_first messages (λ r, is_id url r.(ms_media_url));
      if bool_decide (is_Some referencedByMessage) then mret tt
      else try_deleteMedia url companyId
  | _ => mret tt
  end.

Record DispatchSuccess := mkDispatch { ds_messageId : string; ds_connectionId : string }.

Definition markDispatched (row : scheduled_row) (messageId : string) (claimToken : Z) : M bool :=
  sent_at ← toDbDate; updated_at ← toDbDate;
  updated ← update scheduled_messages (fenced row.(sm_id) claimToken)
              (dispatch_row messageId (row.(sm_attempts) + 1) sent_at updated_at);
  mret (0 <? updated)%nat.

(** The media object must still exist. *)
Definition check_media (companyId : string) (mediaUrl : option string) : M unit :=
  match mediaUrl with
  | Some (String _ _ as url) =>
      match getMediaObjectReference url companyId with
      | media_found _ => mret tt
      | media_missing => throw (PermanentDispatchError "The media attachment no longer exists")
      | media_error message => throw (OtherError message)
      end
  | _ => mret tt
  end.

(** A refused send access cannot succeed on a retry. *)
Definition permanent_refusal (access : M SendAccess) : M string :=
  catch (a ← access; mret a.(sa_caseId))
    (λ e, match e with
          | ContactAssignedToOtherError _ | NoActiveCaseError | ContactBlockedError =>
              throw (PermanentDispatchError (error_message driver_message e))
          | _ => throw e
          end).

(** The transaction of a send on a channel's conversation: the message (with its
    fan-out and the conversation's activity), its intent and the row's status. *)
Definition channel_transaction (companyId : string) (row : scheduled_row) (claimToken : Z)
    (conversationId channelAccountId : string) : M string :=
  transaction (
    caseId ← permanent_refusal
      (match row.(sm_contact_id) with
       | Some (String _ _ as c) => requireSendAccess c row.(sm_created_by) (Some false)
       | _ => requireConversationSendAccess conversationId row.(sm_created_by) (Some false)
       end);
    replyToExternalMessageId ←
      match row.(sm_reply_to_message_id) with
      | Some (String _ _ as reply) =>
          quoted ← select_first messages (λ r,
            bool_decide (r.(ms_id) = reply) && is_id conversationId r.(ms_conversation_id));
          mret (quoted ≫= ms_external_message_id)
      | _ => mret None
      end;
    messageId ← insertNeutralOutboundSend
      (mkNeutralSend companyId row.(sm_created_by) row.(sm_contact_id) conversationId
         channelAccountId row.(sm_content) row.(sm_message_type)
         row.(sm_media_url) (Some caseId) row.(sm_reply_to_message_id)
         replyToExternalMessageId (String.append "scheduled:" row.(sm_id)));
    updated ← markDispatched row messageId claimToken;
    if (updated : bool) then mret messageId
    else throw (PermanentDispatchError "Scheduled message is no longer claimed")).

Definition sendScheduledChannelMessage (companyId : string) (row : scheduled_row) (claimToken : Z)
    (conversationId : string) : M (option DispatchSuccess) :=
  conversation ← select_first conversations (λ r,
    bool_decide (r.(cv_id) = conversationId) && bool_decide (r.(cv_archived_at) = None));
  match conversation with
  | None => throw (PermanentDispatchError "Conversation is not ready for send")
  | Some conversation =>
      _ ← check_media companyId row.(sm_media_url);
      createdAt ← toDbDate;
      messageId ← channel_transaction companyId row claimToken conversationId
                    conversation.(cv_channel_account_id);
      mret (if filled (Some messageId)
            then Some (mkDispatch messageId conversation.(cv_channel_account_id)) else None)
  end.

(** Bulk rows: what may have changed since the snapshot. *)
Definition revalidate_bulk (row : scheduled_row) (contact : option contact_row) : M unit :=
  match row.(sm_bulk_job_id) with
  | Some (String _ _ as jobId) =>
      match contact with
      | None => throw (BulkSkipError contact_missing)
      | Some contact =>
          if negb (truthy contact.(ct_jid)) then throw (BulkSkipError no_jid)
          else if contact.(ct_is_blocked) then throw (BulkSkipError blocked)
          else
            job ← select_first bulk_jobs (is_job jobId);
            match job ≫= λ j, j.(bj_audience).(au_connectionId) with
            | Some (String _ _ as target) =>
                if bool_decide (contact.(ct_whatsapp_connection_id) = Some target) then mret tt
                else throw (BulkSkipError connection_changed)
            | _ => mret tt
            end
      end
  | _ => mret tt
  end.

(** The quoted message and its sender, when it can still be quoted. *)
Definition resolve_quote (row : scheduled_row) (contactId : string) (contactJid : jsstring)
    (connection : connection_row) : M (option string * option jsstring) :=
  match row.(sm_reply_to_message_id) with
  | Some (String _ _ as reply) =>
      quoted ← select_first messages (λ r,
        bool_decide (r.(ms_id) = reply) && is_id contactId r.(ms_contact_id)
        && is_id connection.(wc_id) r.(ms_whatsapp_connection_id));
      match quoted with
      | Some quotedMessage =>
          if isConfirmedQuote quotedMessage then
            mret (filled_or_null quotedMessage.(ms_message_id),
                  if quotedMessage.(ms_from_me)
                  then (if truthy connection.(wc_jid) then connection.(wc_jid) else None)
                  else js_or quotedMessage.(ms_sender_jid) (Some contactJid))
          else mret (None, None)
      | None => mret (None, None)
      end
  | _ => mret (None, None)
  end.

(** SlaPolicy as the calendar reads it. *)
Definition calendar_of (policy : policy_row) : SlaCalendar :=
  mkCalendar policy.(sp_timezone) policy.(sp_weekly_schedule) policy.(sp_exceptions).

(** The promise of an automatic reply, checked under the contact's lock: the case
    to send under, or [None] when the reply is no longer due. *)
Definition auto_reply_case (companyId contactId : string) (row : scheduled_row) (triggerId : string)
    : M (option string) :=
  lockedContact ← select_first contacts (λ r, bool_decide (r.(ct_id) = contactId));
  setting ← select_first auto_reply_settings (λ r, (r.(ar_id) =? 1)%Z);
  trigger ← select_first messages (λ r, bool_decide (r.(ms_id) = triggerId));
  answered ←
    match trigger with
    | Some trigger =>
        m ← select_first messages (λ r,
          bool_decide (r.(ms_contact_id) = row.(sm_contact_id)) && r.(ms_from_me)
          && (trigger.(ms_created_at) <=? r.(ms_created_at))%Z);
        mret (bool_decide (is_Some m))
    | None => mret true
    end;
  priorContactHistory ←
    match trigger with
    | Some trigger =>
        m ← select_first messages (λ r,
          bool_decide (r.(ms_contact_id) = row.(sm_contact_id))
          && negb (bool_decide (r.(ms_id) = triggerId))
          && ((r.(ms_timestamp) <? trigger.(ms_timestamp))%Z
              || ((r.(ms_timestamp) =? trigger.(ms_timestamp))%Z
                  && (r.(ms_created_at) <? trigger.(ms_created_at))%Z)));
        mret (bool_decide (is_Some m))
    | None => mret true
    end;
  caseId ← resolveActiveCaseIdForContact contactId;
  withinBusinessHours ←
    (if match setting with Some s => s.(ar_outside_business_hours) | None => false end then
       policy ← getCurrentSlaPolicy companyId;
       now ← toDbDate;
       match isWithinBusinessHours (calendar_of policy) now with
       | inr b => mret b
       | inl _ => throw (OtherError "Malformed SLA calendar data")
       end
     else mret false);
  let eligible :=
    match lockedContact, setting with
    | Some c, Some s =>
        negb c.(ct_is_blocked) && filled caseId && s.(ar_enabled)
        && bool_decide (s.(ar_quick_reply_id) = row.(sm_auto_reply_quick_reply_id))
        && negb answered && negb priorContactHistory && negb withinBusinessHours
    | _, _ => false
    end in
  mret (if eligible then caseId else None).

(** Which case the message is sent under; [None] cancels an automatic reply. *)
Definition dispatch_case (companyId contactId : string) (row : scheduled_row)
    : M (option (option string)) :=
  if filled row.(sm_bulk_job_id) then
    caseId ← resolveActiveCaseIdForContact contactId; mret (Some caseId)
  else
    match row.(sm_auto_reply_trigger_message_id) with
    | Some (String _ _ as triggerId) =>
        caseId ← auto_reply_case companyId contactId row triggerId;
        mret (match caseId with Some c => Some (Some c) | None => None end)
    | _ =>
        caseId ← permanent_refusal (requireSendAccess contactId row.(sm_created_by) (Some false));
        mret (Some (Some caseId))
    end.

(** The transaction of a linked-device send; [false] is a canceled automatic reply. *)
Definition send_transaction (companyId contactId : string) (row : scheduled_row) (claimToken : Z)
    (messageId sessionId : string) (createdAt : Z) (connection : connection_row)
    (quotedWaMessageId : option string) (sendCommand : send_command) : M bool :=
  transaction (
    dispatch ← dispatch_case companyId contactId row;
    match dispatch with
    | None =>
        canceled_at ← toDbDate; updated_at ← toDbDate;
        _ ← update scheduled_messages (fenced row.(sm_id) claimToken)
              (cancel_leaf None canceled_at updated_at);
        mret false
    | Some caseId =>
        _ ← insert_message (λ seq,
          mkMessage messageId (Some connection.(wc_id)) row.(sm_contact_id) None
            (Some (String.append "pending_" messageId)) None true connection.(wc_jid)
            row.(sm_message_type) row.(sm_content) row.(sm_media_url) row.(sm_media_mime_type)
            (filled_or_null row.(sm_media_file_name)) quotedWaMessageId (Some row.(sm_created_by))
            "pending" createdAt createdAt caseId (Some seq) None None None None false None
            not_neutral);
        _ ← enqueueCommand (buildCommandSubject companyId sessionId) (SendMessage sendCommand);
        updated ← markDispatched row messageId claimToken;
        if (updated : bool) then mret true
        else throw (PermanentDispatchError "Scheduled message is no longer claimed")
    end).

Definition sendScheduledMessage (companyId : string) (row : scheduled_row) (claimToken : Z)
    : M (option DispatchSuccess) :=
  match row.(sm_contact_id) with
  | Some (String _ _ as contactId) =>
      contact ← select_first contacts (λ r, bool_decide (r.(ct_id) = contactId));
      _ ← revalidate_bulk row contact;
      match contact with
      | None => throw (PermanentDispatchError "Contact no longer exists")
      | Some contact =>
          conversationId ←
            match row.(sm_conversation_id) with
            | Some v => mret (Some v)
            | None => conversationIdForContact contactId
            end;
          match contact.(ct_jid), contact.(ct_whatsapp_connection_id) with
          | Some ((_ :: _) as jid), Some (String _ _ as wid) =>
              connection ← select_first whatsapp_connections (λ r,
                bool_decide (r.(wc_id) = wid) && bool_decide (r.(wc_status) = connected));
              match connection with
              | None => throw (OtherError "The contact's WhatsApp connection is not active")
              | Some connection =>
                  quote ← resolve_quote row contactId jid connection;
                  _ ← check_media companyId row.(sm_media_url);
                  messageId ← randomUUID;
                  createdAt ← toDbDate;
                  sessionId ← getActiveSessionId connection.(wc_id);
                  sendCommand ← buildSendMessageCommand companyId sessionId jid row.(sm_content)
                    row.(sm_message_type) row.(sm_created_by) (String.append "pending_" messageId)
                    (filled_or_null row.(sm_media_url)) quote.1 quote.2;
                  shouldBroadcast ← send_transaction companyId contactId row claimToken messageId
                    sessionId createdAt connection (filled_or_null quote.1) sendCommand;
                  mret (if (shouldBroadcast : bool)
                        then Some (mkDispatch messageId connection.(wc_id)) else None)
              end
          | _, _ =>
              match conversationId with
              | Some (String _ _ as v) => sendScheduledChannelMessage companyId row claimToken v
              | _ => throw (PermanentDispatchError "Contact no longer exists")
              end
          end
      end
  | _ =>
      match row.(sm_conversation_id) with
      | Some (String _ _ as v) =>
          if filled row.(sm_bulk_job_id)
          then throw (PermanentDispatchError "Contact no longer exists")
          else sendScheduledChannelMessage companyId row claimToken v
      | _ => throw (PermanentDispatchError "Contact no longer exists")
      end
  end.
End scheduled.

(** ** The outcome of a dispatch *)

Section dispatch.
Context `{Oracle} `{Storage} `{TimeZone}.
Context (driver_message : err → string).
(** The realtime broadcasts of a row's new status; they may throw. *)
Context (broadcast : string → sched_status → M unit).

(** [Date.now() + ms] *)
Definition after_ms (ms : Z) : M Z := now ← toDbDate; mret (now + ms)%Z.

Definition recordDispatchFailure (companyId : string) (row : scheduled_row) (claimToken : Z)
    (error : err) : M bool :=
  let attempts := (row.(sm_attempts) + 1)%Z in
  let permanent := match error with PermanentDispatchError _ => true | _ => false end in
  let exhausted := permanent || (MAX_ATTEMPTS <=? attempts)%Z in
  let message := take 2000 (js (error_message driver_message error)) in
  next_attempt_at ← after_ms (getScheduleRetryDelayMs attempts);
  updated_at ← toDbDate;
  updated ← update scheduled_messages (fenced row.(sm_id) claimToken)
              (fail_row exhausted attempts next_attempt_at message updated_at);
  _ ← when (exhausted && (0 <? updated)%nat)
        (if filled row.(sm_bulk_job_id) then broadcast row.(sm_id) failed
         else
           _ ← cleanupScheduledMediaObject companyId row.(sm_media_url);
           broadcast row.(sm_id) failed);
  mret exhausted.

Definition recordBulkSkip (row : scheduled_row) (claimToken : Z) (reason : skip_reason) : M unit :=
  updated_at ← toDbDate;
  updated ← update scheduled_messages (fenced row.(sm_id) claimToken)
              (skip_row reason (row.(sm_attempts) + 1) updated_at);
  when (0 <? updated)%nat (broadcast row.(sm_id) skipped).

(** The claim of a batch; [locked] are the rows that other transactions hold,
    which FOR UPDATE SKIP LOCKED passes over. *)
Definition claim_batch (locked : scheduled_row → bool) (now claimUntil : Z) : M (list scheduled_row) :=
  transaction (
    l ← select scheduled_messages (λ r,
      bool_decide (r.(sm_bulk_job_id) = None) && due now r && negb (locked r));
    let claimed := take BATCH_SIZE (merge_sort scheduled_before l) in
    match claimed with
    | [] => mret []
    | _ =>
        updated_at ← toDbDate;
        _ ← update scheduled_messages (λ r, bool_decide (r.(sm_id) ∈ (sm_id <$> claimed)))
              (claim_row claimUntil updated_at);
        mret claimed
    end).

(** One claimed row: whether a message was sent. *)
Definition dispatch_one (companyId : string) (claimUntil : Z) (row : scheduled_row) : M nat :=
  catch
    (result ← sendScheduledMessage driver_message companyId row claimUntil;
     match result with
     | None => _ ← broadcast row.(sm_id) canceled; mret 0
     | Some _ => mret 1
     end)
    (λ error, _ ← recordDispatchFailure companyId row claimUntil error; mret 0).

(** The announcement of a sent message: it comes after the count, so an error in
    it is handled like a failed dispatch of a row that is already sent. *)
Definition announce (companyId : string) (claimUntil : Z) (row : scheduled_row) (n : nat) : M nat :=
  if (n =? 0)%nat then mret n
  else catch (_ ← broadcast row.(sm_id) sent; mret n)
         (λ error, _ ← recordDispatchFailure companyId row claimUntil error; mret n).

Definition dispatchCompanyScheduledMessages (locked : scheduled_row → bool) (companyId : string)
    : M nat :=
  now ← toDbDate;
  claimUntil ← after_ms CLAIM_LEASE_MS;
  rows ← claim_batch locked now claimUntil;
  counts ← mapM (λ row, n ← dispatch_one companyId claimUntil row;
                        announce companyId claimUntil row n) rows;
  mret (list_sum counts).

(** ** Bulk dispatch *)

Context (bulkConfig : BulkConfig.config).

Definition DAY_MS : Z := 86400000.
(** CURRENT_DATE of a database server in UTC: the day of the transaction's start. *)
Definition current_date : M Z := now ← db_now; mret (now / DAY_MS)%Z.

Definition is_connection (connectionId : string) (r : budget_row) : bool :=
  bool_decide (r.(bb_whatsapp_connection_id) = connectionId).

(** The leaves whose contact routes to the connection. *)
Definition routes_to (connectionId : string) (contacts : list contact_row) (r : scheduled_row) : bool :=
  match r.(sm_contact_id) with
  | Some c => existsb (λ ct, bool_decide (ct.(ct_id) = c)
                             && is_id connectionId ct.(ct_whatsapp_connection_id)) contacts
  | None => false
  end.

Definition is_leaf (r : scheduled_row) : bool := bool_decide (is_Some r.(sm_bulk_job_id)).

Definition charge_budget (sent_today today next_eligible_at updated_at : Z) (r : budget_row) : budget_row :=
  mkBudget r.(bb_whatsapp_connection_id) next_eligible_at today sent_today updated_at.

(** The end of the claim, under the lock on the connection's budget: the next leaf and
    the charge for it. *)
Definition claim_leaf (locked : scheduled_row → bool) (connectionId : string)
    (now claimUntil sentToday today : Z) : M (option scheduled_row) :=
  routed ← select contacts (λ _, true);
  leaves ← select scheduled_messages (λ r,
    is_leaf r && due now r && routes_to connectionId routed r && negb (locked r));
  match head (merge_sort queued_before leaves) with
  | None => mret None
  | Some leaf =>
      updated_at ← toDbDate;
      _ ← update scheduled_messages (λ r, bool_decide (r.(sm_id) = leaf.(sm_id)))
            (claim_row claimUntil updated_at);
      charged_at ← toDbDate;
      _ ← update bulk_connection_budgets (is_connection connectionId)
            (charge_budget (sentToday + 1) today
               (now + bulkConfig.(BulkConfig.sendIntervalMs)) charged_at);
      mret (Some leaf)
  end.

Definition claimBulkLeafForConnection (locked : scheduled_row → bool) (connectionId : string)
    (now claimUntil : Z) : M (option scheduled_row) :=
  transaction (
    today ← current_date;
    created ← db_now;
    _ ← insert_on_conflict_nothing bulk_connection_budgets (is_connection connectionId)
          (mkBudget connectionId now today 0 created);
    budget ← select_first bulk_connection_budgets (is_connection connectionId);
    match budget with
    | None => mret None
    | Some budget =>
        let sentToday := if (budget.(bb_quota_date) =? today)%Z then budget.(bb_sent_today) else 0%Z in
        if (bulkConfig.(BulkConfig.dailyCapPerConnection) <=? sentToday)%Z then mret None
        else if (now <? budget.(bb_next_eligible_at))%Z then mret None
        else
          connection ← select_first whatsapp_connections (λ r, bool_decide (r.(wc_id) = connectionId));
          match connection with
          | None => mret None
          | Some connection =>
              if negb (bool_decide (connection.(wc_status) = connected))
                 || bool_decide (is_Some connection.(wc_archived_at))
              then mret None
              else claim_leaf locked connectionId now claimUntil sentToday today
          end
    end).

Inductive orphan_filter := orphan_missing | orphan_unlinked.

Definition is_orphan (f : orphan_filter) (contacts : list contact_row) (r : scheduled_row) : bool :=
  let contact := match r.(sm_contact_id) with
                 | Some c => first (λ ct, bool_decide (ct.(ct_id) = c)) contacts
                 | None => None
                 end in
  match f, contact with
  | orphan_missing, None => true
  | orphan_unlinked, Some ct => bool_decide (ct.(ct_whatsapp_connection_id) = None)
  | _, _ => false
  end.

Definition sweep_row (reason : skip_reason) (updated_at : Z) (r : scheduled_row) : scheduled_row :=
  skip_row reason r.(sm_attempts) updated_at r.

(** One of the two sweeps: the swept rows. *)
Definition sweep (now : Z) (f : orphan_filter) (reason : skip_reason) : M (list scheduled_row) :=
  updated_at ← toDbDate;
  all ← select contacts (λ _, true);
  orphans ← select scheduled_messages (λ r, is_leaf r && due now r && is_orphan f all r);
  update_returning scheduled_messages
    (λ r, bool_decide (r.(sm_status) ∈ [scheduled; processing])
          && bool_decide (r.(sm_id) ∈ (sm_id <$> take 100 orphans)))
    (sweep_row reason updated_at).

(** The jobs of the swept rows, each once. *)
Definition sweepOrphanedBulkLeaves (now : Z) : M (list string) :=
  missing ← sweep now orphan_missing contact_missing;
  unlinked ← sweep now orphan_unlinked no_connection;
  mret (remove_dups (filter (λ j, filled (Some j)) (omap sm_bulk_job_id (missing ++ unlinked)))).

(** [NULLS FIRST] on the budget's next_eligible_at, then the connection's id. *)
Definition candidate_before (a b : option Z * string) : Prop :=
  match a.1, b.1 with
  | None, None => String.le a.2 b.2
  | None, Some _ => True
  | Some _, None => False
  | Some x, Some y => (x < y)%Z ∨ (x = y ∧ String.le a.2 b.2)
  end.
#[export] Instance candidate_before_dec : RelDecision candidate_before.
Proof. intros a b. unfold candidate_before. repeat case_match; apply _. Defined.

Definition looks_eligible (now today : Z) (budget : option budget_row) : bool :=
  match budget with
  | None => true
  | Some b =>
      (b.(bb_next_eligible_at) <=? now)%Z
      && (negb (b.(bb_quota_date) =? today)%Z
          || (b.(bb_sent_today) <? bulkConfig.(BulkConfig.dailyCapPerConnection))%Z)
  end.

(** The connections that look eligible right now, oldest-eligible first. *)
Definition bulk_candidates (now : Z) : M (list string) :=
  transaction (
    today ← current_date;
    budgets ← select bulk_connection_budgets (λ _, true);
    routed ← select contacts (λ _, true);
    leaves ← select scheduled_messages (λ r, is_leaf r && due now r);
    connections ← select whatsapp_connections (λ w,
      bool_decide (w.(wc_status) = connected) && bool_decide (w.(wc_archived_at) = None)
      && looks_eligible now today (first (is_connection w.(wc_id)) budgets)
      && existsb (routes_to w.(wc_id) routed) leaves);
    let ordered := merge_sort candidate_before
      ((λ w, (bb_next_eligible_at <$> first (is_connection w.(wc_id)) budgets, w.(wc_id)))
         <$> connections) in
    mret (take BULK_CONNECTIONS_PER_CYCLE (ordered.*2))).

(** Errors of a finalization are logged. *)
Definition try_finalize (companyId jobId : string) : M unit :=
  catch (_ ← finalizeBulkJobIfComplete companyId jobId; mret tt) (λ _, mret tt).

Definition dispatch_leaf (companyId : string) (claimUntil : Z) (leaf : scheduled_row) : M nat :=
  catch
    (result ← sendScheduledMessage driver_message companyId leaf claimUntil;
     match result with
     | None => throw (PermanentDispatchError "Bulk message unexpectedly entered auto-reply cancellation")
     | Some _ => mret 1
     end)
    (λ error,
      match error with
      | BulkSkipError reason => _ ← recordBulkSkip leaf claimUntil reason; mret 0
      | _ => _ ← recordDispatchFailure companyId leaf claimUntil error; mret 0
      end).

(** One candidate connection: claim, mark the job running, send, finalize. *)
Definition dispatch_candidate (locked : scheduled_row → bool) (companyId : string)
    (now claimUntil : Z) (connectionId : string) : M nat :=
  if negb (filled (Some connectionId)) then mret 0
  else
    leaf ← catch (claimBulkLeafForConnection locked connectionId now claimUntil) (λ _, mret None);
    match leaf with
    | None => mret 0
    | Some leaf =>
        _ ← (match leaf.(sm_bulk_job_id) with
             | Some (String _ _ as jobId) => markBulkJobRunning jobId
             | _ => mret tt
             end);
        n ← dispatch_leaf companyId claimUntil leaf;
        n ← announce companyId claimUntil leaf n;
        _ ← (match leaf.(sm_bulk_job_id) with
             | Some (String _ _ as jobId) => try_finalize companyId jobId
             | _ => mret tt
             end);
        mret n
    end.

Definition dispatchCompanyBulkMessages (locked : scheduled_row → bool) (companyId : string) : M nat :=
  now ← toDbDate;
  claimUntil ← after_ms CLAIM_LEASE_MS;
  orphanedJobIds ← sweepOrphanedBulkLeaves now;
  _ ← mapM (try_finalize companyId) orphanedJobIds;
  candidates ← bulk_candidates now;
  counts ← mapM (dispatch_candidate locked companyId now claimUntil) candidates;
  mret (list_sum counts).
End dispatch.

(** ** Routes (routes/messages/scheduled.ts)

    A 400 or 404 response is the corresponding error. *)

Section routes.
Context `{Oracle} `{Storage}.

Definition SCHEDULE_MIN_LEAD_MS : Z := 30000.
Definition SCHEDULE_MAX_HORIZON_MS : Z := 365 * 24 * 60 * 60 * 1000.

Record ScheduleMessageInput := mkScheduleInput {
  si_contactId : option string; si_conversationId : option string; si_content : option jsstring;
  si_messageType : string; si_mediaUrl : option string; si_replyToMessageId : option string;
  si_scheduledAt : Z }.

(** The media of a schedule: (stored reference, mime type, file name). *)
Definition schedule_media (companyId : string) (body : ScheduleMessageInput)
    : M (option string * option string * option string) :=
  match body.(si_mediaUrl) with
  | Some (String _ _ as url) =>
      if bool_decide (body.(si_messageType) = "text") then mret (None, None, None)
      else
        match getMediaObjectReference url companyId with
        | media_found reference =>
            let expectedPrefix :=
              if bool_decide (body.(si_messageType) = "image") then Some "image/"
              else if bool_decide (body.(si_messageType) = "video") then Some "video/" else None in
            if match expectedPrefix with
               | Some p => negb (String.prefix p reference.(mr_mimeType))
               | None => false
               end
            then throw (ValidationError (String.append "messageType " (String.append
                   body.(si_messageType) " does not match the uploaded file type")))
            else mret (Some (getPrivateMediaReference reference.(mr_key)),
                       Some reference.(mr_mimeType), Some reference.(mr_filename))
        | _ => throw (ValidationError "Invalid media object for scheduling")
        end
  | _ => mret (None, None, None)
  end.

(** The quoted message of the thread must be confirmed. *)
Definition check_reply (replyTo contactId conversationId : option string) : M unit :=
  match replyTo with
  | Some (String _ _ as reply) =>
      quoted ← select_first messages (λ r,
        bool_decide (r.(ms_id) = reply)
        && match conversationId with
           | Some (String _ _ as v) => is_id v r.(ms_conversation_id)
           | _ => match contactId with Some c => is_id c r.(ms_contact_id) | None => false end
           end);
      match quoted with
      | None => throw (NotFoundError "Quoted message")
      | Some q =>
          if isConfirmedQuote q then mret tt
          else throw (ValidationError "Wait for the quoted message to be confirmed before replying")
      end
  | _ => mret tt
  end.

(** POST /scheduled, by the user [userId]; the result is the inserted row and
    whether the thread was claimed. *)
Definition scheduleMessage (companyId userId : string) (body : ScheduleMessageInput)
    : M (scheduled_row * bool) :=
  let isMediaMessage := negb (bool_decide (body.(si_messageType) = "text")) in
  if negb isMediaMessage && negb (truthy (trim <$> body.(si_content)))
  then throw (ValidationError "content is required for text messages")
  else if isMediaMessage && negb (filled body.(si_mediaUrl))
  then throw (ValidationError "mediaUrl is required for media messages")
  else if negb isMediaMessage && filled body.(si_mediaUrl)
  then throw (ValidationError "mediaUrl is not allowed for text messages")
  else
    clock ← toDbDate;
    let lead := (body.(si_scheduledAt) - clock)%Z in
    if (lead <? SCHEDULE_MIN_LEAD_MS)%Z
    then throw (ValidationError "scheduledAt must be at least 30 seconds from now")
    else if (SCHEDULE_MAX_HORIZON_MS <? lead)%Z
    then throw (ValidationError "scheduledAt must be within one year")
    else
      media ← schedule_media companyId body;
      match nullish body.(si_conversationId) body.(si_contactId) with
      | Some (String _ _ as targetId) =>
          workflow ← resolveWorkflowIdentity targetId;
          match workflow with
          | None => throw (NotFoundError "Conversation")
          | Some workflow =>
              if negb (filled workflow.(wi_conversationId)) && negb (filled workflow.(wi_contactId))
              then throw (NotFoundError "Conversation")
              else
                contact ←
                  (match workflow.(wi_contactId) with
                   | Some (String _ _ as c) => select_first contacts (λ r, bool_decide (r.(ct_id) = c))
                   | _ => mret None
                   end);
                conversationId ←
                  (match workflow.(wi_conversationId), contact with
                   | Some v, _ => mret (Some v)
                   | None, Some c => conversationIdForContact c.(ct_id)
                   | None, None => mret None
                   end);
                if match contact with
                   | Some c => truthy c.(ct_jid) && negb (filled c.(ct_whatsapp_connection_id))
                   | None => false
                   end
                then throw (ValidationError "The contact has no WhatsApp connection")
                else if bool_decide (contact = None) && negb (filled conversationId)
                then throw (NotFoundError "Conversation")
                else
                  _ ← check_reply body.(si_replyToMessageId) (ct_id <$> contact) conversationId;
                  now ← toDbDate;
                  transaction (
                    _ ← reserveMediaReferences companyId [media.1.1];
                    access ←
                      match contact with
                      | Some c => requireSendAccess c.(ct_id) userId None
                      | None => requireConversationSendAccess (default "" conversationId) userId None
                      end;
                    id ← randomUUID;
                    let row := mkScheduled id (ct_id <$> contact) conversationId
                      (default [] (trim <$> body.(si_content))) body.(si_messageType) media.1.1 media.1.2
                      media.2 (filled_or_null body.(si_replyToMessageId)) body.(si_scheduledAt) scheduled
                      0 body.(si_scheduledAt) None None userId None None None now now None None None None in
                    _ ← insert_row scheduled_messages row;
                    mret (row, access.(sa_autoAssigned)))
          end
      | _ => throw (NotFoundError "Conversation")
      end.

(** DELETE /scheduled/:id *)
Definition cancelScheduled (companyId userId : string) (canViewAllChats : bool) (id : string) : M unit :=
  row ← select_first scheduled_messages (λ r, bool_decide (r.(sm_id) = id));
  match row with
  | None => throw (NotFoundError "Scheduled message")
  | Some row =>
      contactVisible ←
        match row.(sm_contact_id) with
        | Some (String _ _ as c) => hasContactVisibility canViewAllChats userId c
        | _ => mret false
        end;
      conversationVisible ←
        match row.(sm_conversation_id) with
        | Some (String _ _ as v) =>
            a ← getCurrentConversationAssignment v;
            mret (bool_decide (ca_assigned_to <$> a = Some userId))
        | _ => mret false
        end;
      if negb contactVisible && negb conversationVisible && negb (filled row.(sm_bulk_job_id))
      then throw (NotFoundError "Scheduled message")
      else
        canceled_at ← toDbDate; updated_at ← toDbDate;
        updated ← update scheduled_messages
          (λ r, bool_decide (r.(sm_id) = id) && bool_decide (r.(sm_status) ∈ [scheduled; failed]))
          (cancel_leaf (Some userId) canceled_at updated_at);
        if (updated =? 0)%nat
        then throw (ValidationError "This message is already being sent and can no longer be canceled")
        else
          match row.(sm_bulk_job_id) with
          | Some (String _ _ as jobId) => _ ← finalizeBulkJobIfComplete companyId jobId; mret tt
          | _ => cleanupScheduledMediaObject companyId row.(sm_media_url)
          end
  end.

(** ** Automatic replies (services/auto-reply.service.ts) *)

Record AutoReplyCandidate := mkCandidate {
  ac_quickReplyId : string; ac_content : jsstring; ac_delayMinutes : Z; ac_updatedBy : string }.

Context `{TimeZone}.

Definition getAutoReplyCandidate (companyId : string) (receivedAt : Z) : M (option AutoReplyCandidate) :=
  setting ← select_first auto_reply_settings (λ r, (r.(ar_id) =? 1)%Z && r.(ar_enabled));
  replies ← select quick_replies (λ _, true);
  match setting with
  | None => mret None
  | Some setting =>
      (* the inner join *)
      match first (λ q, is_id q.(qr_id) setting.(ar_quick_reply_id)) replies with
      | Some reply =>
          if negb (filled (Some reply.(qr_id))) then mret None
          else
            within ←
              (if setting.(ar_outside_business_hours) then
                 policy ← getCurrentSlaPolicy companyId;
                 match isWithinBusinessHours (calendar_of policy) receivedAt with
                 | inr b => mret b
                 | inl _ => throw (OtherError "Malformed SLA calendar data")
                 end
               else mret false);
            mret (if (within : bool) then None
                  else Some (mkCandidate reply.(qr_id) reply.(qr_content) setting.(ar_delay_minutes)
                               setting.(ar_updated_by)))
      | None => mret None
      end
  end.

(** [ON CONFLICT DO NOTHING] on any unique index. *)
Definition scheduleFirstContactAutoReply (contactId triggerMessageId : string)
    (candidate : AutoReplyCandidate) : M unit :=
  previousMessage ← select_first messages (λ r,
    is_id contactId r.(ms_contact_id) && negb (bool_decide (r.(ms_id) = triggerMessageId)));
  if bool_decide (is_Some previousMessage) then mret tt
  else
    scheduledAt ← after_ms (candidate.(ac_delayMinutes) * 60000);
    id ← randomUUID; now ← db_now;
    _ ← insert_on_conflict_nothing scheduled_messages
      (λ r, bool_decide (r.(sm_id) = id) || bool_decide (auto_reply_key r = Some contactId))
      (mkScheduled id (Some contactId) None candidate.(ac_content) "text" None None None None
         scheduledAt scheduled 0 scheduledAt None None candidate.(ac_updatedBy) None None None now now
         None None (Some triggerMessageId) (Some candidate.(ac_quickReplyId)));
    mret tt.

Record UpdateAutoReplySettingsInput := mkAutoReplyInput {
  ui_enabled : bool; ui_quickReplyId : option string; ui_delayMinutes : Z;
  ui_outside_business_hours : bool }.

Definition updateAutoReplySettings (userId : string) (input : UpdateAutoReplySettingsInput) : M unit :=
  _ ← match input.(ui_quickReplyId) with
      | Some (String _ _ as q) =>
          reply ← select_first quick_replies (λ r, bool_decide (r.(qr_id) = q));
          (match reply with None => throw (NotFoundError "Quick reply") | Some _ => mret tt end)
      | _ => mret tt
      end;
  transaction (
    let setting := mkAutoReply 1 input.(ui_enabled) input.(ui_quickReplyId) input.(ui_delayMinutes)
                     input.(ui_outside_business_hours) userId in
    _ ← insert_on_conflict_update auto_reply_settings (λ r, (r.(ar_id) =? 1)%Z) (λ _, setting) setting;
    canceled_at ← toDbDate; updated_at ← toDbDate;
    _ ← update scheduled_messages
      (λ r, bool_decide (is_Some r.(sm_auto_reply_trigger_message_id))
            && bool_decide (r.(sm_status) ∈ [scheduled; processing]))
      (cancel_leaf None canceled_at updated_at);
    mret tt).
End routes.
