(* ===== verification/Around.v ===== *)
(** The services around scheduled_messages.

    [Around R] says that the relation [R] of the tables before and after allows any
    write to the other tables that the dispatcher touches; the services that only
    read are steady for every preorder, the others for every such relation. *)

From S2P Require Import Prelude Js TenantDb SpineDb Exec Steady Workflow Fanout Cases SendAccess Calendar Media Outbound Bulk Scheduled.

Class Around (R : tables → tables → Prop) : Prop := {
  around_preorder :: PreOrder R;
  around_cases :: Frame R cases;
  around_states :: Frame R states;
  around_assignments :: Frame R assignments;
  around_messages :: Frame R messages;
  around_conversations :: Frame R conversations;
  around_fanout :: Frame R channel_message_delivery_outbox;
  around_bulk_jobs :: Frame R bulk_jobs;
  around_command_outbox :: Frame R command_outbox;
  around_intents :: Frame R outbound_message_intents;
  around_auto_reply_settings :: Frame R auto_reply_settings;
  around_deleted_media :: Frame R deleted_media }.
#[export] Hint Extern 5 (Around _) => apply _ : steady.

(** ** Services that only read *)

Section reading.
Context `{Oracle} `{Storage} `{TimeZone} (driver_message : err → string).
Context (R : tables → tables → Prop) `{!PreOrder R}.

Lemma steady_lockContact c : steady R (lockContact c).
Proof using PreOrder0. unfold lockContact. steady. Qed.
#[local] Hint Resolve steady_lockContact : steady.
Lemma steady_lockConversation v : steady R (lockConversation v).
Proof using PreOrder0. unfold lockConversation. steady. Qed.
#[local] Hint Resolve steady_lockConversation : steady.
Lemma steady_active_case c : steady R (resolveActiveCaseIdForContact c).
Proof using PreOrder0. unfold resolveActiveCaseIdForContact. steady. Qed.
#[local] Hint Resolve steady_active_case : steady.
Lemma steady_active_case_conversation v : steady R (resolveActiveCaseIdForConversation v).
Proof using PreOrder0. unfold resolveActiveCaseIdForConversation. steady. Qed.
#[local] Hint Resolve steady_active_case_conversation : steady.
Lemma steady_permanent_refusal m : steady R m → steady R (permanent_refusal driver_message m).
Proof using PreOrder0. intros Hm. unfold permanent_refusal. steady. Qed.
#[local] Hint Resolve steady_permanent_refusal : steady.
Lemma steady_check_media c u : steady R (check_media c u).
Proof using PreOrder0. unfold check_media. steady. Qed.
#[local] Hint Resolve steady_check_media : steady.
Lemma steady_policy co : steady R (getCurrentSlaPolicy co).
Proof using PreOrder0. unfold getCurrentSlaPolicy. steady. Qed.
#[local] Hint Resolve steady_policy : steady.
Lemma steady_auto_reply_case co c row m : steady R (auto_reply_case co c row m).
Proof using PreOrder0. unfold auto_reply_case. steady. Qed.
#[local] Hint Resolve steady_auto_reply_case : steady.
Lemma steady_after_ms z : steady R (after_ms z).
Proof using PreOrder0. unfold after_ms. steady. Qed.
#[local] Hint Resolve steady_after_ms : steady.
Lemma steady_progress j : steady R (getBulkJobProgress j).
Proof using PreOrder0. unfold getBulkJobProgress. steady. Qed.
#[local] Hint Resolve steady_progress : steady.
Lemma steady_reserve co l : steady R (reserveMediaReferences co l).
Proof using PreOrder0. unfold reserveMediaReferences, findMediaDeletionIntents. steady. Qed.
#[local] Hint Resolve steady_reserve : steady.
Lemma steady_resolve_audience sha a : steady R (resolveBulkAudience sha a).
Proof using PreOrder0. unfold resolveBulkAudience. steady. Qed.
#[local] Hint Resolve steady_resolve_audience : steady.
Lemma steady_replay j params : steady R (replayOrConflict j params).
Proof using PreOrder0. unfold replayOrConflict. steady. Qed.
#[local] Hint Resolve steady_replay : steady.
Lemma steady_find_job k : steady R (findJobByIdempotencyKey k).
Proof using PreOrder0. unfold findJobByIdempotencyKey. steady. Qed.
#[local] Hint Resolve steady_find_job : steady.
Lemma steady_check_reply q c v : steady R (check_reply q c v).
Proof using PreOrder0. unfold check_reply. steady. Qed.
#[local] Hint Resolve steady_check_reply : steady.
Lemma steady_schedule_media co body : steady R (schedule_media co body).
Proof using PreOrder0. unfold schedule_media. steady. Qed.
#[local] Hint Resolve steady_schedule_media : steady.
End reading.
#[export] Hint Resolve steady_lockContact steady_lockConversation steady_active_case steady_active_case_conversation steady_check_media steady_policy steady_auto_reply_case steady_after_ms steady_progress steady_reserve steady_resolve_audience steady_replay steady_find_job steady_check_reply steady_schedule_media : steady.

(** ** Services that write other tables *)

Section around.
Context `{Oracle} `{Storage} `{TimeZone} (driver_message : err → string).
Context (R : tables → tables → Prop) `{!Around R}.

Lemma steady_try_deleteMedia u c : steady R (try_deleteMedia u c).
Proof using Around0. unfold try_deleteMedia. steady. Qed.
#[local] Hint Resolve steady_try_deleteMedia : steady.
Lemma steady_cleanup c u : steady R (cleanupScheduledMediaObject c u).
Proof using Around0. unfold cleanupScheduledMediaObject. steady. Qed.
#[local] Hint Resolve steady_cleanup : steady.
Lemma steady_requireSendAccess c u claim : steady R (requireSendAccess c u claim).
Proof using Around0.
  unfold requireSendAccess, getCurrentAssignment, assert_owner, assignContactToUser, unassignContact,
    conversationIdForContact, insert_assignment, requireActiveCaseForSend. steady.
Qed.
#[local] Hint Resolve steady_requireSendAccess : steady.
Lemma steady_requireConversationSendAccess v u claim : steady R (requireConversationSendAccess v u claim).
Proof using Around0.
  unfold requireConversationSendAccess, getCurrentConversationAssignment, assert_owner,
    assignConversationToUser, unassignConversation, insert_assignment,
    requireActiveCaseForConversationSend. steady.
Qed.
#[local] Hint Resolve steady_requireConversationSendAccess : steady.
Lemma steady_neutral input : steady R (insertNeutralOutboundSend input).
Proof using Around0.
  unfold insertNeutralOutboundSend, insert_message, enqueueOutboundRealtimeFanout,
    recordOutboundConversationActivity. cbv zeta. steady.
Qed.
#[local] Hint Resolve steady_neutral : steady.
Lemma steady_dispatch_case co c row : steady R (dispatch_case driver_message co c row).
Proof using Around0. unfold dispatch_case. steady. all: apply steady_permanent_refusal; steady. Qed.
#[local] Hint Resolve steady_dispatch_case : steady.
Lemma steady_stamp_completed j z z' : steady R (stamp_completed j z z').
Proof using Around0. unfold stamp_completed. steady. Qed.
#[local] Hint Resolve steady_stamp_completed : steady.
Lemma steady_cleanup_job co j u : steady R (cleanupBulkJobMediaObject co j u).
Proof using Around0. unfold cleanupBulkJobMediaObject. steady. Qed.
#[local] Hint Resolve steady_cleanup_job : steady.
Lemma steady_finalize co j : steady R (finalizeBulkJobIfComplete co j).
Proof using Around0. unfold finalizeBulkJobIfComplete. steady. Qed.
#[local] Hint Resolve steady_finalize : steady.
Lemma steady_mark_running j : steady R (markBulkJobRunning j).
Proof using Around0. unfold markBulkJobRunning. steady. Qed.
#[local] Hint Resolve steady_mark_running : steady.
End around.
#[export] Hint Resolve steady_try_deleteMedia steady_cleanup steady_requireSendAccess steady_requireConversationSendAccess steady_neutral steady_dispatch_case steady_stamp_completed steady_cleanup_job steady_finalize steady_mark_running : steady.
