(* ===== verification/ScheduledMoves.v ===== *)
(** How the rows of scheduled_messages may change.

    [moves] is the life of one row: a live row (scheduled or processing) may reach
    any status, a failed one may still be canceled, and a sent, canceled or skipped
    one is final.  Every service is [steady] for [evolved]: it only moves rows along
    that life and appends fresh ones. *)

From S2P Require Import Prelude Js TenantDb Exec Steady Workflow Cases SendAccess Calendar Media Outbound Bulk Scheduled Around.

(** ** The life of a row *)

Definition reach (a b : sched_status) : bool :=
  match a with
  | scheduled | processing => true
  | failed => bool_decide (b ∈ [failed; canceled])
  | _ => bool_decide (b = a)
  end.

(** The columns that no statement of the dispatcher writes. *)
Definition snapshot (r : scheduled_row) :=
  (r.(sm_id), r.(sm_contact_id), r.(sm_conversation_id), r.(sm_content), r.(sm_message_type),
   r.(sm_media_url), r.(sm_created_by), r.(sm_bulk_job_id), r.(sm_auto_reply_trigger_message_id)).

Definition moves (r r' : scheduled_row) : Prop :=
  snapshot r' = snapshot r ∧ reach r.(sm_status) r'.(sm_status) = true
  ∧ (r.(sm_status) = sent → r' = r).

Lemma moves_refl r : moves r r.
Proof. split; [done|]. split; [|done]. by destruct (sm_status r). Qed.

Lemma reach_trans a b c : reach a b = true → reach b c = true → reach a c = true.
Proof. by destruct a, b, c. Qed.

Lemma moves_trans r1 r2 r3 : moves r1 r2 → moves r2 r3 → moves r1 r3.
Proof.
  intros (Hs & Hr & Hf) (Hs' & Hr' & Hf'). split; [congruence|].
  split; [by eapply reach_trans|]. intros H. rewrite Hf' by by rewrite Hf. by apply Hf.
Qed.

Definition evolves (l l' : list scheduled_row) : Prop :=
  ∃ f fresh, l' = (f <$> l) ++ fresh ∧ (∀ r, r ∈ l → moves r (f r)).

Lemma evolves_refl l : evolves l l.
Proof. exists (λ r, r), []. rewrite app_nil_r, list_fmap_id. split; [done|]. intros. apply moves_refl. Qed.

Lemma evolves_trans l1 l2 l3 : evolves l1 l2 → evolves l2 l3 → evolves l1 l3.
Proof.
  intros (f & new & -> & Hf) (g & new' & -> & Hg).
  exists (g ∘ f), ((g <$> new) ++ new'). rewrite fmap_app, list_fmap_compose, app_assoc.
  split; [done|]. intros r Hr. eapply moves_trans; [by apply Hf|]. apply Hg.
  apply elem_of_app. left. by apply list_elem_of_fmap_2.
Qed.

Lemma evolves_update p g l :
  (∀ r, r ∈ l → p r = true → moves r (g r)) → evolves l (update_where p g l).
Proof.
  intros Hg. exists (λ r, if p r then g r else r), []. rewrite app_nil_r. split; [done|].
  intros r Hr. destruct (p r) eqn:Hp; [by apply Hg|apply moves_refl].
Qed.

Lemma evolves_app l new : evolves l (l ++ new).
Proof. exists (λ r, r), new. rewrite list_fmap_id. split; [done|]. intros. apply moves_refl. Qed.

(** A sent row stays as it is. *)
Lemma evolves_sent l l' r : evolves l l' → r ∈ l → r.(sm_status) = sent → r ∈ l'.
Proof.
  intros (f & new & -> & Hf) Hr Hs. destruct (Hf r Hr) as (_ & _ & Hkeep).
  apply elem_of_app. left. apply list_elem_of_fmap. exists r. split; [|done]. by rewrite Hkeep.
Qed.

(** ** The relation of the tables *)

Definition keyed_schedules (t : tables) : Prop := scheduled_constraint (t_scheduled t) = None.

Definition evolved (t t' : tables) : Prop :=
  keyed_schedules t → keyed_schedules t' ∧ evolves (t_scheduled t) (t_scheduled t').

#[export] Instance evolved_preorder : PreOrder evolved.
Proof.
  split.
  - intros t Ht. split; [done|apply evolves_refl].
  - intros t1 t2 t3 H1 H2 Ht. destruct (H1 Ht) as [Ht2 He]. destruct (H2 Ht2) as [Ht3 He'].
    split; [done|]. by eapply evolves_trans.
Qed.

(** What a relation must allow besides for the services below to be steady: moves of
    the rows, and fresh rows.  The update may use that the ids are unique. *)
Class Tolerant (R : tables → tables → Prop) : Prop := {
  tol_around :: Around R;
  tol_update p f t :
    (keyed_schedules t → ∀ r, r ∈ t_scheduled t → p r = true → moves r (f r)) →
    scheduled_constraint (update_where p f (t_scheduled t)) = None →
    R t (set_rows scheduled_messages (update_where p f (t_scheduled t)) t);
  tol_append l t :
    scheduled_constraint (t_scheduled t ++ l) = None →
    R t (set_rows scheduled_messages (t_scheduled t ++ l) t) }.

(** The statements on a table other than scheduled_messages. *)
Lemma evolved_same t t' : t_scheduled t' = t_scheduled t → evolved t t'.
Proof. intros Heq Ht. unfold keyed_schedules. rewrite Heq. split; [done|apply evolves_refl]. Qed.

#[export] Instance evolved_tolerant : Tolerant evolved.
Proof.
  constructor; [constructor; [apply _|intros l t; by apply evolved_same..]|..].
  - intros p f t Hm Hc Ht. split; [exact Hc|]. apply evolves_update. by apply Hm.
  - intros l t Hc Ht. split; [exact Hc|apply evolves_app].
Qed.
#[export] Instance evolved_budgets : Frame evolved bulk_connection_budgets.
Proof. intros l t. by apply evolved_same. Qed.

(** The budgets of the connections stay. *)
Definition same_budgets (t t' : tables) : Prop := t_budgets t' = t_budgets t.
#[export] Instance same_budgets_preorder : PreOrder same_budgets.
Proof. split; [done|]. intros t1 t2 t3 H1 H2. unfold same_budgets in *. congruence. Qed.
#[export] Instance same_budgets_tolerant : Tolerant same_budgets.
Proof. constructor; [constructor; [apply _|intros l t; reflexivity..]|..]; intros; reflexivity. Qed.

Section statements.
Context `{Oracle} (R : tables → tables → Prop) `{!Tolerant R}.

Lemma steady_move_at t p f :
  (keyed_schedules t → ∀ r, r ∈ t_scheduled t → p r = true → moves r (f r)) →
  exec (update scheduled_messages p f) t (λ _ t', R t t') (λ _ t', R t t').
Proof using Tolerant0.
  intros Hf. apply exec_update; [|done]. intros Hc. by apply tol_update.
Qed.
Lemma steady_move_returning p f :
  (∀ r, p r = true → moves r (f r)) → steady R (update_returning scheduled_messages p f).
Proof using Tolerant0.
  intros Hf t. apply exec_update_returning; [|done]. intros Hc. apply tol_update; auto.
Qed.
Lemma steady_move p f : (∀ r, p r = true → moves r (f r)) → steady R (update scheduled_messages p f).
Proof using Tolerant0. intros Hf t. apply steady_move_at. auto. Qed.
Lemma steady_insert_schedule r : steady R (insert_row scheduled_messages r).
Proof using Tolerant0. intros t. apply exec_insert_row; [|done]. apply tol_append. Qed.
Lemma steady_insert_schedules l : steady R (insert_rows scheduled_messages l).
Proof using Tolerant0. intros t. apply exec_insert_rows; [|done]. apply tol_append. Qed.
Lemma steady_insert_schedule_nothing a r : steady R (insert_on_conflict_nothing scheduled_messages a r).
Proof using Tolerant0.
  intros t. apply exec_insert_on_conflict_nothing; [done| |done]. intros _. apply tol_append.
Qed.
End statements.
#[export] Hint Resolve steady_insert_schedule steady_insert_schedules steady_insert_schedule_nothing : steady.
#[export] Hint Extern 5 (Tolerant _) => apply _ : steady.

(** ** The services are steady *)

Lemma fenced_spec i token r :
  fenced i token r = true → r.(sm_id) = i ∧ r.(sm_status) = processing ∧ r.(sm_next_attempt_at) = token.
Proof. unfold fenced. intros H. to_prop. auto. Qed.

(** Rewriting the columns of a live row is a move. *)
Lemma moves_live r st a z n le sid cb ca sa sk u :
  r.(sm_status) ∈ [scheduled; processing] → moves r (sm_update r st a z n le sid cb ca sa sk u).
Proof.
  intros Hs. split; [done|]. split; [|intros H; rewrite H in Hs].
  - apply elem_of_cons in Hs as [->|Hs%list_elem_of_singleton]; [done|by rewrite Hs].
  - by apply elem_of_cons in Hs as [?|?%list_elem_of_singleton].
Qed.

Lemma moves_fenced i token r st a z n le sid cb ca sa sk u :
  fenced i token r = true → moves r (sm_update r st a z n le sid cb ca sa sk u).
Proof. intros (_ & Hs & _)%fenced_spec. apply moves_live. rewrite Hs. set_solver. Qed.

Lemma moves_cancel b z u r :
  r.(sm_status) ∈ [scheduled; failed] → moves r (cancel_leaf b z u r).
Proof.
  intros Hs. split; [done|]. split; [|intros H; rewrite H in Hs].
  - apply elem_of_cons in Hs as [->|Hs%list_elem_of_singleton]; [done|by rewrite Hs].
  - by apply elem_of_cons in Hs as [?|?%list_elem_of_singleton].
Qed.

Lemma moves_move z u r : r.(sm_status) ∈ [scheduled; skipped] → moves r (move_leaf z u r).
Proof.
  intros Hs. split; [done|]. change (sm_status (move_leaf z u r)) with (sm_status r).
  split; [by destruct (sm_status r)|]. intros H. rewrite H in Hs.
  by apply elem_of_cons in Hs as [?|?%list_elem_of_singleton].
Qed.

Lemma schedule_id_unique l a b :
  scheduled_constraint l = None → a ∈ l → b ∈ l → a.(sm_id) = b.(sm_id) → a = b.
Proof.
  intros Hl Ha Hb Hid. unfold scheduled_constraint in Hl. rewrite checks_None in Hl.
  eapply (unique_on_eq (Some ∘ sm_id)); [eapply Hl; left|done|done|done|]. cbn. by rewrite Hid.
Qed.

Section steady_services.
Context `{Oracle} `{Storage} `{TimeZone} (driver_message : err → string).
Context (R : tables → tables → Prop) `{!Tolerant R}.
Context (broadcast : string → sched_status → M unit) (Hbroadcast : ∀ i st, steady R (broadcast i st)).


Lemma steady_markDispatched row m token : steady R (markDispatched row m token).
Proof using Tolerant0.
  unfold markDispatched. steady. apply (steady_move R). intros r Hr.
  by eapply moves_fenced.
Qed.
#[local] Hint Resolve steady_markDispatched : steady.



Lemma steady_channel_transaction co row token v a :
  steady R (channel_transaction driver_message co row token v a).
Proof using Tolerant0. unfold channel_transaction. steady. all: apply steady_permanent_refusal; steady. Qed.
#[local] Hint Resolve steady_channel_transaction : steady.
Lemma steady_channel co row token v :
  steady R (sendScheduledChannelMessage driver_message co row token v).
Proof using Tolerant0. unfold sendScheduledChannelMessage. steady. Qed.
#[local] Hint Resolve steady_channel : steady.


Lemma steady_send_transaction co c row token m se z k q cmd :
  steady R (send_transaction driver_message co c row token m se z k q cmd).
Proof using Tolerant0.
  unfold send_transaction, enqueueCommand, insert_message. steady.
  apply (steady_move R). intros r Hr. by eapply moves_fenced.
Qed.
#[local] Hint Resolve steady_send_transaction : steady.

Lemma steady_send co row token : steady R (sendScheduledMessage driver_message co row token).
Proof using Tolerant0.
  unfold sendScheduledMessage, revalidate_bulk, conversationIdForContact, resolve_quote,
    getActiveSessionId, buildSendMessageCommand. steady.
Qed.
#[local] Hint Resolve steady_send : steady.


Lemma steady_recordDispatchFailure co row token e :
  steady R (recordDispatchFailure driver_message broadcast co row token e).
Proof using Tolerant0 Hbroadcast.
  unfold recordDispatchFailure. steady. apply (steady_move R). intros r Hr. by eapply moves_fenced.
Qed.
Lemma steady_recordBulkSkip row token reason : steady R (recordBulkSkip broadcast row token reason).
Proof using Tolerant0 Hbroadcast.
  unfold recordBulkSkip. steady. apply (steady_move R). intros r Hr. by eapply moves_fenced.
Qed.
#[local] Hint Resolve steady_recordDispatchFailure steady_recordBulkSkip : steady.

Lemma steady_sweep now f reason : steady R (sweep now f reason).
Proof using Tolerant0.
  unfold sweep. steady. apply (steady_move_returning R). intros r Hr. to_prop. by apply moves_live.
Qed.
#[local] Hint Resolve steady_sweep : steady.
Lemma steady_sweeps now : steady R (sweepOrphanedBulkLeaves now).
Proof using Tolerant0. unfold sweepOrphanedBulkLeaves. steady. Qed.


Lemma steady_reschedule j z : steady R (rescheduleBulkJob j z).
Proof using Tolerant0.
  unfold rescheduleBulkJob. steady. apply (steady_move R). intros r Hr. unfold movable in Hr.
  to_prop. by apply moves_move.
Qed.
Lemma steady_cancel_job co j u by_ : steady R (cancelBulkJob co j u by_).
Proof using Tolerant0. unfold cancelBulkJob. steady. apply (steady_move R). intros r Hr. to_prop. by apply moves_cancel. Qed.
Lemma steady_cancel_route co u all i : steady R (cancelScheduled co u all i).
Proof using Tolerant0.
  unfold cancelScheduled, hasContactVisibility, getCurrentConversationAssignment. steady.
  all: apply (steady_move R); intros r Hr; to_prop; by apply moves_cancel.
Qed.
Lemma steady_settings u input : steady R (updateAutoReplySettings u input).
Proof using Tolerant0.
  unfold updateAutoReplySettings. steady. apply (steady_move R). intros r Hr. to_prop. by apply moves_live.
Qed.
Lemma steady_first_contact c m cand : steady R (scheduleFirstContactAutoReply c m cand).
Proof using Tolerant0. unfold scheduleFirstContactAutoReply. steady. Qed.

(** The claims: the claimed rows are live, and no other row has their ids. *)
Lemma steady_claim_batch locked now claimUntil : steady R (claim_batch locked now claimUntil).
Proof using Tolerant0.
  intros t. unfold claim_batch. apply exec_transaction. exec_step. exec_step.
  set (l := take BATCH_SIZE _). assert (Hl : ∀ r, r ∈ l → r ∈ t_scheduled t ∧ due now r = true).
  { intros r Hr. apply elem_of_take_sub in Hr. rewrite merge_sort_Permutation, elem_of_keep in Hr.
    destruct Hr as [Hp Hr]. by to_prop. }
  clearbody l. destruct l as [|c l]; [apply exec_ret; reflexivity|].
  exec_step. exec_step. apply exec_bind. eapply exec_weaken; [apply (steady_move_at R)| |by intros].
  - intros Hk r Hr Hp. to_prop. apply list_elem_of_fmap in Hp as (c' & Hid & Hc').
    destruct (Hl c' Hc') as [Hc Hdue].
    rewrite (schedule_id_unique _ r c' Hk Hr Hc Hid). unfold due in Hdue. to_prop. by apply moves_live.
  - intros n t' Ht. by apply exec_ret.
Qed.

Lemma steady_claim_leaf config `{!Frame R bulk_connection_budgets} locked connectionId now claimUntil n today :
  steady R (claim_leaf config locked connectionId now claimUntil n today).
Proof using Tolerant0.
  intros t. unfold claim_leaf. do 4 exec_step.
  destruct (head _) as [leaf|] eqn:Hleaf; [|apply exec_ret; reflexivity].
  apply head_Some_elem_of in Hleaf. rewrite merge_sort_Permutation, elem_of_keep in Hleaf.
  destruct Hleaf as [Hp Hin]. exec_step. exec_step. apply exec_bind.
  eapply exec_weaken; [apply (steady_move_at R)| |by intros].
  - intros Hk r Hr Hid. to_prop. rewrite (schedule_id_unique _ r leaf Hk Hr Hin) by done.
    unfold due in *. to_prop. by apply moves_live.
  - intros m t' Ht. eapply exec_weaken; [|intros ?? Ht'; etrans; [exact Ht|exact Ht']..].
    cut (steady R (charged_at ← toDbDate;
      _ ← update bulk_connection_budgets (is_connection connectionId)
            (charge_budget (n + 1) today (now + config.(BulkConfig.sendIntervalMs)) charged_at);
      mret (Some leaf))); [intros Hs; apply Hs|]. steady.
Qed.
#[local] Hint Resolve steady_claim_leaf : steady.
Lemma steady_claimBulkLeaf config `{!Frame R bulk_connection_budgets} locked connectionId now claimUntil :
  steady R (claimBulkLeafForConnection config locked connectionId now claimUntil).
Proof using Tolerant0. unfold claimBulkLeafForConnection, current_date. steady. Qed.

(** Creation. *)
Lemma steady_insert_chunks n l : steady R (insert_chunks n l).
Proof using Tolerant0. revert l. induction n as [|n IH]; intros [|r l]; cbn [insert_chunks]; steady. Qed.
#[local] Hint Resolve steady_insert_chunks : steady.
Lemma steady_create_snapshot params resolved now : steady R (create_snapshot params resolved now).
Proof using Tolerant0. unfold create_snapshot, make_leaf. steady. Qed.
#[local] Hint Resolve steady_create_snapshot : steady.
Lemma steady_create_job sha config params : steady R (createBulkJob sha config params).
Proof using Tolerant0. unfold createBulkJob. steady. Qed.
Lemma steady_schedule_message co u body : steady R (scheduleMessage co u body).
Proof using Tolerant0.
  unfold scheduleMessage, resolveWorkflowIdentity, conversationIdForContact. steady.
Qed.
End steady_services.

#[export] Hint Resolve steady_channel_transaction steady_send_transaction steady_send steady_sweeps steady_reschedule steady_cancel_job steady_cancel_route steady_settings steady_first_contact steady_claim_batch steady_claimBulkLeaf steady_create_job steady_schedule_message : steady.
