(* ===== verification/ScheduledRuns.v ===== *)
(** Runs of the scheduled-message subsystem.

    The operations on scheduled_messages as the steps of one system: claims, sends
    (with whatever row, lease and stale reads a slow dispatcher still holds), failures,
    sweeps, cancellations and creations.  A run is a list of them in any order, so
    every interleaving of any number of dispatchers and users is one. *)

From S2P Require Import Prelude Js TenantDb Exec Steady Workflow Cases SendAccess Calendar Media Outbound Bulk Scheduled Around ScheduledMoves.

(** ** Delivery *)

(** Row [i] was waiting before, and has become the message [m]. *)
Definition delivers (i m : string) (t t' : tables) : Prop :=
  keyed_schedules t →
  (∀ r, r ∈ t_scheduled t → r.(sm_id) = i → r.(sm_status) ∈ [scheduled; processing])
  ∧ ∃ r, r ∈ t_scheduled t' ∧ r.(sm_id) = i ∧ r.(sm_status) = sent ∧ r.(sm_sent_message_id) = Some m.

Lemma evolves_moves l l' r r' :
  evolves l l' → scheduled_constraint l' = None → r ∈ l → r' ∈ l' → r.(sm_id) = r'.(sm_id) → moves r r'.
Proof.
  intros (f & new & -> & Hf) Hc Hr Hr' Hid. destruct (Hf r Hr) as [Hs Hm].
  assert (r' = f r) as ->; [|by split].
  apply (schedule_id_unique _ _ _ Hc Hr').
  - apply elem_of_app. left. by apply list_elem_of_fmap_2.
  - assert (Heq := f_equal (λ x, x.1.1.1.1.1.1.1.1) Hs). cbn in Heq. congruence.
Qed.

Lemma evolves_keeps l l' r :
  evolves l l' → r ∈ l → ∃ r', r' ∈ l' ∧ r'.(sm_id) = r.(sm_id) ∧ moves r r'.
Proof.
  intros (f & new & -> & Hf) Hr. exists (f r). split; [|split; [|by apply Hf]].
  - apply elem_of_app. left. by apply list_elem_of_fmap_2.
  - destruct (Hf r Hr) as [Hs _]. exact (f_equal (λ x, x.1.1.1.1.1.1.1.1) Hs).
Qed.

Lemma reach_live a b : reach a b = true → b ∈ [scheduled; processing] → a ∈ [scheduled; processing].
Proof. intros Hr Hb. destruct a, b; try done; set_solver. Qed.

Lemma delivers_later i m t t1 t' : evolved t t1 → delivers i m t1 t' → delivers i m t t'.
Proof.
  intros He Hd Hk. destruct (He Hk) as [Hk1 Hev]. destruct (Hd Hk1) as [Hlive Hsent].
  split; [|exact Hsent]. intros r Hr Hi.
  destruct (evolves_keeps _ _ r Hev Hr) as (r1 & Hr1 & Hi1 & (_ & Hreach & _)).
  eapply reach_live; [exact Hreach|]. apply Hlive; [done|congruence].
Qed.

Section delivering.
Context `{Oracle}.

(** A computation that delivers row [i] when its result names a message. *)
Definition delivering {A} (i : string) (message : A → option string) (c : M A) : Prop :=
  ∀ t, exec c t (λ a t', ∀ m, message a = Some m → delivers i m t t') (λ _ _, True).

Lemma delivering_nothing {A} i (message : A → option string) c :
  (∀ t, exec c t (λ a _, message a = None) (λ _ _, True)) → delivering i message c.
Proof. intros Hc t. eapply exec_weaken; [apply Hc| |done]. intros a t' -> m. done. Qed.

Lemma delivering_ret {A} i (message : A → option string) a :
  message a = None → delivering i message (mret a).
Proof. intros Ha. apply delivering_nothing. intros t. by apply exec_ret. Qed.

Lemma delivering_throw {A} i (message : A → option string) e : delivering i message (throw e).
Proof. intros t. by apply exec_throw. Qed.

Lemma delivering_bind {A B} i (message : B → option string) (c : M A) (k : A → M B) :
  steady evolved c → (∀ a, delivering i message (k a)) → delivering i message (c ≫= k).
Proof.
  intros Hc Hk t. eapply exec_steady_bind; [exact Hc| |done].
  intros a t1 Ht. eapply exec_weaken; [apply Hk| |done].
  intros b t' Hb m Hm. by eapply delivers_later; [|apply Hb].
Qed.

Lemma delivering_tail {A B} i (message : A → option string) (message' : B → option string)
    (c : M A) (f : A → B) :
  delivering i message c → (∀ a m, message' (f a) = Some m → message a = Some m) →
  delivering i message' (a ← c; mret (f a)).
Proof.
  intros Hc Hf t. apply exec_bind. eapply exec_weaken; [apply Hc| |done].
  intros a t' Ha. apply exec_ret. intros m Hm. by apply Ha, Hf.
Qed.

Lemma delivering_transaction {A} i (message : A → option string) (c : M A) :
  delivering i message c → delivering i message (transaction c).
Proof. intros Hc t. by apply exec_transaction. Qed.

(** Marking the row is the delivery. *)
Lemma delivering_mark row m token :
  delivering row.(sm_id) (λ b : bool, if b then Some m else None) (markDispatched row m token).
Proof.
  intros t. unfold markDispatched. exec_steps. apply exec_update; [|done].
  intros Hc. apply exec_ret. intros m'. destruct (_ <? _)%nat eqn:Hn; [|done]. intros [= <-] Hk.
  to_prop. destruct (keep (fenced _ _) _) as [|r l] eqn:Hl; [by cbn in Hn; lia|].
  assert (Hr : r ∈ keep (fenced row.(sm_id) token) (rows scheduled_messages t)) by (rewrite Hl; left).
  rewrite elem_of_keep in Hr. destruct Hr as [Hf Hr].
  destruct (fenced_spec _ _ _ Hf) as (Hi & Hs & _). split.
  - intros r' Hr' Hi'. rewrite (schedule_id_unique _ r' r Hk) by (done || congruence).
    rewrite Hs. set_solver.
  - eexists. split; [apply elem_of_update_where; exists r; split; [exact Hr|reflexivity]|].
    by rewrite Hf.
Qed.
End delivering.

(** Prove a computation delivering through its structure. *)
Ltac delivering_step :=
  lazymatch goal with
  | |- delivering _ _ (mret _) => apply delivering_ret; reflexivity
  | |- delivering _ _ (throw _) => apply delivering_throw
  | |- delivering _ _ (mbind _ ?c) =>
      lazymatch c with
      | context [@channel_transaction] => fail
      | context [@send_transaction] => fail
      | context [@markDispatched] => fail
      | _ => apply delivering_bind; [solve [steady]|intros]
      end
  | |- delivering _ _ (match ?x with _ => _ end) => destruct x
  end.
Ltac delivering := repeat delivering_step; cbv beta iota zeta.

Section sends.
Context `{Oracle} `{Storage} `{TimeZone} (driver_message : err → string).

Lemma delivering_send_transaction co c row token m se z k q cmd :
  delivering row.(sm_id) (λ b : bool, if b then Some m else None)
    (send_transaction driver_message co c row token m se z k q cmd).
Proof.
  unfold send_transaction, insert_message, enqueueCommand. apply delivering_transaction.
  apply delivering_bind; [steady|intros [caseId|]]; cbv beta iota.
  - delivering. intros t. apply exec_bind. eapply exec_weaken; [apply (delivering_mark row m token)| |done].
    intros [] t' Hd; [by apply exec_ret|by apply exec_throw].
  - intros t. repeat exec_step. apply exec_update; [|done]. intros _. by apply exec_ret.
Qed.

Lemma delivering_channel_transaction co row token v a :
  delivering row.(sm_id) Some (channel_transaction driver_message co row token v a).
Proof.
  unfold channel_transaction. apply delivering_transaction.
  apply delivering_bind; [destruct (sm_contact_id row) as [[|]|]; apply steady_permanent_refusal; steady|intros caseId].
  apply delivering_bind; [steady|intros quoted]. apply delivering_bind; [steady|intros m].
  intros t. apply exec_bind. eapply exec_weaken; [apply (delivering_mark row m token)| |done].
  intros [] t' Hd; [|by apply exec_throw]. apply exec_ret. intros m' [= <-]. by apply Hd.
Qed.

Lemma delivering_channel co row token v :
  delivering row.(sm_id) (fmap ds_messageId) (sendScheduledChannelMessage driver_message co row token v).
Proof.
  unfold sendScheduledChannelMessage. delivering.
  eapply delivering_tail; [apply delivering_channel_transaction|].
  intros x m. by destruct (filled _).
Qed.

Lemma delivering_send co row token :
  delivering row.(sm_id) (fmap ds_messageId) (sendScheduledMessage driver_message co row token).
Proof.
  unfold sendScheduledMessage, revalidate_bulk, conversationIdForContact, resolve_quote,
    getActiveSessionId, buildSendMessageCommand.
  delivering; try apply delivering_channel.
  all: eapply delivering_tail; [apply delivering_send_transaction|intros [] m'; done].
Qed.
End sends.

(** ** The system *)

Inductive sched_op :=
| ClaimBatch (locked : scheduled_row → bool) (now claimUntil : Z)
| ClaimLeaf (locked : scheduled_row → bool) (connectionId : string) (now claimUntil : Z)
| Send (row : scheduled_row) (claimToken : Z)
(** The transactions of a send, whatever the reads before them returned. *)
| CommitSend (contactId : string) (row : scheduled_row) (claimToken : Z) (messageId sessionId : string)
    (createdAt : Z) (connection : connection_row) (quoted : option string) (command : send_command)
| CommitChannelSend (row : scheduled_row) (claimToken : Z) (conversationId channelAccountId : string)
| RecordFailure (row : scheduled_row) (claimToken : Z) (error : err)
| RecordSkip (row : scheduled_row) (claimToken : Z) (reason : skip_reason)
| Sweep (now : Z)
| CreateSchedule (userId : string) (body : ScheduleMessageInput)
| CancelSchedule (userId : string) (canViewAllChats : bool) (id : string)
| CreateJob (params : CreateBulkJobParams)
| MarkRunning (jobId : string)
| Reschedule (jobId : string) (scheduledAt : Z)
| CancelJob (jobId : string) (media_url : option string) (canceledBy : string)
| Finalize (jobId : string)
| UpdateAutoReply (userId : string) (input : UpdateAutoReplySettingsInput)
| FirstContact (contactId triggerMessageId : string) (candidate : AutoReplyCandidate).

Section system.
Context `{Oracle} `{Storage} `{TimeZone} (driver_message : err → string).
Context (broadcast : string → sched_status → M unit).
Context (sha256 : jsstring → string) (bulkConfig : BulkConfig.config) (companyId : string).

(** One operation; the result is the row it sent, with the message. *)
Definition run_op (op : sched_op) : M (option (string * string)) :=
  let quiet {A} (c : M A) : M (option (string * string)) := _ ← c; mret None in
  match op with
  | ClaimBatch locked now claimUntil => quiet (claim_batch locked now claimUntil)
  | ClaimLeaf locked connectionId now claimUntil =>
      quiet (claimBulkLeafForConnection bulkConfig locked connectionId now claimUntil)
  | Send row claimToken =>
      result ← sendScheduledMessage driver_message companyId row claimToken;
      mret ((λ d, (row.(sm_id), d.(ds_messageId))) <$> result)
  | CommitSend contactId row claimToken messageId sessionId createdAt connection quoted command =>
      sent ← send_transaction driver_message companyId contactId row claimToken messageId sessionId
               createdAt connection quoted command;
      mret (if (sent : bool) then Some (row.(sm_id), messageId) else None)
  | CommitChannelSend row claimToken conversationId channelAccountId =>
      messageId ← channel_transaction driver_message companyId row claimToken conversationId channelAccountId;
      mret (Some (row.(sm_id), messageId))
  | RecordFailure row claimToken error =>
      quiet (recordDispatchFailure driver_message broadcast companyId row claimToken error)
  | RecordSkip row claimToken reason => quiet (recordBulkSkip broadcast row claimToken reason)
  | Sweep now => quiet (sweepOrphanedBulkLeaves now)
  | CreateSchedule userId body => quiet (scheduleMessage companyId userId body)
  | CancelSchedule userId all id => quiet (cancelScheduled companyId userId all id)
  | CreateJob params => quiet (createBulkJob sha256 bulkConfig params)
  | MarkRunning jobId => quiet (markBulkJobRunning jobId)
  | Reschedule jobId scheduledAt => quiet (rescheduleBulkJob jobId scheduledAt)
  | CancelJob jobId media_url canceledBy => quiet (cancelBulkJob companyId jobId media_url canceledBy)
  | Finalize jobId => quiet (finalizeBulkJobIfComplete companyId jobId)
  | UpdateAutoReply userId input => quiet (updateAutoReplySettings userId input)
  | FirstContact contactId triggerMessageId candidate =>
      quiet (scheduleFirstContactAutoReply contactId triggerMessageId candidate)
  end.

(** A run goes on after an operation that throws; it returns the sends in order. *)
Fixpoint run_ops (ops : list sched_op) (s : db) : list (string * string) * db :=
  match ops with
  | [] => ([], s)
  | op :: ops =>
      let '(r, s1) := run_op op s in
      let '(out, s2) := run_ops ops s1 in
      (match r with Ok (Some x) => x :: out | _ => out end, s2)
  end.

(** The realtime broadcasts write no table. *)
Context (Hbroadcast : ∀ i st, reads (broadcast i st)).

Definition claims_leaf (op : sched_op) : bool :=
  match op with ClaimLeaf _ _ _ _ => true | _ => false end.

(** Only the claim of a leaf writes the budgets of the connections. *)
Lemma steady_run_other R `{!Tolerant R} op : claims_leaf op = false → steady R (run_op op).
Proof using Hbroadcast.
  intros Hop. assert (Hb : ∀ i st, steady R (broadcast i st)).
  { intros i st. apply steady_reads; [apply _|]. intros t. by apply exec_reads. }
  destruct op; try discriminate Hop; unfold run_op; steady; first
    [by apply steady_recordDispatchFailure|by apply steady_recordBulkSkip].
Qed.

Lemma steady_run_op R `{!Tolerant R} `{!Frame R bulk_connection_budgets} op : steady R (run_op op).
Proof using Hbroadcast.
  destruct (claims_leaf op) eqn:Hop; [|by apply steady_run_other].
  destruct op; try discriminate Hop. unfold run_op. steady.
Qed.

Lemma run_op_delivers op t :
  exec (run_op op) t (λ out t', ∀ i m, out = Some (i, m) → delivers i m t t') (λ _ _, True).
Proof.
  assert (Hquiet : ∀ A (c : M A),
    exec (_ ← c; mret None) t
      (λ (out : option (string * string)) t', ∀ i m, out = Some (i, m) → delivers i m t t') (λ _ _, True)).
  { intros A c. apply exec_bind. eapply exec_weaken; [apply exec_anything| |done].
    intros a t' _. by apply exec_ret. }
  destruct op; try apply Hquiet; unfold run_op; apply exec_bind.
  - eapply exec_weaken; [apply delivering_send| |done]. intros d t' Hd. apply exec_ret.
    intros i m. destruct d as [d|]; [|done]. intros [= <- <-]. by apply Hd.
  - eapply exec_weaken; [apply delivering_send_transaction| |done]. intros d t' Hd. apply exec_ret.
    intros i m. destruct d; [|done]. intros [= <- <-]. by apply Hd.
  - eapply exec_weaken; [apply delivering_channel_transaction| |done]. intros d t' Hd. apply exec_ret.
    intros i m [= <- <-]. by apply Hd.
Qed.

(** What a run leaves: rows move along their life, and each delivery stands. *)
Lemma run_ops_spec ops s :
  keyed_schedules (tb s) →
  let '(out, s') := run_ops ops s in
  keyed_schedules (tb s') ∧ evolves (t_scheduled (tb s)) (t_scheduled (tb s'))
  ∧ NoDup out.*1
  ∧ (∀ r, r ∈ t_scheduled (tb s) → r.(sm_status) ∉ [scheduled; processing] → r.(sm_id) ∉ out.*1)
  ∧ (∀ i m, (i, m) ∈ out → ∃ r, r ∈ t_scheduled (tb s') ∧ r.(sm_id) = i ∧ r.(sm_status) = sent
                                 ∧ r.(sm_sent_message_id) = Some m).
Proof using Hbroadcast.
  revert s. induction ops as [|op ops IH]; intros s Hk; cbn [run_ops].
  { split; [done|]. split; [apply evolves_refl|]. split; [apply NoDup_nil_2|].
    split; intros; [apply not_elem_of_nil|by apply not_elem_of_nil in H2]. }
  assert (Hev := exec_run _ s _ _ (steady_run_op evolved op (tb s))).
  assert (Hdel := exec_run _ s _ _ (run_op_delivers op (tb s))).
  destruct (run_op op s) as [res s1].
  assert (He : evolved (tb s) (tb s1)) by (by destruct res). destruct (He Hk) as [Hk1 He1].
  specialize (IH s1 Hk1). destruct (run_ops ops s1) as [out s2].
  destruct IH as (Hk2 & He2 & Hnd & Hset & Hout).
  assert (Hmoved : ∀ r, r ∈ t_scheduled (tb s) → r.(sm_status) ∉ [scheduled; processing] → r.(sm_id) ∉ out.*1).
  { intros r Hr Hn. destruct (evolves_keeps _ _ r He1 Hr) as (r1 & Hr1 & <- & (_ & Hreach & _)).
    apply Hset; [done|]. intros Hlive. by apply Hn, (reach_live _ _ Hreach). }
  split; [done|]. split; [by eapply evolves_trans|].
  destruct res as [[[i m]|]|e]; [|by repeat split..].
  destruct (Hdel i m eq_refl Hk) as (Hwas & r & Hr & Hi & Hs & Hm). split; [|split].
  - apply NoDup_cons. split; [|done]. cbn. rewrite <- Hi. apply Hset; [done|]. rewrite Hs. set_solver.
  - intros r' Hr' Hn. cbn. apply not_elem_of_cons. split; [|by apply Hmoved].
    intros Heq. by apply Hn, Hwas.
  - intros i' m' [[= -> ->]|Hin]%elem_of_cons; [|by apply Hout].
    exists r. split; [|done]. by eapply evolves_sent.
Qed.
End system.

(** A final row stays in its status and is never sent. *)
Lemma run_ops_final ops s r `{Oracle} `{Storage} `{TimeZone} driver_message broadcast sha256 bulkConfig companyId :
  (∀ i st, reads (broadcast i st)) → keyed_schedules (tb s) →
  r ∈ t_scheduled (tb s) → r.(sm_status) ∈ [canceled; skipped] →
  let '(out, s') := run_ops driver_message broadcast sha256 bulkConfig companyId ops s in
  (r.(sm_id) ∉ out.*1)
  ∧ ∃ r', r' ∈ t_scheduled (tb s') ∧ r'.(sm_id) = r.(sm_id) ∧ r'.(sm_status) = r.(sm_status).
Proof.
  intros Hb Hk Hr Hs.
  assert (Hrun := run_ops_spec driver_message broadcast sha256 bulkConfig companyId Hb ops s Hk).
  destruct (run_ops _ _ _ _ _ ops s) as [out s']. destruct Hrun as (_ & He & _ & Hset & _).
  destruct (evolves_keeps _ _ r He Hr) as (r' & Hr' & Hi & (_ & Hreach & _)).
  split.
  - apply Hset; [done|]. intros Hl. repeat (apply elem_of_cons in Hs as [Hs|Hs]; [rewrite Hs in Hl; set_solver|]).
    by apply not_elem_of_nil in Hs.
  - exists r'. split; [done|]. split; [done|].
    repeat (apply elem_of_cons in Hs as [Hs|Hs]; [rewrite Hs in Hreach |- *; by destruct (sm_status r')|]).
    by apply not_elem_of_nil in Hs.
Qed.

Lemma exec_cancelScheduled `{Oracle} `{Storage} co u all i t :
  exec (cancelScheduled co u all i) t
    (λ _ t', evolved t t' ∧ (keyed_schedules t → ∃ r, r ∈ t_scheduled t' ∧ r.(sm_id) = i ∧ r.(sm_status) = canceled))
    (λ _ t', evolved t t').
Proof.
  apply exec_steady; [apply steady_cancel_route; apply _|].
  unfold cancelScheduled. exec_step. exec_step. exec_step; [|by exec_step].
  apply (exec_steady_bind evolved); [unfold hasContactVisibility; steady| |done]. intros b t1 H1.
  apply (exec_steady_bind evolved); [unfold getCurrentConversationAssignment; steady| |done]. intros b' t2 H2.
  exec_step; [by exec_step|]. do 5 exec_step. apply (exec_update_some scheduled_messages); [|done].
  intros n t3 Hc _ Hn. destruct n as [|n]; [by apply exec_throw|]. cbn [Nat.eqb].
  destruct Hn as (r & Hr & Hp & Hr3); [lia|]. to_prop.
  eapply exec_weaken; [|intros a t' Ha _; exact Ha|done].
  match goal with |- exec ?m _ _ _ => assert (Hs : steady evolved m) end.
  { steady. all: apply steady_cleanup; apply _. }
  eapply exec_weaken; [apply Hs| |done]. intros a t' He. destruct (He Hc) as [_ Hev].
  destruct (evolves_keeps _ _ _ Hev Hr3) as (r' & Hr' & Hi' & (_ & Hreach & _)).
  exists r'. split; [done|]. split; [by rewrite Hi'|]. cbn in Hreach. by destruct (sm_status r').
Qed.

(** ** Properties *)

Section properties.
Context `{Oracle} `{Storage} `{TimeZone} (driver_message : err → string).
Context (broadcast : string → sched_status → M unit) (Hbroadcast : ∀ i st, reads (broadcast i st)).
Context (sha256 : jsstring → string) (bulkConfig : BulkConfig.config) (companyId : string).

(** C29: a scheduled message is sent at most once, whatever dispatchers and users do
    and in whatever order: in any run of claims, sends under any lease (also an
    expired one, also from stale reads), failures, sweeps, cancellations and
    creations, no row is sent twice, a row that was already settled is never sent,
    and every sent row stays sent and names its message. *)
Theorem sent_at_most_once ops s :
  keyed_schedules (tb s) →
  let '(out, s') := run_ops driver_message broadcast sha256 bulkConfig companyId ops s in
  NoDup out.*1
  ∧ (∀ r, r ∈ t_scheduled (tb s) → r.(sm_status) ∉ [scheduled; processing] → r.(sm_id) ∉ out.*1)
  ∧ (∀ i m, (i, m) ∈ out → ∃ r, r ∈ t_scheduled (tb s') ∧ r.(sm_id) = i ∧ r.(sm_status) = sent
                                 ∧ r.(sm_sent_message_id) = Some m).
Proof using Hbroadcast.
  intros Hk.
  assert (Hr := run_ops_spec driver_message broadcast sha256 bulkConfig companyId Hbroadcast ops s Hk).
  destruct (run_ops _ _ _ _ _ ops s) as [out s']. by destruct Hr as (_ & _ & Hr).
Qed.


(** A message whose cancellation was confirmed is never sent afterwards, neither by
    a dispatcher that still holds the row from an earlier claim nor by any later
    operation, and its row stays canceled. *)
Theorem canceled_never_sent userId canViewAllChats id ops s s1 r :
  keyed_schedules (tb s) →
  cancelScheduled companyId userId canViewAllChats id s = (Ok r, s1) →
  let '(out, s') := run_ops driver_message broadcast sha256 bulkConfig companyId ops s1 in
  (id ∉ out.*1) ∧ ∃ r', r' ∈ t_scheduled (tb s') ∧ r'.(sm_id) = id ∧ r'.(sm_status) = canceled.
Proof using Hbroadcast.
  intros Hk Hc.
  assert (Hx := exec_run _ s _ _ (exec_cancelScheduled companyId userId canViewAllChats id (tb s))).
  rewrite Hc in Hx. destruct Hx as [Hev Hr]. destruct (Hev Hk) as [Hk1 _].
  destruct (Hr Hk) as (r1 & Hin & <- & Hs). rewrite <- Hs.
  apply run_ops_final; [done|done|done|]. rewrite Hs. left.
Qed.
End properties.
