(* ===== verification/ScheduledSpec.v ===== *)
(** The contracts of the dispatcher's operations.

    The claim of a batch, the inertness of an outdated lease, the accounting of
    failures, the gate and the effect of a send, and the pacing of bulk sends. *)

From S2P Require Import Prelude Js TenantDb Exec Steady Workflow Cases SendAccess Calendar Media Outbound Bulk Scheduled Around ScheduledMoves ScheduledRuns.

(** ** Claims *)

#[export] Instance scheduled_before_trans : Transitive scheduled_before.
Proof. intros a b c. unfold scheduled_before. lia. Qed.
#[export] Instance scheduled_before_total : Total scheduled_before.
Proof. intros a b. unfold scheduled_before. lia. Qed.

#[export] Instance scheduled_row_eq : EqDecision scheduled_row.
Proof. solve_decision. Defined.

(** An update that keeps the snapshot of a row breaks no constraint. *)
Lemma constraint_snapshot p f l :
  (∀ r, p r = true → snapshot (f r) = snapshot r) →
  scheduled_constraint l = None → scheduled_constraint (update_where p f l) = None.
Proof.
  intros Hf. unfold scheduled_constraint. rewrite !checks_cons. intros (Hu & Hi & Ha & _).
  assert (Hk : ∀ r, p r = true → sm_id (f r) = sm_id r ∧ sm_contact_id (f r) = sm_contact_id r
    ∧ sm_conversation_id (f r) = sm_conversation_id r
    ∧ sm_auto_reply_trigger_message_id (f r) = sm_auto_reply_trigger_message_id r).
  { intros r Hp. specialize (Hf r Hp). unfold snapshot in Hf. by simplify_eq. }
  split_and!; [apply unique_on_update|apply forallb_update|apply unique_on_update|done]; try done.
  - intros r _ Hp. left. cbn. by destruct (Hk r Hp) as [-> _].
  - intros r _ Hr Hp. by destruct (Hk r Hp) as (_ & -> & -> & _).
  - intros r _ Hp. left. unfold auto_reply_key. by destruct (Hk r Hp) as (_ & -> & _ & ->).
Qed.

(** The rows a claim may take. *)
Definition claimable (locked : scheduled_row → bool) (now : Z) (r : scheduled_row) : bool :=
  bool_decide (r.(sm_bulk_job_id) = None) && due now r && negb (locked r).

Record claimed_from (locked : scheduled_row → bool) (now claimUntil : Z) (t : tables)
    (claimed : list scheduled_row) (t' : tables) : Prop := {
  cf_rows : ∀ r, r ∈ claimed → r ∈ t_scheduled t ∧ claimable locked now r = true;
  cf_ids : NoDup (sm_id <$> claimed);
  cf_size : length claimed ≤ BATCH_SIZE;
  cf_order : StronglySorted scheduled_before claimed;
  (** A waiting row is only left out behind a full batch of earlier ones. *)
  cf_first : ∀ r, r ∈ t_scheduled t → claimable locked now r = true → r ∉ claimed →
    length claimed = BATCH_SIZE ∧ ∀ c, c ∈ claimed → scheduled_before c r;
  (** The claimed rows are leased until [claimUntil]; nothing else changes. *)
  cf_tables : ∃ updated_at, t' = set_rows scheduled_messages
    ((λ r, if decide (r ∈ claimed) then claim_row claimUntil updated_at r else r) <$> t_scheduled t) t }.

Section claims.
Context `{Oracle}.

Lemma claim_list locked now t :
  keyed_schedules t →
  let claimed := take BATCH_SIZE (merge_sort scheduled_before (keep (claimable locked now) (t_scheduled t))) in
  (∀ r, r ∈ claimed → r ∈ t_scheduled t ∧ claimable locked now r = true)
  ∧ NoDup (sm_id <$> claimed) ∧ StronglySorted scheduled_before claimed
  ∧ (∀ r, r ∈ t_scheduled t → claimable locked now r = true → r ∉ claimed →
     length claimed = BATCH_SIZE ∧ ∀ c, c ∈ claimed → scheduled_before c r).
Proof.
  intros Hk. set (l := keep _ _). cbv zeta.
  assert (Hperm : merge_sort scheduled_before l ≡ₚ l) by apply merge_sort_Permutation.
  assert (Hsort : StronglySorted scheduled_before (merge_sort scheduled_before l))
    by (apply StronglySorted_merge_sort; apply _).
  revert Hperm Hsort. generalize (merge_sort scheduled_before l). intros q Hperm Hsort.
  assert (Hids : NoDup (sm_id <$> q)).
  { rewrite Hperm. unfold keyed_schedules, scheduled_constraint in Hk. apply checks_cons in Hk as [Hu _].
    unfold unique_on in Hu. apply bool_decide_eq_true in Hu. clear -Hu. subst l. unfold keep.
    induction (t_scheduled t) as [|r l IH]; [apply NoDup_nil_2|]. cbn in Hu.
    apply NoDup_cons in Hu as [Hn Hu]. rewrite filter_cons. case_decide; [|by apply IH].
    cbn. apply NoDup_cons. split; [|by apply IH]. intros Hin. apply Hn.
    apply list_elem_of_fmap in Hin as (r' & Hid & Hr'). apply list_elem_of_filter in Hr' as [_ Hr'].
    apply list_elem_of_omap. exists r'. split; [done|]. cbn. congruence. }
  assert (Hin : ∀ r, r ∈ q ↔ claimable locked now r = true ∧ r ∈ t_scheduled t).
  { intros r. rewrite Hperm. apply elem_of_keep. }
  rewrite <- (take_drop BATCH_SIZE q) in Hsort, Hids. split; [|split; [|split]].
  - intros r Hr%elem_of_take_sub. apply Hin in Hr. tauto.
  - rewrite fmap_app in Hids. by apply NoDup_app in Hids as [Hids _].
  - by apply StronglySorted_app_1_l in Hsort.
  - intros r Hr Hc Hn.
    assert (Hd : r ∈ drop BATCH_SIZE q).
    { assert (Hq : r ∈ q) by by apply Hin. rewrite <- (take_drop BATCH_SIZE q) in Hq.
      by apply elem_of_app in Hq as [?|?]. }
    split.
    + rewrite length_take. destruct (decide (length q ≤ BATCH_SIZE)) as [Hle|]; [|lia].
      rewrite drop_ge in Hd by done. by apply not_elem_of_nil in Hd.
    + intros c Hcl. by eapply StronglySorted_app_1_elem_of.
Qed.

Lemma fmap_decide_update (l q : list scheduled_row) f :
  (∀ a b : scheduled_row, a ∈ l → b ∈ q → a.(sm_id) = b.(sm_id) → a = b) →
  update_where (λ r, bool_decide (r.(sm_id) ∈ (sm_id <$> q))) f l
  = (λ r, if decide (r ∈ q) then f r else r) <$> l.
Proof.
  intros Hu. unfold update_where. apply list_fmap_ext. intros i r Hr.
  apply list_elem_of_lookup_2 in Hr. case_bool_decide as Hid; case_decide as Hq; [done| | |done].
  - apply list_elem_of_fmap in Hid as (c & Hc & Hin). destruct Hq. by rewrite (Hu r c).
  - destruct Hid. by apply list_elem_of_fmap_2.
Qed.

Lemma exec_claim_batch locked now claimUntil t :
  keyed_schedules t →
  exec (claim_batch locked now claimUntil) t (claimed_from locked now claimUntil t) (λ _ _, False).
Proof.
  intros Hk. destruct (claim_list locked now t Hk) as (Hrows & Hids & Hsort & Hfirst).
  unfold claim_batch. apply exec_transaction. exec_step. exec_step.
  change (rows scheduled_messages t) with (t_scheduled t).
  change (keep (λ r, _ && _ && _) (t_scheduled t)) with (keep (claimable locked now) (t_scheduled t)).
  revert Hrows Hids Hsort Hfirst. cbv zeta.
  assert (Hlen := firstn_le_length BATCH_SIZE
    (merge_sort scheduled_before (keep (claimable locked now) (t_scheduled t)))).
  revert Hlen. generalize (take BATCH_SIZE
    (merge_sort scheduled_before (keep (claimable locked now) (t_scheduled t)))).
  intros q Hlen Hrows Hids Hsort Hfirst.
  destruct (decide (q = [])) as [->|Hne].
  - apply exec_ret. split; try done. exists 0%Z.
    destruct t; unfold set_rows, scheduled_messages; cbn. f_equal.
    rewrite <- list_fmap_id at 1. done.
  - replace (match q with [] => mret [] | _ => _ end) with
      (updated_at ← toDbDate;
       _ ← update scheduled_messages (λ r, bool_decide (r.(sm_id) ∈ (sm_id <$> q)))
             (claim_row claimUntil updated_at); mret q) by by destruct q.
    exec_step. exec_step. exec_step. apply exec_update.
    + intros _. apply exec_ret. split; try done. exists z. do 2 f_equal. apply fmap_decide_update.
      intros a b Ha Hb Hab. apply (schedule_id_unique _ _ _ Hk); [done| |done]. by apply Hrows.
    + intros e He. change (constraint scheduled_messages) with scheduled_constraint in He.
      rewrite constraint_snapshot in He; done.
Qed.

(** A claim takes at most 25 rows, each waiting, due and free, the earliest first,
    and leaves out none but behind a full batch; it leases exactly them, changes
    nothing else and cannot fail; until the lease ends, another claim, whatever
    rows it finds locked, takes none of them. *)
Theorem claim_spec locked now claimUntil s :
  keyed_schedules (tb s) →
  ∃ claimed s', claim_batch locked now claimUntil s = (Ok claimed, s')
    ∧ claimed_from locked now claimUntil (tb s) claimed (tb s')
    ∧ ∀ locked' now' claimUntil' s2 claimed' s2',
        tb s2 = tb s' → (now' < claimUntil)%Z →
        claim_batch locked' now' claimUntil' s2 = (Ok claimed', s2') →
        ∀ r r', r ∈ claimed → r' ∈ claimed' → r.(sm_id) ≠ r'.(sm_id).
Proof.
  intros Hk. assert (Hrun := exec_run _ s _ _ (exec_claim_batch locked now claimUntil (tb s) Hk)).
  assert (Hk' := exec_run _ s _ _ (steady_claim_batch evolved locked now claimUntil (tb s))).
  destruct (claim_batch locked now claimUntil s) as [[claimed|e] s']; [|done].
  exists claimed, s'. split; [done|]. split; [done|].
  intros locked' now' claimUntil' s2 claimed' s2' Ht Hlt Hrun2 r r' Hr Hr' Hid.
  destruct (Hk' Hk) as [Hks _].
  assert (H2 := exec_run _ s2 _ _ (exec_claim_batch locked' now' claimUntil' (tb s2) ltac:(by rewrite Ht))).
  rewrite Hrun2 in H2. apply H2 in Hr' as [Hin Hc]. rewrite Ht in Hin.
  destruct (cf_tables _ _ _ _ _ _ Hrun) as [u Hu]. destruct (cf_rows _ _ _ _ _ _ Hrun r Hr) as [Hrin _].
  assert (Hr2 : claim_row claimUntil u r ∈ t_scheduled (tb s')).
  { rewrite Hu. cbn. apply list_elem_of_fmap. exists r. by rewrite decide_True. }
  rewrite (schedule_id_unique _ r' (claim_row claimUntil u r) Hks) in Hc by done.
  unfold claimable, due in Hc. to_prop. cbn in *. lia.
Qed.
End claims.

(** ** Leases *)

Definition same_schedules (t t' : tables) : Prop := t_scheduled t' = t_scheduled t.
#[export] Instance same_schedules_preorder : PreOrder same_schedules.
Proof. split; [done|]. intros t1 t2 t3 H1 H2. unfold same_schedules in *. congruence. Qed.
#[export] Instance same_schedules_around : Around same_schedules.
Proof. constructor; [apply _|intros l t; reflexivity..]. Qed.

(** No row is claimed under this lease. *)
Definition unleased (i : string) (claimToken : Z) (t : tables) : Prop :=
  ∀ r, r ∈ t_scheduled t → fenced i claimToken r = false.

(** The lease under which an operation works. *)
Definition lease_of (op : sched_op) : option (string * Z) :=
  match op with
  | Send row claimToken | CommitSend _ row claimToken _ _ _ _ _ _
  | CommitChannelSend row claimToken _ _ | RecordFailure row claimToken _
  | RecordSkip row claimToken _ => Some (row.(sm_id), claimToken)
  | _ => None
  end.

Section leases.
Context `{Oracle} `{Storage} `{TimeZone} (driver_message : err → string).
Context (broadcast : string → sched_status → M unit).

(** A computation that names no message and leaves the tables as they are. *)
Definition inert {A} (message : A → option string) (t : tables) (c : M A) : Prop :=
  exec c t (λ a t', message a = None ∧ t' = t) (λ _ t', t' = t).

Lemma inert_bind {A B} (message : B → option string) t (c : M A) (k : A → M B) :
  steady unchanged c → (∀ a, inert message t (k a)) → inert message t (c ≫= k).
Proof. intros Hc Hk. eapply exec_steady_bind; [exact Hc|..]; [intros a t1 ->; apply Hk|done]. Qed.

Lemma inert_tail {A B} (message : A → option string) (message' : B → option string) t (c : M A) (f : A → B) :
  inert message t c → (∀ a, message a = None → message' (f a) = None) →
  inert message' t (a ← c; mret (f a)).
Proof.
  intros Hc Hf. apply exec_bind. eapply exec_weaken; [apply Hc| |done].
  intros a t' [Ha ->]. apply exec_ret. auto.
Qed.

Lemma mark_stale row m token t :
  unleased row.(sm_id) token t → inert (λ b : bool, if b then Some m else None) t (markDispatched row m token).
Proof.
  intros Hu. unfold inert, markDispatched. exec_steps.
  apply (exec_update_none scheduled_messages); [done|by apply exec_ret|done].
Qed.

(** An automatic reply is only refused after reading. *)
Lemma exec_dispatch_case co c row t :
  exec (dispatch_case driver_message co c row) t (λ d t', same_schedules t t' ∧ (d = None → t' = t))
    (λ _ t', same_schedules t t').
Proof.
  apply exec_steady; [apply steady_dispatch_case; apply _|]. unfold dispatch_case.
  assert (Hsome : ∀ (d : M (option string)),
    exec (x ← d; mret (Some x)) t (λ d t', d = None → t' = t) (λ _ _, True)).
  { intros d. apply exec_bind. eapply exec_weaken; [apply exec_anything| |done].
    intros a t' _. by apply exec_ret. }
  destruct (filled _); [apply Hsome|].
  assert (Hcase : exec (x ← permanent_refusal driver_message (requireSendAccess c row.(sm_created_by) (Some false));
    mret (Some (Some x))) t (λ (d : option (option string)) t', d = None → t' = t) (λ _ _, True)).
  { apply exec_bind. eapply exec_weaken; [apply exec_anything| |done]. intros a t' _. by apply exec_ret. }
  destruct (sm_auto_reply_trigger_message_id row) as [[|]|]; [exact Hcase| |exact Hcase].
  apply (exec_steady_bind unchanged); [steady| |done]. intros x t1 ->. apply exec_ret. by destruct x.
Qed.

Lemma exec_stale_commit {A} (f : bool → M A) (message : A → option string) row m token t0 t :
  unleased row.(sm_id) token t0 → same_schedules t0 t →
  (∀ t', exec (f false) t' (λ _ _, False) (λ _ _, True)) →
  exec (markDispatched row m token ≫= f) t (λ a t', message a = None ∧ t' = t0) (λ _ _, True).
Proof.
  intros Hu Hs Hf. apply exec_bind. eapply exec_weaken; [apply (mark_stale _ m)|..]; [|intros b t' [Hb ->]|done].
  - intros r. rewrite Hs. apply Hu.
  - destruct b; [done|]. eapply exec_weaken; [apply Hf|done|done].
Qed.

Lemma send_transaction_stale co c row token m se z k q cmd t :
  unleased row.(sm_id) token t →
  inert (λ b : bool, if b then Some m else None) t
    (send_transaction driver_message co c row token m se z k q cmd).
Proof.
  intros Hu. unfold send_transaction, insert_message, enqueueCommand. apply exec_transaction. apply exec_bind.
  eapply exec_weaken; [apply exec_dispatch_case| |done]. intros [caseId|] t1 [Hs Hn].
  - apply (exec_steady_bind same_schedules); [steady|intros _ t2 H2|done].
    apply (exec_steady_bind same_schedules); [steady|intros _ t3 H3|done].
    eapply exec_weaken; [apply (exec_stale_commit _ (λ b : bool, if b then Some m else None) _ _ _ t)|done|done];
      [done|by rewrite Hs, H2, H3|]. intros t'. by apply exec_throw.
  - rewrite Hn by done. repeat exec_step.
    apply (exec_update_none scheduled_messages); [done|by apply exec_ret|done].
Qed.

Lemma channel_transaction_stale co row token v a t :
  unleased row.(sm_id) token t → inert Some t (channel_transaction driver_message co row token v a).
Proof.
  intros Hu. unfold channel_transaction. apply exec_transaction.
  apply (exec_steady_bind same_schedules);
    [destruct (sm_contact_id row) as [[|]|]; apply steady_permanent_refusal; steady|intros c t1 Ht1|done].
  apply (exec_steady_bind same_schedules); [steady|intros q t2 Ht2|done].
  apply (exec_steady_bind same_schedules); [steady|intros m t3 Ht3|done].
  eapply exec_weaken; [apply (exec_stale_commit _ Some _ _ _ t)|done|done];
    [done|by rewrite Ht1, Ht2, Ht3|]. intros t'. by apply exec_throw.
Qed.

Lemma channel_stale co row token v t :
  unleased row.(sm_id) token t →
  inert (fmap ds_messageId) t (sendScheduledChannelMessage driver_message co row token v).
Proof.
  intros Hu. unfold sendScheduledChannelMessage. apply inert_bind; [steady|intros [c|]]; [|by apply exec_throw].
  apply inert_bind; [steady|intros _]. apply inert_bind; [steady|intros z].
  eapply inert_tail; [by apply channel_transaction_stale|done].
Qed.

Ltac inert_step :=
  lazymatch goal with
  | |- inert _ _ (throw _) => by apply exec_throw
  | |- inert _ _ (mbind _ ?c) =>
      lazymatch c with
      | context [@send_transaction] => fail
      | _ => apply inert_bind; [solve [steady]|intros]
      end
  | |- inert _ _ (match ?x with _ => _ end) => destruct x
  end.

Lemma send_stale co row token t :
  unleased row.(sm_id) token t →
  inert (fmap ds_messageId) t (sendScheduledMessage driver_message co row token).
Proof.
  intros Hu. unfold sendScheduledMessage, revalidate_bulk, conversationIdForContact, resolve_quote,
    getActiveSessionId, buildSendMessageCommand.
  repeat inert_step; cbv beta iota zeta; try by apply channel_stale.
  all: eapply inert_tail; [by apply send_transaction_stale|by intros []].
Qed.

(** A dispatcher whose lease on a row has lapsed can do nothing to it: with no row
    claimed under the lease any more (reclaimed by another dispatcher, canceled,
    swept or sent), a send, also from stale reads, and the recording of a failure or
    of a skip leave every table exactly as it was, and no message is reported. *)
Theorem stale_lease_inert sha256 bulkConfig companyId op i claimToken s :
  lease_of op = Some (i, claimToken) → unleased i claimToken (tb s) →
  let '(r, s') := run_op driver_message broadcast sha256 bulkConfig companyId op s in
  tb s' = tb s ∧ ∀ x, r ≠ Ok (Some x).
Proof.
  intros Hop Hu.
  cut (inert (fmap fst) (tb s) (run_op driver_message broadcast sha256 bulkConfig companyId op)).
  { intros Hi. specialize (Hi s eq_refl). destruct (run_op _ _ _ _ _ op s) as [[[x|]|e] s']; naive_solver. }
  destruct op; try done; injection Hop as <- <-; unfold run_op.
  - eapply inert_tail; [by apply send_stale|by intros [d|]].
  - eapply inert_tail; [by apply send_transaction_stale|by intros []].
  - eapply inert_tail; [by apply channel_transaction_stale|done].
  - eapply (inert_tail (λ _, None)); [|done]. unfold recordDispatchFailure, after_ms, inert.
    repeat exec_step. apply (exec_update_none scheduled_messages); [done| |done].
    rewrite andb_false_r. unfold when. repeat exec_step. by split.
  - eapply (inert_tail (λ _, None)); [|done]. unfold recordBulkSkip, inert.
    repeat exec_step. apply (exec_update_none scheduled_messages); [done|by apply exec_ret|done].
Qed.
End leases.

(** ** Failures *)

(** Nothing but the list of deleted objects may grow. *)
Definition only_media (t t' : tables) : Prop := ∃ l, t' = set_rows deleted_media l t.
#[export] Instance only_media_preorder : PreOrder only_media.
Proof.
  split; [intros t; exists (t_deleted_media t); by destruct t|].
  intros t1 t2 t3 [l ->] [l' ->]. by exists l'.
Qed.
#[export] Instance only_media_deleted : Frame only_media deleted_media.
Proof. intros l t. by exists l. Qed.

Lemma retry_delay_bounds a b :
  (1 ≤ a ≤ b)%Z →
  (60000 ≤ getScheduleRetryDelayMs a ≤ getScheduleRetryDelayMs b ∧ getScheduleRetryDelayMs b ≤ 900000)%Z.
Proof.
  intros Hab. unfold getScheduleRetryDelayMs.
  assert (Hm : (2 ^ 1 ≤ 2 ^ Z.min a 5 ≤ 2 ^ Z.min b 5)%Z) by (split; apply Z.pow_le_mono_r; lia). lia.
Qed.

Definition is_permanent (e : err) : bool :=
  match e with PermanentDispatchError _ => true | _ => false end.

Section failures.
Context `{Oracle} `{Storage} `{TimeZone} (driver_message : err → string).
Context (broadcast : string → sched_status → M unit) (Hbroadcast : ∀ i st, reads (broadcast i st)).

(** The fenced row is the only one that a fenced update touches. *)
Lemma fenced_update i token f t r :
  keyed_schedules t → r ∈ t_scheduled t → fenced i token r = true →
  update_where (fenced i token) f (t_scheduled t)
  = (λ x, if decide (x = r) then f x else x) <$> t_scheduled t.
Proof.
  intros Hk Hr Hf. unfold update_where. apply list_fmap_ext. intros n x Hx%list_elem_of_lookup_2.
  case_decide as Heq; [by rewrite Heq, Hf|]. destruct (fenced i token x) eqn:Hx'; [|done].
  destruct Heq. apply (schedule_id_unique _ _ _ Hk); [done..|].
  destruct (fenced_spec _ _ _ Hf) as [-> _]. by destruct (fenced_spec _ _ _ Hx') as [-> _].
Qed.

Lemma steady_media_cleanup co url : steady only_media (cleanupScheduledMediaObject co url).
Proof. unfold cleanupScheduledMediaObject, try_deleteMedia. steady. Qed.

Lemma exec_recordDispatchFailure co row token error t r :
  keyed_schedules t → r ∈ t_scheduled t → fenced row.(sm_id) token r = true →
  let attempts := (row.(sm_attempts) + 1)%Z in
  let final := is_permanent error || (MAX_ATTEMPTS <=? attempts)%Z in
  let post t' := ∃ failed_at updated_at, clock_reading failed_at ∧
    only_media (set_rows scheduled_messages
      ((λ x, if decide (x = r)
             then fail_row final attempts (failed_at + getScheduleRetryDelayMs attempts)
                    (take 2000 (js (error_message driver_message error))) updated_at x
             else x) <$> t_scheduled t) t) t' in
  exec (recordDispatchFailure driver_message broadcast co row token error) t
    (λ b t', b = final ∧ post t') (λ _ t', post t').
Proof using Hbroadcast.
  intros Hk Hr Hf attempts final post. unfold recordDispatchFailure, after_ms.
  do 7 exec_step. apply exec_update.
  - intros _. change (rows scheduled_messages t) with (t_scheduled t).
    rewrite (fenced_update _ _ _ _ r) by done.
    match goal with |- exec ?m ?t' _ _ => assert (Hs : steady only_media m);
      [|eapply exec_weaken; [apply (exec_steady only_media _ _ (λ b _, b = final) Hs)|..]] end.
    { apply steady_bind; [apply _| |intros; steady]. apply steady_when; [apply _|].
      destruct (filled _); [|apply steady_bind; [apply _|apply steady_media_cleanup|intros]];
        (apply steady_reads; [apply _|intros t1; by apply exec_reads]). }
    + apply exec_bind. eapply exec_weaken; [apply exec_anything|intros _ t1 _; by apply exec_ret|done].
    + intros b t1 [Hm Hb]. split; [exact Hb|]. by exists z, z0.
    + intros e t1 Hm. by exists z, z0.
  - intros e He. change (constraint scheduled_messages) with scheduled_constraint in He.
    rewrite constraint_snapshot in He; done.
Qed.

(** Recording a failure under a valid lease writes one row and nothing else but the
    deletion of its media: the attempt is counted, the row is failed for good exactly
    when the error is permanent or the attempt is the tenth, and otherwise waits again
    until the clock's time plus a delay between one and fifteen minutes that never
    shrinks from one attempt to the next. *)
Theorem failure_spec co row token error s r :
  keyed_schedules (tb s) → r ∈ t_scheduled (tb s) → fenced row.(sm_id) token r = true →
  (0 ≤ row.(sm_attempts))%Z →
  let '(res, s') := recordDispatchFailure driver_message broadcast co row token error s in
  let attempts := (row.(sm_attempts) + 1)%Z in
  let final := is_permanent error || (10 <=? attempts)%Z in
  (∀ b, res = Ok b → b = final)
  ∧ ∃ r' failed_at delay,
      only_media (set_rows scheduled_messages
        ((λ x, if decide (x = r) then r' else x) <$> t_scheduled (tb s)) (tb s)) (tb s')
      ∧ snapshot r' = snapshot r ∧ r'.(sm_attempts) = attempts
      ∧ r'.(sm_status) = (if final then failed else scheduled)
      ∧ clock_reading failed_at ∧ r'.(sm_next_attempt_at) = (failed_at + delay)%Z
      ∧ (60000 ≤ delay ≤ 900000)%Z
      ∧ (∀ a, 1 ≤ a ≤ attempts → getScheduleRetryDelayMs a ≤ delay)%Z.
Proof using Hbroadcast.
  intros Hk Hr Hf Ha.
  assert (Hrun := exec_run _ s _ _ (exec_recordDispatchFailure co row token error _ r Hk Hr Hf)).
  destruct (recordDispatchFailure _ _ _ _ _ _ s) as [res s']. cbv zeta in *.
  assert (Hpost : ∃ z u, clock_reading z ∧ only_media (set_rows scheduled_messages
      ((λ x, if decide (x = r)
             then fail_row (is_permanent error || (MAX_ATTEMPTS <=? row.(sm_attempts) + 1)%Z)
                    (row.(sm_attempts) + 1) (z + getScheduleRetryDelayMs (row.(sm_attempts) + 1))
                    (take 2000 (js (error_message driver_message error))) u x
             else x) <$> t_scheduled (tb s)) (tb s)) (tb s'))
    by (destruct res as [b|e]; tauto).
  split; [intros b ->; tauto|]. destruct Hpost as (z & u & Hz & Hm).
  match type of Hm with
  | context [λ x, if decide (x = r) then fail_row ?b ?a ?n ?m u x else x] =>
      exists (fail_row b a n m u r), z, (getScheduleRetryDelayMs a)
  end.
  split; [|split; [reflexivity|split; [reflexivity|]]].
  { refine (eq_ind _ (λ l, only_media (set_rows scheduled_messages l (tb s)) (tb s')) Hm _ _).
    apply list_fmap_ext. intros n x _. case_decide as Hx; [by rewrite Hx|done]. }
  split; [reflexivity|]. split; [done|]. split; [reflexivity|]. split.
  - assert (Hd := retry_delay_bounds (row.(sm_attempts) + 1) (row.(sm_attempts) + 1)). lia.
  - intros a Hle. assert (Hd := retry_delay_bounds a (row.(sm_attempts) + 1)). lia.
Qed.
End failures.
