(* ===== verification/SendSpec.v ===== *)
(** The contract of a scheduled send: who may cause it, and what it writes.

    [sent_under] is the gate (the author's access, a broadcast's recipient, or the
    promise of an automatic reply), [sent_post] the effect; [exec_send] proves that
    sendScheduledMessage does exactly that, or leaves the tables as they were. *)

From S2P Require Import Prelude Js SpineRows TenantDb Exec Steady Workflow Fanout Cases SendAccess Phase Lifecycle LifecycleSpec Calendar Media Outbound Bulk Scheduled Around ScheduledMoves ScheduledSpec.

(** ** The gate *)

Definition unblocked (c : string) (t : tables) : Prop :=
  ∃ r, r ∈ t_contacts t ∧ r.(ct_id) = c ∧ r.(ct_is_blocked) = false.

(** [i] is an active case of the contact. *)
Definition case_now (c i : string) (t : tables) : Prop :=
  ∃ k, k ∈ t_cases t ∧ k.(cc_id) = i ∧ is_active k = true ∧ k.(cc_contact_id) = Some c.

(** The thread a row is addressed to: its contact, or else its conversation (and the
    contact that the conversation bridges). *)
Definition row_thread (row : scheduled_row) (k : thread_kind) (x : string) (t : tables) : Prop :=
  match row.(sm_contact_id) with
  | Some (String _ _ as c) => k = thread_contact ∧ x = c
  | _ => ∃ v, row.(sm_conversation_id) = Some v ∧
      ((is_conversation v t (Some x) ∧ k = thread_contact)
       ∨ (is_conversation v t None ∧ k = thread_conversation ∧ x = v))
  end.

(** What an automatic reply still promises: the same rule is on, nobody answered since
    the trigger, and nothing older is in the contact's history. *)
Record reply_due (row : scheduled_row) (c triggerId i : string) (t : tables) : Prop := {
  rd_unblocked : unblocked c t;
  rd_case : case_now c i t;
  rd_rule : ∃ rule, rule ∈ t_auto_reply t ∧ rule.(ar_enabled) = true
    ∧ rule.(ar_quick_reply_id) = row.(sm_auto_reply_quick_reply_id);
  rd_unanswered : ∃ trigger, trigger ∈ t_messages t ∧ trigger.(ms_id) = triggerId
    ∧ (∀ m, m ∈ t_messages t → m.(ms_contact_id) = row.(sm_contact_id) → m.(ms_from_me) = true →
       (m.(ms_created_at) < trigger.(ms_created_at))%Z)
    ∧ (∀ m, m ∈ t_messages t → m.(ms_contact_id) = row.(sm_contact_id) → m.(ms_id) ≠ triggerId →
       (trigger.(ms_timestamp) ≤ m.(ms_timestamp))%Z) }.

Inductive sent_under (row : scheduled_row) (t : tables) : option string → Prop :=
| under_author k x i st :
    row_thread row k x t → allowed k x row.(sm_created_by) t →
    (k = thread_contact → unblocked x t) → phase_of x t = Live i st →
    sent_under row t (Some i)
| under_broadcast c case :
    filled row.(sm_bulk_job_id) = true → row.(sm_contact_id) = Some c → unblocked c t →
    (∀ i, case = Some i → case_now c i t) → sent_under row t case
| under_reply c triggerId i :
    row.(sm_auto_reply_trigger_message_id) = Some triggerId → row.(sm_contact_id) = Some c →
    reply_due row c triggerId i t → sent_under row t (Some i).

(** ** Reading the gate *)

Section gate.
Context `{Oracle} `{Storage} `{TimeZone} (driver_message : err → string).

(** Without the claim, the guards only read. *)
Lemma steady_access_read R `{!PreOrder R} c u : steady R (requireSendAccess c u (Some false)).
Proof.
  unfold requireSendAccess, getCurrentAssignment, assert_owner, requireActiveCaseForSend.
  cbv zeta. change (default true (Some false)) with false. steady.
Qed.
Lemma steady_conversation_access_read R `{!PreOrder R} v u :
  steady R (requireConversationSendAccess v u (Some false)).
Proof.
  unfold requireConversationSendAccess, getCurrentConversationAssignment, assert_owner,
    requireActiveCaseForConversationSend.
  change (default true (Some false)) with false. steady.
  apply steady_access_read; apply _.
Qed.

Lemma exec_permanent_refusal access t (Q : SendAccess → Prop) :
  steady unchanged access → exec access t (λ a _, Q a) (λ _ _, True) →
  exec (permanent_refusal driver_message access) t (λ i t', t' = t ∧ ∃ a, Q a ∧ i = a.(sa_caseId))
    (λ _ t', t' = t).
Proof.
  intros Hs Ha. unfold permanent_refusal. apply exec_catch, exec_bind.
  eapply exec_weaken; [apply (exec_steady unchanged access t _ Hs Ha)|..]; cbv beta.
  - intros a t' [-> HQ]. apply exec_ret. split; [done|]. by exists a.
  - intros e t' ->. destruct e; by apply exec_throw.
Qed.

Lemma sent_under_access row k x t a t' :
  row_thread row k x t → send_post k x row.(sm_created_by) false t a t' →
  sent_under row t (Some a.(sa_caseId)).
Proof.
  intros Hx Hp. destruct (sp_case _ _ _ _ _ _ _ Hp) as [st Hst].
  apply (under_author row t k x _ st); [done|by eapply sp_allowed| |done].
  by eapply sp_unblocked.
Qed.

Lemma exec_author_contact row c t :
  Inv t → row.(sm_contact_id) = Some c → filled (Some c) = true →
  exec (permanent_refusal driver_message (requireSendAccess c row.(sm_created_by) (Some false))) t
    (λ i t', t' = t ∧ sent_under row t (Some i)) (λ _ t', t' = t).
Proof.
  intros Hi Hc Hf. eapply exec_weaken;
    [apply (exec_permanent_refusal _ _ (λ a, sent_under row t (Some a.(sa_caseId))))|..]; cbv beta.
  - apply steady_access_read; apply _.
  - eapply exec_weaken; [by apply requireSendAccess_exec| |done]. intros a t' Ha.
    apply (sent_under_access row thread_contact c t a t'); [|done].
    unfold row_thread. rewrite Hc. by destruct c.
  - intros i t' (-> & a & Ha & ->). done.
  - done.
Qed.

Lemma exec_author_conversation row v t :
  Inv t → filled row.(sm_contact_id) = false → row.(sm_conversation_id) = Some v →
  exec (permanent_refusal driver_message (requireConversationSendAccess v row.(sm_created_by) (Some false))) t
    (λ i t', t' = t ∧ sent_under row t (Some i)) (λ _ t', t' = t).
Proof.
  intros Hi Hc Hv. eapply exec_weaken;
    [apply (exec_permanent_refusal _ _ (λ a, sent_under row t (Some a.(sa_caseId))))|..]; cbv beta.
  - apply steady_conversation_access_read; apply _.
  - eapply exec_weaken; [by apply requireConversationSendAccess_exec| |done]. intros a t' Ha.
    assert (Hrow : ∀ k x, (∃ v0, row.(sm_conversation_id) = Some v0 ∧
      ((is_conversation v0 t (Some x) ∧ k = thread_contact)
       ∨ (is_conversation v0 t None ∧ k = thread_conversation ∧ x = v0))) → row_thread row k x t).
    { intros k x Hx. unfold row_thread. by destruct (sm_contact_id row) as [[|]|]. }
    destruct Ha as [(c & Hcv & Ha)|[Hcv Ha]]; (eapply sent_under_access; [apply Hrow; exists v|exact Ha]); auto.
  - intros i t' (-> & a & Ha & ->). done.
  - done.
Qed.

Lemma exec_contact_case c t :
  exec (resolveActiveCaseIdForContact c) t (λ case t', t' = t ∧ ∀ i, case = Some i → case_now c i t)
    (λ _ t', t' = t).
Proof.
  unfold resolveActiveCaseIdForContact. apply (exec_steady_bind unchanged); [steady|intros _ t1 ->|done].
  exec_step. exec_step. apply exec_ret. split; [done|]. intros i.
  destruct (first _ _) as [k|] eqn:Hk; [|done]. intros [= <-].
  apply first_Some in Hk as [Hin Hk]. unfold of_contact, is_id in Hk. to_prop. by exists k.
Qed.

(** The two queries of the history. *)
Lemma unanswered row triggerId t trigger :
  first (λ r, bool_decide (r.(ms_id) = triggerId)) (t_messages t) = Some trigger →
  ¬ is_Some (first (λ r, bool_decide (r.(ms_contact_id) = row.(sm_contact_id)) && r.(ms_from_me)
                  && (trigger.(ms_created_at) <=? r.(ms_created_at))%Z) (t_messages t)) →
  ¬ is_Some (first (λ r, bool_decide (r.(ms_contact_id) = row.(sm_contact_id))
          && negb (bool_decide (r.(ms_id) = triggerId))
          && ((r.(ms_timestamp) <? trigger.(ms_timestamp))%Z
              || ((r.(ms_timestamp) =? trigger.(ms_timestamp))%Z
                  && (r.(ms_created_at) <? trigger.(ms_created_at))%Z))) (t_messages t)) →
  ∃ trigger, trigger ∈ t_messages t ∧ trigger.(ms_id) = triggerId
    ∧ (∀ m, m ∈ t_messages t → m.(ms_contact_id) = row.(sm_contact_id) → m.(ms_from_me) = true →
       (m.(ms_created_at) < trigger.(ms_created_at))%Z)
    ∧ (∀ m, m ∈ t_messages t → m.(ms_contact_id) = row.(sm_contact_id) → m.(ms_id) ≠ triggerId →
       (trigger.(ms_timestamp) ≤ m.(ms_timestamp))%Z).
Proof.
  intros [Hin Hid]%first_Some Ha Hp. to_prop. exists trigger. split; [done|]. split; [done|].
  rewrite <- eq_None_not_Some, first_None in Ha, Hp. split; intros m Hm Hc.
  - intros Hme. specialize (Ha m Hm). cbn in Ha. rewrite bool_decide_eq_true_2, Hme in Ha by done.
    cbn in Ha. to_prop. lia.
  - intros Hne. specialize (Hp m Hm). cbn in Hp.
    rewrite bool_decide_eq_true_2, bool_decide_eq_false_2 in Hp by done. cbn in Hp. to_prop. lia.
Qed.

Lemma exec_auto_reply_case co c row triggerId t :
  exec (auto_reply_case co c row triggerId) t
    (λ case t', t' = t ∧ ∀ i, case = Some i → reply_due row c triggerId i t) (λ _ t', t' = t).
Proof.
  eapply exec_weaken; [apply (exec_steady unchanged _ t
    (λ case _, ∀ i, case = Some i → reply_due row c triggerId i t)); [steady|]|done|done].
  unfold auto_reply_case. do 4 exec_step. exec_step. exec_step.
  destruct (first (λ r, bool_decide (ms_id r = triggerId)) _) as [trigger|] eqn:Htrigger.
  2: { do 4 exec_step. apply exec_bind. eapply exec_weaken; [apply exec_anything| |done]. intros case t1 _.
       apply exec_bind. eapply exec_weaken; [apply exec_anything| |done]. intros within t2 _.
       apply exec_ret. intros i. cbn [negb].
       destruct (first (λ r : contact_row, _) _); [|done].
       destruct (first (λ r : auto_reply_row, _) _); [|done]. by rewrite !andb_false_r. }
  do 8 exec_step. apply exec_bind. eapply exec_weaken; [apply exec_contact_case| |done].
  intros case t1 [-> Hcase]. apply exec_bind. eapply exec_weaken; [apply exec_anything| |done].
  intros within t2 _. apply exec_ret. intros i.
  destruct (first (λ r, bool_decide (ct_id r = c)) _) as [ct|] eqn:Hct; [|done].
  destruct (first (λ r, (ar_id r =? 1)%Z) _) as [rule|] eqn:Hrule; [|done].
  destruct (_ && negb within) eqn:Hok; [|done]. intros ->. to_prop.
  apply first_Some in Hct as [Hct ?], Hrule as [Hrule ?]. to_prop.
  split; [by exists ct|by apply Hcase|by exists rule|].
  by eapply unanswered.
Qed.

Lemma exec_dispatch co c row t :
  Inv t → row.(sm_contact_id) = Some c → filled (Some c) = true →
  (filled row.(sm_bulk_job_id) = true → unblocked c t) →
  exec (dispatch_case driver_message co c row) t
    (λ d t', t' = t ∧ (∀ case, d = Some case → sent_under row t case)
             ∧ (d = None → is_Some row.(sm_auto_reply_trigger_message_id)))
    (λ _ t', t' = t).
Proof.
  intros Hi Hc Hf Hb. unfold dispatch_case. destruct (filled (sm_bulk_job_id row)) eqn:Hj.
  - exec_step. eapply exec_weaken; [apply exec_contact_case| |done]. intros case t' [-> Hcase].
    apply exec_ret. split; [done|]. split; [|done]. intros ? [= <-].
    by apply (under_broadcast row t c); [| |apply Hb|].
  - assert (Hauthor : exec (caseId ← permanent_refusal driver_message
        (requireSendAccess c row.(sm_created_by) (Some false)); mret (Some (Some caseId))) t
      (λ d t', t' = t ∧ (∀ case, d = Some case → sent_under row t case)
               ∧ (d = None → is_Some row.(sm_auto_reply_trigger_message_id)))
      (λ _ t', t' = t)).
    { exec_step. eapply exec_weaken; [by apply exec_author_contact| |done]. intros i t' [-> Hs].
      apply exec_ret. split; [done|]. split; [by intros ? [= <-]|done]. }
    destruct (sm_auto_reply_trigger_message_id row) as [[|ch tr]|] eqn:Htr; [exact Hauthor| |exact Hauthor].
    exec_step. eapply exec_weaken; [apply exec_auto_reply_case| |done]. intros case t' [-> Hdue].
    apply exec_ret. split; [done|]. split; [|eauto].
    intros case' Heq. destruct case as [i|]; [|done]. injection Heq as <-.
    apply (under_reply row t c (String ch tr)); auto.
Qed.
End gate.

(** ** The effect *)

Record message_of (row : scheduled_row) (m : string) (case : option string) (msg : message_row) : Prop := {
  mo_id : msg.(ms_id) = m;
  mo_contact : msg.(ms_contact_id) = row.(sm_contact_id);
  mo_content : (msg.(ms_message_type), msg.(ms_content), msg.(ms_media_url))
               = (row.(sm_message_type), row.(sm_content), row.(sm_media_url));
  mo_author : (msg.(ms_from_me), msg.(ms_sent_by_user_id)) = (true, Some row.(sm_created_by));
  mo_status : (msg.(ms_status), msg.(ms_case_id)) = ("pending", case) }.

(** The conversation that a channel's row goes to: its own, or else the one that bridges
    its contact. *)
Definition row_conversation (row : scheduled_row) (v : conversation_row) : Prop :=
  match row.(sm_conversation_id) with
  | Some i => v.(cv_id) = i
  | None => filled row.(sm_contact_id) = true ∧ v.(cv_legacy_contact_id) = row.(sm_contact_id)
  end.

(** The message goes to one transport: as a command for the worker, addressed to the
    contact's own JID, or as an intent of the channel under the row's own key.  With the
    intent the browsers are told and the conversation shows the message. *)
Inductive handed_off (companyId : string) (row : scheduled_row) (m : string) (t : tables) : tables → Prop :=
| by_command k c ct :
    ct ∈ t_contacts t → row.(sm_contact_id) = Some ct.(ct_id) →
    ct.(ct_jid) = Some c.(sd_to) →
    (k.(cm_payload), k.(cm_status)) = (SendMessage c, command_pending) →
    (c.(sd_message_id), c.(sd_type), c.(sd_user_id))
    = (String.append "pending_" m, row.(sm_message_type), row.(sm_created_by)) →
    handed_off companyId row m t (set_rows command_outbox (t_commands t ++ [k]) t)
| by_intent k v occurredAt id updated_at created_at now :
    v ∈ t_conversations t → v.(cv_archived_at) = None → row_conversation row v →
    (k.(it_message_id), k.(it_operation), k.(it_status)) = (Some m, "send", intent_pending) →
    (k.(it_conversation_id), k.(it_channel_account_id)) = (v.(cv_id), v.(cv_channel_account_id)) →
    (k.(it_payload).(np_messageType), k.(it_payload).(np_textContent), k.(it_payload).(np_actorUserId))
    = (Some row.(sm_message_type), Some row.(sm_content), Some row.(sm_created_by)) →
    k.(it_payload).(np_attachment) = filled_or_null row.(sm_media_url) →
    k.(it_idempotency_key) = String.append "scheduled:" row.(sm_id) →
    handed_off companyId row m t
      (set_rows outbound_message_intents (t_intents t ++ [k])
        (show_activity v.(cv_id) row.(sm_contact_id) (Some row.(sm_content)) occurredAt id updated_at created_at now
          (queue_fanout (mkFanout companyId v.(cv_channel_account_id) v.(cv_id) m "realtime") t))).

(** One message, its hand-over and the leased row's status; nothing else changes. *)
Definition sent_post (companyId : string) (row : scheduled_row) (claimToken : Z) (m : string) (t t' : tables) : Prop :=
  ∃ case msg t1 sent_at updated_at r,
    sent_under row t case ∧ message_of row m case msg
    ∧ handed_off companyId row m (set_rows messages (t_messages t ++ [msg]) t) t1
    ∧ r ∈ t_scheduled t ∧ fenced row.(sm_id) claimToken r = true
    ∧ t' = set_rows scheduled_messages
        (update_where (fenced row.(sm_id) claimToken)
           (dispatch_row m (row.(sm_attempts) + 1) sent_at updated_at) (t_scheduled t)) t1.

(** An automatic reply that is no longer due: its leased row is canceled. *)
Definition canceled_post (row : scheduled_row) (claimToken : Z) (t t' : tables) : Prop :=
  is_Some row.(sm_auto_reply_trigger_message_id)
  ∧ ∃ canceled_at updated_at,
      t' = set_rows scheduled_messages
        (update_where (fenced row.(sm_id) claimToken) (cancel_leaf None canceled_at updated_at)
           (t_scheduled t)) t.

Section effect.
Context `{Oracle} `{Storage} `{TimeZone} (driver_message : err → string).

Lemma exec_insert_message f t :
  exec (insert_message f) t (λ _ t', ∃ seq, t' = set_rows messages (t_messages t ++ [f seq]) t) (λ _ _, False).
Proof.
  unfold insert_message. exec_step. exec_step. apply exec_insert_row; [intros _; by eexists|].
  intros e He. discriminate He.
Qed.

Lemma handed_scheduled co row m t t1 : handed_off co row m t t1 → t_scheduled t1 = t_scheduled t.
Proof.
  intros [|]; [done|]. change (t_scheduled (set_rows outbound_message_intents ?l (show_activity ?a ?b ?c ?d ?e ?f ?g ?h ?t)))
    with (t_scheduled t). by apply (queue_frame scheduled_messages).
Qed.

(** The last step of both transactions. *)
Lemma exec_commit {A} co row m token t t1 msg case (f : bool → M A) (Q : A → tables → Prop) E :
  sent_under row t case → message_of row m case msg →
  handed_off co row m (set_rows messages (t_messages t ++ [msg]) t) t1 →
  (∀ t', sent_post co row token m t t' → exec (f true) t' Q E) →
  (∀ t', exec (f false) t' Q E) → (∀ e t', E e t') →
  exec (markDispatched row m token ≫= f) t1 Q E.
Proof.
  intros Hu Hm Ho Ht Hf HE. exec_step. unfold markDispatched. do 5 exec_step. apply exec_update; [|auto].
  intros _. exec_step. destruct (_ <? _)%nat eqn:Hn; [|apply Hf]. apply Ht. to_prop.
  assert (Hsched : t_scheduled t1 = t_scheduled t) by by apply handed_scheduled in Ho.
  change (rows scheduled_messages t1) with (t_scheduled t1) in *. rewrite Hsched in *.
  destruct (keep (fenced _ _) _) as [|r l] eqn:Hl; [by cbn in Hn; lia|].
  assert (Hr : r ∈ keep (fenced row.(sm_id) token) (t_scheduled t)) by (rewrite Hl; left).
  apply elem_of_keep in Hr as [Hfr Hr].
  exists case, msg, t1, z, z0, r. by do 5 (split; [done|]).
Qed.

Lemma exec_send_transaction co c ct row token m se createdAt k q cmd t :
  Inv t → row.(sm_contact_id) = Some c → filled (Some c) = true →
  (filled row.(sm_bulk_job_id) = true → unblocked c t) →
  ct ∈ t_contacts t → ct.(ct_id) = c → ct.(ct_jid) = Some cmd.(sd_to) →
  (cmd.(sd_message_id), cmd.(sd_type), cmd.(sd_user_id))
    = (String.append "pending_" m, row.(sm_message_type), row.(sm_created_by)) →
  exec (send_transaction driver_message co c row token m se createdAt k q cmd) t
    (λ b t', if b then sent_post co row token m t t' else canceled_post row token t t') (λ _ t', t' = t).
Proof.
  intros Hi Hc Hf Hb Hct Hid Hjid Hcmd. unfold send_transaction. apply exec_transaction. exec_step.
  eapply exec_weaken; [by apply (exec_dispatch driver_message co c row)| |done].
  intros [case|] t0 (-> & Hu & Ha).
  - exec_step. eapply exec_weaken; [apply exec_insert_message| |done]. intros _ t1 [seq ->].
    unfold enqueueCommand. do 6 exec_step. apply exec_insert_row; [intros _|done]. exec_step.
    eapply exec_commit; [by apply Hu|shelve| | |intros t'; by apply exec_throw|done].
    + eapply (by_command _ _ _ _ _ cmd ct); [done|by rewrite Hid|done|done|done].
    + intros t' Ht'. by apply exec_ret.
  - do 5 exec_step. apply exec_update; [|done]. intros _. apply exec_ret. split; [by apply Ha|].
    by exists z, z0.
  Unshelve. by constructor.
Qed.

Lemma exec_neutral input t :
  exec (insertNeutralOutboundSend input) t
    (λ m t', drawn_uuid m ∧ ∃ msg k at_ id updated_at created_at now,
      t' = set_rows outbound_message_intents (t_intents t ++ [k])
             (show_activity input.(ns_conversationId) input.(ns_contactId) (Some input.(ns_content)) at_ id
                updated_at created_at now
                (queue_fanout (mkFanout input.(ns_companyId) input.(ns_channelAccountId)
                   input.(ns_conversationId) m "realtime") (set_rows messages (t_messages t ++ [msg]) t)))
      ∧ msg.(ms_id) = m ∧ msg.(ms_contact_id) = input.(ns_contactId)
      ∧ (msg.(ms_message_type), msg.(ms_content), msg.(ms_media_url))
        = (input.(ns_messageType), input.(ns_content), input.(ns_mediaUrl))
      ∧ (msg.(ms_from_me), msg.(ms_sent_by_user_id)) = (true, Some input.(ns_actorUserId))
      ∧ (msg.(ms_status), msg.(ms_case_id)) = ("pending", input.(ns_caseId))
      ∧ (k.(it_message_id), k.(it_operation), k.(it_status)) = (Some m, "send", intent_pending)
      ∧ (k.(it_conversation_id), k.(it_channel_account_id)) = (input.(ns_conversationId), input.(ns_channelAccountId))
      ∧ (k.(it_payload).(np_messageType), k.(it_payload).(np_textContent), k.(it_payload).(np_actorUserId))
        = (Some input.(ns_messageType), Some input.(ns_content), Some input.(ns_actorUserId))
      ∧ k.(it_payload).(np_attachment) = filled_or_null input.(ns_mediaUrl)
      ∧ k.(it_idempotency_key) = input.(ns_idempotencyKey))
    (λ _ _, True).
Proof.
  unfold insertNeutralOutboundSend. do 7 exec_step. eapply exec_weaken; [apply exec_insert_message| |done].
  intros _ t1 [seq ->]. exec_step. eapply exec_weaken; [apply exec_enqueue_fanout| |done]. intros _ t2 ->.
  exec_step. exec_step. exec_step. eapply exec_weaken; [apply exec_activity| |done].
  intros _ t3 (id & upd & created & now & ->). do 5 exec_step. apply exec_insert_row; [intros _|done].
  apply exec_ret. split; [done|]. do 2 eexists. exists z1, id, upd, created, now. split.
  - match goal with |- set_rows _ (rows _ (show_activity _ _ _ _ _ _ _ _ (queue_fanout _ ?t1)) ++ _) _ = _ =>
      change (rows outbound_message_intents (show_activity ?a ?b ?c ?d ?e ?f ?g ?h ?t)) with (rows outbound_message_intents t);
      rewrite (queue_frame outbound_message_intents _ t1) by done
    end. reflexivity.
  - by cbn.
Qed.

(** The promises of the row's gate that a channel's transaction checks. *)
Lemma exec_author row v t :
  Inv t → filled row.(sm_contact_id) = true ∨ row.(sm_conversation_id) = Some v →
  exec (permanent_refusal driver_message
      (match row.(sm_contact_id) with
       | Some (String _ _ as c) => requireSendAccess c row.(sm_created_by) (Some false)
       | _ => requireConversationSendAccess v row.(sm_created_by) (Some false)
       end)) t
    (λ i t', t' = t ∧ sent_under row t (Some i)) (λ _ t', t' = t).
Proof.
  intros Hi Hv. destruct (sm_contact_id row) as [[|ch c]|] eqn:Hc.
  - destruct Hv as [[=]|Hv]. apply (exec_author_conversation driver_message); [done|by rewrite Hc|done].
  - by apply (exec_author_contact driver_message).
  - destruct Hv as [[=]|Hv]. apply (exec_author_conversation driver_message); [done|by rewrite Hc|done].
Qed.

Lemma exec_channel_transaction co row token v t :
  Inv t → v ∈ t_conversations t → v.(cv_archived_at) = None → row_conversation row v →
  exec (channel_transaction driver_message co row token v.(cv_id) v.(cv_channel_account_id)) t
    (λ m t', drawn_uuid m ∧ sent_post co row token m t t') (λ _ t', t' = t).
Proof.
  intros Hi Hv Ha Hr. unfold channel_transaction. exec_step. exec_step.
  eapply exec_weaken; [apply (exec_author row v.(cv_id)); [done|]| |done].
  { unfold row_conversation in Hr. destruct (sm_conversation_id row); [right; by f_equal|left; by destruct Hr]. }
  intros i t0 [-> Hu]. apply (exec_steady_bind unchanged); [steady|intros reply t1 ->|done].
  exec_step. eapply exec_weaken; [apply exec_neutral| |done]. cbv beta.
  intros m t1 (Hm & msg & k & at_ & id & upd & created & now & -> & ? & ? & ? & ? & ? & ? & ? & ? & ? & ?).
  eapply (exec_commit co row m token t _ msg (Some i)); [done|by constructor
    |by apply (by_intent co row m (set_rows messages (t_messages t ++ [msg]) t) k v at_ id upd created now)| |intros t'; by apply exec_throw|done].
  intros t' Ht'. by apply exec_ret.
Qed.

(** The id of the row's conversation. *)
Definition addressed (row : scheduled_row) (i : string) (t : tables) : Prop :=
  row.(sm_conversation_id) = Some i
  ∨ row.(sm_conversation_id) = None ∧ filled row.(sm_contact_id) = true
    ∧ ∃ w, w ∈ t_conversations t ∧ w.(cv_id) = i ∧ w.(cv_legacy_contact_id) = row.(sm_contact_id).

Lemma addressed_conversation row v t :
  Inv t → v ∈ t_conversations t → addressed row v.(cv_id) t → row_conversation row v.
Proof.
  intros Hi Hv. unfold row_conversation. intros [->|(-> & Hf & w & Hw & Hid & Hl)]; [done|]. split; [done|].
  by rewrite (dir_conversation_ids t (inv_directory t Hi) v w Hv Hw).
Qed.

Lemma exec_channel co row token i t :
  Inv t → addressed row i t → (∀ u, drawn_uuid u → filled (Some u) = true) →
  exec (sendScheduledChannelMessage driver_message co row token i) t
    (λ d t', ∃ m w, d = Some (mkDispatch m w) ∧ sent_post co row token m t t') (λ _ t', t' = t).
Proof.
  intros Hi Hr Hu. unfold sendScheduledChannelMessage. exec_step. exec_step.
  destruct (first _ _) as [v|] eqn:Hv; [|by apply exec_throw]. apply first_Some in Hv as [Hv Hp]. to_prop. subst i.
  apply (exec_steady_bind unchanged); [steady|intros _ t1 ->|done]. exec_step. exec_step. exec_step.
  eapply exec_weaken; [apply exec_channel_transaction; [done..|by eapply addressed_conversation]| |done].
  intros m t' [Hm Hp]. apply exec_ret. rewrite (Hu m Hm). eauto.
Qed.

Lemma exec_bridging c t :
  exec (conversationIdForContact c) t
    (λ i t', t' = t ∧ ∀ v, i = Some v →
       ∃ w, w ∈ t_conversations t ∧ w.(cv_id) = v ∧ w.(cv_legacy_contact_id) = Some c) (λ _ _, False).
Proof.
  unfold conversationIdForContact. do 3 exec_step. split; [done|]. change (rows conversations t) with (t_conversations t).
  intros v. destruct (first _ _) as [w|] eqn:Hw; [|done]. intros [= <-].
  apply first_Some in Hw as [Hw Hp]. unfold is_id in Hp. to_prop. eauto.
Qed.

Lemma exec_revalidate row contact t :
  exec (revalidate_bulk row contact) t
    (λ _ t', t' = t ∧ (filled row.(sm_bulk_job_id) = true →
                       ∀ ct, contact = Some ct → ct.(ct_is_blocked) = false))
    (λ _ t', t' = t).
Proof.
  eapply exec_weaken; [apply (exec_steady unchanged _ t (λ _ _, filled row.(sm_bulk_job_id) = true →
    ∀ ct, contact = Some ct → ct.(ct_is_blocked) = false)); [unfold revalidate_bulk; steady|]|done|done].
  unfold revalidate_bulk. destruct (sm_bulk_job_id row) as [[|x j]|]; [by exec_step| |by exec_step].
  destruct contact as [ct|]; [|by exec_step]. destruct (negb (truthy (ct_jid ct))); [by exec_step|].
  destruct (ct_is_blocked ct) eqn:Hb; [by exec_step|].
  eapply exec_weaken; [apply exec_anything| |done]. intros _ t1 _ _ ct' [= <-]. done.
Qed.

Lemma exec_command co se jid content ty user m u q qs t :
  exec (buildSendMessageCommand co se jid content ty user m u q qs) t
    (λ k t', t' = t ∧ k.(sd_to) = jid ∧ (k.(sd_message_id), k.(sd_type), k.(sd_user_id)) = (m, ty, user))
    (λ _ t', t' = t).
Proof. unfold buildSendMessageCommand. cbv zeta. by exec_steps. Qed.

(** The linked device of a contact. *)
Lemma exec_device co row token c ct jid w t :
  Inv t → row.(sm_contact_id) = Some c → filled (Some c) = true →
  (filled row.(sm_bulk_job_id) = true → ct.(ct_is_blocked) = false) →
  ct ∈ t_contacts t → ct.(ct_id) = c → ct.(ct_jid) = Some jid →
  exec (quote ← resolve_quote row c jid w;
        _ ← check_media co row.(sm_media_url);
        messageId ← randomUUID;
        createdAt ← toDbDate;
        sessionId ← getActiveSessionId w.(wc_id);
        sendCommand ← buildSendMessageCommand co sessionId jid row.(sm_content)
          row.(sm_message_type) row.(sm_created_by) (String.append "pending_" messageId)
          (filled_or_null row.(sm_media_url)) quote.1 quote.2;
        shouldBroadcast ← send_transaction driver_message co c row token messageId
          sessionId createdAt w (filled_or_null quote.1) sendCommand;
        mret (if (shouldBroadcast : bool) then Some (mkDispatch messageId w.(wc_id)) else None)) t
    (λ d t', match d with
             | Some d => sent_post co row token d.(ds_messageId) t t'
             | None => canceled_post row token t t'
             end)
    (λ _ t', t' = t).
Proof.
  intros Hi Hc Hf Hb Hct Hid Hjid.
  apply (exec_steady_bind unchanged); [unfold resolve_quote; steady|intros quote t1 ->|done].
  apply (exec_steady_bind unchanged); [steady|intros _ t1 ->|done]. do 4 exec_step.
  apply (exec_steady_bind unchanged); [unfold getActiveSessionId; steady|intros se t1 ->|done].
  exec_step. eapply exec_weaken; [apply exec_command| |done]. intros k t1 (-> & Hto & Hk).
  exec_step. eapply exec_weaken; [apply (exec_send_transaction co c ct)| |done]; try done.
  - intros Hj. exists ct. by rewrite Hb.
  - by rewrite Hto.
  - intros [] t' Hp; by apply exec_ret.
Qed.

Lemma exec_send co row token t :
  Inv t → (∀ u, drawn_uuid u → filled (Some u) = true) →
  exec (sendScheduledMessage driver_message co row token) t
    (λ d t', match d with
             | Some d => sent_post co row token d.(ds_messageId) t t'
             | None => canceled_post row token t t'
             end)
    (λ _ t', t' = t).
Proof.
  intros Hi Hu. unfold sendScheduledMessage.
  assert (Hchannel : ∀ v, addressed row v t →
    exec (sendScheduledChannelMessage driver_message co row token v) t
      (λ d t', match d with
               | Some d => sent_post co row token d.(ds_messageId) t t'
               | None => canceled_post row token t t'
               end) (λ _ t', t' = t)).
  { intros v Hv. eapply exec_weaken; [by apply exec_channel| |done]. by intros d t' (m & w & -> & Hp). }
  destruct (sm_contact_id row) as [[|ch c]|] eqn:Hc.
  1, 3: destruct (sm_conversation_id row) as [[|x v]|] eqn:Hv; [by exec_step| |by exec_step];
    exec_step; [by exec_step|apply Hchannel; by left].
  exec_step. exec_step. exec_step. eapply exec_weaken; [apply exec_revalidate| |done].
  intros _ t1 [-> Hb]. destruct (first _ _) as [ct|] eqn:Hct; [|by exec_step].
  apply first_Some in Hct as [Hin Hid]. to_prop.
  exec_step. apply (exec_weaken _ t (λ o t', t' = t ∧ ∀ v, o = Some v → addressed row v t) _ (λ _ _, False));
    [|intros v t1 [-> Hv]|done].
  { destruct (sm_conversation_id row) as [i|] eqn:Hv; [apply exec_ret; split; [done|]; intros v [= <-]; by left|].
    eapply exec_weaken; [apply exec_bridging| |done]. intros o t1 [-> Ho]. split; [done|]. intros v Hov. right.
    split_and!; [done|by rewrite Hc|]. rewrite Hc. by apply Ho. }
  assert (Hroute : exec (match v with
      | Some (String _ _ as v) => sendScheduledChannelMessage driver_message co row token v
      | _ => throw (PermanentDispatchError "Contact no longer exists")
      end) t (λ d t', match d with
               | Some d => sent_post co row token d.(ds_messageId) t t'
               | None => canceled_post row token t t'
               end) (λ _ t', t' = t)).
  { destruct v as [[|x v]|]; [by exec_step| |by exec_step]. by apply Hchannel, Hv. }
  destruct (ct_jid ct) as [[|x jid]|] eqn:Hjid; [exact Hroute| |exact Hroute].
  destruct (ct_whatsapp_connection_id ct) as [[|y w]|]; [exact Hroute| |exact Hroute].
  exec_step. exec_step. exec_step; [|by exec_step].
  by apply (exec_device co row token (String ch c) ct (x :: jid)); auto.
Qed.
End effect.

(** ** The property *)

(** C30: A dispatched row is one message: from tables that satisfy the invariant, when
    sendScheduledMessage reports a message, the tables differ exactly by that message under
    the row's own sender and content, by one command for the contact's JID or one intent
    keyed by the row (with which the browsers are told of the message and the row's
    conversation, its states and bounds, show it), and by the status of the leased row, and
    the sender was allowed the send at that moment (the author owns the thread with an
    active case and an unblocked contact, or the row is a broadcast to an unblocked
    contact, or an automatic reply that is still due).  A reply that is no longer due
    cancels the row, and an error changes nothing.  The dual write that a workspace's flag
    adds after a command, as the last statement of its transaction (shadow.ts), is outside
    of the model: the tables of a sent command are the ones that it starts from. *)
Theorem send_spec `{Oracle} `{Storage} `{TimeZone} driver_message companyId row claimToken s :
  Inv (tb s) → (∀ u, drawn_uuid u → filled (Some u) = true) →
  match sendScheduledMessage driver_message companyId row claimToken s with
  | (Ok (Some d), s') => sent_post companyId row claimToken d.(ds_messageId) (tb s) (tb s')
  | (Ok None, s') => canceled_post row claimToken (tb s) (tb s')
  | (Throw _, s') => tb s' = tb s
  end.
Proof.
  intros Hi Hu. pose proof (exec_send driver_message companyId row claimToken _ Hi Hu s eq_refl) as Hs.
  destruct (sendScheduledMessage _ _ _ _ s) as [[[d|]|e] s']; exact Hs.
Qed.
