(* ===== verification/BulkJobs.v ===== *)
(** The transitions of a broadcast job: cancellation, rescheduling and completion. *)

From S2P Require Import Prelude Js TenantDb Exec Steady Workflow Cases SendAccess Calendar Media Outbound Bulk Scheduled Around ScheduledMoves ScheduledRuns ScheduledSpec.

(** ** Jobs *)

Definition keyed_jobs (t : tables) : Prop := constraint bulk_jobs (t_jobs t) = None.

(** The jobs other than [jobId]. *)
Definition other_jobs (jobId : string) (l : list job_row) : list job_row :=
  keep (λ j, negb (is_job jobId j)) l.

(** What the statements of a job do not write. *)
Definition job_snapshot (j : job_row) :=
  (j.(bj_id), j.(bj_content), j.(bj_message_type), j.(bj_media_url), j.(bj_audience_hash),
   j.(bj_idempotency_key), j.(bj_created_by)).

Section job_rows.
Implicit Types (p : job_row → bool) (f : job_row → job_row) (l : list job_row).

Lemma constraint_job p f l :
  (∀ j, p j = true → job_snapshot (f j) = job_snapshot j) →
  constraint bulk_jobs l = None → constraint bulk_jobs (update_where p f l) = None.
Proof.
  intros Hf. cbn [constraint bulk_jobs]. rewrite !checks_cons. intros (Hu & Hi & _).
  assert (Hk : ∀ j, p j = true → bj_id (f j) = bj_id j ∧ bj_idempotency_key (f j) = bj_idempotency_key j).
  { intros j Hp. specialize (Hf j Hp). unfold job_snapshot in Hf. by simplify_eq. }
  split_and!; [apply unique_on_update|apply unique_on_update|done]; try done.
  - intros j _ Hp. left. cbn. by destruct (Hk j Hp) as [-> _].
  - intros j _ Hp. left. by destruct (Hk j Hp) as [_ ->].
Qed.

Lemma other_jobs_update jobId p f l :
  (∀ j, p j = true → is_job jobId j = true) → (∀ j, p j = true → job_snapshot (f j) = job_snapshot j) →
  other_jobs jobId (update_where p f l) = other_jobs jobId l.
Proof.
  intros Hp Hf. apply keep_update_where_frame. intros j _ Hj. rewrite (Hp j Hj). split; [done|].
  specialize (Hf j Hj). unfold job_snapshot in Hf. simplify_eq. specialize (Hp j Hj). unfold is_job in *.
  apply negb_false_iff. to_prop. apply bool_decide_eq_true_2. congruence.
Qed.

Lemma elem_of_other_job jobId l l' j :
  other_jobs jobId l' = other_jobs jobId l → j ∈ l' → is_job jobId j = false → j ∈ l.
Proof.
  intros Heq Hj Hn. assert (Hin : j ∈ other_jobs jobId l') by (apply elem_of_keep; by rewrite Hn).
  rewrite Heq in Hin. by apply elem_of_keep in Hin as [_ ?].
Qed.
End job_rows.

Lemma job_unique t a b : keyed_jobs t → a ∈ t_jobs t → b ∈ t_jobs t → bj_id a = bj_id b → a = b.
Proof.
  unfold keyed_jobs. cbn [constraint bulk_jobs]. rewrite checks_cons. intros [Hu _] Ha Hb Hid.
  eapply (unique_on_eq (Some ∘ bj_id)); [exact Hu|done|done|done|]. cbn. by rewrite Hid.
Qed.

(** ** Cancellation *)

Definition unsent (r : scheduled_row) : bool := bool_decide (r.(sm_status) ∈ [scheduled; failed]).

Record canceled_job (jobId user : string) (t : tables) (r : CancelBulkJobResult) (t' : tables) : Prop := {
  jc_live : ∃ j, j ∈ t_jobs t ∧ j.(bj_id) = jobId ∧ live_job j = true;
  (** The job is canceled by the user, and complete unless leaves are in flight. *)
  jc_job : ∀ j, j ∈ t_jobs t' → j.(bj_id) = jobId →
    (j.(bj_status), j.(bj_canceled_by)) = (job_canceled, Some user) ∧ is_Some j.(bj_canceled_at)
    ∧ (r.(cn_stillProcessing) = 0 → is_Some j.(bj_completed_at));
  jc_others : other_jobs jobId (t_jobs t') = other_jobs jobId (t_jobs t);
  (** Exactly its unsent leaves are canceled. *)
  jc_leaves : ∃ now, t_scheduled t' =
    update_where (λ l, of_job jobId l && unsent l) (cancel_leaf (Some user) now now) (t_scheduled t);
  jc_none_left : ∀ l, l ∈ t_scheduled t' → of_job jobId l = true → unsent l = false;
  jc_count : r.(cn_canceledLeaves) = length (keep (λ l, of_job jobId l && unsent l) (t_scheduled t));
  jc_in_flight : r.(cn_stillProcessing)
    = length (keep (λ l, of_job jobId l && has_status processing l) (t_scheduled t));
  jc_rest : only_media (set_rows scheduled_messages (t_scheduled t') (set_rows bulk_jobs (t_jobs t') t)) t' }.

(** The statements of the cancellation, one after the other. *)
Definition mark_canceled (user : string) (now : Z) (j : job_row) : job_row :=
  bj_update j job_canceled j.(bj_scheduled_at) (Some user) (Some now) j.(bj_completed_at) now.

Section cancel.
Context `{Oracle} `{Storage}.

Lemma exec_cleanup_job co jobId url t :
  exec (cleanupBulkJobMediaObject co jobId url) t (λ _ t', only_media t t') (λ _ _, False).
Proof.
  assert (Hret : exec (mret tt) t (λ (_ : unit) t', only_media t t') (λ _ _, False)) by (by apply exec_ret).
  unfold cleanupBulkJobMediaObject, try_deleteMedia, when. repeat (exec_step; try exact Hret).
  apply exec_insert_row; [|done]. intros _. by eexists.
Qed.

(** A statement on the jobs that keeps their snapshots cannot fail. *)
Lemma exec_update_jobs p f t (Q : nat → tables → Prop) E :
  keyed_jobs t → (∀ j, p j = true → job_snapshot (f j) = job_snapshot j) →
  (keyed_jobs (set_rows bulk_jobs (update_where p f (t_jobs t)) t) →
   Q (length (keep p (t_jobs t))) (set_rows bulk_jobs (update_where p f (t_jobs t)) t)) →
  exec (update bulk_jobs p f) t Q E.
Proof.
  intros Hk Hf HQ. apply exec_update; [intros Hc; by apply HQ|]. intros e He.
  change (rows bulk_jobs t) with (t_jobs t) in He. rewrite constraint_job in He; done.
Qed.

Lemma exec_update_leaves p f t (Q : nat → tables → Prop) E :
  keyed_schedules t → (∀ r, p r = true → snapshot (f r) = snapshot r) →
  Q (length (keep p (t_scheduled t))) (set_rows scheduled_messages (update_where p f (t_scheduled t)) t) →
  exec (update scheduled_messages p f) t Q E.
Proof.
  intros Hk Hf HQ. apply exec_update; [intros _; exact HQ|]. intros e He.
  change (constraint scheduled_messages) with scheduled_constraint in He.
  change (rows scheduled_messages t) with (t_scheduled t) in He. rewrite constraint_snapshot in He; done.
Qed.

Lemma exec_stamp_completed jobId z z' t (Q : unit → tables → Prop) E :
  keyed_jobs t →
  Q tt (set_rows bulk_jobs (update_where (λ j, is_job jobId j && bool_decide (bj_completed_at j = None))
          (λ j, set_completed j.(bj_status) z z' j) (t_jobs t)) t) →
  exec (stamp_completed jobId z z') t Q E.
Proof.
  intros Hk HQ. unfold stamp_completed. exec_step. apply exec_update_jobs; [done|done|]. intros _.
  by apply exec_ret.
Qed.

(** The job's row after the cancellation, stamped when nothing is in flight. *)
Lemma canceled_rows jobId user z t (drained : bool) j0 :
  keyed_jobs t → j0 ∈ t_jobs t → is_job jobId j0 && live_job j0 = true →
  let marked := update_where (λ j, is_job jobId j && live_job j) (mark_canceled user z) (t_jobs t) in
  let l := if drained then update_where (λ j, is_job jobId j && bool_decide (bj_completed_at j = None))
                             (λ j, set_completed j.(bj_status) z z j) marked
           else marked in
  (∀ j, j ∈ l → j.(bj_id) = jobId →
    (j.(bj_status), j.(bj_canceled_by)) = (job_canceled, Some user) ∧ is_Some j.(bj_canceled_at)
    ∧ (drained = true → is_Some j.(bj_completed_at)))
  ∧ other_jobs jobId l = other_jobs jobId (t_jobs t).
Proof.
  intros Hk Hj0 Hlive marked l.
  assert (Hid0 : bj_id j0 = jobId) by (unfold is_job in Hlive; by to_prop).
  assert (Hmarked : ∀ j, j ∈ marked → bj_id j = jobId → ∃ j1, j = mark_canceled user z j1).
  { intros j (x & Hx & ->)%elem_of_update_where Hid. destruct (is_job jobId x && live_job x) eqn:Hp; [eauto|].
    rewrite (job_unique t x j0 Hk Hx Hj0) in Hp by congruence. congruence. }
  assert (Hother : other_jobs jobId marked = other_jobs jobId (t_jobs t)).
  { apply other_jobs_update; [|done]. intros j Hp. by to_prop. }
  destruct drained; [|split; [|done]].
  - split; [|etransitivity; [apply other_jobs_update|done]; [|done]; intros j Hp; by to_prop].
    intros j (x & Hx & ->)%elem_of_update_where Hid.
    destruct (is_job jobId x && _) eqn:Hp.
    + destruct (Hmarked x Hx) as [j1 ->]; [exact Hid|]. cbn. by split_and!; eauto.
    + destruct (Hmarked x Hx Hid) as [j1 ->]. unfold is_job in Hp. cbn in *.
      rewrite bool_decide_eq_true_2 in Hp by done. cbn in Hp. apply bool_decide_eq_false in Hp.
      split; [done|]. split; [eauto|]. intros _. destruct (bj_completed_at j1); [eauto|done].
  - intros j Hj Hid. destruct (Hmarked j Hj Hid) as [j1 ->]. cbn. by split_and!; eauto.
Qed.

Lemma none_unsent jobId user now l r :
  r ∈ update_where (λ l, of_job jobId l && unsent l) (cancel_leaf (Some user) now now) l →
  of_job jobId r = true → unsent r = false.
Proof.
  intros (x & Hx & ->)%elem_of_update_where. destruct (of_job jobId x && unsent x) eqn:Hu; [done|].
  intros Hj. by rewrite Hj in Hu.
Qed.

Lemma canceled_tables jobId user z t j0 l t' :
  keyed_jobs t → j0 ∈ t_jobs t → is_job jobId j0 && live_job j0 = true →
  let in_flight := length (keep (λ r, of_job jobId r && has_status processing r) (t_scheduled t)) in
  let marked := update_where (λ j, is_job jobId j && live_job j) (mark_canceled user z) (t_jobs t) in
  l = (if (in_flight =? 0)%nat
       then update_where (λ j, is_job jobId j && bool_decide (bj_completed_at j = None))
              (λ j, set_completed j.(bj_status) z z j) marked
       else marked) →
  only_media (set_rows scheduled_messages
      (update_where (λ r, of_job jobId r && unsent r) (cancel_leaf (Some user) z z) (t_scheduled t))
      (set_rows bulk_jobs l t)) t' →
  canceled_job jobId user t
    (mkCancel true (length (keep (λ r, of_job jobId r && unsent r) (t_scheduled t))) in_flight) t'.
Proof.
  intros Hk Hj Hlive in_flight marked Hl Hm.
  assert (Hrows := canceled_rows jobId user z t (in_flight =? 0)%nat j0 Hk Hj Hlive). cbv zeta in Hrows.
  fold marked in Hrows. rewrite <- Hl in Hrows. destruct Hrows as [Hjobs Hothers].
  assert (Hrows : t_jobs t' = l ∧ t_scheduled t' = update_where (λ r, of_job jobId r && unsent r)
    (cancel_leaf (Some user) z z) (t_scheduled t)) by (by destruct Hm as [d ->]).
  destruct Hrows as [Htj Hts]. split; rewrite ?Htj, ?Hts; cbn [cn_stillProcessing cn_canceledLeaves]; try done.
  - exists j0. unfold is_job in Hlive. to_prop. auto.
  - intros j Hin Hid. destruct (Hjobs j Hin Hid) as (? & ? & Hc). split_and!; [done..|].
    intros H0f. apply Hc. by rewrite H0f.
  - by exists z.
  - intros r. apply none_unsent.
Qed.

(** The leaves in flight are those of before. *)
Lemma in_flight_same jobId user z l :
  keep (λ r, of_job jobId r && has_status processing r)
    (update_where (λ r, of_job jobId r && unsent r) (cancel_leaf (Some user) z z) l)
  = keep (λ r, of_job jobId r && has_status processing r) l.
Proof.
  apply keep_update_where_frame. intros r _ Hr. unfold unsent, has_status in *. to_prop.
  split; [|by rewrite andb_false_r]. apply andb_false_intro2, bool_decide_eq_false_2.
  intros Hp. rewrite Hp in *. set_solver.
Qed.

Lemma exec_cancel co jobId media user t :
  keyed_jobs t → keyed_schedules t →
  exec (cancelBulkJob co jobId media user) t
    (λ r t', (r = mkCancel false 0 0 ∧ t' = t ∧ ∀ j, j ∈ t_jobs t → j.(bj_id) = jobId → live_job j = false)
             ∨ (r.(cn_didCancel) = true ∧ canceled_job jobId user t r t'))
    (λ _ _, False).
Proof.
  intros Hkj Hks. unfold cancelBulkJob. do 5 exec_step.
  apply (exec_update_jobs _ (mark_canceled user z)); [done|done|intros Hkj1].
  destruct (keep (λ j, is_job jobId j && live_job j) (t_jobs t)) as [|j l] eqn:Hlive.
  { assert (Hnone : ∀ j, j ∈ t_jobs t → is_job jobId j && live_job j = false) by by apply keep_nil_iff.
    rewrite update_where_none by done. change (t_jobs t) with (rows bulk_jobs t). rewrite set_rows_rows.
    apply exec_ret, exec_ret. left. split; [done|]. split; [done|]. intros j Hj Hid.
    specialize (Hnone j Hj). unfold is_job in Hnone. by rewrite bool_decide_eq_true_2 in Hnone. }
  cbn [length Nat.eqb]. exec_step.
  assert (Hj : j ∈ keep (λ j, is_job jobId j && live_job j) (t_jobs t)) by (rewrite Hlive; left).
  apply elem_of_keep in Hj as [Hj Hin].
  apply (exec_update_leaves _ (cancel_leaf (Some user) z z)); [exact Hks|done|]. exec_step. exec_step. exec_step.
  match goal with |- context [rows scheduled_messages (set_rows scheduled_messages ?l _)] =>
    change (rows scheduled_messages (set_rows scheduled_messages l _)) with l end.
  match goal with |- context [t_scheduled (set_rows bulk_jobs ?l t)] =>
    change (t_scheduled (set_rows bulk_jobs l t)) with (t_scheduled t) end.
  change (λ r, of_job jobId r && bool_decide (sm_status r ∈ [scheduled; failed]))
    with (λ r, of_job jobId r && unsent r).
  rewrite in_flight_same. assert (Htables := λ l t', canceled_tables jobId user z t j l t' Hkj Hin Hj). cbv zeta in Htables.
  destruct (_ =? 0)%nat eqn:Hn; cbn [when].
  - apply exec_stamp_completed; [exact Hkj1|]. apply exec_ret. exec_step. rewrite Hn. cbn [when].
    eapply exec_weaken; [apply exec_cleanup_job| |done]. intros x t'. cbv beta. intros Hm. apply exec_ret. right.
    split; [done|]. exact (Htables _ t' eq_refl Hm).
  - apply exec_ret, exec_ret. exec_step. rewrite Hn. apply exec_ret, exec_ret. right. split; [done|].
    apply (Htables _ _ eq_refl). reflexivity.
Qed.
End cancel.

(** ** Rescheduling *)

(** What a reschedule needs: an unstarted job with leaves, none of them on its way. *)
Definition movable_job (jobId : string) (t : tables) (j : job_row) : Prop :=
  j ∈ t_jobs t ∧ j.(bj_id) = jobId ∧ j.(bj_status) = job_scheduled
  ∧ (∃ r, r ∈ t_scheduled t ∧ of_job jobId r = true)
  ∧ ∀ r, r ∈ t_scheduled t → of_job jobId r = true → r.(sm_status) ∈ [scheduled; skipped].

Section reschedule.
Context `{Oracle} `{Storage}.

(** The leaves by their ids are the leaves by their job. *)
Lemma leaves_by_id jobId t r :
  keyed_schedules t → (∀ r, r ∈ t_scheduled t → of_job jobId r = true → movable r = true) → r ∈ t_scheduled t →
  bool_decide (r.(sm_id) ∈ (sm_id <$> keep (of_job jobId) (t_scheduled t))) && movable r = of_job jobId r.
Proof.
  intros Hk Hm Hr. destruct (of_job jobId r) eqn:Hj.
  - rewrite (Hm r Hr Hj), andb_true_r. apply bool_decide_eq_true_2, list_elem_of_fmap_2. by apply elem_of_keep.
  - apply andb_false_intro1, bool_decide_eq_false_2. intros (x & Hid & Hx)%list_elem_of_fmap.
    apply elem_of_keep in Hx as [Hxj Hx]. rewrite (schedule_id_unique _ r x Hk Hr Hx Hid) in Hj. congruence.
Qed.

Definition move_job (scheduledAt now : Z) (j : job_row) : job_row :=
  bj_update j j.(bj_status) scheduledAt j.(bj_canceled_by) j.(bj_canceled_at) j.(bj_completed_at) now.

Definition rescheduled (jobId : string) (scheduledAt : Z) (t : tables) (j : job_row)
    (r : RescheduleBulkJobResult) (t' : tables) : Prop :=
  ∃ now, t' = set_rows bulk_jobs (update_where (is_job jobId) (move_job scheduledAt now) (t_jobs t))
                (set_rows scheduled_messages
                   (update_where (of_job jobId) (move_leaf scheduledAt now) (t_scheduled t)) t)
    ∧ r = mkReschedule true (Some j.(bj_scheduled_at)) (Some (move_job scheduledAt now j))
            (length (keep (of_job jobId) (t_scheduled t))).

(** The check of the leaves. *)
Lemma leaves_check jobId l :
  (length (keep (of_job jobId) l) =? 0)%nat || existsb (λ r, negb (movable r)) (keep (of_job jobId) l) = false ↔
  (∃ r, r ∈ l ∧ of_job jobId r = true) ∧ ∀ r, r ∈ l → of_job jobId r = true → movable r = true.
Proof.
  rewrite orb_false_iff, Nat.eqb_neq. fold (holds_any (λ r, negb (movable r)) (keep (of_job jobId) l)).
  rewrite holds_any_false. split.
  - intros [Hn Hm]. split.
    + destruct (keep (of_job jobId) l) as [|r l'] eqn:Hl; [done|].
      assert (Hr : r ∈ keep (of_job jobId) l) by (rewrite Hl; left). apply elem_of_keep in Hr as [??]. by exists r.
    + intros r Hr Hj. apply negb_false_iff, Hm. by apply elem_of_keep.
  - intros [(r & Hr & Hj) Hm]. split.
    + intros Hn. apply nil_length_inv in Hn. rewrite keep_nil_iff in Hn. rewrite (Hn r Hr) in Hj. done.
    + intros x [Hxj Hx]%elem_of_keep. by rewrite Hm.
Qed.

(** The two updates, once the checks have passed. *)
Lemma exec_move_all jobId scheduledAt now t j (E : err → tables → Prop) :
  keyed_jobs t → keyed_schedules t → j ∈ t_jobs t → j.(bj_id) = jobId → j.(bj_status) = job_scheduled →
  (∀ r, r ∈ t_scheduled t → of_job jobId r = true → movable r = true) →
  exec (leaves ← update scheduled_messages
          (λ r, bool_decide (r.(sm_id) ∈ (sm_id <$> keep (of_job jobId) (t_scheduled t))) && movable r)
          (move_leaf scheduledAt now);
        if negb (leaves =? length (keep (of_job jobId) (t_scheduled t)))%nat then throw RescheduleStateConflict
        else
          jobs ← update_returning bulk_jobs (λ r, is_job jobId r && bool_decide (r.(bj_status) = job_scheduled))
            (move_job scheduledAt now);
          match head jobs with
          | None => throw RescheduleStateConflict
          | Some job => mret (mkReschedule true (Some j.(bj_scheduled_at)) (Some job) leaves)
          end) t
    (λ r t', rescheduled jobId scheduledAt t j r t') E.
Proof.
  intros Hkj Hks Hj Hid Hst Hm. exec_step.
  assert (Hp := λ r Hr, leaves_by_id jobId t r Hks Hm Hr).
  apply exec_update_leaves; [done|done|]. rewrite (keep_ext _ _ _ Hp), (update_where_ext _ _ _ _ Hp), Nat.eqb_refl.
  cbn [negb]. exec_step.
  assert (Hq : ∀ x, x ∈ t_jobs t → is_job jobId x && bool_decide (bj_status x = job_scheduled) = is_job jobId x).
  { intros x Hx. destruct (is_job jobId x) eqn:Hjx; [|done]. unfold is_job in Hjx. to_prop.
    rewrite (job_unique t x j) by congruence. by apply bool_decide_eq_true_2. }
  apply exec_update_returning.
  - intros _. match goal with |- context [rows bulk_jobs (set_rows scheduled_messages ?l t)] =>
      change (rows bulk_jobs (set_rows scheduled_messages l t)) with (t_jobs t) end.
    rewrite (keep_ext _ _ _ Hq), (update_where_ext _ _ _ _ Hq), head_map.
    change (head (keep (is_job jobId) (t_jobs t))) with (first (is_job jobId) (t_jobs t)).
    rewrite (first_unique _ _ j); [|done|by apply bool_decide_eq_true_2|].
    + apply exec_ret. by exists now.
    + intros y Hy Hjy. unfold is_job in Hjy. to_prop. apply (job_unique t); congruence.
  - intros e He. change (rows bulk_jobs (set_rows scheduled_messages _ t)) with (t_jobs t) in He.
    rewrite constraint_job in He; done.
Qed.

Lemma exec_reschedule jobId scheduledAt t :
  keyed_jobs t → keyed_schedules t →
  exec (rescheduleBulkJob jobId scheduledAt) t
    (λ r t', (∃ j, movable_job jobId t j ∧ rescheduled jobId scheduledAt t j r t')
             ∨ (r = mkReschedule false None None 0 ∧ t' = t ∧ ∀ j, ¬ movable_job jobId t j))
    (λ _ _, False).
Proof.
  intros Hkj Hks. unfold rescheduleBulkJob. exec_step. exec_step. exec_step. exec_step. exec_step. exec_step.
  change (rows bulk_jobs t) with (t_jobs t).
  assert (Hno : (∀ j, ¬ movable_job jobId t j) →
    exec (mret (mkReschedule false None None 0)) t
      (λ r t', (∃ j, movable_job jobId t j ∧ rescheduled jobId scheduledAt t j r t')
             ∨ (r = mkReschedule false None None 0 ∧ t' = t ∧ ∀ j, ¬ movable_job jobId t j)) (λ _ _, False)).
  { intros Hn. apply exec_ret. by right. }
  destruct (first (is_job jobId) (t_jobs t)) as [j|] eqn:Hj.
  2: { apply exec_throw, Hno. intros j (Hin & Hid & _). rewrite first_None in Hj. specialize (Hj j Hin).
       unfold is_job in Hj. by rewrite bool_decide_eq_true_2 in Hj. }
  apply first_Some in Hj as [Hj Hid]. unfold is_job in Hid. to_prop.
  destruct (decide (bj_status j = job_scheduled)) as [Hst|Hst].
  2: { rewrite bool_decide_eq_false_2 by done. apply exec_throw, Hno. intros j' (Hin & Hid' & Hs & _).
       rewrite (job_unique t j j') in Hst; congruence. }
  rewrite bool_decide_eq_true_2 by done. cbn [negb]. exec_step. exec_step.
  change (rows scheduled_messages t) with (t_scheduled t).
  destruct (_ || _) eqn:Hc.
  - apply exec_throw, Hno. intros j' (_ & _ & _ & Hsome & Hall). apply not_false_iff_true in Hc. apply Hc.
    apply leaves_check. split; [done|]. intros r Hr Hjr. by apply bool_decide_eq_true_2, Hall.
  - apply leaves_check in Hc as [Hsome Hall]. eapply exec_weaken; [by apply (exec_move_all jobId scheduledAt z t j (λ _ _, False))| |done].
    intros r t' Hr. left. exists j. split; [|done]. repeat split; try done.
    intros x Hx Hjx. eapply bool_decide_eq_true_1. by apply (Hall x).
Qed.
End reschedule.

(** ** Properties *)

Section properties.
Context `{Oracle} `{Storage}.

(** A cancellation always goes through, and is all or nothing: either no live job has
    the id and nothing changes, or the job is canceled by the user, its unsent leaves
    are canceled and counted, no leaf of it waits any more, the leaves in flight are
    counted and left alone, and the job is complete unless there are any; no other job
    or leaf changes. *)
Theorem cancel_job_spec companyId jobId media_url user s :
  keyed_jobs (tb s) → keyed_schedules (tb s) →
  ∃ r s', cancelBulkJob companyId jobId media_url user s = (Ok r, s')
    ∧ ((r = mkCancel false 0 0 ∧ tb s' = tb s ∧ ∀ j, j ∈ t_jobs (tb s) → j.(bj_id) = jobId → live_job j = false)
       ∨ (r.(cn_didCancel) = true ∧ canceled_job jobId user (tb s) r (tb s'))).
Proof.
  intros Hkj Hks. assert (Hx := exec_run _ s _ _ (exec_cancel companyId jobId media_url user (tb s) Hkj Hks)).
  destruct (cancelBulkJob _ _ _ _ s) as [[r|e] s']; [|done]. by exists r, s'.
Qed.

(** A reschedule always answers, and is all or nothing: it happens exactly when the job
    has not started and has leaves that are all waiting or skipped; then the job and
    every one of its leaves move to the new time and nothing else changes, and otherwise
    nothing changes at all. *)
Theorem reschedule_job_spec jobId scheduledAt s :
  keyed_jobs (tb s) → keyed_schedules (tb s) →
  ∃ r s', rescheduleBulkJob jobId scheduledAt s = (Ok r, s')
    ∧ ((∃ j, movable_job jobId (tb s) j ∧ rescheduled jobId scheduledAt (tb s) j r (tb s'))
       ∨ (r = mkReschedule false None None 0 ∧ tb s' = tb s ∧ ∀ j, ¬ movable_job jobId (tb s) j)).
Proof.
  intros Hkj Hks. assert (Hx := exec_run _ s _ _ (exec_reschedule jobId scheduledAt (tb s) Hkj Hks)).
  destruct (rescheduleBulkJob _ _ s) as [[r|e] s']; [|done]. by exists r, s'.
Qed.

(** A leaf in flight survives the cancellation of its job: when its send then fails for
    a passing reason, the leaf waits again as a leaf of the canceled job, due once its
    retry delay is over, and no later step of the cancellation takes it back. *)
Theorem canceled_leaf_requeued driver_message broadcast companyId jobId media_url user row token error s r res s1 res' s2 :
  (∀ i st, reads (broadcast i st)) →
  keyed_jobs (tb s) → keyed_schedules (tb s) →
  r ∈ t_scheduled (tb s) → of_job jobId r = true → fenced row.(sm_id) token r = true →
  cancelBulkJob companyId jobId media_url user s = (Ok res, s1) → res.(cn_didCancel) = true →
  is_permanent error = false → (0 ≤ row.(sm_attempts) < 9)%Z →
  recordDispatchFailure driver_message broadcast companyId row token error s1 = (res', s2) →
  (∃ r', r' ∈ t_scheduled (tb s2) ∧ snapshot r' = snapshot r ∧ r'.(sm_status) = scheduled
     ∧ ∀ now, (r'.(sm_next_attempt_at) ≤ now)%Z → is_leaf r' && due now r' = true)
  ∧ ∀ j, j ∈ t_jobs (tb s2) → j.(bj_id) = jobId → j.(bj_status) = job_canceled.
Proof.
  intros Hb Hkj Hks Hr Hj Hf Hc Hdid Hp Ha Hrec.
  assert (Hx := exec_run _ s _ _ (exec_cancel companyId jobId media_url user (tb s) Hkj Hks)). rewrite Hc in Hx.
  destruct Hx as [(-> & _)|(_ & Hcan)]; [done|].
  assert (Hks1 : keyed_schedules (tb s1)).
  { assert (Hs := exec_run _ s _ _ (steady_cancel_job evolved companyId jobId media_url user (tb s))).
    rewrite Hc in Hs. by destruct (Hs Hks). }
  assert (Hr1 : r ∈ t_scheduled (tb s1)).
  { destruct (jc_leaves _ _ _ _ _ Hcan) as [now ->]. apply elem_of_update_where. exists r. split; [done|].
    unfold unsent. destruct (fenced_spec _ _ _ Hf) as (_ & -> & _). by rewrite andb_false_r. }
  assert (Hx := exec_run _ s1 _ _ (exec_recordDispatchFailure driver_message broadcast Hb companyId row token error (tb s1) r Hks1 Hr1 Hf)).
  rewrite Hrec in Hx. cbv zeta in Hx. rewrite Hp, (proj2 (Z.leb_gt _ _)) in Hx by (unfold MAX_ATTEMPTS; lia).
  cbn [orb] in Hx.
  assert (Hpost : ∃ z u l, t_scheduled (tb s2) = l ∧ t_jobs (tb s2) = t_jobs (tb s1)
    ∧ fail_row false (sm_attempts row + 1) z (take 2000 (js (error_message driver_message error))) u r ∈ l).
  { assert (Hm : ∃ z u, only_media (set_rows scheduled_messages
      ((λ x, if decide (x = r) then fail_row false (sm_attempts row + 1) z
        (take 2000 (js (error_message driver_message error))) u x else x) <$> t_scheduled (tb s1)) (tb s1)) (tb s2))
      by (destruct res'; naive_solver).
    destruct Hm as (z & u & d & Heq). exists z, u. eexists. rewrite Heq. split; [reflexivity|]. split; [done|].
    apply list_elem_of_fmap. exists r. by rewrite decide_True. }
  destruct Hpost as (z & u & l & Hl & Hjobs & Hin). split.
  - eexists. rewrite Hl. split; [exact Hin|]. split; [done|]. split; [done|]. intros now Hle.
    unfold of_job, is_id in Hj. to_prop. unfold is_leaf, due. cbn in *. rewrite Hj. cbn. by apply Z.leb_le.
  - rewrite Hjobs. intros j Hjin Hid. destruct (jc_job _ _ _ _ _ Hcan j Hjin Hid) as ([= ? _] & _). done.
Qed.
End properties.
