(* ===== verification/BulkAudience.v ===== *)
(** The audience of a broadcast: who is reached, who is skipped, and the hash that
    binds a creation to the preview the user saw. *)

From S2P Require Import Prelude Js TenantDb Exec Steady Workflow Cases SendAccess Calendar Media Outbound Bulk Scheduled Around ScheduledMoves ScheduledRuns ScheduledSpec BulkJobs.

(** ** Code unit order *)

Lemma js_leb_refl s : js_leb s s = true.
Proof. induction s as [|x s IH]; [done|]. cbn. by rewrite IH, Z.eqb_refl, orb_true_r. Qed.
#[export] Instance js_le_total : Total js_le.
Proof.
  unfold js_le. intros a. induction a as [|x a IH]; intros [|y b]; [by left..|by right|]. cbn.
  destruct (Z.lt_trichotomy x y) as [Hlt|[->|Hlt]].
  - left. by rewrite (proj2 (Z.ltb_lt _ _) Hlt).
  - rewrite Z.ltb_irrefl, Z.eqb_refl. cbn. apply IH.
  - right. by rewrite (proj2 (Z.ltb_lt _ _) Hlt).
Qed.
#[export] Instance js_le_trans : Transitive js_le.
Proof.
  unfold js_le. intros a. induction a as [|x a IH]; [done|]. intros [|y b] [|z c]; try done. cbn.
  rewrite !orb_true_iff, !andb_true_iff, !Z.ltb_lt, !Z.eqb_eq.
  intros [?|[-> Hab]] [?|[-> Hbc]]; [left; lia|by left|by left|]. right. split; [done|]. by eapply IH.
Qed.
#[export] Instance js_le_antisymm : AntiSymm (=) js_le.
Proof.
  unfold js_le. intros a. induction a as [|x a IH]; intros [|y b]; [done..|]. cbn.
  rewrite !orb_true_iff, !andb_true_iff, !Z.ltb_lt, !Z.eqb_eq.
  intros [?|[-> Hab]] [?|[? Hba]]; try lia. f_equal. by apply IH.
Qed.

(** The hash reads the recipients as a set. *)
Lemma hash_input_permutation e1 e2 k1 k2 :
  e1 ≡ₚ e2 → k1 ≡ₚ k2 → hash_input e1 k1 = hash_input e2 k2.
Proof.
  intros He Hk. unfold hash_input. f_equal.
  apply (StronglySorted_unique js_le); [apply StronglySorted_merge_sort; apply _..|].
  by rewrite !merge_sort_Permutation, He, Hk.
Qed.

(** ** Who can be reached *)

Record reachable (a : audience) (connections : list connection_row) (c : contact_row) (jid : jsstring)
    (w : connection_row) : Prop := {
  re_group : c.(ct_is_group) = false;
  re_blocked : c.(ct_is_blocked) = false;
  re_jid : c.(ct_jid) = Some jid ∧ jid ≠ [];
  re_device : connection_of c connections = Some w ∧ w.(wc_id) ≠ "" ∧ w.(wc_archived_at) = None;
  re_filter : filled a.(au_connectionId) = true → a.(au_connectionId) = Some w.(wc_id) }.

(** What a list of contacts leaves: the accumulator of the loop. *)
Record classified (a : audience) (connections : list connection_row) (l : list contact_row)
    (elig skip : list ResolvedRecipient) : Prop := {
  cl_all : (rr_contactId <$> elig ++ skip) ≡ₚ (ct_id <$> l);
  cl_once : NoDup (rr_jid <$> elig);
  cl_eligible : ∀ r, r ∈ elig → ∃ c jid w, c ∈ l ∧ reachable a connections c jid w
    ∧ r = recipient_of c (Some w) None;
  cl_covered : ∀ c jid w, c ∈ l → reachable a connections c jid w → Some jid ∈ (rr_jid <$> elig);
  cl_skipped : ∀ r, r ∈ skip → ∃ c reason, c ∈ l ∧ r = recipient_of c (connection_of c connections) (Some reason)
    ∧ (reason = duplicate_jid → is_Some c.(ct_jid) ∧ c.(ct_jid) ∈ (rr_jid <$> elig))
    ∧ (reason ≠ duplicate_jid → ∀ jid w, ¬ reachable a connections c jid w) }.

Section classify.
Context (a : audience) (connections : list connection_row).

Lemma connection_of_id c w :
  connection_of c connections = Some w → c.(ct_whatsapp_connection_id) = Some w.(wc_id).
Proof. intros [_ Hw]%first_Some. unfold is_id in Hw. by to_prop. Qed.

Lemma filled_Some x : filled (Some x) = true ↔ x ≠ "".
Proof. by destruct x. Qed.

Lemma verdict_None c seen :
  verdict a c (connection_of c connections) seen = None →
  ∃ jid w, reachable a connections c jid w ∧ jid ∉ seen.
Proof.
  unfold verdict. destruct (ct_is_group c) eqn:Hg; [done|].
  destruct (ct_jid c) as [[|x jid]|] eqn:Hj; [done| |done]. cbn [truthy negb].
  destruct (ct_is_blocked c) eqn:Hb; [done|].
  destruct (connection_of c connections) as [w|] eqn:Hw; [|by rewrite orb_true_r].
  assert (Hid := connection_of_id c w Hw). rewrite Hid. cbn [fmap option_fmap option_map mbind option_bind].
  destruct (_ || _) eqn:Hf; [done|]. to_prop. destruct (wc_archived_at w) eqn:Ha; [by rewrite bool_decide_eq_true_2 by eauto|].
  rewrite bool_decide_eq_false_2 by by intros [].
  destruct (filled (au_connectionId a) && _) eqn:Hfl; [done|].
  destruct (bool_decide (x :: jid ∈ seen)) eqn:Hs; [done|]. intros _. to_prop.
  exists (x :: jid), w. split; [|done]. split; [done|done|done|..].
  - split; [done|]. split; [by apply filled_Some|done].
  - intros Hfa. rewrite Hfa in Hfl. cbn in Hfl. to_prop. done.
Qed.

Lemma verdict_Some c seen reason :
  verdict a c (connection_of c connections) seen = Some reason →
  (reason = duplicate_jid → ∃ jid, c.(ct_jid) = Some jid ∧ jid ∈ seen)
  ∧ (reason ≠ duplicate_jid → ∀ jid w, ¬ reachable a connections c jid w).
Proof.
  intros Hv. split.
  - intros ->. unfold verdict in Hv. do 6 (case_match; [discriminate Hv|]).
    destruct (ct_jid c) as [jid|]; [|discriminate Hv]. case_bool_decide; [eauto|discriminate Hv].
  - intros Hne jid w [Hg Hb [Hj Hn] (Hw & Hwn & Ha) Hfl].
    unfold verdict in Hv. rewrite Hg, Hb, Hj, Hw in Hv. destruct jid as [|x jid]; [done|].
    cbn [truthy negb fmap option_fmap option_map mbind option_bind] in Hv.
    rewrite (connection_of_id c w Hw), Ha in Hv. apply filled_Some in Hwn. rewrite Hwn in Hv. cbn [orb negb] in Hv.
    rewrite bool_decide_eq_false_2 in Hv by by intros [].
    assert (Hnf : filled (au_connectionId a) && negb (bool_decide (Some (wc_id w) = au_connectionId a)) = false).
    { destruct (filled (au_connectionId a)) eqn:Hfa; [|done]. by rewrite Hfl, bool_decide_eq_true_2. }
    rewrite Hnf in Hv. by destruct (bool_decide _); simplify_eq.
Qed.

Lemma classified_grow l elig skip c r :
  classified a connections l elig skip →
  ((∃ jid w, reachable a connections c jid w ∧ (Some jid ∉ (rr_jid <$> elig)) ∧ r = recipient_of c (Some w) None)
   → classified a connections (l ++ [c]) (elig ++ [r]) skip)
  ∧ ((∃ reason, r = recipient_of c (connection_of c connections) (Some reason)
      ∧ (reason = duplicate_jid → is_Some c.(ct_jid) ∧ c.(ct_jid) ∈ (rr_jid <$> elig))
      ∧ (reason ≠ duplicate_jid → ∀ jid w, ¬ reachable a connections c jid w))
   → classified a connections (l ++ [c]) elig (skip ++ [r])).
Proof.
  intros [Hall Honce Helig Hcov Hskip]. split.
  - intros (jid & w & Hre & Hnew & ->). split.
    + rewrite !fmap_app in *. cbn. rewrite <- Hall. solve_Permutation.
    + rewrite fmap_app. apply NoDup_app. split; [done|]. split; [|apply NoDup_singleton].
      intros j Hj ->%list_elem_of_singleton. cbn in Hj. by rewrite (proj1 (re_jid _ _ _ _ _ Hre)) in Hj.
    + intros x [Hx| ->%list_elem_of_singleton]%elem_of_app; [|exists c, jid, w; set_solver].
      destruct (Helig x Hx) as (d & ? & ? & ? & ?). exists d. set_solver.
    + intros d j v [Hd| ->%list_elem_of_singleton]%elem_of_app Hv; rewrite fmap_app, elem_of_app;
        [left; by eapply Hcov|right]. cbn. rewrite (proj1 (re_jid _ _ _ _ _ Hv)). left.
    + intros x Hx. destruct (Hskip x Hx) as (d & reason & Hd & -> & Hdup & Hno). exists d, reason.
      split; [set_solver|]. split; [done|]. split; [|done]. intros Hr. destruct (Hdup Hr). split; [done|].
      rewrite fmap_app. set_solver.
  - intros (reason & -> & Hdup & Hno). split; [|done|..].
    + rewrite !fmap_app in *. cbn. rewrite <- Hall. solve_Permutation.
    + intros x Hx. destruct (Helig x Hx) as (d & ? & ? & ? & ?). exists d. set_solver.
    + intros d j v [Hd| ->%list_elem_of_singleton]%elem_of_app Hv; [by eapply Hcov|].
      destruct (decide (reason = duplicate_jid)) as [Heq|Hne]; [|by destruct (Hno Hne j v)].
      rewrite <- (proj1 (re_jid _ _ _ _ _ Hv)). by apply Hdup.
    + intros x [Hx| ->%list_elem_of_singleton]%elem_of_app; [|exists c, reason; set_solver].
      destruct (Hskip x Hx) as (d & reason' & ? & ?). exists d, reason'. set_solver.
Qed.

Lemma classify_fold l :
  ∀ elig skip seen, foldl (classify a connections) ([], [], []) l = (elig, skip, seen) →
  classified a connections l elig skip ∧ ∀ jid, jid ∈ seen ↔ Some jid ∈ (rr_jid <$> elig).
Proof.
  induction l as [|c l IH] using rev_ind; intros elig skip seen.
  { cbn. intros [= <- <- <-]. split; [split; [done|apply NoDup_nil_2|..]|];
      intros x; [by intros ?%not_elem_of_nil|by intros ? ? ?%not_elem_of_nil|by intros ?%not_elem_of_nil|].
    by rewrite !elem_of_nil. }
  rewrite foldl_app. destruct (foldl _ _ l) as [[elig0 skip0] seen0] eqn:Hf. destruct (IH _ _ _ eq_refl) as [Hc Hseen].
  cbn [foldl]. unfold classify. destruct (verdict _ _ _ _) as [reason|] eqn:Hv; intros [= <- <- <-].
  - split; [|done]. apply classified_grow; [done|]. exists reason. split; [done|].
    destruct (verdict_Some c seen0 reason Hv) as [Hdup Hno]. split; [|done].
    intros Hr. destruct (Hdup Hr) as (jid & -> & Hin). split; [eauto|]. by apply Hseen.
  - destruct (verdict_None c seen0 Hv) as (jid & w & Hre & Hnew). split.
    + apply classified_grow; [done|]. exists jid, w. split; [done|]. split; [by rewrite <- Hseen|].
      destruct (re_device _ _ _ _ _ Hre) as (-> & _). done.
    + intros j. rewrite fmap_app, elem_of_cons, elem_of_app, Hseen. cbn.
      rewrite (proj1 (re_jid _ _ _ _ _ Hre)). cbn. rewrite list_elem_of_singleton. naive_solver.
Qed.
End classify.

(** ** Resolution *)

Section resolve.
Context `{Oracle} (sha256 : jsstring → string).

(** The contacts that the user selected, by id or by tag. *)
Definition selected (a : audience) (t : tables) : list contact_row :=
  keep (in_audience a (t_contact_tags t)) (t_contacts t).

Definition audience_of (a : audience) (t : tables) (ra : ResolvedAudience) : Prop :=
  classified a (t_connections t) (merge_sort earlier_contact (selected a t)) ra.(eligible) ra.(skipped_)
  ∧ ra.(audienceHash) = sha256 (hash_input ra.(eligible) ra.(skipped_)).

Lemma exec_resolve_audience a t :
  exec (resolveBulkAudience sha256 a) t (λ ra t', t' = t ∧ audience_of a t ra) (λ _ _, False).
Proof.
  unfold resolveBulkAudience. do 6 exec_step. rewrite !keep_everything.
  destruct (foldl _ _ _) as [[elig skip] seen] eqn:Hf. apply exec_ret. split; [done|].
  by destruct (classify_fold a (t_connections t) _ elig skip seen Hf).
Qed.

(** C33: The preview of a broadcast reaches everybody once: the resolved audience splits the
    selected contacts into eligible and skipped ones, no two eligible recipients share a
    JID, everyone eligible is an unblocked individual on a linked device that is neither
    archived nor filtered out, every JID of such a contact is among the eligible ones,
    a contact is skipped as a duplicate only behind an eligible recipient with its JID
    and for any other reason only when it cannot be reached, and the hash depends on
    the recipients but not on their order. *)
Theorem audience_spec a s :
  ∃ ra s', resolveBulkAudience sha256 a s = (Ok ra, s') ∧ tb s' = tb s
    ∧ (rr_contactId <$> ra.(eligible) ++ ra.(skipped_)) ≡ₚ (ct_id <$> selected a (tb s))
    ∧ NoDup (rr_jid <$> ra.(eligible))
    ∧ (∀ r, r ∈ ra.(eligible) → ∃ c jid w, c ∈ selected a (tb s)
        ∧ reachable a (t_connections (tb s)) c jid w ∧ r = recipient_of c (Some w) None)
    ∧ (∀ c jid w, c ∈ selected a (tb s) → reachable a (t_connections (tb s)) c jid w →
        Some jid ∈ (rr_jid <$> ra.(eligible)))
    ∧ (∀ r, r ∈ ra.(skipped_) → ∃ c reason, c ∈ selected a (tb s) ∧ r.(rr_contactId) = c.(ct_id)
        ∧ r.(rr_skipReason) = Some reason
        ∧ (reason = duplicate_jid → c.(ct_jid) ∈ (rr_jid <$> ra.(eligible)))
        ∧ (reason ≠ duplicate_jid → ∀ jid w, ¬ reachable a (t_connections (tb s)) c jid w))
    ∧ ∀ e k, e ≡ₚ ra.(eligible) → k ≡ₚ ra.(skipped_) → sha256 (hash_input e k) = ra.(audienceHash).
Proof.
  assert (Hx := exec_run _ s _ _ (exec_resolve_audience a (tb s))).
  destruct (resolveBulkAudience sha256 a s) as [[ra|e] s']; [|done].
  destruct Hx as (Ht & [Hall Honce Helig Hcov Hskip] & Hhash). exists ra, s'. split; [done|]. split; [done|].
  setoid_rewrite (merge_sort_Permutation earlier_contact) in Hall.
  assert (Hin : ∀ c, c ∈ merge_sort earlier_contact (selected a (tb s)) ↔ c ∈ selected a (tb s))
    by (intros c; by rewrite merge_sort_Permutation).
  setoid_rewrite Hin in Helig. setoid_rewrite Hin in Hskip.
  split; [done|]. split; [done|]. split; [done|]. split; [|split].
  - intros c jid w Hc. apply Hcov. by apply Hin.
  - intros r Hr. destruct (Hskip r Hr) as (c & reason & Hc & -> & Hdup & Hno). exists c, reason.
    split_and!; try done. intros Hd. by destruct (Hdup Hd).
  - intros e k He Hk. by rewrite Hhash, (hash_input_permutation e (eligible ra) k (skipped_ ra)).
Qed.
End resolve.
