(* ===== verification/BulkCreate.v ===== *)
(** The creation of a broadcast: one snapshot per idempotency key, all of it or nothing. *)

From S2P Require Import Prelude Js TenantDb Exec Steady Workflow Cases SendAccess Calendar Media Outbound Bulk Scheduled Around ScheduledMoves ScheduledRuns ScheduledSpec BulkJobs BulkAudience.

(** ** Templates *)

Definition raw (seg : segment) : jsstring := match seg with Literal c => [c] | Token r _ => r end.

Lemma span_app p s : (span p s).1 ++ (span p s).2 = s.
Proof. induction s as [|c s IH]; [done|]. cbn. destruct (p c); [|done]. destruct (span p s). cbn in *. by rewrite IH. Qed.

(** A token ends in what follows it, and is not empty. *)
Lemma match_token_suffix s variable rest :
  match_token s = Some (variable, rest) → ∃ token, s = token ++ rest ∧ (0 < length token)%nat.
Proof.
  unfold match_token. intros Hm. repeat (case_match; try discriminate Hm). simplify_eq.
  match goal with Hv : span is_word (span is_space ?s0).2 = (?v, ?s1), Hend : (span is_space ?s1).2 = _ |- _ =>
    assert (Hs := span_app is_space s0); assert (Hw := span_app is_word (span is_space s0).2);
    assert (Hr := span_app is_space s1); rewrite Hv in Hw; rewrite Hend in Hr; cbn [fst snd] in Hw;
    exists ([123%Z; 123%Z] ++ (span is_space s0).1 ++ v ++ (span is_space s1).1 ++ [125%Z; 125%Z]);
    split; [|cbn; lia]; rewrite <- Hs at 1; rewrite <- Hw at 1; rewrite <- Hr at 1
  end.
  by rewrite <- !app_assoc.
Qed.

(** The scan loses nothing, and its fuel is enough. *)
Lemma scan_lossless n s : (length s ≤ n)%nat → scan n s ≫= raw = s.
Proof.
  revert s. induction n as [|n IH]; intros [|c s] Hn; cbn [scan length] in *; try done; [lia|].
  destruct (match_token (c :: s)) as [[variable rest]|] eqn:Hm.
  - apply match_token_suffix in Hm as (token & Heq & Hlen). rewrite bind_cons. cbn [raw].
    assert (Hl := f_equal length Heq). rewrite length_app in Hl. cbn [length] in Hl.
    rewrite IH, Heq by lia. replace (S (length s) - length rest) with (length token) by lia.
    by rewrite take_app_length.
  - rewrite bind_cons, IH by lia. done.
Qed.

(** ** What a creation leaves *)

Definition name_source (r : ResolvedRecipient) : RecipientNameSource :=
  mkNameSource r.(rr_customName) r.(rr_pushName) r.(rr_phoneNumber).

(** The leaf of one recipient. *)
Record leaf_for (params : CreateBulkJobParams) (jobId : string) (r : ResolvedRecipient) (leaf : scheduled_row) : Prop := {
  lf_to : (leaf.(sm_contact_id), leaf.(sm_bulk_job_id)) = (Some r.(rr_contactId), Some jobId);
  lf_content : leaf.(sm_content) = renderBulkTemplate params.(cp_content) (name_source r);
  lf_media : (leaf.(sm_message_type), leaf.(sm_media_url)) = (params.(cp_messageType), params.(cp_mediaUrl));
  lf_status : (leaf.(sm_status), leaf.(sm_skip_reason))
    = (match r.(rr_skipReason) with Some _ => skipped | None => scheduled end, r.(rr_skipReason));
  lf_when : (leaf.(sm_scheduled_at), leaf.(sm_next_attempt_at), leaf.(sm_attempts))
    = (params.(cp_scheduledAt), params.(cp_scheduledAt), 0%Z);
  lf_author : leaf.(sm_created_by) = params.(cp_createdBy) }.

(** The job of the snapshot. *)
Record job_for (params : CreateBulkJobParams) (ra : ResolvedAudience) (j : job_row) : Prop := {
  jf_status : (j.(bj_status), j.(bj_completed_at), j.(bj_canceled_at)) = (job_scheduled, None, None);
  jf_author : (j.(bj_created_by), j.(bj_idempotency_key)) = (params.(cp_createdBy), Some params.(cp_idempotencyKey));
  jf_message : (j.(bj_name), j.(bj_content), j.(bj_message_type), j.(bj_media_url))
    = (params.(cp_name), params.(cp_content), params.(cp_messageType), params.(cp_mediaUrl));
  jf_audience : (j.(bj_audience), j.(bj_audience_hash)) = (params.(cp_audience), params.(cp_audienceHash));
  jf_when : j.(bj_scheduled_at) = params.(cp_scheduledAt);
  jf_counts : (j.(bj_total_recipients), j.(bj_skipped_recipients))
    = (Z.of_nat (length ra.(eligible)), Z.of_nat (length ra.(skipped_))) }.

(** A request that repeats the one a job was created from. *)
Record repeats (params : CreateBulkJobParams) (j : job_row) : Prop := {
  rp_author : (j.(bj_created_by), j.(bj_idempotency_key)) = (params.(cp_createdBy), Some params.(cp_idempotencyKey));
  rp_message : (j.(bj_name), j.(bj_content), j.(bj_message_type), j.(bj_media_url))
    = (params.(cp_name), params.(cp_content), params.(cp_messageType), params.(cp_mediaUrl));
  rp_when : j.(bj_scheduled_at) = params.(cp_scheduledAt);
  rp_audience : j.(bj_audience_hash) = params.(cp_audienceHash)
    ∧ canonicalAudience j.(bj_audience) = canonicalAudience params.(cp_audience) }.

Section create.
Context `{Oracle} `{Storage} (sha256 : jsstring → string) (config : BulkConfig.config).
Context (params : CreateBulkJobParams).

Definition snapshot_created (t : tables) (j : job_row) (t' : tables) : Prop :=
  ∃ ra leaves, audience_of sha256 params.(cp_audience) t ra
    ∧ ra.(audienceHash) = params.(cp_audienceHash)
    ∧ (0 < length ra.(eligible))%nat ∧ (Z.of_nat (length ra.(eligible)) ≤ config.(BulkConfig.maxRecipientsPerJob))%Z
    ∧ job_for params ra j ∧ Forall2 (leaf_for params j.(bj_id)) (ra.(eligible) ++ ra.(skipped_)) leaves
    ∧ t' = set_rows scheduled_messages (t_scheduled t ++ leaves) (set_rows bulk_jobs (t_jobs t ++ [j]) t).

Definition creation_post (t : tables) (r : CreateBulkJobResult) (t' : tables) : Prop :=
  (r.(cr_created) = true ∧ findUnknownTemplateVariables params.(cp_content) = []
   ∧ (∀ j, j ∈ t_jobs t → j.(bj_idempotency_key) ≠ Some params.(cp_idempotencyKey))
   ∧ snapshot_created t r.(cr_job) t')
  ∨ (r.(cr_created) = false ∧ t' = t ∧ r.(cr_job) ∈ t_jobs t ∧ repeats params r.(cr_job)).

Lemma exec_make_leaf jobId now r t :
  exec (make_leaf params jobId now r) t (λ leaf t', t' = t ∧ leaf_for params jobId r leaf) (λ _ _, False).
Proof. unfold make_leaf. exec_step. exec_step. apply exec_ret. by split. Qed.

Lemma exec_make_leaves jobId now l t :
  exec (mapM (make_leaf params jobId now) l) t
    (λ leaves t', t' = t ∧ Forall2 (leaf_for params jobId) l leaves) (λ _ _, False).
Proof.
  induction l as [|r l IH]; [by apply exec_ret|]. cbn [mapM]. exec_step.
  eapply exec_weaken; [apply exec_make_leaf| |done]. intros leaf t1 [-> Hleaf]. exec_step.
  eapply exec_weaken; [apply IH| |done]. intros leaves t1 [-> Hl]. apply exec_ret. split; [done|]. by constructor.
Qed.

Lemma exec_insert_chunks n l t (E : err → tables → Prop) :
  (length l ≤ n)%nat → (∀ e t', E e t') →
  exec (insert_chunks n l) t (λ _ t', t' = set_rows scheduled_messages (t_scheduled t ++ l) t) E.
Proof.
  intros Hn HE. revert l t Hn. induction n as [|n IH]; intros [|r l] t Hn; cbn [insert_chunks length] in *; try lia.
  1, 2: apply exec_ret; by rewrite app_nil_r; destruct t.
  exec_step. apply exec_insert_rows; [intros _|by intros]. eapply exec_weaken; [apply IH| |done].
  - rewrite length_drop. cbn. lia.
  - intros _ t' ->. transitivity (set_rows scheduled_messages
      ((t_scheduled t ++ take LEAF_INSERT_CHUNK (r :: l)) ++ drop LEAF_INSERT_CHUNK (r :: l)) t); [done|].
    by rewrite <- app_assoc, take_drop.
Qed.

Lemma exec_find_job key t :
  exec (findJobByIdempotencyKey key) t
    (λ o t', t' = t ∧ match o with
                      | Some j => j ∈ t_jobs t ∧ j.(bj_idempotency_key) = Some key
                      | None => ∀ j, j ∈ t_jobs t → j.(bj_idempotency_key) ≠ Some key
                      end) (λ _ _, False).
Proof.
  unfold findJobByIdempotencyKey. apply exec_select_first. split; [done|].
  change (rows bulk_jobs t) with (t_jobs t). destruct (first _ _) as [j|] eqn:Hj.
  - apply first_Some in Hj as [Hj Hk]. unfold is_id in Hk. by to_prop.
  - rewrite first_None in Hj. intros j Hin Hk. specialize (Hj j Hin). unfold is_id in Hj. by to_prop.
Qed.

Lemma exec_replay j t :
  j ∈ t_jobs t → j.(bj_idempotency_key) = Some params.(cp_idempotencyKey) →
  exec (replayOrConflict j params) t (creation_post t) (λ _ t', t' = t).
Proof.
  intros Hj Hk. unfold replayOrConflict. cbv zeta. destruct (_ && _) eqn:Hm; [|by apply exec_throw].
  apply exec_ret. right. to_prop. cbn. split; [done|]. split; [done|]. split; [done|]. split; congruence || auto.
Qed.

Lemma exec_create_snapshot ra now t :
  audience_of sha256 params.(cp_audience) t ra → ra.(audienceHash) = params.(cp_audienceHash) →
  (0 < length ra.(eligible))%nat → (Z.of_nat (length ra.(eligible)) ≤ config.(BulkConfig.maxRecipientsPerJob))%Z →
  exec (create_snapshot params ra now) t (snapshot_created t) (λ _ t', t' = t).
Proof.
  intros Ha Hh Hn Hmax. unfold create_snapshot. apply exec_transaction.
  apply (exec_steady_bind unchanged); [steady|intros _ t1 ->|done].
  exec_step. exec_step. exec_step. apply exec_insert_row; [intros _|done]. exec_step.
  eapply exec_weaken; [apply exec_make_leaves| |done]. intros leaves t1 [-> Hl]. exec_step.
  eapply exec_weaken; [by apply (exec_insert_chunks _ _ _ (λ _ _, True))| |done].
  intros _ t1 ->. apply exec_ret. exists ra, leaves. split; [done|]. split; [done|]. split; [done|].
  split; [done|]. split; [split; cbn; congruence|]. split; [exact Hl|]. done.
Qed.

Lemma exec_createBulkJob t :
  exec (createBulkJob sha256 config params) t (creation_post t) (λ _ t', t' = t).
Proof.
  unfold createBulkJob. destruct (findUnknownTemplateVariables _) as [|x l] eqn:Hu; [|by apply exec_throw].
  exec_step. eapply exec_weaken; [apply exec_find_job| |done]. intros [j|] t1 [-> Hj].
  { destruct Hj. by apply exec_replay. }
  exec_step. eapply exec_weaken; [apply exec_resolve_audience| |done]. intros ra t1 [-> Hra]. cbv zeta.
  destruct (negb _) eqn:Hhash; [by apply exec_throw|]. destruct (_ =? 0)%nat eqn:Hn; [by apply exec_throw|].
  destruct (_ <? _)%Z eqn:Hmax; [by apply exec_throw|]. destruct (_ <? _)%nat; [by apply exec_throw|].
  to_prop. exec_step. exec_step. exec_step. exec_step.
  eapply exec_weaken; [apply exec_create_snapshot; [done|done|lia|lia]| |].
  - intros j t1 Hs. apply exec_ret. by left.
  - intros e t1 ->. destruct e; try by apply exec_throw. exec_step.
    eapply exec_weaken; [apply exec_find_job| |done]. intros [j|] t1 [-> Hj']; [|by apply exec_throw].
    destruct Hj'. by apply exec_replay.
Qed.

(** The key of a created job finds it, and its request repeats it. *)
Lemma exec_again j t t' :
  findUnknownTemplateVariables params.(cp_content) = [] →
  (∀ x, x ∈ t_jobs t → x.(bj_idempotency_key) ≠ Some params.(cp_idempotencyKey)) →
  (∃ ra, job_for params ra j) → t_jobs t' = t_jobs t ++ [j] →
  exec (createBulkJob sha256 config params) t' (λ r t2, r = mkCreateResult j false ∧ t2 = t') (λ _ _, False).
Proof.
  intros Hu Hfresh [ra [Hst Hauthor Hmsg Haud Hwhen _]] Ht. unfold createBulkJob.
  rewrite Hu. unfold findJobByIdempotencyKey. exec_step. apply exec_select_first.
  change (rows bulk_jobs t') with (t_jobs t'). rewrite Ht.
  match goal with |- context [first ?p (t_jobs t ++ [j])] => assert (Hj : first p (t_jobs t ++ [j]) = Some j) end.
  { rewrite first_app, (proj2 (first_None _ _)).
    - unfold first, keep. cbn. unfold is_id. simplify_eq. by rewrite decide_True by by apply bool_decide_eq_true_2.
    - intros x Hx. apply bool_decide_eq_false_2. auto. }
  rewrite Hj. unfold replayOrConflict. simplify_eq.
  repeat rewrite bool_decide_eq_true_2 by congruence. rewrite (proj2 (Z.eqb_eq _ _)) by congruence.
  cbn [andb]. by apply exec_ret.
Qed.

(** C32: Creating a broadcast is idempotent and all or nothing.  A creation that reports a new
    job resolved the same audience as the preview whose hash the user confirmed, with
    at least one eligible recipient and no more than the limit, and wrote exactly the
    job with its counts and one leaf for every recipient, in order, with the rendered
    text, waiting or skipped; a repeated request answers with the job of its key and
    writes nothing, and only when it asks for the same broadcast; every refusal and
    every failure leaves the tables as they were. *)
Theorem create_job_spec s :
  match createBulkJob sha256 config params s with
  | (Ok r, s') => creation_post (tb s) r (tb s')
  | (Throw _, s') => tb s' = tb s
  end.
Proof.
  assert (Hx := exec_run _ s _ _ (exec_createBulkJob (tb s))).
  by destruct (createBulkJob _ _ _ s) as [[r|e] s'].
Qed.

(** A broadcast exists once per key: after a creation that wrote a job, the same request
    answers with that same job and writes nothing, at any later time and whatever the
    contacts, the tags, the connections and the leaves have become. *)
Theorem create_job_idempotent s r s1 s2 :
  createBulkJob sha256 config params s = (Ok r, s1) → r.(cr_created) = true →
  t_jobs (tb s2) = t_jobs (tb s1) →
  ∃ s3, createBulkJob sha256 config params s2 = (Ok (mkCreateResult r.(cr_job) false), s3) ∧ tb s3 = tb s2.
Proof.
  intros Hrun Hnew H2. assert (Hx := exec_run _ s _ _ (exec_createBulkJob (tb s))). rewrite Hrun in Hx.
  destruct Hx as [(_ & Hu & Hfresh & ra & leaves & _ & _ & _ & _ & Hjob & _ & Ht)|[Hold _]]; [|congruence].
  rewrite Ht in H2. assert (Hx := exec_run _ s2 _ _
    (exec_again r.(cr_job) (tb s) (tb s2) Hu Hfresh (ex_intro _ ra Hjob) H2)).
  destruct (createBulkJob _ _ _ s2) as [[r2|e] s3]; [|done]. destruct Hx as [-> Hs]. by exists s3.
Qed.
End create.
