(* ===== verification/BulkProgress.v ===== *)
(** The progress of broadcasts: one job at a time, or a page of jobs in two queries. *)

From S2P Require Import Prelude Js TenantDb Exec Steady Workflow Cases SendAccess Calendar Media Outbound Bulk Scheduled Around ScheduledMoves ScheduledRuns ScheduledSpec BulkJobs.

(** ** What both report *)

(** Every status is counted over the leaves that are there, and over the purged ones
    that the job remembers. *)
Definition progress_of (j : option job_row) (l : list scheduled_row) : BulkJobProgress :=
  let kept st f := (count_status st l + purged f j)%Z in
  mkProgress (count_status scheduled l + count_status processing l + kept sent bj_purged_sent
              + kept failed bj_purged_failed + kept canceled bj_purged_canceled + kept skipped bj_purged_skipped)
    (count_status scheduled l) (count_status processing l) (kept sent bj_purged_sent)
    (kept failed bj_purged_failed) (kept canceled bj_purged_canceled) (kept skipped bj_purged_skipped).

Definition progress_in (jobId : string) (t : tables) : BulkJobProgress :=
  progress_of (first (is_job jobId) (t_jobs t)) (keep (of_job jobId) (t_scheduled t)).

(** ** The map *)

Definition group : Type := string * sched_status * Z.
Definition group_of (jobId : string) (g : group) : bool := bool_decide (g.1.1 = jobId).
Definition add_group (p : BulkJobProgress) (g : group) : BulkJobProgress := add_count g.1.2 g.2 p.

Lemma add_count_0 st p : add_count st 0 p = p.
Proof. destruct p. unfold add_count. cbn. f_equal; repeat case_bool_decide; lia. Qed.

Lemma fold_groups (m : gmap string BulkJobProgress) (gs : list group) jobId :
  default no_progress (foldl (λ (map : gmap string BulkJobProgress) '(j, st, count),
      <[j := add_count st count (default no_progress (map !! j))]> map) m gs !! jobId)
  = foldl add_group (default no_progress (m !! jobId)) (keep (group_of jobId) gs).
Proof.
  revert m. induction gs as [|[[j st] n] gs IH]; intros m; [done|]. cbn [foldl]. rewrite IH, keep_cons.
  unfold group_of at 2. cbn [fst snd]. case_bool_decide as Hj.
  - subst j. by rewrite lookup_insert_eq.
  - by rewrite lookup_insert_ne.
Qed.

Lemma fold_groups_None (m : gmap string BulkJobProgress) (gs : list group) jobId :
  keep (group_of jobId) gs = [] → m !! jobId = None →
  foldl (λ (map : gmap string BulkJobProgress) '(j, st, count),
      <[j := add_count st count (default no_progress (map !! j))]> map) m gs !! jobId = None.
Proof.
  revert m. induction gs as [|[[j st] n] gs IH]; intros m; [done|]. rewrite keep_cons. cbn [foldl].
  destruct (group_of jobId _) eqn:Hj; [done|]. unfold group_of in Hj. cbn in Hj. to_prop. intros Hgs Hm.
  apply IH; [done|]. by rewrite lookup_insert_ne.
Qed.

(** A query on rows that another one let through. *)
Lemma keep_keep {A} (p q : A → bool) l : (∀ x, q x = true → p x = true) → keep q (keep p l) = keep q l.
Proof.
  intros Hpq. induction l as [|x l IH]; [done|]. rewrite keep_cons, (keep_cons q). destruct (p x) eqn:Hp.
  - rewrite keep_cons. by rewrite IH.
  - destruct (q x) eqn:Hq; [by rewrite (Hpq x Hq) in Hp|done].
Qed.

Lemma fold_retained (l : list job_row) jobId :
  unique_on (Some ∘ bj_id) l = true →
  foldl (λ (m : gmap string BulkJobProgress) r, <[r.(bj_id) := retained_progress r]> m) ∅ l !! jobId
  = retained_progress <$> first (is_job jobId) l.
Proof.
  intros Hu. assert (Hgen : ∀ m : gmap string BulkJobProgress,
    foldl (λ m r, <[r.(bj_id) := retained_progress r]> m) m l !! jobId
    = match first (is_job jobId) l with Some r => Some (retained_progress r) | None => m !! jobId end).
  { revert Hu. unfold unique_on. rewrite bool_decide_eq_true. induction l as [|r l IH]; intros Hu m; [done|].
    cbn in Hu. apply NoDup_cons in Hu as [Hr Hu]. cbn [foldl]. rewrite IH by done.
    change (first (is_job jobId) (r :: l)) with (head (keep (is_job jobId) (r :: l))).
    rewrite keep_cons. destruct (is_job jobId r) eqn:Hj; unfold is_job in Hj; to_prop; cbn [head].
    - rewrite (proj2 (first_None _ _)); [by rewrite Hj, lookup_insert_eq|].
      intros x Hx. apply bool_decide_eq_false_2. intros Hid. apply Hr. apply list_elem_of_omap.
      exists x. split; [done|]. cbn. congruence.
    - change (head (keep (is_job jobId) l)) with (first (is_job jobId) l).
      destruct (first _ _); [done|]. by rewrite lookup_insert_ne. }
  rewrite Hgen. by destruct (first _ _).
Qed.

(** The groups of one job. *)
Definition job_groups (jobId : string) (l : list scheduled_row) : list group :=
  st ← all_statuses;
  let n := count_status st (keep (of_job jobId) l) in
  if (0 <? n)%Z then [(jobId, st, n)] else [].

Lemma keep_job_groups jobId j l :
  keep (group_of jobId) (job_groups j l) = if decide (j = jobId) then job_groups j l else [].
Proof.
  unfold job_groups. induction all_statuses as [|st sts IH]; [by case_decide|].
  rewrite !bind_cons, keep_app, IH. cbv zeta. destruct (0 <? _)%Z; [|by case_decide].
  unfold keep, group_of. cbn. repeat case_decide; rewrite ?bool_decide_eq_true in *; done.
Qed.

Lemma keep_grouped jobId l :
  keep (group_of jobId) (grouped l) = job_groups jobId l.
Proof.
  assert (Hempty : jobId ∉ omap sm_bulk_job_id l → job_groups jobId l = []).
  { intros Hn. assert (Hk : keep (of_job jobId) l = []).
    { apply keep_nil_iff. intros r Hr. apply bool_decide_eq_false_2. intros Hj. apply Hn, list_elem_of_omap. eauto. }
    unfold job_groups. rewrite Hk. done. }
  change (grouped l) with (remove_dups (omap sm_bulk_job_id l) ≫= λ j, job_groups j l).
  rewrite <- elem_of_remove_dups in Hempty. assert (Hnd := NoDup_remove_dups (omap sm_bulk_job_id l)).
  revert Hempty Hnd. induction (remove_dups _) as [|j js IH]; intros Hempty Hnd.
  { by rewrite Hempty by apply not_elem_of_nil. }
  rewrite bind_cons, keep_app, keep_job_groups. apply NoDup_cons in Hnd as [Hj Hnd]. case_decide as Heq.
  - subst j. rewrite (proj2 (keep_nil_iff _ _)); [by rewrite app_nil_r|].
    intros [[k st] n] (j & Hin & Hjs)%list_elem_of_bind. apply bool_decide_eq_false_2. cbn. intros ->.
    unfold job_groups in Hin. apply list_elem_of_bind in Hin as (st' & Hin & _).
    destruct (0 <? _)%Z; [|by apply not_elem_of_nil in Hin]. apply list_elem_of_singleton in Hin. by simplify_eq.
  - apply IH; [|done]. intros Hn. apply Hempty. set_solver.
Qed.

(** An empty group would change nothing. *)
Lemma fold_job_groups p jobId l :
  foldl add_group p (job_groups jobId l)
  = foldl (λ p st, add_count st (count_status st (keep (of_job jobId) l)) p) p all_statuses.
Proof.
  unfold job_groups. revert p. induction all_statuses as [|st sts IH]; intros p; [done|].
  rewrite bind_cons, foldl_app, IH. cbn [foldl]. cbv zeta. f_equal.
  destruct (0 <? _)%Z eqn:Hn; [done|]. to_prop. unfold count_status in *. cbn [foldl].
  by replace (Z.of_nat (length _)) with 0%Z by lia; rewrite add_count_0.
Qed.

Lemma fold_all_statuses (j : option job_row) l :
  foldl (λ p st, add_count st (count_status st l) p) (default no_progress (retained_progress <$> j)) all_statuses
  = progress_of j l.
Proof.
  unfold progress_of, purged. destruct j as [j|]; cbv -[Z.add count_status]; f_equal; lia.
Qed.

Section progress.
Context `{Oracle}.

Lemma exec_progress jobId t :
  exec (getBulkJobProgress jobId) t (λ p t', p = progress_in jobId t ∧ t' = t) (λ _ _, False).
Proof.
  unfold getBulkJobProgress. do 5 exec_step. apply exec_ret. by split.
Qed.

Lemma exec_progress_map jobIds t :
  keyed_jobs t →
  exec (getBulkJobProgressMap jobIds) t
    (λ m t', t' = t ∧ ∀ jobId, (jobId ∈ jobIds → default no_progress (m !! jobId) = progress_in jobId t)
                             ∧ (jobId ∉ jobIds → m !! jobId = None))
    (λ _ _, False).
Proof.
  intros Hk. unfold getBulkJobProgressMap. destruct jobIds as [|i ids].
  { apply exec_ret. split; [done|]. intros j. split; [by intros ?%not_elem_of_nil|done]. }
  set (jobIds := i :: ids). do 5 exec_step. apply exec_ret. split; [done|]. intros jobId. 
  change (rows scheduled_messages t) with (t_scheduled t). change (rows bulk_jobs t) with (t_jobs t).
  set (p := λ r : scheduled_row, _). set (q := λ r : job_row, bool_decide _).
  assert (Hun : unique_on (Some ∘ bj_id) (keep q (t_jobs t)) = true).
  { apply unique_on_keep. unfold keyed_jobs in Hk. cbn [constraint bulk_jobs] in Hk. by apply checks_cons in Hk as [? _]. }
  split.
  - intros Hj. rewrite fold_groups, keep_grouped, fold_job_groups, fold_retained by done.
    rewrite keep_keep. 2: { intros r Hr. unfold of_job, is_id in Hr. to_prop. subst p. cbv beta. rewrite Hr.
      by apply bool_decide_eq_true_2. }
    rewrite fold_all_statuses. unfold progress_in, first. rewrite keep_keep; [done|].
    intros r Hr. unfold is_job in Hr. to_prop. subst q. cbv beta. apply bool_decide_eq_true_2. congruence.
  - intros Hj. apply fold_groups_None.
    + rewrite keep_grouped. unfold job_groups. rewrite (proj2 (keep_nil_iff _ (keep p _))); [done|].
      intros r [Hp _]%elem_of_keep. apply bool_decide_eq_false_2. intros Hr. subst p. cbv beta in Hp.
      rewrite Hr in Hp. to_prop. done.
    + rewrite fold_retained by done. unfold first. rewrite (proj2 (keep_nil_iff _ (keep q _))); [done|].
      intros r [Hq _]%elem_of_keep. apply bool_decide_eq_false_2. intros Hr. subst q. cbv beta in Hq.
      to_prop. congruence.
Qed.
End progress.

(** A page of jobs shows what each job's own page shows: for every requested id the
    batch query reports, from two queries and one pass, exactly the counts that the
    single query computes (nothing to report counting as zero), for no other id, and
    both read one state without changing it. *)
Theorem progress_map_spec `{Oracle} jobIds s :
  keyed_jobs (tb s) →
  ∃ m s', getBulkJobProgressMap jobIds s = (Ok m, s') ∧ tb s' = tb s
    ∧ (∀ jobId, jobId ∈ jobIds → ∀ s1, tb s1 = tb s →
       ∃ s1', getBulkJobProgress jobId s1 = (Ok (default no_progress (m !! jobId)), s1') ∧ tb s1' = tb s)
    ∧ ∀ jobId, jobId ∉ jobIds → m !! jobId = None.
Proof.
  intros Hk. assert (Hx := exec_run _ s _ _ (exec_progress_map jobIds (tb s) Hk)).
  destruct (getBulkJobProgressMap jobIds s) as [[m|e] s']; [|done]. destruct Hx as [Ht Hm].
  exists m, s'. split; [done|]. split; [done|]. split; [|intros j; apply Hm].
  intros jobId Hj s1 H1. assert (Hp := exec_run _ s1 _ _ (exec_progress jobId (tb s1))).
  destruct (getBulkJobProgress jobId s1) as [[p|e] s1']; [|done]. destruct Hp as [-> Hp].
  exists s1'. rewrite (proj1 (Hm jobId) Hj). by rewrite Hp, H1.
Qed.
