(* ===== verification/BulkPacing.v ===== *)
(** The pace of a broadcast.

    Every connection has a budget: the time of its next send and the sends of the
    day.  [paced] is what a budget allows a sequence of claims to be, and the claims
    of a run on one connection are [paced], because only a claim writes budgets. *)

From S2P Require Import Prelude Js TenantDb Exec Steady Workflow Cases SendAccess Calendar Media Outbound Bulk Scheduled Around ScheduledMoves ScheduledRuns.

(** A claim of a leaf: the connection, the dispatcher's time and the database's day. *)
Record claim := mkClaim { cl_connection : string; cl_now : Z; cl_day : Z }.

Definition budget_of (c : string) (t : tables) : option budget_row :=
  first (is_connection c) (t_budgets t).

(** ** Sequences that a budget allows *)

Section paced.
Context (interval cap : Z).

Fixpoint paced (b : option budget_row) (l : list claim) : Prop :=
  match l with
  | [] => True
  | x :: l =>
      (∀ r, b = Some r → (r.(bb_next_eligible_at) ≤ x.(cl_now))%Z)
      ∧ ∃ r, r.(bb_next_eligible_at) = (x.(cl_now) + interval)%Z ∧ r.(bb_quota_date) = x.(cl_day)
             ∧ (1 ≤ r.(bb_sent_today) ≤ cap)%Z
             ∧ (∀ o, b = Some o → o.(bb_quota_date) = x.(cl_day) →
                r.(bb_sent_today) = (o.(bb_sent_today) + 1)%Z)
             ∧ paced (Some r) l
  end.

Lemma paced_weaken b b' l : (∀ r, b = Some r → b' = Some r) → paced b' l → paced b l.
Proof.
  intros Hb. destruct l as [|x l]; [done|]. cbn [paced]. intros (Hn & r & ? & ? & ? & Hd & Hl).
  split; [auto|]. exists r. do 3 (split; [done|]). split; [|done]. intros o Ho. by apply Hd, Hb.
Qed.

Definition spaced (x y : claim) : Prop := (x.(cl_now) + interval ≤ y.(cl_now))%Z.

Lemma paced_spaced b l :
  (0 ≤ interval)%Z → paced b l →
  StronglySorted spaced l ∧ (∀ r y, b = Some r → y ∈ l → (r.(bb_next_eligible_at) ≤ y.(cl_now))%Z).
Proof.
  intros Hi. revert b. induction l as [|x l IH]; intros b; cbn [paced].
  { intros _. split; [constructor|]. intros r y _ Hy. by apply not_elem_of_nil in Hy. }
  intros (Hb & r & Hn & _ & _ & _ & Hl). destruct (IH _ Hl) as [Hs Hall].
  assert (Hx : ∀ y, y ∈ l → spaced x y).
  { intros y Hy. unfold spaced. rewrite <- Hn. by apply Hall. }
  split; [constructor; [done|by apply Forall_forall]|].
  intros o y Ho [->|Hy]%elem_of_cons; [by apply Hb|]. specialize (Hb o Ho). apply Hx in Hy.
  unfold spaced in Hy. lia.
Qed.

Definition on_day (d : Z) (x : claim) : bool := (x.(cl_day) =? d)%Z.
Definition day_le (x y : claim) : Prop := (x.(cl_day) ≤ y.(cl_day))%Z.

Lemma paced_day r l d :
  paced (Some r) l → r.(bb_quota_date) = d → (r.(bb_sent_today) ≤ cap)%Z →
  StronglySorted day_le l → Forall (λ x, (d ≤ x.(cl_day))%Z) l →
  (r.(bb_sent_today) + Z.of_nat (length (keep (on_day d) l)) ≤ cap)%Z.
Proof.
  revert r. induction l as [|x l IH]; intros r; [intros; simpl length; lia|]. cbn [paced].
  intros (_ & r' & _ & Hd & Hcap & Hn & Hl) Hr Hle [Hs Hx]%StronglySorted_inv [Hdx Hall]%Forall_cons.
  rewrite keep_cons. unfold on_day at 1. destruct (Z.eqb_spec x.(cl_day) d) as [Heq|Hne].
  - specialize (Hn r eq_refl). rewrite Hr in Hn. specialize (Hn (eq_sym Heq)).
    assert (Hr' : bb_quota_date r' = d) by congruence.
    specialize (IH r' Hl Hr' (proj2 Hcap) Hs Hall). cbn [length]. lia.
  - rewrite (proj2 (keep_nil_iff _ _)); [simpl length; lia|]. intros y Hy. unfold on_day.
    rewrite Forall_forall in Hx. specialize (Hx y Hy). unfold day_le in Hx. to_prop. lia.
Qed.

Lemma paced_count b l d :
  (0 ≤ cap)%Z → paced b l → StronglySorted day_le l → (Z.of_nat (length (keep (on_day d) l)) ≤ cap)%Z.
Proof.
  intros Hc. revert b. induction l as [|x l IH]; intros b; [done|]. cbn [paced].
  intros (_ & r & _ & Hd & Hcap & _ & Hl) [Hs Hx]%StronglySorted_inv.
  rewrite keep_cons. unfold on_day at 1. destruct (Z.eqb_spec x.(cl_day) d) as [Heq|Hne]; [|by eapply IH].
  assert (Hall : Forall (λ y, (d ≤ y.(cl_day))%Z) l) by (rewrite <- Heq; exact Hx).
  assert (Hday := paced_day r l d Hl (eq_trans Hd Heq) (proj2 Hcap) Hs Hall). cbn [length]. lia.
Qed.
End paced.

(** ** Claims of a run *)

Section claims.
Context `{Oracle} (config : BulkConfig.config).

Lemma budget_set_other c c' f l :
  c' ≠ c → (∀ r, is_connection c r = true → (f r).(bb_whatsapp_connection_id) = c) →
  first (is_connection c') (update_where (is_connection c) f l) = first (is_connection c') l.
Proof.
  intros Hne Hf. unfold first. rewrite keep_update_where_frame; [done|].
  unfold is_connection in *. intros r _ Hr. to_prop. split; apply bool_decide_eq_false_2; [congruence|].
  rewrite Hf; [done|]. by apply bool_decide_eq_true_2.
Qed.

(** What the claim of a leaf does to the budgets. *)
Definition charged (c : string) (now : Z) (t : tables) (leaf : option scheduled_row) (t' : tables) : Prop :=
  (∀ c', c' ≠ c → budget_of c' t' = budget_of c' t)
  ∧ match leaf with
    | None => ∃ fresh, fresh.(bb_sent_today) = 0%Z ∧ budget_of c t' = Some (default fresh (budget_of c t))
    | Some _ => ∃ r, budget_of c t' = Some r
        ∧ (∀ b, budget_of c t = Some b → (b.(bb_next_eligible_at) ≤ now)%Z)
        ∧ r.(bb_next_eligible_at) = (now + config.(BulkConfig.sendIntervalMs))%Z
        ∧ ((∀ b, budget_of c t = Some b → (0 ≤ b.(bb_sent_today))%Z) →
           (1 ≤ r.(bb_sent_today) ≤ config.(BulkConfig.dailyCapPerConnection))%Z)
        ∧ (∀ b, budget_of c t = Some b → b.(bb_quota_date) = r.(bb_quota_date) →
           r.(bb_sent_today) = (b.(bb_sent_today) + 1)%Z)
    end.

Lemma exec_claim_leaf locked c now until used today t (b : budget_row) :
  budget_of c t = Some b →
  exec (claim_leaf config locked c now until used today) t
    (λ leaf t', (∀ c', c' ≠ c → budget_of c' t' = budget_of c' t) ∧
       match leaf with
       | None => t' = t
       | Some _ => ∃ updated_at, budget_of c t' =
           Some (charge_budget (used + 1) today (now + config.(BulkConfig.sendIntervalMs)) updated_at b)
       end)
    (λ _ _, True).
Proof.
  intros Hb. unfold claim_leaf. do 4 exec_step. destruct (head _) as [leaf|]; [|by apply exec_ret].
  exec_step. exec_step. exec_step. apply exec_update; [intros _|done]. exec_step. exec_step. exec_step.
  apply exec_update; [intros _|done]. apply exec_ret. split.
  - intros c' Hne. apply budget_set_other; [done|]. intros r Hr. unfold is_connection in Hr. by to_prop.
  - exists z0. unfold budget_of. cbn [t_budgets set_rows bulk_connection_budgets].
    rewrite first_update_where; [|done..]. unfold budget_of in Hb. cbn. by rewrite Hb.
Qed.

(** The budget row is there once the claim has looked. *)
Lemma exec_ensure_budget c r t :
  is_connection c r = true →
  exec (insert_on_conflict_nothing bulk_connection_budgets (is_connection c) r) t
    (λ _ t', (∀ c', c' ≠ c → budget_of c' t' = budget_of c' t)
             ∧ budget_of c t' = Some (default r (budget_of c t)))
    (λ _ _, True).
Proof.
  intros Hr. apply exec_insert_on_conflict_nothing; [| |done].
  - intros Hany. split; [done|]. unfold budget_of. rewrite first_holds_any in Hany.
    apply bool_decide_eq_true in Hany as [b Hb]. cbn in Hb. by rewrite Hb.
  - intros Hany _. rewrite first_holds_any, bool_decide_eq_false, <- eq_None_not_Some in Hany.
    unfold budget_of. change (rows bulk_connection_budgets t) with (t_budgets t) in *.
    cbn [t_budgets set_rows bulk_connection_budgets]. split.
    + intros c' Hne. rewrite first_app. destruct (first (is_connection c') (t_budgets t)); [done|].
      apply first_None. intros y ->%list_elem_of_singleton. unfold is_connection in *.
      apply bool_decide_eq_false_2. to_prop. congruence.
    + rewrite first_app, Hany. unfold first, keep. cbn. by rewrite Hr.
Qed.

Lemma exec_claim locked c now until t :
  exec (claimBulkLeafForConnection config locked c now until) t (charged c now t) (λ _ t', t' = t).
Proof.
  unfold claimBulkLeafForConnection, current_date. apply exec_transaction. do 7 exec_step.
  eapply exec_weaken; [apply exec_ensure_budget; by apply bool_decide_eq_true_2| |done].
  intros _ t1 [Ho Hb]. exec_step. exec_step. unfold budget_of in Hb at 1.
  change (rows bulk_connection_budgets t1) with (t_budgets t1). rewrite Hb.
  match goal with |- context [default ?r (budget_of c t)] => set (new := r) in * end.
  assert (Hnone : charged c now t None t1) by (split; [done|by exists new]).
  destruct (_ <=? _)%Z eqn:Hcap; [by apply exec_ret|]. destruct (now <? _)%Z eqn:Hnow; [by apply exec_ret|].
  exec_step. exec_step. exec_step; [|by apply exec_ret]. exec_step; [by apply exec_ret|].
  eapply exec_weaken; [by apply exec_claim_leaf| |done]. intros leaf t2 [Ho2 Hleaf].
  split; [intros c' Hne; by rewrite Ho2, Ho|]. destruct leaf as [leaf|]; [|subst t2; apply Hnone].
  destruct Hleaf as [u Hu]. eexists. split; [exact Hu|]. cbn [bb_next_eligible_at bb_quota_date bb_sent_today charge_budget].
  to_prop. split; [intros b Hbt; rewrite Hbt in Hnow; cbn in Hnow; lia|]. split; [done|]. split.
  - intros Hpos. destruct (budget_of c t) as [b|] eqn:Hbt; cbn in *.
    + specialize (Hpos b eq_refl). destruct (bb_quota_date b =? _)%Z; lia.
    + rewrite Z.eqb_refl in *. subst new. cbn in *. lia.
  - intros b Hbt Hd. rewrite Hbt in *. cbn in *. by rewrite Hd, Z.eqb_refl.
Qed.
End claims.

(** ** The pace of a run *)

Section runs.
Context `{Oracle} `{Storage} `{TimeZone} (driver_message : err → string).
Context (broadcast : string → sched_status → M unit) (Hbroadcast : ∀ i st, reads (broadcast i st)).
Context (sha256 : jsstring → string) (config : BulkConfig.config) (companyId : string).

(** The claim that an operation makes between two states: its day is the one that the
    budget of the connection records. *)
Definition claim_of (op : sched_op) (s s' : db) : list claim :=
  match op with
  | ClaimLeaf locked c now until =>
      match claimBulkLeafForConnection config locked c now until s with
      | (Ok (Some _), _) => [mkClaim c now (default 0%Z (bb_quota_date <$> budget_of c (tb s')))]
      | _ => []
      end
  | _ => []
  end.

Fixpoint claim_log (ops : list sched_op) (s : db) : list claim :=
  match ops with
  | [] => []
  | op :: ops =>
      let s1 := (run_op driver_message broadcast sha256 config companyId op s).2 in
      claim_of op s s1 ++ claim_log ops s1
  end.

Definition on_connection (c : string) (x : claim) : bool := bool_decide (x.(cl_connection) = c).

Definition used_budget (t : tables) (c : string) : Prop :=
  ∀ b, budget_of c t = Some b → (0 ≤ b.(bb_sent_today))%Z.

Lemma run_claim_leaf locked c now until s :
  (run_op driver_message broadcast sha256 config companyId (ClaimLeaf locked c now until) s).2
  = (claimBulkLeafForConnection config locked c now until s).2.
Proof. cbn [run_op]. unfold mbind, M_bind. by destruct (claimBulkLeafForConnection _ _ _ _ _ s) as [[?|?] ?]. Qed.

Lemma used_charged c c0 now t leaf t' : charged config c0 now t leaf t' → used_budget t c → used_budget t' c.
Proof using.
  intros [Ho Hl] Hu b Hb. destruct (decide (c = c0)) as [->|Hne]; [|apply Hu; by rewrite <- Ho].
  destruct leaf as [leaf|].
  - destruct Hl as (r & Hr & _ & _ & Hr1 & _). rewrite Hr in Hb. injection Hb as <-. specialize (Hr1 Hu). lia.
  - destruct Hl as (r & H0r & Hr). rewrite Hr in Hb. injection Hb as <-.
    destruct (budget_of c0 t) as [b|] eqn:E; cbn; [by apply Hu|lia].
Qed.

Abbreviation paced_on := (paced config.(BulkConfig.sendIntervalMs) config.(BulkConfig.dailyCapPerConnection)).

Lemma paced_charged c c0 now t leaf t' l :
  charged config c0 now t leaf t' → used_budget t c → paced_on (budget_of c t') l →
  paced_on (budget_of c t)
    (keep (on_connection c)
       (match leaf with
        | Some _ => [mkClaim c0 now (default 0%Z (bb_quota_date <$> budget_of c0 t'))]
        | None => []
        end) ++ l).
Proof using.
  intros [Ho Hl] Hu Hp. destruct leaf as [leaf|].
  2: { cbn. eapply paced_weaken; [|exact Hp]. intros r Hr.
       destruct (decide (c = c0)) as [->|Hne]; [|by rewrite Ho].
       destruct Hl as (fresh & _ & ->). by rewrite Hr. }
  rewrite keep_cons. unfold on_connection at 1. cbn [cl_connection]. case_bool_decide as Heq.
  - subst c0. destruct Hl as (r & Hr & Hn & Hi & Hc & Hd). rewrite Hr in Hp |- *. cbn. split; [done|].
    exists r. split; [done|]. split; [done|]. split; [by apply Hc|]. by split.
  - change (paced_on (budget_of c t) l). by rewrite <- Ho.
Qed.

(** One operation, seen from a connection: it claims nothing and keeps the budget, or it
    is a claim that the budget allows. *)
Lemma run_op_budget op s c l :
  let s1 := (run_op driver_message broadcast sha256 config companyId op s).2 in
  used_budget (tb s) c → (used_budget (tb s1) c → paced_on (budget_of c (tb s1)) l) →
  used_budget (tb s1) c ∧ paced_on (budget_of c (tb s)) (keep (on_connection c) (claim_of op s s1) ++ l).
Proof using Hbroadcast.
  cbv zeta. intros Hu Hl. destruct (claims_leaf op) eqn:Hop.
  - destruct op as [|locked c0 now until| | | | | | | | | | | | | | |]; try discriminate Hop.
    cbn [claim_of]. rewrite run_claim_leaf in *.
    assert (Hx := exec_run _ s _ _ (exec_claim config locked c0 now until (tb s))).
    destruct (claimBulkLeafForConnection config locked c0 now until s) as [[leaf|e] s1]; cbn [snd] in *.
    + assert (Hu1 := used_charged _ _ _ _ _ _ Hx Hu). split; [done|].
      assert (Hp := paced_charged _ _ _ _ _ _ l Hx Hu (Hl Hu1)). by destruct leaf.
    + rewrite Hx in *. auto.
  - assert (Hx := exec_run _ s _ _ (steady_run_other driver_message broadcast sha256 config companyId
      Hbroadcast same_budgets op Hop (tb s))).
    assert (Heq : t_budgets (tb (run_op driver_message broadcast sha256 config companyId op s).2) = t_budgets (tb s))
      by (by destruct (run_op _ _ _ _ _ op s) as [[?|?] ?]).
    assert (Hnone : ∀ s1, claim_of op s s1 = []) by (intros; by destruct op).
    rewrite Hnone. unfold used_budget, budget_of in *. rewrite Heq in *. auto.
Qed.

Lemma claim_log_paced ops s c :
  used_budget (tb s) c → paced_on (budget_of c (tb s)) (keep (on_connection c) (claim_log ops s)).
Proof using Hbroadcast.
  revert s. induction ops as [|op ops IH]; intros s Hu; [done|]. cbn [claim_log]. rewrite keep_app.
  apply run_op_budget; [done|apply IH].
Qed.

(** C31: Broadcasts keep their pace, whatever dispatchers run and however the environment
    configures them: in any run of operations, two claims on one connection are at least
    the send interval apart, which is never below ten seconds, and on a database clock
    whose days do not run backwards a connection's claims of one day stay within the
    daily cap, which is never above 1000. *)
Theorem bulk_pacing env ops s c :
  config = BulkConfig.getBulkConfig env → used_budget (tb s) c →
  let claims := keep (on_connection c) (claim_log ops s) in
  (10000 ≤ config.(BulkConfig.sendIntervalMs))%Z ∧ (config.(BulkConfig.dailyCapPerConnection) ≤ 1000)%Z
  ∧ StronglySorted (spaced config.(BulkConfig.sendIntervalMs)) claims
  ∧ (StronglySorted day_le claims →
     ∀ d, (Z.of_nat (length (keep (on_day d) claims)) ≤ config.(BulkConfig.dailyCapPerConnection))%Z).
Proof using Hbroadcast.
  intros Hc Hu. cbv zeta. assert (Hp := claim_log_paced ops s c Hu).
  assert (Hi : (10000 ≤ BulkConfig.sendIntervalMs config)%Z).
  { rewrite Hc. cbn. unfold BulkConfig.clamp, BulkConfig.HARD_MIN_SEND_INTERVAL_MS, MAX_SAFE_INTEGER. lia. }
  assert (Hd : (1 ≤ BulkConfig.dailyCapPerConnection config ≤ 1000)%Z).
  { rewrite Hc. cbn. unfold BulkConfig.clamp, BulkConfig.HARD_MAX_DAILY_CAP. lia. }
  split; [done|]. split; [lia|]. split.
  - apply (paced_spaced _ (BulkConfig.dailyCapPerConnection config) (budget_of c (tb s))); [lia|done].
  - intros Hs d. apply (paced_count (BulkConfig.sendIntervalMs config) _ (budget_of c (tb s))); [lia|done..].
Qed.
End runs.
