(* ===== verification/ScheduledWitness.v ===== *)
(** Concrete runs of the scheduled-message dispatcher.

    A workspace whose contact c1 is reached over the linked device w1, with a scheduled
    message r1 of the owner u1 and a leaf r2 of the broadcast j1.  The lemmas apply the
    theorems of the dispatcher to it. *)

From S2P Require Import Prelude Js PublicRows SpineRows TenantDb Exec Steady Workflow Cases SendAccess Phase Lifecycle LifecycleSpec LifecycleWitness Calendar Media Outbound Bulk Scheduled Around ScheduledMoves ScheduledRuns ScheduledSpec SendSpec BulkPacing.

#[local] Existing Instance Calendar.utc_days.

#[export] Instance demo_storage : Storage := {|
  decodedKey url := Some url;
  headObject key := head_not_found;
  deleteAccepted key := true;
  getPrivateMediaReference key := key |}.

Definition quiet_broadcast (i : string) (st : sched_status) : M unit := mret tt.
Lemma quiet_broadcast_reads i st : reads (quiet_broadcast i st).
Proof. by intros s. Qed.

Definition driver (e : err) : string := "driver error".
Definition no_hash (s : jsstring) : string := "hash".
Definition demo_env (name : string) : option jsstring := None.
Definition demo_config : BulkConfig.config := BulkConfig.getBulkConfig demo_env.

Definition reached_contact : contact_row :=
  mkContact "c1" (Some (js "1@s.whatsapp.net")) None None None false false (Some "w1") 0 no_profile.
Definition demo_schedule (i : string) (job : option string) : scheduled_row :=
  mkScheduled i (Some "c1") None (js "hi") "text" None None None None 500 scheduled 0 500 None None
    "u1" None None None 0 0 job None None None.
Definition demo_job : job_row :=
  mkJob "j1" (js "news") job_scheduled (js "hi") "text" None None None (mkAudience [] ["c1"] None)
    "hash" 500 1 0 0 0 0 0 (Some "key") "u1" None None None 0 0.

Definition dispatch_tables : tables :=
  mkTables [reached_contact] [demo_conversation "v1" (Some "c1")] [] [] [] [demo_message "m1" false]
    [demo_schedule "r1" None; demo_schedule "r2" (Some "j1")] [demo_job]
    [mkConnection "w1" (Some (js "9@s.whatsapp.net")) None connected None] [] [demo_policy] [] [] []
    [mkSession "ws1" "w1" None 0] [] [] [] [] no_public no_spine.

Definition sched0 : db := mkDb dispatch_tables 0 0 0 0.
(** After an inbound message of c1, then the claim of the thread by u1. *)
Definition sched1 : db := (run (InboundMessage "co" "c1" false "m1") sched0).2.
Definition sched2 : db := (requireSendAccess "c1" "u1" None sched1).2.

Lemma sched0_inv : Inv (tb sched0).
Proof.
  apply Inv_fresh; [|done..]. split; cbn [t_conversations t_contacts tb sched0 dispatch_tables]; by_rows.
  exists reached_contact. split; [left|done].
Qed.
Lemma sched1_inv : Inv (tb sched1).
Proof. by apply run_inv; [apply sched0_inv|]. Qed.
Lemma sched2_inv : Inv (tb sched2).
Proof.
  assert (H := exec_run _ sched1 _ _ (requireSendAccess_exec "c1" "u1" None (tb sched1) sched1_inv)).
  unfold sched2. destruct (requireSendAccess "c1" "u1" None sched1) as [[r|e] s] eqn:E; [apply H|].
  exfalso. vm_compute in E. done.
Qed.

Lemma sched2_keyed : keyed_schedules (tb sched2).
Proof. vm_compute. reflexivity. Qed.

Abbreviation run_demo := (run_ops driver quiet_broadcast no_hash demo_config "co").

(** A dispatcher leases r1 and sends it twice, another tries under its own lease. *)
Definition demo_ops : list sched_op :=
  let leased := demo_schedule "r1" None in
  [ClaimBatch (λ _, false) 1000 2000; Send leased 2000; Send leased 2000;
   ClaimBatch (λ _, false) 3000 4000; Send leased 4000;
   ClaimLeaf (λ _, false) "w1" 1000 2000; Send (demo_schedule "r2" (Some "j1")) 2000;
   ClaimLeaf (λ _, false) "w1" 99999 120000].

Lemma demo_sends : (run_demo demo_ops sched2).1 = [("r1", "i3"); ("r2", "i9")].
Proof. vm_compute. reflexivity. Qed.

(** After the claim of r1. *)
Definition leased1 : db := (claim_batch (λ _, false) 1000 2000 sched2).2.
Definition leased_row : scheduled_row := claim_row 2000 1004 (demo_schedule "r1" None).

Lemma leased1_rows : t_scheduled (tb leased1) = [leased_row; demo_schedule "r2" (Some "j1")].
Proof. vm_compute. reflexivity. Qed.
Lemma leased1_keyed : keyed_schedules (tb leased1).
Proof. vm_compute. reflexivity. Qed.
Lemma leased_row_in : leased_row ∈ t_scheduled (tb leased1).
Proof. rewrite leased1_rows. left. Qed.

(** The claim writes no table of the conversation workflow. *)
Lemma leased1_inv : Inv (tb leased1).
Proof.
  assert (Heq : t_assignments (tb leased1) = t_assignments (tb sched2)) by (vm_compute; reflexivity).
  assert (Hcore : same_core (tb sched2) (tb leased1)) by (unfold same_core; split_and!; vm_compute; reflexivity).
  apply (Inv_same_core _ _ Hcore); [|apply sched2_inv]. unfold assignments_ok. rewrite Heq. apply sched2_inv.
Qed.

Lemma demo_uuids u : drawn_uuid u → filled (Some u) = true.
Proof. by intros [n ->]. Qed.

Lemma sent_at_most_once_witness :
  let '(out, s') := run_demo demo_ops sched2 in
  NoDup out.*1
  ∧ (∀ r, r ∈ t_scheduled (tb sched2) → r.(sm_status) ∉ [scheduled; processing] → r.(sm_id) ∉ out.*1)
  ∧ (∀ i m, (i, m) ∈ out → ∃ r, r ∈ t_scheduled (tb s') ∧ r.(sm_id) = i ∧ r.(sm_status) = sent
                                 ∧ r.(sm_sent_message_id) = Some m).
Proof.
  pose proof (sent_at_most_once driver quiet_broadcast quiet_broadcast_reads no_hash demo_config "co"
    demo_ops sched2 sched2_keyed) as Hw. exact Hw.
Defined.

(** The owner cancels r1; dispatchers then try to claim and to send it. *)
Definition canceled1 : db := (cancelScheduled "co" "u1" true "r1" sched2).2.

Lemma canceled_never_sent_witness :
  let '(out, s') := run_demo demo_ops canceled1 in
  ("r1" ∉ out.*1) ∧ ∃ r', r' ∈ t_scheduled (tb s') ∧ r'.(sm_id) = "r1" ∧ r'.(sm_status) = canceled.
Proof.
  apply (canceled_never_sent driver quiet_broadcast quiet_broadcast_reads no_hash demo_config "co"
    "u1" true "r1" demo_ops sched2 canceled1 tt); vm_compute; reflexivity.
Defined.

Lemma bulk_pacing_witness :
  let claims := keep (on_connection "w1") (claim_log driver quiet_broadcast no_hash demo_config "co" demo_ops sched2) in
  (10000 ≤ demo_config.(BulkConfig.sendIntervalMs))%Z ∧ (demo_config.(BulkConfig.dailyCapPerConnection) ≤ 1000)%Z
  ∧ StronglySorted (spaced demo_config.(BulkConfig.sendIntervalMs)) claims
  ∧ (StronglySorted day_le claims →
     ∀ d, (Z.of_nat (length (keep (on_day d) claims)) ≤ demo_config.(BulkConfig.dailyCapPerConnection))%Z).
Proof.
  apply (bulk_pacing driver quiet_broadcast quiet_broadcast_reads no_hash demo_config "co" demo_env
    demo_ops sched2 "w1"); [reflexivity|]. intros b Hb. vm_compute in Hb. discriminate Hb.
Defined.

Lemma send_spec_witness :
  match sendScheduledMessage driver "co" (demo_schedule "r1" None) 2000 leased1 with
  | (Ok (Some d), s') => sent_post "co" (demo_schedule "r1" None) 2000 d.(ds_messageId) (tb leased1) (tb s')
  | (Ok None, s') => canceled_post (demo_schedule "r1" None) 2000 (tb leased1) (tb s')
  | (Throw _, s') => tb s' = tb leased1
  end.
Proof.
  pose proof (send_spec driver "co" (demo_schedule "r1" None) 2000 leased1 leased1_inv demo_uuids) as Hw.
  exact Hw.
Defined.

Lemma claim_spec_witness :
  ∃ claimed s', claim_batch (λ _, false) 1000 2000 sched2 = (Ok claimed, s')
    ∧ claimed_from (λ _, false) 1000 2000 (tb sched2) claimed (tb s')
    ∧ ∀ locked' now' claimUntil' s2 claimed' s2',
        tb s2 = tb s' → (now' < 2000)%Z →
        claim_batch locked' now' claimUntil' s2 = (Ok claimed', s2') →
        ∀ r r', r ∈ claimed → r' ∈ claimed' → r.(sm_id) ≠ r'.(sm_id).
Proof. exact (claim_spec (λ _, false) 1000 2000 sched2 sched2_keyed). Defined.

(** Another dispatcher's lease on r1 is none. *)
Lemma leased1_other : unleased "r1" 1999 (tb leased1).
Proof. unfold unleased. rewrite leased1_rows. by_rows. Qed.

Lemma stale_lease_inert_witness :
  let '(r, s') := run_op driver quiet_broadcast no_hash demo_config "co" (Send (demo_schedule "r1" None) 1999) leased1 in
  tb s' = tb leased1 ∧ ∀ x, r ≠ Ok (Some x).
Proof.
  pose proof (stale_lease_inert driver quiet_broadcast no_hash demo_config "co"
    (Send (demo_schedule "r1" None) 1999) "r1" 1999 leased1 eq_refl) as Hw.
  exact (Hw leased1_other).
Defined.

Lemma failure_spec_witness :
  let '(res, s') := recordDispatchFailure driver quiet_broadcast "co" (demo_schedule "r1" None) 2000
                      (OtherError "offline") leased1 in
  let attempts := ((demo_schedule "r1" None).(sm_attempts) + 1)%Z in
  let final := is_permanent (OtherError "offline") || (10 <=? attempts)%Z in
  (∀ b, res = Ok b → b = final)
  ∧ ∃ r' failed_at delay,
      only_media (set_rows scheduled_messages
        ((λ x, if decide (x = leased_row) then r' else x) <$> t_scheduled (tb leased1)) (tb leased1)) (tb s')
      ∧ snapshot r' = snapshot leased_row ∧ r'.(sm_attempts) = attempts
      ∧ r'.(sm_status) = (if final then failed else scheduled)
      ∧ clock_reading failed_at ∧ r'.(sm_next_attempt_at) = (failed_at + delay)%Z
      ∧ (60000 ≤ delay ≤ 900000)%Z
      ∧ (∀ a, 1 ≤ a ≤ attempts → getScheduleRetryDelayMs a ≤ delay)%Z.
Proof.
  pose proof (failure_spec driver quiet_broadcast quiet_broadcast_reads "co" (demo_schedule "r1" None) 2000
    (OtherError "offline") leased1 leased_row leased1_keyed leased_row_in eq_refl) as Hw.
  exact (Hw (Z.le_refl 0)).
Defined.
