(* ===== verification/BulkWitness.v ===== *)
(** Concrete broadcasts.

    The workspace of ScheduledWitness.v: its job j1 with the leaf r2, and a second
    broadcast that the user creates.  The lemmas apply the theorems about broadcasts. *)

From S2P Require Import Prelude Js TenantDb Exec Steady Workflow Cases SendAccess LifecycleWitness Calendar Media Outbound Bulk Scheduled Around ScheduledMoves ScheduledRuns ScheduledSpec BulkJobs BulkAudience BulkCreate BulkProgress BulkPacing ScheduledWitness.

#[local] Existing Instance Calendar.utc_days.

Lemma sched2_jobs : keyed_jobs (tb sched2).
Proof. vm_compute. reflexivity. Qed.

Lemma cancel_job_spec_witness :
  ∃ r s', cancelBulkJob "co" "j1" None "u1" sched2 = (Ok r, s')
    ∧ ((r = mkCancel false 0 0 ∧ tb s' = tb sched2 ∧ ∀ j, j ∈ t_jobs (tb sched2) → j.(bj_id) = "j1" → live_job j = false)
       ∨ (r.(cn_didCancel) = true ∧ canceled_job "j1" "u1" (tb sched2) r (tb s'))).
Proof. exact (cancel_job_spec "co" "j1" None "u1" sched2 sched2_jobs sched2_keyed). Defined.

Lemma reschedule_job_spec_witness :
  ∃ r s', rescheduleBulkJob "j1" 9000 sched2 = (Ok r, s')
    ∧ ((∃ j, movable_job "j1" (tb sched2) j ∧ rescheduled "j1" 9000 (tb sched2) j r (tb s'))
       ∨ (r = mkReschedule false None None 0 ∧ tb s' = tb sched2 ∧ ∀ j, ¬ movable_job "j1" (tb sched2) j)).
Proof. exact (reschedule_job_spec "j1" 9000 sched2 sched2_jobs sched2_keyed). Defined.

Lemma progress_map_spec_witness :
  ∃ m s', getBulkJobProgressMap ["j1"; "j2"] sched2 = (Ok m, s') ∧ tb s' = tb sched2
    ∧ (∀ jobId, jobId ∈ ["j1"; "j2"] → ∀ s1, tb s1 = tb sched2 →
       ∃ s1', getBulkJobProgress jobId s1 = (Ok (default no_progress (m !! jobId)), s1') ∧ tb s1' = tb sched2)
    ∧ ∀ jobId, jobId ∉ ["j1"; "j2"] → m !! jobId = None.
Proof. exact (progress_map_spec ["j1"; "j2"] sched2 sched2_jobs). Defined.

(** A dispatcher holds r2 when the user cancels j1; the send then fails. *)
Definition flying : db := (run_demo [ClaimLeaf (λ _, false) "w1" 1000 2000] sched2).2.
Definition flying_leaf : scheduled_row := default (demo_schedule "r2" None) (t_scheduled (tb flying) !! 1).
Definition canceled_flying : result CancelBulkJobResult * db := cancelBulkJob "co" "j1" None "u1" flying.
Definition failed_flying : result bool * db :=
  recordDispatchFailure driver quiet_broadcast "co" flying_leaf 2000 (OtherError "offline") canceled_flying.2.

Lemma flying_keyed : keyed_jobs (tb flying) ∧ keyed_schedules (tb flying).
Proof. vm_compute. split; reflexivity. Qed.
Lemma flying_rows : t_scheduled (tb flying) = [demo_schedule "r1" None; flying_leaf].
Proof. vm_compute. reflexivity. Qed.
Lemma flying_in : flying_leaf ∈ t_scheduled (tb flying).
Proof. rewrite flying_rows. right. left. Qed.
Lemma canceled_flying_eq : cancelBulkJob "co" "j1" None "u1" flying = (Ok (mkCancel true 0 1), canceled_flying.2).
Proof. vm_compute. reflexivity. Qed.
Lemma failed_flying_eq :
  recordDispatchFailure driver quiet_broadcast "co" flying_leaf 2000 (OtherError "offline") canceled_flying.2
  = (failed_flying.1, failed_flying.2).
Proof. unfold failed_flying. by destruct (recordDispatchFailure _ _ _ _ _ _ _). Qed.
Lemma flying_facts :
  of_job "j1" flying_leaf = true ∧ fenced flying_leaf.(sm_id) 2000 flying_leaf = true
  ∧ (0 ≤ flying_leaf.(sm_attempts) < 9)%Z.
Proof. vm_compute. by split_and!. Qed.

Lemma canceled_leaf_requeued_witness :
  (∃ r', r' ∈ t_scheduled (tb failed_flying.2) ∧ snapshot r' = snapshot flying_leaf ∧ r'.(sm_status) = scheduled
     ∧ ∀ now, (r'.(sm_next_attempt_at) ≤ now)%Z → is_leaf r' && due now r' = true)
  ∧ ∀ j, j ∈ t_jobs (tb failed_flying.2) → j.(bj_id) = "j1" → j.(bj_status) = job_canceled.
Proof.
  exact (canceled_leaf_requeued driver quiet_broadcast "co" "j1" None "u1" flying_leaf 2000 (OtherError "offline")
    flying flying_leaf (mkCancel true 0 1) canceled_flying.2 failed_flying.1 failed_flying.2
    quiet_broadcast_reads (proj1 flying_keyed) (proj2 flying_keyed) flying_in (proj1 flying_facts) (proj1 (proj2 flying_facts))
    canceled_flying_eq eq_refl eq_refl (proj2 (proj2 flying_facts)) failed_flying_eq).
Defined.

(** The next dispatcher sends the leaf of the canceled job. *)
Lemma canceled_job_still_sends :
  (run_demo [ClaimLeaf (λ _, false) "w1" 99999999 100000000; Send (demo_schedule "r2" (Some "j1")) 100000000]
     failed_flying.2).1.*1 = ["r2"].
Proof. vm_compute. reflexivity. Qed.

(** A broadcast to c1, confirmed with the hash of its preview. *)
Definition news : CreateBulkJobParams :=
  mkCreateParams "co" (js "news") (mkAudience [] ["c1"] None) (js "hi {{name}}") "text" None None None 5000
    "hash" "key2" "u1".
Definition created_run : result CreateBulkJobResult * db := createBulkJob no_hash demo_config news sched2.
Definition created_result : CreateBulkJobResult :=
  match created_run.1 with Ok r => r | Throw _ => mkCreateResult demo_job false end.

Lemma created_run_eq :
  createBulkJob no_hash demo_config news sched2 = (Ok created_result, created_run.2) ∧ created_result.(cr_created) = true.
Proof. vm_compute. split; reflexivity. Qed.

Lemma create_job_idempotent_witness :
  ∃ s3, createBulkJob no_hash demo_config news created_run.2 = (Ok (mkCreateResult created_result.(cr_job) false), s3)
    ∧ tb s3 = tb created_run.2.
Proof.
  exact (create_job_idempotent no_hash demo_config news sched2 created_result created_run.2 created_run.2
    (proj1 created_run_eq) (proj2 created_run_eq) eq_refl).
Defined.
