(* ===== verification/OutboxWitness.v ===== *)
(** Concrete runs of the command outbox: two messages to one customer and one to another. *)

From S2P Require Import Prelude Js TenantDb Exec Steady Workflow LifecycleWitness Media Outbound CommandOutbox OutboxSpec.

Definition quiet_failure (i : string) (p : command_payload) : M unit := mret tt.
Lemma quiet_failure_reads i p : reads (quiet_failure i p).
Proof. by intros s. Qed.
Definition no_message (e : err) : jsstring := [].

Definition text_to (to : jsstring) (m : string) : command_payload :=
  SendMessage (mkSendCommand m "ws1" to "text" (js "hi") None None "u1" None None).

Definition out0 : db := mkDb no_tables 0 0 0 0.
Definition out_row (i : string) (p : command_payload) (now : Z) : command_row :=
  mkCommand i "subject" p command_pending 0 now None now None.
Definition row0 : command_row := out_row "i0" (text_to (js "a") "pending_1") 1000000.
Definition row1 : command_row := out_row "i1" (text_to (js "a") "pending_2") 1001000.

(** The second message to a customer waits for the first. *)
Definition out_ops : list outbox_op :=
  [Accept "subject" row0.(cm_payload); Accept "subject" row1.(cm_payload);
   Accept "subject" (text_to (js "b") "pending_3");
   Claim (λ _, false); Renew row0 31004000; Renew row1 31004000; Published row0 31005000;
   Claim (λ _, false); Renew row1 31009000].

Lemma out_log :
  cm_id <$> (outbox_run quiet_failure no_message out_ops out0).1 = ["i0"; "i1"].
Proof. vm_compute. reflexivity. Qed.

Lemma accepted_later_check l l' :
  forallb (λ r, forallb (λ x, (x.(cm_created_at) <? r.(cm_created_at))%Z) l) (drop (length l) l') = true →
  accepted_later l l'.
Proof.
  intros Hf r Hr x Hx. rewrite forallb_forall in Hf. apply list_elem_of_In in Hr, Hx.
  specialize (Hf r Hr). rewrite forallb_forall in Hf. by apply Z.ltb_lt, Hf.
Qed.

Lemma out_forward : clock_forward quiet_failure no_message out_ops out0.
Proof.
  unfold out_ops. cbn [clock_forward]. cbv zeta.
  repeat (split; [apply accepted_later_check; vm_compute; reflexivity|]). exact I.
Qed.

Lemma outbox_in_order_witness :
  StronglySorted in_order (outbox_run quiet_failure no_message out_ops out0).1.
Proof.
  apply (outbox_in_order quiet_failure no_message quiet_failure_reads out_ops out0); [reflexivity| |apply out_forward].
  intros r Hr. by apply not_elem_of_nil in Hr.
Defined.

(** The claimed first message, whose tenth attempt the broker refuses. *)
Definition out1 : db := (outbox_run quiet_failure no_message (take 4 out_ops) out0).2.
Definition refusing (i : string) : option err := Some (OtherError "no stream").
Definition tired : command_row := cm_update row0 command_pending 9 1000000 None None.

Lemma out1_keyed : keyed_commands (tb out1).
Proof. vm_compute. reflexivity. Qed.

Lemma outbox_dispatch_spec_witness :
  let '(res, s') := dispatch_command (broker refusing) quiet_failure no_message tired 31004000 out1 in
  (∀ r, r ∈ t_commands (tb out1) → leased tired.(cm_id) 31004000 r = true →
     dispatched tired r (refusing tired.(cm_id)) (tb out1) (tb s'))
  ∧ ((∀ r, r ∈ t_commands (tb out1) → leased tired.(cm_id) 31004000 r = false) → res = Ok tt ∧ tb s' = tb out1).
Proof.
  pose proof (outbox_dispatch_spec refusing quiet_failure no_message quiet_failure_reads tired 31004000 out1
    out1_keyed ltac:(done)) as Hw. exact Hw.
Defined.
