(* ===== verification/ReadinessWitness.v ===== *)
(** Concrete runs of the ready list: a command accepted while a dispatcher measures its
    workspace, and three recovery passes over two companies. *)

From S2P Require Import Prelude Js PublicRows TenantDb Exec Steady Workflow LifecycleWitness Media Outbound CommandOutbox OutboxSpec OutboxWitness Readiness ReadinessSpec.

Definition quiet_tables : shared :=
  mkShared (<["ws1" := company_active]> {["ws2" := company_active]}) ∅ ∅ (mkRecovery None 0).

(** The first command makes the workspace ready; a dispatcher claims it, publishes and
    reads the generation; then a second command comes. *)
Definition ready0 : system := mkSystem quiet_tables ∅ 10000000.
Definition shared1 : shared := write_outbox 1000000 "ws1" (InsertRow row0) quiet_tables.
Definition shared2 : shared := (claimReadyWorkspace (λ _, false) "t1" 2000000 shared1).2.
Definition shared3 : shared :=
  write_outbox 3000000 "ws1" (UpdateRows (λ r, bool_decide (r.(cm_id) = "i0"))
    (λ r, cm_update r command_published 1 r.(cm_next_attempt_at) None (Some 3000000%Z))) shared2.
Definition shared4 : shared := write_outbox 4000000 "ws1" (InsertRow row1) shared3.
Definition shared5 : shared := settleWorkspaceDispatch (mkClaim "ws1" "t1") 2 None 5000000 shared4.
Definition ready5 : system := mkSystem shared5 ∅ 10000000.

Lemma ready_claimed : claimReadyWorkspace (λ _, false) "t1" 2000000 shared1 = (Some (mkClaim "ws1" "t1"), shared2).
Proof. vm_compute. reflexivity. Qed.

(** The outdated measurement leaves the workspace due at once. *)
Lemma ready5_due : rd_due_at <$> shared5.(ready) !! "ws1" = Some (Some 5000000%Z).
Proof. vm_compute. reflexivity. Qed.

Lemma ready_run : rtc (active_step "ws1") ready0 ready5.
Proof.
  eapply rtc_l; [split; [reflexivity|]; apply (step_write "ws1" (InsertRow row0) 1000000); done|].
  eapply rtc_l; [split; [reflexivity|]; apply (step_claim 1 (λ _, false) "t1" 2000000 shared1 ∅ _ (mkClaim "ws1" "t1") shared2); try done|].
  eapply rtc_l; [split; [reflexivity|]; apply (step_write "ws1" (UpdateRows (λ r, bool_decide (r.(cm_id) = "i0"))
    (λ r, cm_update r command_published 1 r.(cm_next_attempt_at) None (Some 3000000%Z))) 3000000 shared2); done|].
  change (write_outbox 3000000 _ _ shared2) with shared3.
  eapply rtc_l; [split; [reflexivity|]; eapply (step_finish 1 (Dispatching (mkClaim "ws1" "t1")) 3000000); [done| |]; vm_compute; reflexivity|].
  eapply rtc_l; [split; [vm_compute; reflexivity|]; eapply (step_finish 1 (Measuring (mkClaim "ws1" "t1") 2) 3000000); [done| |]; vm_compute; reflexivity|].
  eapply rtc_l; [split; [vm_compute; reflexivity|]; apply (step_write "ws1" (InsertRow row1) 4000000); done|].
  eapply rtc_l; [split; [vm_compute; reflexivity|]; eapply (step_finish 1 (Settling (mkClaim "ws1" "t1") 2 None) 5000000); [done| |]; vm_compute; reflexivity|].
  vm_compute. apply rtc_refl.
Qed.

Lemma no_command_forgotten_witness :
  announced 10000000 "ws1" shared5
  ∧ ∀ r now, is_active_company shared5 "ws1" = true → r ∈ outbox shared5 "ws1" → unfinished r = true →
      (Z.max r.(cm_next_attempt_at) (10000000 + minutes_us 2) ≤ now)%Z →
      ∃ x, ("ws1", x) ∈ candidates (λ _, false) now shared5.
Proof.
  apply (no_command_forgotten "ws1" ready0 ready0 ready5); [reflexivity| |apply rtc_refl| |apply ready_run].
  - intros c r Hr. cbn in Hr. by rewrite lookup_empty in Hr.
  - intros r Hr. by apply not_elem_of_nil in Hr.
Defined.

(** Three passes, a minute apart, with the second command still waiting; between the
    first two a company registers and another one is suspended. *)
Definition pass1 : shared := with_ready ∅ shared4.
Definition between : shared := recoverOutboxDispatch false 0 0 pass1.
Definition pass2 : shared :=
  mkShared (<["ws0" := company_active]> (<["ws2" := company_suspended]> between.(companies)))
    between.(outboxes) between.(ready) between.(recovery).
Definition pass3 : shared := recoverOutboxDispatch false 60000000 60000000 pass2.
Definition three_passes : list (Z * Z * shared) :=
  [(0, 0, pass1); (60000000, 60000000, pass2); (120000000, 120000000, pass3)]%Z.

Lemma three_passes_ok :
  passes three_passes ∧ always_active "ws1" three_passes ∧ within ["ws0"; "ws1"; "ws2"] three_passes.
Proof.
  split_and!.
  - cbn [passes three_passes]. split_and!; try done; vm_compute; by intros.
  - assert (Hall : forallb (λ x, is_active_company x.2 "ws1") three_passes = true) by (vm_compute; reflexivity).
    rewrite forallb_forall in Hall. intros n k s Hin%list_elem_of_In. apply (Hall _ Hin).
  - assert (Hall : forallb (λ x, forallb (λ d, bool_decide (d ∈ ["ws0"; "ws1"; "ws2"])) (active_companies x.2))
                     three_passes = true) by (vm_compute; reflexivity).
    rewrite forallb_forall in Hall. intros n k s d Hin%list_elem_of_In Hd%elem_of_active_companies%list_elem_of_In.
    specialize (Hall _ Hin). rewrite forallb_forall in Hall. by apply (bool_decide_unpack _), Is_true_eq_left, Hall.
Qed.

Lemma recovery_reaches_all_witness :
  ∃ n m s', (n, m, s') ∈ three_passes ∧ ∀ k, announced k "ws1" (recoverOutboxDispatch false n m s').
Proof.
  apply (recovery_reaches_all ["ws0"; "ws1"; "ws2"]
    [(60000000, 60000000, pass2); (120000000, 120000000, pass3)]%Z 0 0 pass1 "ws1");
    [apply (bool_decide_unpack _); vm_compute; done|apply three_passes_ok..|].
  apply Nat.leb_le. vm_compute. reflexivity.
Defined.

(** A turn that publishes everything; the workspace then waits for new work. *)
Definition publish_all (n : nat) (c : string) (s : shared) : option nat * shared :=
  (Some (length (keep unfinished (outbox s c))),
   write_outbox 3000000 c (UpdateRows unfinished
     (λ r, cm_update r command_published (r.(cm_attempts) + 1) r.(cm_next_attempt_at) None (Some 3000000%Z))) s).
Definition all_published : nat * shared :=
  dispatchPendingCommands (λ _ _, 2000000%Z) (λ _, "t1") (λ _ _, false) publish_all true false 0 0 shared1.

Lemma all_published_result :
  all_published.1 = 1 ∧ rd_due_at <$> all_published.2.(ready) !! "ws1" = Some None.
Proof. vm_compute. by split. Qed.

Lemma pending_commands_refine_witness :
  rtc step (mkSystem shared1 ∅ 10000000) (mkSystem all_published.2 ∅ 10000000).
Proof.
  apply (pending_commands_refine (λ _ _, 2000000%Z) (λ _, "t1") (λ _ _, false) publish_all 10000000 true false 0 0 shared1);
    [done..|].
  intros n c s. apply rtc_once. eexists _, _. split; [|reflexivity]. done.
Defined.
