(* ===== verification/IntentWitness.v ===== *)
(** Concrete runs of the dispatcher of neutral intents: a message that fails once, is
    retried and delivered; and one whose sender was removed. *)

From S2P Require Import Prelude Js SpineRows TenantDb SpineDb Exec Steady Workflow Fanout LifecycleWitness Permissions Media Outbound ChannelOutbound IntentSpec.

Definition neutral_flags : flag_row :=
  mkFlags true (Some (js "r1")) true (Some (js "r1")) false None "neutral" (Some (js "r1"))
    (Some [js "telegram_bot"]) (Some (js "r1")) (Some (js "7")).
Definition bot_account : account_row :=
  mkAccount "a1" (js "telegram") (js "telegram_bot") "connected" None None.
Definition with_members (l : list member_row) : directory :=
  mkDirectory (Some (Some neutral_flags)) l [bot_account] true.
Definition staff : directory := with_members [mkMember "mb1" "u1" "co" member None None 0].
Definition nobody : directory := with_members [].

Definition bot_intent (i : string) : intent_row :=
  mkIntent i "a1" "v9" (Some "m1") "send" i (mkPayload (Some "text") (Some (js "hi")) (Some "u1") None None)
    intent_pending 0 0 None None None None 0 0.
Definition bot_conversation : conversation_row := mkConversation "v9" kind_direct None None None "a1"
  (mkThread None "v9" None no_metadata None None 0).

Definition bot0 : db := mkDb (set_rows conversations [bot_conversation] demo_tables) 0 0 0 0.
Definition bot1 : db := (intent_step "co" (AddIntent (bot_intent "n1")) bot0).2.
Definition bot_claim (token : string) (attempt : string) : ClaimedIntent :=
  mkClaimed "n1" "co" "a1" "v9" (Some "m1") "send" "n1"
    (mkPayload (Some "text") (Some (js "hi")) (Some "u1") None None)
    (String.append "n1:" attempt) token (js "telegram_bot") (js "telegram").
Definition try_later : ProviderSendResult := SendFailed transient_failure "rate_limited" (Some 0%Z) None.
Definition delivered : ProviderSendResult := Delivered true (Some "req") (Some "ext1") None.

(** The late second outcome of the first claim changes nothing. *)
Definition bot_ops : list intent_op :=
  [AddIntent (bot_intent "n1"); ClaimNext staff (λ _, false); Complete (bot_claim "i0" "1") try_later;
   ClaimNext staff (λ _, false); Complete (bot_claim "i0" "1") try_later;
   Complete (bot_claim "i1" "2") delivered; ClaimNext staff (λ _, false); Recover].
Definition bot_end : list intent_event * db := intent_run "co" bot_ops bot0.

Lemma bot_log : bot_end.1 = [Handed "n1"; Returned "n1"; Handed "n1"].
Proof. vm_compute. reflexivity. Qed.
Lemma bot_status :
  (λ r, (r.(it_status), r.(it_attempts))) <$> t_intents (tb bot_end.2) = [(intent_confirmed, 2%Z)].
Proof. vm_compute. reflexivity. Qed.

Lemma bot0_keyed : keyed_intents (tb bot0).
Proof. reflexivity. Qed.

Lemma intent_handed_once_witness :
  alternates (waiting (tb bot0) "n1") (events_of "n1" (intent_run "co" bot_ops bot0).1).
Proof. exact (intent_handed_once "co" bot_ops bot0 "n1" bot0_keyed). Defined.

Definition bot2 : db := (intent_step "co" (ClaimNext staff (λ _, false)) bot1).2.
Lemma bot1_keyed : keyed_intents (tb bot1).
Proof. vm_compute. reflexivity. Qed.
Lemma bot2_keyed : keyed_intents (tb bot2).
Proof. vm_compute. reflexivity. Qed.
Lemma bot2_fanout : keyed_fanout (tb bot2).
Proof. vm_compute. reflexivity. Qed.
(** The delivered message is announced once. *)
Lemma bot_fanout :
  rows channel_message_delivery_outbox (tb bot_end.2) = [mkFanout "co" "a1" "v9" "m1" "realtime"].
Proof. vm_compute. reflexivity. Qed.

Lemma intents_follow_life_witness :
  let t' := tb (intent_step "co" (ClaimNext staff (λ _, false)) bot1).2 in
  keyed_intents t'
  ∧ ∀ i, intent_of t' i = intent_of (tb bot1) i
         ∨ intent_life (ClaimNext staff (λ _, false)) (intent_of (tb bot1) i) (intent_of t' i).
Proof. exact (intents_follow_life "co" (ClaimNext staff (λ _, false)) bot1 bot1_keyed). Defined.

Lemma completion_spec_witness :
  let '(res, s') := completeClaim "co" (bot_claim "i0" "1") delivered bot2 in
  res = Ok tt
  ∧ match first (fenced_intent (bot_claim "i0" "1")) (t_intents (tb bot2)) with
    | None => tb s' = tb bot2
    | Some r => completed "co" (bot_claim "i0" "1") delivered r (tb bot2) (tb s')
                ∧ ((0 ≤ r.(it_attempts))%Z → (5000 ≤ intent_retry_delay r.(it_attempts) None ≤ 900000)%Z)
    end.
Proof. pose proof (completion_spec "co" (bot_claim "i0" "1") delivered bot2 bot2_keyed bot2_fanout) as Hw. exact Hw. Defined.

(** The member is removed between the claim and the hand-over. *)
Lemma bot_claimed :
  claim_intent "co" staff (getChannelSpineWorkspaceAuthority staff.(dr_flags)) (λ _, false) bot1
  = (Ok (Some (bot_claim "i0" "1")), bot2).
Proof. vm_compute. reflexivity. Qed.

Lemma nobody_may_send : ¬ may_send "co" nobody (tb bot2) (bot_claim "i0" "1").
Proof. intros (a & r & p & c & _ & _ & Hm & _). by vm_compute in Hm. Qed.

Lemma provider_needs_authority_witness :
  (∀ registry registry', dispatch_outbound "co" registry staff nobody (λ _, false) bot1
                         = dispatch_outbound "co" registry' staff nobody (λ _, false) bot1)
  ∧ ∀ registry, wa_writeAuthority (getChannelSpineWorkspaceAuthority staff.(dr_flags)) = "neutral" → staff.(dr_ready) = true →
      let t' := tb (dispatch_outbound "co" registry staff nobody (λ _, false) bot1).2 in
      match first (fenced_intent (bot_claim "i0" "1")) (t_intents (tb bot2)) with
      | None => t' = tb bot2
      | Some r => completed "co" (bot_claim "i0" "1") revoked r (tb bot2) t'
      end.
Proof.
  exact (provider_needs_authority "co" staff nobody (λ _, false) bot1 (bot_claim "i0" "1") bot2
    bot_claimed bot2_keyed bot2_fanout nobody_may_send).
Defined.
