(* ===== verification/ChannelWitness.v ===== *)
(** Concrete events: a chat of a Telegram bot.

    Ada writes to the bot, edits her message and reacts to it.  The lemmas apply the
    theorems on the channel spine and on the adapter to these updates; the last ones
    show what the code does with a second reaction, with a custom emoji and with an edit
    that overtakes its message. *)

From S2P Require Import Prelude Js Json PublicRows SpineRows TenantDb SpineDb Exec Steady OAuth Team CredentialWitness BulkAudience LifecycleWitness Workflow Cases Outbound ChannelOutbound ChannelEvents ChannelEventSpec ChannelMessages ChannelCustomers ChannelDelivery ChannelRuns Telegram TelegramSpec ChannelRetry.

#[export] Instance demo_runtime : ChannelRuntime := {|
  sha256 text := text; localeCompare_le := js_leb; failure_text _ := js "failed" |}.

#[export] Instance demo_collation_total : Total (λ a b, localeCompare_le a b = true).
Proof. exact js_le_total. Defined.
#[export] Instance demo_collation_trans : Transitive (λ a b, localeCompare_le a b = true).
Proof. exact js_le_trans. Defined.
Lemma demo_sha256_inj : Inj (=) (=) sha256.
Proof. intros a b Hab. exact Hab. Qed.

Definition received : timestamp := iso_timestamp 1700000001000.
Definition bot_context : TelegramNormalizationContext := mkContext "co" "tg1" received.

(** ** Updates *)

Definition ada : jsval := object [("id", JNumber 42); ("is_bot", JBool false); ("first_name", text_value "Ada")].
Definition ada_chat : jsval := object [("id", JNumber 42); ("type", text_value "private"); ("first_name", text_value "Ada")].
Definition ada_message (text : string) (rest : list (string * jsval)) : jsval :=
  object ([("message_id", JNumber 5); ("date", JNumber 1700000000); ("chat", ada_chat); ("from", ada);
           ("text", text_value text)] ++ rest).
Definition hello_update : jsval := object [("update_id", JNumber 7); ("message", ada_message "hello" [])].
Definition edit_update (u at_ : Z) (text : string) : jsval :=
  object [("update_id", JNumber u); ("edited_message", ada_message text [("edit_date", JNumber at_)])].

Definition emoji (e : string) : jsval := object [("type", text_value "emoji"); ("emoji", text_value e)].
Definition custom (e : string) : jsval := object [("type", text_value "custom_emoji"); ("custom_emoji_id", text_value e)].
Definition ada_reaction (old new : list jsval) : jsval :=
  object [("chat", ada_chat); ("message_id", JNumber 5); ("user", ada); ("date", JNumber 1700000009);
          ("old_reaction", JArray old); ("new_reaction", JArray new)].

Definition events_or_none (r : result (list NormalizedChannelEvent)) : list NormalizedChannelEvent :=
  match r with Ok l => l | Throw _ => [] end.
Definition hello_events : list NormalizedChannelEvent := events_or_none (normalizeTelegramUpdate hello_update bot_context).
Definition edit_events (u at_ : Z) (text : string) : list NormalizedChannelEvent :=
  events_or_none (normalizeTelegramUpdate (edit_update u at_ text) bot_context).
Definition reaction_events_of (old new : list jsval) : list NormalizedChannelEvent :=
  events_or_none (normalizeReaction bot_context 9 (ada_reaction old new)).

Lemma hello_normalized : normalizeTelegramUpdate hello_update bot_context = Ok hello_events.
Proof. vm_compute. reflexivity. Qed.
Lemma edit_normalized : normalizeTelegramUpdate (edit_update 8 1700000010 "hi") bot_context = Ok (edit_events 8 1700000010 "hi").
Proof. vm_compute. reflexivity. Qed.
Lemma reaction_normalized_demo :
  normalizeReaction bot_context 9 (ada_reaction [emoji "a"; emoji "b"] [emoji "b"; emoji "c"])
  = Ok (reaction_events_of [emoji "a"; emoji "b"] [emoji "b"; emoji "c"]).
Proof. vm_compute. reflexivity. Qed.

Definition nothing : NormalizedChannelEvent := telegram_event bot_context 0 "" received TypingUpdateEvent JUndefined.
Definition nth_event (n : nat) (l : list NormalizedChannelEvent) : NormalizedChannelEvent := nth n l nothing.
Definition hello_event : NormalizedChannelEvent := nth_event 2 hello_events.
Definition edit_event (u at_ : Z) (text : string) : NormalizedChannelEvent := nth_event 2 (edit_events u at_ text).

(** ** A workspace with the bot's account *)

Definition bot_spine : spine_tables :=
  mkSpine [mkSpineAccount "tg1" "telegram" "telegram_bot" account_connected None None 0 None] [] [] [] [] [] [] [] [] [] [].
Definition tg0 : db :=
  mkDb (mkTables [] [] [] [] [] [] [] [] [] [] [demo_policy] [] [] [] [] [] [] [] [] no_public bot_spine) 0 0 0 0.
Definition deliver_all (l : list NormalizedChannelEvent) (s : db) : db :=
  foldl (λ s e, (applyNormalizedChannelEvent e s).2) s l.
(** After Ada's message. *)
Definition tg1 : db := deliver_all hello_events tg0.

Lemma hello_applied :
  ac_outcome <$> (match applyNormalizedChannelEvent hello_event (deliver_all (take 2 hello_events) tg0) with
                  | (Ok a, _) => Some a | _ => None end) = Some outcome_applied
  ∧ (λ m, (m.(ms_content), m.(ms_contact_id), m.(ms_status))) <$> t_messages (tb tg1) = [(js "hello", Some "i2", "delivered")]
  ∧ (λ r, (r.(ib_status), r.(ib_attempts))) <$> inbox (tb tg1) = [(inbox_applied, 1%Z); (inbox_applied, 1%Z); (inbox_applied, 1%Z)].
Proof. vm_compute. repeat split. Qed.

(** ** The adapter *)

Lemma telegram_events_witness :
  Forall (trusted_event bot_context) hello_events ∧ NoDup (ev_eventId <$> hello_events)
  ∧ ∀ value' context' evs', normalizeTelegramUpdate value' context' = Ok evs' →
      requireUpdate value' ≠ requireUpdate hello_update →
      ∀ e e', e ∈ hello_events → e' ∈ evs' → ev_eventId e ≠ ev_eventId e'.
Proof. exact (telegram_events hello_update bot_context hello_events hello_normalized). Defined.

(** "a" and "b" become "b" and "c". *)
Lemma reaction_deltas_witness :
  let reaction := ada_reaction [emoji "a"; emoji "b"] [emoji "b"; emoji "c"] in
  ∃ reactor old new,
    actor (property "user" reaction) (property "actor_chat" reaction) = Ok (Some reactor)
    ∧ each keyed (elements (property "old_reaction" reaction)) = Ok old
    ∧ each keyed (elements (property "new_reaction" reaction)) = Ok new
    ∧ ∀ key, let id := reaction_id reactor (id_text (property "message_id" reaction)) key in
        length (keep (reaction_change true id) (reaction_events_of [emoji "a"; emoji "b"] [emoji "b"; emoji "c"]))
        = Z.to_nat (reactionCount new.*1 key - reactionCount old.*1 key)
        ∧ length (keep (reaction_change false id) (reaction_events_of [emoji "a"; emoji "b"] [emoji "b"; emoji "c"]))
          = Z.to_nat (reactionCount old.*1 key - reactionCount new.*1 key).
Proof.
  exact (reaction_deltas bot_context 9 (ada_reaction [emoji "a"; emoji "b"] [emoji "b"; emoji "c"]) _ reaction_normalized_demo).
Defined.

Lemma reaction_demo :
  event_kind ∘ ev_payload <$> drop 2 (reaction_events_of [emoji "a"; emoji "b"] [emoji "b"; emoji "c"])
  = ["reaction.delete"; "reaction.upsert"].
Proof. vm_compute. reflexivity. Qed.

(** ** Storage and retry *)

Lemma hello_well_keyed : well_keyed localeCompare_le hello_event.(ev_object) = true.
Proof. vm_compute. reflexivity. Qed.

Lemma digest_survives_storage_witness :
  channelEventPayloadDigest (stored_event hello_event) = channelEventPayloadDigest hello_event
  ↔ fully_defined hello_event.(ev_object) = true.
Proof. exact (digest_survives_storage hello_event demo_sha256_inj hello_well_keyed). Defined.

(** The message event of a private chat has properties that are undefined. *)
Lemma hello_not_fully_defined : fully_defined hello_event.(ev_object) = false.
Proof. vm_compute. reflexivity. Qed.

Definition early_edit : NormalizedChannelEvent := edit_event 8 1700000010 "hi".
Definition tg_early : db := (applyNormalizedChannelEvent early_edit tg0).2.
Lemma early_edit_in : early_edit ∈ edit_events 8 1700000010 "hi".
Proof. unfold early_edit, edit_event, nth_event. vm_compute. by repeat first [by left|right]. Qed.
Lemma early_edit_outside : outside_album early_edit.
Proof. vm_compute. reflexivity. Qed.
Lemma early_edit_new : inbox_of early_edit (tb tg0) = None.
Proof. vm_compute. reflexivity. Qed.
Lemma early_edit_fails : applyNormalizedChannelEvent early_edit tg0 = (Throw (OtherError "message_dependency_missing"), tg_early).
Proof. vm_compute. reflexivity. Qed.
Lemma early_edit_recorded : tb tg_early ≠ tb tg0.
Proof. intros Heq. apply (f_equal (λ t, length (inbox t))) in Heq. by vm_compute in Heq. Qed.

Lemma telegram_failure_is_final_witness :
  ∃ row, inbox_of early_edit (tb tg_early) = Some row ∧ row.(ib_status) = inbox_pending
  ∧ ∀ authority s2, tb s2 = tb tg_early → stored_event_valid authority early_edit.(ev_companyId) row = true →
      match retry_row authority early_edit.(ev_companyId) row s2 with
      | (Ok a, s3) => a = None ∧ only_inbox early_edit (tb s2) (tb s3)
          ∧ ∃ row', inbox_of early_edit (tb s3) = Some row' ∧ row'.(ib_status) = inbox_quarantined
      | (Throw _, _) => False
      end.
Proof.
  exact (telegram_failure_is_final (edit_update 8 1700000010 "hi") bot_context _ early_edit tg0
    (OtherError "message_dependency_missing") tg_early demo_sha256_inj edit_normalized early_edit_in
    early_edit_outside early_edit_new early_edit_fails eq_refl early_edit_recorded).
Defined.

(** ** Messages *)

Lemma tg1_message_ids : message_ids_unique (tb tg1).
Proof. vm_compute. reflexivity. Qed.
Definition later_edit : NormalizedChannelEvent := edit_event 9 1700000020 "hi there".

Lemma messages_follow_clock_witness :
  messages_step (default 0%Z (occurred later_edit).(ts_instant)) (tb tg1) (tb (applyNormalizedChannelEvent later_edit tg1).2).
Proof. exact (messages_follow_clock later_edit tg1 tg1_message_ids). Defined.

Definition ada_target : string * string * string := ("tg1", "telegram-thread:42", "5").
Definition ada_row : message_row := default (demo_message "none" false) (head (t_messages (tb tg1))).
Lemma ada_found : first (target_of ada_target) (t_messages (tb tg1)) = Some ada_row.
Proof. vm_compute. reflexivity. Qed.
Lemma ada_edits : Forall (edits_of ada_target) [early_edit; later_edit].
Proof. by repeat (apply Forall_cons; split; [do 2 eexists; split; vm_compute; reflexivity|]). Qed.
Lemma ada_edit_times : NoDup (omap edit_at [early_edit; later_edit]).*1.
Proof. apply (bool_decide_unpack _). vm_compute. exact I. Qed.
Lemma ada_swapped : [later_edit; early_edit] ≡ₚ [early_edit; later_edit].
Proof. apply Permutation_swap. Qed.

Lemma edits_converge_witness :
  match mapM applyDurableEvent [later_edit; early_edit] tg1 with
  | (Ok _, s') =>
      t_messages (tb s') = update_where (message_is ada_row.(ms_id))
        (newest_edit (omap edit_at [early_edit; later_edit])) (t_messages (tb tg1))
  | (Throw _, _) => False
  end.
Proof.
  pose proof (edits_converge ada_target [early_edit; later_edit] [later_edit; early_edit] ada_row tg1
    tg1_message_ids ada_found ada_edits ada_edit_times ada_swapped) as Hw.
  exact Hw.
Defined.

Lemma edits_demo :
  ms_content <$> t_messages (tb (deliver_all [later_edit; early_edit] tg1)) = [js "hi there"].
Proof. vm_compute. reflexivity. Qed.

(** ** Customers *)

Definition tg_known : db := deliver_all (take 2 hello_events) tg0.
Lemma tg_known_endpoints : endpoint_ids_unique (tb tg_known).
Proof. vm_compute. reflexivity. Qed.

Lemma customers_never_reassigned_witness :
  customers_kept (tb tg_known) (tb (applyNormalizedChannelEvent hello_event tg_known).2).
Proof. exact (customers_never_reassigned hello_event tg_known tg_known_endpoints). Defined.


Lemma customer_demo :
  (attachWorkflowContact "i1" (Some "i0") tg_known).1 = Ok (Some "i2")
  ∧ ep_contact_id <$> endpoints (tb (attachWorkflowContact "i1" (Some "i0") tg_known).2) = [Some "i2"].
Proof. vm_compute. by split. Qed.

(** ** Runs *)

Definition neutral : WorkspaceAuthority := mkAuthority true true false "neutral" [js "telegram_bot"] configured.
Definition channel_ops : list channel_op :=
  (Deliver <$> hello_events)
  ++ [Deliver early_edit; Deliver hello_event; Deliver early_edit; Retry "co" neutral true; Elsewhere (mret tt)].

Lemma channel_ops_behaved : well_behaved channel_ops.
Proof.
  intros m Hm. apply elem_of_app in Hm as [(e & He & _)%list_elem_of_fmap|Hm]; [done|].
  repeat (apply elem_of_cons in Hm as [Hm|Hm]; [try done; injection Hm as ->; apply steady_ret, _|]).
  by apply not_elem_of_nil in Hm.
Qed.

Lemma event_applied_once_witness :
  applications (identity_of hello_event) (channel_run channel_ops tg0).1 ≤ 1.
Proof. exact (event_applied_once channel_ops tg0 (identity_of hello_event) channel_ops_behaved). Defined.

Lemma channel_ops_log :
  (λ x, bool_decide (x = Some (identity_of hello_event))) <$> (channel_run channel_ops tg0).1
  = [false; false; true; false; false; false; false; false].
Proof. vm_compute. reflexivity. Qed.

(** ** What the code does with these *)

Definition answer_of (e : NormalizedChannelEvent) (s : db) : result AppliedChannelEvent := (applyNormalizedChannelEvent e s).1.

(** A second reaction of one person on one message breaks the unique index of
    migration 029, each time that it is delivered. *)
Definition two_reactions : list NormalizedChannelEvent := reaction_events_of [] [emoji "a"; emoji "b"].
Lemma second_reaction_refused :
  let s := deliver_all (take 3 two_reactions) tg1 in
  answer_of (nth_event 3 two_reactions) s = Throw (UniqueViolation "message_reactions_unique")
  ∧ answer_of (nth_event 3 two_reactions) (deliver_all (drop 3 two_reactions) s)
    = Throw (UniqueViolation "message_reactions_unique").
Proof. vm_compute. by split. Qed.

(** The text that stands for a custom emoji does not fit the column. *)
Lemma custom_emoji_refused :
  answer_of (nth_event 2 (reaction_events_of [] [custom "5368324170671202286"])) tg1
  = Throw (OtherError "value too long for type character varying(10)").
Proof. vm_compute. reflexivity. Qed.

(** An edit that overtakes its message waits; its retry, once the message is there,
    quarantines it. *)
Definition tg_overtaken : db := deliver_all (early_edit :: hello_events) tg0.
Lemma overtaking_edit_lost :
  let waits s := (λ r, (r.(ib_status), r.(ib_last_error_code))) <$> head (inbox (tb s)) in
  waits tg_overtaken = Some (inbox_pending, Some (js "failed"))
  ∧ match retry_row neutral "co" (default (mkInbox "" "" [] "" [] early_edit inbox_pending 0 0 None 0 None)
                                   (head (inbox (tb tg_overtaken)))) tg_overtaken with
    | (Ok answer, s) => answer = None ∧ waits s = Some (inbox_quarantined, Some (js "event_identity_collision"))
        ∧ ms_content <$> t_messages (tb s) = [js "hello"]
    | _ => False
    end.
Proof. vm_compute. repeat split. Qed.

(** Another payload under the identifier of an event that was applied quarantines it. *)
Definition altered_hello : NormalizedChannelEvent :=
  mkEvent 1 hello_event.(ev_eventId) "co" "tg1" "telegram" "telegram_bot" None received hello_event.(ev_payload)
    (JObject []).
Lemma collision_unmarks_applied :
  ib_status <$> last (inbox (tb tg1)) = Some inbox_applied
  ∧ ib_status <$> last (inbox (tb (applyNormalizedChannelEvent altered_hello tg1).2)) = Some inbox_quarantined.
Proof. vm_compute. by split. Qed.
